(* ===== verification/_CoqProject ===== *)
-Q . S2P
Prelude.v
MachineInt.v
PduCount.v
TopoSort.v
Matrix.v
ToyRuma.v
EventAuth.v
Conflicts.v
AuthGraph.v
Mainline.v
StateRes.v
DbCodec.v
DbMap.v
CoreUtils.v
MutexMap.v
Effects.v
Short.v
World.v
AccountData.v
StateCache.v
Membership.v
Sending.v
SenderSystem.v
Delivery.v
Timeline.v
Outliers.v
OutlierStore.v
FetchPrev.v
StateCompressor.v
AuthChain.v
StateAccessor.v
RoomState.v
RoomTables.v
Alias.v
AppendPdu.v
ToyServer.v
Users.v
ToDevice.v
ToyUsers.v
Uiaa.v
KeyBackups.v
Presence.v
Typing.v
LazyLoading.v
Upgrade.v
Node.v
ToyNode.v
Inbound.v
ToyInbound.v
