(* ===== verification/Prelude.v ===== *)
(** * conduwuit: a verification library

    conduwuit is a Matrix homeserver in Rust.  This library models the parts
    that decide what the state of a room is, how events come in, are kept and
    go out, and what the server keeps for its own users: event authorization and
    state resolution ([src/src/core/matrix]), the tables and the encoding of
    their keys and values ([src/src/database]), and the services of
    [src/src/service] for rooms, received events, outgoing transactions, accounts
    and devices, sessions, key backups and presence.

    ** How the parts work together

    An event another server sends is verified and authorized against the auth
    events it names, which are fetched when they are missing
    ([rooms/event_handler]), and kept as an outlier.  The events before it are
    fetched; from their states follows the state at the event, in which it is
    authorized again, and the current state, in which it may only be marked as
    soft-failed.  Authorization is [event_auth.rs].  When the
    history forks, the states of the forks are resolved into one
    ([state_res/mod.rs]): the entries all forks agree on are kept; the
    conflicting ones, together with the difference of the auth chains, are sorted
    (power events by a topological sort over their auth events, the others by
    their place on the mainline of power levels events) and authorized one after
    the other.  The auth chains come from [rooms/auth_chain], which works on
    short event ids handed out by [rooms/short] from the counter of
    [globals/data.rs].  The resolved state is stored by [rooms/state_compressor]
    as a stack of differences; [rooms/state] keeps which of them a room and each
    of its events is in; memberships are kept by [rooms/state_cache] in
    tables by user and by room.  Accepted events, and those the server's own
    users create, are appended to the timeline
    ([rooms/timeline]), whose keys ([pdu/raw_id.rs]) sort in room order so that
    paging is a scan; appending also updates relations, threads, search,
    notification counts and memberships.  What other servers, appservices and
    pushers must learn is queued by [sending] and delivered by its workers.
    [users], [uiaa], [key_backups], [presence] and the like keep what belongs to
    the server's own users.  Everything is kept in
    tables ([database]) whose keys are written by [database/ser.rs] and read by
    [database/de.rs]; work on one room is serialized by a map of mutexes
    ([core/utils/mutex_map.rs]).

    ** Files

    - [Prelude]: outcomes of fallible code, loops, Rust's [Ord], orders the
      program does not fix ([Schedule]), the LRU cache interface.
    - [Effects]: the monad of stateful code whose errors roll nothing back.
    - [MachineInt]: widths, wrap-around, big-endian bytes, byte order
      ([core/utils/bytes.rs]).
    - [PduCount]: [Count], [Id], [RawId] ([pdu/count.rs], [id.rs], [raw_id.rs]).
    - [TopoSort]: [lexicographical_topological_sort], for any identifiers and
      key function.
    - [Matrix]: events, room versions, power levels ([event.rs], [error.rs],
      [room_version.rs], [power_levels.rs]); class [Ruma] for the JSON decoders.
    - [ToyRuma]: a small instance of [Ruma] and a small room, for witnesses.
    - [EventAuth]: [event_auth.rs].
    - [Conflicts], [AuthGraph], [Mainline], [StateRes]: [state_res/mod.rs]:
      [separate] and [get_auth_chain_diff]; the graph of power events and its
      sort; [mainline_sort]; [iterative_auth_check] and [resolve].
    - [DbCodec]: [database/ser.rs], [de.rs].
    - [DbMap]: [database/stream.rs], [map/*.rs], [watchers.rs]: scans, counts,
      writes and watchers of a table.
    - [CoreUtils]: sorted sets, strings, backoff, time units and content
      disposition of [core/utils].
    - [MutexMap]: [core/utils/mutex_map.rs] as interleaved steps of tasks.
    - [Short]: [globals/data.rs] (the counter) and [rooms/short/mod.rs].
    - [World]: the database the services share, and identifiers.
    - [AccountData]: [account_data/mod.rs].
    - [StateCache], [Membership]: [rooms/state_cache/mod.rs] with what it uses of
      [users], [metadata]: the operations; what they refine.
    - [Sending], [SenderSystem], [Delivery]: [sending/{dest,data,mod,sender}.rs]:
      the queue and the handlers; the workers and their loop as steps, with
      their invariant; what is delivered.
    - [Timeline]: [rooms/timeline/data.rs].
    - [Outliers], [OutlierStore]: [rooms/event_handler]'s outlier steps over the
      class [PduStore], and its instance from [Timeline] and
      [rooms/outlier/mod.rs].
    - [FetchPrev]: [rooms/event_handler/fetch_prev.rs].
    - [StateCompressor]: [rooms/state_compressor/mod.rs].
    - [AuthChain]: [rooms/auth_chain/mod.rs], [data.rs]; class [ShortIds] is
      what it needs of [Short], which provides the instance [short_service].
    - [StateAccessor], [RoomState]: [rooms/state_accessor], [rooms/state]:
      reading and writing the states of rooms and events.
    - [RoomTables]: [rooms/{pdu_metadata,read_receipt,user,search,threads}].
    - [Alias]: [rooms/alias], [rooms/directory], and who administers the server
      ([admin/mod.rs]).
    - [AppendPdu]: [rooms/timeline/mod.rs], [rooms/threads/mod.rs]: appending
      events and building the server's own; [ToyServer]: concrete parameters and
      a room, for witnesses.
    - [Users], [ToDevice]: [users/mod.rs]: accounts, devices, keys, tokens; the
      messages to devices.  [ToyUsers]: their witnesses.
    - [Uiaa]: [uiaa/mod.rs].
    - [KeyBackups]: [key_backups/mod.rs], [transaction_ids/mod.rs].
    - [Presence]: [presence/{mod,data,presence}.rs].
    - [Typing], [LazyLoading]: [rooms/typing/mod.rs], [rooms/lazy_loading/mod.rs].
    - [Upgrade]: the rest of [rooms/event_handler], over the class
      [RoomServices] of what it needs of the other services and [RoomLaws] of
      what those promise.
    - [Node]: the instance of both from [AppendPdu], [RoomState], [AuthChain] and
      [OutlierStore]; backfilling.  [ToyNode]: witnesses.
    - [Inbound]: [src/src/api/server/send.rs], the transactions other servers send,
      over [Node] and the services; [ToyInbound]: witnesses.

    ** Conventions

    A Rust function is a Rocq function of the same name.  A [Result] is an
    [outcome], in which a panic and a loop without fuel are separate cases; a
    theorem stated with [outcome_spec] therefore also says that the code does
    not panic and ends.  Mutable state is passed explicitly.  An integer is a
    [Z] kept in its width; a [HashMap], a [BTreeMap] or a table is a [gmap], a
    heap or a [Vec] a list.  Hash iteration order and the completion order of
    concurrent futures are chosen by a [Schedule], over which the theorems
    quantify; work done by several tasks on shared state runs one item after
    the other, except in [MutexMap] and [SenderSystem], whose steps interleave.
    [debug_assert!] is a parameter where both builds are modelled.  The clock and
    random strings are arguments of the calls that read them.
    Code of other crates is a parameter with its laws: [Ruma] (ruma, serde_json),
    [EventJson], [EventText], [PduJson], [MemberJson], [JsonText], [Json],
    [UserJson], [UiaaRuma], [PresenceJson], [RoomRuma], [TimelineRuma],
    [HandlerRuma], [NodeRuma], [InboundRuma] (ruma and serde_json on particular types, signatures
    included), [Unicode] (case and word boundaries), [Ids] (identifiers), [Engine]
    (RocksDB iterators), [LruCache] (lru_cache), the hash function,
    [fetch_event]/[event_exists] (closures of the caller).  [Federation] and
    [Backfill] are the rest of the network: answers, verified signatures and the
    clock, at every request anew.  [EduSource] stands for the selection of
    ephemeral events.  Logging is left out.

    ** What the theorems show

    - Resolution ([StateRes]): it keeps what all forks agree on, is the identity
      on equal forks, adds only authorized events of the conflicted set, ends
      and does not panic on acyclic, well-typed input whose member and create
      events have the fields the rules read; with several fetches in
      flight its result depends on their completion order.
    - The two sorts ([TopoSort], [AuthGraph], [Mainline]) return the list their
      specification describes ([greedy], [mainline_place]) and do not depend on
      hash or fetch order; [separate] and the auth chain difference are exact
      ([Conflicts]).
    - Authorization ([EventAuth]): no escalation of power levels once a room has
      them, who may send, join under the room's rule, kick and ban, that the
      selected auth types decide the verdict, and
      that no input panics on a checked state; a kick of a user of equal power
      can be accepted.
    - Received events ([Outliers], [FetchPrev]): whatever other servers answer,
      only verified and authorized events of the room become outliers; known
      events are not fetched; fetching ends when what is offered is finite.
    - The event handler ([Upgrade], against [RoomLaws]; [Node] proves the laws of
      the services): events of the timeline stay, and each that is added is so by
      a call of the upgrade in that run, in whose state it passed authorization;
      soft-failed events stay out; what is
      refused changes nothing; backfilling only prepends.
    - Transactions ([Inbound]): they are refused over the limits or in the name of
      a third server, add only admitted events, and their updates change only what
      belongs to users of the sending server; a repeated message is not delivered
      again.
    - The server's own events and the timeline ([AppendPdu], [RoomState]): they
      are authorized before they are stored; an inserted event stays whatever
      fails after it; the state of a room is updated as a map is.
    - Sending ([Delivery]), for a sender started with the burst on: no panic, at
      most one transaction in flight for each destination, none lost between start
      and shutdown but by delivery or cleanup, the queue drains
      while the destination answers, and the size of transactions.
    - Memberships ([Membership]): the tables refine one map from user and room
      to membership; counts and server lists are exact after a recount.
    - Accounts ([Users], [ToDevice], [Uiaa], [KeyBackups]): tokens find the device
      they were made for and stop with it; login tokens and one-time keys serve
      once; messages are kept until acknowledged; interactive authentication
      succeeds only when the stages of a flow were proved, where the named accounts
      have a password; a backup holds what was put in it.
    - Presence, typing, lazy loading: readers are told of the last presence, of
      who types until it times out, and of each member until acknowledged.
    - Commands ([Alias]): only administrators' messages are taken as commands, in
      the admin room or escaped.
    - Storage: keys read back, are found by prefix and (for timeline positions)
      sort in timeline order ([DbCodec], [DbMap], [PduCount]); pages are exact
      ([Timeline]); numbers are fresh, permanent and invertible ([Short]); a
      saved room state loads as saved ([StateCompressor]); an auth chain is
      exactly the set of ancestors, through both caches as long as these are exact
      ([AuthChain]); account
      data changes are exact ([AccountData]).
    - Locks ([MutexMap]): guards exclude each other and clean up after
      themselves.
    - Some theorems record behaviour the code does not intend; they are in
      modules named [Gaps] or say so in their comment.

    ** Fuel and bounds

    - [TopoSort.pop_loop] runs once per node: fuel is the size of the graph.
    - [AuthGraph.graph_loop] takes [chain_fuel], computed from the ids that can
      be reached; the potential shows that it is enough.
    - [Mainline]: fuel is an argument; any rank that decreases along auth events
      and lies below it is enough.
    - [AuthChain.walk]: one round per auth event that exists, plus the start.
    - [Outliers.fetch_loop]: fuel is an argument; [fetching_ends] says how much
      is enough, [endless_auth_chain] that no amount may be.  [Upgrade] takes it
      from its caller; its safety theorems hold for every amount.
    - [FetchPrev.prev_loop]: fuel is an argument; by [prev_fetching_ends] some
      amount is enough, since the limit of the code bounds the
      events it adds.
    - [DbCodec] and [StateCompressor.parse_diff] are bounded by their input;
      loading takes fuel 4, the largest number of layers.
    - [StateCompressor.max_entries] (2^31 - 1) bounds the entries of a state so
      that the products of its sizes stay within [usize].

    ** Not modelled

    - Input and output: media, federation requests with the resolver and server
      keys, the process's start, the HTTP listener, the storage engine.
    - The other HTTP API handlers and admin commands, which decode a request and call
      the services above; configuration; space hierarchy and the connections of
      sliding sync, which only collect what the services return.
    - Which ephemeral events a transaction carries, and what is put on the wire.
    - The loop that waits for the timers of presence; [user_can_invite] and
      [user_can_tombstone], which build a trial event that is then dropped;
      conversions of events to JSON forms for clients. *)

From stdpp Require Import prelude gmap strings list sorting.
From Stdlib Require Import ZArith Lia.

(** ** Outcomes of fallible code

    A Rust function that returns [Result<A, E>] and may also panic
    ([expect], [unwrap], [unimplemented!], indexing) has type [outcome E A].
    [OutOfFuel] is the value of a loop whose fuel ran out: a theorem that a
    loop terminates says that the outcome is not [OutOfFuel]. *)

Inductive outcome (E A : Type) : Type :=
| Done (a : A)
| Fail (e : E)
| Panic
| OutOfFuel.
Arguments Done {E A} a.
Arguments Fail {E A} e.
Arguments Panic {E A}.
Arguments OutOfFuel {E A}.

#[export] Instance outcome_ret {E} : MRet (outcome E) := fun A => Done.
#[export] Instance outcome_bind {E} : MBind (outcome E) := fun A B f m =>
  match m with
  | Done a => f a
  | Fail e => Fail e
  | Panic => Panic
  | OutOfFuel => OutOfFuel
  end.
#[export] Instance outcome_fmap {E} : FMap (outcome E) := fun A B f m =>
  match m with
  | Done a => Done (f a)
  | Fail e => Fail e
  | Panic => Panic
  | OutOfFuel => OutOfFuel
  end.

(** [Option::ok_or_else], [Result::ok] and [Option::expect]/[unwrap]. *)
Definition ok_or {E A} (e : E) (o : option A) : outcome E A :=
  match o with Some a => Done a | None => Fail e end.
Definition expect {E A} (o : option A) : outcome E A :=
  match o with Some a => Done a | None => Panic end.

(** [?] on the items of a sequence, in order: the first failure wins
    ([try_collect], [collect::<Result<_, _>>]). *)
Fixpoint try_map {E A B} (f : A -> outcome E B) (l : list A) : outcome E (list B) :=
  match l with
  | [] => Done []
  | a :: l' => b ← f a; bs ← try_map f l'; Done (b :: bs)
  end.

(** A [for] loop with [?] in its body. *)
Fixpoint try_fold {E A S} (f : S -> A -> outcome E S) (s : S) (l : list A) : outcome E S :=
  match l with
  | [] => Done s
  | a :: l' => s' ← f s a; try_fold f s' l'
  end.

Definition is_done {E A} (o : outcome E A) : Prop := exists a, o = Done a.

Lemma bind_Done {E A B} (m : outcome E A) (f : A -> outcome E B) b :
  m ≫= f = Done b <-> exists a, m = Done a /\ f a = Done b.
Proof. destruct m; simpl; naive_solver. Qed.

Lemma ok_or_Done {E A} (e : E) (o : option A) a : ok_or e o = Done a <-> o = Some a.
Proof. destruct o; simpl; naive_solver. Qed.

(** Checks by evaluation that a run returns a given result. *)
Definition returns {E A} `{EqDecision A} (o : outcome E A) (a : A) : bool :=
  match o with Done x => bool_decide (x = a) | _ => false end.

Lemma returns_Done {E A} `{EqDecision A} (o : outcome E A) a : returns o a = true -> o = Done a.
Proof. destruct o; cbn; [|done..]. intros ->%bool_decide_eq_true_1. done. Qed.

(** Takes apart a hypothesis [m ≫= f = Done b]. *)
Ltac bind_inv H :=
  lazymatch type of H with
  | _ ≫= _ = Done _ =>
      let a := fresh "a" in let H1 := fresh H in
      apply bind_Done in H as (a & H1 & H)
  end.

(** Takes apart a sequence of binds. *)
Ltac bind_invs H := repeat bind_inv H.

(** Associates appends to the right. *)
Ltac norm_app := repeat (rewrite <- app_assoc; cbn [app]).
Ltac norm_app_in H := repeat (rewrite <- app_assoc in H; cbn [app] in H).

(** What an outcome may be: a result that satisfies [P] or an error that
    satisfies [Q], and neither a panic nor a loop that ran out of fuel. *)
Definition outcome_spec {E A} (o : outcome E A) (P : A -> Prop) (Q : E -> Prop) : Prop :=
  match o with Done a => P a | Fail e => Q e | Panic | OutOfFuel => False end.

Lemma outcome_spec_bind {E A B} (m : outcome E A) (f : A -> outcome E B) P Q R :
  outcome_spec m P Q -> (forall a, P a -> outcome_spec (f a) R Q) ->
  outcome_spec (m ≫= f) R Q.
Proof. destruct m; simpl; auto. Qed.

Lemma outcome_spec_mono {E A} (o : outcome E A) (P P' : A -> Prop) (Q Q' : E -> Prop) :
  outcome_spec o P Q -> (forall a, P a -> P' a) -> (forall e, Q e -> Q' e) ->
  outcome_spec o P' Q'.
Proof. destruct o; simpl; auto. Qed.

(** Only the errors are weakened: for the first part of a sequence. *)
Lemma outcome_spec_errors {E A} (o : outcome E A) (P : A -> Prop) (Q Q' : E -> Prop) :
  outcome_spec o P Q -> (forall e, Q e -> Q' e) -> outcome_spec o P Q'.
Proof. intros H HQ. by eapply outcome_spec_mono. Qed.

(** The loop rule for a [for] loop: the invariant speaks of the items done. *)
Lemma try_fold_spec {E A S} (f : S -> A -> outcome E S) (I : list A -> S -> Prop) Q l s :
  I [] s ->
  (forall pre a post s, l = pre ++ a :: post -> I pre s ->
     outcome_spec (f s a) (I (pre ++ [a])) Q) ->
  outcome_spec (try_fold f s l) (I l) Q.
Proof.
  intros HI Hstep.
  enough (forall pre post s, l = pre ++ post -> I pre s ->
            outcome_spec (try_fold f s post) (I l) Q) as G by by apply (G [] l).
  clear s HI. intros pre post. revert pre. induction post as [|a post IH]; intros pre s -> HI.
  - simpl. by rewrite app_nil_r in *.
  - simpl. eapply outcome_spec_bind; [by eapply Hstep|].
    intros s' Hs'. apply (IH (pre ++ [a])); [|done]. by rewrite <- app_assoc.
Qed.

(** An invariant carried through a [for] loop that succeeds. *)
Lemma try_fold_inv {E A S} (f : S -> A -> outcome E S) (I : list A -> S -> Prop) l :
  forall s s', try_fold f s l = Done s' -> I [] s ->
  (forall done a s s', I done s -> f s a = Done s' -> I (done ++ [a]) s') ->
  I l s'.
Proof.
  intros s s' H HI Hstep.
  enough (forall pre, I pre s -> I (pre ++ l) s') as G by apply (G [] HI).
  clear HI. revert s H. induction l as [|a l IH]; simpl; intros s H pre HI.
  - injection H as ->. by rewrite app_nil_r.
  - bind_inv H. replace (pre ++ a :: l) with ((pre ++ [a]) ++ l) by by rewrite <- app_assoc.
    eauto.
Qed.

Lemma try_fold_app {E A S} (f : S -> A -> outcome E S) s l1 l2 :
  try_fold f s (l1 ++ l2) = s' ← try_fold f s l1; try_fold f s' l2.
Proof. revert s. induction l1 as [|a l1 IH]; simpl; intros s; [done|]. by destruct (f s a); simpl. Qed.

Lemma NoDup_fmap_fst_filter {K V} (P : K * V -> Prop) `{!forall x, Decision (P x)} l :
  NoDup l.*1 -> NoDup (filter P l).*1.
Proof.
  induction l as [|a l IH]; [done|]. rewrite fmap_cons, NoDup_cons, filter_cons.
  intros [Ha Hl]. case_decide; [|auto]. rewrite fmap_cons. apply NoDup_cons. split; [|auto].
  intros (b & Hb & [_ Hin]%list_elem_of_filter)%list_elem_of_fmap. apply Ha.
  rewrite Hb. by apply list_elem_of_fmap_2.
Qed.

Lemma list_filter_fmap {A B} (f : A -> B) (P : B -> Prop) `{!forall x, Decision (P x)} (l : list A) :
  filter P (f <$> l) = f <$> filter (fun x => P (f x)) l.
Proof.
  induction l as [|a l IH]; [done|]. rewrite fmap_cons, !filter_cons, IH. by case_decide.
Qed.

Lemma NoDup_fmap_fst_unique {K V} (l : list (K * V)) k v v' :
  NoDup l.*1 -> (k, v) ∈ l -> (k, v') ∈ l -> (k, v) = (k, v').
Proof.
  induction l as [|[k0 v0] l IH]; [by intros _ []%not_elem_of_nil|].
  rewrite fmap_cons, NoDup_cons. intros [Hn Hl] [H1|H1]%elem_of_cons [H2|H2]%elem_of_cons.
  - congruence.
  - injection H1 as <- <-. exfalso. apply Hn. by apply (list_elem_of_fmap_2 fst) in H2.
  - injection H2 as <- <-. exfalso. apply Hn. by apply (list_elem_of_fmap_2 fst) in H1.
  - auto.
Qed.

(** ** Rust's [Ord]

    A total order given by a comparison function, with [Ordering::then]. *)

Class RustOrd (A : Type) := {
  cmp : A -> A -> comparison;
  cmp_eq_iff : forall a b, cmp a b = Eq <-> a = b;
  cmp_antisym : forall a b, cmp b a = CompOpp (cmp a b);
  cmp_lt_trans : forall a b c, cmp a b = Lt -> cmp b c = Lt -> cmp a c = Lt }.

Definition then_cmp (c d : comparison) : comparison :=
  match c with Eq => d | _ => c end.

Section rust_ord.
Context {A : Type} `{RustOrd A}.
Implicit Types a b c : A.

Definition ord_le a b : Prop := cmp a b <> Gt.

#[global] Instance ord_le_dec a b : Decision (ord_le a b).
Proof. unfold ord_le. apply _. Defined.

Lemma cmp_refl a : cmp a a = Eq.
Proof. by apply cmp_eq_iff. Qed.

Lemma cmp_gt_lt a b : cmp a b = Gt <-> cmp b a = Lt.
Proof. rewrite (cmp_antisym a b). by destruct (cmp a b). Qed.

#[global] Instance ord_le_total : TotalOrder ord_le.
Proof.
  unfold ord_le. split; [split; [split|]|].
  - intros a. by rewrite cmp_refl.
  - intros a b c Hab Hbc Hac.
    destruct (cmp a b) eqn:E1; [|destruct (cmp b c) eqn:E2|done]; try done.
    + apply cmp_eq_iff in E1 as ->. done.
    + apply cmp_eq_iff in E2 as ->. congruence.
    + by rewrite (cmp_lt_trans a b c) in Hac.
  - intros a b Hab Hba. destruct (cmp a b) eqn:E; try done.
    + by apply cmp_eq_iff.
    + by apply cmp_gt_lt in E.
  - intros a b. unfold strict. rewrite (cmp_antisym a b), <- (cmp_eq_iff a b).
    destruct (cmp a b); simpl; naive_solver.
Qed.

Lemma ord_le_trans a b c : ord_le a b -> ord_le b c -> ord_le a c.
Proof. intros. by trans b. Qed.

Lemma ord_le_antisym a b : ord_le a b -> ord_le b a -> a = b.
Proof. intros. by apply (anti_symm ord_le). Qed.

Lemma not_ord_le a b : ~ ord_le a b -> ord_le b a.
Proof. intros Hn. destruct (total ord_le a b); [done|]. done. Qed.

(** The least element of a list, and the list without one occurrence of it:
    [BinaryHeap::pop] on a heap of [Reverse] items. *)
Fixpoint pop_least (l : list A) : option (A * list A) :=
  match l with
  | [] => None
  | a :: l' =>
      match pop_least l' with
      | None => Some (a, [])
      | Some (m, r) => if decide (ord_le a m) then Some (a, l') else Some (m, a :: r)
      end
  end.

Lemma pop_least_None l : pop_least l = None <-> l = [].
Proof. destruct l; simpl; [done|]. destruct (pop_least l) as [[]|]; [case_decide|]; done. Qed.

Lemma pop_least_Some l m r :
  pop_least l = Some (m, r) -> l ≡ₚ m :: r /\ forall a, a ∈ l -> ord_le m a.
Proof.
  revert m r. induction l as [|a l IH]; simpl; intros m r; [done|].
  destruct (pop_least l) as [[m' r']|] eqn:E.
  - destruct (IH m' r' eq_refl) as [P L]. case_decide as D; intros [= <- <-].
    + split; [done|]. intros x [->|Hx]%elem_of_cons; [done|].
      apply (ord_le_trans _ m'); auto.
    + split; [rewrite P; apply Permutation_swap|].
      intros x [->|Hx]%elem_of_cons; [by apply not_ord_le|auto].
  - apply pop_least_None in E as ->. intros [= <- <-]. split; [done|].
    intros x ->%list_elem_of_singleton. done.
Qed.

End rust_ord.

#[global, program] Instance Z_ord : RustOrd Z := {| cmp := Z.compare |}.
Next Obligation. apply Z.compare_eq_iff. Qed.
Next Obligation. intros. apply Z.compare_antisym. Qed.
Next Obligation. intros a b c. rewrite !Z.compare_lt_iff. lia. Qed.

#[global, program] Instance string_ord : RustOrd string := {| cmp := String.compare |}.
Next Obligation.
  intros a b. split; [apply String.compare_eq_iff|intros ->].
  pose proof (String.compare_antisym b b). by destruct (String.compare b b).
Qed.
Next Obligation. intros. apply String.compare_antisym. Qed.
Next Obligation.
  intros a b c Hab Hbc.
  assert (String.le a c) as L.
  { trans b; unfold String.le, String.leb; [by rewrite Hab|by rewrite Hbc]. }
  unfold String.le, String.leb in L. destruct (String.compare a c) eqn:E; [|done|done].
  apply String.compare_eq_iff in E as ->. rewrite String.compare_antisym, Hab in Hbc. done.
Qed.

#[global, program] Instance nat_ord : RustOrd nat := {| cmp := Nat.compare |}.
Next Obligation. apply Nat.compare_eq_iff. Qed.
Next Obligation. intros. apply Nat.compare_antisym. Qed.
Next Obligation. intros a b c. rewrite !Nat.compare_lt_iff. lia. Qed.

(** Tuples compare lexicographically. *)
#[global, program] Instance prod_ord {A B} `{RustOrd A, RustOrd B} : RustOrd (A * B) :=
  {| cmp := fun x y => then_cmp (cmp x.1 y.1) (cmp x.2 y.2) |}.
Next Obligation.
  intros A B ? ? [a b] [c d]. cbn. rewrite pair_eq, <- (cmp_eq_iff a), <- (cmp_eq_iff b).
  unfold then_cmp. destruct (cmp a c); naive_solver.
Qed.
Next Obligation.
  intros A B ? ? [a b] [c d]. cbn. rewrite (cmp_antisym a c), (cmp_antisym b d).
  by destruct (cmp a c).
Qed.
Next Obligation.
  intros A B ? ? [a b] [c d] [e f]. cbn. unfold then_cmp.
  destruct (cmp a c) eqn:E1; [apply cmp_eq_iff in E1 as ->| |done].
  - destruct (cmp c e) eqn:E2; [|done|done]. apply cmp_lt_trans.
  - destruct (cmp c e) eqn:E2; [apply cmp_eq_iff in E2 as ->; by rewrite E1| |done].
    by rewrite (cmp_lt_trans a c e).
Qed.

(** ** Orders the program does not fix

    [HashMap]/[HashSet] iteration and [buffer_unordered] yield their items in
    an order the code does not determine.  A [Schedule] chooses one for every
    place in the code; a theorem quantified over the schedule holds for all of
    them. *)

Class Schedule := {
  reorder : forall {A : Type}, string -> list A -> list A;
  reorder_perm : forall A site (l : list A), reorder site l ≡ₚ l }.

(** [buffer_unordered(n)]: with one future in flight the order is kept. *)
Definition buffer_unordered `{Schedule} {A} (site : string) (n : nat) (l : list A) : list A :=
  if decide (n = 1) then l else reorder site l.

Lemma buffer_unordered_perm `{Schedule} {A} site n (l : list A) :
  buffer_unordered site n l ≡ₚ l.
Proof. unfold buffer_unordered. case_decide; [done|apply reorder_perm]. Qed.

Lemma elem_of_reorder `{Schedule} {A} site (l : list A) x : x ∈ reorder site l <-> x ∈ l.
Proof. by rewrite reorder_perm. Qed.

(** Two schedules for the witnesses: source order, and reversed. *)
Definition in_order : Schedule :=
  {| reorder := fun _ _ l => l; reorder_perm := fun _ _ l => Permutation_refl l |}.
Definition reversed : Schedule :=
  {| reorder := fun _ _ l => reverse l; reorder_perm := fun _ _ l => reverse_Permutation l |}.

(** ** The LRU cache of the crate [lru_cache]

    [peek] is what [get_mut] finds and [touch] how it reorders the cache.  A
    cache may forget entries but returns only what was inserted last. *)

Class LruCache (K V : Type) := {
  cache : Type;
  peek : cache -> K -> option V;
  touch : cache -> K -> cache;
  put : cache -> K -> V -> cache;
  clear : cache -> cache;
  peek_touch : forall c k k', peek (touch c k) k' = peek c k';
  peek_put : forall c k v k' v', peek (put c k v) k' = Some v' ->
    k' = k /\ v' = v \/ k' <> k /\ peek c k' = Some v';
  peek_clear : forall c k, peek (clear c) k = None }.

(** A cache of one entry, for the witnesses. *)
Program Definition one_entry (K V : Type) `{EqDecision K} : LruCache K V :=
  {| cache := option (K * V);
     peek := fun c k => '(k', v) ← c; if decide (k = k') then Some v else None;
     touch := fun c _ => c;
     put := fun _ k v => Some (k, v);
     clear := fun _ => None |}.
Next Obligation. done. Qed.
Next Obligation. intros K V ? c k v k' v'. cbn. case_decide; naive_solver. Qed.
Next Obligation. done. Qed.
