(* ===== verification/MachineInt.v ===== *)
(** * Machine integers and byte strings

    The fixed-width arithmetic of the Rust code ([u64], [i64], [usize] on a
    64-bit target), the big-endian encodings [to_be_bytes]/[from_be_bytes],
    the byte-wise order in which the key-value store keeps its keys, and the
    helpers of [src/core/utils/bytes.rs]. *)

From stdpp Require Import prelude gmap strings list.
From Stdlib Require Import ZArith Lia.
From Stdlib Require Import Strings.Byte.
From S2P Require Import Prelude.

Local Open Scope Z_scope.

(** ** Widths *)

Definition u64_max : Z := 2 ^ 64 - 1.
Definition i64_max : Z := 2 ^ 63 - 1.
Definition i64_min : Z := - 2 ^ 63.
Definition is_u64 (z : Z) : Prop := 0 <= z <= u64_max.
Definition is_i64 (z : Z) : Prop := i64_min <= z <= i64_max.

(** [x as u64] and [x as i64]: two's complement reinterpretation. *)
Definition as_u64 (z : Z) : Z := z mod 2 ^ 64.
Definition as_i64 (z : Z) : Z := (z + 2 ^ 63) mod 2 ^ 64 - 2 ^ 63.

(** [checked_*] and [saturating_*] of an integer type with range [lo..=hi]. *)
Definition checked (lo hi z : Z) : option Z :=
  if (lo <=? z) && (z <=? hi) then Some z else None.
Definition saturate (lo hi z : Z) : Z := Z.max lo (Z.min hi z).

Definition u64_checked_add (a b : Z) : option Z := checked 0 u64_max (a + b).
Definition u64_checked_sub (a b : Z) : option Z := checked 0 u64_max (a - b).
Definition u64_checked_mul (a b : Z) : option Z := checked 0 u64_max (a * b).
Definition i64_checked_add (a b : Z) : option Z := checked i64_min i64_max (a + b).
Definition i64_checked_sub (a b : Z) : option Z := checked i64_min i64_max (a - b).
Definition u64_saturating_add (a b : Z) : Z := saturate 0 u64_max (a + b).
Definition u64_saturating_sub (a b : Z) : Z := saturate 0 u64_max (a - b).
Definition i64_saturating_add (a b : Z) : Z := saturate i64_min i64_max (a + b).
Definition i64_saturating_sub (a b : Z) : Z := saturate i64_min i64_max (a - b).
Definition u64_wrapping_add (a b : Z) : Z := as_u64 (a + b).

(** Unfolds the width constants and closes linear goals over them. *)
Ltac width_lia :=
  unfold is_u64, is_i64, u64_max, i64_max, i64_min in *;
  change (2 ^ 64) with 18446744073709551616 in *;
  change (2 ^ 63) with 9223372036854775808 in *; lia.

Lemma as_u64_range z : is_u64 (as_u64 z).
Proof.
  unfold as_u64. pose proof (Z.mod_pos_bound z (2 ^ 64)). width_lia.
Qed.

Lemma as_i64_range z : is_i64 (as_i64 z).
Proof.
  unfold as_i64. pose proof (Z.mod_pos_bound (z + 2 ^ 63) (2 ^ 64)). width_lia.
Qed.

Lemma as_u64_id z : is_u64 z -> as_u64 z = z.
Proof. intros ?. unfold as_u64. apply Z.mod_small. width_lia. Qed.

Lemma as_i64_id z : is_i64 z -> as_i64 z = z.
Proof.
  intros ?. unfold as_i64. rewrite Z.mod_small by width_lia. lia.
Qed.

Lemma as_i64_as_u64 z : is_i64 z -> as_i64 (as_u64 z) = z.
Proof.
  intros ?. unfold as_i64, as_u64.
  rewrite Zplus_mod_idemp_l, Z.mod_small by width_lia. lia.
Qed.

Lemma as_u64_as_i64 z : is_u64 z -> as_u64 (as_i64 z) = z.
Proof.
  intros ?. unfold as_i64, as_u64.
  rewrite Zminus_mod_idemp_l.
  replace (z + 2 ^ 63 - 2 ^ 63) with z by lia.
  apply Z.mod_small. width_lia.
Qed.

Lemma as_u64_neg z : i64_min <= z < 0 -> as_u64 z = z + 2 ^ 64.
Proof.
  intros ?. unfold as_u64. rewrite <- (Z_mod_plus_full z 1).
  rewrite Z.mod_small by width_lia. lia.
Qed.

Lemma checked_Some lo hi z r : checked lo hi z = Some r <-> r = z /\ lo <= z <= hi.
Proof.
  unfold checked. destruct (_ && _) eqn:E; split; [|naive_solver| |].
  - intros [= ->]. lia.
  - done.
  - intros [-> ?]. lia.
Qed.

Lemma checked_None lo hi z : checked lo hi z = None <-> z < lo \/ hi < z.
Proof. unfold checked. destruct (_ && _) eqn:E; split; intros; try done; lia. Qed.

(** ** Bytes *)

#[export] Instance byte_eq_dec : EqDecision byte := Byte.byte_eq_dec.
#[export] Instance byte_countable : Countable byte :=
  inj_countable Byte.to_N Byte.of_N Byte.of_to_N.

Definition Z_of_byte (b : byte) : Z := Z.of_N (Byte.to_N b).
Definition byte_of_Z (z : Z) : byte := default x00 (Byte.of_N (Z.to_N (z mod 256))).

Lemma Z_of_byte_range b : 0 <= Z_of_byte b < 256.
Proof. unfold Z_of_byte. pose proof (Byte.to_N_bounded b). lia. Qed.

Lemma Z_of_byte_of_Z z : Z_of_byte (byte_of_Z z) = z mod 256.
Proof.
  unfold Z_of_byte, byte_of_Z. pose proof (Z.mod_pos_bound z 256 eq_refl).
  destruct (Byte.of_N _) as [b|] eqn:E.
  - apply Byte.to_of_N in E. simpl. rewrite E. lia.
  - apply Byte.of_N_None_iff in E. lia.
Qed.

Lemma Z_of_byte_inj b c : Z_of_byte b = Z_of_byte c -> b = c.
Proof.
  unfold Z_of_byte. intros H%N2Z.inj.
  enough (Some b = Some c) by congruence.
  by rewrite <- !Byte.of_to_N, H.
Qed.

Lemma byte_of_Z_of_byte b : byte_of_Z (Z_of_byte b) = b.
Proof.
  apply Z_of_byte_inj. rewrite Z_of_byte_of_Z.
  apply Z.mod_small, Z_of_byte_range.
Qed.

(** ** Big-endian encodings: [to_be_bytes] and [from_be_bytes] *)

Fixpoint to_be (n : nat) (z : Z) : list byte :=
  match n with
  | O => []
  | S n' => byte_of_Z (z / 256 ^ Z.of_nat n') :: to_be n' z
  end.

Fixpoint from_be (l : list byte) : Z :=
  match l with
  | [] => 0
  | b :: l' => Z_of_byte b * 256 ^ Z.of_nat (length l') + from_be l'
  end.

Definition u64_to_be_bytes (z : Z) : list byte := to_be 8 z.
Definition i64_to_be_bytes (z : Z) : list byte := to_be 8 (as_u64 z).
Definition i64_from_be_bytes (l : list byte) : Z := as_i64 (from_be l).

Lemma length_to_be n z : length (to_be n z) = n.
Proof. induction n; simpl; congruence. Qed.

Lemma from_be_range l : 0 <= from_be l < 256 ^ Z.of_nat (length l).
Proof.
  induction l as [|b l IH]; simpl length; [simpl; lia|].
  rewrite Nat2Z.inj_succ, Z.pow_succ_r by lia.
  pose proof (Z_of_byte_range b). simpl. nia.
Qed.

Lemma from_be_to_be_mod n z : from_be (to_be n z) = z mod 256 ^ Z.of_nat n.
Proof.
  induction n as [|n IH]; [by rewrite Z.mod_1_r|].
  simpl to_be. simpl from_be. rewrite IH, length_to_be, Z_of_byte_of_Z.
  rewrite Nat2Z.inj_succ, Z.pow_succ_r by lia.
  set (p := 256 ^ Z.of_nat n). assert (0 < p) by (apply Z.pow_pos_nonneg; lia).
  rewrite (Z.mul_comm 256 p), Z.rem_mul_r by lia. lia.
Qed.

Lemma from_be_to_be n z :
  0 <= z < 256 ^ Z.of_nat n -> from_be (to_be n z) = z.
Proof. intros ?. by rewrite from_be_to_be_mod, Z.mod_small. Qed.

Lemma to_be_mod n m z : to_be n (z + m * 256 ^ Z.of_nat n) = to_be n z.
Proof.
  revert m. induction n as [|n IH]; intros m; [done|].
  rewrite Nat2Z.inj_succ, Z.pow_succ_r by lia. simpl. f_equal.
  - unfold byte_of_Z. do 3 f_equal.
    replace (m * (256 * 256 ^ Z.of_nat n)) with ((m * 256) * 256 ^ Z.of_nat n) by lia.
    rewrite Z.div_add by (apply Z.pow_nonzero; lia). apply Z_mod_plus_full.
  - replace (m * (256 * 256 ^ Z.of_nat n)) with ((m * 256) * 256 ^ Z.of_nat n) by lia.
    apply IH.
Qed.

Lemma to_be_from_be l : to_be (length l) (from_be l) = l.
Proof.
  induction l as [|b l IH]; [done|]. simpl. f_equal.
  - rewrite Z.div_add_l by (apply Z.pow_nonzero; lia).
    rewrite Z.div_small by apply from_be_range.
    by rewrite Z.add_0_r, byte_of_Z_of_byte.
  - rewrite Z.add_comm. by rewrite to_be_mod.
Qed.

Lemma u64_be_roundtrip z : is_u64 z -> from_be (u64_to_be_bytes z) = z.
Proof. intros ?. apply from_be_to_be. simpl. width_lia. Qed.

Lemma i64_be_roundtrip z : is_i64 z -> i64_from_be_bytes (i64_to_be_bytes z) = z.
Proof.
  intros ?. unfold i64_from_be_bytes, i64_to_be_bytes.
  rewrite from_be_to_be; [by apply as_i64_as_u64|].
  pose proof (as_u64_range z). simpl. width_lia.
Qed.

Lemma length_u64_to_be z : length (u64_to_be_bytes z) = 8%nat.
Proof. apply length_to_be. Qed.
Lemma length_i64_to_be z : length (i64_to_be_bytes z) = 8%nat.
Proof. apply length_to_be. Qed.

Lemma from_be_u64 l : length l = 8%nat -> is_u64 (from_be l).
Proof. intros H. pose proof (from_be_range l) as R. rewrite H in R. simpl in R. width_lia. Qed.

Lemma u64_to_be_from_be l : length l = 8%nat -> u64_to_be_bytes (from_be l) = l.
Proof. intros H. unfold u64_to_be_bytes. rewrite <- H. apply to_be_from_be. Qed.

Lemma u64_to_be_inj a b :
  is_u64 a -> is_u64 b -> u64_to_be_bytes a = u64_to_be_bytes b -> a = b.
Proof. intros ?? H. by rewrite <- (u64_be_roundtrip a), H, u64_be_roundtrip. Qed.

(** ** The order of the store's keys

    The key-value store compares keys byte by byte; a proper prefix comes
    first. *)

Fixpoint bytes_cmp (a b : list byte) : comparison :=
  match a, b with
  | [], [] => Eq
  | [], _ :: _ => Lt
  | _ :: _, [] => Gt
  | x :: a', y :: b' =>
      match Z_of_byte x ?= Z_of_byte y with
      | Eq => bytes_cmp a' b'
      | c => c
      end
  end.

Lemma bytes_cmp_refl a : bytes_cmp a a = Eq.
Proof. induction a; simpl; [done|]. by rewrite Z.compare_refl. Qed.

Lemma bytes_cmp_eq a b : bytes_cmp a b = Eq <-> a = b.
Proof.
  split; [|intros ->; apply bytes_cmp_refl].
  revert b. induction a as [|x a IH]; intros [|y b]; simpl; try done.
  destruct (Z.compare_spec (Z_of_byte x) (Z_of_byte y)) as [H|H|H]; try done.
  intros ?. f_equal; [by apply Z_of_byte_inj|by apply IH].
Qed.

#[export, program] Instance bytes_ord : RustOrd (list byte) := {| cmp := bytes_cmp |}.
Next Obligation. apply bytes_cmp_eq. Qed.
Next Obligation.
  intros a. induction a as [|x a IH]; intros [|y b]; simpl; try done.
  rewrite (Z.compare_antisym (Z_of_byte x) (Z_of_byte y)). by destruct (_ ?= _); simpl.
Qed.
Next Obligation.
  intros a. induction a as [|x a IH]; intros [|y b] [|z c]; simpl; try done.
  destruct (Z.compare_spec (Z_of_byte x) (Z_of_byte y)) as [Hxy|Hxy|Hxy]; [rewrite Hxy| |done].
  - destruct (_ ?= _); [apply IH|done|done].
  - intros _. destruct (Z.compare_spec (Z_of_byte y) (Z_of_byte z)) as [Hyz|Hyz|Hyz]; [..|done];
      intros _; by rewrite (proj2 (Z.compare_lt_iff (Z_of_byte x) (Z_of_byte z))) by lia.
Qed.

(** Big-endian encodings of one width sort as the numbers they encode. *)
Lemma bytes_cmp_from_be a b :
  length a = length b -> bytes_cmp a b = (from_be a ?= from_be b).
Proof.
  revert b. induction a as [|x a IH]; intros [|y b]; simpl; try done.
  intros [= Hl]. rewrite Hl.
  pose proof (from_be_range a) as Ra. pose proof (from_be_range b) as Rb.
  rewrite Hl in Ra. set (p := 256 ^ Z.of_nat (length b)) in *.
  destruct (Z.compare_spec (Z_of_byte x) (Z_of_byte y)) as [H|H|H].
  - rewrite (IH b Hl), H. symmetry. apply Zcompare_plus_compat.
  - symmetry. apply Z.compare_lt_iff. nia.
  - symmetry. apply Z.compare_gt_iff. nia.
Qed.

Lemma bytes_cmp_app a b c d :
  length a = length b ->
  bytes_cmp (a ++ c) (b ++ d) =
    match bytes_cmp a b with Eq => bytes_cmp c d | o => o end.
Proof.
  revert b. induction a as [|x a IH]; intros [|y b]; simpl; try done.
  intros [= Hl]. destruct (_ ?= _); auto.
Qed.

Lemma bytes_cmp_u64 a b :
  is_u64 a -> is_u64 b ->
  bytes_cmp (u64_to_be_bytes a) (u64_to_be_bytes b) = (a ?= b).
Proof.
  intros ??. rewrite bytes_cmp_from_be by by rewrite !length_u64_to_be.
  by rewrite !u64_be_roundtrip.
Qed.

Arguments u64_to_be_bytes : simpl never.
Arguments to_be : simpl never.
Arguments from_be : simpl never.
Arguments i64_to_be_bytes : simpl never.

Create HintDb bytes.
Create Rewrite HintDb bytes.
#[export] Hint Rewrite length_u64_to_be length_i64_to_be : bytes.
#[export] Hint Resolve as_u64_range as_i64_range length_u64_to_be length_i64_to_be : bytes.

(** ** [src/core/utils/bytes.rs] *)

Module Bytes.

Inductive Error := TryFromSlice.

Definition u8x8_from_bytes (bytes : list byte) : outcome Error (list byte) :=
  if decide (length bytes = 8%nat) then Done bytes else Fail TryFromSlice.

Definition u64_from_u8x8 (bytes : list byte) : Z := from_be bytes.

Definition u64_from_bytes (bytes : list byte) : outcome Error Z :=
  b ← u8x8_from_bytes bytes; Done (u64_from_u8x8 b).

Definition u64_from_bytes_or_zero (bytes : list byte) : Z :=
  match u64_from_bytes bytes with Done z => z | _ => 0 end.

Definition u64_from_u8 (bytes : list byte) : outcome Error Z :=
  match u64_from_bytes bytes with Done z => Done z | _ => Panic end.

Definition increment (old : option (list byte)) : list byte :=
  u64_to_be_bytes (u64_wrapping_add (from_option u64_from_bytes_or_zero 0 old) 1).

Lemma u64_from_bytes_be z :
  is_u64 z -> u64_from_bytes (u64_to_be_bytes z) = Done z.
Proof.
  intros ?. unfold u64_from_bytes, u8x8_from_bytes.
  rewrite decide_True by apply length_u64_to_be.
  simpl. f_equal. by apply u64_be_roundtrip.
Qed.

Lemma u64_from_bytes_Done b z :
  u64_from_bytes b = Done z <-> length b = 8%nat /\ z = from_be b.
Proof.
  unfold u64_from_bytes, u8x8_from_bytes. case_decide; simpl; naive_solver.
Qed.

Lemma u64_from_u8_be z : is_u64 z -> u64_from_u8 (u64_to_be_bytes z) = Done z.
Proof. intros ?. unfold u64_from_u8. by rewrite u64_from_bytes_be. Qed.

End Bytes.
