(* ===== verification/PduCount.v ===== *)
(** * Timeline positions: [Count], [Id] and [RawId]

    Models [src/core/matrix/pdu/count.rs], [id.rs] and [raw_id.rs]: the
    position of an event in a room's timeline, its signed/unsigned and textual
    forms, and the database key [RawId] built from it.  The functions are the
    release build's ([debug_assert!] is compiled out); [debug_assert_valid] is
    the asserted condition, and the theorems say when it holds. *)

From stdpp Require Import prelude gmap strings list.
From Stdlib Require Import ZArith Lia Ascii DecimalString DecimalZ.
From Stdlib Require Import Strings.Byte.
From S2P Require Import Prelude MachineInt.

Local Open Scope Z_scope.

(** ** [Count] *)

Module Count.

Inductive count := Normal (n : Z) | Backfilled (i : Z).

#[export] Instance count_eq_dec : EqDecision count.
Proof. solve_decision. Defined.

Inductive Direction := Forward | Backward.
Inductive Error := Arithmetic | ParseInt.

Definition from_signed (signed : Z) : count :=
  if signed <=? 0 then Backfilled signed else Normal (as_u64 signed).

Definition from_unsigned (unsigned : Z) : count := from_signed (as_i64 unsigned).

Definition into_unsigned (self : count) : Z :=
  match self with Normal i => i | Backfilled i => as_u64 i end.

Definition into_signed (self : count) : Z :=
  match self with Normal i => as_i64 i | Backfilled i => i end.

Definition into_normal (self : count) : count :=
  match self with Normal i => Normal i | Backfilled _ => Normal 0 end.

Definition checked_add (self : count) (add : Z) : outcome Error count :=
  match self with
  | Normal i => n ← ok_or Arithmetic (u64_checked_add i add); Done (Normal n)
  | Backfilled i =>
      n ← ok_or Arithmetic (i64_checked_add i (as_i64 add)); Done (Backfilled n)
  end.

Definition checked_sub (self : count) (sub : Z) : outcome Error count :=
  match self with
  | Normal i => n ← ok_or Arithmetic (u64_checked_sub i sub); Done (Normal n)
  | Backfilled i =>
      n ← ok_or Arithmetic (i64_checked_sub i (as_i64 sub)); Done (Backfilled n)
  end.

Definition checked_inc (self : count) (dir : Direction) : outcome Error count :=
  match dir with Forward => checked_add self 1 | Backward => checked_sub self 1 end.

Definition saturating_add (self : count) (add : Z) : count :=
  match self with
  | Normal i => Normal (u64_saturating_add i add)
  | Backfilled i => Backfilled (i64_saturating_add i (as_i64 add))
  end.

Definition saturating_sub (self : count) (sub : Z) : count :=
  match self with
  | Normal i => Normal (u64_saturating_sub i sub)
  | Backfilled i => Backfilled (i64_saturating_sub i (as_i64 sub))
  end.

Definition saturating_inc (self : count) (dir : Direction) : count :=
  match dir with Forward => saturating_add self 1 | Backward => saturating_sub self 1 end.

Definition min : count := Backfilled i64_min.
Definition max : count := Normal (as_u64 i64_max).

Definition debug_assert_valid (self : count) : bool :=
  match self with Normal _ => true | Backfilled i => i <=? 0 end.

Definition cmp (self other : count) : comparison := into_signed self ?= into_signed other.

Definition default : count := Normal 0.

(** [Display] prints the number in decimal; [FromStr] is [i64::from_str], an
    optional sign followed by at least one digit, within the width. *)
Definition fmt (self : count) : string :=
  match self with
  | Normal i => NilZero.string_of_int (Z.to_int i)
  | Backfilled i => NilZero.string_of_int (Z.to_int i)
  end.

Definition parse_i64 (s : string) : option Z :=
  z ← match s with
      | String "+"%char s' => Z.of_uint <$> NilZero.uint_of_string s'
      | _ => Z.of_int <$> NilZero.int_of_string s
      end;
  checked i64_min i64_max z.

Definition from_str (token : string) : outcome Error count :=
  i ← ok_or ParseInt (parse_i64 token); Done (from_signed i).

(** *** Types and canonical values

    [typed] is what the Rust types guarantee; [canonical] are the values
    [from_signed] produces, the positions the server hands out. *)
Definition typed (c : count) : Prop :=
  match c with Normal n => is_u64 n | Backfilled i => is_i64 i end.
Definition canonical (c : count) : Prop :=
  match c with Normal n => 1 <= n <= i64_max | Backfilled i => i64_min <= i <= 0 end.

#[export] Instance canonical_dec c : Decision (canonical c).
Proof. destruct c; simpl; apply _. Defined.

Lemma canonical_typed c : canonical c -> typed c.
Proof. destruct c; simpl; width_lia. Qed.

Lemma from_signed_canonical i : is_i64 i -> canonical (from_signed i).
Proof.
  unfold from_signed. intros ?. destruct (Z.leb_spec i 0); simpl; [width_lia|].
  rewrite as_u64_id; width_lia.
Qed.

Lemma into_signed_from_signed i : is_i64 i -> into_signed (from_signed i) = i.
Proof.
  unfold from_signed. intros Hi. destruct (Z.leb_spec i 0); simpl; [done|].
  rewrite as_u64_id by width_lia. by apply as_i64_id.
Qed.

Lemma from_signed_into_signed c : canonical c -> from_signed (into_signed c) = c.
Proof.
  destruct c as [n|i]; simpl; intros H; unfold from_signed.
  - rewrite as_i64_id by width_lia. destruct (Z.leb_spec n 0); [lia|].
    by rewrite as_u64_id by width_lia.
  - by destruct (Z.leb_spec i 0); [|lia].
Qed.

Lemma into_signed_range c : canonical c -> is_i64 (into_signed c).
Proof. destruct c; simpl; intros; [rewrite as_i64_id|]; width_lia. Qed.

Lemma as_i64_into_unsigned c : canonical c -> as_i64 (into_unsigned c) = into_signed c.
Proof. destruct c; simpl; intros; [done|]. apply as_i64_as_u64. width_lia. Qed.

Lemma from_unsigned_into_unsigned c :
  canonical c -> from_unsigned (into_unsigned c) = c.
Proof.
  intros Hc. unfold from_unsigned.
  by rewrite as_i64_into_unsigned, from_signed_into_signed.
Qed.

Lemma to_int_not_nil i : Z.to_int i <> Decimal.Pos Decimal.Nil /\ Z.to_int i <> Decimal.Neg Decimal.Nil.
Proof.
  assert (forall p, Pos.to_uint p <> Decimal.Nil) by apply DecimalPos.Unsigned.to_uint_nonnil.
  destruct i; simpl; split; congruence.
Qed.

Lemma parse_fmt_Z i : is_i64 i -> parse_i64 (NilZero.string_of_int (Z.to_int i)) = Some i.
Proof.
  intros Hi. destruct (to_int_not_nil i).
  pose proof (NilZero.isi (Z.to_int i) ltac:(done) ltac:(done)) as P.
  assert (Some i = (Z.of_int <$> NilZero.int_of_string (NilZero.string_of_int (Z.to_int i)))) as E.
  { rewrite P. simpl. by rewrite DecimalZ.of_to. }
  unfold parse_i64. destruct (NilZero.string_of_int (Z.to_int i)) as [|a s] eqn:Es.
  - rewrite <- E. simpl. by apply checked_Some.
  - assert (a <> "+"%char) as Ha.
    { intros ->. simpl in P. by destruct (NilEmpty.uint_of_string s). }
    assert (match String a s with
            | String "+"%char s' => Z.of_uint <$> NilZero.uint_of_string s'
            | _ => Z.of_int <$> NilZero.int_of_string (String a s)
            end = Z.of_int <$> NilZero.int_of_string (String a s)) as ->.
    { destruct a as [[] [] [] [] [] [] [] []]; done. }
    rewrite <- E. simpl. by apply checked_Some.
Qed.

(** Every canonical count is read back from its printed form. *)
Lemma from_str_fmt c : canonical c -> from_str (fmt c) = Done c.
Proof.
  intros Hc. unfold from_str.
  assert (fmt c = NilZero.string_of_int (Z.to_int (into_signed c))) as ->.
  { destruct c; simpl in *; [|done]. by rewrite as_i64_id by width_lia. }
  rewrite parse_fmt_Z by by apply into_signed_range.
  simpl. by rewrite from_signed_into_signed.
Qed.

Lemma canonical_inj c d : canonical c -> canonical d -> cmp c d = Eq -> c = d.
Proof.
  intros ?? H%Z.compare_eq_iff.
  by rewrite <- (from_signed_into_signed c), H, from_signed_into_signed.
Qed.

End Count.

(** ** [Id] and [RawId] *)

Module PduId.
Import Count.

Record Id := MkId { shortroomid : Z; shorteventid : count }.

#[export] Instance Id_eq_dec : EqDecision Id.
Proof. solve_decision. Defined.

Inductive RawId := RawNormal (raw : list byte) | RawBackfilled (raw : list byte).

Definition INT_LEN : nat := 8.
Definition NORMAL_LEN : nat := 8 + 8.
Definition BACKFILLED_LEN : nat := 8 + INT_LEN + 8.

(** [raw[i..j]] of an array long enough. *)
Definition slice (i j : nat) (raw : list byte) : list byte := take (j - i) (drop i raw).

Arguments slice : simpl never.

Definition raw_shortroomid (self : RawId) : list byte :=
  match self with
  | RawNormal raw => slice 0 INT_LEN raw
  | RawBackfilled raw => slice 0 INT_LEN raw
  end.

Definition raw_shorteventid (self : RawId) : list byte :=
  match self with
  | RawNormal raw => slice INT_LEN (INT_LEN * 2) raw
  | RawBackfilled raw => slice (INT_LEN * 2) (INT_LEN * 3) raw
  end.

Definition as_bytes (self : RawId) : list byte :=
  match self with RawNormal raw => raw | RawBackfilled raw => raw end.

Definition raw_from_bytes (id : list byte) : outcome Empty_set RawId :=
  if decide (length id = NORMAL_LEN) then Done (RawNormal (slice 0 NORMAL_LEN id))
  else if decide (length id = BACKFILLED_LEN)
  then Done (RawBackfilled (slice 0 BACKFILLED_LEN id))
  else Panic.

Definition raw_from_id (id : Id) : RawId :=
  let vec := u64_to_be_bytes (shortroomid id) in
  match shorteventid id with
  | Normal shorteventid => RawNormal (vec ++ u64_to_be_bytes shorteventid)
  | Backfilled shorteventid =>
      RawBackfilled (vec ++ u64_to_be_bytes 0 ++ i64_to_be_bytes shorteventid)
  end.

Definition id_from_raw (raw : RawId) : Id :=
  MkId (Bytes.u64_from_u8x8 (raw_shortroomid raw))
       (from_unsigned (Bytes.u64_from_u8x8 (raw_shorteventid raw))).

Definition pdu_count (self : RawId) : count := shorteventid (id_from_raw self).

(** The lengths of the two array types. *)
Definition raw_typed (r : RawId) : Prop :=
  match r with
  | RawNormal raw => length raw = NORMAL_LEN
  | RawBackfilled raw => length raw = BACKFILLED_LEN
  end.

Definition id_canonical (i : Id) : Prop :=
  is_u64 (shortroomid i) /\ canonical (shorteventid i).

Definition id_cmp (a b : Id) : comparison :=
  match shortroomid a ?= shortroomid b with
  | Eq => cmp (shorteventid a) (shorteventid b)
  | o => o
  end.

Lemma raw_from_id_typed i : raw_typed (raw_from_id i).
Proof.
  destruct i as [r [n|n]]; unfold raw_from_id, raw_typed; simpl shorteventid;
    cbv beta iota zeta; rewrite !length_app; by autorewrite with bytes.
Qed.

(** Slicing a concatenation whose parts have eight bytes. *)
Lemma slice_0 a b : length a = 8%nat -> slice 0 8 (a ++ b) = a.
Proof. intros H. unfold slice. simpl. by apply take_app_length'. Qed.

Lemma slice_skip i j a b :
  length a = 8%nat -> slice (8 + i) (8 + j) (a ++ b) = slice i j b.
Proof.
  intros H. unfold slice. by rewrite <- drop_drop, drop_app_length' by done.
Qed.

Lemma slice_all a : length a = 8%nat -> slice 0 8 a = a.
Proof. intros H. rewrite <- (app_nil_r a) at 1. by apply slice_0. Qed.

Lemma slice_full n raw : length raw = n -> slice 0 n raw = raw.
Proof. intros <-. unfold slice. rewrite Nat.sub_0_r. apply firstn_all. Qed.

Lemma raw_from_bytes_as_bytes r : raw_typed r -> raw_from_bytes (as_bytes r) = Done r.
Proof.
  intros H. unfold raw_from_bytes. destruct r as [raw|raw]; cbn [as_bytes raw_typed] in *.
  - by rewrite decide_True, slice_full.
  - rewrite decide_False by (rewrite H; done). by rewrite decide_True, slice_full.
Qed.

Lemma raw_from_bytes_Done b id : raw_from_bytes b = Done id -> raw_typed id /\ as_bytes id = b.
Proof.
  unfold raw_from_bytes. repeat case_decide; intros [= <-]; cbn [raw_typed as_bytes];
    rewrite slice_full by done; done.
Qed.

Lemma raw_shortroomid_from_id r c :
  raw_shortroomid (raw_from_id (MkId r c)) = u64_to_be_bytes r.
Proof. destruct c; apply slice_0, length_u64_to_be. Qed.

Lemma raw_shorteventid_from_id r c :
  raw_shorteventid (raw_from_id (MkId r c)) = u64_to_be_bytes (into_unsigned c).
Proof.
  destruct c as [n|n]; unfold raw_from_id, raw_shorteventid, INT_LEN.
  - etrans; [apply (slice_skip 0 8)|apply slice_all]; auto with bytes.
  - etrans; [apply (slice_skip 8 16)|]; [auto with bytes|].
    etrans; [apply (slice_skip 0 8)|apply slice_all]; auto with bytes.
Qed.

Lemma into_unsigned_range c : typed c -> is_u64 (into_unsigned c).
Proof. destruct c; simpl; auto with bytes. Qed.

Lemma id_from_raw_from_id i : id_canonical i -> id_from_raw (raw_from_id i) = i.
Proof.
  destruct i as [r c]. intros [Hr Hc]. unfold id_from_raw, Bytes.u64_from_u8x8.
  rewrite raw_shortroomid_from_id, raw_shorteventid_from_id.
  rewrite !u64_be_roundtrip; [|by apply into_unsigned_range, canonical_typed|done].
  f_equal. by apply from_unsigned_into_unsigned.
Qed.

Lemma bytes_cmp_i64_neg i j :
  i64_min <= i < 0 -> i64_min <= j < 0 ->
  bytes_cmp (i64_to_be_bytes i) (i64_to_be_bytes j) = (i ?= j).
Proof.
  intros. unfold i64_to_be_bytes. fold (u64_to_be_bytes (as_u64 i)).
  fold (u64_to_be_bytes (as_u64 j)).
  rewrite bytes_cmp_u64, !as_u64_neg by (auto with bytes).
  rewrite !(Z.add_comm _ (2 ^ 64)). apply Zcompare_plus_compat.
Qed.

(** Keys of one room: the part after the room is compared as the counts are,
    for every canonical count but [Backfilled 0]. *)
Lemma raw_tail_cmp r c d :
  is_u64 r -> canonical c -> canonical d -> c <> Backfilled 0 -> d <> Backfilled 0 ->
  bytes_cmp (as_bytes (raw_from_id (MkId r c))) (as_bytes (raw_from_id (MkId r d))) = cmp c d.
Proof.
  intros Hr Hc Hd Nc Nd. unfold cmp, raw_from_id, as_bytes.
  destruct c as [n|n], d as [m|m]; cbn -[Z.compare] in *;
    rewrite bytes_cmp_app, bytes_cmp_refl by by autorewrite with bytes.
  - rewrite bytes_cmp_u64, !as_i64_id by width_lia. done.
  - rewrite as_i64_id by width_lia.
    rewrite <- (app_nil_r (u64_to_be_bytes n)), bytes_cmp_app by by autorewrite with bytes.
    rewrite bytes_cmp_u64 by width_lia.
    rewrite (proj2 (Z.compare_gt_iff n 0)), (proj2 (Z.compare_gt_iff n m)) by lia. done.
  - rewrite as_i64_id by width_lia.
    rewrite <- (app_nil_r (u64_to_be_bytes m)), bytes_cmp_app by by autorewrite with bytes.
    rewrite bytes_cmp_u64 by width_lia.
    rewrite (proj2 (Z.compare_lt_iff 0 m)), (proj2 (Z.compare_lt_iff n m)) by lia. done.
  - rewrite bytes_cmp_app, bytes_cmp_refl by by autorewrite with bytes.
    apply bytes_cmp_i64_neg; (split; [lia|]); destruct (decide (n = 0)), (decide (m = 0));
      subst; try done; lia.
Qed.

Lemma raw_cmp_rooms a b :
  is_u64 (shortroomid a) -> is_u64 (shortroomid b) -> shortroomid a <> shortroomid b ->
  bytes_cmp (as_bytes (raw_from_id a)) (as_bytes (raw_from_id b)) =
    (shortroomid a ?= shortroomid b).
Proof.
  intros Ha Hb Hne. destruct a as [r c], b as [s d]; cbn in Ha, Hb, Hne.
  assert (forall x, exists t, as_bytes (raw_from_id (MkId x.1 x.2)) = u64_to_be_bytes x.1 ++ t) as E.
  { intros [x [n|n]]; eexists; reflexivity. }
  destruct (E (r, c)) as [t Et], (E (s, d)) as [u Eu]. cbn in Et, Eu. rewrite Et, Eu.
  rewrite bytes_cmp_app, bytes_cmp_u64 by (done || by autorewrite with bytes).
  cbn. destruct (Z.compare_spec r s); done.
Qed.

End PduId.

(** ** Properties *)

Section properties.
Import Count PduId.

(** A database key built from a timeline position reads back as that
    position: for every room number and every canonical count, [RawId::from]
    the bytes of the key gives the key, [Id::from] the key gives the position,
    and [RawId::pdu_count] gives the count. *)
Theorem raw_id_roundtrip i :
  id_canonical i ->
  raw_from_bytes (as_bytes (raw_from_id i)) = Done (raw_from_id i) /\
  id_from_raw (raw_from_id i) = i /\
  pdu_count (raw_from_id i) = shorteventid i.
Proof.
  intros Hi. split; [apply raw_from_bytes_as_bytes, raw_from_id_typed|].
  unfold pdu_count. by rewrite id_from_raw_from_id.
Qed.

Lemma raw_id_roundtrip_witness :
  id_from_raw (raw_from_id (MkId 7 (Backfilled (-3)))) = MkId 7 (Backfilled (-3)).
Proof.
  apply (raw_id_roundtrip (MkId 7 (Backfilled (-3)))).
  split; vm_compute; split; discriminate.
Defined.



(** The three other forms of a canonical count are lossless: its signed
    form, its unsigned form and its decimal text (the pagination token) all
    read back as the count, and two canonical counts that compare equal are
    equal. *)
Theorem count_roundtrip c :
  canonical c ->
  from_signed (into_signed c) = c /\ from_unsigned (into_unsigned c) = c /\
  from_str (fmt c) = Done c /\
  (forall d, canonical d -> cmp c d = Eq -> c = d).
Proof.
  intros Hc. split_and!.
  - by apply from_signed_into_signed.
  - by apply from_unsigned_into_unsigned.
  - by apply from_str_fmt.
  - intros d ?. by apply canonical_inj.
Qed.

Lemma count_roundtrip_witness : from_str (fmt (Backfilled (-42))) = Done (Backfilled (-42)).
Proof. apply (count_roundtrip (Backfilled (-42))). vm_compute. split; discriminate. Defined.

(** Stepping a canonical count forward never overflows its width and moves
    it to the next position, except at [Count::max]; the result violates the
    invariant [debug_assert_valid] (a positive [Backfilled]) exactly when the
    count is [Backfilled 0]. *)
Theorem count_step_forward c :
  canonical c ->
  checked_inc c Forward = Done (saturating_inc c Forward) /\
  (c <> max -> into_signed (saturating_inc c Forward) = into_signed c + 1) /\
  (debug_assert_valid (saturating_inc c Forward) = false <-> c = Backfilled 0).
Proof.
  intros Hc.
  assert (forall lo hi z, lo <= z <= hi -> checked lo hi z = Some (saturate lo hi z)) as E.
  { intros lo hi z ?. apply checked_Some. unfold saturate. lia. }
  assert (forall lo hi z, lo <= z <= hi -> saturate lo hi z = z) as S.
  { intros lo hi z ?. unfold saturate. lia. }
  destruct c as [n|i]; cbn in Hc;
    unfold checked_inc, saturating_inc, checked_add, saturating_add, u64_checked_add,
      i64_checked_add, u64_saturating_add, i64_saturating_add;
    change (as_i64 1) with 1; rewrite E by width_lia; (split; [done|]);
    rewrite S by width_lia; cbn -[as_i64 max]; split.
  - intros Hne. assert (n <> i64_max) by (intros ->; by apply Hne).
    rewrite !as_i64_id by width_lia. done.
  - done.
  - done.
  - rewrite Z.leb_gt. split; [intros; f_equal; lia|intros [= ->]; lia].
Qed.

Lemma count_step_forward_witness :
  into_signed (saturating_inc (Backfilled (-1)) Forward) = 0.
Proof.
  apply (count_step_forward (Backfilled (-1))); [vm_compute; split; discriminate|discriminate].
Defined.

End properties.
