(* ===== verification/TopoSort.v ===== *)
(** * Lexicographical topological sort

    Models [lexicographical_topological_sort] of
    [src/core/matrix/state_res/mod.rs]: Kahn's algorithm over a graph whose
    edges go from an event to the events it depends on, with a binary heap
    ordered by power level (higher first), timestamp and event id.  The result
    is specified by [greedy]: at every position the list holds the least of the
    events whose dependencies are already in the list. *)

From stdpp Require Import prelude gmap strings list well_founded.
From Stdlib Require Import ZArith Lia.
From S2P Require Import Prelude.

Section topo_sort.
Context {Id : Type} `{EqDecision Id, !Countable Id, !RustOrd Id} {E : Type} {sched : Schedule}.

(** ** The tie breaker *)

Record TieBreaker := MkTieBreaker {
  power_level : Z;
  origin_server_ts : Z;
  event_id : Id }.

Definition tie_cmp (self other : TieBreaker) : comparison :=
  then_cmp (then_cmp (cmp (power_level other) (power_level self))
                     (cmp (origin_server_ts self) (origin_server_ts other)))
           (cmp (event_id self) (event_id other)).

#[global, program] Instance TieBreaker_ord : RustOrd TieBreaker := {| cmp := tie_cmp |}.
Next Obligation.
  intros [p t i] [q u j]. unfold tie_cmp, then_cmp; cbn [power_level origin_server_ts event_id].
  split; [|intros [= -> -> ->]; by rewrite !cmp_refl].
  destruct (cmp q p) eqn:E1; [|done|done].
  destruct (cmp t u) eqn:E2; [|done|done]. intros E3.
  apply cmp_eq_iff in E1, E2, E3. congruence.
Qed.
Next Obligation.
  intros [p t i] [q u j]. unfold tie_cmp, then_cmp; cbn [power_level origin_server_ts event_id].
  rewrite (cmp_antisym q p), (cmp_antisym t u), (cmp_antisym i j).
  by destruct (cmp q p); [destruct (cmp t u)| |].
Qed.
Next Obligation.
  intros [p t i] [q u j] [r v k]. unfold tie_cmp, then_cmp.
  cbn [power_level origin_server_ts event_id].
  destruct (cmp q p) eqn:E1; [apply cmp_eq_iff in E1 as ->| |done].
  - destruct (cmp r p) eqn:E2; [|done|done].
    destruct (cmp t u) eqn:E3; [apply cmp_eq_iff in E3 as ->| |done].
    + destruct (cmp u v) eqn:E4; [|done|done]. apply cmp_lt_trans.
    + destruct (cmp u v) eqn:E4; [apply cmp_eq_iff in E4 as ->; by rewrite E3| |done].
      by rewrite (cmp_lt_trans t u v).
  - destruct (cmp r q) eqn:E2; [apply cmp_eq_iff in E2 as ->; by rewrite E1| |done].
    by rewrite (cmp_lt_trans r q p).
Qed.

(** ** The algorithm *)

Context (key_fn : Id -> E + (Z * Z)).

Definition push_key (heap : list TieBreaker) (node : Id) : outcome E (list TieBreaker) :=
  match key_fn node with
  | inl e => Fail e
  | inr (power_level, origin_server_ts) =>
      Done (MkTieBreaker power_level origin_server_ts node :: heap)
  end.

(** [reverse_graph.entry(node).or_default()] and
    [reverse_graph.entry(edge).or_default().insert(node)]. *)
Definition or_default (k : Id) (m : gmap Id (gset Id)) : gmap Id (gset Id) :=
  <[k := default ∅ (m !! k)]> m.
Definition entry_insert (node : Id) (m : gmap Id (gset Id)) (edge : Id) : gmap Id (gset Id) :=
  <[edge := {[node]} ∪ default ∅ (m !! edge)]> m.

(** The loop over the graph: the nodes without dependencies and the reversed
    edges. *)
Definition scan_node (st : list TieBreaker * gmap Id (gset Id)) (n : Id * gset Id)
    : outcome E (list TieBreaker * gmap Id (gset Id)) :=
  let '(zero_outdegree, reverse_graph) := st in
  let '(node, edges) := n in
  zero_outdegree ← (if decide (edges = ∅) then push_key zero_outdegree node
                    else Done zero_outdegree);
  Done (zero_outdegree,
        foldl (entry_insert node) (or_default node reverse_graph)
              (reorder "edges" (elements edges))).

(** One parent of the popped node. *)
Definition visit_parent (node : Id) (st : list TieBreaker * gmap Id (gset Id)) (parent : Id)
    : outcome E (list TieBreaker * gmap Id (gset Id)) :=
  let '(heap, outdegree_map) := st in
  out ← expect (outdegree_map !! parent);
  let out := out ∖ {[node]} in
  let outdegree_map := <[parent := out]> outdegree_map in
  heap ← (if decide (out = ∅) then push_key heap parent else Done heap);
  Done (heap, outdegree_map).

Fixpoint pop_loop (reverse_graph : gmap Id (gset Id)) (fuel : nat) (heap : list TieBreaker)
    (outdegree_map : gmap Id (gset Id)) (sorted : list Id) : outcome E (list Id) :=
  match pop_least heap with
  | None => Done sorted
  | Some (item, heap) =>
      match fuel with
      | O => OutOfFuel
      | S fuel =>
          let node := event_id item in
          parents ← expect (reverse_graph !! node);
          '(heap, outdegree_map) ←
            try_fold (visit_parent node) (heap, outdegree_map)
                     (reorder "parents" (elements parents));
          pop_loop reverse_graph fuel heap outdegree_map (sorted ++ [node])
      end
  end.

Definition lexicographical_topological_sort (graph : gmap Id (gset Id)) : outcome E (list Id) :=
  '(zero_outdegree, reverse_graph) ←
    try_fold scan_node ([], ∅) (reorder "graph" (map_to_list graph));
  pop_loop reverse_graph (size graph) zero_outdegree graph [].

(** ** Specification *)

Context (graph : gmap Id (gset Id)).

Definition edges (n : Id) : gset Id := default ∅ (graph !! n).

(** [n] is not yet in the list and all it depends on is. *)
Definition available (s : list Id) (n : Id) : Prop :=
  (n ∈ dom graph) /\ (n ∉ s) /\ (edges n ⊆ list_to_set s).

Definition tie (n : Id) (t : TieBreaker) : Prop :=
  exists k, key_fn n = inr k /\ t = MkTieBreaker k.1 k.2 n.

(** The least available node. *)
Definition least_available (s : list Id) (n : Id) : Prop :=
  available s n /\ exists t, tie n t /\
    forall m, available s m -> exists u, tie m u /\ ord_le t u.

Definition greedy_prefix (s : list Id) : Prop :=
  forall s1 n s2, s = s1 ++ n :: s2 -> least_available s1 n.

Definition greedy (s : list Id) : Prop :=
  greedy_prefix s /\ (forall n, ~ available s n).

End topo_sort.
Arguments TieBreaker : clear implicits.

(** ** Correctness *)

Section correctness.
Context {Id : Type} `{EqDecision Id, !Countable Id, !RustOrd Id} {E : Type} {sched : Schedule}.
Context (key_fn : Id -> E + (Z * Z)) (graph : gmap Id (gset Id)).

Abbreviation edges := (edges graph).
Abbreviation available := (available graph).
Abbreviation tie := (tie key_fn).

(** The error of the sort is an error of the key function on a node. *)
Definition key_error (e : E) : Prop := exists n, n ∈ dom graph /\ key_fn n = inl e.

Lemma elem_of_edges n es x : graph !! n = Some es -> x ∈ edges n <-> x ∈ es.
Proof. intros H. unfold TopoSort.edges. by rewrite H. Qed.

Lemma push_key_spec heap n :
  n ∈ dom graph ->
  outcome_spec (push_key key_fn heap n) (fun h => exists t, tie n t /\ h = t :: heap) key_error.
Proof.
  intros Hn. unfold push_key. destruct (key_fn n) as [e|[p t]] eqn:K; simpl.
  - by exists n.
  - eexists; split; [|done]. by exists (p, t).
Qed.

Lemma tie_id n t : tie n t -> event_id t = n.
Proof. by intros (k & _ & ->). Qed.

(** *** The first loop *)

Lemma lookup_foldl_entry node (m : gmap Id (gset Id)) l x :
  default ∅ (foldl (entry_insert node) m l !! x) =
    (if decide (x ∈ l) then {[node]} else ∅) ∪ default ∅ (m !! x).
Proof.
  revert m. induction l as [|e l IH]; intros m; cbn [foldl].
  - case_decide; set_solver.
  - rewrite IH. unfold entry_insert. rewrite lookup_insert.
    repeat case_decide; simpl; set_solver.
Qed.

Lemma is_Some_foldl_entry node (m : gmap Id (gset Id)) l x :
  is_Some (m !! x) -> is_Some (foldl (entry_insert node) m l !! x).
Proof.
  revert m. induction l as [|e l IH]; intros m Hm; simpl; [done|].
  apply IH. unfold entry_insert. rewrite lookup_insert. by case_decide.
Qed.

Lemma is_Some_or_default k (m : gmap Id (gset Id)) x :
  is_Some (m !! x) \/ x = k -> is_Some (or_default k m !! x).
Proof. unfold or_default. rewrite lookup_insert. case_decide; naive_solver. Qed.

Lemma default_or_default k (m : gmap Id (gset Id)) x :
  default ∅ (or_default k m !! x) = default ∅ (m !! x).
Proof. unfold or_default. rewrite lookup_insert. case_decide; by subst. Qed.

(** What the reversed graph holds after the nodes [l]. *)
Definition reverse_of (l : list (Id * gset Id)) (rg : gmap Id (gset Id)) : Prop :=
  (forall n es, (n, es) ∈ l -> is_Some (rg !! n)) /\
  (forall x p, p ∈ default ∅ (rg !! x) <-> exists es, (p, es) ∈ l /\ x ∈ es).

Definition zero_of (l : list (Id * gset Id)) (z : list (TieBreaker Id)) : Prop :=
  (forall t, t ∈ z -> tie (event_id t) t) /\
  event_id <$> z ≡ₚ (filter (fun n => n.2 = ∅) l).*1.

Lemma reverse_of_snoc l rg n es :
  reverse_of l rg ->
  reverse_of (l ++ [(n, es)])
    (foldl (entry_insert n) (or_default n rg) (reorder "edges" (elements es))).
Proof.
  intros [R1 R2]. split.
  - intros m fs [Hm|[= -> ->]%list_elem_of_singleton]%elem_of_app;
      apply is_Some_foldl_entry, is_Some_or_default; [left; by eapply R1|by right].
  - intros x p. rewrite lookup_foldl_entry, default_or_default, elem_of_union, R2.
    setoid_rewrite elem_of_app. setoid_rewrite list_elem_of_singleton.
    case_decide as D; rewrite elem_of_reorder, elem_of_elements in D; set_solver.
Qed.

Lemma scan_spec l :
  (forall n es, (n, es) ∈ l -> graph !! n = Some es) ->
  outcome_spec (try_fold (scan_node key_fn) ([], ∅) l)
    (fun st => zero_of l st.1 /\ reverse_of l st.2) key_error.
Proof.
  intros Hl. apply (try_fold_spec _ (fun pre st => zero_of pre st.1 /\ reverse_of pre st.2)).
  - split; split; [set_solver|done|set_solver|]. intros x p. cbn [snd]. rewrite lookup_empty. set_solver.
  - intros pre [n es] post [z rg] -> [[Z1 Z2] R]. unfold scan_node.
    assert (graph !! n = Some es) as Hn by (apply Hl; set_solver).
    assert (n ∈ dom graph) by (apply elem_of_dom; eauto).
    eapply (outcome_spec_bind _ _ (zero_of (pre ++ [(n, es)]))).
    + unfold zero_of. rewrite filter_app. case_decide as D.
      * eapply outcome_spec_mono; [by apply push_key_spec| |done].
        intros h (t & Ht & ->). split.
        { intros u [->|Hu]%elem_of_cons; [by rewrite (tie_id n t)|auto]. }
        rewrite fmap_app. subst es. rewrite filter_cons_True by done.
        rewrite fmap_cons, (tie_id n t), Z2 by done.
        simpl. by rewrite Permutation_app_comm.
      * split; [done|]. rewrite filter_cons_False by done.
        rewrite filter_nil, app_nil_r. exact Z2.
    + intros z' Hz'. split; [done|]. by apply reverse_of_snoc.
Qed.

(** *** Consequences of the specification *)

Abbreviation least_available := (least_available key_fn graph).
Abbreviation greedy_prefix := (greedy_prefix key_fn graph).
Abbreviation greedy := (greedy key_fn graph).

Lemma greedy_prefix_nil : greedy_prefix [].
Proof. intros s1 n s2 []%symmetry%app_nil. done. Qed.

Lemma greedy_prefix_snoc s n :
  greedy_prefix s -> least_available s n -> greedy_prefix (s ++ [n]).
Proof.
  intros G L s1 m s2 Hs.
  destruct s2 as [|y s2 _] using rev_ind.
  - apply app_inj_tail in Hs as [<- <-]. done.
  - rewrite app_comm_cons, app_assoc in Hs. apply app_inj_tail in Hs as [-> _]. by eapply G.
Qed.

Lemma greedy_prefix_app s1 s2 : greedy_prefix (s1 ++ s2) -> greedy_prefix s1.
Proof. intros G t1 n t2 ->. eapply (G t1 n (t2 ++ s2)). by rewrite <- app_assoc. Qed.

(** Every element of a greedy list comes after what it depends on. *)
Lemma greedy_prefix_edges s n :
  greedy_prefix s -> n ∈ s -> n ∈ dom graph /\ edges n ⊆ list_to_set s.
Proof.
  intros G (s1 & s2 & ->)%list_elem_of_split.
  destruct (G s1 n s2 eq_refl) as [(Hd & _ & He) _]. set_solver.
Qed.

Lemma greedy_prefix_NoDup s : greedy_prefix s -> NoDup s.
Proof.
  induction s as [|n s IH] using rev_ind; intros G; [constructor|].
  destruct (G s n [] eq_refl) as [(_ & Hn & _) _].
  apply NoDup_app. split_and!; [by eapply IH, greedy_prefix_app|set_solver|apply NoDup_singleton].
Qed.

Lemma greedy_prefix_length s : greedy_prefix s -> length s <= size graph.
Proof.
  intros G. rewrite <- size_dom.
  rewrite <- (size_list_to_set (C := gset Id) s) by by apply greedy_prefix_NoDup.
  apply subseteq_size. intros n Hn%elem_of_list_to_set.
  by apply (greedy_prefix_edges s n).
Qed.

Lemma least_available_unique s n m : least_available s n -> least_available s m -> n = m.
Proof.
  intros [An (t & Tn & Ln)] [Am (u & Tm & Lm)].
  destruct (Ln m Am) as (u' & Tm' & Hu), (Lm n An) as (t' & Tn' & Ht).
  assert (u' = u) as ->. { destruct Tm as (? & ? & ->), Tm' as (? & ? & ->). congruence. }
  assert (t' = t) as ->. { destruct Tn as (? & ? & ->), Tn' as (? & ? & ->). congruence. }
  rewrite <- (tie_id n t), <- (tie_id m u) by done. by rewrite (ord_le_antisym t u).
Qed.

(** The specification determines the list. *)
Lemma greedy_unique s1 s2 : greedy s1 -> greedy s2 -> s1 = s2.
Proof.
  intros [G1 M1] [G2 M2].
  enough (forall pre r1 r2, s1 = pre ++ r1 -> s2 = pre ++ r2 -> r1 = r2) as Hr
    by by rewrite <- (app_nil_l s1), <- (app_nil_l s2), (Hr [] s1 s2).
  intros pre r1. revert pre. induction r1 as [|n r1 IH]; intros pre r2 -> ->.
  - destruct r2 as [|m r2]; [done|]. rewrite app_nil_r in M1.
    destruct (G2 pre m r2 eq_refl) as [Hm _]. by destruct (M1 m).
  - destruct r2 as [|m r2].
    { rewrite app_nil_r in M2. destruct (G1 pre n r1 eq_refl) as [Hn _]. by destruct (M2 n). }
    assert (n = m) as <-. { eapply least_available_unique; [by eapply G1|by eapply G2]. }
    f_equal. apply (IH (pre ++ [n])); by rewrite <- app_assoc.
Qed.

(** *** The main loop *)

Record loop_inv (heap : list (TieBreaker Id)) (om : gmap Id (gset Id)) (s : list Id) : Prop := {
  inv_greedy : greedy_prefix s;
  inv_out : forall n, om !! n = (fun es => es ∖ list_to_set s) <$> graph !! n;
  inv_tie : forall t, t ∈ heap -> tie (event_id t) t;
  inv_nodup : NoDup (event_id <$> heap);
  inv_avail : forall n, n ∈ event_id <$> heap <-> available s n }.

Lemma inv_pop heap om s item heap' :
  loop_inv heap om s -> pop_least heap = Some (item, heap') ->
  least_available s (event_id item) /\
  (forall t, t ∈ heap' -> tie (event_id t) t) /\
  NoDup (event_id <$> heap') /\
  (forall n, n ∈ event_id <$> heap' <-> available s n /\ n <> event_id item).
Proof.
  intros I (P & L)%pop_least_Some. pose proof (inv_nodup _ _ _ I) as ND.
  rewrite P, fmap_cons in ND. apply NoDup_cons in ND as [N1 N2].
  assert (item ∈ heap) as Hitem by (rewrite P; set_solver).
  split_and!.
  - split; [by apply (inv_avail _ _ _ I), list_elem_of_fmap_2|].
    exists item. split; [by apply (inv_tie _ _ _ I)|].
    intros m (t & -> & Ht)%(inv_avail _ _ _ I)%list_elem_of_fmap.
    exists t. split; [by apply (inv_tie _ _ _ I)|by apply L].
  - intros t Ht. apply (inv_tie _ _ _ I). rewrite P. set_solver.
  - done.
  - intros n. rewrite <- (inv_avail _ _ _ I), P, fmap_cons, elem_of_cons.
    split; [intros Hn; split; [by right|congruence]|]. naive_solver.
Qed.

(** A node that depends on the available node [node] is not in the list, not
    available, and different from [node]. *)
Lemma parent_fresh s node p :
  greedy_prefix s -> available s node -> p ∈ dom graph -> node ∈ edges p ->
  (p ∉ s) /\ (~ available s p) /\ (p <> node).
Proof.
  intros G (Hd & Hn & He) Hp Hin. split_and!.
  - intros Hps. destruct (greedy_prefix_edges s p G Hps). set_solver.
  - intros (_ & _ & Hep). set_solver.
  - intros ->. set_solver.
Qed.

(** The heap and the outdegrees after some parents [pre] of [node]. *)
Record visit_inv (h0 : list (TieBreaker Id)) (s : list Id) (node : Id) (pre : list Id)
    (st : list (TieBreaker Id) * gmap Id (gset Id)) : Prop := {
  vis_out : forall n, st.2 !! n =
    (fun es => es ∖ list_to_set (if decide (n ∈ pre) then s ++ [node] else s)) <$> graph !! n;
  vis_tie : forall t, t ∈ st.1 -> tie (event_id t) t;
  vis_nodup : NoDup (event_id <$> st.1);
  vis_avail : forall n, n ∈ event_id <$> st.1 <->
    n ∈ event_id <$> h0 \/ (n ∈ pre /\ available (s ++ [node]) n) }.

Lemma visit_parent_spec h0 s node pre st p :
  greedy_prefix s -> available s node -> p ∈ dom graph -> node ∈ edges p -> p ∉ pre ->
  p ∉ event_id <$> h0 -> visit_inv h0 s node pre st ->
  outcome_spec (visit_parent key_fn node st p) (visit_inv h0 s node (pre ++ [p])) key_error.
Proof.
  intros G An Hp Hin Hpre Hh0 [VO VT VN VA]. destruct st as [h om]; cbn [fst snd] in *.
  destruct (parent_fresh s node p G An Hp Hin) as (Hps & _ & Hpn).
  apply elem_of_dom in Hp as [es Hes]. unfold visit_parent.
  rewrite VO, Hes, decide_False by done. cbn [fmap option_fmap option_map expect mbind outcome_bind].
  set (out := (es ∖ list_to_set s) ∖ {[node]}).
  assert (out = es ∖ list_to_set (s ++ [node])) as Hout by (unfold out; set_solver).
  assert (available (s ++ [node]) p <-> out = ∅) as Hav.
  { unfold TopoSort.available. rewrite Hout. unfold TopoSort.edges. rewrite Hes. cbn [default from_option].
    rewrite elem_of_dom, Hes. split; [set_solver|]. intros He. split_and!; [eauto|set_solver|].
    intros x Hx. destruct (decide (x ∈ (list_to_set (s ++ [node]) : gset Id))); set_solver. }
  assert (forall n, <[p:=out]> om !! n =
    (fun es => es ∖ list_to_set (if decide (n ∈ pre ++ [p]) then s ++ [node] else s)) <$> graph !! n)
    as VO'.
  { intros n. rewrite lookup_insert. case_decide as D.
    - subst n. rewrite Hes, decide_True by set_solver. cbn. by rewrite Hout.
    - rewrite VO. by destruct (decide (n ∈ pre)), (decide (n ∈ pre ++ [p])); set_solver. }
  assert (p ∉ event_id <$> h) as Hph by (rewrite VA; naive_solver).
  eapply (outcome_spec_bind _ _ (fun h' => visit_inv h0 s node (pre ++ [p]) (h', <[p:=out]> om)));
    [|intros h' Hh'; exact Hh'].
  case_decide as D.
  - eapply outcome_spec_mono; [apply push_key_spec; apply elem_of_dom; eauto| |done].
    intros h' (t & Ht & ->). split; cbn [fst snd]; [done|..].
    + intros u [->|Hu]%elem_of_cons; [by rewrite (tie_id p t)|auto].
    + rewrite fmap_cons, (tie_id p t) by done. by apply NoDup_cons.
    + intros n. rewrite fmap_cons, (tie_id p t), elem_of_cons, VA by done.
      set_solver.
  - split; cbn [fst snd]; [done..|]. intros n. rewrite VA. set_solver.
Qed.

Lemma available_snoc s node n :
  available s node ->
  available (s ++ [node]) n <->
    (available s n /\ n <> node) \/ (node ∈ edges n /\ available (s ++ [node]) n).
Proof.
  intros (Hd & Hn & He). split.
  - intros Hav. destruct (decide (node ∈ edges n)); [by right|left].
    destruct Hav as (Hd' & Hn' & He'). split; [|set_solver]. split_and!; set_solver.
  - intros [[(Hd' & Hn' & He') Hne]|[_ ?]]; [|done]. split_and!; set_solver.
Qed.

(** The reversed graph holds the nodes that depend on a node. *)
Lemma reverse_of_parents rg node :
  reverse_of (map_to_list graph) rg -> node ∈ dom graph ->
  exists ps, rg !! node = Some ps /\
    forall p, p ∈ ps <-> (p ∈ dom graph /\ node ∈ edges p).
Proof.
  intros [R1 R2] [es Hes]%elem_of_dom.
  destruct (R1 node es) as [ps Hps]; [by apply elem_of_map_to_list|].
  exists ps. split; [done|]. intros p. specialize (R2 node p). rewrite Hps in R2. cbn in R2.
  rewrite R2. setoid_rewrite elem_of_map_to_list. rewrite elem_of_dom. split.
  - intros (fs & Hfs & ?). split; [eauto|]. by apply (elem_of_edges _ fs).
  - intros [[fs Hfs] ?]. exists fs. split; [done|]. by apply (elem_of_edges p fs).
Qed.

Section one_pop.
Context (heap heap' : list (TieBreaker Id)) (om : gmap Id (gset Id)) (s : list Id).
Context (item : TieBreaker Id) (ps : gset Id).
Context (I : loop_inv heap om s) (P : pop_least heap = Some (item, heap')).
Context (Hps : forall p, p ∈ ps <-> (p ∈ dom graph /\ event_id item ∈ edges p)).
Abbreviation node := (event_id item).
Abbreviation parents := (reorder "parents" (elements ps)).

Lemma visit_all_spec :
  outcome_spec (try_fold (visit_parent key_fn node) (heap', om) parents)
    (visit_inv heap' s node parents) key_error.
Proof.
  destruct (inv_pop _ _ _ _ _ I P) as ([An _] & HT & HN & HA).
  apply try_fold_spec.
  - split; cbn [fst snd]; [|done..|].
    + intros n. rewrite decide_False by apply not_elem_of_nil. apply (inv_out _ _ _ I).
    + intros n. split; [by left|]. intros [?|[[]%elem_of_nil _]]. done.
  - intros pre p post st Hl V.
    assert (NoDup (pre ++ p :: post)) as ND.
    { rewrite <- Hl, reorder_perm. apply NoDup_elements. }
    assert (p ∈ ps) as [Hpd Hpe]%Hps.
    { rewrite <- elem_of_elements, <- (elem_of_reorder "parents"), Hl. set_solver. }
    destruct (parent_fresh s node p (inv_greedy _ _ _ I) An Hpd Hpe) as (? & Hna & _).
    apply visit_parent_spec; try done; [apply I| |].
    + apply NoDup_app in ND as (_ & Hdis & _). intros Hpp. apply (Hdis p Hpp). set_solver.
    + rewrite HA. naive_solver.
Qed.

Lemma visit_all_inv h om' :
  visit_inv heap' s node parents (h, om') -> loop_inv h om' (s ++ [node]).
Proof.
  destruct (inv_pop _ _ _ _ _ I P) as (L & HT & HN & HA). pose proof (proj1 L) as An.
  intros [VO VT VN VA]; cbn [fst snd] in *. split; try done.
  - apply greedy_prefix_snoc; [apply I|done].
  - intros n. rewrite VO. destruct (graph !! n) as [fs|] eqn:Hfs; [|done]. cbn. f_equal.
    case_decide as D; [done|].
    assert (node ∉ fs) as Hnf.
    { intros Hin. apply D. rewrite elem_of_reorder, elem_of_elements, Hps.
      split; [apply elem_of_dom; eauto|by apply (elem_of_edges n fs)]. }
    set_solver.
  - intros n. rewrite VA, HA, elem_of_reorder, elem_of_elements, Hps.
    pose proof (available_snoc s node n An) as AS.
    split; [tauto|]. intros Hav. destruct (proj1 AS Hav) as [?|[Hin _]]; [by left|right].
    split; [split; [apply Hav|done]|done].
Qed.

End one_pop.

(** With one unit of fuel per node not yet in the list the loop ends. *)
Lemma pop_loop_spec rg :
  reverse_of (map_to_list graph) rg ->
  forall fuel heap om s, size graph <= fuel + length s -> loop_inv heap om s ->
  outcome_spec (pop_loop key_fn rg fuel heap om s) greedy key_error.
Proof.
  intros R fuel. induction fuel as [|fuel IH]; intros heap om s Hf I;
    cbn [pop_loop]; destruct (pop_least heap) as [[item heap']|] eqn:P.
  2,4: apply pop_least_None in P as ->; split; [apply (inv_greedy _ _ _ I)|];
       intros n Hn%(inv_avail _ _ _ I); set_solver.
  all: destruct (inv_pop _ _ _ _ _ I P) as (L & _).
  { pose proof (greedy_prefix_length _ (greedy_prefix_snoc _ _ (inv_greedy _ _ _ I) L)) as Hl.
    rewrite length_app in Hl. simpl in Hl. lia. }
  destruct (reverse_of_parents rg (event_id item) R (proj1 (proj1 L))) as (ps & -> & Hps).
  cbn [expect mbind outcome_bind].
  eapply outcome_spec_bind; [by eapply visit_all_spec|].
  intros [h om'] V. apply IH; [rewrite length_app; simpl; lia|by eapply visit_all_inv].
Qed.

Lemma sort_spec :
  outcome_spec (lexicographical_topological_sort key_fn graph) greedy key_error.
Proof.
  unfold lexicographical_topological_sort.
  set (l := reorder "graph" (map_to_list graph)).
  assert (forall x, x ∈ l <-> x ∈ map_to_list graph) as El by (intros; apply elem_of_reorder).
  eapply outcome_spec_bind.
  { apply (scan_spec l). intros n es Hn%El. by apply elem_of_map_to_list. }
  intros [z rg] [[Z1 Z2] [R1 R2]]. cbn [fst snd] in *.
  apply pop_loop_spec; [|lia|].
  - split; [intros n es ?%El; eauto|]. intros x p. rewrite R2. by setoid_rewrite El.
  - split.
    + apply greedy_prefix_nil.
    + intros n. destruct (graph !! n); [|done]. cbn. f_equal. set_solver.
    + done.
    + rewrite Z2. apply (NoDup_fmap_fst_filter (fun n => n.2 = ∅)).
      unfold l. rewrite reorder_perm. apply NoDup_fst_map_to_list.
    + intros n. rewrite Z2. unfold TopoSort.available. split.
      * intros ([n' es] & -> & [He Hin%El%elem_of_map_to_list]%list_elem_of_filter)%list_elem_of_fmap.
        cbn in *. split_and!; [apply elem_of_dom; eauto|set_solver|].
        unfold TopoSort.edges. rewrite Hin. cbn. set_solver.
      * intros ([es Hes]%elem_of_dom & _ & He). apply list_elem_of_fmap. exists (n, es).
        split; [done|]. apply list_elem_of_filter. unfold TopoSort.edges in He. rewrite Hes in He.
        split; [cbn in *; set_solver|]. by apply El, elem_of_map_to_list.
Qed.

(** The graph is closed (every dependency is a node) and acyclic. *)
Definition closed_acyclic : Prop :=
  (forall n, edges n ⊆ dom graph) /\ well_founded (fun x n => x ∈ edges n).

Lemma greedy_complete s :
  closed_acyclic -> greedy s -> forall n, n ∈ dom graph -> n ∈ s.
Proof.
  intros [Hc Hw] [G M] n. induction (Hw n) as [n _ IH]. intros Hn.
  destruct (decide (n ∈ s)) as [|Hns]; [done|]. destruct (M n). split_and!; [done..|].
  intros x Hx. apply elem_of_list_to_set. apply IH; [done|]. by apply (Hc n).
Qed.

Lemma greedy_perm s : closed_acyclic -> greedy s -> s ≡ₚ elements (dom graph).
Proof.
  intros Hc Hg. apply NoDup_Permutation; [apply greedy_prefix_NoDup, Hg|apply NoDup_elements|].
  intros n. rewrite elem_of_elements. split; [|by apply greedy_complete].
  intros Hn. by apply (greedy_prefix_edges s n (proj1 Hg)).
Qed.

(** An acyclicity check that evaluates: a rank that decreases along edges. *)
Lemma closed_acyclic_rank (rank : Id -> nat) :
  map_Forall (fun n es => es ⊆ dom graph /\ set_Forall (fun x => rank x < rank n) es) graph ->
  closed_acyclic.
Proof.
  intros Hr. split.
  - intros n x. unfold TopoSort.edges. destruct (graph !! n) eqn:Hn; [|set_solver].
    intros Hx. by apply (Hr n _ Hn).
  - apply (wf_projected lt rank); [|apply lt_wf].
    intros x n. unfold TopoSort.edges. destruct (graph !! n) eqn:Hn; [|set_solver].
    intros Hx. by apply (Hr n _ Hn).
Qed.

End correctness.

(** ** Properties *)

Section properties.
Context {Id : Type} `{EqDecision Id, !Countable Id, !RustOrd Id} {E : Type}.
Context (key_fn : Id -> E + (Z * Z)) (graph : gmap Id (gset Id)).

(** C5. On every graph, cyclic or with dangling edges too, and in whatever
    order the hash maps are iterated, the sort terminates without a panic; it
    fails only with an error of the key function on one of the nodes, and
    otherwise returns the greedy list: every node comes after all it depends
    on, at each position stands the least node, by (power level descending,
    timestamp, event id), among those whose dependencies are already in the
    list, and no node whose dependencies are in the list is left out. *)
Theorem topo_sort_greedy (sched : Schedule) :
  outcome_spec (lexicographical_topological_sort key_fn graph)
    (greedy key_fn graph) (key_error key_fn graph).
Proof. apply sort_spec. Qed.

(** On a closed acyclic graph all of whose nodes have a key, the sort
    returns a permutation of the nodes in which every node stands after all
    the nodes it depends on. *)
Theorem topo_sort_permutation (sched : Schedule) :
  closed_acyclic graph -> (forall n, n ∈ dom graph -> exists k, key_fn n = inr k) ->
  exists s, lexicographical_topological_sort key_fn graph = Done s /\
    s ≡ₚ elements (dom graph) /\
    (forall s1 n s2, s = s1 ++ n :: s2 -> forall d, d ∈ edges graph n -> d ∈ s1).
Proof.
  intros Hc Hk. pose proof (sort_spec key_fn graph) as H.
  destruct (lexicographical_topological_sort key_fn graph) as [s|e| |]; try done; simpl in H.
  - exists s. split; [done|]. split; [by eapply greedy_perm|].
    intros s1 n s2 Hs d Hd. destruct (proj1 H s1 n s2 Hs) as [(_ & _ & He) _]. set_solver.
  - destruct H as (n & Hn & He). destruct (Hk n Hn). congruence.
Qed.

(** The order is determined by the graph and the keys: two runs that both
    succeed return the same list, whatever the iteration order of the hash
    maps and sets in each. *)
Theorem topo_sort_deterministic (sched1 sched2 : Schedule) s1 s2 :
  lexicographical_topological_sort (sched := sched1) key_fn graph = Done s1 ->
  lexicographical_topological_sort (sched := sched2) key_fn graph = Done s2 -> s1 = s2.
Proof.
  intros H1 H2.
  pose proof (sort_spec (sched := sched1) key_fn graph) as G1. rewrite H1 in G1.
  pose proof (sort_spec (sched := sched2) key_fn graph) as G2. rewrite H2 in G2.
  by eapply greedy_unique.
Qed.

End properties.

(** The graph of the unit test [test_lexicographical_sort]: each event with the
    events it refers to; all keys equal, so that event ids break ties. *)
Definition test_graph : gmap string (gset string) :=
  {[ "l" := {["o"]}; "m" := {["n"; "o"]}; "n" := {["o"]}; "o" := ∅; "p" := {["o"]} ]}.
Definition test_key (_ : string) : string + (Z * Z) := inr (0%Z, 0%Z).
Definition test_rank (n : string) : nat :=
  if decide (n = "o") then 0 else if decide (n = "m") then 2 else 1.

Lemma test_graph_acyclic : closed_acyclic test_graph.
Proof. apply (closed_acyclic_rank _ test_rank), (bool_decide_unpack _). by vm_compute. Qed.

Lemma topo_sort_permutation_witness :
  exists s, lexicographical_topological_sort (sched := in_order) test_key test_graph = Done s /\
    s ≡ₚ elements (dom test_graph).
Proof.
  destruct (topo_sort_permutation test_key test_graph in_order) as (s & Hs & Hp & _).
  - apply test_graph_acyclic.
  - intros n _. by exists (0%Z, 0%Z).
  - by exists s.
Defined.

Lemma topo_sort_deterministic_witness : ["o"; "l"; "n"; "m"; "p"] = ["o"; "l"; "n"; "m"; "p"].
Proof.
  apply (topo_sort_deterministic test_key test_graph in_order reversed).
  - by vm_compute.
  - by vm_compute.
Defined.
