(* ===== verification/Matrix.v ===== *)
(** * Matrix vocabulary: events, room versions, power levels

    Models [src/core/matrix/event.rs], [state_res/error.rs],
    [state_res/room_version.rs] and [state_res/power_levels.rs].  What the
    source takes from the crates [ruma] and [serde_json] (identifier parsing
    and the JSON decoders of event contents) is the class [Ruma]: a parameter
    of the model. *)

From stdpp Require Import prelude gmap strings list sorting.
From Stdlib Require Import ZArith Lia.
From Stdlib Require Import Strings.Byte.
From S2P Require Import Prelude MachineInt.

(** ** Events *)

(** [TimelineEventType] and [StateEventType]: the variants the code names, and
    the others by their wire name. *)
Inductive EventType :=
| RoomCreate | RoomMember | RoomPowerLevels | RoomJoinRules
| RoomThirdPartyInvite | RoomAliases | RoomRedaction
| OtherType (name : string).

#[export] Instance EventType_eq_dec : EqDecision EventType.
Proof. solve_decision. Defined.

Definition EventType_code (t : EventType) : nat + string :=
  match t with
  | RoomCreate => inl 0 | RoomMember => inl 1 | RoomPowerLevels => inl 2
  | RoomJoinRules => inl 3 | RoomThirdPartyInvite => inl 4 | RoomAliases => inl 5
  | RoomRedaction => inl 6 | OtherType n => inr n
  end.
Definition EventType_decode (c : nat + string) : EventType :=
  match c with
  | inl 0 => RoomCreate | inl 1 => RoomMember | inl 2 => RoomPowerLevels
  | inl 3 => RoomJoinRules | inl 4 => RoomThirdPartyInvite | inl 5 => RoomAliases
  | inl _ => RoomRedaction | inr n => OtherType n
  end.

#[export] Instance EventType_countable : Countable EventType.
Proof. apply (inj_countable' EventType_code EventType_decode). by intros []. Defined.

(** A key of a state map: event type and state key. *)
Abbreviation TypeStateKey := (EventType * string)%type.
Abbreviation StateMap T := (gmap TypeStateKey T).

(** The getters of the trait [Event]. *)
Record Event := MkEvent {
  event_id : string;
  room_id : string;
  sender : string;
  origin_server_ts : Z;
  event_type : EventType;
  content : string;
  state_key : option string;
  prev_events : list string;
  auth_events : list string;
  redacts : option string }.

#[export] Instance Event_eq_dec : EqDecision Event.
Proof. solve_decision. Defined.

Inductive MembershipState := Join | Invite | Leave | Ban | Knock | CustomMembership (s : string).

#[export] Instance MembershipState_eq_dec : EqDecision MembershipState.
Proof. solve_decision. Defined.

(** [JoinRule]; the allow rules of the two restricted variants are never read
    by the authorization code. *)
Inductive JoinRule :=
| RuleInvite | RuleKnock | RulePublic | RuleRestricted | RuleKnockRestricted | RuleOther.

#[export] Instance JoinRule_eq_dec : EqDecision JoinRule.
Proof. solve_decision. Defined.

(** [state_res::Error] *)
Inductive Error :=
| SerdeJson
| Unsupported (version : string)
| NotFound (what : string)
| InvalidPdu (what : string).

(** ** Room versions *)

Inductive RoomDisposition := Stable | Unstable.
Inductive EventFormatVersion := FormatV1 | FormatV2 | FormatV3.
Inductive StateResolutionVersion := ResV1 | ResV2.

Record RoomVersion := MkRoomVersion {
  disposition : RoomDisposition;
  event_format : EventFormatVersion;
  state_res : StateResolutionVersion;
  enforce_key_validity : bool;
  special_case_aliases_auth : bool;
  strict_canonicaljson : bool;
  limit_notifications_power_levels : bool;
  extra_redaction_checks : bool;
  allow_knocking : bool;
  restricted_join_rules : bool;
  knock_restricted_join_rule : bool;
  integer_power_levels : bool;
  use_room_create_sender : bool }.

(** [RoomVersionId]: the known versions, and any other by name. *)
Inductive RoomVersionId :=
| IdV1 | IdV2 | IdV3 | IdV4 | IdV5 | IdV6 | IdV7 | IdV8 | IdV9 | IdV10 | IdV11
| IdOther (ver : string).

#[export] Instance RoomVersionId_eq_dec : EqDecision RoomVersionId.
Proof. solve_decision. Defined.

Definition V1 : RoomVersion :=
  {| disposition := Stable; event_format := FormatV1; state_res := ResV1;
     enforce_key_validity := false; special_case_aliases_auth := true;
     strict_canonicaljson := false; limit_notifications_power_levels := false;
     extra_redaction_checks := true; allow_knocking := false;
     restricted_join_rules := false; knock_restricted_join_rule := false;
     integer_power_levels := false; use_room_create_sender := false |}.

(** The struct update syntax [..Self::Vn], one field group at a time. *)
Definition V2 : RoomVersion :=
  let 'MkRoomVersion d e _ k a j l x kn r kr i u := V1 in
  MkRoomVersion d e ResV2 k a j l x kn r kr i u.
Definition V3 : RoomVersion :=
  let 'MkRoomVersion d _ s k a j l _ kn r kr i u := V2 in
  MkRoomVersion d FormatV2 s k a j l false kn r kr i u.
Definition V4 : RoomVersion :=
  let 'MkRoomVersion d _ s k a j l x kn r kr i u := V3 in
  MkRoomVersion d FormatV3 s k a j l x kn r kr i u.
Definition V5 : RoomVersion :=
  let 'MkRoomVersion d e s _ a j l x kn r kr i u := V4 in
  MkRoomVersion d e s true a j l x kn r kr i u.
Definition V6 : RoomVersion :=
  let 'MkRoomVersion d e s k _ _ _ x kn r kr i u := V5 in
  MkRoomVersion d e s k false true true x kn r kr i u.
Definition V7 : RoomVersion :=
  let 'MkRoomVersion d e s k a j l x _ r kr i u := V6 in
  MkRoomVersion d e s k a j l x true r kr i u.
Definition V8 : RoomVersion :=
  let 'MkRoomVersion d e s k a j l x kn _ kr i u := V7 in
  MkRoomVersion d e s k a j l x kn true kr i u.
Definition V9 : RoomVersion := V8.
Definition V10 : RoomVersion :=
  let 'MkRoomVersion d e s k a j l x kn r _ _ u := V9 in
  MkRoomVersion d e s k a j l x kn r true true u.
Definition V11 : RoomVersion :=
  let 'MkRoomVersion d e s k a j l x kn r kr i _ := V10 in
  MkRoomVersion d e s k a j l x kn r kr i true.

(** [RoomVersion::new] *)
Definition room_version_new (version : RoomVersionId) : outcome Error RoomVersion :=
  match version with
  | IdV1 => Done V1 | IdV2 => Done V2 | IdV3 => Done V3 | IdV4 => Done V4
  | IdV5 => Done V5 | IdV6 => Done V6 | IdV7 => Done V7 | IdV8 => Done V8
  | IdV9 => Done V9 | IdV10 => Done V10 | IdV11 => Done V11
  | IdOther ver => Fail (Unsupported ver)
  end.

(** ** Event contents

    A decoder returns [None] for the [Err] of the Rust function.  A field of
    type [Raw<T>] is the [option] its [deserialize] returns. *)

Record RoomMemberContentFields := {
  membership : option (option MembershipState);
  join_authorised_via_users_server : option (option string) }.

Record SignedThirdParty := { mxid : string; token : string }.

(** The fields [auth_types_for_event] reads of a member event. *)
Record MemberAuthFields := {
  auth_membership : option (option MembershipState);
  auth_third_party_invite : option (option SignedThirdParty);
  auth_join_authorised : option (option string) }.

Record RoomCreateContentFields := {
  create_room_version : option (option RoomVersionId);
  create_creator : option unit }.

(** [RoomThirdPartyInviteEventContent]: public key and additional keys. *)
Record ThirdPartyInviteContent := {
  public_key : list byte;
  public_keys : option (list (list byte)) }.

(** [RoomPowerLevelsEventContent] and its all-integer form. *)
Record RoomPowerLevelsEventContent := MkPowerLevels {
  ban : Z;
  events : gmap EventType Z;
  events_default : Z;
  invite : Z;
  kick : Z;
  redact : Z;
  state_default : Z;
  users : gmap string Z;
  users_default : Z;
  notifications_room : Z }.

Record IntRoomPowerLevelsEventContent := {
  int_ban : Z;
  int_events : gmap EventType Z;
  int_events_default : Z;
  int_invite : Z;
  int_kick : Z;
  int_redact : Z;
  int_state_default : Z;
  int_users : gmap string Z;
  int_users_default : Z;
  int_notifications_room : Z }.

Record PowerLevelsContentFields := MkContentFields {
  fields_users : list (string * Z);
  fields_users_default : Z }.
Record IntPowerLevelsContentFields := {
  int_fields_users : list (string * Z);
  int_fields_users_default : Z }.

(** ** Third-party code

    [ruma]'s identifier functions and the [serde_json] decoders of the types
    above.  [IntPowerLevelsContentInvite], [PowerLevelsContentInvite] and the
    [..Redact] types have one integer field each and are that integer. *)

(** The levels with a name of their own. *)
Definition named_level (pl : RoomPowerLevelsEventContent) (name : string) : option Z :=
  if decide (name = "users_default") then Some (users_default pl)
  else if decide (name = "events_default") then Some (events_default pl)
  else if decide (name = "state_default") then Some (state_default pl)
  else if decide (name = "ban") then Some (ban pl)
  else if decide (name = "redact") then Some (redact pl)
  else if decide (name = "kick") then Some (kick pl)
  else if decide (name = "invite") then Some (invite pl)
  else None.

Class Ruma := {
  user_server_name : string -> string;
  room_server_name : string -> option string;
  event_server_name : string -> option string;
  valid_user_id : string -> bool;
  base64_parse : string -> option (list byte);
  de_GetMembership : string -> option MembershipState;
  de_RoomMemberEventContent : string -> option MembershipState;
  de_RoomMemberContentFields : string -> option RoomMemberContentFields;
  de_MemberAuthFields : string -> option MemberAuthFields;
  de_RoomCreateContentFields : string -> option RoomCreateContentFields;
  de_RoomCreateContentFederate : string -> option bool;
  de_RoomCreateEventContent : string -> option (option string);
  de_RoomJoinRules : string -> option JoinRule;
  de_GetThirdPartyInvite : string -> option (option (option SignedThirdParty));
  de_ThirdPartyInviteContent : string -> option ThirdPartyInviteContent;
  de_RoomPowerLevels : string -> option RoomPowerLevelsEventContent;
  de_IntRoomPowerLevels : string -> option IntRoomPowerLevelsEventContent;
  de_PowerLevelsContentFields : string -> option PowerLevelsContentFields;
  de_IntPowerLevelsContentFields : string -> option IntPowerLevelsContentFields;
  de_PowerLevelsContentInvite : string -> option Z;
  de_IntPowerLevelsContentInvite : string -> option Z;
  de_PowerLevelsContentRedact : string -> option Z;
  de_IntPowerLevelsContentRedact : string -> option Z;
  (** [RoomPowerLevelsEventContent::default()] *)
  power_levels_default : RoomPowerLevelsEventContent;
  (** [serde_json::to_value(content).get(name)], decoded as [Int]: a level that is
      not the default one is written. *)
  power_levels_value : RoomPowerLevelsEventContent -> string -> option Z;
  power_levels_written : forall pl name z, named_level pl name = Some z ->
    named_level power_levels_default name <> Some z -> power_levels_value pl name = Some z }.

(** ** [power_levels.rs] *)

Section power_levels.
Context `{Ruma}.

Definition power_levels_from_int (int_pl : IntRoomPowerLevelsEventContent)
    : RoomPowerLevelsEventContent :=
  {| ban := int_ban int_pl;
     events := int_events int_pl;
     events_default := int_events_default int_pl;
     invite := int_invite int_pl;
     kick := int_kick int_pl;
     redact := int_redact int_pl;
     state_default := int_state_default int_pl;
     users := int_users int_pl;
     users_default := int_users_default int_pl;
     notifications_room := int_notifications_room int_pl |}.

Definition deserialize_integer_power_levels (content : string)
    : option RoomPowerLevelsEventContent :=
  power_levels_from_int <$> de_IntRoomPowerLevels content.

Definition deserialize_legacy_power_levels (content : string)
    : option RoomPowerLevelsEventContent := de_RoomPowerLevels content.

Definition deserialize_power_levels (content : string) (room_version : RoomVersion)
    : option RoomPowerLevelsEventContent :=
  if integer_power_levels room_version then deserialize_integer_power_levels content
  else deserialize_legacy_power_levels content.

Definition fields_from_int (pl : IntPowerLevelsContentFields) : PowerLevelsContentFields :=
  MkContentFields (int_fields_users pl) (int_fields_users_default pl).

Definition deserialize_integer_power_levels_content_fields (content : string)
    : outcome Error PowerLevelsContentFields :=
  ok_or SerdeJson (fields_from_int <$> de_IntPowerLevelsContentFields content).

Definition deserialize_legacy_power_levels_content_fields (content : string)
    : outcome Error PowerLevelsContentFields :=
  ok_or SerdeJson (de_PowerLevelsContentFields content).

Definition deserialize_power_levels_content_fields (content : string) (room_version : RoomVersion)
    : outcome Error PowerLevelsContentFields :=
  if integer_power_levels room_version
  then deserialize_integer_power_levels_content_fields content
  else deserialize_legacy_power_levels_content_fields content.

Definition deserialize_power_levels_content_invite (content : string) (room_version : RoomVersion)
    : outcome Error Z :=
  ok_or SerdeJson (if integer_power_levels room_version
                   then de_IntPowerLevelsContentInvite content
                   else de_PowerLevelsContentInvite content).

Definition deserialize_power_levels_content_redact (content : string) (room_version : RoomVersion)
    : outcome Error Z :=
  ok_or SerdeJson (if integer_power_levels room_version
                   then de_IntPowerLevelsContentRedact content
                   else de_PowerLevelsContentRedact content).

End power_levels.

(** [slice::binary_search_by] of the standard library: the index of an element
    that compares [Equal], by halving the range. *)
Fixpoint search_loop {A} (f : A -> comparison) (l : list A) (fuel base size : nat) : nat :=
  match fuel with
  | O => base
  | S fuel =>
      if decide (1 < size) then
        let half := size / 2 in
        let mid := base + half in
        let base :=
          match f <$> l !! mid with Some Gt => base | _ => mid end in
        search_loop f l fuel base (size - half)
      else base
  end.

Definition binary_search_by {A} (f : A -> comparison) (l : list A) : option nat :=
  let base := search_loop f l (length l) 0 (length l) in
  match f <$> l !! base with Some Eq => Some base | _ => None end.

Definition get_user_power (self : PowerLevelsContentFields) (user_id : string) : option Z :=
  idx ← binary_search_by (fun item => cmp item.1 user_id) (fields_users self);
  snd <$> fields_users self !! idx.

(** *** The binary search finds exactly the listed users *)

Definition users_sorted (l : list (string * Z)) : Prop :=
  StronglySorted (fun a b => cmp a.1 b.1 = Lt) l.

Lemma search_loop_spec {A} (f : A -> comparison) (l : list A) i :
  (forall j y, l !! j = Some y -> f y = Nat.compare j i) ->
  forall fuel base size, size <= fuel -> base <= i < base + size -> base + size <= length l ->
  search_loop f l fuel base size = i.
Proof.
  intros Hf fuel. induction fuel as [|fuel IH]; intros base size Hfu Hi Hl; cbn [search_loop]; [lia|].
  case_decide as D; [|lia].
  assert (0 < size / 2) by (apply Nat.div_str_pos; lia).
  pose proof (Nat.div_mod size 2 ltac:(lia)). pose proof (Nat.mod_upper_bound size 2 ltac:(lia)).
  destruct (l !! (base + size / 2)) as [y|] eqn:Hy.
  2: { apply lookup_ge_None in Hy. lia. }
  cbn [fmap option_fmap option_map]. rewrite (Hf _ _ Hy).
  destruct (Nat.compare_spec (base + size / 2) i); apply IH; lia.
Qed.

Lemma StronglySorted_lookup {A} (R : A -> A -> Prop) l i j x y :
  StronglySorted R l -> l !! i = Some x -> l !! j = Some y -> i < j -> R x y.
Proof.
  intros S. revert i j. induction S as [|a l S IH Ha]; intros i j; [done|].
  destruct i as [|i], j as [|j]; simpl; intros Hx Hy Hij; try lia.
  - injection Hx as ->. rewrite Forall_forall in Ha. apply Ha. by eapply list_elem_of_lookup_2.
  - eapply IH; [done..|lia].
Qed.

Lemma users_sorted_cmp l i u z j y :
  users_sorted l -> l !! i = Some (u, z) -> l !! j = Some y -> cmp y.1 u = Nat.compare j i.
Proof.
  intros S Hi Hj. destruct (Nat.compare_spec j i) as [->|Hlt|Hgt].
  - rewrite Hi in Hj. injection Hj as <-. apply cmp_refl.
  - exact (StronglySorted_lookup _ l j i y (u, z) S Hj Hi Hlt).
  - apply cmp_gt_lt. exact (StronglySorted_lookup _ l i j (u, z) y S Hi Hj Hgt).
Qed.

Lemma users_sorted_NoDup l : users_sorted l -> NoDup l.*1.
Proof.
  induction 1 as [|[u z] l S IH Ha]; [constructor|]. rewrite fmap_cons. apply NoDup_cons.
  split; [|done]. intros ([u' z'] & Hu & Hin)%list_elem_of_fmap. cbn in Hu. subst u'.
  rewrite Forall_forall in Ha. specialize (Ha _ Hin). cbn [fst] in Ha.
  by rewrite cmp_refl in Ha.
Qed.

Lemma get_user_power_sorted self u :
  users_sorted (fields_users self) ->
  get_user_power self u = (list_to_map (fields_users self) : gmap string Z) !! u.
Proof.
  intros S. unfold get_user_power, binary_search_by.
  set (l := fields_users self) in *. set (f := fun item : string * Z => cmp item.1 u).
  destruct (list_to_map l !! u) as [z|] eqn:Hu.
  - apply elem_of_list_to_map_2 in Hu as [i Hi]%list_elem_of_lookup.
    assert (i < length l) by by apply lookup_lt_is_Some_1.
    rewrite (search_loop_spec f l i) by
      (try lia; intros j y Hy; by eapply users_sorted_cmp).
    rewrite Hi. cbn [fmap option_fmap option_map]. replace (f (u, z)) with Eq.
    + cbn. by rewrite Hi.
    + symmetry. exact (cmp_refl u).
  - destruct (l !! _) as [[v w]|] eqn:Hb; [|done].
    cbn [fmap option_fmap option_map]. destruct (f (v, w)) eqn:Hv; [|done|done].
    apply (cmp_eq_iff v u) in Hv as ->.
    apply not_elem_of_list_to_map_2 in Hu. destruct Hu.
    apply list_elem_of_lookup_2 in Hb. apply list_elem_of_fmap. by exists (u, w).
Qed.
