(* ===== verification/ToyRuma.v ===== *)
(** * A concrete instance of the third-party parameters

    The theorems are stated for every [Ruma]; the witnesses evaluate them at
    this small instance, whose event contents are short strings that stand for
    JSON documents. *)

From stdpp Require Import prelude gmap strings list.
From Stdlib Require Import ZArith Lia Ascii.
From S2P Require Import Prelude MachineInt Matrix.

Local Open Scope Z_scope.

(** The part of an identifier after its first colon. *)
Fixpoint server_part (s : string) : option string :=
  match s with
  | EmptyString => None
  | String a s' => if decide (a = ":"%char) then Some s' else server_part s'
  end.

Definition toy_membership (c : string) : option MembershipState :=
  if decide (c = "join") then Some Join
  else if decide (c = "join via @bob:a") then Some Join
  else if decide (c = "invite") then Some Invite
  else if decide (c = "leave") then Some Leave
  else if decide (c = "ban") then Some Ban
  else if decide (c = "knock") then Some Knock
  else None.

Definition toy_join_via (c : string) : option (option string) :=
  if decide (c = "join via @bob:a") then Some (Some "@bob:a") else None.

Definition toy_levels (u : gmap string Z) (d : Z) : RoomPowerLevelsEventContent :=
  {| ban := 50; events := ∅; events_default := 0; invite := 0; kick := 50; redact := 50;
     state_default := 50; users := u; users_default := d; notifications_room := 50 |}.

(** Power level contents: the room's levels, the levels with [@carol:a]
    promoted to 50, and levels under which everybody has 50. *)
Definition toy_power (c : string) : option RoomPowerLevelsEventContent :=
  if decide (c = "levels")
  then Some (toy_levels {[ "@alice:a" := 100; "@bob:a" := 50 ]} 0)
  else if decide (c = "levels, carol 50")
  then Some (toy_levels {[ "@alice:a" := 100; "@bob:a" := 50; "@carol:a" := 50 ]} 0)
  else if decide (c = "everybody 50")
  then Some (toy_levels {[ "@bob:a" := 50 ]} 50)
  else None.

Definition toy_fields (c : string) : option (list (string * Z) * Z) :=
  if decide (c = "levels") then Some ([("@alice:a", 100); ("@bob:a", 50)], 0)
  else if decide (c = "levels, carol 50")
  then Some ([("@alice:a", 100); ("@bob:a", 50); ("@carol:a", 50)], 0)
  else if decide (c = "everybody 50") then Some ([("@bob:a", 50)], 50)
  else None.

Definition toy_to_int (pl : RoomPowerLevelsEventContent) : IntRoomPowerLevelsEventContent :=
  {| int_ban := ban pl; int_events := events pl; int_events_default := events_default pl;
     int_invite := invite pl; int_kick := kick pl; int_redact := redact pl;
     int_state_default := state_default pl; int_users := users pl;
     int_users_default := users_default pl; int_notifications_room := notifications_room pl |}.

Definition toy_rule (c : string) : option JoinRule :=
  if decide (c = "public") then Some RulePublic
  else if decide (c = "by invitation") then Some RuleInvite
  else if decide (c = "restricted") then Some RuleRestricted
  else None.

Definition toy_ruma : Ruma := {|
  user_server_name := fun u => default "" (server_part u);
  room_server_name := server_part;
  event_server_name := server_part;
  valid_user_id := fun u => bool_decide (is_Some (server_part u));
  base64_parse := fun _ => None;
  de_GetMembership := toy_membership;
  de_RoomMemberEventContent := toy_membership;
  de_RoomMemberContentFields := fun c =>
    Some {| membership := Some <$> toy_membership c;
            join_authorised_via_users_server := toy_join_via c |};
  de_MemberAuthFields := fun c =>
    Some {| auth_membership := Some <$> toy_membership c; auth_third_party_invite := None;
            auth_join_authorised := toy_join_via c |};
  de_RoomCreateContentFields := fun c =>
    if decide (c = "create") then Some {| create_room_version := None; create_creator := Some tt |}
    else None;
  de_RoomCreateContentFederate := fun c => if decide (c = "create") then Some true else None;
  de_RoomCreateEventContent := fun c =>
    if decide (c = "create") then Some (Some "@alice:a") else None;
  de_RoomJoinRules := toy_rule;
  de_GetThirdPartyInvite := fun _ => Some None;
  de_ThirdPartyInviteContent := fun _ => None;
  de_RoomPowerLevels := toy_power;
  de_IntRoomPowerLevels := fun c => toy_to_int <$> toy_power c;
  de_PowerLevelsContentFields := fun c =>
    '(u, d) ← toy_fields c; Some (MkContentFields u d);
  de_IntPowerLevelsContentFields := fun c =>
    '(u, d) ← toy_fields c; Some {| int_fields_users := u; int_fields_users_default := d |};
  de_PowerLevelsContentInvite := fun c => invite <$> toy_power c;
  de_IntPowerLevelsContentInvite := fun c => invite <$> toy_power c;
  de_PowerLevelsContentRedact := fun c => redact <$> toy_power c;
  de_IntPowerLevelsContentRedact := fun c => redact <$> toy_power c;
  power_levels_default := toy_levels ∅ 0;
  power_levels_value := named_level;
  power_levels_written := fun _ _ _ Hl _ => Hl |}.

(** ** A small room

    [@alice:a] created it, [@bob:a] has power level 50, [@carol:a] is joined
    and [@eve:b] is banned. *)

Definition toy_event (id sender : string) (ts : Z) (ty : EventType) (content : string)
    (sk : option string) (prev auth : list string) : Event :=
  {| event_id := id; room_id := "!room:a"; sender := sender; origin_server_ts := ts;
     event_type := ty; content := content; state_key := sk; prev_events := prev;
     auth_events := auth; redacts := None |}.

Definition ev_create := toy_event "$create" "@alice:a" 0 RoomCreate "create" (Some "") [] [].
Definition ev_alice := toy_event "$alice" "@alice:a" 1 RoomMember "join" (Some "@alice:a")
  ["$create"] ["$create"].
Definition ev_levels := toy_event "$levels" "@alice:a" 2 RoomPowerLevels "levels" (Some "")
  ["$alice"] ["$create"; "$alice"].
Definition ev_rules := toy_event "$rules" "@alice:a" 3 RoomJoinRules "public" (Some "")
  ["$levels"] ["$create"; "$alice"; "$levels"].
Definition ev_bob := toy_event "$bob" "@bob:a" 4 RoomMember "join" (Some "@bob:a")
  ["$rules"] ["$create"; "$rules"; "$levels"].
Definition ev_carol := toy_event "$carol" "@carol:a" 5 RoomMember "join" (Some "@carol:a")
  ["$bob"] ["$create"; "$rules"; "$levels"].
Definition ev_eve := toy_event "$eve" "@alice:a" 6 RoomMember "ban" (Some "@eve:b")
  ["$carol"] ["$create"; "$alice"; "$levels"].

Definition toy_state : list (TypeStateKey * Event) :=
  [(RoomCreate, "", ev_create); (RoomPowerLevels, "", ev_levels); (RoomJoinRules, "", ev_rules);
   (RoomMember, "@alice:a", ev_alice); (RoomMember, "@bob:a", ev_bob);
   (RoomMember, "@carol:a", ev_carol); (RoomMember, "@eve:b", ev_eve)].

Definition toy_fetch (l : list (TypeStateKey * Event)) (ty : EventType) (sk : string)
    : option Event := (list_to_map l : gmap TypeStateKey Event) !! (ty, sk).
