(* ===== verification/EventAuth.v ===== *)
(** * Event authorization

    Models [src/core/matrix/state_res/event_auth.rs]: which state an event is
    authorized against ([auth_types_for_event]) and the authorization rules
    themselves ([auth_check] and its helpers).  [auth_check] is cut into the
    rules for create events ([check_room_create]), member events
    ([check_room_member], [valid_membership_change] and one definition per
    membership) and all others ([check_joined_sender]).  Logging is dropped. *)

From stdpp Require Import prelude gmap strings list.
From Stdlib Require Import ZArith Lia Ascii.
From S2P Require Import Prelude MachineInt Matrix ToyRuma.

Local Open Scope Z_scope.

(** The derived order of [Option<&Int>]: [None] is least. *)
Definition opt_lt (a b : option Z) : bool :=
  match a, b with
  | None, Some _ => true
  | Some x, Some y => x <? y
  | _, None => false
  end.
Definition opt_gt (a b : option Z) : bool := opt_lt b a.

(** [opt.filter(p).is_some()] *)
Definition is_some_and (p : Z -> bool) (o : option Z) : bool :=
  match o with Some z => p z | None => false end.

Section event_auth.
Context `{Ruma}.

(** ** [auth_types_for_event] *)

(** [if !auth_types.contains(&key) { auth_types.push(key) }] *)
Definition push_new (auth_types : list TypeStateKey) (key : TypeStateKey) : list TypeStateKey :=
  if decide (key ∈ auth_types) then auth_types else auth_types ++ [key].

Definition auth_types_for_event (kind : EventType) (sender : string)
    (state_key : option string) (content : string) : outcome Error (list TypeStateKey) :=
  if decide (kind = RoomCreate) then Done [] else
  let auth_types := [(RoomPowerLevels, ""); (RoomMember, sender); (RoomCreate, "")] in
  if decide (kind = RoomMember) then
    match state_key with
    | None => Done auth_types
    | Some state_key =>
        content ← ok_or SerdeJson (de_MemberAuthFields content);
        match auth_membership content with
        | Some (Some membership) =>
            let auth_types :=
              if decide (membership ∈ [Join; Invite; Knock]) then
                let auth_types := push_new auth_types (RoomJoinRules, "") in
                match auth_join_authorised content with
                | Some (Some u) => push_new auth_types (RoomMember, u)
                | _ => auth_types
                end
              else auth_types in
            let auth_types := push_new auth_types (RoomMember, state_key) in
            let auth_types :=
              if decide (membership = Invite) then
                match auth_third_party_invite content with
                | Some (Some t_id) => push_new auth_types (RoomThirdPartyInvite, token t_id)
                | _ => auth_types
                end
              else auth_types in
            Done auth_types
        | _ => Done auth_types
        end
    end
  else Done auth_types.

(** ** Levels *)

Definition get_send_level (e_type : EventType) (state_key : option string)
    (power_lvl : option Event) : Z :=
  default (if decide (is_Some state_key) then 50 else 0)
    (ple ← power_lvl;
     content ← de_RoomPowerLevels (content ple);
     Some (default (if decide (is_Some state_key) then state_default content
                    else events_default content)
                   (events content !! e_type))).

Definition starts_with_at (k : string) : bool :=
  match k with String a _ => bool_decide (a = "@"%char) | EmptyString => false end.

Definition can_send_event (event : Event) (ple : option Event) (user_level : Z) : bool :=
  let event_type_power_level := get_send_level (event_type event) (state_key event) ple in
  if user_level <? event_type_power_level then false
  else if match state_key event with Some k => starts_with_at k | None => false end
          && bool_decide (state_key event <> Some (sender event)) then false
  else true.

Definition get_deserialize_levels (old new : RoomPowerLevelsEventContent) (name : string)
    : option (Z * Z) :=
  old_lvl ← power_levels_value old name;
  new_lvl ← power_levels_value new name;
  Some (old_lvl, new_lvl).

(** One iteration of the user loop: [false] is [return Some(false)]. *)
Definition user_level_ok (power_sender : string) (user_level : Z)
    (old_state new_state : RoomPowerLevelsEventContent) (user : string) : bool :=
  let old_level := users old_state !! user in
  let new_level := users new_state !! user in
  if decide (is_Some old_level /\ is_Some new_level /\ old_level = new_level) then true
  else if decide (user <> power_sender /\ old_level = Some user_level) then false
  else negb (opt_gt old_level (Some user_level) || opt_gt new_level (Some user_level)).

Definition event_level_ok (user_level : Z)
    (old_state new_state : RoomPowerLevelsEventContent) (ev_type : EventType) : bool :=
  let old_level := events old_state !! ev_type in
  let new_level := events new_state !! ev_type in
  if decide (is_Some old_level /\ is_Some new_level /\ old_level = new_level) then true
  else negb (opt_gt old_level (Some user_level) || opt_gt new_level (Some user_level)).

Definition notifications_ok (room_version : RoomVersion) (user_level : Z)
    (old_state new_state : RoomPowerLevelsEventContent) : bool :=
  if limit_notifications_power_levels room_version then
    let old_level := notifications_room old_state in
    let new_level := notifications_room new_state in
    if decide (old_level <> new_level) then
      negb ((old_level >? user_level) || (new_level >? user_level))
    else true
  else true.

Definition level_names : list string :=
  ["users_default"; "events_default"; "state_default"; "ban"; "redact"; "kick"; "invite"].

Definition named_level_ok (user_level : Z)
    (old_state new_state : RoomPowerLevelsEventContent) (lvl_name : string) : bool :=
  match get_deserialize_levels old_state new_state lvl_name with
  | Some (old_lvl, new_lvl) => negb ((old_lvl >? user_level) || (new_lvl >? user_level))
  | None => true
  end.

Definition check_power_levels (room_version : RoomVersion) (power_event : Event)
    (previous_power_event : option Event) (user_level : Z) : option bool :=
  if decide (state_key power_event = Some "") then
    user_content ← deserialize_power_levels (content power_event) room_version;
    match previous_power_event with
    | None => Some true
    | Some current_state =>
        current_content ← deserialize_power_levels (content current_state) room_version;
        let user_levels_to_check :=
          elements (dom (users current_content) ∪ dom (users user_content)) in
        let event_levels_to_check :=
          elements (dom (events current_content) ∪ dom (events user_content)) in
        Some
          (forallb (user_level_ok (sender power_event) user_level current_content user_content)
                   user_levels_to_check &&
           forallb (event_level_ok user_level current_content user_content)
                   event_levels_to_check &&
           notifications_ok room_version user_level current_content user_content &&
           forallb (named_level_ok user_level current_content user_content) level_names)
    end
  else None.

Definition check_redaction (redaction_event : Event) (user_level redact_level : Z)
    : outcome Error bool :=
  if redact_level <=? user_level then Done true
  else if decide (event_server_name (event_id redaction_event) =
                  (redacts redaction_event ≫= event_server_name)) then Done true
  else Done false.

Definition verify_third_party_invite (target_user : option string) (sender : string)
    (tp_id : SignedThirdParty) (current_third_party_invite : option Event) : bool :=
  if decide (target_user <> Some (mxid tp_id)) then false else
  match current_third_party_invite with
  | None => false
  | Some current_tpid =>
      if decide (state_key current_tpid <> Some (token tp_id)) then false
      else if decide (sender <> Matrix.sender current_tpid) then false
      else match de_ThirdPartyInviteContent (content current_tpid) with
           | None => false
           | Some tpid_ev =>
               match base64_parse (token tp_id) with
               | None => false
               | Some decoded_invite_token =>
                   bool_decide (decoded_invite_token ∈ default [] (public_keys tpid_ev)) ||
                   bool_decide (public_key tpid_ev = decoded_invite_token)
               end
           end
  end.

(** ** Membership changes *)

(** The room creator, for a join right after the create event. *)
Definition is_creator_join (room_version : RoomVersion) (target_user sender : string)
    (create_room : Event) : outcome Error bool :=
  if use_room_create_sender room_version then
    let creator := Matrix.sender create_room in
    Done (bool_decide (creator = sender) && bool_decide (creator = target_user))
  else
    create ← ok_or SerdeJson (de_RoomCreateEventContent (content create_room));
    creator ← ok_or SerdeJson create;
    Done (bool_decide (creator = sender) && bool_decide (creator = target_user)).

(** [MembershipState::Join], after the creator rule. *)
Definition join_allowed (room_version : RoomVersion) (target_user sender : string)
    (target_user_current_membership : MembershipState) (join_rules : JoinRule)
    (user_for_join_auth_is_valid : bool) : bool :=
  if decide (sender <> target_user) then false
  else if decide (target_user_current_membership = Ban) then false
  else if (bool_decide (join_rules = RuleInvite)
           || allow_knocking room_version && bool_decide (join_rules = RuleKnock))
          && (bool_decide (target_user_current_membership = Join)
              || bool_decide (target_user_current_membership = Invite)) then true
  else if (restricted_join_rules room_version && bool_decide (join_rules = RuleRestricted))
          || (knock_restricted_join_rule room_version
              && bool_decide (join_rules = RuleKnockRestricted)) then
    if decide (target_user_current_membership ∈ [Invite; Join]) then true
    else user_for_join_auth_is_valid
  else bool_decide (join_rules = RulePublic).

(** [MembershipState::Invite]; [third_party_invite] is the decoded field. *)
Definition invite_allowed (target_user sender : string)
    (third_party_invite : option SignedThirdParty) (current_third_party_invite : option Event)
    (target_user_current_membership : MembershipState) (sender_is_joined : bool)
    (sender_power : option Z) (power_levels : RoomPowerLevelsEventContent) : bool :=
  match third_party_invite with
  | Some tp_id =>
      if decide (target_user_current_membership = Ban) then false
      else verify_third_party_invite (Some target_user) sender tp_id current_third_party_invite
  | None =>
      if negb sender_is_joined
         || bool_decide (target_user_current_membership = Join)
         || bool_decide (target_user_current_membership = Ban) then false
      else is_some_and (fun p => invite power_levels <=? p) sender_power
  end.

(** [MembershipState::Leave]: leaving, kicking and unbanning. *)
Definition leave_allowed (target_user sender : string)
    (target_user_current_membership : MembershipState) (sender_is_joined : bool)
    (sender_power target_power : option Z) (power_levels : RoomPowerLevelsEventContent) : bool :=
  if decide (sender = target_user) then
    bool_decide (target_user_current_membership = Join)
    || bool_decide (target_user_current_membership = Invite)
    || bool_decide (target_user_current_membership = Knock)
  else if negb sender_is_joined
          || bool_decide (target_user_current_membership = Ban)
             && is_some_and (fun p => p <? ban power_levels) sender_power then false
  else is_some_and (fun p => kick power_levels <=? p) sender_power
       && opt_lt target_power sender_power.

(** [MembershipState::Ban] *)
Definition ban_allowed (sender_is_joined : bool) (sender_power target_power : option Z)
    (power_levels : RoomPowerLevelsEventContent) : bool :=
  if negb sender_is_joined then false
  else is_some_and (fun p => ban power_levels <=? p) sender_power
       && opt_lt target_power sender_power.

(** [MembershipState::Knock] *)
Definition knock_allowed (room_version : RoomVersion) (target_user sender : string)
    (sender_membership : MembershipState) (join_rules : JoinRule) : bool :=
  if decide (join_rules ∉ [RuleKnockRestricted; RuleKnock]) then false
  else if bool_decide (join_rules = RuleKnockRestricted)
          && negb (knock_restricted_join_rule room_version) then false
  else if decide (sender <> target_user) then false
  else if decide (sender_membership ∈ [Ban; Invite; Join]) then false
  else true.

(** The membership a member event of the state gives, [Leave] without one. *)
Definition current_membership (ev : option Event) : outcome Error MembershipState :=
  match ev with
  | Some pdu => ok_or SerdeJson (de_GetMembership (content pdu))
  | None => Done Leave
  end.

Definition user_power (fields : PowerLevelsContentFields) (user : string) : Z :=
  match get_user_power fields user with
  | Some level => level
  | None => fields_users_default fields
  end.

(** Whether the user named by [join_authorised_via_users_server] may invite. *)
Definition join_auth_valid (room_version : RoomVersion) (power_levels_event : option Event)
    (user_for_join_auth : option string) (user_for_join_auth_membership : MembershipState)
    : outcome Error bool :=
  match user_for_join_auth with
  | None => Done false
  | Some user_for_join_auth =>
      '(auth_user_pl, invite_level) ←
        match power_levels_event with
        | Some pl =>
            invite ← deserialize_power_levels_content_invite (content pl) room_version;
            content ← deserialize_power_levels_content_fields (content pl) room_version;
            Done (user_power content user_for_join_auth, invite)
        | None => Done (0, 0)
        end;
      Done (bool_decide (user_for_join_auth_membership = Join)
            && (invite_level <=? auth_user_pl))
  end.

Definition valid_membership_change (room_version : RoomVersion) (target_user : string)
    (target_user_membership_event : option Event) (sender : string)
    (sender_membership_event : option Event) (current_event : Event)
    (current_third_party_invite power_levels_event join_rules_event : option Event)
    (user_for_join_auth : option string) (user_for_join_auth_membership : MembershipState)
    (create_room : Event) : outcome Error bool :=
  let content := Matrix.content current_event in
  target_membership ← ok_or SerdeJson (de_GetMembership content);
  third_party_invite ← ok_or SerdeJson (de_GetThirdPartyInvite content);
  sender_membership ← current_membership sender_membership_event;
  let sender_is_joined := bool_decide (sender_membership = Join) in
  target_user_current_membership ← current_membership target_user_membership_event;
  power_levels ← match power_levels_event with
                 | Some ev => ok_or SerdeJson (de_RoomPowerLevels (Matrix.content ev))
                 | None => Done power_levels_default
                 end;
  let sender_power :=
    match users power_levels !! sender with
    | Some p => Some p
    | None => if sender_is_joined then Some (users_default power_levels) else None
    end in
  let target_power :=
    match users power_levels !! target_user with
    | Some p => Some p
    | None => if decide (target_membership = Join) then Some (users_default power_levels) else None
    end in
  join_rules ← match join_rules_event with
               | Some jr => ok_or SerdeJson (de_RoomJoinRules (Matrix.content jr))
               | None => Done RuleInvite
               end;
  user_for_join_auth_is_valid ←
    join_auth_valid room_version power_levels_event user_for_join_auth
                    user_for_join_auth_membership;
  match target_membership with
  | Join =>
      is_creator ← (if decide (prev_events current_event = [event_id create_room])
                    then is_creator_join room_version target_user sender create_room
                    else Done false);
      if is_creator : bool then Done true
      else Done (join_allowed room_version target_user sender target_user_current_membership
                              join_rules user_for_join_auth_is_valid)
  | Invite =>
      Done (invite_allowed target_user sender (mjoin third_party_invite)
              current_third_party_invite target_user_current_membership sender_is_joined
              sender_power power_levels)
  | Leave =>
      Done (leave_allowed target_user sender target_user_current_membership sender_is_joined
                          sender_power target_power power_levels)
  | Ban => Done (ban_allowed sender_is_joined sender_power target_power power_levels)
  | Knock =>
      if allow_knocking room_version
      then Done (knock_allowed room_version target_user sender sender_membership join_rules)
      else Done false
  | CustomMembership _ => Done false
  end.

(** ** [auth_check] *)

(** Rule 1: [m.room.create]. *)
Definition check_room_create (room_version : RoomVersion) (incoming_event : Event)
    : outcome Error bool :=
  if decide (prev_events incoming_event <> []) then Done false else
  match room_server_name (room_id incoming_event) with
  | None => Done false
  | Some room_id_server_name =>
      if decide (room_id_server_name <> user_server_name (sender incoming_event)) then Done false
      else
        content ← ok_or SerdeJson (de_RoomCreateContentFields (content incoming_event));
        if decide (create_room_version content = Some None) then Done false
        else if negb (use_room_create_sender room_version)
                && bool_decide (create_creator content = None) then Done false
        else Done true
  end.

(** The rules for [m.room.member]. *)
Definition check_room_member (room_version : RoomVersion) (incoming_event : Event)
    (current_third_party_invite : option Event)
    (fetch_state : EventType -> string -> option Event)
    (room_create_event : Event) (power_levels_event sender_member_event : option Event)
    : outcome Error bool :=
  match state_key incoming_event with
  | None => Done false
  | Some state_key =>
      content ← ok_or SerdeJson (de_RoomMemberContentFields (content incoming_event));
      match mjoin (membership content) with
      | None => Done false
      | Some _ =>
          target_user ← (if valid_user_id state_key then Done state_key
                         else Fail (InvalidPdu state_key));
          let user_for_join_auth := mjoin (join_authorised_via_users_server content) in
          let user_for_join_auth_event := user_for_join_auth ≫= fetch_state RoomMember in
          let target_user_member_event := fetch_state RoomMember target_user in
          let join_rules_event := fetch_state RoomJoinRules "" in
          let user_for_join_auth_membership :=
            default Leave (mem ← user_for_join_auth_event;
                           de_GetMembership (Matrix.content mem)) in
          valid_membership_change room_version target_user target_user_member_event
            (sender incoming_event) sender_member_event incoming_event
            current_third_party_invite power_levels_event join_rules_event
            user_for_join_auth user_for_join_auth_membership room_create_event
      end
  end.

(** The power level of the sender of an event that is not a member event. *)
Definition sender_power_level (room_version : RoomVersion) (sender : string)
    (power_levels_event : option Event) (room_create_event : Event) : outcome Error Z :=
  match power_levels_event with
  | Some pl =>
      content ← deserialize_power_levels_content_fields (content pl) room_version;
      Done (user_power content sender)
  | None =>
      is_creator ←
        (if use_room_create_sender room_version
         then Done (bool_decide (Matrix.sender room_create_event = sender))
         else match de_RoomCreateEventContent (content room_create_event) with
              | None => Done false
              | Some create => creator ← expect create; Done (bool_decide (creator = sender))
              end);
      Done (if is_creator : bool then 100 else 0)
  end.

(** The rules for events whose sender must be joined. *)
Definition check_joined_sender (room_version : RoomVersion) (incoming_event : Event)
    (room_create_event : Event) (power_levels_event : option Event) (sender_member_event : Event)
    : outcome Error bool :=
  fields ← ok_or SerdeJson (de_RoomMemberContentFields (content sender_member_event));
  raw ← expect (membership fields);
  membership_state ← ok_or SerdeJson raw;
  if decide (membership_state <> Join) then Done false else
  sender_power_level ←
    sender_power_level room_version (sender incoming_event) power_levels_event room_create_event;
  if decide (event_type incoming_event = RoomThirdPartyInvite) then
    invite_level ← match power_levels_event with
                   | Some power_levels =>
                       deserialize_power_levels_content_invite (content power_levels) room_version
                   | None => Done 0
                   end;
    Done (negb (sender_power_level <? invite_level))
  else if negb (can_send_event incoming_event power_levels_event sender_power_level)
  then Done false
  else if bool_decide (event_type incoming_event = RoomPowerLevels)
          && negb (default false (check_power_levels room_version incoming_event
                                    power_levels_event sender_power_level))
  then Done false
  else if extra_redaction_checks room_version
          && bool_decide (event_type incoming_event = RoomRedaction) then
    redact_level ← match power_levels_event with
                   | Some pl => deserialize_power_levels_content_redact (content pl) room_version
                   | None => Done 50
                   end;
    check_redaction incoming_event sender_power_level redact_level
  else Done true.

Definition auth_check (room_version : RoomVersion) (incoming_event : Event)
    (current_third_party_invite : option Event)
    (fetch_state : EventType -> string -> option Event) : outcome Error bool :=
  let sender := Matrix.sender incoming_event in
  if decide (event_type incoming_event = RoomCreate)
  then check_room_create room_version incoming_event
  else
    let power_levels_event := fetch_state RoomPowerLevels "" in
    let sender_member_event := fetch_state RoomMember sender in
    match fetch_state RoomCreate "" with
    | None => Done false
    | Some room_create_event =>
        if decide (event_id room_create_event ∉ auth_events incoming_event) then Done false else
        federate ← ok_or SerdeJson (de_RoomCreateContentFederate (content room_create_event));
        if negb federate
           && bool_decide (user_server_name (Matrix.sender room_create_event)
                           <> user_server_name sender) then Done false
        else if special_case_aliases_auth room_version
                && bool_decide (event_type incoming_event = RoomAliases)
        then Done (bool_decide (state_key incoming_event = Some (user_server_name sender)))
        else if decide (event_type incoming_event = RoomMember)
        then check_room_member room_version incoming_event current_third_party_invite fetch_state
               room_create_event power_levels_event sender_member_event
        else match sender_member_event with
             | None => Done false
             | Some sender_member_event =>
                 check_joined_sender room_version incoming_event room_create_event
                   power_levels_event sender_member_event
             end
    end.

End event_auth.

(** ** Inversion of accepted events *)

(** Takes a hypothesis [code = Done b] apart along the code's binds, matches
    and conditions; branches that return something else are closed. *)
Ltac done_inv H :=
  repeat first
    [ discriminate H
    | bind_inv H
    | match type of H with
      | ok_or _ _ = Done _ => apply ok_or_Done in H
      | Done _ = Done _ => injection H as H
      | (if decide ?P then _ else _) = _ => destruct (decide P)
      | (if ?b then _ else _) = _ => let E := fresh "Hc" in destruct b eqn:E
      | match ?o with _ => _ end = _ => let E := fresh "Hm" in destruct o eqn:E
      end ].

Section facts.
Context `{Ruma}.
Implicit Types (rv : RoomVersion) (ev : Event) (fs : EventType -> string -> option Event).

(** *** Power level changes *)

Definition within (lvl : Z) (o : option Z) : Prop :=
  match o with Some l => l <= lvl | None => True end.

(** What a sender of level [lvl] may change: users, events, the [@room]
    notification level and the named levels. *)
Definition users_change_ok (by_user : string) (lvl : Z) (old new : RoomPowerLevelsEventContent) :=
  forall u, users old !! u <> users new !! u ->
    within lvl (users old !! u) /\ within lvl (users new !! u) /\
    (u <> by_user -> users old !! u <> Some lvl).
Definition events_change_ok (lvl : Z) (old new : RoomPowerLevelsEventContent) :=
  forall t, events old !! t <> events new !! t ->
    within lvl (events old !! t) /\ within lvl (events new !! t).
Definition notifications_change_ok rv (lvl : Z) (old new : RoomPowerLevelsEventContent) :=
  limit_notifications_power_levels rv = true -> notifications_room old <> notifications_room new ->
  notifications_room old <= lvl /\ notifications_room new <= lvl.
Definition written_levels_ok (lvl : Z) (old new : RoomPowerLevelsEventContent) :=
  forall name, name ∈ level_names ->
    forall o n, power_levels_value old name = Some o -> power_levels_value new name = Some n ->
    o <= lvl /\ n <= lvl.

(** The named levels that are not the default ones in either content. *)
Definition named_levels_ok (lvl : Z) (old new : RoomPowerLevelsEventContent) :=
  forall name o n, name ∈ level_names -> named_level old name = Some o -> named_level new name = Some n ->
    named_level power_levels_default name <> Some o -> named_level power_levels_default name <> Some n ->
    o <= lvl /\ n <= lvl.

Lemma written_named lvl old new : written_levels_ok lvl old new -> named_levels_ok lvl old new.
Proof. intros Hw name o n Hn Ho Hn' Do Dn. eapply Hw; [done|by apply power_levels_written..]. Qed.

Lemma opt_gt_within lvl o : opt_gt o (Some lvl) = false <-> within lvl o.
Proof. destruct o; simpl; [rewrite Z.ltb_ge; lia|done]. Qed.

Lemma too_big_ok lvl a b :
  negb (opt_gt a (Some lvl) || opt_gt b (Some lvl)) = true <-> within lvl a /\ within lvl b.
Proof. by rewrite negb_true_iff, orb_false_iff, !opt_gt_within. Qed.

Lemma user_level_ok_spec by_user lvl old new u :
  (is_Some (users old !! u) \/ is_Some (users new !! u)) ->
  user_level_ok by_user lvl old new u = true <->
  (users old !! u <> users new !! u ->
    within lvl (users old !! u) /\ within lvl (users new !! u) /\
    (u <> by_user -> users old !! u <> Some lvl)).
Proof.
  intros Hs. unfold user_level_ok. destruct (decide _) as [D|D]; [naive_solver|].
  assert (users old !! u <> users new !! u).
  { intros E. apply D. rewrite E in *. naive_solver. }
  case_decide as D2; [split; naive_solver|]. rewrite too_big_ok.
  split; [|naive_solver]. intros [??] _. split_and!; [done..|]. intros ??. by apply D2.
Qed.

Lemma event_level_ok_spec lvl old new t :
  (is_Some (events old !! t) \/ is_Some (events new !! t)) ->
  event_level_ok lvl old new t = true <->
  (events old !! t <> events new !! t ->
    within lvl (events old !! t) /\ within lvl (events new !! t)).
Proof.
  intros Hs. unfold event_level_ok. destruct (decide _) as [D|D]; [naive_solver|].
  assert (events old !! t <> events new !! t).
  { intros E. apply D. rewrite E in *. naive_solver. }
  rewrite too_big_ok. naive_solver.
Qed.

(** A [for] loop over the keys of two maps checks every key that differs. *)
Lemma forallb_dom_union {K V} `{Countable K} (f : K -> bool) (m1 m2 : gmap K V)
    (P : K -> Prop) :
  (forall k, is_Some (m1 !! k) \/ is_Some (m2 !! k) -> f k = true <-> P k) ->
  (forall k, m1 !! k = m2 !! k -> P k) ->
  forallb f (elements (dom m1 ∪ dom m2)) = true <-> forall k, P k.
Proof.
  intros Hf Hsame. rewrite forallb_forall. setoid_rewrite <- list_elem_of_In.
  setoid_rewrite elem_of_elements. setoid_rewrite elem_of_union. setoid_rewrite elem_of_dom.
  split; [|intros HP k Hk; by apply Hf].
  intros HP k. destruct (m1 !! k) eqn:E1; [apply Hf; [|apply HP]; left; rewrite E1; eauto|].
  destruct (m2 !! k) eqn:E2; [apply Hf; [|apply HP]; right; rewrite E2; eauto|].
  apply Hsame. congruence.
Qed.

Lemma check_power_levels_spec rv ev prev lvl :
  check_power_levels rv ev (Some prev) lvl = Some true <->
  state_key ev = Some "" /\
  exists old new, deserialize_power_levels (content prev) rv = Some old /\
    deserialize_power_levels (content ev) rv = Some new /\
    users_change_ok (sender ev) lvl old new /\ events_change_ok lvl old new /\
    notifications_change_ok rv lvl old new /\ written_levels_ok lvl old new.
Proof.
  unfold check_power_levels. case_decide as D; [|naive_solver].
  destruct (deserialize_power_levels (content ev) rv) as [new|]; [|naive_solver].
  destruct (deserialize_power_levels (content prev) rv) as [old|]; [|naive_solver].
  cbn [mbind option_bind].
  transitivity (((users_change_ok (sender ev) lvl old new /\ events_change_ok lvl old new) /\
    notifications_change_ok rv lvl old new) /\ written_levels_ok lvl old new); [|naive_solver].
  rewrite (inj_iff Some), !andb_true_iff. f_equiv; [f_equiv; [f_equiv|]|].
  - apply forallb_dom_union; [apply user_level_ok_spec|done].
  - apply forallb_dom_union; [apply event_level_ok_spec|done].
  - unfold notifications_ok, notifications_change_ok.
    destruct (limit_notifications_power_levels rv); [|naive_solver].
    case_decide; [|naive_solver]. rewrite negb_true_iff, orb_false_iff, !Z.gtb_ltb, !Z.ltb_ge.
    naive_solver.
  - unfold written_levels_ok. rewrite forallb_forall. setoid_rewrite <- list_elem_of_In.
    apply forall_proper; intros name. apply imp_iff_compat_l.
    unfold named_level_ok, get_deserialize_levels.
    destruct (power_levels_value old name), (power_levels_value new name); cbn;
      [|by split; [intros _ ????; congruence|]..].
    rewrite negb_true_iff, orb_false_iff, !Z.gtb_ltb, !Z.ltb_ge.
    split; [by intros ? ?? [= <-] [= <-]|eauto].
Qed.

(** *** What an accepted event implies *)

Lemma auth_check_create rv ev tpi fs :
  auth_check rv ev tpi fs = Done true -> event_type ev <> RoomCreate ->
  exists create federate, fs RoomCreate "" = Some create /\
    event_id create ∈ auth_events ev /\
    de_RoomCreateContentFederate (content create) = Some federate /\
    (federate = true \/ user_server_name (sender create) = user_server_name (sender ev)).
Proof.
  intros Ha Ht. unfold auth_check in Ha. rewrite decide_False in Ha by done.
  destruct (fs RoomCreate "") as [create|]; [|done].
  case_decide as D; [done|]. bind_inv Ha. apply ok_or_Done in Ha0.
  exists create, a. split_and!; [done|by destruct (decide (event_id create ∈ auth_events ev))|done|].
  destruct a; [by left|right]. cbn in Ha. case_bool_decide as E; [done|].
  by destruct (decide (user_server_name (sender create) = user_server_name (sender ev))).
Qed.

(** The event is not authorized by the create, aliases or member rules. *)
Definition ordinary rv ev : Prop :=
  event_type ev <> RoomCreate /\ event_type ev <> RoomMember /\
  ~ (special_case_aliases_auth rv = true /\ event_type ev = RoomAliases).

Lemma auth_check_ordinary rv ev tpi fs :
  ordinary rv ev -> auth_check rv ev tpi fs = Done true ->
  exists create mem, fs RoomCreate "" = Some create /\ fs RoomMember (sender ev) = Some mem /\
    check_joined_sender rv ev create (fs RoomPowerLevels "") mem = Done true.
Proof.
  intros (Hc & Hm & Ha) H0. unfold auth_check in H0. rewrite decide_False in H0 by done.
  destruct (fs RoomCreate "") as [create|]; [|done]. case_decide; [done|]. bind_inv H0.
  destruct (_ && _); [done|].
  destruct (special_case_aliases_auth rv && _) eqn:E.
  { apply andb_true_iff in E as [? ?%bool_decide_eq_true]. naive_solver. }
  rewrite decide_False in H0 by done.
  destruct (fs RoomMember (sender ev)) as [mem|]; [|done]. eauto.
Qed.

Lemma can_send_event_true ev pl lvl :
  can_send_event ev pl lvl = true ->
  get_send_level (event_type ev) (state_key ev) pl <= lvl /\
  (forall k, state_key ev = Some k -> starts_with_at k = true -> k = sender ev).
Proof.
  unfold can_send_event. destruct (Z.ltb_spec lvl (get_send_level (event_type ev) (state_key ev) pl));
    [done|]. intros E. split; [done|]. intros k Hk Hat. rewrite Hk, Hat in E.
  cbn in E. case_bool_decide as D; [done|]. congruence.
Qed.

Lemma check_joined_sender_true rv ev create pl mem :
  check_joined_sender rv ev create pl mem = Done true ->
  exists fields lvl,
    de_RoomMemberContentFields (content mem) = Some fields /\
    membership fields = Some (Some Join) /\
    sender_power_level rv (sender ev) pl create = Done lvl /\
    (event_type ev <> RoomThirdPartyInvite -> can_send_event ev pl lvl = true) /\
    (event_type ev = RoomPowerLevels -> check_power_levels rv ev pl lvl = Some true).
Proof.
  unfold check_joined_sender. intros Hd.
  bind_inv Hd. apply ok_or_Done in Hd0. bind_inv Hd.
  destruct (membership a) as [raw|] eqn:Em; [|done]. injection Hd1 as ->.
  bind_inv Hd. apply ok_or_Done in Hd1. case_decide as D; [done|].
  bind_inv Hd. exists a, a2. split_and!; [done|..].
  - rewrite Em, Hd1. do 2 f_equal. by destruct (decide (a1 = Join)).
  - done.
  - intros Ht. rewrite decide_False in Hd by done.
    by destruct (can_send_event ev pl a2).
  - intros Ht. rewrite decide_False, Ht in Hd by congruence.
    rewrite bool_decide_eq_true_2 in Hd by done.
    destruct (can_send_event ev pl a2); [|done]. cbn in Hd.
    by destruct (check_power_levels rv ev pl a2) as [[]|].
Qed.

(** The membership of the user who vouches for a join. *)
Definition voucher_membership fs (fields : RoomMemberContentFields) : MembershipState :=
  default Leave (mem ← mjoin (join_authorised_via_users_server fields) ≫= fs RoomMember; de_GetMembership (content mem)).

(** A member event that is accepted passed [valid_membership_change]. *)
Lemma auth_check_member rv ev tpi fs :
  event_type ev = RoomMember -> auth_check rv ev tpi fs = Done true ->
  exists create target fields, fs RoomCreate "" = Some create /\ state_key ev = Some target /\
    de_RoomMemberContentFields (content ev) = Some fields /\
    valid_membership_change rv target (fs RoomMember target) (sender ev)
      (fs RoomMember (sender ev)) ev tpi (fs RoomPowerLevels "") (fs RoomJoinRules "")
      (mjoin (join_authorised_via_users_server fields)) (voucher_membership fs fields) create = Done true.
Proof.
  intros Ht H0. unfold auth_check in H0. rewrite decide_False in H0 by by rewrite Ht.
  destruct (fs RoomCreate "") as [create|]; [|done]. case_decide; [done|]. bind_inv H0.
  destruct (_ && _); [done|].
  destruct (special_case_aliases_auth rv && _) eqn:E.
  { apply andb_true_iff in E as [? ?%bool_decide_eq_true]. congruence. }
  rewrite decide_True in H0 by done. unfold check_room_member in H0.
  destruct (state_key ev) as [target|]; [|done]. bind_inv H0.
  destruct (mjoin (membership a0)); [|done].
  destruct (valid_user_id target); [|done]. cbn [mbind outcome_bind] in H0. apply ok_or_Done in H3.
  exists create, target, a0. split_and!; [done..|]. exact H0.
Qed.

(** *** Membership changes that are accepted *)

(** What the code reads of the state, before it looks at the membership. *)
Record change_context ev (tm sm pl : option Event)
    (tgt sm' tm' : MembershipState) (levels : RoomPowerLevelsEventContent) : Prop := {
  ctx_target : de_GetMembership (content ev) = Some tgt;
  ctx_sender_current : current_membership sm = Done sm';
  ctx_target_current : current_membership tm = Done tm';
  ctx_levels : match pl with
               | Some e => de_RoomPowerLevels (content e) = Some levels
               | None => levels = power_levels_default end }.

(** The power the code gives the sender of a membership change. *)
Definition change_power (levels : RoomPowerLevelsEventContent) (joined : bool) (u : string) : option Z :=
  match users levels !! u with
  | Some p => Some p
  | None => if joined then Some (users_default levels) else None
  end.

Lemma valid_change_inv rv target tm sdr sm ev tpi pl jr ja jm create :
  valid_membership_change rv target tm sdr sm ev tpi pl jr ja jm create = Done true ->
  exists tgt sm' tm' levels rule auth_ok,
    change_context ev tm sm pl tgt sm' tm' levels /\
    match jr with Some e => de_RoomJoinRules (content e) = Some rule | None => rule = RuleInvite end /\
    join_auth_valid rv pl ja jm = Done auth_ok /\
    let joined := bool_decide (sm' = Join) in
    let sp := change_power levels joined sdr in
    let tp := change_power levels (bool_decide (tgt = Join)) target in
    match tgt with
    | Join =>
        (prev_events ev = [event_id create] /\ is_creator_join rv target sdr create = Done true) \/
        join_allowed rv target sdr tm' rule auth_ok = true
    | Invite => exists tp_inv, invite_allowed target sdr tp_inv tpi tm' joined sp levels = true
    | Leave => leave_allowed target sdr tm' joined sp tp levels = true
    | Ban => ban_allowed joined sp tp levels = true
    | Knock => allow_knocking rv = true /\ knock_allowed rv target sdr sm' rule = true
    | CustomMembership _ => False
    end.
Proof.
  unfold valid_membership_change. intros V.
  bind_inv V. apply ok_or_Done in V0. bind_inv V. bind_inv V. bind_inv V. bind_inv V.
  bind_inv V. bind_inv V. rename a into tgt, a1 into sm', a2 into tm', a3 into levels,
    a4 into rule, a5 into auth_ok.
  exists tgt, sm', tm', levels, rule, auth_ok. split_and!.
  { split; [done..|]. destruct pl; [by apply ok_or_Done in V4|]. by injection V4. }
  { destruct jr; [by apply ok_or_Done in V5|]. by injection V5. }
  { done. }
  cbv zeta. destruct tgt.
  - bind_inv V. case_decide as D; [|injection V7 as <-].
    + destruct a; [left; done|]. injection V as V. by right.
    + injection V as V. by right.
  - injection V as V. eauto.
  - injection V as V. exact V.
  - injection V as V. exact V.
  - destruct (allow_knocking rv); [|done]. injection V as V. done.
  - done.
Qed.

Lemma is_some_and_true p o : is_some_and p o = true <-> exists z, o = Some z /\ p z = true.
Proof. destruct o; simpl; naive_solver. Qed.

Lemma opt_lt_Some a z : opt_lt a (Some z) = true <-> forall l, a = Some l -> l < z.
Proof. destruct a; simpl; [rewrite Z.ltb_lt|]; naive_solver. Qed.

(** A member leaves another one (a kick or an unban). *)
Lemma kick_inv target sdr tm joined sp tp levels :
  leave_allowed target sdr tm joined sp tp levels = true -> sdr <> target ->
  exists p, sp = Some p /\ joined = true /\ kick levels <= p /\
    (tm = Ban -> ban levels <= p) /\ (forall l, tp = Some l -> l < p).
Proof.
  unfold leave_allowed. intros L Hne. rewrite decide_False in L by done.
  destruct (negb joined || _) eqn:E; [done|].
  apply orb_false_iff in E as [Ej%negb_false_iff Eb]. apply andb_true_iff in L as [L1 L2].
  apply is_some_and_true in L1 as (p & -> & Hk). exists p. split_and!; [done..|lia| |].
  - intros ->. rewrite bool_decide_eq_true_2 in Eb by done. by apply Z.ltb_ge in Eb.
  - by apply opt_lt_Some.
Qed.

Lemma ban_inv joined sp tp levels :
  ban_allowed joined sp tp levels = true ->
  exists p, sp = Some p /\ joined = true /\ ban levels <= p /\ (forall l, tp = Some l -> l < p).
Proof.
  unfold ban_allowed. destruct joined; [|done]. cbn.
  intros [(p & -> & Hb)%is_some_and_true L]%andb_true_iff.
  exists p. split_and!; [done..|lia|by apply opt_lt_Some].
Qed.

(** Who may join under a rule: anybody, if it is public; who is invited, or has
    joined already, under the other rules the room version knows; and, under the
    restricted ones, for whom somebody vouches. *)
Definition join_permitted rv (current : MembershipState) (rule : JoinRule) (vouched : Prop) : Prop :=
  rule = RulePublic \/
  ((rule = RuleInvite \/ allow_knocking rv = true /\ rule = RuleKnock) /\ (current = Join \/ current = Invite)) \/
  ((restricted_join_rules rv = true /\ rule = RuleRestricted \/
    knock_restricted_join_rule rv = true /\ rule = RuleKnockRestricted) /\
   (current = Join \/ current = Invite \/ vouched)).

Lemma join_allowed_inv rv target sdr tm rule ok :
  join_allowed rv target sdr tm rule ok = true ->
  sdr = target /\ tm <> Ban /\ join_permitted rv tm rule (ok = true).
Proof.
  unfold join_allowed, join_permitted. case_decide as D; [done|]. case_decide as D2; [done|].
  match goal with |- (if ?b then _ else _) = _ -> _ => destruct b eqn:E1 end.
  { rewrite andb_true_iff, !orb_true_iff, andb_true_iff, !bool_decide_eq_true in E1.
    intros _. destruct (decide (sdr = target)); naive_solver. }
  match goal with |- (if ?b then _ else _) = _ -> _ => destruct b eqn:E2 end;
    [rewrite orb_true_iff, !andb_true_iff, !bool_decide_eq_true in E2;
     destruct (decide (tm ∈ [Invite; Join])) as [D3|D3]|]; intros J;
    (split; [by destruct (decide (sdr = target))|split; [done|]]).
  - apply elem_of_cons in D3 as [|[]%list_elem_of_singleton]; naive_solver.
  - naive_solver.
  - apply bool_decide_eq_true in J. naive_solver.
Qed.

(** The creator of a room. *)
Definition room_creator rv (create : Event) : option string :=
  if use_room_create_sender rv then Some (sender create) else mjoin (de_RoomCreateEventContent (content create)).

Lemma is_creator_join_inv rv target sdr create :
  is_creator_join rv target sdr create = Done true -> sdr = target /\ room_creator rv create = Some target.
Proof.
  unfold is_creator_join, room_creator. destruct (use_room_create_sender rv); intros J.
  - injection J as [?%bool_decide_eq_true ?%bool_decide_eq_true]%andb_true_iff. split; congruence.
  - bind_inv J. apply ok_or_Done in J0 as ->. bind_inv J. apply ok_or_Done in J0 as ->. cbn.
    injection J as [?%bool_decide_eq_true ?%bool_decide_eq_true]%andb_true_iff. split; congruence.
Qed.

(** The join rule of a room, and whether the user whom a join names for it is
    joined and may invite. *)
Definition room_join_rule fs : option JoinRule :=
  match fs RoomJoinRules "" with Some e => de_RoomJoinRules (content e) | None => Some RuleInvite end.

Definition vouched_for rv ev fs : Prop :=
  exists fields u, de_RoomMemberContentFields (content ev) = Some fields /\
    mjoin (join_authorised_via_users_server fields) = Some u /\
    (fs RoomMember u ≫= fun mem => de_GetMembership (content mem)) = Some Join /\
    match fs RoomPowerLevels "" with
    | Some pl => exists levels level, deserialize_power_levels_content_fields (content pl) rv = Done levels /\
        deserialize_power_levels_content_invite (content pl) rv = Done level /\ level <= user_power levels u
    | None => True
    end.

Lemma voucher_valid rv ev fs fields :
  de_RoomMemberContentFields (content ev) = Some fields ->
  join_auth_valid rv (fs RoomPowerLevels "") (mjoin (join_authorised_via_users_server fields))
    (voucher_membership fs fields) = Done true -> vouched_for rv ev fs.
Proof.
  intros Hf. unfold join_auth_valid, voucher_membership, vouched_for. intros J.
  destruct (mjoin (join_authorised_via_users_server fields)) as [u|] eqn:Eu; [|done].
  bind_inv J. destruct a as [p level]. injection J as [Hj%bool_decide_eq_true Hl%Z.leb_le]%andb_true_iff.
  exists fields, u. cbn in Hj |- *. split_and!; [done..| |].
  - destruct (fs RoomMember u) as [mem|]; [|done]. cbn in *. destruct (de_GetMembership (content mem)); cbn in *; congruence.
  - destruct (fs RoomPowerLevels "") as [pl|]; [|done]. bind_inv J0. bind_inv J0. injection J0 as <- <-. eauto.
Qed.

(** *** Absence of panics *)

(** The state the event is checked against consists of events that passed the
    checks themselves: the sender's member event has a membership field, and
    the create event of a room version before 11 names its creator. *)
Definition state_ok rv ev fs : Prop :=
  (forall mem f, fs RoomMember (sender ev) = Some mem ->
     de_RoomMemberContentFields (content mem) = Some f -> membership f <> None) /\
  (use_room_create_sender rv = false -> forall c, fs RoomCreate "" = Some c ->
     de_RoomCreateEventContent (content c) <> Some None).

Definition total {A} (o : outcome Error A) : Prop :=
  outcome_spec o (fun _ => True) (fun _ => True).

Lemma total_bind {A B} (m : outcome Error A) (f : A -> outcome Error B) :
  total m -> (forall a, m = Done a -> total (f a)) -> total (m ≫= f).
Proof. destruct m; cbn; auto. Qed.

Lemma total_ok_or {A} (e : Error) (o : option A) : total (ok_or e o).
Proof. by destruct o. Qed.

End facts.

(** Proves that code built from binds and matches does not panic. *)
Ltac total_tac :=
  repeat first
    [ exact I | assumption | apply total_ok_or
    | match goal with
      | |- total (_ ≫= _) => apply total_bind; [|intros ? ?]
      | |- total (Done _) => exact I
      | |- total (Fail _) => exact I
      | |- total (if decide ?P then _ else _) => destruct (decide P)
      | |- total (if ?b then _ else _) => destruct b
      | |- total (match ?o with _ => _ end) => destruct o
      end ].

Section totality.
Context `{Ruma}.

Lemma fields_total c rv : total (deserialize_power_levels_content_fields c rv).
Proof.
  unfold deserialize_power_levels_content_fields, deserialize_legacy_power_levels_content_fields,
    deserialize_integer_power_levels_content_fields. total_tac.
Qed.

Lemma invite_total c rv : total (deserialize_power_levels_content_invite c rv).
Proof. apply total_ok_or. Qed.

Lemma redact_total c rv : total (deserialize_power_levels_content_redact c rv).
Proof. apply total_ok_or. Qed.

#[local] Hint Resolve fields_total invite_total redact_total : core.

Lemma valid_change_total rv target tm sdr sm ev tpi pl jr ja jm create :
  total (valid_membership_change rv target tm sdr sm ev tpi pl jr ja jm create).
Proof.
  unfold valid_membership_change, current_membership, join_auth_valid, is_creator_join.
  total_tac; auto.
Qed.

Lemma sender_power_total rv sdr pl create :
  (use_room_create_sender rv = false -> de_RoomCreateEventContent (content create) <> Some None) ->
  total (sender_power_level rv sdr pl create).
Proof.
  intros Hc. unfold sender_power_level. destruct pl; [total_tac; auto|].
  destruct (use_room_create_sender rv); [total_tac|].
  destruct (de_RoomCreateEventContent (content create)) as [[c|]|]; [total_tac| |total_tac].
  by destruct Hc.
Qed.

Lemma auth_check_total rv ev tpi fs : state_ok rv ev fs -> total (auth_check rv ev tpi fs).
Proof.
  intros [Hm Hc]. unfold auth_check. case_decide.
  { unfold check_room_create. total_tac. }
  destruct (fs RoomCreate "") as [create|]; [|done]. case_decide; [done|].
  apply total_bind; [apply total_ok_or|intros federate _].
  destruct (_ && _); [done|]. destruct (_ && _); [done|]. case_decide.
  { unfold check_room_member. total_tac; apply valid_change_total. }
  destruct (fs RoomMember (sender ev)) as [mem|]; [|done]. unfold check_joined_sender.
  apply total_bind; [apply total_ok_or|intros f Hf%ok_or_Done].
  specialize (Hm mem f eq_refl Hf). destruct (membership f); [|done]. cbn.
  apply total_bind; [apply total_ok_or|intros ms _]. case_decide; [done|].
  apply total_bind; [apply sender_power_total; eauto|intros lvl _].
  unfold check_redaction. total_tac; auto.
Qed.

End totality.

(** ** Locality: which state the decision depends on *)

Section locality.
Context `{Ruma}.
Implicit Types (rv : RoomVersion) (ev : Event) (fs : EventType -> string -> option Event).

(** The decoders of a member event's content read the same fields: the two
    structs named [RoomMemberContentFields] and [GetMembership] take
    [membership] and [join_authorised_via_users_server] from one JSON object. *)
Definition member_decoders_agree : Prop :=
  forall c f, de_MemberAuthFields c = Some f ->
    de_GetMembership c = mjoin (auth_membership f) /\
    exists g, de_RoomMemberContentFields c = Some g /\
      membership g = auth_membership f /\
      join_authorised_via_users_server g = auth_join_authorised f.

(** The join rules of the state, when there are any, decode. *)
Definition rules_decode (jr : option Event) : Prop :=
  forall e, jr = Some e -> is_Some (de_RoomJoinRules (content e)).

Lemma elem_of_push_new l k x : x ∈ push_new l k <-> x ∈ l \/ x = k.
Proof. unfold push_new. case_decide; [naive_solver|]. rewrite elem_of_app. set_solver. Qed.

(** Rules and vouching user matter for join, invite and knock only. *)
Lemma valid_change_rules_irrelevant rv target tm sdr sm ev tpi pl jr1 jr2 ja jm1 jm2 create m :
  de_GetMembership (content ev) = Some m -> m ∉ [Join; Invite; Knock] ->
  rules_decode jr1 -> rules_decode jr2 ->
  valid_membership_change rv target tm sdr sm ev tpi pl jr1 ja jm1 create =
  valid_membership_change rv target tm sdr sm ev tpi pl jr2 ja jm2 create.
Proof.
  intros Hm Hni R1 R2. unfold valid_membership_change. rewrite Hm.
  cbn [ok_or mbind outcome_bind].
  destruct (ok_or SerdeJson (de_GetThirdPartyInvite _)); try done.
  destruct (current_membership sm); try done. destruct (current_membership tm); try done.
  cbn [mbind outcome_bind].
  destruct (match pl with Some ev0 => _ | None => _ end) as [levels| | |]; try done.
  cbn [mbind outcome_bind].
  assert (forall jr, rules_decode jr ->
    exists r, match jr with
              | Some e => ok_or SerdeJson (de_RoomJoinRules (content e))
              | None => Done RuleInvite end = Done r) as E.
  { intros [e|] R; [|eauto]. destruct (R e eq_refl) as [r ->]. eauto. }
  destruct (E jr1 R1) as [r1 ->], (E jr2 R2) as [r2 ->]. cbn [mbind outcome_bind].
  unfold join_auth_valid. destruct ja; [|destruct m; set_solver].
  destruct (match pl with Some pl => _ | None => _ end) as [[]| | |]; try done.
  cbn [mbind outcome_bind]. destruct m; set_solver.
Qed.

Lemma auth_types_base kind sdr sk c keys :
  auth_types_for_event kind sdr sk c = Done keys -> kind <> RoomCreate ->
  {[ (RoomPowerLevels, ""); (RoomMember, sdr); (RoomCreate, "") ]} ⊆ (list_to_set keys : gset TypeStateKey).
Proof.
  intros K Hk. unfold auth_types_for_event in K. rewrite decide_False in K by done.
  intros x Hx. apply elem_of_list_to_set.
  assert (x ∈ [(RoomPowerLevels, ""); (RoomMember, sdr); (RoomCreate, "")]) as Hb by set_solver.
  clear Hx. cbv zeta in K.
  set (base := [(RoomPowerLevels, ""); (RoomMember, sdr); (RoomCreate, "")]) in *. clearbody base.
  done_inv K; subst; repeat first
    [ done | apply elem_of_push_new; left
    | match goal with |- _ ∈ (if ?b then _ else _) => destruct b
                    | |- _ ∈ match ?o with _ => _ end => destruct o end ].
Qed.

(** The keys of a member event with membership [m]. *)
Lemma auth_types_member sdr sk c keys f m :
  auth_types_for_event RoomMember sdr (Some sk) c = Done keys ->
  de_MemberAuthFields c = Some f -> auth_membership f = Some (Some m) ->
  (RoomMember, sk) ∈ keys /\
  (m ∈ [Join; Invite; Knock] -> (RoomJoinRules, "") ∈ keys /\
     forall u, auth_join_authorised f = Some (Some u) -> (RoomMember, u) ∈ keys).
Proof.
  intros K Hf Hm. unfold auth_types_for_event in K.
  rewrite decide_False, decide_True, Hf in K by done.
  cbn [ok_or mbind outcome_bind] in K. rewrite Hm in K.
  destruct (decide (m ∈ [Join; Invite; Knock])) as [D|D]; injection K as <-.
  - split; [|intros _; split; [|intros u ->]];
      destruct (decide (m = Invite)), (auth_third_party_invite f) as [[]|],
               (auth_join_authorised f) as [[]|];
      rewrite ?elem_of_push_new; naive_solver.
  - split; [|done].
    destruct (decide (m = Invite)), (auth_third_party_invite f) as [[]|];
      rewrite ?elem_of_push_new; naive_solver.
Qed.

Lemma check_room_member_local rv ev tpi fs1 fs2 create pl sm keys :
  member_decoders_agree ->
  event_type ev = RoomMember ->
  auth_types_for_event RoomMember (sender ev) (state_key ev) (content ev) = Done keys ->
  (forall t k, (t, k) ∈ keys -> fs1 t k = fs2 t k) ->
  rules_decode (fs1 RoomJoinRules "") -> rules_decode (fs2 RoomJoinRules "") ->
  check_room_member rv ev tpi fs1 create pl sm = check_room_member rv ev tpi fs2 create pl sm.
Proof.
  intros Hd Ht K Heq R1 R2. unfold check_room_member.
  destruct (state_key ev) as [sk|] eqn:Esk; [|done].
  assert (exists f, de_MemberAuthFields (content ev) = Some f) as [f Hf].
  { unfold auth_types_for_event in K. rewrite decide_False, decide_True in K by done.
    bind_inv K. apply ok_or_Done in K0. eauto. }
  destruct (Hd _ _ Hf) as (Hget & g & Hg & Hmem & Hja). rewrite Hg. cbn [ok_or mbind outcome_bind].
  rewrite Hmem, Hja. destruct (auth_membership f) as [[m|]|] eqn:Em; [|done|done].
  cbn [mjoin option_join]. destruct (valid_user_id sk); [|done]. cbn [mbind outcome_bind].
  destruct (auth_types_member _ _ _ _ _ _ K Hf Em) as [Ksk Kj].
  rewrite (Heq RoomMember sk) by done.
  destruct (decide (m ∈ [Join; Invite; Knock])) as [D|D].
  - destruct (Kj D) as [Kr Ku]. rewrite (Heq RoomJoinRules "") by done.
    destruct (auth_join_authorised f) as [[u|]|]; [|done|done]. cbn [mjoin option_join mbind option_bind].
    by rewrite (Heq RoomMember u) by eauto.
  - by apply (valid_change_rules_irrelevant _ _ _ _ _ _ _ _ _ _ _ _ _ _ m).
Qed.

Lemma auth_check_local rv ev tpi fs1 fs2 keys :
  member_decoders_agree ->
  auth_types_for_event (event_type ev) (sender ev) (state_key ev) (content ev) = Done keys ->
  (forall t k, (t, k) ∈ keys -> fs1 t k = fs2 t k) ->
  rules_decode (fs1 RoomJoinRules "") -> rules_decode (fs2 RoomJoinRules "") ->
  auth_check rv ev tpi fs1 = auth_check rv ev tpi fs2.
Proof.
  intros Hd K Heq R1 R2. unfold auth_check. case_decide as Dc; [done|].
  pose proof (auth_types_base _ _ _ _ _ K Dc) as Kb.
  rewrite (Heq RoomCreate ""), (Heq RoomPowerLevels ""), (Heq RoomMember (sender ev)) by set_solver.
  destruct (fs2 RoomCreate "") as [create|]; [|done]. case_decide; [done|].
  destruct (ok_or _ _); [|done..]. cbn [mbind outcome_bind].
  destruct (_ && _); [done|]. destruct (_ && _); [done|]. case_decide as Dm; [|done].
  rewrite Dm in K. by eapply check_room_member_local.
Qed.

End locality.

(** ** Properties *)

Section properties.
Context `{Ruma}.
Implicit Types (rv : RoomVersion) (ev : Event) (fs : EventType -> string -> option Event).

(** C3. No privilege escalation: when [auth_check] accepts an
    [m.room.power_levels] event in a room that has power levels, the sender is
    joined, and with [lvl] the sender's level under the current levels: every
    user whose level is added, changed or removed had and gets at most [lvl],
    and other users who have exactly [lvl] keep it; every changed event-type level and the changed notification level were and
    are at most [lvl] (the latter in room versions that limit it), and so are the
    named levels that are not the default ones in either content. *)
Theorem power_levels_no_escalation rv ev tpi fs prev :
  event_type ev = RoomPowerLevels -> fs RoomPowerLevels "" = Some prev ->
  auth_check rv ev tpi fs = Done true ->
  exists create mem fields lvl old new,
    fs RoomCreate "" = Some create /\ fs RoomMember (sender ev) = Some mem /\
    de_RoomMemberContentFields (content mem) = Some fields /\
    membership fields = Some (Some Join) /\
    sender_power_level rv (sender ev) (Some prev) create = Done lvl /\
    deserialize_power_levels (content prev) rv = Some old /\
    deserialize_power_levels (content ev) rv = Some new /\
    users_change_ok (sender ev) lvl old new /\ events_change_ok lvl old new /\
    notifications_change_ok rv lvl old new /\ named_levels_ok lvl old new.
Proof.
  intros Ht Hp Ha.
  destruct (auth_check_ordinary rv ev tpi fs) as (create & mem & Hc & Hm & Hj); [|done|].
  { unfold ordinary. rewrite Ht. naive_solver. }
  rewrite Hp in Hj.
  destruct (check_joined_sender_true _ _ _ _ _ Hj) as (fields & lvl & Hf & Hjoin & Hl & _ & Hk).
  destruct (proj1 (check_power_levels_spec _ _ _ _) (Hk Ht)) as (_ & old & new & ?).
  exists create, mem, fields, lvl, old, new. pose proof (written_named lvl old new). naive_solver.
Qed.

(** C11. An event that is neither a create nor a member event (nor, in old room
    versions, an aliases event) is accepted only from a sender whose member
    event in the state is a join, with at least the level the power levels
    require for its type, and, when its state key starts with [@], only under
    the sender's own id. (A third-party invite needs the invite level instead
    and is excluded.) *)
Theorem auth_requires_joined_sender rv ev tpi fs :
  ordinary rv ev -> event_type ev <> RoomThirdPartyInvite ->
  auth_check rv ev tpi fs = Done true ->
  exists create mem fields lvl,
    fs RoomCreate "" = Some create /\ fs RoomMember (sender ev) = Some mem /\
    de_RoomMemberContentFields (content mem) = Some fields /\
    membership fields = Some (Some Join) /\
    sender_power_level rv (sender ev) (fs RoomPowerLevels "") create = Done lvl /\
    get_send_level (event_type ev) (state_key ev) (fs RoomPowerLevels "") <= lvl /\
    (forall k, state_key ev = Some k -> starts_with_at k = true -> k = sender ev).
Proof.
  intros Ho Ht Ha. destruct (auth_check_ordinary _ _ _ _ Ho Ha) as (create & mem & Hc & Hm & Hj).
  destruct (check_joined_sender_true _ _ _ _ _ Hj) as (fields & lvl & Hf & Hjoin & Hl & Hs & _).
  destruct (can_send_event_true _ _ _ (Hs Ht)). exists create, mem, fields, lvl. done.
Qed.

(** Every accepted event other than the create event has the room's create
    event in the state and among its own auth events, and comes from the
    create event's server when the room is not federated. *)
Theorem auth_requires_create rv ev tpi fs :
  event_type ev <> RoomCreate -> auth_check rv ev tpi fs = Done true ->
  exists create federate, fs RoomCreate "" = Some create /\
    event_id create ∈ auth_events ev /\
    de_RoomCreateContentFederate (content create) = Some federate /\
    (federate = true \/ user_server_name (sender create) = user_server_name (sender ev)).
Proof. intros Ht Ha. by apply (auth_check_create rv ev tpi fs). Qed.

(** C26. An accepted join is sent by the joining user.  It is the creator's join
    directly after the create event, or the user is not banned and the join rule of
    the room permits it: a public rule permits everybody, an invite rule (or a
    knock rule) who is invited or has joined already, a restricted rule (or a
    knock-restricted one) also whom the named user vouches for, who is joined and
    may invite. *)
Theorem join_rules_enforced rv ev tpi fs :
  event_type ev = RoomMember -> de_GetMembership (content ev) = Some Join ->
  auth_check rv ev tpi fs = Done true ->
  exists create, fs RoomCreate "" = Some create /\ state_key ev = Some (sender ev) /\
    ((prev_events ev = [event_id create] /\ room_creator rv create = Some (sender ev)) \/
     exists current rule,
       current_membership (fs RoomMember (sender ev)) = Done current /\ current <> Ban /\
       room_join_rule fs = Some rule /\ join_permitted rv current rule (vouched_for rv ev fs)).
Proof.
  intros Ht Hj Ha. destruct (auth_check_member _ _ _ _ Ht Ha) as (create & target & fields & Hc & Hk & Hf & V).
  destruct (valid_change_inv _ _ _ _ _ _ _ _ _ _ _ _ V)
    as (tgt & sm & tm & levels & rule & ok & C & Hr & Hv & R).
  rewrite (ctx_target _ _ _ _ _ _ _ _ C) in Hj. injection Hj as ->. cbv zeta in R.
  exists create. destruct R as [[Hp [Hs Hcr]%is_creator_join_inv]|(Hs & Hb & Hal)%join_allowed_inv]; subst target.
  - split_and!; [done..|]. by left.
  - split_and!; [done..|right]. exists tm, rule. split_and!; [apply C|done| |].
    + unfold room_join_rule. destruct (fs RoomJoinRules ""); [done|by f_equal].
    + unfold join_permitted in *. assert (ok = true -> vouched_for rv ev fs); [|naive_solver].
      intros ->. by eapply voucher_valid.
Qed.

(** A kick, an unban and a ban are accepted only from a joined sender whose
    power is at least the kick (unban: also the ban; ban: the ban) level, and
    exceeds the level the power levels list for the target. *)
Theorem kick_and_ban_need_power rv ev tpi fs m :
  event_type ev = RoomMember -> de_GetMembership (content ev) = Some m ->
  m = Leave \/ m = Ban -> state_key ev <> Some (sender ev) ->
  auth_check rv ev tpi fs = Done true ->
  exists target levels p current,
    state_key ev = Some target /\
    current_membership (fs RoomMember (sender ev)) = Done Join /\
    current_membership (fs RoomMember target) = Done current /\
    match fs RoomPowerLevels "" with
    | Some e => de_RoomPowerLevels (content e) = Some levels
    | None => levels = power_levels_default end /\
    change_power levels true (sender ev) = Some p /\
    (m = Leave -> kick levels <= p /\ (current = Ban -> ban levels <= p)) /\
    (m = Ban -> ban levels <= p) /\
    (forall l, users levels !! target = Some l -> l < p).
Proof.
  intros Ht Hj Hm Hne Ha.
  destruct (auth_check_member _ _ _ _ Ht Ha) as (create & target & fields & Hc & Hk & _ & V).
  destruct (valid_change_inv _ _ _ _ _ _ _ _ _ _ _ _ V)
    as (tgt & sm & tm & levels & rule & ok & C & _ & _ & R).
  rewrite (ctx_target _ _ _ _ _ _ _ _ C) in Hj. injection Hj as ->. cbv zeta in R.
  assert (sender ev <> target) by congruence.
  assert (forall p, change_power levels (bool_decide (m = Join)) target = Some p \/
                    users levels !! target <> Some p) as Htp.
  { intros p. unfold change_power. destruct (users levels !! target) as [q|]; [|by right].
    destruct (decide (p = q)) as [->|]; [by left|right; congruence]. }
  exists target, levels.
  destruct Hm as [-> | ->].
  - destruct (kick_inv _ _ _ _ _ _ _ R) as (p & Hp & Hjn%bool_decide_eq_true & Hk1 & Hk2 & Hk3); [done|].
    subst sm. exists p, tm. split_and!; [done|apply C..|done|done|done|].
    intros l Hl. destruct (Htp l); [auto|done].
  - destruct (ban_inv _ _ _ _ R) as (p & Hp & Hjn%bool_decide_eq_true & Hb & Hb2).
    subst sm. exists p, tm. split_and!; [done|apply C..|done|done|done|].
    intros l Hl. destruct (Htp l); [auto|done].
Qed.

(** [auth_check] returns a verdict or an error and never panics, whatever
    the event, when the state it is checked against was itself checked: the
    sender's member event has a membership field and, before room version 11,
    the create event names a creator. *)
Theorem auth_check_no_panic rv ev tpi fs :
  state_ok rv ev fs ->
  (exists b, auth_check rv ev tpi fs = Done b) \/ (exists e, auth_check rv ev tpi fs = Fail e).
Proof.
  intros Hs. pose proof (auth_check_total rv ev tpi fs Hs) as T.
  destruct (auth_check rv ev tpi fs); eauto; done.
Qed.

(** C27. The state keys [auth_types_for_event] returns are all that the verdict
    depends on: on two states that agree on these keys, and whose join rules
    decode, [auth_check] behaves the same (the same verdict, error or panic), provided
    that the decoders of the content of a member event agree on the fields they
    share.
    This is what lets callers check an event against its selected auth events
    instead of the whole room state. *)
Theorem auth_types_are_sufficient rv ev tpi fs1 fs2 keys :
  member_decoders_agree ->
  auth_types_for_event (event_type ev) (sender ev) (state_key ev) (content ev) = Done keys ->
  (forall t k, (t, k) ∈ keys -> fs1 t k = fs2 t k) ->
  rules_decode (fs1 RoomJoinRules "") -> rules_decode (fs2 RoomJoinRules "") ->
  auth_check rv ev tpi fs1 = auth_check rv ev tpi fs2.
Proof. apply auth_check_local. Qed.

(** [PowerLevelsContentFields::get_user_power], a binary search, finds
    exactly the listed users: on a user list sorted by id, as the decoder
    returns it, it agrees with looking the user up in the list as a map. *)
Theorem get_user_power_is_lookup fields u :
  users_sorted (fields_users fields) ->
  get_user_power fields u = (list_to_map (fields_users fields) : gmap string Z) !! u.
Proof. apply get_user_power_sorted. Qed.

End properties.

(** ** Witnesses: the small room of [ToyRuma] *)

Section witnesses.
#[local] Existing Instance toy_ruma.
Abbreviation room := (toy_fetch toy_state).

(** [@bob:a], of level 50, gives [@carol:a] level 50. *)
Definition ev_promote := toy_event "$promote" "@bob:a" 10 RoomPowerLevels "levels, carol 50"
  (Some "") ["$eve"] ["$create"; "$bob"; "$levels"].

Lemma power_levels_no_escalation_witness :
  exists lvl old new,
    sender_power_level V10 "@bob:a" (Some ev_levels) ev_create = Done lvl /\
    deserialize_power_levels "levels" V10 = Some old /\
    deserialize_power_levels "levels, carol 50" V10 = Some new /\
    users_change_ok "@bob:a" lvl old new.
Proof.
  destruct (power_levels_no_escalation V10 ev_promote None room ev_levels)
    as (create & mem & fields & lvl & old & new & Hc & Hm & Hf & Hj & Hl & Ho & Hn & Hu & _);
    [reflexivity | by vm_compute | by vm_compute |].
  vm_compute in Hc. injection Hc as <-. by exists lvl, old, new.
Defined.

(** [@carol:a] sends a message-like event, which needs level 0. *)
Definition ev_message := toy_event "$message" "@carol:a" 11 (OtherType "m.room.message") "hello"
  None ["$eve"] ["$create"; "$carol"; "$levels"].

Lemma auth_requires_joined_sender_witness :
  exists create, room RoomCreate "" = Some create.
Proof.
  destruct (auth_requires_joined_sender V10 ev_message None room)
    as (create & mem & fields & lvl & Hc & _);
    [unfold ordinary; naive_solver | discriminate | by vm_compute |].
  by exists create.
Defined.

Lemma auth_requires_create_witness :
  exists create, room RoomCreate "" = Some create /\ event_id create ∈ ["$create"; "$carol"; "$levels"].
Proof.
  destruct (auth_requires_create V10 ev_message None room) as (create & fed & Hc & Ha & _);
    [discriminate | by vm_compute |].
  by exists create.
Defined.

(** [@dave:b] joins the public room. *)
Definition ev_dave := toy_event "$dave" "@dave:b" 12 RoomMember "join" (Some "@dave:b")
  ["$eve"] ["$create"; "$rules"; "$levels"].

Lemma join_rules_enforced_witness :
  exists current rule, current <> Ban /\ room_join_rule room = Some rule /\
    join_permitted V10 current rule (vouched_for V10 ev_dave room).
Proof.
  destruct (join_rules_enforced V10 ev_dave None room) as (create & Hc & _ & [[Hp _]|(current & rule & _ & Hb & Hr & Hj)]);
    [reflexivity | by vm_compute | by vm_compute | |].
  - vm_compute in Hc. injection Hc as <-. discriminate Hp.
  - by exists current, rule.
Defined.

(** [@alice:a], of level 100, kicks [@bob:a], of level 50. *)
Definition ev_kick := toy_event "$kick" "@alice:a" 13 RoomMember "leave" (Some "@bob:a")
  ["$eve"] ["$create"; "$alice"; "$levels"; "$bob"].

Lemma kick_and_ban_need_power_witness :
  exists target levels p,
    state_key ev_kick = Some target /\ change_power levels true "@alice:a" = Some p.
Proof.
  destruct (kick_and_ban_need_power V10 ev_kick None room Leave)
    as (target & levels & p & current & Hk & _ & _ & _ & Hp & _);
    [reflexivity | by vm_compute | by left | discriminate | by vm_compute |].
  by exists target, levels, p.
Defined.

Lemma auth_check_no_panic_witness :
  (exists b, auth_check V9 ev_promote None room = Done b) \/
  (exists e, auth_check V9 ev_promote None room = Fail e).
Proof.
  apply (auth_check_no_panic V9 ev_promote None room). split.
  - intros mem f Hm Hf. vm_compute in Hm. injection Hm as <-. vm_compute in Hf.
    injection Hf as <-. discriminate.
  - intros _ c Hc. vm_compute in Hc. injection Hc as <-. vm_compute. discriminate.
Defined.

Lemma auth_types_are_sufficient_witness :
  auth_check V10 ev_kick None room =
  auth_check V10 ev_kick None (toy_fetch (take 5 toy_state)).
Proof.
  apply (auth_types_are_sufficient V10 ev_kick None room (toy_fetch (take 5 toy_state))
    [(RoomPowerLevels, ""); (RoomMember, "@alice:a"); (RoomCreate, ""); (RoomMember, "@bob:a")]).
  - intros c f [= <-]. cbn. split; [by destruct (toy_membership c)|].
    eexists; split; [done|]. done.
  - by vm_compute.
  - intros t k Hin. repeat (apply elem_of_cons in Hin as [[= -> ->]|Hin]; [by vm_compute|]).
    by apply elem_of_nil in Hin.
  - intros e He. vm_compute in He. injection He as <-. vm_compute. eauto.
  - intros e He. vm_compute in He. injection He as <-. vm_compute. eauto.
Defined.

Lemma get_user_power_is_lookup_witness :
  get_user_power (MkContentFields [("@alice:a", 100); ("@bob:a", 50)] 0) "@bob:a" = Some 50.
Proof.
  refine (eq_trans (get_user_power_is_lookup
    (MkContentFields [("@alice:a", 100); ("@bob:a", 50)] 0) "@bob:a" _) _); [|by vm_compute].
  repeat constructor.
Defined.

(** ** A power comparison that ignores the default level

    The room's levels put every user at 50 by default and list only [@bob:a],
    at 50. [@bob:a] kicks [@carol:a], whose level is 50 as well. *)

Definition room_50 := toy_fetch
  ((RoomPowerLevels, "", toy_event "$l50" "@alice:a" 2 RoomPowerLevels "everybody 50" (Some "")
      ["$alice"] ["$create"; "$alice"]) :: toy_state).
Definition ev_kick_equal := toy_event "$kick2" "@bob:a" 14 RoomMember "leave" (Some "@carol:a")
  ["$eve"] ["$create"; "$bob"; "$l50"; "$carol"].

(** The comparison of powers in a kick does not use the default level for
    the target: there is a room in which [auth_check] accepts a kick although
    the levels give sender and target the same power, the target through
    [users_default]. *)
Theorem kick_of_equal_power_accepted :
  exists rv ev fs levels target,
    event_type ev = RoomMember /\ de_GetMembership (content ev) = Some Leave /\
    state_key ev = Some target /\ target <> sender ev /\
    (exists pl, fs RoomPowerLevels "" = Some pl /\ de_RoomPowerLevels (content pl) = Some levels) /\
    change_power levels true target = change_power levels true (sender ev) /\
    auth_check rv ev None fs = Done true.
Proof.
  exists V10, ev_kick_equal, room_50, (toy_levels {[ "@bob:a" := 50 ]} 50), "@carol:a".
  split_and!; [reflexivity|by vm_compute|reflexivity|discriminate| |by vm_compute|by vm_compute].
  eexists; split; by vm_compute.
Qed.

End witnesses.
