(* ===== verification/Conflicts.v ===== *)
(** * Separating conflicted from unconflicted state

    Models [separate] and [get_auth_chain_diff] of
    [src/core/matrix/state_res/mod.rs], which count in how many of the state
    sets (auth chains) an entry occurs. *)

From stdpp Require Import prelude gmap strings list.
From Stdlib Require Import ZArith Lia.
From S2P Require Import Prelude.

Section counting.
Context {A : Type} `{Countable A}.

(** [*map.entry(a).or_default() += 1], and [and_modify(+1).or_insert(1)]. *)
Definition count_in (m : gmap A nat) (a : A) : gmap A nat :=
  <[a := S (default 0 (m !! a))]> m.

Definition occurrences_of (l : list A) (a : A) : nat := length (filter (fun x => x = a) l).

Lemma lookup_count_in l m a :
  default 0 (foldl count_in m l !! a) = default 0 (m !! a) + occurrences_of l a.
Proof.
  revert m. induction l as [|b l IH]; intros m; cbn [foldl].
  - unfold occurrences_of. cbn. lia.
  - rewrite IH. unfold count_in, occurrences_of. rewrite lookup_insert, filter_cons.
    repeat case_decide; simplify_eq; cbn; lia.
Qed.

Lemma is_Some_count_in l m a :
  is_Some (foldl count_in m l !! a) <-> is_Some (m !! a) \/ a ∈ l.
Proof.
  revert m. induction l as [|b l IH]; intros m; cbn [foldl].
  - set_solver.
  - rewrite IH, elem_of_cons. unfold count_in. rewrite lookup_insert.
    case_decide; naive_solver.
Qed.

Lemma occurrences_of_app l1 l2 a :
  occurrences_of (l1 ++ l2) a = occurrences_of l1 a + occurrences_of l2 a.
Proof. unfold occurrences_of. by rewrite filter_app, length_app. Qed.

Lemma occurrences_of_NoDup l a :
  NoDup l -> occurrences_of l a = if decide (a ∈ l) then 1 else 0.
Proof.
  induction 1 as [|b l Hb Hl IH]; [done|]. unfold occurrences_of in *. rewrite filter_cons.
  repeat case_decide; cbn; rewrite ?IH; repeat case_decide; set_solver.
Qed.

#[global] Instance occurrences_of_perm : Proper ((≡ₚ) ==> (=) ==> (=)) occurrences_of.
Proof. intros l1 l2 Hl ? a ->. unfold occurrences_of. by rewrite Hl. Qed.

(** Occurrences in a family of duplicate-free lists: the members that have it. *)
Lemma occurrences_of_concat {B} (f : B -> list A) (P : B -> Prop)
    `{!forall b, Decision (P b)} (bs : list B) a :
  (forall b, b ∈ bs -> NoDup (f b)) -> (forall b, a ∈ f b <-> P b) ->
  occurrences_of (mjoin (f <$> bs)) a = length (filter P bs).
Proof.
  intros Hnd HP. induction bs as [|b bs IH]; [done|]. change (mjoin (f <$> b :: bs)) with (f b ++ mjoin (f <$> bs)).
  rewrite occurrences_of_app, IH by (intros; apply Hnd; set_solver).
  rewrite occurrences_of_NoDup by (apply Hnd; set_solver). rewrite filter_cons.
  repeat case_decide; naive_solver.
Qed.

End counting.

(** All, respectively some, of the members satisfy [P]. *)
Lemma length_filter_all {B} (P : B -> Prop) `{!forall b, Decision (P b)} (l : list B) :
  length (filter P l) = length l <-> Forall P l.
Proof.
  induction l as [|b l IH]; [done|]. rewrite filter_cons, Forall_cons.
  case_decide; cbn.
  - rewrite <- IH. split; [intros [=]; done|intros [_ ->]; done].
  - pose proof (length_filter P l). split; [lia|naive_solver].
Qed.

Lemma length_filter_some {B} (P : B -> Prop) `{!forall b, Decision (P b)} (l : list B) :
  0 < length (filter P l) <-> Exists P l.
Proof.
  rewrite Exists_exists. destruct (filter P l) as [|b r] eqn:E; cbn; split.
  - lia.
  - intros (x & Hx & HP). assert (x ∈ filter P l) as Hf by by apply list_elem_of_filter.
    rewrite E in Hf. set_solver.
  - intros _. exists b. assert (b ∈ filter P l) as [? ?]%list_elem_of_filter
      by (rewrite E; set_solver). done.
  - lia.
Qed.

Lemma length_filter_not_all {B} (P : B -> Prop) `{!forall b, Decision (P b)} (l : list B) :
  length (filter P l) <> length l <-> Exists (fun b => ~ P b) l.
Proof.
  rewrite length_filter_all. split; [apply not_Forall_Exists; apply _|].
  apply Exists_not_Forall.
Qed.

(** ** [separate] *)

Section separate.
Context {K Id : Type} `{Countable K, Countable Id} {sched : Schedule}.

(** The first loop: how often each id occurs under each key. *)
Definition count_entry (occurrences : gmap K (gmap Id nat)) (e : K * Id) : gmap K (gmap Id nat) :=
  <[e.1 := count_in (default ∅ (occurrences !! e.1)) e.2]> occurrences.

Definition state_entries (state_sets : list (gmap K Id)) : list (K * Id) :=
  mjoin ((fun s => reorder "state set" (map_to_list s)) <$> state_sets).

(** The second loop, for one key: ids every set has, and the others. *)
Definition place_id (state_set_count : nat) (k : K)
    (st : gmap K Id * gmap K (list Id)) (e : Id * nat) : gmap K Id * gmap K (list Id) :=
  let '(unconflicted_state, conflicted_state) := st in
  let '(id, occurrence_count) := e in
  if decide (occurrence_count = state_set_count)
  then (<[k := id]> unconflicted_state, conflicted_state)
  else (unconflicted_state,
        <[k := default [] (conflicted_state !! k) ++ [id]]> conflicted_state).

Definition place_key (state_set_count : nat)
    (st : gmap K Id * gmap K (list Id)) (kv : K * gmap Id nat) : gmap K Id * gmap K (list Id) :=
  foldl (place_id state_set_count kv.1) st (reorder "ids" (map_to_list kv.2)).

Definition separate (state_sets : list (gmap K Id)) : gmap K Id * gmap K (list Id) :=
  let state_set_count := length state_sets in
  let occurrences := foldl count_entry ∅ (state_entries state_sets) in
  foldl (place_key state_set_count) (∅, ∅) (reorder "occurrences" (map_to_list occurrences)).

Definition occurrence (occ : gmap K (gmap Id nat)) (k : K) (id : Id) : option nat :=
  occ !! k ≫= fun m => m !! id.

Lemma occurrence_fold l occ k id :
  default 0 (occurrence (foldl count_entry occ l) k id) =
    default 0 (occurrence occ k id) + occurrences_of l (k, id).
Proof.
  revert occ. induction l as [|[k' id'] l IH]; intros occ; cbn [foldl].
  - unfold occurrences_of. cbn. lia.
  - rewrite IH. unfold occurrences_of. rewrite filter_cons.
    unfold occurrence, count_entry, count_in. cbn [fst snd]. rewrite lookup_insert.
    destruct (decide (k' = k)) as [->|Hk].
    + cbn. rewrite lookup_insert. destruct (decide (id' = id)) as [->|Hi].
      * rewrite decide_True by done. destruct (occ !! k); cbn; rewrite ?lookup_empty; cbn; lia.
      * rewrite decide_False by congruence.
        destruct (occ !! k); cbn; rewrite ?lookup_empty; cbn; lia.
    + rewrite decide_False by congruence. done.
Qed.

Lemma occurrence_positive l occ k id n :
  (forall n, occurrence occ k id = Some n -> 0 < n) ->
  occurrence (foldl count_entry occ l) k id = Some n -> 0 < n.
Proof.
  revert occ. induction l as [|[k' id'] l IH]; intros occ Hocc; cbn [foldl]; [apply Hocc|].
  apply IH. intros m. unfold occurrence, count_entry, count_in. cbn [fst snd].
  rewrite lookup_insert. case_decide as D; [subst|apply Hocc]. cbn.
  rewrite lookup_insert. case_decide; [intros [= <-]; lia|].
  unfold occurrence in Hocc. destruct (occ !! k) as [mk|] eqn:E; cbn in *; [apply Hocc|].
  by rewrite lookup_empty.
Qed.

Lemma occurrences_of_entries state_sets k id :
  occurrences_of (state_entries state_sets) (k, id) =
  length (filter (fun s : gmap K Id => s !! k = Some id) state_sets).
Proof.
  unfold state_entries.
  apply occurrences_of_concat.
  - intros s _. rewrite reorder_perm. apply NoDup_map_to_list.
  - intros s. rewrite elem_of_reorder. apply elem_of_map_to_list.
Qed.

(** The number of sets that map [k] to [id], when some does. *)
Lemma occurrence_count state_sets k id n :
  occurrence (foldl count_entry ∅ (state_entries state_sets)) k id = Some n <->
  n = length (filter (fun s : gmap K Id => s !! k = Some id) state_sets) /\ 0 < n.
Proof.
  pose proof (occurrence_fold (state_entries state_sets) ∅ k id) as F.
  rewrite occurrences_of_entries in F. unfold occurrence at 2 in F.
  rewrite lookup_empty in F. cbn in F. split.
  - intros E. rewrite E in F. cbn in F. split; [done|].
    eapply occurrence_positive; [|done]. unfold occurrence. by rewrite lookup_empty.
  - intros [-> Hn]. destruct (occurrence _ k id) as [m|] eqn:E; cbn in F; [by rewrite F|lia].
Qed.

(** *** The second loop *)

(** The ids placed so far, as a list of key, id and count. *)
Definition placed (n : nat) (l : list (K * Id * nat)) (st : gmap K Id * gmap K (list Id)) : Prop :=
  (forall k id, (k, id, n) ∈ l -> st.1 !! k = Some id \/ exists id', (k, id', n) ∈ l /\ id' <> id) /\
  (forall k id, st.1 !! k = Some id -> (k, id, n) ∈ l) /\
  (forall k id, id ∈ default [] (st.2 !! k) <-> exists c, c <> n /\ (k, id, c) ∈ l).

Lemma placed_snoc n l st k e :
  placed n l st -> placed n (l ++ [(k, e.1, e.2)]) (place_id n k st e).
Proof.
  destruct st as [u c], e as [id m]. intros (P1 & P2 & P3). cbn [fst snd] in *.
  unfold place_id. case_decide as D; cbn [fst snd].
  - subst m. split_and!.
    + intros k' id' Hin. cbn [fst]. rewrite lookup_insert. case_decide as E; [subst k'|].
      * destruct (decide (id = id')) as [->|]; [by left|right]. exists id. set_solver.
      * destruct (P1 k' id') as [?|(x & ? & ?)]; [set_solver|by left|right; exists x; set_solver].
    + intros k' id'. cbn [fst]. rewrite lookup_insert. case_decide; [intros [= <-]; set_solver|].
      intros ?%P2. set_solver.
    + intros k' id'. cbn [snd]. rewrite P3. set_solver.
  - split_and!.
    + intros k' id' Hin. cbn [fst]. destruct (P1 k' id') as [?|(x & ? & ?)];
        [set_solver|by left|right; exists x; set_solver].
    + intros k' id' ?%P2. set_solver.
    + intros k' id'. cbn [snd]. rewrite lookup_insert. case_decide; subst; cbn;
        rewrite ?elem_of_app, P3; set_solver.
Qed.

Lemma placed_fold_ids n k es l st :
  placed n l st ->
  placed n (l ++ ((fun e => (k, e.1, e.2)) <$> es)) (foldl (place_id n k) st es).
Proof.
  revert l st. induction es as [|e es IH]; intros l st P; cbn [foldl fmap list_fmap].
  - by rewrite app_nil_r.
  - replace (l ++ (k, e.1, e.2) :: ((fun e => (k, e.1, e.2)) <$> es))
      with ((l ++ [(k, e.1, e.2)]) ++ ((fun e => (k, e.1, e.2)) <$> es))
      by by rewrite <- app_assoc.
    by apply IH, placed_snoc.
Qed.

Definition place_all (n : nat) : list (K * gmap Id nat) -> gmap K Id * gmap K (list Id) :=
  foldl (place_key n) (∅, ∅).

Definition triples (kvs : list (K * gmap Id nat)) : list (K * Id * nat) :=
  mjoin ((fun kv => (fun e => (kv.1, e.1, e.2)) <$> reorder "ids" (map_to_list kv.2)) <$> kvs).

Lemma placed_fold_keys n kvs l st :
  placed n l st -> placed n (l ++ triples kvs) (foldl (place_key n) st kvs).
Proof.
  unfold triples. revert l st. induction kvs as [|kv kvs IH]; intros l st P; cbn.
  - by rewrite app_nil_r.
  - rewrite app_assoc. apply IH. by apply placed_fold_ids.
Qed.

Lemma elem_of_triples occ k id c :
  (k, id, c) ∈ triples (reorder "occurrences" (map_to_list occ)) <->
  occurrence occ k id = Some c.
Proof.
  unfold triples, occurrence. rewrite list_elem_of_join. split.
  - intros (t & Ht & ([k' m] & -> & Hk)%list_elem_of_fmap).
    apply list_elem_of_fmap in Ht as ([id' c'] & E & He). cbn in *. simplify_eq.
    rewrite elem_of_reorder, elem_of_map_to_list in Hk.
    rewrite elem_of_reorder, elem_of_map_to_list in He. by rewrite Hk.
  - destruct (occ !! k) as [m|] eqn:E; [cbn|done]. intros Hm.
    eexists. split; [|apply list_elem_of_fmap; exists (k, m); split; [done|]].
    + apply list_elem_of_fmap. exists (id, c). split; [done|].
      by rewrite elem_of_reorder, elem_of_map_to_list.
    + by rewrite elem_of_reorder, elem_of_map_to_list.
Qed.

(** What [separate] computes, in terms of the sets only. *)
Definition agreed (state_sets : list (gmap K Id)) (k : K) (id : Id) : Prop :=
  Forall (fun s : gmap K Id => s !! k = Some id) state_sets.
Definition disputed (state_sets : list (gmap K Id)) (k : K) (id : Id) : Prop :=
  Exists (fun s : gmap K Id => s !! k = Some id) state_sets /\
  Exists (fun s : gmap K Id => s !! k <> Some id) state_sets.

Lemma agreed_unique state_sets k id id' :
  state_sets <> [] -> agreed state_sets k id -> agreed state_sets k id' -> id = id'.
Proof. destruct state_sets as [|s ?]; [done|]. intros _ [? _]%Forall_cons [? _]%Forall_cons. congruence. Qed.

Lemma separate_placed state_sets :
  exists l, placed (length state_sets) l (separate state_sets) /\
    forall k id c, (k, id, c) ∈ l <->
      c = length (filter (fun s : gmap K Id => s !! k = Some id) state_sets) /\ 0 < c.
Proof.
  eexists. split.
  - unfold separate. apply (placed_fold_keys _ _ []).
    split_and!; intros k id; cbn; rewrite ?lookup_empty; set_solver.
  - intros k id c. cbn [app]. by rewrite elem_of_triples, occurrence_count.
Qed.

Lemma separate_clean state_sets k id :
  state_sets <> [] -> (separate state_sets).1 !! k = Some id <-> agreed state_sets k id.
Proof.
  intros Hne. destruct (separate_placed state_sets) as (l & (P1 & P2 & _) & Hl).
  assert (forall id, (k, id, length state_sets) ∈ l <-> agreed state_sets k id) as Hk.
  { intros x. rewrite Hl. unfold agreed. rewrite <- length_filter_all.
    destruct state_sets; [done|]. cbn [length]. split; [naive_solver|]. intros ->. lia. }
  split; [intros ?%P2; by apply Hk|]. intros Ha. pose proof Ha as ?%Hk.
  destruct (P1 k id) as [?|(x & Hx%Hk & Hn)]; [done..|].
  destruct Hn. by eapply agreed_unique.
Qed.

Lemma separate_conflicted state_sets k id :
  id ∈ default [] ((separate state_sets).2 !! k) <-> disputed state_sets k id.
Proof.
  destruct (separate_placed state_sets) as (l & (_ & _ & P3) & Hl).
  rewrite P3. setoid_rewrite Hl. unfold disputed.
  rewrite <- length_filter_some, <- length_filter_not_all.
  split; [intros (c & Hc & -> & ?); done|intros [? ?]; eauto].
Qed.

(** The conflicted map lists at least one id for each of its keys. *)
Lemma separate_conflicted_nonempty state_sets k ids :
  (separate state_sets).2 !! k = Some ids -> ids <> [].
Proof.
  enough (forall kvs st, (forall k, st.2 !! k <> Some []) ->
    forall k, (foldl (place_key (length state_sets)) st kvs).2 !! k <> Some []) as G.
  { intros E ->. eapply G; [|exact E]. intros ?. cbn. by rewrite lookup_empty. }
  clear. intros kvs. induction kvs as [|kv kvs IH]; [done|]. intros st Hst. apply IH.
  unfold place_key. generalize (reorder "ids" (map_to_list kv.2)) as es.
  intros es. revert st Hst. induction es as [|[id c] es IHe]; [done|]. intros [u cs] Hst.
  apply IHe. unfold place_id. case_decide; [done|]. cbn [snd].
  intros k. rewrite lookup_insert. case_decide; [|apply Hst]. intros [= E].
  by destruct (default [] (cs !! kv.1)).
Qed.

End separate.

(** ** [get_auth_chain_diff] *)

Section auth_chain_diff.
Context {Id : Type} `{Countable Id} {sched : Schedule}.

Definition get_auth_chain_diff (auth_chain_sets : list (gset Id)) : list Id :=
  let num_sets := length auth_chain_sets in
  let id_counts :=
    foldl count_in ∅
      (mjoin ((fun s : gset Id => reorder "auth chain" (elements s)) <$> auth_chain_sets)) in
  (filter (fun e : Id * nat => e.2 < num_sets)
     (reorder "id counts" (map_to_list id_counts))).*1.

Lemma chain_occurrences (auth_chain_sets : list (gset Id)) id :
  occurrences_of
    (mjoin ((fun s : gset Id => reorder "auth chain" (elements s)) <$> auth_chain_sets)) id =
  length (filter (fun s : gset Id => id ∈ s) auth_chain_sets).
Proof.
  apply occurrences_of_concat.
  - intros s _. rewrite reorder_perm. apply NoDup_elements.
  - intros s. by rewrite elem_of_reorder, elem_of_elements.
Qed.

Lemma elem_of_get_auth_chain_diff auth_chain_sets id :
  id ∈ get_auth_chain_diff auth_chain_sets <->
  Exists (fun s => id ∈ s) auth_chain_sets /\ Exists (fun s => id ∉ s) auth_chain_sets.
Proof.
  unfold get_auth_chain_diff. set (l := mjoin _). set (m := foldl count_in ∅ l).
  pose proof (lookup_count_in l ∅ id) as C. fold m in C. rewrite lookup_empty in C. cbn in C.
  pose proof (is_Some_count_in l ∅ id) as S. fold m in S. rewrite lookup_empty in S.
  rewrite <- (length_filter_some (fun s : gset Id => id ∈ s)).
  rewrite <- (length_filter_not_all (fun s : gset Id => id ∈ s)).
  rewrite <- chain_occurrences. fold l. pose proof (chain_occurrences auth_chain_sets id) as O. fold l in O.
  pose proof (length_filter (fun s : gset Id => id ∈ s) auth_chain_sets) as L.
  rewrite list_elem_of_fmap. split.
  - intros ([x c] & -> & [Hc Hx]%list_elem_of_filter). cbn in *.
    rewrite elem_of_reorder, elem_of_map_to_list in Hx. rewrite Hx in C. cbn in C.
    assert (0 < c); [|lia]. subst c. destruct S as [[[]|Hin] _]; [by eexists|done|].
    unfold occurrences_of. rewrite length_filter_some, Exists_exists. eauto.
  - intros [Hp Hn]. assert (id ∈ l) as Hin.
    { unfold occurrences_of in Hp. rewrite length_filter_some, Exists_exists in Hp.
      naive_solver. }
    destruct S as [_ [c Hc]]; [by right|]. rewrite Hc in C. cbn in C.
    exists (id, c). split; [done|]. apply list_elem_of_filter.
    rewrite elem_of_reorder, elem_of_map_to_list. cbn. split; [lia|done].
Qed.

Lemma get_auth_chain_diff_NoDup auth_chain_sets : NoDup (get_auth_chain_diff auth_chain_sets).
Proof.
  apply NoDup_fmap_fst_filter. rewrite reorder_perm. apply NoDup_fst_map_to_list.
Qed.

End auth_chain_diff.

(** ** Claims *)

Section claims.
Context {K Id : Type} `{Countable K, Countable Id} {sched : Schedule}.

(** Separating the state sets is exact: an entry is unconflicted exactly
    when every set has it, an id is listed as conflicted under a key exactly
    when some set has it there and some set does not, and a key appears in the
    conflicted map only with at least one id. *)
Theorem separate_exact (state_sets : list (gmap K Id)) (k : K) :
  state_sets <> [] ->
  (forall id, (separate state_sets).1 !! k = Some id <->
     forall s, s ∈ state_sets -> s !! k = Some id) /\
  (forall id, id ∈ default [] ((separate state_sets).2 !! k) <->
     exists s1 s2, s1 ∈ state_sets /\ s2 ∈ state_sets /\ s1 !! k = Some id /\ s2 !! k <> Some id) /\
  (separate state_sets).2 !! k <> Some [].
Proof.
  intros Hne. split_and!.
  - intros id. rewrite separate_clean by done. apply Forall_forall.
  - intros id. rewrite separate_conflicted. unfold disputed. rewrite !Exists_exists.
    naive_solver.
  - intros E. by apply separate_conflicted_nonempty in E.
Qed.

(** The auth chain difference lists, without duplicates, exactly the ids
    that are in some of the auth chains and not in all of them, whatever the
    iteration orders of the hash maps. *)
Theorem auth_chain_diff_exact (auth_chain_sets : list (gset Id)) :
  NoDup (get_auth_chain_diff auth_chain_sets) /\
  forall id, id ∈ get_auth_chain_diff auth_chain_sets <->
    exists s1 s2, s1 ∈ auth_chain_sets /\ s2 ∈ auth_chain_sets /\ id ∈ s1 /\ id ∉ s2.
Proof.
  split; [apply get_auth_chain_diff_NoDup|]. intros id.
  rewrite elem_of_get_auth_chain_diff, !Exists_exists. naive_solver.
Qed.

End claims.

Lemma separate_exact_witness :
  let sets : list (gmap string string) :=
    [{[ "a" := "1"; "b" := "2" ]}; {[ "a" := "1"; "b" := "3" ]}] in
  (separate (sched := reversed) sets).1 !! "a" = Some "1" /\
  "2" ∈ default [] ((separate (sched := reversed) sets).2 !! "b").
Proof.
  cbv zeta. split.
  - apply (separate_exact (sched := reversed)
             [{[ "a" := "1"; "b" := "2" ]}; {[ "a" := "1"; "b" := "3" ]}] "a" ltac:(done)).
    intros s Hs. repeat (apply elem_of_cons in Hs as [->|Hs]; [reflexivity|]).
    by apply elem_of_nil in Hs.
  - apply (separate_exact (sched := reversed)
             [{[ "a" := "1"; "b" := "2" ]}; {[ "a" := "1"; "b" := "3" ]}] "b" ltac:(done)).
    eexists _, _. split; [by left|]. split; [right; by left|]. by vm_compute.
Defined.
