(* ===== verification/AuthGraph.v ===== *)
(** * The auth graph of the power events and its sort

    Models [add_event_and_auth_chain_to_graph], [is_power_event],
    [is_power_event_id], [is_type_and_key], [get_power_level_for_sender] and
    [reverse_topological_power_sort] of [src/core/matrix/state_res/mod.rs].
    The closure [fetch_event] is a parameter: an event id to the event, when
    the server has it. *)

From stdpp Require Import prelude gmap strings list well_founded relations.
From Stdlib Require Import ZArith Lia.
From S2P Require Import Prelude MachineInt TopoSort Matrix ToyRuma.

Section auth_graph.
Context `{Ruma} {sched : Schedule} (fetch_event : string -> option Event).

(** ** Predicates on events *)

Definition is_type_and_key (ev : Event) (ev_type : EventType) (sk : string) : bool :=
  bool_decide (event_type ev = ev_type) && bool_decide (state_key ev = Some sk).

Definition is_power_event (event : Event) : bool :=
  match event_type event with
  | RoomPowerLevels | RoomJoinRules | RoomCreate => bool_decide (state_key event = Some "")
  | RoomMember =>
      match de_RoomMemberEventContent (content event) with
      | Some m =>
          if decide (m ∈ [Leave; Ban]) then bool_decide (Some (sender event) <> state_key event)
          else false
      | None => false
      end
  | _ => false
  end.

Definition is_power_event_id (event_id : string) : bool :=
  match fetch_event event_id with
  | Some state => is_power_event state
  | None => false
  end.

(** [event.as_ref().map(Event::auth_events).into_iter().flatten()] *)
Definition auth_events_of (event : option Event) : list string :=
  match event with Some e => auth_events e | None => [] end.

(** ** The auth graph

    The stack [state] has its top at the head of the list. *)

Abbreviation graph_t := (gmap string (gset string)).

Definition push_auth (auth_diff : gset string) (eid : string)
    (st : list string * graph_t) (aid : string) : outcome Error (list string * graph_t) :=
  let '(state, graph) := st in
  if decide (aid ∈ auth_diff) then
    let state := if decide (aid ∉ dom graph) then aid :: state else state in
    out ← expect (graph !! eid);
    Done (state, <[eid := {[aid]} ∪ out]> graph)
  else Done (state, graph).

Fixpoint graph_loop (auth_diff : gset string) (fuel : nat) (state : list string) (graph : graph_t)
    : outcome Error graph_t :=
  match state with
  | [] => Done graph
  | eid :: state =>
      match fuel with
      | O => OutOfFuel
      | S fuel =>
          let graph := or_default eid graph in
          let event := fetch_event eid in
          '(state, graph) ← try_fold (push_auth auth_diff eid) (state, graph)
                                     (auth_events_of event);
          graph_loop auth_diff fuel state graph
      end
  end.

(** The fuel: the ids that can be pushed, and how many each of them pushes. *)
Definition chain_ids (auth_diff : gset string) (event_id : string) : gset string :=
  {[event_id]} ∪ auth_diff.
Definition max_auth (ids : gset string) : nat :=
  max_list ((fun id => length (auth_events_of (fetch_event id))) <$> elements ids).
Definition chain_fuel (auth_diff : gset string) (event_id : string) : nat :=
  let ids := chain_ids auth_diff event_id in
  2 * max_auth ids * size ids + max_auth ids + 1.

Definition add_event_and_auth_chain_to_graph (auth_diff : gset string) (graph : graph_t)
    (event_id : string) : outcome Error graph_t :=
  graph_loop auth_diff (chain_fuel auth_diff event_id) [event_id] graph.

(** ** Power level of an event's sender *)

Definition get_power_level_for_sender (parallel_fetches : nat) (event_id : string)
    : outcome Error Z :=
  let event := fetch_event event_id in
  let fetched :=
    omap id (buffer_unordered "sender auth events" (parallel_fetches `min` 5)
               (fetch_event <$> auth_events_of event)) in
  match list_find (fun aev => is_type_and_key aev RoomPowerLevels "" = true) fetched with
  | None => Done 0%Z
  | Some (_, ev) =>
      content ← ok_or SerdeJson (de_PowerLevelsContentFields (content ev));
      match event ≫= fun ev => get_user_power content (sender ev) with
      | Some user_level => Done user_level
      | None => Done (fields_users_default content)
      end
  end.

(** ** The sort of the power events *)

Definition level_entry (parallel_fetches : nat) (event_to_pl : gmap string Z) (event_id : string)
    : outcome Error (gmap string Z) :=
  pl ← get_power_level_for_sender parallel_fetches event_id;
  Done (<[event_id := pl]> event_to_pl).

Definition power_fetcher (event_to_pl : gmap string Z) (event_id : string) : Error + (Z * Z) :=
  match event_to_pl !! event_id with
  | None => inl (NotFound "")
  | Some pl =>
      match fetch_event event_id with
      | None => inl (NotFound "")
      | Some ev => inr (pl, Matrix.origin_server_ts ev)
      end
  end.

Definition reverse_topological_power_sort (events_to_sort : list string) (auth_diff : gset string)
    (parallel_fetches : nat) : outcome Error (list string) :=
  graph ← try_fold (add_event_and_auth_chain_to_graph auth_diff) ∅ events_to_sort;
  event_to_pl ←
    try_fold (level_entry parallel_fetches) ∅
      (buffer_unordered "graph keys" parallel_fetches
         (reorder "graph keys" (map_to_list graph).*1));
  lexicographical_topological_sort (power_fetcher event_to_pl) graph.

End auth_graph.

(** ** The graph is the part of the auth DAG below the power events *)

Section graph_facts.
Context `{Ruma} (fetch_event : string -> option Event) (auth_diff : gset string).
Implicit Types (n m : string) (graph : gmap string (gset string)).

Abbreviation aevents := (fun n => auth_events_of (fetch_event n)).

(** An auth event that is in the full conflicted set. *)
Definition auth_edge n m : Prop := m ∈ aevents n /\ m ∈ auth_diff.

Definition auth_out n : gset string := list_to_set (filter (fun a => a ∈ auth_diff) (aevents n)).

Definition below (roots : list string) n : Prop := exists r, r ∈ roots /\ rtc auth_edge r n.

(** The nodes are the ids reachable from [roots] and the edges are exact. *)
Definition graph_exact (roots : list string) graph : Prop :=
  forall n es, graph !! n = Some es <-> below roots n /\ es = auth_out n.

Lemma elem_of_auth_out n m : m ∈ auth_out n <-> auth_edge n m.
Proof.
  unfold auth_out, auth_edge. rewrite elem_of_list_to_set, list_elem_of_filter. naive_solver.
Qed.

Definition visit n graph := <[n := auth_out n ∪ default ∅ (graph !! n)]> graph.
Definition pushes n graph : list string :=
  reverse (filter (fun a => a ∈ auth_diff /\ a ∉ dom (visit n graph)) (aevents n)).

Lemma push_all eid l state graph out :
  graph !! eid = Some out ->
  try_fold (push_auth auth_diff eid) (state, graph) l =
  Done (reverse (filter (fun a => a ∈ auth_diff /\ a ∉ dom graph) l) ++ state,
        <[eid := list_to_set (filter (fun a => a ∈ auth_diff) l) ∪ out]> graph).
Proof.
  revert state graph out. induction l as [|a l IH]; intros state graph out Hout; cbn [try_fold].
  { rewrite !filter_nil. cbn. do 2 f_equal. rewrite union_empty_l_L. by rewrite insert_id. }
  rewrite !filter_cons. unfold push_auth at 2. destruct (decide (a ∈ auth_diff)) as [Ha|Ha].
  - rewrite Hout. cbn [expect mbind outcome_bind].
    rewrite (IH _ _ ({[a]} ∪ out)) by by rewrite lookup_insert_eq.
    rewrite insert_insert_eq. rewrite dom_insert_lookup_L by eauto.
    destruct (decide (a ∉ dom graph)) as [Hd|Hd].
    + rewrite decide_True by done. rewrite reverse_cons, <- app_assoc. cbn. do 3 f_equal. set_solver.
    + rewrite decide_False by naive_solver. cbn. do 3 f_equal. set_solver.
  - cbn [mbind outcome_bind]. rewrite (IH _ _ out Hout). by rewrite decide_False by naive_solver.
Qed.

Lemma graph_loop_step fuel eid state graph :
  graph_loop fetch_event auth_diff (S fuel) (eid :: state) graph =
  graph_loop fetch_event auth_diff fuel (pushes eid graph ++ state) (visit eid graph).
Proof.
  cbn [graph_loop]. unfold or_default. erewrite push_all by apply lookup_insert_eq.
  cbn [mbind outcome_bind]. rewrite insert_insert_eq. unfold pushes. repeat f_equal.
  unfold visit. by rewrite !dom_insert_L.
Qed.

(** *** Termination *)

Section termination.
Context (ids : gset string) (D : nat).
Hypothesis ids_closed : auth_diff ⊆ ids.
Hypothesis D_bound : forall n, n ∈ ids -> length (aevents n) <= D.

Definition unvisited graph : nat := size (ids ∖ dom graph).
Definition top_visited (state : list string) graph : nat :=
  match state with [] => 0 | n :: _ => if decide (n ∈ dom graph) then 1 else 0 end.
Definition potential (state : list string) graph : nat :=
  2 * D * unvisited graph + length state + D * top_visited state graph.

Lemma pushes_bound n graph : n ∈ ids -> length (pushes n graph) <= D.
Proof.
  intros Hn. unfold pushes. rewrite length_reverse. etrans; [apply length_filter|]. auto.
Qed.

Lemma pushes_unvisited n graph m : m ∈ pushes n graph -> m ∈ auth_diff /\ m ∉ dom (visit n graph).
Proof. unfold pushes. rewrite elem_of_reverse, list_elem_of_filter. tauto. Qed.

Lemma unvisited_visit n graph :
  n ∈ ids -> unvisited graph = unvisited (visit n graph) + (if decide (n ∈ dom graph) then 0 else 1).
Proof.
  intros Hn. unfold unvisited, visit. rewrite dom_insert_L. case_decide.
  - replace ({[n]} ∪ dom graph) with (dom graph) by set_solver. lia.
  - replace (ids ∖ ({[n]} ∪ dom graph)) with ((ids ∖ dom graph) ∖ {[n]}) by set_solver.
    assert ({[n]} ⊆ ids ∖ dom graph) as Hs by set_solver.
    rewrite (size_difference _ _ Hs). rewrite size_singleton.
    apply subseteq_size in Hs. rewrite size_singleton in Hs. lia.
Qed.

Lemma potential_step n state graph :
  n ∈ ids -> potential (pushes n graph ++ state) (visit n graph) < potential (n :: state) graph.
Proof.
  intros Hn. unfold potential. rewrite (unvisited_visit n graph Hn).
  pose proof (pushes_bound n graph Hn) as Hp. cbn [top_visited length].
  rewrite length_app. set (U := unvisited (visit n graph)).
  assert (top_visited (pushes n graph ++ state) (visit n graph) <=
            match pushes n graph with [] => 1 | _ => 0 end) as Ht.
  { destruct (pushes n graph) as [|m l] eqn:E; cbn [app].
    - destruct state; cbn; [lia|]. case_decide; lia.
    - assert (m ∈ pushes n graph) as [_ Hm]%pushes_unvisited by (rewrite E; set_solver).
      cbn. by rewrite decide_False. }
  set (t := top_visited (pushes n graph ++ state) (visit n graph)) in *. clearbody t U.
  destruct (pushes n graph) as [|m l]; cbn [length] in *; case_decide; nia.
Qed.

Lemma graph_loop_terminates fuel state graph :
  (forall n, n ∈ state -> n ∈ ids) -> potential state graph <= fuel ->
  exists g, graph_loop fetch_event auth_diff fuel state graph = Done g.
Proof.
  revert state graph. induction fuel as [|fuel IH]; intros [|n state] graph Hs Hf.
  - by eexists.
  - unfold potential in Hf. cbn in Hf. lia.
  - by eexists.
  - rewrite graph_loop_step. apply IH.
    + intros m [[? _]%pushes_unvisited|?]%elem_of_app; [set_solver|]. apply Hs. set_solver.
    + pose proof (potential_step n state graph ltac:(apply Hs; set_solver)). lia.
Qed.
End termination.

(** *** Exactness *)

(** The invariant of the loop: visited nodes have their edges, edges lead to
    visited or stacked nodes, and nothing else was reached. *)
Definition graph_inv (roots state : list string) graph : Prop :=
  (forall n es, graph !! n = Some es ->
     es = auth_out n /\ forall m, m ∈ es -> m ∈ dom graph \/ m ∈ state) /\
  (forall n, n ∈ dom graph \/ n ∈ state -> below roots n) /\
  (forall r, r ∈ roots -> r ∈ dom graph \/ r ∈ state).

Lemma below_step roots n m : below roots n -> auth_edge n m -> below roots m.
Proof. intros (r & Hr & Hn) Hm. exists r. split; [done|]. by eapply rtc_r. Qed.

Lemma visit_dom n graph m : m ∈ dom (visit n graph) <-> m = n \/ m ∈ dom graph.
Proof. unfold visit. rewrite dom_insert_L. set_solver. Qed.

Lemma elem_of_pushes n graph m :
  m ∈ pushes n graph <-> auth_edge n m /\ m ∉ dom (visit n graph).
Proof.
  unfold pushes. rewrite elem_of_reverse, list_elem_of_filter. unfold auth_edge. naive_solver.
Qed.

Lemma graph_inv_step roots n state graph :
  graph_inv roots (n :: state) graph -> graph_inv roots (pushes n graph ++ state) (visit n graph).
Proof.
  intros (I1 & I2 & I3). split_and!.
  - intros x es. unfold visit at 1. rewrite lookup_insert. case_decide as Hx.
    + subst x. intros [= <-]. split.
      * destruct (graph !! n) as [es|] eqn:E; cbn; [|set_solver].
        apply I1 in E as [-> _]. set_solver.
      * intros m Hm. assert (auth_edge n m) as He.
        { apply elem_of_auth_out. destruct (graph !! n) as [es|] eqn:E; cbn in Hm; [|set_solver].
          apply I1 in E as [-> _]. set_solver. }
        destruct (decide (m ∈ dom (visit n graph))); [by left|right].
        apply elem_of_app. left. by apply elem_of_pushes.
    + intros E. destruct (I1 _ _ E) as [-> He]. split; [done|]. intros m Hm.
      rewrite visit_dom, elem_of_app. destruct (He m Hm) as [|Hin]; [tauto|].
      apply elem_of_cons in Hin. tauto.
  - intros x. rewrite visit_dom, elem_of_app, elem_of_pushes.
    assert (below roots n) by (apply I2; right; set_solver).
    intros [[->|?]|[[? _]|?]]; [done|apply I2; tauto|by eapply below_step|].
    apply I2. right. set_solver.
  - intros r Hr. rewrite visit_dom, elem_of_app. destruct (I3 r Hr) as [|Hin]; [tauto|].
    apply elem_of_cons in Hin. tauto.
Qed.

Lemma graph_inv_exact roots graph : graph_inv roots [] graph -> graph_exact roots graph.
Proof.
  intros (I1 & I2 & I3). assert (forall n, below roots n -> n ∈ dom graph) as Hb.
  { intros n (r & Hr & Hn). apply I3 in Hr. assert (r ∈ dom graph) as Hd by set_solver. clear Hr.
    induction Hn as [|x y z Hxy _ IH]; [done|]. apply IH.
    apply elem_of_dom in Hd as [es Hes]. apply I1 in Hes as [-> He].
    destruct (He y) as [|?]; [by apply elem_of_auth_out|done|set_solver]. }
  intros n es. split.
  - intros E. split; [apply I2; left; by eapply elem_of_dom_2|]. by apply I1 in E as [-> _].
  - intros [Hn ->]. apply Hb, elem_of_dom in Hn as [es Hes]. by destruct (I1 _ _ Hes) as [<- _].
Qed.

Lemma graph_exact_inv roots r graph :
  graph_exact roots graph -> graph_inv (roots ++ [r]) [r] graph.
Proof.
  intros G. assert (forall n, n ∈ dom graph <-> below roots n) as Hd.
  { intros n. rewrite elem_of_dom. unfold is_Some, graph_exact in *. setoid_rewrite G. naive_solver. }
  split_and!.
  - intros n es [Hn ->]%G. split; [done|]. intros m Hm%elem_of_auth_out. left. apply Hd.
    by eapply below_step.
  - intros n [Hn%Hd| ->%list_elem_of_singleton]; [destruct Hn as (x & ? & ?)|].
    + exists x. set_solver.
    + exists r. split; [set_solver|done].
  - intros x [Hx|Hx]%elem_of_app; [|by right]. left. apply Hd. by exists x.
Qed.

Lemma graph_loop_inv roots fuel state graph g :
  graph_inv roots state graph -> graph_loop fetch_event auth_diff fuel state graph = Done g ->
  graph_exact roots g.
Proof.
  revert state graph. induction fuel as [|fuel IH]; intros [|n state] graph I.
  - intros [= <-]. by apply graph_inv_exact.
  - done.
  - intros [= <-]. by apply graph_inv_exact.
  - rewrite graph_loop_step. apply IH. by apply graph_inv_step.
Qed.

Lemma max_auth_bound ids n : n ∈ ids -> length (aevents n) <= max_auth fetch_event ids.
Proof.
  intros Hn. unfold max_auth. apply max_list_elem_of_le, list_elem_of_fmap.
  exists n. split; [done|]. by apply elem_of_elements.
Qed.

Lemma add_chain_spec roots graph r :
  graph_exact roots graph ->
  exists g, add_event_and_auth_chain_to_graph fetch_event auth_diff graph r = Done g /\
    graph_exact (roots ++ [r]) g.
Proof.
  intros G. unfold add_event_and_auth_chain_to_graph.
  destruct (graph_loop_terminates (chain_ids auth_diff r)
              (max_auth fetch_event (chain_ids auth_diff r)))
    with (fuel := chain_fuel fetch_event auth_diff r) (state := [r]) (graph := graph) as [g Hg].
  - unfold chain_ids. set_solver.
  - intros n. apply max_auth_bound.
  - unfold chain_ids. set_solver.
  - unfold potential, chain_fuel, unvisited. cbn [length].
    assert (size (chain_ids auth_diff r ∖ dom graph) <= size (chain_ids auth_diff r)) as Hs
      by (apply subseteq_size; set_solver).
    assert (top_visited [r] graph <= 1) by (cbn; case_decide; lia).
    set (D := max_auth fetch_event (chain_ids auth_diff r)) in *. nia.
  - exists g. split; [done|]. eapply graph_loop_inv; [|exact Hg]. by apply graph_exact_inv.
Qed.

Lemma graph_exact_nil : graph_exact [] ∅.
Proof. intros n es. rewrite lookup_empty. unfold below. set_solver. Qed.

Lemma add_chains_spec roots :
  exists g, try_fold (add_event_and_auth_chain_to_graph fetch_event auth_diff) ∅ roots = Done g /\
    graph_exact roots g.
Proof.
  assert (outcome_spec (try_fold (add_event_and_auth_chain_to_graph fetch_event auth_diff) ∅ roots)
            (graph_exact roots) (fun _ => False)) as S.
  { apply try_fold_spec; [apply graph_exact_nil|]. intros pre a post s -> Hs.
    by destruct (add_chain_spec _ _ a Hs) as (g & -> & Hg). }
  destruct (try_fold _ _ _) as [g|e| |]; [by exists g|done..].
Qed.

End graph_facts.

(** ** The sort of the power events *)

Section greedy_ext.
Context {Id E E' : Type} `{EqDecision Id, !Countable Id, !RustOrd Id}.

(** The greedy list depends on the keys of the nodes only. *)
Lemma greedy_ext (f : Id -> E + (Z * Z)) (g : Id -> E' + (Z * Z)) graph s :
  (forall n k, n ∈ dom graph -> f n = inr k <-> g n = inr k) ->
  greedy f graph s -> greedy g graph s.
Proof.
  intros Hfg. assert (forall n t, n ∈ dom graph -> tie f n t -> tie g n t) as Ht.
  { intros n t Hn (k & Hk & ->). exists k. by rewrite <- Hfg. }
  intros [G M]. split; [|done]. intros s1 n s2 Hs.
  destruct (G s1 n s2 Hs) as (Ha & t & Hn & Hmin). split; [done|]. exists t.
  split; [apply Ht; [apply Ha|done]|]. intros m Hm. destruct (Hmin m Hm) as (u & Hu & Hle).
  exists u. split; [apply Ht; [apply Hm|done]|done].
Qed.
End greedy_ext.

Section power_sort.
Context `{Ruma} (fetch_event : string -> option Event).

(** The key of an event: its sender's level by its own auth events, and its
    timestamp. *)
Definition power_key {sched : Schedule} (parallel_fetches : nat) (n : string) : unit + (Z * Z) :=
  match get_power_level_for_sender fetch_event parallel_fetches n, fetch_event n with
  | Done pl, Some ev => inr (pl, Matrix.origin_server_ts ev)
  | _, _ => inl tt
  end.

Definition levels_known {sched : Schedule} (pf : nat) (l : list string) (m : gmap string Z) : Prop :=
  forall n, n ∈ l -> exists pl, get_power_level_for_sender fetch_event pf n = Done pl /\ m !! n = Some pl.

Lemma level_for_sender_spec {sched : Schedule} pf n :
  outcome_spec (get_power_level_for_sender fetch_event pf n) (fun _ => True) (fun e => e = SerdeJson).
Proof.
  unfold get_power_level_for_sender. destruct (list_find _ _) as [[i ev]|]; [|done].
  eapply outcome_spec_bind; [by instantiate (1 := fun _ => True); destruct (de_PowerLevelsContentFields _)|].
  intros f _. by destruct (_ ≫= _).
Qed.

Lemma levels_spec {sched : Schedule} pf l :
  outcome_spec (try_fold (level_entry fetch_event pf) ∅ l) (levels_known pf l)
    (fun e => e = SerdeJson /\
       exists n, n ∈ l /\ get_power_level_for_sender fetch_event pf n = Fail SerdeJson).
Proof.
  apply try_fold_spec; [unfold levels_known; set_solver|]. intros pre a post m -> Hm.
  unfold level_entry. pose proof (level_for_sender_spec pf a) as S.
  destruct (get_power_level_for_sender fetch_event pf a) as [pl|e| |] eqn:E; try done; cbn in *.
  - intros n [Hn| ->%list_elem_of_singleton]%elem_of_app.
    + rewrite lookup_insert. case_decide; [subst; eauto|auto].
    + exists pl. by rewrite lookup_insert_eq.
  - subst e. split; [done|]. exists a. split; [set_solver|done].
Qed.

Lemma power_fetcher_key {sched : Schedule} pf l m n k :
  levels_known pf l m -> n ∈ l ->
  power_fetcher fetch_event m n = inr k <-> power_key pf n = inr k.
Proof.
  intros Hm Hn. destruct (Hm n Hn) as (pl & Hpl & E). unfold power_fetcher, power_key.
  rewrite E, Hpl. destruct (fetch_event n); naive_solver.
Qed.

Lemma graph_exact_dom auth_diff roots graph n :
  graph_exact fetch_event auth_diff roots graph -> n ∈ dom graph <-> below fetch_event auth_diff roots n.
Proof.
  intros G. rewrite elem_of_dom. unfold is_Some, graph_exact in *. setoid_rewrite G. naive_solver.
Qed.

Lemma graph_exact_edges auth_diff roots graph n m :
  graph_exact fetch_event auth_diff roots graph ->
  m ∈ edges graph n <-> below fetch_event auth_diff roots n /\ auth_edge fetch_event auth_diff n m.
Proof.
  intros G. unfold edges. destruct (graph !! n) as [es|] eqn:E; cbn.
  - apply G in E as [Hn ->]. rewrite elem_of_auth_out. tauto.
  - assert (n ∉ dom graph) as Hn by by apply not_elem_of_dom.
    rewrite (graph_exact_dom _ _ _ _ G) in Hn. set_solver.
Qed.

Lemma graph_exact_acyclic auth_diff roots graph :
  graph_exact fetch_event auth_diff roots graph ->
  well_founded (fun m n => auth_edge fetch_event auth_diff n m) -> closed_acyclic graph.
Proof.
  intros G Hw. split.
  - intros n m [Hn Hm]%(graph_exact_edges _ _ _ _ _ G). apply (graph_exact_dom _ _ _ _ G).
    by eapply below_step.
  - intros n. induction (Hw n) as [n _ IH]. constructor. intros m [_ Hm]%(graph_exact_edges _ _ _ _ _ G).
    auto.
Qed.

(** What the sort returns. *)
Definition power_sorted {sched : Schedule} pf auth_diff roots (s : list string) : Prop :=
  exists graph, graph_exact fetch_event auth_diff roots graph /\ greedy (power_key pf) graph s.

Definition power_sort_error {sched : Schedule} pf auth_diff roots (e : Error) : Prop :=
  exists n, below fetch_event auth_diff roots n /\
    (e = SerdeJson /\ get_power_level_for_sender fetch_event pf n = Fail SerdeJson \/
     e = NotFound "" /\ fetch_event n = None).

Lemma power_sort_spec {sched : Schedule} pf auth_diff roots :
  outcome_spec (reverse_topological_power_sort fetch_event roots auth_diff pf)
    (power_sorted pf auth_diff roots) (power_sort_error pf auth_diff roots).
Proof.
  unfold reverse_topological_power_sort.
  destruct (add_chains_spec fetch_event auth_diff roots) as (graph & -> & G).
  cbn [mbind outcome_bind]. set (keys := buffer_unordered _ _ _).
  assert (forall n, n ∈ keys <-> n ∈ dom graph) as Hk.
  { intros n. unfold keys. rewrite buffer_unordered_perm, reorder_perm.
    by rewrite dom_alt, elem_of_list_to_set. }
  eapply outcome_spec_bind.
  { eapply outcome_spec_mono; [apply levels_spec|intros a Ha; exact Ha|]. cbv beta.
    intros e (-> & n & Hn%Hk & E). exists n. rewrite <- graph_exact_dom by done. auto. }
  intros m Hm. eapply outcome_spec_mono; [apply sort_spec|..].
  - intros s Hs. exists graph. split; [done|]. eapply greedy_ext; [|exact Hs]. intros n k Hn%Hk.
    by eapply power_fetcher_key.
  - intros e (n & Hn & He). exists n. rewrite <- graph_exact_dom by done. split; [done|right].
    destruct (Hm n) as (pl & _ & E); [by apply Hk|]. unfold power_fetcher in He. rewrite E in He.
    destruct (fetch_event n); naive_solver.
Qed.

(** An event refers to at most one power levels event. *)
Definition single_levels : Prop :=
  forall n a b ea eb, a ∈ auth_events_of (fetch_event n) -> b ∈ auth_events_of (fetch_event n) ->
    fetch_event a = Some ea -> fetch_event b = Some eb ->
    is_type_and_key ea RoomPowerLevels "" = true -> is_type_and_key eb RoomPowerLevels "" = true ->
    ea = eb.

(** All elements that satisfy [P] being equal, the first one found does not
    depend on the order. *)
Lemma list_find_perm {A} (P : A -> Prop) `{!forall a, Decision (P a)} l1 l2 :
  l1 ≡ₚ l2 -> (forall a b, a ∈ l1 -> b ∈ l1 -> P a -> P b -> a = b) ->
  snd <$> list_find P l1 = snd <$> list_find P l2.
Proof.
  intros Hp Hu. destruct (list_find P l1) as [[i a]|] eqn:E1, (list_find P l2) as [[j b]|] eqn:E2;
    cbn; [|exfalso..|done].
  - apply list_find_Some in E1 as (Ha%list_elem_of_lookup_2 & Pa & _).
    apply list_find_Some in E2 as (Hb%list_elem_of_lookup_2 & Pb & _).
    f_equal. apply Hu; [done| |done..]. by rewrite Hp.
  - apply list_find_Some in E1 as (Ha%list_elem_of_lookup_2 & Pa & _).
    apply list_find_None in E2. rewrite Forall_forall in E2. apply (E2 a); [by rewrite <- Hp|done].
  - apply list_find_Some in E2 as (Hb%list_elem_of_lookup_2 & Pb & _).
    apply list_find_None in E1. rewrite Forall_forall in E1. apply (E1 b); [by rewrite Hp|done].
Qed.

Lemma level_for_sender_schedule (sched1 sched2 : Schedule) pf1 pf2 n :
  single_levels ->
  get_power_level_for_sender (sched := sched1) fetch_event pf1 n =
  get_power_level_for_sender (sched := sched2) fetch_event pf2 n.
Proof.
  intros Hs. unfold get_power_level_for_sender.
  set (l1 := omap id _). set (l2 := omap id (buffer_unordered (H := sched2) _ _ _)).
  set (P := fun aev : Event => is_type_and_key aev RoomPowerLevels "" = true).
  assert (snd <$> list_find P l1 = snd <$> list_find P l2) as E.
  { assert (forall x, x ∈ l1 -> exists a, a ∈ auth_events_of (fetch_event n) /\ fetch_event a = Some x) as Hin.
    { intros x (o & Ho & Hx)%list_elem_of_omap. rewrite buffer_unordered_perm in Ho.
      apply list_elem_of_fmap in Ho as (a & -> & Ha). by exists a. }
    apply list_find_perm.
    - unfold l1, l2. by rewrite !buffer_unordered_perm.
    - intros x y (a & Ha & Ea)%Hin (b & Hb & Eb)%Hin. by apply (Hs n a b). }
  destruct (list_find P l1) as [[i x]|], (list_find P l2) as [[j y]|]; cbn in E; [|done..].
  by injection E as ->.
Qed.

(** ** Claims *)


(** When every event refers to at most one power levels event, the sorted
    list of power events does not depend on the order in which fetches
    complete, on hash iteration order or on the number of parallel fetches. *)
Theorem power_sort_deterministic (sched1 sched2 : Schedule) pf1 pf2 auth_diff
    events_to_sort s1 s2 :
  single_levels ->
  reverse_topological_power_sort (sched := sched1) fetch_event events_to_sort auth_diff pf1 = Done s1 ->
  reverse_topological_power_sort (sched := sched2) fetch_event events_to_sort auth_diff pf2 = Done s2 ->
  s1 = s2.
Proof.
  intros Hs E1 E2.
  pose proof (power_sort_spec (sched := sched1) pf1 auth_diff events_to_sort) as S1.
  pose proof (power_sort_spec (sched := sched2) pf2 auth_diff events_to_sort) as S2.
  rewrite E1 in S1. rewrite E2 in S2. destruct S1 as (g1 & G1 & H1), S2 as (g2 & G2 & H2).
  assert (g1 = g2) as ->.
  { apply map_eq. intros n. apply option_eq. intros es. by rewrite (G1 n es), (G2 n es). }
  eapply greedy_unique; [exact H1|]. eapply greedy_ext; [|exact H2].
  intros n k _. unfold power_key. by rewrite (level_for_sender_schedule sched1 sched2 pf1 pf2).
Qed.

End power_sort.

(** The small room's power events: create, join rules, power levels and the ban. *)
Definition toy_events : gmap string Event :=
  list_to_map ((fun e => (Matrix.event_id e, e)) <$> toy_state.*2).
Definition toy_get (id : string) : option Event := toy_events !! id.

Lemma toy_single_levels : single_levels toy_get.
Proof.
  intros n a b ea eb _ _ Ha Hb Ta Tb.
  assert (map_Forall (fun _ e => is_type_and_key e RoomPowerLevels "" = true -> e = ev_levels)
            toy_events) as F by (apply (bool_decide_unpack _); by vm_compute).
  by rewrite (F a ea Ha Ta), (F b eb Hb Tb).
Qed.

Lemma power_sort_deterministic_witness :
  ["$create"; "$levels"; "$rules"; "$eve"] = ["$create"; "$levels"; "$rules"; "$eve"].
Proof.
  apply (power_sort_deterministic (H := toy_ruma) toy_get in_order reversed 1 8
           {["$create"; "$levels"; "$rules"; "$eve"; "$bob"]} ["$eve"; "$rules"]).
  - apply toy_single_levels.
  - by vm_compute.
  - by vm_compute.
Defined.
