(* ===== verification/Mainline.v ===== *)
(** * Mainline ordering

    Models [mainline_sort] and [get_mainline_depth] of
    [src/core/matrix/state_res/mod.rs].  Both walk from power levels event to
    power levels event along auth events; their loops take fuel, and the
    theorems show that more fuel than the rank of the first event is enough,
    for any rank that decreases from an event to its auth events. *)

From stdpp Require Import prelude gmap strings list sorting relations.
From Stdlib Require Import ZArith Lia.
From S2P Require Import Prelude Matrix ToyRuma AuthGraph.

Section mainline.
Context `{Ruma} {sched : Schedule} (fetch_event : string -> option Event).

Definition failed_to_find (id : string) : Error := NotFound ("Failed to find " +:+ id).

(** The inner loop of both functions: the first auth event that is a power
    levels event. *)
Fixpoint find_levels (aids : list string) : outcome Error (option (string * Event)) :=
  match aids with
  | [] => Done None
  | aid :: aids =>
      ev ← ok_or (failed_to_find aid) (fetch_event aid);
      if is_type_and_key ev RoomPowerLevels "" then Done (Some (aid, ev)) else find_levels aids
  end.

(** The [while let Some(p) = pl] loop. *)
Fixpoint mainline_loop (fuel : nat) (pl : option string) (mainline : list string)
    : outcome Error (list string) :=
  match pl with
  | None => Done mainline
  | Some p =>
      match fuel with
      | O => OutOfFuel
      | S fuel =>
          let mainline := mainline ++ [p] in
          event ← ok_or (failed_to_find p) (fetch_event p);
          next ← find_levels (auth_events event);
          mainline_loop fuel (fst <$> next) mainline
      end
  end.

(** [collect] of pairs into a [HashMap]: a later pair replaces an earlier one. *)
Definition collect_map {V} (l : list (string * V)) : gmap string V :=
  foldl (fun m kv => <[kv.1 := kv.2]> m) ∅ l.

Definition mainline_map (mainline : list string) : gmap string nat :=
  collect_map (imap (fun idx eid => (eid, idx)) (reverse mainline)).

Fixpoint get_mainline_depth (fuel : nat) (event : option Event) (mainline_map : gmap string nat)
    : outcome Error nat :=
  match event with
  | None => Done 0
  | Some sort_ev =>
      match fuel with
      | O => OutOfFuel
      | S fuel =>
          match mainline_map !! event_id sort_ev with
          | Some depth => Done depth
          | None =>
              next ← find_levels (auth_events sort_ev);
              get_mainline_depth fuel (snd <$> next) mainline_map
          end
      end
  end.

(** One step of the fold into [order_map]; [Result::ok] drops events whose
    depth cannot be found. *)
Abbreviation order_key := (nat * (Z * string))%type.
Definition order_entry (fuel : nat) (mmap : gmap string nat) (order_map : gmap string order_key)
    (e : Event * string) : outcome Error (gmap string order_key) :=
  let '(event, ev_id) := e in
  match get_mainline_depth fuel (Some event) mmap with
  | Done depth => Done (<[ev_id := (depth, (origin_server_ts event, ev_id))]> order_map)
  | Fail _ => Done order_map
  | Panic => Panic
  | OutOfFuel => OutOfFuel
  end.

Definition fetched_events (parallel_fetches : nat) (to_sort : list string) : list (Event * string) :=
  buffer_unordered "mainline depth" parallel_fetches
    (omap (fun ev_id => (fun event => (event, ev_id)) <$> fetch_event ev_id)
       (buffer_unordered "mainline fetch" parallel_fetches to_sort)).

Definition by_value (a b : string * order_key) : Prop := ord_le a.2 b.2.
#[global] Instance by_value_dec a b : Decision (by_value a b).
Proof. unfold by_value. apply _. Defined.

Definition mainline_sort (fuel : nat) (to_sort : list string) (resolved_power_level : option string)
    (parallel_fetches : nat) : outcome Error (list string) :=
  if decide (to_sort = []) then Done [] else
  mainline ← mainline_loop fuel resolved_power_level [];
  order_map ← try_fold (order_entry fuel (mainline_map mainline)) ∅
                (fetched_events parallel_fetches to_sort);
  Done (merge_sort by_value (reorder "order map" (map_to_list order_map))).*1.

End mainline.

(** ** The index of a mainline event *)

Lemma lookup_collect_map {V} (l : list (string * V)) n v :
  NoDup l.*1 -> collect_map l !! n = Some v <-> (n, v) ∈ l.
Proof.
  unfold collect_map. intros Hnd.
  enough (forall m : gmap string V, foldl (fun m kv => <[kv.1 := kv.2]> m) m l !! n = Some v <->
            (n, v) ∈ l \/ (n ∉ l.*1) /\ m !! n = Some v) as G.
  { rewrite G, lookup_empty. naive_solver. }
  induction l as [|[k x] l IH]; intros m; cbn [foldl].
  - set_solver.
  - rewrite fmap_cons, NoDup_cons in Hnd. destruct Hnd as [Hk Hnd].
    rewrite (IH Hnd), elem_of_cons, fmap_cons, not_elem_of_cons. cbn [fst snd] in *.
    rewrite lookup_insert.
    assert ((n, v) ∈ l -> n ∈ l.*1) by apply (list_elem_of_fmap_2 fst l (n, v)).
    case_decide; naive_solver.
Qed.

Lemma collect_map_elem {V} (l : list (string * V)) n v : collect_map l !! n = Some v -> (n, v) ∈ l.
Proof.
  unfold collect_map.
  enough (forall m : gmap string V, foldl (fun m kv => <[kv.1 := kv.2]> m) m l !! n = Some v ->
            (n, v) ∈ l \/ m !! n = Some v) as G.
  { intros [?|Hv]%G; [done|]. by rewrite lookup_empty in Hv. }
  induction l as [|[k x] l IH]; intros m; cbn [foldl]; [by right|]. cbn [fst snd].
  intros [?|Hm]%IH; [set_solver|]. rewrite lookup_insert in Hm. case_decide; [|by right].
  simplify_eq. set_solver.
Qed.

Lemma lookup_mainline_map mainline n d :
  NoDup mainline ->
  mainline_map mainline !! n = Some d <->
  exists i, mainline !! i = Some n /\ d = length mainline - S i.
Proof.
  intros Hnd. unfold mainline_map. rewrite lookup_collect_map.
  - rewrite elem_of_lookup_imap. split.
    + intros (i & y & [= -> ->] & Hi). apply reverse_lookup_Some in Hi as [Hi Hl].
      eexists. split; [exact Hi|]. lia.
    + intros (i & Hi & ->). pose proof (lookup_lt_Some _ _ _ Hi).
      exists (length mainline - S i), n. split; [done|]. apply reverse_lookup_Some.
      replace (length mainline - S (length mainline - S i)) with i by lia. split; [done|lia].
  - replace ((imap (fun idx eid => (eid, idx)) (reverse mainline)).*1) with (reverse mainline).
    { by rewrite reverse_Permutation. }
    apply list_eq. intros i. rewrite list_lookup_fmap, list_lookup_imap.
    by destruct (reverse mainline !! i).
Qed.

Lemma mainline_map_None mainline n :
  NoDup mainline -> mainline_map mainline !! n = None <-> n ∉ mainline.
Proof.
  intros Hnd. rewrite list_elem_of_lookup, eq_None_not_Some. unfold is_Some.
  setoid_rewrite (fun d => lookup_mainline_map mainline n d Hnd). naive_solver.
Qed.

(** ** Specification *)

Section mainline_spec.
Context `{Ruma} (fetch_event : string -> option Event).
Implicit Types (e : Event) (n p : string) (mainline : list string).

(** The power levels event an event refers to first, if any. *)
Definition parent_levels e (o : option (string * Event)) : Prop :=
  find_levels fetch_event (auth_events e) = Done o.

(** The mainline of a power levels event: the event, the one it refers to, and
    so on to the first of the room. *)
Inductive mainline_from : option string -> list string -> Prop :=
| mainline_end : mainline_from None []
| mainline_next p e o l :
    fetch_event p = Some e -> parent_levels e o -> mainline_from (fst <$> o) l ->
    mainline_from (Some p) (p :: l).

(** The depth of an event: how many mainline events are older than the closest
    mainline event it descends from; 0 when there is none. *)
Inductive depth_of mainline : option Event -> nat -> Prop :=
| depth_here e i :
    mainline !! i = Some (event_id e) -> depth_of mainline (Some e) (length mainline - S i)
| depth_step e o d :
    event_id e ∉ mainline -> parent_levels e o -> depth_of mainline (snd <$> o) d ->
    depth_of mainline (Some e) d
| depth_none : depth_of mainline None 0.

Definition mainline_key mainline n (k : nat * (Z * string)) : Prop :=
  exists e d, fetch_event n = Some e /\ depth_of mainline (Some e) d /\
    k = (d, (origin_server_ts e, n)).

(** The place of an event on the mainline, counted from the most recent power
    levels event. *)
Inductive age_of mainline : option Event -> nat -> Prop :=
| age_here e i : mainline !! i = Some (event_id e) -> age_of mainline (Some e) i
| age_step e o a :
    event_id e ∉ mainline -> parent_levels e o -> age_of mainline (snd <$> o) a -> age_of mainline (Some e) a
| age_none : age_of mainline None (pred (length mainline)).

Definition mainline_place mainline n e (a : nat) : Prop := fetch_event n = Some e /\ age_of mainline (Some e) a.

Lemma age_depth mainline o a : age_of mainline o a -> depth_of mainline o (length mainline - S a) /\ a <= pred (length mainline).
Proof.
  induction 1 as [e i Hi|e o a Hn Hp _ [IH1 IH2]|].
  - split; [by constructor|]. apply lookup_lt_Some in Hi. lia.
  - split; [by eapply depth_step|done].
  - split; [|lia]. replace (length mainline - S (pred (length mainline))) with 0 by lia. constructor.
Qed.

Lemma depth_age mainline o d : depth_of mainline o d -> exists a, age_of mainline o a.
Proof.
  induction 1 as [e i Hi|e o d Hn Hp _ [a IH]|]; [by exists i; constructor|exists a; by eapply age_step|].
  exists (pred (length mainline)). constructor.
Qed.

Lemma place_key mainline n e a :
  mainline_place mainline n e a -> mainline_key mainline n (length mainline - S a, (origin_server_ts e, n)).
Proof. intros [Hf [Ha _]%age_depth]. by exists e, (length mainline - S a). Qed.

Lemma place_key_ex mainline n : (exists k, mainline_key mainline n k) <-> exists e a, mainline_place mainline n e a.
Proof.
  split; [|intros (e & a & Hk%place_key); by eexists]. intros (k & e & d & Hf & [a Ha]%depth_age & _). by exists e, a.
Qed.

Lemma places_ordered mainline n n' e e' a a' :
  mainline_place mainline n e a -> mainline_place mainline n' e' a' ->
  cmp (length mainline - S a, (origin_server_ts e, n)) (length mainline - S a', (origin_server_ts e', n')) = Lt ->
  a' < a \/ a = a' /\ cmp (origin_server_ts e, n) (origin_server_ts e', n') = Lt.
Proof.
  intros [_ [_ Ha]%age_depth] [_ [_ Ha']%age_depth]. intros Hc.
  change (then_cmp (cmp (length mainline - S a) (length mainline - S a'))
    (cmp (origin_server_ts e, n) (origin_server_ts e', n')) = Lt) in Hc. unfold then_cmp in Hc.
  destruct (cmp (length mainline - S a) (length mainline - S a')) eqn:Ec; [| |done].
  - apply cmp_eq_iff in Ec. right. split; [lia|exact Hc].
  - left. apply Nat.compare_lt_iff in Ec. lia.
Qed.

Definition missing_event (err : Error) : Prop :=
  exists n, err = failed_to_find n /\ fetch_event n = None.

Lemma find_levels_spec aids :
  outcome_spec (find_levels fetch_event aids)
    (fun o => forall q e, o = Some (q, e) -> q ∈ aids /\ fetch_event q = Some e) missing_event.
Proof.
  induction aids as [|a aids IH]; [done|]. cbn [find_levels].
  destruct (fetch_event a) as [ev|] eqn:E; [|by exists a]. cbn.
  destruct (is_type_and_key ev RoomPowerLevels ""); cbn.
  - intros q e [= <- <-]. split; [set_solver|done].
  - eapply outcome_spec_mono; [exact IH| |done]. cbn. intros o Ho q e ->.
    destruct (Ho q e eq_refl). split; [set_solver|done].
Qed.

Lemma parent_levels_inv e q eq :
  parent_levels e (Some (q, eq)) -> q ∈ auth_events e /\ fetch_event q = Some eq.
Proof.
  intros P. pose proof (find_levels_spec (auth_events e)) as S. unfold parent_levels in P.
  rewrite P in S. by apply S.
Qed.

Lemma elem_of_fetched {sched : Schedule} pf to_sort e n :
  (e, n) ∈ fetched_events fetch_event pf to_sort <-> n ∈ to_sort /\ fetch_event n = Some e.
Proof.
  unfold fetched_events. rewrite !buffer_unordered_perm, list_elem_of_omap. split.
  - intros (x & Hx & F). destruct (fetch_event x) eqn:E; [|done]. cbn in F. by injection F as -> ->.
  - intros [Hn E]. exists n. by rewrite E.
Qed.

(** Only given events are returned, ranked or not. *)
Lemma mainline_sort_subset {sched : Schedule} fuel to_sort resolved pf s :
  mainline_sort fetch_event fuel to_sort resolved pf = Done s -> forall n, n ∈ s -> n ∈ to_sort.
Proof.
  unfold mainline_sort. case_decide; [intros [= <-]; set_solver|]. intros E n.
  bind_inv E. bind_inv E. injection E as <-.
  assert (forall n, is_Some (a0 !! n) -> n ∈ (fetched_events fetch_event pf to_sort).*2) as S.
  { eapply (try_fold_inv _ (fun l (om : gmap string (nat * (Z * string))) =>
              forall n, is_Some (om !! n) -> n ∈ l.*2)); [exact E1|..].
    - intros x [? Hx]. by rewrite lookup_empty in Hx.
    - intros l [e x] om om' IH Ho y Hy. rewrite fmap_app, elem_of_app. unfold order_entry in Ho.
      destruct (get_mainline_depth _ _ _ _); simplify_eq; [|auto].
      rewrite lookup_insert in Hy. case_decide; [subst; right; set_solver|auto]. }
  rewrite merge_sort_Permutation, reorder_perm.
  intros ([x k] & -> & Hx%elem_of_map_to_list)%list_elem_of_fmap. cbn.
  destruct (list_elem_of_fmap_1 _ _ _ (S x (ex_intro _ k Hx))) as ([e y] & -> & [? _]%elem_of_fetched).
  done.
Qed.

(** *** Ranked auth events: no event is its own ancestor *)

Context (rank : string -> nat).
Definition ranked : Prop :=
  forall n e a, fetch_event n = Some e -> a ∈ auth_events e -> rank a < rank n.

Hypothesis Hranked : ranked.

Lemma mainline_loop_spec fuel pl pre :
  (forall p, pl = Some p -> rank p < fuel) ->
  outcome_spec (mainline_loop fetch_event fuel pl pre)
    (fun m => exists l, m = pre ++ l /\ mainline_from pl l) missing_event.
Proof.
  revert pl pre. induction fuel as [|fuel IH]; intros [p|] pre Hp; cbn [mainline_loop].
  1: { specialize (Hp p eq_refl). lia. }
  1, 3: by exists []; rewrite app_nil_r; split; [done|constructor].
  specialize (Hp p eq_refl).
  destruct (fetch_event p) as [e|] eqn:E; [|by exists p]. cbn [ok_or mbind outcome_bind].
  pose proof (find_levels_spec (auth_events e)) as S.
  destruct (find_levels fetch_event (auth_events e)) as [o|err| |] eqn:F; try done.
  cbn [mbind outcome_bind]. eapply outcome_spec_mono; [apply IH| |done].
  - intros q. destruct o as [[q' eq]|]; [|done]. cbn. intros [= <-].
    destruct (S q' eq eq_refl) as [Hq _]. pose proof (Hranked p e q' E Hq). lia.
  - cbn. intros m (l & -> & Hl). exists (p :: l). rewrite <- app_assoc. split; [done|].
    by econstructor.
Qed.

(** Along the mainline the rank decreases, so it has no duplicates. *)
Lemma mainline_from_rank pl l p :
  mainline_from pl l -> pl = Some p -> forall q, q ∈ l -> q = p \/ rank q < rank p.
Proof.
  intros M. revert p. induction M as [|p e o l E P M IH]; intros p' [= <-] q.
  intros [->|Hq]%elem_of_cons; [by left|right]. destruct o as [[q' eq]|]; cbn in *.
  - destruct (parent_levels_inv e q' eq P) as [Hin _]. pose proof (Hranked p e q' E Hin).
    destruct (IH q' eq_refl q Hq) as [->|]; lia.
  - inversion M; subst. set_solver.
Qed.

Lemma mainline_from_NoDup pl l : mainline_from pl l -> NoDup l.
Proof.
  induction 1 as [|p e o l E P M IH]; constructor; [|done]. intros Hp.
  destruct o as [[q eq]|]; cbn in *; [|inversion M; subst; set_solver].
  destruct (parent_levels_inv e q eq P) as [Hin _]. pose proof (Hranked p e q E Hin).
  destruct (mainline_from_rank _ _ q M eq_refl p Hp) as [->|]; lia.
Qed.

Lemma depth_spec mainline fuel n e :
  NoDup mainline -> fetch_event n = Some e -> rank n < fuel ->
  outcome_spec (get_mainline_depth fetch_event fuel (Some e) (mainline_map mainline))
    (depth_of mainline (Some e)) missing_event.
Proof.
  intros Hnd. revert n e. induction fuel as [|fuel IH]; intros n e E Hr; [lia|].
  cbn [get_mainline_depth]. destruct (mainline_map mainline !! event_id e) as [d|] eqn:L.
  { apply lookup_mainline_map in L as (i & Hi & ->); [|done]. by constructor. }
  apply mainline_map_None in L; [|done].
  pose proof (find_levels_spec (auth_events e)) as S.
  destruct (find_levels fetch_event (auth_events e)) as [o|err| |] eqn:F; try done.
  cbn [mbind outcome_bind]. destruct o as [[q eq]|].
  - destruct (S q eq eq_refl) as [Hq Eq]. eapply outcome_spec_mono; [apply (IH q)|..].
    + done.
    + pose proof (Hranked n e q E Hq). lia.
    + intros d Hd. by eapply depth_step.
    + done.
  - destruct fuel; cbn; eapply depth_step; try done; constructor.
Qed.

Lemma depth_complete mainline o d :
  NoDup mainline -> depth_of mainline o d ->
  forall fuel n e, o = Some e -> fetch_event n = Some e -> rank n < fuel ->
  get_mainline_depth fetch_event fuel o (mainline_map mainline) = Done d.
Proof.
  intros Hnd D. induction D as [e i Hi|e o d Hn P D IH|]; intros [|fuel] n e' [= <-] E Hr; try lia;
    cbn [get_mainline_depth].
  - replace (mainline_map mainline !! event_id e) with (Some (length mainline - S i)); [done|].
    symmetry. apply lookup_mainline_map; eauto.
  - rewrite (proj2 (mainline_map_None _ _ Hnd) Hn). rewrite P. cbn [mbind outcome_bind].
    destruct o as [[q eq]|]; cbn in *.
    + destruct (parent_levels_inv e q eq P) as [Hq Eq]. pose proof (Hranked n e q E Hq).
      apply (IH fuel q eq); [done..|lia].
    + inversion D. by destruct fuel.
Qed.

(** *** The order map *)

Definition order_ok mainline (l : list (Event * string)) (om : gmap string (nat * (Z * string))) : Prop :=
  forall n k, om !! n = Some k <-> n ∈ l.*2 /\ mainline_key mainline n k.

Lemma order_entry_spec mainline fuel (l : list (Event * string)) :
  NoDup mainline -> (forall e n, (e, n) ∈ l -> fetch_event n = Some e /\ rank n < fuel) ->
  outcome_spec (try_fold (order_entry fetch_event fuel (mainline_map mainline)) ∅ l)
    (order_ok mainline l) (fun _ => False).
Proof.
  intros Hnd Hl. apply try_fold_spec.
  { intros n k. rewrite lookup_empty. set_solver. }
  intros pre [e n] post om -> Hom. destruct (Hl e n) as [E Hr]; [set_solver|].
  unfold order_entry. pose proof (depth_spec mainline fuel n e Hnd E Hr) as S.
  assert (forall d, depth_of mainline (Some e) d ->
            get_mainline_depth fetch_event fuel (Some e) (mainline_map mainline) = Done d) as C
    by (intros d D; by eapply depth_complete).
  destruct (get_mainline_depth _ _ _ _) as [d|err| |] eqn:G; try done; cbn.
  - intros x k. rewrite lookup_insert, fmap_app, elem_of_app. cbn [fmap list_fmap snd].
    rewrite list_elem_of_singleton. case_decide; subst.
    + split; [intros [= <-]; split; [by right|by exists e, d]|].
      intros [_ (e' & d' & E' & D' & ->)]. rewrite E in E'. injection E' as <-.
      apply C in D'. congruence.
    + rewrite (Hom x k). naive_solver.
  - intros x k. rewrite (Hom x k), fmap_app, elem_of_app. cbn [fmap list_fmap snd].
    rewrite list_elem_of_singleton. split; [naive_solver|]. intros [[| ->] K]; [done|].
    destruct K as (e' & d' & E' & D' & ->). rewrite E in E'. injection E' as <-.
    apply C in D'. congruence.
Qed.

(** What [mainline_sort] returns. *)
Definition mainline_sorted mainline (to_sort s : list string) : Prop :=
  exists ks, ks.*2.*2 = s /\ StronglySorted ord_le ks /\ NoDup ks /\
    forall k, k ∈ ks <-> k.2.2 ∈ to_sort /\ mainline_key mainline k.2.2 k.

Lemma merge_sorted {sched : Schedule} mainline pf to_sort om :
  order_ok mainline (fetched_events fetch_event pf to_sort) om ->
  mainline_sorted mainline to_sort
    (merge_sort by_value (reorder "order map" (map_to_list om))).*1.
Proof.
  intros Hom. set (l := merge_sort _ _).
  assert (forall n k, (n, k) ∈ l <-> n ∈ to_sort /\ mainline_key mainline n k) as Hl.
  { intros n k. unfold l. rewrite merge_sort_Permutation, elem_of_reorder, elem_of_map_to_list.
    rewrite (Hom n k), list_elem_of_fmap. split.
    - intros [([e n'] & -> & [Hn ?]%elem_of_fetched) K]. done.
    - intros [Hn K]. split; [|done]. destruct K as (e & d & E & _). exists (e, n).
      split; [done|]. by apply elem_of_fetched. }
  assert (forall n k, (n, k) ∈ l -> k.2.2 = n) as Hid.
  { intros n k [_ (e & d & _ & _ & ->)]%Hl. done. }
  assert (l.*2.*2.*2 = l.*1) as Hl1.
  { rewrite <- !list_fmap_compose. apply list_fmap_ext. intros i [n k] Hi. cbn.
    apply Hid. by eapply list_elem_of_lookup_2. }
  exists l.*2. split_and!.
  - exact Hl1.
  - eapply StronglySorted_fmap, StronglySorted_merge_sort; [done|..].
    + intros x y z. apply ord_le_trans.
    + intros x y. apply (total ord_le).
  - apply (NoDup_fmap_1 snd), (NoDup_fmap_1 snd). rewrite Hl1. unfold l.
    rewrite merge_sort_Permutation, reorder_perm. apply NoDup_fst_map_to_list.
  - intros k. rewrite list_elem_of_fmap. split.
    + intros ([n k'] & -> & Hin). cbn. rewrite (Hid _ _ Hin). by apply Hl.
    + intros Hk%Hl. by exists (k.2.2, k).
Qed.

Lemma mainline_sorted_unique mainline to_sort s1 s2 :
  mainline_sorted mainline to_sort s1 -> mainline_sorted mainline to_sort s2 -> s1 = s2.
Proof.
  intros (k1 & <- & S1 & N1 & E1) (k2 & <- & S2 & N2 & E2). do 2 f_equal.
  apply (StronglySorted_unique ord_le); [done..|]. apply NoDup_Permutation; [done..|].
  intros k. by rewrite E1, E2.
Qed.

Lemma mainline_from_unique pl l1 l2 : mainline_from pl l1 -> mainline_from pl l2 -> l1 = l2.
Proof.
  intros M. revert l2. induction M as [|p e o l E P M IH]; intros l2 M2; inversion M2; [done|].
  simplify_eq. f_equal. apply IH. unfold parent_levels in *. congruence.
Qed.

Lemma mainline_sort_spec {sched : Schedule} fuel to_sort resolved pf :
  (forall n, n ∈ to_sort \/ resolved = Some n -> rank n < fuel) ->
  outcome_spec (mainline_sort fetch_event fuel to_sort resolved pf)
    (fun s => if decide (to_sort = []) then s = []
              else exists mainline, mainline_from resolved mainline /\ mainline_sorted mainline to_sort s)
    missing_event.
Proof.
  intros Hf. unfold mainline_sort. destruct (decide (to_sort = [])) as [Ht|Ht]; [done|].
  eapply outcome_spec_bind; [apply mainline_loop_spec; auto|].
  cbn. intros mainline (l & -> & M). cbn [app]. pose proof (mainline_from_NoDup _ _ M) as Hnd.
  pose proof (order_entry_spec l fuel (fetched_events fetch_event pf to_sort) Hnd) as S.
  destruct (try_fold _ _ _) as [om|err| |]; try (exfalso; apply S;
    intros e n [? ?]%elem_of_fetched; split; [done|]; apply Hf; by left).
  cbn. exists l. split; [done|]. eapply merge_sorted, S.
  intros e n [? ?]%elem_of_fetched. split; [done|]. apply Hf. by left.
Qed.

Lemma mainline_key_unique mainline n k k' :
  NoDup mainline -> mainline_key mainline n k -> mainline_key mainline n k' -> k = k'.
Proof.
  intros Hnd (e & d & E & D & ->) (e' & d' & E' & D' & ->).
  rewrite E in E'. injection E' as <-.
  pose proof (depth_complete _ _ _ Hnd D (S (rank n)) n e eq_refl E ltac:(lia)).
  pose proof (depth_complete _ _ _ Hnd D' (S (rank n)) n e eq_refl E ltac:(lia)).
  congruence.
Qed.

(** The sorted list, in terms of the keys of its elements. *)
Lemma mainline_sorted_inv resolved mainline to_sort s :
  mainline_from resolved mainline -> mainline_sorted mainline to_sort s ->
  NoDup s /\ (forall n, n ∈ s <-> n ∈ to_sort /\ exists k, mainline_key mainline n k) /\
  (forall i j a b ka kb, s !! i = Some a -> s !! j = Some b -> i < j ->
     mainline_key mainline a ka -> mainline_key mainline b kb -> cmp ka kb = Lt).
Proof.
  intros M (ks & <- & S & N & E). pose proof (mainline_from_NoDup _ _ M) as Hnd.
  pose proof (fun n k k' => mainline_key_unique mainline n k k' Hnd) as U.
  rewrite <- list_fmap_compose. set (g := compose _ _).
  assert (forall i a k, (g <$> ks) !! i = Some a -> mainline_key mainline a k -> ks !! i = Some k) as L.
  { intros i a k Hi K. rewrite list_lookup_fmap in Hi. destruct (ks !! i) as [k'|] eqn:Hk; [|done].
    injection Hi as <-. f_equal. apply list_elem_of_lookup_2, E in Hk as [_ K']. by eapply U. }
  split_and!.
  - apply (NoDup_fmap_2_strong g ks); [|done]. intros x y [_ Hx]%E [_ Hy]%E Hg.
    unfold g in Hg. cbn in Hg. rewrite <- Hg in Hy. by eapply U.
  - intros n. rewrite list_elem_of_fmap. split.
    + intros (k & -> & [? ?]%E). eauto.
    + intros (Hn & k & K). assert (k.2.2 = n) as <- by (destruct K as (e & d & _ & _ & ->); done).
      exists k. split; [done|]. by apply E.
  - intros i j a b ka kb Hi Hj Hij Ka Kb. pose proof (L _ _ _ Hi Ka) as Li.
    pose proof (L _ _ _ Hj Kb) as Lj.
    pose proof (StronglySorted_lookup _ _ _ _ _ _ S Li Lj Hij) as Hle. unfold ord_le in Hle.
    destruct (cmp ka kb) eqn:C; [|done|done]. apply cmp_eq_iff in C as ->.
    rewrite (NoDup_lookup _ _ _ _ N Li Lj) in Hij. lia.
Qed.

(** ** Claims *)

(** C20. With more fuel than the ranks of the events involved, [mainline_sort]
    ends without a panic, and fails only when an event on the mainline of the
    resolved power levels event is missing.  Otherwise its result has no
    duplicates and holds exactly the events of [to_sort] that were fetched and
    whose place on the mainline could be found.  Counting places from the most
    recent power levels event, as the comment of [mainline_sort] does (0 for events
    after it, 1 for those after the one before, and so on; an event that descends
    from none has the place of the oldest), the events with the larger place, which
    is the older one, come first, and events of the same place in the order of
    their timestamps and ids. *)
Theorem mainline_sort_correct {sched : Schedule} fuel to_sort resolved pf :
  (forall n, n ∈ to_sort \/ resolved = Some n -> rank n < fuel) ->
  outcome_spec (mainline_sort fetch_event fuel to_sort resolved pf)
    (fun s => NoDup s /\ (to_sort = [] \/ exists mainline, mainline_from resolved mainline /\
       (forall n, n ∈ s <-> n ∈ to_sort /\ exists e a, mainline_place mainline n e a) /\
       (forall i j n n' e e' a a', s !! i = Some n -> s !! j = Some n' -> i < j ->
          mainline_place mainline n e a -> mainline_place mainline n' e' a' ->
          a' < a \/ a = a' /\ cmp (origin_server_ts e, n) (origin_server_ts e', n') = Lt)))
    missing_event.
Proof.
  intros Hf. eapply outcome_spec_mono; [by apply mainline_sort_spec| |done]. cbn.
  intros s. destruct (decide (to_sort = [])); [intros ->; split; [constructor|by left]|].
  intros (mainline & M & S). destruct (mainline_sorted_inv _ _ _ _ M S) as (Hd & He & Ho).
  split; [done|right]. exists mainline. split_and!; [done| |].
  - intros n'. rewrite He. by setoid_rewrite place_key_ex.
  - intros i j x y e e' p p' Hi Hj Hij Hx Hy.
    eapply places_ordered, Ho; [exact Hx|exact Hy|exact Hi|exact Hj|exact Hij|by apply place_key..].
Qed.

(** The mainline order is determined by the events: two runs that succeed
    return the same list, whatever the order in which the fetches complete,
    the iteration order of the order map, the number of parallel fetches and
    the (sufficient) fuel. *)
Theorem mainline_sort_deterministic (sched1 sched2 : Schedule) fuel1 fuel2 to_sort resolved pf1 pf2 s1 s2 :
  (forall n, n ∈ to_sort \/ resolved = Some n -> rank n < fuel1 `min` fuel2) ->
  mainline_sort (sched := sched1) fetch_event fuel1 to_sort resolved pf1 = Done s1 ->
  mainline_sort (sched := sched2) fetch_event fuel2 to_sort resolved pf2 = Done s2 -> s1 = s2.
Proof.
  intros Hf E1 E2.
  pose proof (mainline_sort_spec (sched := sched1) fuel1 to_sort resolved pf1) as S1.
  pose proof (mainline_sort_spec (sched := sched2) fuel2 to_sort resolved pf2) as S2.
  rewrite E1 in S1. rewrite E2 in S2.
  specialize (S1 ltac:(intros n Hn; specialize (Hf n Hn); lia)).
  specialize (S2 ltac:(intros n Hn; specialize (Hf n Hn); lia)). cbn in S1, S2.
  destruct (decide (to_sort = [])); [congruence|].
  destruct S1 as (m1 & M1 & K1), S2 as (m2 & M2 & K2).
  rewrite <- (mainline_from_unique _ _ _ M1 M2) in K2. by eapply mainline_sorted_unique.
Qed.

End mainline_spec.

(** ** Witnesses *)

(** A second power levels event of the small room, and a topic set under each. *)
Definition ev_levels2 := toy_event "$levels2" "@alice:a" 7 RoomPowerLevels "levels, carol 50" (Some "")
  ["$eve"] ["$create"; "$alice"; "$levels"].
Definition ev_topic1 := toy_event "$topic1" "@alice:a" 9 (OtherType "m.room.topic") "one" (Some "")
  ["$carol"] ["$create"; "$alice"; "$levels"].
Definition ev_topic2 := toy_event "$topic2" "@alice:a" 8 (OtherType "m.room.topic") "two" (Some "")
  ["$levels2"] ["$create"; "$alice"; "$levels2"].

Definition toy_events2 : gmap string Event :=
  <["$levels2" := ev_levels2]> (<["$topic1" := ev_topic1]> (<["$topic2" := ev_topic2]> toy_events)).
Definition toy_get2 (id : string) : option Event := toy_events2 !! id.
Definition toy_rank (n : string) : nat :=
  Z.to_nat (from_option origin_server_ts 20%Z (toy_get2 n)).

Lemma toy_ranked : ranked toy_get2 toy_rank.
Proof.
  intros n e a E Ha.
  assert (map_Forall (fun n e => Forall (fun a => toy_rank a < toy_rank n) (auth_events e)) toy_events2)
    as F by (apply (bool_decide_unpack _); by vm_compute).
  specialize (F n e E). rewrite Forall_forall in F. auto.
Qed.

Lemma toy_rank_bound n : toy_rank n < 21.
Proof.
  unfold toy_rank, toy_get2. destruct (toy_events2 !! n) as [e|] eqn:E; cbn; [|lia].
  assert (map_Forall (fun _ e => Z.to_nat (origin_server_ts e) < 21) toy_events2)
    as F by (apply (bool_decide_unpack _); by vm_compute). exact (F n e E).
Qed.

Lemma mainline_sort_correct_witness :
  outcome_spec (mainline_sort (sched := reversed) toy_get2 21 ["$topic2"; "$topic1"] (Some "$levels2") 4)
    (fun s => NoDup s) (missing_event toy_get2) /\
  mainline_sort (sched := reversed) toy_get2 21 ["$topic2"; "$topic1"] (Some "$levels2") 4 =
    Done ["$topic1"; "$topic2"].
Proof.
  split; [|by vm_compute].
  eapply outcome_spec_mono; [apply (mainline_sort_correct toy_get2 toy_rank toy_ranked)| |done].
  - intros n _. apply toy_rank_bound.
  - cbn. by intros s [? _].
Defined.

Lemma mainline_sort_deterministic_witness : ["$topic1"; "$topic2"] = ["$topic1"; "$topic2"].
Proof.
  apply (mainline_sort_deterministic toy_get2 toy_rank toy_ranked in_order reversed 21 30
           ["$topic2"; "$topic1"] (Some "$levels2") 1 4).
  - intros n _. pose proof (toy_rank_bound n). cbn. lia.
  - by vm_compute.
  - by vm_compute.
Defined.

(** ** The direction of the depth *)

(** The newest power levels event of the mainline has the largest depth
    and the oldest has depth 0 (the comment on [mainline_sort] has it the other
    way round). *)
Theorem newest_power_event_is_deepest (fetch_event : string -> option Event) rank resolved mainline :
  ranked fetch_event rank -> mainline_from fetch_event (Some resolved) mainline ->
  mainline_map mainline !! resolved = Some (length mainline - 1) /\
  forall oldest, last mainline = Some oldest -> mainline_map mainline !! oldest = Some 0.
Proof.
  intros Hr M. pose proof (mainline_from_NoDup _ _ Hr _ _ M) as Hnd. split.
  - apply (lookup_mainline_map mainline _ _ Hnd). inversion M; subst. exists 0. split; [done|]. cbn. lia.
  - intros o Ho. apply (lookup_mainline_map mainline _ _ Hnd). rewrite last_lookup in Ho.
    exists (pred (length mainline)). split; [done|]. lia.
Qed.

Lemma newest_power_event_is_deepest_witness :
  mainline_map ["$levels2"; "$levels"] !! "$levels2" = Some 1.
Proof.
  apply (newest_power_event_is_deepest toy_get2 toy_rank "$levels2" ["$levels2"; "$levels"] toy_ranked).
  apply (mainline_next _ _ ev_levels2 (Some ("$levels", ev_levels))); [by vm_compute..|].
  apply (mainline_next _ _ ev_levels None); [by vm_compute..|]. constructor.
Defined.
