(* ===== verification/StateRes.v ===== *)
(** * State resolution

    Models [iterative_auth_check] and [resolve] of
    [src/core/matrix/state_res/mod.rs], which put together the separation of
    the conflicted state, the two sorts and the authorization rules. *)

From stdpp Require Import prelude gmap strings list.
From Stdlib Require Import ZArith Lia.
From S2P Require Import Prelude Matrix ToyRuma EventAuth Conflicts AuthGraph Mainline.

Section state_res.
Context `{Ruma} {sched : Schedule}.
Context (fetch_event : string -> option Event) (event_exists : string -> bool).

Definition no_state_key : Error := InvalidPdu "State event had no state key".

(** [ev.event_type().with_state_key(key)] *)
Definition with_state_key (ty : EventType) (key : string) : TypeStateKey := (ty, key).

(** The map of the auth events of all events to check. *)
Definition auth_event_map (events : list Event) (parallel_fetches : nat) : gmap string Event :=
  let auth_event_ids : gset string := list_to_set (mjoin (auth_events <$> events)) in
  collect_map ((fun auth_event => (event_id auth_event, auth_event)) <$>
    omap id (buffer_unordered "auth events" parallel_fetches
      (fetch_event <$> reorder "auth event ids" (elements auth_event_ids)))).

(** The first loop over an event's auth events. *)
Definition insert_auth_event (auth_map : gmap string Event) (auth_state : StateMap Event)
    (aid : string) : outcome Error (StateMap Event) :=
  match auth_map !! aid with
  | Some ev =>
      key ← ok_or no_state_key (state_key ev);
      Done (<[with_state_key (event_type ev) key := ev]> auth_state)
  | None => Done auth_state
  end.

(** The events of the resolved state that the event's auth types name. *)
Definition insert_resolved (auth_map : gmap string Event) (resolved_state : StateMap string)
    (auth_state : StateMap Event) (key : TypeStateKey) : StateMap Event :=
  match resolved_state !! key with
  | None => auth_state
  | Some ev_id =>
      match auth_map !! ev_id with
      | Some event => <[key := event]> auth_state
      | None =>
          match fetch_event ev_id with
          | Some event => <[key := event]> auth_state
          | None => auth_state
          end
      end
  end.

Definition current_third_party (auth_state : StateMap Event) : option Event :=
  snd <$> list_find (fun pdu => event_type pdu = RoomThirdPartyInvite)
            (reorder "auth state" (map_to_list auth_state)).*2.

(** One event of the loop. *)
Definition check_event (room_version : RoomVersion) (auth_map : gmap string Event)
    (resolved_state : StateMap string) (event : Event) : outcome Error (StateMap string) :=
  sk ← ok_or no_state_key (state_key event);
  auth_types ← auth_types_for_event (event_type event) (sender event) (Some sk) (content event);
  auth_state ← try_fold (insert_auth_event auth_map) ∅ (auth_events event);
  let auth_state := foldl (insert_resolved auth_map resolved_state) auth_state auth_types in
  ok ← auth_check room_version event (current_third_party auth_state)
         (fun ty key => auth_state !! with_state_key ty key);
  Done (if ok : bool then <[with_state_key (event_type event) sk := event_id event]> resolved_state
        else resolved_state).

Definition iterative_auth_check (room_version : RoomVersion) (events_to_check : list string)
    (unconflicted_state : StateMap string) (parallel_fetches : nat)
    : outcome Error (StateMap string) :=
  events_to_check ←
    try_map (fun event_id => ok_or (failed_to_find event_id) (fetch_event event_id))
      (buffer_unordered "events to check" parallel_fetches events_to_check);
  let auth_map := auth_event_map events_to_check parallel_fetches in
  try_fold (check_event room_version auth_map) unconflicted_state events_to_check.

(** The full conflicted set. *)
Definition full_conflicted_set (auth_chain_sets : list (gset string))
    (conflicting : StateMap (list string)) : gset string :=
  list_to_set (filter (fun id => event_exists id = true)
    (get_auth_chain_diff auth_chain_sets ++ mjoin (map_to_list conflicting).*2)).

Definition resolve (fuel : nat) (room_version : RoomVersionId)
    (state_sets : list (StateMap string)) (auth_chain_sets : list (gset string))
    (parallel_fetches : nat) : outcome Error (StateMap string) :=
  let '(clean, conflicting) := separate state_sets in
  if decide (conflicting = ∅) then Done clean else
  let all_conflicted := full_conflicted_set auth_chain_sets conflicting in
  let control_events :=
    filter (fun id => is_power_event_id fetch_event id = true)
      (buffer_unordered "control events" parallel_fetches
         (reorder "all conflicted" (elements all_conflicted))) in
  sorted_control_levels ←
    reverse_topological_power_sort fetch_event control_events all_conflicted parallel_fetches;
  room_version ← room_version_new room_version;
  resolved_control ←
    iterative_auth_check room_version sorted_control_levels clean parallel_fetches;
  let events_to_resolve :=
    filter (fun id => id ∉ sorted_control_levels)
      (reorder "all conflicted" (elements all_conflicted)) in
  let power_event := resolved_control !! (RoomPowerLevels, "") in
  sorted_left_events ←
    mainline_sort fetch_event fuel events_to_resolve power_event parallel_fetches;
  resolved_state ←
    iterative_auth_check room_version sorted_left_events resolved_control parallel_fetches;
  Done (clean ∪ resolved_state).

End state_res.

(** ** Soundness *)

Lemma insert_auth_events (auth_map : gmap string Event) aids st :
  try_fold (insert_auth_event auth_map) ∅ aids = Done st ->
  forall k e, st !! k = Some e ->
    exists a, a ∈ aids /\ auth_map !! a = Some e /\ event_type e = k.1 /\ state_key e = Some k.2.
Proof.
  intros E. eapply (try_fold_inv _ (fun l (st : StateMap Event) => forall k e, st !! k = Some e ->
    exists a, a ∈ l /\ auth_map !! a = Some e /\ event_type e = k.1 /\ state_key e = Some k.2)); [exact E|..].
  - intros k e. by rewrite lookup_empty.
  - intros l a s s' IH Ha k e Hk. unfold insert_auth_event in Ha.
    destruct (auth_map !! a) as [ev|] eqn:Hm.
    + bind_inv Ha. apply ok_or_Done in Ha0. injection Ha as <-.
      rewrite lookup_insert in Hk. case_decide as D; simplify_eq.
      * exists a. unfold with_state_key. cbn. set_solver.
      * destruct (IH k e Hk) as (b & ? & ?). exists b. set_solver.
    + injection Ha as <-. destruct (IH k e Hk) as (b & ? & ?). exists b. set_solver.
Qed.

Section soundness.
Context `{Ruma} (fetch_event : string -> option Event) (event_exists : string -> bool).
Implicit Types (k : TypeStateKey) (id x : string) (e ev : Event).

(** [fetch_event] returns the event that was asked for. *)
Definition fetch_ids : Prop := forall n e, fetch_event n = Some e -> event_id e = n.

(** An entry of the resolved state: it is unconflicted, or a fetched event of
    the conflicted set that passes the authorization rules against a state
    made of its own auth events and of resolved entries. *)
Inductive resolved_entry (rv : RoomVersion) (clean : StateMap string) (conflicted : string -> Prop)
  : TypeStateKey -> string -> Prop :=
| entry_clean k id : clean !! k = Some id -> resolved_entry rv clean conflicted k id
| entry_checked x ev sk tpi fs :
    conflicted x -> fetch_event x = Some ev -> state_key ev = Some sk ->
    auth_check rv ev tpi fs = Done true ->
    (forall ty key e, fs ty key = Some e ->
       (exists a, a ∈ auth_events ev /\ fetch_event a = Some e /\
          event_type e = ty /\ state_key e = Some key) \/
       (exists id', resolved_entry rv clean conflicted (ty, key) id' /\ fetch_event id' = Some e)) ->
    resolved_entry rv clean conflicted (event_type ev, sk) x.

Lemma insert_resolved_lookup (auth_map : gmap string Event) resolved auth_types st k e :
  (forall a e, auth_map !! a = Some e -> fetch_event a = Some e) ->
  foldl (insert_resolved fetch_event auth_map resolved) st auth_types !! k = Some e ->
  st !! k = Some e \/ exists id, resolved !! k = Some id /\ fetch_event id = Some e.
Proof.
  intros Hm. revert st. induction auth_types as [|t l IH]; intros st; cbn [foldl]; [by left|].
  intros [Hk|?]%IH; [|by right]. unfold insert_resolved in Hk.
  destruct (resolved !! t) as [id|] eqn:Hr; [|by left].
  destruct (auth_map !! id) as [ev|] eqn:E; [apply Hm in E|destruct (fetch_event id) eqn:E'; [|by left]];
    rewrite lookup_insert in Hk; (case_decide; [subst|by left]); right; exists id; simplify_eq; eauto.
Qed.

(** What one step of the loop does: nothing, or it adds an accepted event. *)
Definition supported ev (resolved : StateMap string) (fs : EventType -> string -> option Event) : Prop :=
  forall ty key e, fs ty key = Some e ->
    (exists a, a ∈ auth_events ev /\ fetch_event a = Some e /\
       event_type e = ty /\ state_key e = Some key) \/
    (exists id, resolved !! (ty, key) = Some id /\ fetch_event id = Some e).

Lemma check_event_inv {sched : Schedule} rv auth_map resolved ev st :
  (forall a e, auth_map !! a = Some e -> fetch_event a = Some e) ->
  check_event fetch_event rv auth_map resolved ev = Done st ->
  st = resolved \/ exists sk tpi fs, state_key ev = Some sk /\ auth_check rv ev tpi fs = Done true /\
    supported ev resolved fs /\ st = <[(event_type ev, sk) := event_id ev]> resolved.
Proof.
  intros Hm E. unfold check_event in E. bind_inv E. apply ok_or_Done in E0.
  bind_inv E. bind_inv E. bind_inv E. injection E as <-. destruct a2; [right|by left].
  eexists _, _, _. split_and!; [done|done| |done].
  intros ty key e Hk. apply insert_resolved_lookup in Hk as [Hk|?]; [left|by right|done].
  destruct (insert_auth_events _ _ _ E2 _ _ Hk) as (b & ? & ? & ? & ?). exists b. split_and!; auto.
Qed.

Lemma try_map_Forall2 {E A B} (f : A -> outcome E B) l bs :
  try_map f l = Done bs -> Forall2 (fun a b => f a = Done b) l bs.
Proof.
  revert bs. induction l as [|a l IH]; cbn; intros bs Hb; [by injection Hb as <-|].
  bind_inv Hb. bind_inv Hb. injection Hb as <-. constructor; auto.
Qed.

Lemma fetched_all ids events :
  try_map (fun n => ok_or (failed_to_find n) (fetch_event n)) ids = Done events ->
  forall ev, ev ∈ events -> exists n, n ∈ ids /\ fetch_event n = Some ev.
Proof.
  intros F%try_map_Forall2 ev Hev. apply list_elem_of_lookup in Hev as [i Hi].
  destruct (Forall2_lookup_r _ _ _ _ _ F Hi) as (n & Hn & E). apply ok_or_Done in E.
  exists n. split; [by eapply list_elem_of_lookup_2|done].
Qed.

(** The full conflicted set: events the server has that are disputed between
    the state sets or in the difference of the auth chains. *)
Definition in_conflict (state_sets : list (StateMap string)) (auth_chain_sets : list (gset string)) x : Prop :=
  event_exists x = true /\
  ((exists k, disputed state_sets k x) \/
   exists s1 s2, s1 ∈ auth_chain_sets /\ s2 ∈ auth_chain_sets /\ x ∈ s1 /\ x ∉ s2).

Lemma elem_of_full_conflicted {sched : Schedule} state_sets auth_chain_sets x :
  x ∈ full_conflicted_set event_exists auth_chain_sets (separate state_sets).2 <->
  in_conflict state_sets auth_chain_sets x.
Proof.
  unfold full_conflicted_set, in_conflict.
  rewrite elem_of_list_to_set, list_elem_of_filter, elem_of_app.
  rewrite elem_of_get_auth_chain_diff, !Exists_exists. apply and_iff_compat_l.
  assert (x ∈ mjoin (map_to_list (separate state_sets).2).*2 <->
            exists k, disputed state_sets k x) as ->; [|naive_solver].
  setoid_rewrite <- separate_conflicted. rewrite list_elem_of_join. split.
  - intros (ids & Hx & ([k l] & -> & Hk%elem_of_map_to_list)%list_elem_of_fmap).
    exists k. by rewrite Hk.
  - intros (k & Hx). destruct ((separate state_sets).2 !! k) as [l|] eqn:Hk; [|by apply not_elem_of_nil in Hx].
    exists l. split; [done|]. apply list_elem_of_fmap. exists (k, l).
    split; [done|]. by apply elem_of_map_to_list.
Qed.

Lemma power_sort_subset {sched : Schedule} roots auth_diff pf s :
  reverse_topological_power_sort fetch_event roots auth_diff pf = Done s ->
  (forall r, r ∈ roots -> r ∈ auth_diff) -> forall n, n ∈ s -> n ∈ auth_diff.
Proof.
  intros E Hr n Hn. pose proof (power_sort_spec fetch_event pf auth_diff roots) as S.
  rewrite E in S. destruct S as (graph & G & Hg).
  destruct (TopoSort.greedy_prefix_edges _ graph s n (proj1 Hg) Hn) as [Hd _].
  apply (graph_exact_dom _ _ _ _ _ G) in Hd as (r & Hroot & Hrtc).
  apply rtc_inv_r in Hrtc as [<-|(m & _ & [_ ?])]; auto.
Qed.

(** The steps of a successful [resolve]. *)
Lemma resolve_inv {sched : Schedule} fuel ver state_sets auth_chain_sets pf st :
  let clean := (separate state_sets).1 in
  let conf := in_conflict state_sets auth_chain_sets in
  resolve fetch_event event_exists fuel ver state_sets auth_chain_sets pf = Done st ->
  st = clean \/
  exists rv control rest st1 st2,
    room_version_new ver = Done rv /\
    (forall n, n ∈ control ++ rest -> conf n) /\
    iterative_auth_check fetch_event rv control clean pf = Done st1 /\
    iterative_auth_check fetch_event rv rest st1 pf = Done st2 /\ st = clean ∪ st2.
Proof.
  cbn zeta. unfold resolve. pose proof (elem_of_full_conflicted state_sets auth_chain_sets) as Hconf.
  destruct (separate state_sets) as [clean conflicting]. cbn [fst snd] in *.
  case_decide; [intros [= <-]; by left|]. intros E.
  bind_inv E. bind_inv E. bind_inv E. bind_inv E. bind_inv E. injection E as <-. right.
  eexists _, _, _, _, _. split_and!; [done| |done..].
  intros n [Hn|Hn]%elem_of_app; apply Hconf.
  - eapply power_sort_subset; [exact E0| |done].
    intros r [_ Hr]%list_elem_of_filter. rewrite buffer_unordered_perm, elem_of_reorder in Hr.
    by apply elem_of_elements.
  - apply (mainline_sort_subset _ _ _ _ _ _ E3), list_elem_of_filter in Hn as [_ Hn].
    by rewrite elem_of_reorder, elem_of_elements in Hn.
Qed.

Hypothesis Hids : fetch_ids.

Lemma auth_map_fetch {sched : Schedule} events pf a e :
  auth_event_map fetch_event events pf !! a = Some e -> fetch_event a = Some e.
Proof.
  intros (e' & [= -> ->] & Hin)%collect_map_elem%list_elem_of_fmap.
  apply list_elem_of_omap in Hin as (o & Ho & Eo). cbn in Eo. subst o.
  rewrite buffer_unordered_perm in Ho. apply list_elem_of_fmap in Ho as (a & Ea & _).
  symmetry in Ea. by rewrite (Hids _ _ Ea).
Qed.

Lemma iterative_sound {sched : Schedule} rv ids clean conflicted st st' pf :
  (forall n, n ∈ ids -> conflicted n) ->
  (forall k id, st !! k = Some id -> resolved_entry rv clean conflicted k id) ->
  iterative_auth_check fetch_event rv ids st pf = Done st' ->
  forall k id, st' !! k = Some id -> resolved_entry rv clean conflicted k id.
Proof.
  intros Hc Hst E. unfold iterative_auth_check in E. bind_inv E. pose proof (fetched_all _ _ E0) as Hev.
  apply (try_fold_inv _ (fun l (st : StateMap string) => (forall ev, ev ∈ l -> ev ∈ a) ->
     forall k id, st !! k = Some id -> resolved_entry rv clean conflicted k id) _ _ _ E); [done| |done].
  intros l ev s s' IH Hs Hl k id Hk. assert (forall e, e ∈ l -> e ∈ a) as Hl' by set_solver.
  destruct (Hev ev) as (n & Hn & En); [set_solver|]. rewrite buffer_unordered_perm in Hn.
  apply check_event_inv in Hs as [->|(sk & tpi & fs & Hsk & Ha & Hsup & ->)];
    [by apply IH|idtac|by intros ? ? ?%auth_map_fetch].
  rewrite lookup_insert in Hk. case_decide; [subst k|by apply IH]. injection Hk as <-.
  rewrite (Hids _ _ En). eapply entry_checked; [by apply Hc|done..|].
  intros ty key e [?|(id' & ? & ?)]%Hsup; [by left|right; eauto].
Qed.

Lemma resolve_entries {sched : Schedule} fuel ver rv state_sets auth_chain_sets pf st k id :
  room_version_new ver = Done rv ->
  resolve fetch_event event_exists fuel ver state_sets auth_chain_sets pf = Done st ->
  st !! k = Some id ->
  resolved_entry rv (separate state_sets).1 (in_conflict state_sets auth_chain_sets) k id.
Proof.
  intros Hrv [->|(rv' & control & rest & st1 & st2 & Hrv' & Hc & E1 & E2 & ->)]%resolve_inv Hk;
    [by constructor|].
  rewrite Hrv in Hrv'. injection Hrv' as <-.
  apply lookup_union_Some_raw in Hk as [?|[_ Hk]]; [by constructor|].
  eapply (iterative_sound rv rest _ _ st1); [..|exact E2|exact Hk].
  - intros n Hn. apply Hc. set_solver.
  - eapply iterative_sound; [..|exact E1]; [intros n Hn; apply Hc; set_solver|].
    intros. by constructor.
Qed.

End soundness.

(** ** Totality *)

Section totality.
Context `{Ruma} (fetch_event : string -> option Event) (event_exists : string -> bool).

(** The events under a state key have its type, and member and create events
    have the fields the authorization rules read without a check. *)
Definition typed_state (st : StateMap string) : Prop :=
  forall k id e, st !! k = Some id -> fetch_event id = Some e -> event_type e = k.1.

Definition contents_ok (rv : RoomVersion) : Prop :=
  forall n e, fetch_event n = Some e ->
    (event_type e = RoomMember -> forall f,
       de_RoomMemberContentFields (content e) = Some f -> membership f <> None) /\
    (event_type e = RoomCreate -> use_room_create_sender rv = false ->
       de_RoomCreateEventContent (content e) <> Some None).

Hypothesis Hids : fetch_ids fetch_event.

Lemma supported_state_ok rv ev resolved fs :
  contents_ok rv -> typed_state resolved -> supported fetch_event ev resolved fs -> state_ok rv ev fs.
Proof.
  intros Hc Ht Hs. assert (forall ty key e, fs ty key = Some e ->
    exists n, fetch_event n = Some e /\ event_type e = ty) as F.
  { intros ty key e [(a & _ & ? & ? & _)|(id & Hid & ?)]%Hs; [by exists a|].
    exists id. split; [done|]. by eapply (Ht (ty, key)). }
  split.
  - intros mem f (n & Hn & Hty)%F. by apply (Hc n mem Hn).
  - intros Hv c (n & Hn & Hty)%F. by apply (Hc n c Hn).
Qed.

Lemma insert_auth_total auth_map aids st :
  total (try_fold (insert_auth_event auth_map) st aids).
Proof.
  revert st. induction aids as [|a aids IH]; intros st; [done|]. cbn. apply total_bind; [|auto].
  unfold insert_auth_event. total_tac.
Qed.

Lemma check_event_spec {sched : Schedule} rv auth_map resolved n ev :
  contents_ok rv -> typed_state resolved -> fetch_event n = Some ev ->
  (forall a e, auth_map !! a = Some e -> fetch_event a = Some e) ->
  outcome_spec (check_event fetch_event rv auth_map resolved ev) typed_state (fun _ => True).
Proof.
  intros Hc Ht Hn Hm.
  assert (total (check_event fetch_event rv auth_map resolved ev)) as T.
  { unfold check_event. apply total_bind; [apply total_ok_or|intros sk Hsk].
    apply total_bind; [unfold auth_types_for_event; total_tac|intros types _].
    apply total_bind; [apply insert_auth_total|intros st Hst].
    apply total_bind; [|done]. eapply auth_check_total, supported_state_ok; [done..|].
    intros ty key e Hk. apply insert_resolved_lookup in Hk as [Hk|?]; [left|by right|done].
    destruct (insert_auth_events _ _ _ Hst _ _ Hk) as (b & ? & ? & ? & ?). exists b. split_and!; auto. }
  destruct (check_event fetch_event rv auth_map resolved ev) as [st| | |] eqn:E; try done. cbn.
  apply check_event_inv in E as [->|(sk & tpi & fs & Hsk & _ & _ & ->)]; [done| |done].
  intros k id e Hk He. rewrite lookup_insert in Hk. case_decide; [subst k|by eapply Ht].
  injection Hk as <-. rewrite (Hids _ _ Hn) in He. cbn. congruence.
Qed.

Lemma try_map_spec {E A B} (f : A -> outcome E B) (P : B -> Prop) Q l :
  (forall a, outcome_spec (f a) P Q) -> outcome_spec (try_map f l) (Forall P) Q.
Proof.
  intros Hf. induction l as [|a l IH]; cbn [try_map]; [by constructor|].
  eapply outcome_spec_bind; [apply Hf|intros b Hb]. eapply outcome_spec_bind; [exact IH|].
  intros bs Hbs. by constructor.
Qed.

Lemma iterative_total {sched : Schedule} rv ids st pf :
  contents_ok rv -> typed_state st ->
  outcome_spec (iterative_auth_check fetch_event rv ids st pf) typed_state (fun _ => True).
Proof.
  intros Hc Ht. unfold iterative_auth_check. eapply outcome_spec_bind.
  { apply (try_map_spec _ (fun ev => exists n, fetch_event n = Some ev)).
    intros n. destruct (fetch_event n) eqn:E; cbn; eauto. }
  cbn. intros events Hev. rewrite Forall_forall in Hev.
  apply (try_fold_spec _ (fun _ => typed_state)); [done|]. intros pre ev post s E Hs.
  destruct (Hev ev) as [n Hn]; [rewrite E; set_solver|]. eapply check_event_spec; [done..|].
  intros ? ? ?. by eapply auth_map_fetch.
Qed.

Lemma separate_typed {sched : Schedule} state_sets :
  state_sets <> [] -> (forall s, s ∈ state_sets -> typed_state s) ->
  typed_state (separate state_sets).1.
Proof.
  intros Hne Hs k id e Hk. apply separate_clean in Hk; [|done].
  destruct state_sets as [|s l]; [done|]. apply Forall_cons in Hk as [Hk _].
  eapply Hs; [|exact Hk]. set_solver.
Qed.

Lemma resolve_spec {sched : Schedule} rank fuel ver state_sets auth_chain_sets pf :
  ranked fetch_event rank -> (forall n, rank n < fuel) ->
  (forall rv, room_version_new ver = Done rv -> contents_ok rv) ->
  state_sets <> [] -> (forall s, s ∈ state_sets -> typed_state s) ->
  outcome_spec (resolve fetch_event event_exists fuel ver state_sets auth_chain_sets pf)
    (fun _ => True) (fun _ => True).
Proof.
  intros Hr Hf Hc Hne Hs. unfold resolve. pose proof (separate_typed state_sets Hne Hs) as Ht.
  destruct (separate state_sets) as [clean conflicting]. cbn in Ht. case_decide; [done|].
  eapply outcome_spec_bind; [|intros control _].
  { eapply outcome_spec_mono; [apply power_sort_spec|done..]. }
  eapply outcome_spec_bind; [|intros rv Hrv].
  { instantiate (1 := fun rv => room_version_new ver = Done rv). by destruct ver. }
  eapply outcome_spec_bind; [apply iterative_total; auto|intros st1 Ht1].
  eapply outcome_spec_bind; [|intros rest _].
  { eapply outcome_spec_mono; [by eapply mainline_sort_spec|done..]. }
  eapply outcome_spec_bind; [apply iterative_total; auto|done].
Qed.

End totality.

(** ** A small fork

    Both sides of the fork share the small room's state; one has its topic set
    under the first power levels event, the other has a second power levels
    event and a topic set under it. *)

Definition toy_base : StateMap string := list_to_map (prod_map id event_id <$> toy_state).
Definition topic_key : TypeStateKey := (OtherType "m.room.topic", "").
Definition fork1 : StateMap string := <[topic_key := "$topic1"]> toy_base.
Definition fork2 : StateMap string :=
  <[topic_key := "$topic2"]> (<[(RoomPowerLevels, "") := "$levels2"]> toy_base).
Definition chain1 : gset string := {["$create"; "$alice"; "$levels"]}.
Definition chain2 : gset string := {["$create"; "$alice"; "$levels"; "$levels2"]}.

(** Both topics under one power levels event. *)
Definition ev_topic3 := toy_event "$topic3" "@alice:a" 12 (OtherType "m.room.topic") "three" (Some "")
  ["$carol"] ["$create"; "$alice"; "$levels"].
Definition toy_get3 (id : string) : option Event := (<["$topic3" := ev_topic3]> toy_events2) !! id.
Definition fork3 : StateMap string := <[topic_key := "$topic3"]> toy_base.

(** Fetches complete in the order they were started, except that those of the
    events to check complete in the opposite order. *)
Program Definition late_fetch : Schedule :=
  {| reorder := fun _ site l => if decide (site = "events to check") then reverse l else l |}.
Next Obligation. intros A site l. cbn. case_decide; [apply reverse_Permutation|done]. Qed.

Definition resolve3 (sched : Schedule) (parallel_fetches : nat) : outcome Error (StateMap string) :=
  resolve (H := toy_ruma) (sched := sched) toy_get3 (fun id => bool_decide (is_Some (toy_get3 id)))
    30 IdV10 [fork1; fork3] [] parallel_fetches.

(** ** Claims *)

Section claims.
Context `{Ruma} (fetch_event : string -> option Event) (event_exists : string -> bool).

(** C10. Resolution never changes what the forks agree on: an entry that every
    state set has is in the resolved state. *)
Theorem resolve_keeps_agreed {sched : Schedule} fuel ver state_sets auth_chain_sets pf st k id :
  state_sets <> [] ->
  resolve fetch_event event_exists fuel ver state_sets auth_chain_sets pf = Done st ->
  (forall s, s ∈ state_sets -> s !! k = Some id) -> st !! k = Some id.
Proof.
  intros Hne E Ha. assert ((separate state_sets).1 !! k = Some id) as Hk
    by by apply separate_clean, Forall_forall.
  apply resolve_inv in E as [->|(rv & c & r & st1 & st2 & _ & _ & _ & _ & ->)]; [done|].
  by apply lookup_union_Some_l.
Qed.

(** When all state sets are one and the same, the resolved state is that
    state: whatever the room version, the auth chains and the fetches. *)
Theorem resolve_of_equal_sets {sched : Schedule} fuel ver state_sets auth_chain_sets pf st :
  state_sets <> [] -> (forall s, s ∈ state_sets -> s = st) ->
  resolve fetch_event event_exists fuel ver state_sets auth_chain_sets pf = Done st.
Proof.
  intros Hne Hs. assert (forall k id, (separate state_sets).1 !! k = Some id <-> st !! k = Some id) as Hc.
  { intros k id. rewrite separate_clean by done. unfold agreed. rewrite Forall_forall. split.
    - destruct state_sets as [|s l]; [done|]. intros F. rewrite <- (Hs s) by set_solver.
      apply F. set_solver.
    - intros Hk s ->%Hs. done. }
  assert ((separate state_sets).2 = ∅) as Hd.
  { apply map_eq. intros k. rewrite lookup_empty.
    destruct ((separate state_sets).2 !! k) as [ids|] eqn:E; [exfalso|done].
    pose proof (separate_conflicted_nonempty _ _ _ E) as Hn. destruct ids as [|x ids]; [done|].
    assert (disputed state_sets k x) as [H1 H2] by (apply separate_conflicted; rewrite E; set_solver).
    apply Exists_exists in H1 as (s1 & -> %Hs & H1). apply Exists_exists in H2 as (s2 & ->%Hs & H2).
    done. }
  unfold resolve. destruct (separate state_sets) as [clean conflicting]. cbn in *.
  rewrite decide_True by done. f_equal. apply map_eq. intros k. apply option_eq. intros id. apply Hc.
Qed.

(** C1. Every entry of the resolved state is one all sets agree on, or an event
    of the full conflicted set (disputed between the sets or in the auth chain
    difference, and known to the server), filed under its own type and state
    key, that was accepted by the authorization rules against a state made
    only of its own auth events and of entries for which the same holds. *)
Theorem resolve_sound {sched : Schedule} fuel ver rv state_sets auth_chain_sets pf st k id :
  fetch_ids fetch_event -> state_sets <> [] -> room_version_new ver = Done rv ->
  resolve fetch_event event_exists fuel ver state_sets auth_chain_sets pf = Done st ->
  st !! k = Some id ->
  (forall s, s ∈ state_sets -> s !! k = Some id) \/
  in_conflict event_exists state_sets auth_chain_sets id /\
  exists ev tpi fs, fetch_event id = Some ev /\ event_type ev = k.1 /\ state_key ev = Some k.2 /\
    auth_check rv ev tpi fs = Done true /\
    forall ty key e, fs ty key = Some e ->
      (exists a, a ∈ auth_events ev /\ fetch_event a = Some e) \/
      (exists id', fetch_event id' = Some e /\
         resolved_entry fetch_event rv (separate state_sets).1
           (in_conflict event_exists state_sets auth_chain_sets) (ty, key) id').
Proof.
  intros Hids Hne Hrv E Hk. pose proof (resolve_entries _ _ Hids _ _ _ _ _ _ _ _ _ Hrv E Hk) as R.
  destruct R as [k id Hc|x ev sk tpi fs Hx Hev Hsk Ha Hs].
  - left. apply separate_clean in Hc; [|done]. by apply Forall_forall.
  - right. split; [done|]. exists ev, tpi, fs. split_and!; [done..|].
    intros ty key e [(a & ? & ? & _)|(id' & ? & ?)]%Hs; [left; eauto|right; eauto].
Qed.

(** C21. Resolution terminates and does not panic: for auth events without
    cycles (a rank below [fuel] decreases along them), when a fetched event has the
    id it was fetched by, for at least one state set, whose entries have the type
    of their key, and when member events state a membership and create events of
    versions before 11 a creator, [resolve] returns a state or an error. *)
Theorem resolve_no_panic {sched : Schedule} rank fuel ver state_sets auth_chain_sets pf :
  fetch_ids fetch_event -> ranked fetch_event rank -> (forall n, rank n < fuel) ->
  (forall rv, room_version_new ver = Done rv -> contents_ok fetch_event rv) ->
  state_sets <> [] -> (forall s, s ∈ state_sets -> typed_state fetch_event s) ->
  outcome_spec (resolve fetch_event event_exists fuel ver state_sets auth_chain_sets pf)
    (fun _ => True) (fun _ => True).
Proof. intros. by eapply resolve_spec. Qed.

End claims.

(** The resolved state depends on the order in which concurrent fetches
    complete: with more than one fetch in flight, two runs on the same two
    state sets, events and auth chains return different states, because
    [try_buffer_unordered] hands the sorted events to the authorization loop
    in completion order.  With one fetch at a time the order is kept. *)
Theorem resolve_depends_on_fetch_order :
  exists s1 s2, resolve3 in_order 4 = Done s1 /\ resolve3 late_fetch 4 = Done s2 /\
    s1 !! topic_key = Some "$topic3" /\ s2 !! topic_key = Some "$topic1" /\
    resolve3 late_fetch 1 = Done s1.
Proof.
  exists fork3, fork1. split_and!; [apply returns_Done|apply returns_Done| | |apply returns_Done];
    vm_compute; reflexivity.
Qed.

(** ** Witnesses *)

Definition resolve2 (sched : Schedule) : outcome Error (StateMap string) :=
  resolve (H := toy_ruma) (sched := sched) toy_get2 (fun id => bool_decide (is_Some (toy_get2 id)))
    30 IdV10 [fork1; fork2] [chain1; chain2] 1.
Definition resolved2 : StateMap string := fork2.

Lemma resolve2_done : resolve2 reversed = Done resolved2.
Proof. apply returns_Done. by vm_compute. Qed.

Lemma toy_fetch_ids : fetch_ids toy_get2.
Proof.
  intros n e E. assert (map_Forall (fun n e => event_id e = n) toy_events2) as F
    by (apply (bool_decide_unpack _); by vm_compute). exact (F n e E).
Qed.

Lemma toy_typed s : s ∈ [fork1; fork2] -> typed_state toy_get2 s.
Proof.
  intros Hs k id e Hk He.
  assert (Forall (map_Forall (fun k id => from_option event_type k.1 (toy_get2 id) = k.1)) [fork1; fork2])
    as F by (apply (bool_decide_unpack _); by vm_compute).
  rewrite Forall_forall in F. specialize (F s Hs k id Hk). cbn in F. by rewrite He in F.
Qed.

Lemma toy_contents_ok : contents_ok (H := toy_ruma) toy_get2 V10.
Proof.
  intros n e E. split.
  - intros Hty f [= <-]. cbn.
    assert (map_Forall (fun _ e => event_type e = RoomMember -> toy_membership (content e) <> None)
              toy_events2) as F by (apply (bool_decide_unpack _); by vm_compute).
    specialize (F n e E Hty). by destruct (toy_membership (content e)).
  - intros _ _. cbn. by case_decide.
Qed.

Lemma resolve_keeps_agreed_witness : resolved2 !! (RoomJoinRules, "") = Some "$rules".
Proof.
  apply (resolve_keeps_agreed (H := toy_ruma) (sched := reversed) toy_get2
           (fun id => bool_decide (is_Some (toy_get2 id))) 30 IdV10 [fork1; fork2] [chain1; chain2] 1).
  - done.
  - apply resolve2_done.
  - intros s Hs. repeat (apply elem_of_cons in Hs as [->|Hs]; [by vm_compute|]).
    by apply elem_of_nil in Hs.
Defined.

Lemma resolve_of_equal_sets_witness :
  resolve (H := toy_ruma) (sched := reversed) toy_get2 (fun _ => true) 0 (IdOther "x") [fork1; fork1] [] 1 =
  Done fork1.
Proof.
  apply (resolve_of_equal_sets (H := toy_ruma)); [done|]. intros s Hs. set_solver.
Defined.

Lemma resolve_sound_witness :
  in_conflict (fun id => bool_decide (is_Some (toy_get2 id))) [fork1; fork2] [chain1; chain2] "$levels2".
Proof.
  destruct (resolve_sound (H := toy_ruma) (sched := reversed) toy_get2
              (fun id => bool_decide (is_Some (toy_get2 id))) 30 IdV10 V10 [fork1; fork2] [chain1; chain2] 1
              resolved2 (RoomPowerLevels, "") "$levels2") as [Ha|[Hc _]].
  - apply toy_fetch_ids.
  - done.
  - done.
  - apply resolve2_done.
  - by vm_compute.
  - specialize (Ha fork1 ltac:(set_solver)). vm_compute in Ha. discriminate Ha.
  - exact Hc.
Defined.

Lemma resolve_no_panic_witness :
  outcome_spec (resolve2 reversed) (fun _ => True) (fun _ => True).
Proof.
  apply (resolve_no_panic (H := toy_ruma) (sched := reversed) toy_get2 _ toy_rank).
  - apply toy_fetch_ids.
  - apply toy_ranked.
  - intros n. pose proof (toy_rank_bound n). lia.
  - intros rv [= <-]. apply toy_contents_ok.
  - done.
  - apply toy_typed.
Defined.
