(* ===== verification/DbCodec.v ===== *)
(** * The database codec

    Models [src/database/ser.rs] and [src/database/de.rs]: keys and values are
    records separated by the byte 0xFF, which cannot occur in UTF-8 text;
    integers are big-endian and of fixed width.

    A Rust value is given by the serde calls it makes ([value]) and a Rust type
    by the calls its deserializer makes ([ty]).  [debug] says whether
    [debug_assertions] are on. *)

From stdpp Require Import prelude gmap strings list.
From Stdlib Require Import ZArith Lia.
From Stdlib Require Import Strings.Byte.
From S2P Require Import Prelude MachineInt.

Abbreviation bytes := (list byte).

(** The content of a table. *)
Abbreviation table := (gmap bytes bytes).

Inductive CodecError :=
| Io                              (** failed to write whole buffer *)
| SerdeDe (what : string)
| InvalidLength (n : nat)         (** the visitor of a tuple misses its [n]th element *)
| Utf8.

#[export] Instance CodecError_eq_dec : EqDecision CodecError.
Proof. solve_decision. Defined.

(** ** UTF-8: [std::str::from_utf8] *)

Definition in_range (lo hi : Z) (b : byte) : bool :=
  ((lo <=? Z_of_byte b) && (Z_of_byte b <=? hi))%Z.
Definition is_cont (b : byte) : bool := in_range 0x80 0xBF b.

Fixpoint utf8_valid (l : bytes) : bool :=
  match l with
  | [] => true
  | b0 :: l1 =>
      if in_range 0x00 0x7F b0 then utf8_valid l1 else
      match l1 with
      | [] => false
      | b1 :: l2 =>
          if in_range 0xC2 0xDF b0 then is_cont b1 && utf8_valid l2 else
          match l2 with
          | [] => false
          | b2 :: l3 =>
              if in_range 0xE0 0xEF b0 then
                (if decide (Z_of_byte b0 = 0xE0%Z) then in_range 0xA0 0xBF b1
                 else if decide (Z_of_byte b0 = 0xED%Z) then in_range 0x80 0x9F b1
                 else is_cont b1)
                && is_cont b2 && utf8_valid l3
              else
              match l3 with
              | [] => false
              | b3 :: l4 =>
                  in_range 0xF0 0xF4 b0
                  && (if decide (Z_of_byte b0 = 0xF0%Z) then in_range 0x90 0xBF b1
                      else if decide (Z_of_byte b0 = 0xF4%Z) then in_range 0x80 0x8F b1
                      else is_cont b1)
                  && is_cont b2 && is_cont b3 && utf8_valid l4
              end
          end
      end
  end.

Definition str_from_bytes (b : bytes) : outcome CodecError bytes :=
  if utf8_valid b then Done b else Fail Utf8.

(** Record separator; an intentionally invalid-utf8 byte. *)
Definition SEP : byte := xff.

(** ** Values: the calls a [Serialize] implementation makes *)

Inductive value :=
| VStr (s : bytes)
| VBytes (b : bytes)
| VU64 (z : Z) | VI64 (z : Z) | VU32 (z : Z) | VI32 (z : Z) | VU8 (z : Z)
| VNone
| VSome (v : value)
| VTuple (vs : list value)
| VSeq (vs : list value)
| VJson (text : bytes)            (** [Json(x)], with the text [serde_json] writes *)
| VCbor (data : bytes)            (** [Cbor(x)], with the data [minicbor] writes *)
| VInterfix
| VSeparator
| VIgnored                        (** what [Ignore] and [IgnoreAll] read *)
| VUnhandled.                     (** maps, structs, enums, floats, [bool], … *)

(** ** The serializer *)

Section serializer.
Context (debug : bool).

Definition debug_assert {E} (b : bool) : outcome E unit :=
  if debug && negb b then Panic else Done tt.

(** [out] is the writer: what was written and its capacity, if it has one. *)
Record Serializer := MkSer {
  out : bytes;
  cap : option nat;
  depth : nat;
  sep : bool;
  fin : bool }.

Definition set_out (s : Serializer) (o : bytes) := MkSer o (cap s) (depth s) (sep s) (fin s).
Definition set_depth (s : Serializer) (d : nat) := MkSer (out s) (cap s) d (sep s) (fin s).
Definition set_sep (s : Serializer) (b : bool) := MkSer (out s) (cap s) (depth s) b (fin s).
Definition set_fin (s : Serializer) (b : bool) := MkSer (out s) (cap s) (depth s) (sep s) b.

Definition write (buf : bytes) (s : Serializer) : outcome CodecError Serializer :=
  let o := out s ++ buf in
  if from_option (fun c => length o <=? c) true (cap s) then Done (set_out s o) else Fail Io.

Definition separator (s : Serializer) : outcome CodecError Serializer :=
  debug_assert (negb (fin s));; write [SEP] s.

Definition ser_sequence_start (s : Serializer) : outcome CodecError Serializer :=
  debug_assert (negb (fin s));; Done (if debug then set_depth s (S (depth s)) else s).
Definition tuple_start (s : Serializer) : outcome CodecError Serializer :=
  debug_assert (negb (sep s));; ser_sequence_start s.
Definition sequence_end (s : Serializer) : outcome CodecError Serializer :=
  Done (if debug then set_depth s (pred (depth s)) else s).
Definition tuple_end (s : Serializer) : outcome CodecError Serializer := sequence_end s.

Definition ser_record_start (s : Serializer) : outcome CodecError Serializer :=
  debug_assert (negb (fin s));;
  let prev := sep s in
  let s := set_sep s true in
  if prev then separator s else Done s.

Definition set_finalized (s : Serializer) : outcome CodecError Serializer :=
  debug_assert (negb (fin s));; Done (if debug then set_fin s true else s).

(** [serialize_element] for each element: of a tuple, after [record_start]; of
    a sequence, at once. *)
Fixpoint ser_elements (start : Serializer -> outcome CodecError Serializer)
    (writes : list (Serializer -> outcome CodecError Serializer)) (s : Serializer)
    : outcome CodecError Serializer :=
  match writes with
  | [] => Done s
  | w :: writes => s ← start s; s ← w s; ser_elements start writes s
  end.

Fixpoint ser_value (v : value) (s : Serializer) : outcome CodecError Serializer :=
  match v with
  | VStr b | VBytes b => debug_assert (bool_decide (0 < depth s));; write b s
  | VU64 z => write (u64_to_be_bytes z) s
  | VI64 z => write (i64_to_be_bytes z) s
  | VU32 z => write (to_be 4 z) s
  | VI32 z => write (to_be 4 (z mod 2 ^ 32)%Z) s
  | VU8 z => write (to_be 1 z) s
  | VNone => Done s
  | VSome v => ser_value v s
  | VTuple vs =>
      s ← tuple_start s;
      s ← ser_elements ser_record_start (List.map ser_value vs) s;
      tuple_end s
  | VSeq vs =>
      s ← ser_sequence_start s;
      s ← ser_elements Done (List.map ser_value vs) s;
      sequence_end s
  | VJson text => write text s
  | VCbor data => write data s
  | VInterfix => set_finalized s
  | VSeparator => separator s
  | VIgnored | VUnhandled => Panic
  end.

(** [serialize] into a writer with the given capacity. *)
Definition serialize (c : option nat) (v : value) : outcome CodecError bytes :=
  s ← ser_value v (MkSer [] c 0 false false);
  debug_assert (bool_decide (depth s = 0));;
  Done (out s).

Definition serialize_to_vec (v : value) : outcome CodecError bytes := serialize None v.

End serializer.

(** ** Types: the calls a [Deserialize] implementation makes

    A record that is decoded by [serde_json] or [minicbor] reads as the bytes
    handed to them; whether they decode it is not modelled. *)

Inductive ty :=
| TStr | TBytes | TU64 | TI64
| TJson                           (** maps and structs: a record handed to [serde_json] *)
| TCbor                           (** [Cbor]: the rest of the input, handed to [minicbor] *)
| TAny                            (** [serde_json::Value] *)
| TNewtype (t : ty)
| TOption (t : ty)
| TTuple (ts : list ty)
| TSeq (t : ty)
| TIgnore | TIgnoreAll
| TUnhandled.

(** ** The deserializer *)

Section deserializer.
Context (debug : bool).

Record Deserializer := MkDe { buf : bytes; pos : nat; rec : nat; seq : bool }.

Definition inc_pos (n : nat) (d : Deserializer) : outcome CodecError Deserializer :=
  let p := pos d + n in
  debug_assert debug (bool_decide (p <= length (buf d)));;
  Done (MkDe (buf d) p (rec d) (seq d)).

Definition inc_rec (n : nat) (d : Deserializer) : Deserializer :=
  MkDe (buf d) (pos d) (rec d + n) (seq d).

(** [self.buf[self.pos..]] *)
Definition rest (d : Deserializer) : outcome CodecError bytes :=
  if decide (pos d <= length (buf d)) then Done (drop (pos d) (buf d)) else Panic.

Definition sequence_start (d : Deserializer) : outcome CodecError Deserializer :=
  debug_assert debug (negb (seq d));; Done (MkDe (buf d) (pos d) (rec d) true).

(** The bytes before the first separator. *)
Fixpoint until_sep (l : bytes) : bytes :=
  match l with
  | [] => []
  | b :: l => if decide (b = SEP) then [] else b :: until_sep l
  end.

Definition record_next (d : Deserializer) : outcome CodecError (bytes * Deserializer) :=
  r ← rest d;
  let record := until_sep r in
  d ← inc_pos (length record) d;
  Done (record, d).

Definition record_trail (d : Deserializer) : outcome CodecError (bytes * Deserializer) :=
  record ← rest d;
  d ← inc_pos (length record) d;
  Done (record, d).

Definition record_ignore_all (d : Deserializer) : outcome CodecError Deserializer :=
  snd <$> record_trail d.
Definition record_ignore (d : Deserializer) : outcome CodecError Deserializer :=
  if seq d then snd <$> record_next d else record_ignore_all d.

Definition started (d : Deserializer) : bool :=
  bool_decide (pos d <> 0) || bool_decide (0 < rec d).

Definition record_peek_byte (d : Deserializer) : outcome CodecError (option byte) :=
  r ← rest d;
  debug_assert debug (negb (started d) || bool_decide (r !! 0 = Some SEP));;
  Done (r !! (if started d then 1 else 0)).

Definition record_start (d : Deserializer) : outcome CodecError Deserializer :=
  debug_assert debug (negb (started d) || bool_decide (buf d !! pos d = Some SEP));;
  d ← inc_pos (if started d then 1 else 0) d;
  Done (inc_rec 1 d).

(** The body of [deserialize_u64] and [deserialize_i64]. *)
Definition fixed8 (what : string) (d : Deserializer) : outcome CodecError (bytes * Deserializer) :=
  if decide (length (buf d) < pos d) then Panic else
  let stop := (pos d + 8) `min` length (buf d) in
  let b := take (stop - pos d) (drop (pos d) (buf d)) in
  if decide (length b = 8) then d ← inc_pos 8 d; Done (b, d) else Fail (SerdeDe what).

(** [next_element_seed], and what the visitors of tuples and sequences do with
    it: a tuple takes one element per component, a [Vec] takes all. *)
Definition next_element (read : Deserializer -> outcome CodecError (value * Deserializer))
    (d : Deserializer) : outcome CodecError (option value * Deserializer) :=
  if decide (length (buf d) <= pos d) then Done (None, d) else
  d ← record_start d;
  '(v, d) ← read d;
  Done (Some v, d).

Fixpoint visit_tuple (reads : list (Deserializer -> outcome CodecError (value * Deserializer)))
    (n : nat) (d : Deserializer) : outcome CodecError (list value * Deserializer) :=
  match reads with
  | [] => Done ([], d)
  | read :: reads =>
      '(o, d) ← next_element read d;
      match o with
      | None => Fail (InvalidLength n)
      | Some v => '(vs, d) ← visit_tuple reads (S n) d; Done (v :: vs, d)
      end
  end.

Fixpoint visit_all (read : Deserializer -> outcome CodecError (value * Deserializer))
    (fuel : nat) (d : Deserializer) : outcome CodecError (list value * Deserializer) :=
  match fuel with
  | O => OutOfFuel
  | S fuel =>
      '(o, d) ← next_element read d;
      match o with
      | None => Done ([], d)
      | Some v => '(vs, d) ← visit_all read fuel d; Done (v :: vs, d)
      end
  end.

Fixpoint de_value (t : ty) (d : Deserializer) : outcome CodecError (value * Deserializer) :=
  match t with
  | TStr => '(input, d) ← record_next d; s ← str_from_bytes input; Done (VStr s, d)
  | TBytes => '(input, d) ← record_trail d; Done (VBytes input, d)
  | TU64 => '(b, d) ← fixed8 "u64 buffer underflow" d; Done (VU64 (from_be b), d)
  | TI64 => '(b, d) ← fixed8 "i64 buffer underflow" d; Done (VI64 (i64_from_be_bytes b), d)
  | TJson => '(input, d) ← record_next d; Done (VJson input, d)
  | TCbor => '(input, d) ← record_trail d; Done (VCbor input, d)
  | TAny =>
      first ← record_peek_byte d;
      '(input, d) ← record_next d;
      if decide (first = Some x7b \/ first = Some x5b) then Done (VJson input, d)
      else s ← str_from_bytes input; Done (VStr s, d)
  | TNewtype t => de_value t d
  | TOption t =>
      if from_option (fun b => bool_decide (b = SEP)) true (buf d !! pos d) then Done (VNone, d)
      else '(v, d) ← de_value t d; Done (VSome v, d)
  | TTuple ts =>
      d ← sequence_start d;
      '(vs, d) ← visit_tuple (List.map de_value ts) 0 d;
      Done (VTuple vs, d)
  | TSeq t =>
      d ← sequence_start d;
      '(vs, d) ← visit_all (de_value t) (length (buf d) + 2) d;
      Done (VSeq vs, d)
  | TIgnore => d ← record_ignore d; Done (VIgnored, d)
  | TIgnoreAll => d ← record_ignore_all d; Done (VIgnored, d)
  | TUnhandled => Panic
  end.

(** Everything was consumed, up to one trailing separator. *)
Definition finished (d : Deserializer) : bool :=
  bool_decide (pos d <= length (buf d)) &&
  match drop (pos d) (buf d) with
  | [] => true
  | [b] => bool_decide (b = SEP)
  | _ => false
  end.

Definition from_slice (t : ty) (b : bytes) : outcome CodecError value :=
  '(v, d) ← de_value t (MkDe b 0 0 false);
  debug_assert debug (finished d);;
  Done v.

End deserializer.

(** ** UTF-8 text has no separator in it *)

Lemma in_range_spec lo hi b : in_range lo hi b = true <-> (lo <= Z_of_byte b <= hi)%Z.
Proof. unfold in_range. rewrite andb_true_iff, !Z.leb_le. done. Qed.

Lemma sep_out_of_range lo hi : (hi < 255)%Z -> in_range lo hi SEP = false.
Proof. intros ?. apply not_true_iff_false. rewrite in_range_spec. cbn. lia. Qed.

Lemma utf8_head b l : utf8_valid (b :: l) = true -> b <> SEP.
Proof.
  intros Hv ->. cbn [utf8_valid] in Hv. rewrite !sep_out_of_range in Hv by lia.
  destruct l as [|b1 [|b2 [|b3 l]]]; done.
Qed.

Lemma is_cont_not_sep b : is_cont b = true -> b <> SEP.
Proof. intros Hc ->. by vm_compute in Hc. Qed.

Lemma utf8_no_sep l : utf8_valid l = true -> SEP ∉ l.
Proof.
  induction l as [l IH] using (well_founded_induction (well_founded_ltof _ (@length byte))).
  destruct l as [|b0 l1]; [set_solver|]. intros Hv. pose proof (utf8_head _ _ Hv) as H0.
  assert (forall lo hi b, (hi < 255)%Z -> in_range lo hi b = true -> b <> SEP) as Hr.
  { intros lo hi b ? Hb ->. by rewrite sep_out_of_range in Hb. }
  assert (forall l', length l' < length (b0 :: l1) -> utf8_valid l' = true -> SEP ∉ l') as IH'
    by (intros; by apply IH).
  clear IH. cbn [utf8_valid] in Hv. destruct (in_range 0 127 b0).
  { apply IH' in Hv; [|cbn; lia]. set_solver. }
  destruct l1 as [|b1 l2]; [done|]. destruct (in_range 194 223 b0).
  { apply andb_true_iff in Hv as [H1%is_cont_not_sep Hv]. apply IH' in Hv; [|cbn; lia]. set_solver. }
  destruct l2 as [|b2 l3]; [done|]. destruct (in_range 224 239 b0).
  { rewrite !andb_true_iff in Hv. destruct Hv as [[H1 H2%is_cont_not_sep] Hv].
    apply IH' in Hv; [|cbn; lia].
    assert (b1 <> SEP) by (repeat case_decide; first [by apply is_cont_not_sep | eapply Hr; [|exact H1]; lia]). set_solver. }
  destruct l3 as [|b3 l4]; [done|]. rewrite !andb_true_iff in Hv.
  destruct Hv as [[[[_ H1] H2%is_cont_not_sep] H3%is_cont_not_sep] Hv].
  apply IH' in Hv; [|cbn; lia].
  assert (b1 <> SEP) by (repeat case_decide; first [by apply is_cont_not_sep | eapply Hr; [|exact H1]; lia]). set_solver.
Qed.

Lemma until_sep_app l r :
  SEP ∉ l -> until_sep (l ++ SEP :: r) = l /\ until_sep l = l.
Proof.
  induction l as [|b l IH]; intros Hl; cbn [app until_sep]; [by rewrite decide_True|].
  rewrite !decide_False by set_solver. by destruct (IH ltac:(set_solver)) as [-> ->].
Qed.

(** ** Round trip of keys *)

(** The bytes of a field of a key. *)
Fixpoint enc (v : value) : bytes :=
  match v with
  | VStr b | VBytes b | VJson b | VCbor b => b
  | VU64 z => u64_to_be_bytes z
  | VI64 z => i64_to_be_bytes z
  | VSome v => enc v
  | _ => []
  end.

(** The fields that can be read back: text, integers, JSON, options of what is
    not empty and does not start like a separator, and bytes or CBOR in the last
    place. *)
Inductive field (final : bool) : ty -> value -> Prop :=
| field_str s : utf8_valid s = true -> field final TStr (VStr s)
| field_u64 z : is_u64 z -> field final TU64 (VU64 z)
| field_i64 z : is_i64 z -> field final TI64 (VI64 z)
| field_none t : field final (TOption t) VNone
| field_some t v b : field final t v -> head (enc v) = Some b -> b <> SEP ->
    field final (TOption t) (VSome v)
| field_bytes b : final = true -> field final TBytes (VBytes b)
| field_json s : utf8_valid s = true -> field final TJson (VJson s)
| field_cbor b : final = true -> field final TCbor (VCbor b).

Inductive fields : list ty -> list value -> Prop :=
| fields_last t v : field true t v -> fields [t] [v]
| fields_cons t v ts vs : field false t v -> fields ts vs -> fields (t :: ts) (v :: vs).

Fixpoint enc_fields (vs : list value) : bytes :=
  match vs with
  | [] => []
  | [v] => enc v
  | v :: vs => enc v ++ SEP :: enc_fields vs
  end.

Lemma enc_fields_cons v vs : vs <> [] -> enc_fields (v :: vs) = enc v ++ SEP :: enc_fields vs.
Proof. by destruct vs. Qed.

(** What reads as [v] from the bytes [b] of one record; a skipped record may be
    any bytes without a separator. *)
Inductive reads (final : bool) : ty -> value -> bytes -> Prop :=
| reads_field t v : field final t v -> reads final t v (enc v)
| reads_ignore b : SEP ∉ b -> reads final TIgnore VIgnored b.

Inductive records : list ty -> list value -> bytes -> Prop :=
| records_last t v b : reads true t v b -> records [t] [v] b
| records_cons t v b ts vs bs : reads false t v b -> records ts vs bs ->
    records (t :: ts) (v :: vs) (b ++ SEP :: bs).

Lemma fields_records ts vs : fields ts vs -> records ts vs (enc_fields vs).
Proof.
  induction 1 as [t v F|t v ts vs F Fs IH]; [by repeat constructor|].
  rewrite enc_fields_cons by by inversion Fs. by repeat constructor.
Qed.

Section roundtrip.
Context (debug : bool).

Lemma debug_assert_true {E} b : b = true -> @debug_assert debug E b = Done tt.
Proof. intros ->. unfold debug_assert. by rewrite andb_false_r. Qed.

Lemma ser_field final t v s :
  field final t v -> cap s = None -> (debug = true -> 0 < depth s) ->
  ser_value debug v s = Done (set_out s (out s ++ enc v)).
Proof.
  intros F Hc Hd. revert final t F. induction v; intros final t' F; inversion F; subst;
    cbn [ser_value enc]; unfold write; rewrite ?Hc; cbn [from_option]; try done.
  - unfold debug_assert. destruct debug; [rewrite bool_decide_true by auto|]; done.
  - unfold debug_assert. destruct debug; [rewrite bool_decide_true by auto|]; done.
  - rewrite app_nil_r. by destruct s.
  - by eapply IHv.
Qed.

Lemma ser_record_start_next s :
  cap s = None -> fin s = false -> sep s = true ->
  ser_record_start debug s = Done (set_out s (out s ++ [SEP])).
Proof.
  destruct s as [o c d se f]; cbn. intros -> -> ->. unfold ser_record_start, separator, write.
  by rewrite !debug_assert_true.
Qed.

Lemma ser_record_start_first s :
  fin s = false -> sep s = false -> ser_record_start debug s = Done (set_sep s true).
Proof. intros Hf Hs. unfold ser_record_start. by rewrite Hf, Hs, debug_assert_true. Qed.

Lemma ser_fields ts vs s :
  fields ts vs -> cap s = None -> fin s = false -> sep s = true -> (debug = true -> 0 < depth s) ->
  ser_elements (ser_record_start debug) (List.map (ser_value debug) vs) s =
  Done (set_out s (out s ++ SEP :: enc_fields vs)).
Proof.
  intros F. revert s. induction F as [t v F|t v ts vs F Fs IH]; intros s Hc Hf Hs Hd;
    cbn [List.map ser_elements]; rewrite ser_record_start_next by done; cbn [mbind outcome_bind];
    erewrite ser_field by done; cbn [mbind outcome_bind].
  - cbn. f_equal. destruct s; cbn in *; subst. by rewrite <- app_assoc.
  - rewrite IH by done. rewrite enc_fields_cons by (by inversion Fs).
    destruct s; cbn in *; subst. by rewrite <- !app_assoc.
Qed.

Lemma serialize_fields ts vs :
  fields ts vs -> serialize_to_vec debug (VTuple vs) = Done (enc_fields vs).
Proof.
  intros F. unfold serialize_to_vec, serialize. cbn [ser_value]. unfold tuple_start, ser_sequence_start.
  rewrite !debug_assert_true by done. cbn [mbind outcome_bind].
  set (s0 := if debug then _ else _).
  assert (cap s0 = None /\ fin s0 = false /\ sep s0 = false /\ out s0 = [] /\
          depth s0 = if debug then 1 else 0) as (Hc & Hf & Hs & Ho & Hd) by by destruct debug.
  clearbody s0.
  assert (ser_elements (ser_record_start debug) (List.map (ser_value debug) vs) s0 =
          Done (MkSer (enc_fields vs) None (depth s0) true false)) as ->.
  { assert (debug = true -> 0 < depth s0) as Hp by (rewrite Hd; intros ->; lia).
    destruct F as [t v F|t v ts vs F Fs]; cbn [List.map ser_elements];
      rewrite ser_record_start_first by done; cbn [mbind outcome_bind];
      erewrite ser_field by done; cbn [mbind outcome_bind].
    - destruct s0; cbn in *; by subst.
    - erewrite ser_fields by done. rewrite enc_fields_cons by (by inversion Fs).
      destruct s0; cbn in *; by subst. }
  cbn [mbind outcome_bind]. unfold tuple_end, sequence_end. rewrite Hd. by destruct debug.
Qed.

(** *** Reading a field back *)

(** [rest] begins a new record or is empty; after the last field it is empty. *)
Definition boundary (final : bool) (r : bytes) : Prop :=
  r = [] \/ final = false /\ exists r', r = SEP :: r'.

Abbreviation at_pos b p r := (MkDe b p r true).

Lemma inc_pos_ok b p r n : p + n <= length b -> inc_pos debug n (at_pos b p r) = Done (at_pos b (p + n) r).
Proof.
  intros Hn. unfold inc_pos. cbn [pos buf]. by rewrite debug_assert_true by by apply bool_decide_eq_true.
Qed.

Lemma until_sep_boundary final l r : SEP ∉ l -> boundary final r -> until_sep (l ++ r) = l.
Proof.
  intros Hl [->|(_ & r' & ->)]; [rewrite app_nil_r; by apply until_sep_app|by apply until_sep_app].
Qed.

Lemma drop_length_le {A} (l : list A) p x r : p <= length l -> drop p l = x ++ r -> p + length x <= length l.
Proof.
  intros Hp E. apply (f_equal length) in E. rewrite length_drop, length_app in E. lia.
Qed.

Lemma fixed8_ok what b p r x rst :
  p <= length b -> drop p b = x ++ rst -> length x = 8 ->
  fixed8 debug what (at_pos b p r) = Done (x, at_pos b (p + 8) r).
Proof.
  intros Hp Hd Hx. pose proof (drop_length_le _ _ _ _ Hp Hd). unfold fixed8. cbn [buf pos].
  rewrite decide_False by lia. rewrite Nat.min_l by lia. rewrite Hd.
  replace (p + 8 - p) with (length x) by lia. rewrite take_app_length.
  rewrite decide_True by done. by rewrite inc_pos_ok by lia.
Qed.

Lemma record_next_text final s b p r rst :
  utf8_valid s = true -> p <= length b -> drop p b = s ++ rst -> boundary final rst ->
  record_next debug (at_pos b p r) = Done (s, at_pos b (p + length s) r).
Proof.
  intros Hs Hp Hd Hb. pose proof (drop_length_le _ _ _ _ Hp Hd). unfold record_next, rest. cbn [pos buf].
  rewrite decide_True by done. cbn [mbind outcome_bind]. rewrite Hd.
  rewrite (until_sep_boundary final) by (done || by apply utf8_no_sep). by rewrite inc_pos_ok by lia.
Qed.

Lemma record_trail_bytes s b p r rst :
  p <= length b -> drop p b = s ++ rst -> boundary true rst ->
  record_trail debug (at_pos b p r) = Done (s, at_pos b (p + length s) r).
Proof.
  intros Hp Hd Hb. destruct Hb as [->|[[=] _]]. rewrite app_nil_r in Hd.
  pose proof (f_equal length Hd) as Hl. rewrite length_drop in Hl.
  unfold record_trail, rest. cbn [pos buf]. rewrite decide_True by done.
  cbn [mbind outcome_bind]. rewrite Hd. by rewrite inc_pos_ok by lia.
Qed.

Lemma de_field final t v b p r rst :
  field final t v -> p <= length b -> drop p b = enc v ++ rst -> boundary final rst ->
  de_value debug t (at_pos b p r) = Done (v, at_pos b (p + length (enc v)) r).
Proof.
  intros F Hp. induction F as [s Hs|z Hz|z Hz|t|t v x F IH Hx Hn|s Hs|s Hs|s Hs]; intros Hd Hb;
    cbn [de_value enc] in *.
  - rewrite (record_next_text final s b p r rst) by done. cbn. unfold str_from_bytes. by rewrite Hs.
  - rewrite (fixed8_ok _ b p r (u64_to_be_bytes z) rst) by eauto using length_u64_to_be, length_i64_to_be. cbn. by rewrite u64_be_roundtrip, length_u64_to_be.
  - rewrite (fixed8_ok _ b p r (i64_to_be_bytes z) rst) by eauto using length_u64_to_be, length_i64_to_be. cbn. by rewrite i64_be_roundtrip, length_i64_to_be.
  - cbn [buf pos]. replace (b !! p) with (head rst).
    + cbn. rewrite Nat.add_0_r. destruct Hb as [->|(_ & r' & ->)]; [done|]. cbn.
      by rewrite bool_decide_true.
    + cbn in Hd. rewrite <- Hd, head_lookup, lookup_drop. by rewrite Nat.add_0_r.
  - cbn [buf pos]. assert (b !! p = Some x) as ->.
    { rewrite <- (Nat.add_0_r p), <- lookup_drop, Hd, <- head_lookup.
      by destruct (enc v); [|cbn in *]. }
    cbn [from_option]. rewrite bool_decide_false by done. rewrite IH by done. done.
  - subst final. by rewrite (record_trail_bytes s b p r rst).
  - by rewrite (record_next_text final s b p r rst).
  - subst final. by rewrite (record_trail_bytes s b p r rst).
Qed.

Lemma de_reads final t v x b p r rst :
  reads final t v x -> p <= length b -> drop p b = x ++ rst -> boundary final rst ->
  de_value debug t (at_pos b p r) = Done (v, at_pos b (p + length x) r).
Proof.
  intros [t' v' F|x' Hx] Hp Hd Hb; [by eapply de_field|]. cbn [de_value]. unfold record_ignore.
  cbn [seq]. pose proof (drop_length_le _ _ _ _ Hp Hd). unfold record_next, rest. cbn [pos buf].
  rewrite decide_True by done. cbn [mbind outcome_bind]. rewrite Hd.
  rewrite (until_sep_boundary final) by done. by rewrite inc_pos_ok by lia.
Qed.

Lemma next_element_ok final t v x b p r q rst :
  reads final t v x -> p < length b -> (if started (at_pos b p r) then q = S p /\ b !! p = Some SEP else q = p) ->
  drop q b = x ++ rst -> boundary final rst ->
  next_element debug (de_value debug t) (at_pos b p r) =
  Done (Some v, at_pos b (q + length x) (S r)).
Proof.
  intros F Hp Hq Hd Hb. unfold next_element. cbn [buf pos]. rewrite decide_False by lia.
  unfold record_start. rewrite debug_assert_true.
  2: { destruct (started _); [|done]. cbn. destruct Hq as [_ ->]. by rewrite bool_decide_true. }
  cbn [mbind outcome_bind]. rewrite inc_pos_ok by (destruct (started _); lia). cbn [mbind outcome_bind].
  replace (inc_rec 1 _) with (at_pos b q (S r)).
  2: { unfold inc_rec. cbn. f_equal; [destruct (started _); lia|lia]. }
  erewrite de_reads; [done|done| |done|done].
  destruct (started _); [destruct Hq as [-> _]|]; lia.
Qed.

Lemma started_rec b p r : 0 < r -> started (at_pos b p r) = true.
Proof. intros ?. apply orb_true_iff. right. by apply bool_decide_eq_true. Qed.

Lemma drop_S_sep (b : bytes) p l : drop p b = SEP :: l -> b !! p = Some SEP /\ drop (S p) b = l.
Proof.
  intros Hd. split.
  - by rewrite <- (Nat.add_0_r p), <- lookup_drop, Hd.
  - replace (S p) with (p + 1) by lia. by rewrite <- drop_drop, Hd.
Qed.

(** The records after the first one, each behind its separator. *)
Lemma visit_rest ts vs x b p r n :
  records ts vs x -> p < length b -> 0 < r -> drop p b = SEP :: x ->
  exists r', visit_tuple debug (List.map (de_value debug) ts) n (at_pos b p r) =
    Done (vs, at_pos b (length b) r').
Proof.
  intros F. revert p r n. induction F as [t v x F|t v x ts vs xs F Fs IH]; intros p r n Hp Hr Hd;
    cbn [List.map visit_tuple].
  - destruct (drop_S_sep _ _ _ Hd) as [Hs Hd']. rewrite <- (app_nil_r x) in Hd'.
    erewrite (next_element_ok true); [|done|done|by rewrite started_rec|exact Hd'|by left].
    cbn. eexists. do 3 f_equal. apply (f_equal length) in Hd.
    rewrite length_drop in Hd. cbn in Hd. lia.
  - destruct (drop_S_sep _ _ _ Hd) as [Hs Hd'].
    erewrite (next_element_ok false); [|done|done|by rewrite started_rec|exact Hd'|right; eauto].
    cbn [mbind outcome_bind].
    assert (drop (S p + length x) b = SEP :: xs) as Hd2
      by by rewrite <- drop_drop, Hd', drop_app_length.
    destruct (IH (S p + length x) (S r) (S n)) as [r' ->]; [|lia|done|by eexists].
    apply (f_equal length) in Hd2. rewrite length_drop in Hd2. cbn in Hd2. lia.
Qed.

Lemma visit_records ts vs b n :
  records ts vs b -> b <> [] ->
  exists r', visit_tuple debug (List.map (de_value debug) ts) n (at_pos b 0 0) =
    Done (vs, at_pos b (length b) r').
Proof.
  intros F Hne. assert (0 < length b) as Hl by (destruct b; [done|cbn; lia]).
  destruct F as [t v x F|t v x ts vs xs F Fs]; cbn [List.map visit_tuple].
  - erewrite (next_element_ok true _ _ _ _ _ _ 0 []); [|done|done|done|by rewrite app_nil_r|by left].
    cbn. by eexists.
  - set (b := x ++ SEP :: xs) in *.
    erewrite (next_element_ok false _ _ _ b _ _ 0); [|done|done|done|done|right; eauto].
    cbn [mbind outcome_bind].
    assert (drop (0 + length x) b = SEP :: xs) as Hd2 by (cbn [Nat.add]; apply drop_app_length).
    destruct (visit_rest ts vs xs b (0 + length x) 1 (S n) Fs) as [r' ->]; [|lia|done|by eexists].
    apply (f_equal length) in Hd2. rewrite length_drop in Hd2. cbn in Hd2. lia.
Qed.

Lemma from_slice_records ts vs b :
  records ts vs b -> b <> [] -> from_slice debug (TTuple ts) b = Done (VTuple vs).
Proof.
  intros F Hne. unfold from_slice. cbn [de_value]. unfold sequence_start.
  rewrite debug_assert_true by done. cbn [mbind outcome_bind buf pos rec].
  destruct (visit_records ts vs b 0 F Hne) as [r' ->].
  cbn [mbind outcome_bind]. rewrite debug_assert_true; [done|].
  unfold finished. cbn [buf pos]. rewrite drop_all. by rewrite bool_decide_true.
Qed.

Lemma from_slice_fields ts vs :
  fields ts vs -> enc_fields vs <> [] ->
  from_slice debug (TTuple ts) (enc_fields vs) = Done (VTuple vs).
Proof. intros F. by apply from_slice_records, fields_records. Qed.

End roundtrip.

(** ** Claims *)

Section claims.
Context (debug : bool).

Lemma fields_length ts vs : fields ts vs -> vs <> [].
Proof. by destruct 1. Qed.

Lemma enc_fields_nonempty ts vs : fields ts vs -> 1 < length vs -> enc_fields vs <> [].
Proof.
  intros F Hl. destruct F as [t v F|t v ts vs F Fs]; [cbn in Hl; lia|].
  rewrite enc_fields_cons by (by eapply fields_length). by destruct (enc v).
Qed.

(** C18. A key or value of two or more fields is written without a panic and
    reads back as written, with and without debug assertions, when its fields are
    text, 64-bit integers, JSON text, absent and present options of these (unless the
    present value is empty or begins with the separator byte), and raw bytes or
    CBOR in the last place.  Sequences, nested tuples and narrower integers are
    not covered. *)
Theorem key_roundtrip ts vs :
  fields ts vs -> 1 < length vs ->
  exists b, serialize_to_vec debug (VTuple vs) = Done b /\
    from_slice debug (TTuple ts) b = Done (VTuple vs).
Proof.
  intros F Hl. exists (enc_fields vs). split; [by eapply serialize_fields|].
  apply from_slice_fields; [done|]. by eapply enc_fields_nonempty.
Qed.

Lemma enc_fields_inj ts vs ws :
  fields ts vs -> fields ts ws -> enc_fields vs <> [] -> enc_fields vs = enc_fields ws -> vs = ws.
Proof.
  intros Fv Fw Hne E. pose proof (from_slice_fields debug ts vs Fv Hne) as Rv. rewrite E in Hne.
  pose proof (from_slice_fields debug ts ws Fw Hne) as Rw. rewrite E in Rv. congruence.
Qed.

(** Keys of one type are different when their fields are: no two records of
    a table share a key by accident. *)
Theorem key_injective ts vs ws b :
  fields ts vs -> fields ts ws -> 1 < length vs ->
  serialize_to_vec debug (VTuple vs) = Done b -> serialize_to_vec debug (VTuple ws) = Done b ->
  vs = ws.
Proof.
  intros Fv Fw Hl Ev Ew. rewrite (serialize_fields debug ts) in Ev, Ew by done.
  injection Ev as Ev. injection Ew as Ew.
  apply (enc_fields_inj ts); [done|done|by eapply enc_fields_nonempty|congruence].
Qed.

Lemma sep_split (a a' r r' : bytes) :
  SEP ∉ a -> SEP ∉ a' -> a ++ SEP :: r = a' ++ SEP :: r' -> a = a' /\ r = r'.
Proof.
  intros Ha Ha' E. assert (a = a') as ->.
  { by rewrite <- (proj1 (until_sep_app a r Ha)), E, (proj1 (until_sep_app a' r' Ha')). }
  apply app_inv_head in E. by injection E.
Qed.

Lemma serialize_interfix a :
  serialize_to_vec debug (VTuple [VStr a; VInterfix]) = Done (a ++ [SEP]).
Proof. by destruct debug. Qed.

(** A scan by the prefix of a text field finds exactly the keys whose first
    field is that text: the prefix written for [(a, Interfix)] is a prefix of a
    key if and only if the key's first field is [a]. *)
Theorem prefix_scan_exact a a' ts vs p k :
  utf8_valid a = true -> utf8_valid a' = true -> fields ts vs ->
  serialize_to_vec debug (VTuple [VStr a; VInterfix]) = Done p ->
  serialize_to_vec debug (VTuple (VStr a' :: vs)) = Done k ->
  p `prefix_of` k <-> a = a'.
Proof.
  intros Ha Ha' F Ep Ek. rewrite serialize_interfix in Ep. injection Ep as <-.
  rewrite (serialize_fields debug (TStr :: ts)) in Ek by (constructor; [by constructor|done]).
  rewrite enc_fields_cons in Ek by (by eapply fields_length). injection Ek as <-. cbn [enc]. split.
  - intros [r Hr]. rewrite <- app_assoc in Hr. symmetry in Hr.
    by apply sep_split in Hr as [-> _]; [|apply utf8_no_sep..].
  - intros ->. exists (enc_fields vs). by rewrite <- app_assoc.
Qed.

End claims.

Definition str (s : string) : bytes := byte_of_Z <$> (Z.of_N ∘ Ascii.N_of_ascii <$> String.list_ascii_of_string s).

(** The text in some bytes. *)
Definition unstr (b : bytes) : string :=
  String.string_of_list_ascii (Ascii.ascii_of_N ∘ Z.to_N ∘ Z_of_byte <$> b).

Lemma unstr_str s : unstr (str s) = s.
Proof.
  unfold unstr, str. rewrite <- list_fmap_compose. rewrite <- (String.string_of_list_ascii_of_string s) at 2.
  f_equal. rewrite <- (list_fmap_id (String.list_ascii_of_string s)) at 2. rewrite <- list_fmap_compose. apply list_fmap_ext.
  intros i a _. cbn. rewrite Z_of_byte_of_Z. pose proof (Ascii.N_ascii_bounded a).
  rewrite Z.mod_small by lia. rewrite N2Z.id. apply Ascii.ascii_N_embedding.
Qed.

#[global] Instance str_inj : Inj (=) (=) str.
Proof. intros a b E. by rewrite <- (unstr_str a), <- (unstr_str b), E. Qed.

Lemma toy_fields_ok :
  fields [TStr; TOption TStr; TU64] [VStr (str "!room"); VNone; VU64 255].
Proof.
  constructor; [by constructor|]. constructor; [constructor|]. constructor. constructor. width_lia.
Qed.

Lemma key_roundtrip_witness :
  exists b, serialize_to_vec true (VTuple [VStr (str "!room"); VNone; VU64 255]) = Done b /\
    from_slice true (TTuple [TStr; TOption TStr; TU64]) b = Done (VTuple [VStr (str "!room"); VNone; VU64 255]).
Proof. apply (key_roundtrip true); [apply toy_fields_ok|cbn; lia]. Defined.

Lemma key_injective_witness :
  [VStr (str "!room"); VNone; VU64 255] = [VStr (str "!room"); VNone; VU64 255].
Proof.
  eapply (key_injective true [TStr; TOption TStr; TU64]).
  - apply toy_fields_ok.
  - apply toy_fields_ok.
  - cbn. lia.
  - reflexivity.
  - reflexivity.
Defined.

Lemma prefix_scan_exact_witness :
  str "!room" ++ [SEP] `prefix_of` str "!room" ++ SEP :: str "@bob" <-> str "!room" = str "!room".
Proof.
  apply (prefix_scan_exact false (str "!room") (str "!room") [TStr] [VStr (str "@bob")]).
  - reflexivity.
  - reflexivity.
  - by constructor; constructor.
  - reflexivity.
  - reflexivity.
Defined.

(** A sequence of integers is written but cannot be read back: the
    elements are written without separators and read as records, so reading
    panics with debug assertions and fails without them. *)
Theorem sequence_not_read_back :
  exists b, serialize_to_vec false (VSeq [VU64 1; VU64 2]) = Done b /\
    from_slice true (TSeq TU64) b = Panic /\
    from_slice false (TSeq TU64) b = Fail (SerdeDe "u64 buffer underflow").
Proof. eexists. split; [reflexivity|]. split; reflexivity. Qed.
