(* ===== verification/DbMap.v ===== *)
(** * Tables: writes, lookups, cursors and scans

    Models [src/database/map/*.rs], [src/database/stream.rs] with
    [src/database/stream/*.rs], the cursor part of [src/database/pool.rs],
    [src/database/keyval.rs] and [src/database/watchers.rs].

    RocksDB itself is a parameter: the class [Engine] gives its raw iterator and
    what its documentation says of it.  A table's content is a map from key
    bytes to value bytes; the store is taken to answer without I/O errors. *)

From stdpp Require Import prelude gmap strings list sorting.
From Stdlib Require Import ZArith Lia.
From Stdlib Require Import Strings.Byte.
From S2P Require Import Prelude MachineInt DbCodec.


Abbreviation row := (bytes * bytes)%type.

(** ** The order of the rows *)

Definition key_le (a b : row) : Prop := ord_le a.1 b.1.

#[export] Instance key_le_dec a b : Decision (key_le a b).
Proof. unfold key_le. apply _. Defined.

(** The rows of a table in the order of their keys. *)
Definition rows (t : table) : list row := merge_sort key_le (map_to_list t).

Definition key_from (from : bytes) (r : row) : Prop := ord_le from r.1.
Definition key_upto (from : bytes) (r : row) : Prop := ord_le r.1 from.
Definition key_prefix (p : bytes) (r : row) : Prop := p `prefix_of` r.1.

#[export] Instance key_from_dec k r : Decision (key_from k r).
Proof. unfold key_from. apply _. Defined.
#[export] Instance key_upto_dec k r : Decision (key_upto k r).
Proof. unfold key_upto. apply _. Defined.
#[export] Instance key_prefix_dec k r : Decision (key_prefix k r).
Proof. unfold key_prefix. apply _. Defined.

(** ** RocksDB's raw iterator

    A cursor over a snapshot of a table.  [ahead] and [behind] are the rows it
    still has to visit going forward and backward; they exist to state the
    documented behaviour of the operations, which are all the code uses. *)

Class Engine := {
  iter : Type;
  raw_iterator : table -> iter;
  seek : bytes -> iter -> iter;
  seek_for_prev : bytes -> iter -> iter;
  seek_to_first : iter -> iter;
  seek_to_last : iter -> iter;
  next : iter -> iter;
  prev : iter -> iter;
  item : iter -> option row;
  (** whether a cache-only seek completes, so that no pool thread is needed *)
  cached : table -> option bytes -> bool;

  ahead : iter -> list row;
  behind : iter -> list row;
  ahead_seek : forall t k, ahead (seek k (raw_iterator t)) = filter (key_from k) (rows t);
  ahead_first : forall t, ahead (seek_to_first (raw_iterator t)) = rows t;
  ahead_next : forall i, ahead (next i) = tail (ahead i);
  behind_seek : forall t k,
    behind (seek_for_prev k (raw_iterator t)) = reverse (filter (key_upto k) (rows t));
  behind_last : forall t, behind (seek_to_last (raw_iterator t)) = reverse (rows t);
  behind_prev : forall i, behind (prev i) = tail (behind i);
  item_ahead : forall i, item i = head (ahead i);
  item_behind : forall i, item i = head (behind i) }.

(** A cursor that keeps the rows on both sides of it, for the witnesses. *)
Record list_cursor := MkCursor { lc_rows : list row; lc_ahead : list row; lc_behind : list row }.

Definition cursor_ok (c : list_cursor) : Prop := head (lc_ahead c) = head (lc_behind c).

Program Definition list_engine : Engine :=
  {| iter := { c : list_cursor | cursor_ok c };
     raw_iterator := fun t => MkCursor (rows t) [] [];
     seek := fun k c =>
       let a := filter (key_from k) (lc_rows (`c)) in
       MkCursor (lc_rows (`c)) a (from_option (fun r => [r]) [] (head a));
     seek_for_prev := fun k c =>
       let b := reverse (filter (key_upto k) (lc_rows (`c))) in
       MkCursor (lc_rows (`c)) (from_option (fun r => [r]) [] (head b)) b;
     seek_to_first := fun c =>
       let a := lc_rows (`c) in MkCursor a a (from_option (fun r => [r]) [] (head a));
     seek_to_last := fun c =>
       let b := reverse (lc_rows (`c)) in
       MkCursor (lc_rows (`c)) (from_option (fun r => [r]) [] (head b)) b;
     next := fun c =>
       let a := tail (lc_ahead (`c)) in
       MkCursor (lc_rows (`c)) a (from_option (fun r => [r]) [] (head a));
     prev := fun c =>
       let b := tail (lc_behind (`c)) in
       MkCursor (lc_rows (`c)) (from_option (fun r => [r]) [] (head b)) b;
     item := fun c => head (lc_ahead (`c));
     cached := fun _ _ => true;
     ahead := fun c => lc_ahead (`c);
     behind := fun c => lc_behind (`c) |}.
Next Obligation. done. Qed.
Next Obligation. intros k c. unfold cursor_ok. cbn. by destruct (filter _ _). Qed.
Next Obligation. intros k c. unfold cursor_ok. cbn. by destruct (reverse _). Qed.
Next Obligation. intros c. unfold cursor_ok. cbn. by destruct (lc_rows _). Qed.
Next Obligation. intros c. unfold cursor_ok. cbn. by destruct (reverse _). Qed.
Next Obligation. intros c. unfold cursor_ok. cbn. by destruct (tail _). Qed.
Next Obligation. intros c. unfold cursor_ok. cbn. by destruct (tail _). Qed.
Next Obligation. done. Qed.
Next Obligation. done. Qed.
Next Obligation. done. Qed.
Next Obligation. done. Qed.
Next Obligation. done. Qed.
Next Obligation. done. Qed.
Next Obligation. done. Qed.
Next Obligation. by intros [c H]. Qed.

Inductive Direction := Forward | Reverse.

(** ** Cursors: [src/database/stream.rs] *)

Section streams.
Context (debug : bool) {E : Engine}.

Record State := MkState { inner : iter; st_seek : bool; st_init : bool }.

Definition state_new (t : table) : State := MkState (raw_iterator t) false true.

Definition init_fwd (from : option bytes) (s : State) : State :=
  MkState (match from with Some k => seek k (inner s) | None => seek_to_first (inner s) end)
    true (st_init s).

Definition init_rev (from : option bytes) (s : State) : State :=
  MkState (match from with Some k => seek_for_prev k (inner s) | None => seek_to_last (inner s) end)
    true (st_init s).

Definition seek_fwd (s : State) : State :=
  MkState
    (if negb (st_init s) then next (inner s)
     else if negb (st_seek s) then seek_to_first (inner s) else inner s)
    (st_seek s) false.

Definition seek_rev (s : State) : State :=
  MkState
    (if negb (st_init s) then prev (inner s)
     else if negb (st_seek s) then seek_to_last (inner s) else inner s)
    (st_seek s) false.

Definition fetch (s : State) : option row := item (inner s).

(** [handle_iter]: the seek a pool thread makes when the cache cannot. *)
Definition handle_iter (dir : Direction) (key : option bytes) (s : State) : State :=
  match dir with Forward => init_fwd key s | Reverse => init_rev key s end.

(** [seek_and_get] of [Items] and of [ItemsRev]. *)
Definition poll_next (dir : Direction) (s : State) : State * option row :=
  let s := match dir with Forward => seek_fwd s | Reverse => seek_rev s end in
  (s, fetch s).

(** Polls a stream until it ends. *)
Fixpoint drain (fuel : nat) (dir : Direction) (s : State) : list row :=
  match fuel with
  | O => []
  | S fuel =>
      match poll_next dir s with
      | (s, Some r) => r :: drain fuel dir s
      | (_, None) => []
      end
  end.

(** A stream over a table sees each row at most once. *)
Definition stream_of (t : table) (dir : Direction) (s : State) : list row :=
  drain (S (size t)) dir s.

(** ** Streams of rows: [src/database/map/*.rs] *)

Definition raw_stream (t : table) : list row :=
  let state := state_new t in
  stream_of t Forward
    (if cached t None then init_fwd None state else handle_iter Forward None state).

Definition raw_stream_from (t : table) (from : bytes) : list row :=
  let state := state_new t in
  stream_of t Forward
    (if cached t (Some from) then init_fwd (Some from) state
     else handle_iter Forward (Some from) state).

Definition rev_raw_stream (t : table) : list row :=
  let state := state_new t in
  stream_of t Reverse
    (if cached t None then init_rev None state else handle_iter Reverse None state).

Definition rev_raw_stream_from (t : table) (from : bytes) : list row :=
  let state := state_new t in
  stream_of t Reverse
    (if cached t (Some from) then init_rev (Some from) state
     else handle_iter Reverse (Some from) state).

(** [try_take_while]. *)
Fixpoint take_while {A} (P : A -> Prop) `{!forall x, Decision (P x)} (l : list A) : list A :=
  match l with
  | [] => []
  | a :: l => if decide (P a) then a :: take_while P l else []
  end.

Definition raw_stream_prefix (t : table) (prefix : bytes) : list row :=
  take_while (key_prefix prefix) (raw_stream_from t prefix).

Definition rev_raw_stream_prefix (t : table) (prefix : bytes) : list row :=
  take_while (key_prefix prefix) (rev_raw_stream_from t prefix).

Definition raw_keys (t : table) : list bytes := (raw_stream t).*1.
Definition raw_keys_from (t : table) (from : bytes) : list bytes := (raw_stream_from t from).*1.
Definition raw_keys_prefix (t : table) (prefix : bytes) : list bytes :=
  take_while (fun k => prefix `prefix_of` k) (raw_keys_from t prefix).
Definition rev_raw_keys (t : table) : list bytes := (rev_raw_stream t).*1.
Definition rev_raw_keys_from (t : table) (from : bytes) : list bytes :=
  (rev_raw_stream_from t from).*1.
Definition rev_raw_keys_prefix (t : table) (prefix : bytes) : list bytes :=
  take_while (fun k => prefix `prefix_of` k) (rev_raw_keys_from t prefix).

(** ** Serialized queries and deserialized results *)

(** [serialize_key(prefix).expect(…)]. *)
Definition serialize_key (key : value) : outcome CodecError bytes :=
  match serialize_to_vec debug key with Fail _ => Panic | o => o end.

Definition keys_prefix_raw (t : table) (prefix : value) : outcome CodecError (list bytes) :=
  key ← serialize_key prefix; Done (raw_keys_prefix t key).

Definition stream_prefix_raw (t : table) (prefix : value) : outcome CodecError (list row) :=
  key ← serialize_key prefix; Done (raw_stream_prefix t key).

Definition stream_from_raw (t : table) (from : value) : outcome CodecError (list row) :=
  key ← serialize_key from; Done (raw_stream_from t key).

Definition rev_stream_from_raw (t : table) (from : value) : outcome CodecError (list row) :=
  key ← serialize_key from; Done (rev_raw_stream_from t key).

Definition deserialize_key (K : ty) (k : bytes) : outcome CodecError value := from_slice debug K k.

Definition deserialize (K V : ty) (kv : row) : outcome CodecError (value * value) :=
  k ← from_slice debug K kv.1; v ← from_slice debug V kv.2; Done (k, v).

(** The items of [keys_prefix], [keys_raw_prefix] and [stream_prefix]. *)
Definition keys_prefix (K : ty) (t : table) (prefix : value)
    : outcome CodecError (list (outcome CodecError value)) :=
  ks ← keys_prefix_raw t prefix; Done (deserialize_key K <$> (ks : list bytes)).

Definition keys_raw_prefix (K : ty) (t : table) (prefix : bytes) : list (outcome CodecError value) :=
  deserialize_key K <$> raw_keys_prefix t prefix.

Definition stream_prefix (K V : ty) (t : table) (prefix : value)
    : outcome CodecError (list (outcome CodecError (value * value))) :=
  rs ← stream_prefix_raw t prefix; Done (deserialize K V <$> (rs : list row)).

Definition stream_raw_prefix (K V : ty) (t : table) (prefix : bytes)
    : list (outcome CodecError (value * value)) :=
  deserialize K V <$> raw_stream_prefix t prefix.

(** [ignore_err] on a stream of results: errors are dropped, a panic is not. *)
Fixpoint ignore_err {Er A} (l : list (outcome Er A)) : outcome Er (list A) :=
  match l with
  | [] => Done []
  | Done a :: l => r ← ignore_err l; Done (a :: r)
  | Fail _ :: l => ignore_err l
  | Panic :: _ => Panic
  | OutOfFuel :: _ => OutOfFuel
  end.

(** ** Counts *)

Definition count (t : table) : nat := length (raw_keys t).
Definition raw_count_from (t : table) (from : bytes) : nat := length (raw_keys_from t from).
Definition raw_count_prefix (t : table) (prefix : bytes) : nat := length (raw_keys_prefix t prefix).
Definition count_prefix (t : table) (prefix : value) : outcome CodecError nat :=
  ks ← keys_prefix_raw t prefix; Done (length ks).

(** [for_clear]: the keys of a snapshot, each removed as it is met. *)
Definition clear_map (t : table) : table := foldl (fun t k => delete k t) t (raw_keys t).

(** ** Writes: [insert.rs] and [remove.rs]

    [buf] is the capacity of the stack buffer a key or a value is serialized
    to, if it is a fixed one. *)

Definition buffer_serialize (buf : option nat) (v : value) : outcome CodecError bytes :=
  match serialize debug buf v with Fail _ => Panic | o => o end.

Definition bput_raw (kbuf : option nat) (t : table) (key : value) (val : bytes)
    : outcome CodecError table :=
  key ← buffer_serialize kbuf key; Done (<[key := val]> t).

Definition bput (kbuf vbuf : option nat) (t : table) (key val : value) : outcome CodecError table :=
  val ← buffer_serialize vbuf val; bput_raw kbuf t key val.

Definition raw_bput (vbuf : option nat) (t : table) (key : bytes) (val : value)
    : outcome CodecError table :=
  val ← buffer_serialize vbuf val; Done (<[key := val]> t).

Definition put (t : table) (key val : value) : outcome CodecError table := bput None None t key val.
Definition put_raw (t : table) (key : value) (val : bytes) : outcome CodecError table :=
  bput_raw None t key val.
Definition raw_put (t : table) (key : bytes) (val : value) : outcome CodecError table :=
  raw_bput None t key val.
Definition put_aput (vmax : nat) (t : table) (key val : value) : outcome CodecError table :=
  bput None (Some vmax) t key val.
Definition aput (kmax vmax : nat) (t : table) (key val : value) : outcome CodecError table :=
  bput (Some kmax) (Some vmax) t key val.
Definition aput_raw (kmax : nat) (t : table) (key : value) (val : bytes) : outcome CodecError table :=
  bput_raw (Some kmax) t key val.
Definition raw_aput (vmax : nat) (t : table) (key : bytes) (val : value) : outcome CodecError table :=
  raw_bput (Some vmax) t key val.

Definition insert_batch (t : table) (l : list row) : table :=
  foldl (fun t kv => <[kv.1 := kv.2]> t) t l.

Definition bdel (kbuf : option nat) (t : table) (key : value) : outcome CodecError table :=
  key ← buffer_serialize kbuf key; Done (delete key t).
Definition del (t : table) (key : value) : outcome CodecError table := bdel None t key.
Definition adel (kmax : nat) (t : table) (key : value) : outcome CodecError table :=
  bdel (Some kmax) t key.

(** ** Lookups: [get.rs], [qry.rs], [contains.rs] *)

Inductive DbError := NotFound | DeError (e : CodecError).

Definition lift_de {A} (o : outcome CodecError A) : outcome DbError A :=
  match o with
  | Done a => Done a | Fail e => Fail (DeError e) | Panic => Panic | OutOfFuel => OutOfFuel
  end.

Definition get (t : table) (key : bytes) : outcome DbError bytes := ok_or NotFound (t !! key).

Definition bqry (kbuf : option nat) (t : table) (key : value) : outcome DbError bytes :=
  key ← lift_de (buffer_serialize kbuf key); get t key.
Definition qry (t : table) (key : value) : outcome DbError bytes := bqry None t key.
Definition aqry (kmax : nat) (t : table) (key : value) : outcome DbError bytes :=
  bqry (Some kmax) t key.

(** [Result::is_ok] of a future: a panic is passed on. *)
Definition is_ok {Er A} (o : outcome Er A) : outcome Er bool :=
  match o with
  | Done _ => Done true | Fail _ => Done false | Panic => Panic | OutOfFuel => OutOfFuel
  end.

Definition contains (t : table) (key : value) : outcome DbError bool := is_ok (qry t key).

(** [get(key).await.deserialized()] and [qry(key).await.deserialized()]. *)
Definition deserialized (T : ty) (h : outcome DbError bytes) : outcome DbError value :=
  b ← h; lift_de (from_slice debug T b).

End streams.

(** ** Facts about the order *)

Lemma ord_le_nil (k : bytes) : ord_le [] k.
Proof. by destruct k. Qed.

Lemma ord_le_cons x y (a b : bytes) :
  ord_le (x :: a) (y :: b) <->
  (Z_of_byte x < Z_of_byte y)%Z \/ x = y /\ ord_le a b.
Proof.
  unfold ord_le. cbn. destruct (Z.compare_spec (Z_of_byte x) (Z_of_byte y)) as [H|H|H].
  - apply Z_of_byte_inj in H as ->. split; [by right|]. intros [|[_ ?]]; [lia|done].
  - split; [by left|done].
  - split; [done|]. intros [|[-> _]]; lia.
Qed.

(** A key is not below its prefixes, and what lies between a prefix and a key
    with that prefix has the prefix too. *)
Lemma prefix_ord_le (p k : bytes) : p `prefix_of` k -> ord_le p k.
Proof.
  intros [r ->]. induction p as [|x p IH]; [apply ord_le_nil|].
  apply ord_le_cons. by right.
Qed.

Lemma prefix_between (p a b : bytes) :
  ord_le p a -> ord_le a b -> p `prefix_of` b -> p `prefix_of` a.
Proof.
  intros Hpa Hab [r ->]. revert a Hpa Hab. induction p as [|x p IH]; intros a Hpa Hab; [apply prefix_nil|].
  destruct a as [|y a]; [done|]. cbn [app] in Hab.
  rewrite ord_le_cons in Hpa, Hab.
  destruct Hpa as [Hxy|[<- Hpa]], Hab as [Hyx|[E Hab]]; subst; try lia.
  apply prefix_cons, IH; done.
Qed.

Lemma prefix_upto (p k : bytes) : p `prefix_of` k -> ord_le k p -> k = p.
Proof. intros Hp Hk. apply ord_le_antisym; [done|by apply prefix_ord_le]. Qed.

Lemma ord_le_refl (k : bytes) : ord_le k k.
Proof. by apply prefix_ord_le. Qed.
#[export] Hint Resolve ord_le_refl : core.

Lemma ord_le_app (p x y : bytes) : ord_le (p ++ x) (p ++ y) <-> ord_le x y.
Proof. unfold ord_le. cbn. by rewrite bytes_cmp_app, bytes_cmp_refl. Qed.

(** Numbers of fixed width compare before what follows them. *)
Lemma ord_le_u64 a b (x y : bytes) :
  is_u64 a -> is_u64 b ->
  ord_le (u64_to_be_bytes a ++ x) (u64_to_be_bytes b ++ y) <->
  (a < b)%Z \/ a = b /\ ord_le x y.
Proof.
  intros Ha Hb. unfold ord_le. cbn. rewrite bytes_cmp_app by by rewrite !length_u64_to_be.
  rewrite bytes_cmp_u64 by done. destruct (Z.compare_spec a b) as [->|H|H].
  - split; [by right|]. intros [|[_ ?]]; [lia|done].
  - split; [by left|done].
  - split; [done|]. intros [|[-> _]]; lia.
Qed.

(** ** The rows of a table *)

Lemma elem_of_rows t k v : (k, v) ∈ rows t <-> t !! k = Some v.
Proof. unfold rows. by rewrite merge_sort_Permutation, elem_of_map_to_list. Qed.

Lemma length_rows t : length (rows t) = size t.
Proof. unfold rows. by rewrite merge_sort_Permutation, length_map_to_list. Qed.

Lemma rows_NoDup_keys t : NoDup (rows t).*1.
Proof. unfold rows. rewrite merge_sort_Permutation. apply NoDup_fst_map_to_list. Qed.

Lemma rows_sorted t : StronglySorted key_le (rows t).
Proof.
  apply StronglySorted_merge_sort.
  - intros a b c. apply ord_le_trans.
  - intros a b. unfold key_le. apply (total ord_le).
Qed.

Lemma elem_of_row_keys t k : k ∈ (rows t).*1 <-> is_Some (t !! k).
Proof.
  rewrite list_elem_of_fmap. split.
  - intros ([k' v] & -> & H%elem_of_rows). by exists v.
  - intros [v Hv]. exists (k, v). by rewrite elem_of_rows.
Qed.

(** A table has one sorted list of rows. *)
Lemma sorted_rows_unique (l1 l2 : list row) :
  StronglySorted key_le l1 -> StronglySorted key_le l2 -> NoDup l1.*1 -> l1 ≡ₚ l2 -> l1 = l2.
Proof.
  intros H1. revert l2. induction H1 as [|a l1 H1 IH Ha]; intros l2 H2 Hn Hp.
  { by apply Permutation_nil_l. }
  destruct H2 as [|b l2 H2 Hb]; [by apply Permutation_nil_r in Hp|].
  assert (a = b) as <-.
  { assert (a ∈ b :: l2) as [Hab|Hab]%elem_of_cons by (rewrite <- Hp; left); [done|].
    assert (b ∈ a :: l1) as [Hba|Hba]%elem_of_cons by (rewrite Hp; left); [done|].
    rewrite Forall_forall in Ha, Hb. destruct a as [k v], b as [k' v'].
    assert (k = k') as <- by (apply ord_le_antisym; [by apply (Ha (k', v'))|by apply (Hb (k, v))]).
    eapply NoDup_fmap_fst_unique; [exact Hn|left|by right]. }
  f_equal. apply IH; [done| |by apply (Permutation_cons_inv (a := a))].
  by apply NoDup_cons in Hn as [_ Hn].
Qed.

Lemma rows_unique (l : list row) t :
  StronglySorted key_le l -> NoDup l.*1 -> (forall k v, (k, v) ∈ l <-> t !! k = Some v) -> rows t = l.
Proof.
  intros Hs Hn Hl. symmetry. apply sorted_rows_unique; [done|apply rows_sorted|done|].
  apply NoDup_Permutation; [by eapply NoDup_fmap_1|by eapply NoDup_fmap_1, rows_NoDup_keys|].
  intros [k v]. by rewrite Hl, elem_of_rows.
Qed.

Lemma rows_empty : rows ∅ = [].
Proof. done. Qed.

Lemma take_while_sorted {A} (R : relation A) (P : A -> Prop) `{!forall x, Decision (P x)} l :
  StronglySorted R l -> (forall a b, R a b -> P b -> P a) -> take_while P l = filter P l.
Proof.
  intros Hl HP. induction Hl as [|a l Hl IH Ha]; [done|]. rewrite filter_cons. cbn.
  destruct (decide (P a)) as [Pa|Pa]; [by rewrite IH|].
  symmetry. clear -Ha HP Pa. induction Ha as [|b l Hb _ IH]; [done|].
  rewrite filter_cons_False; [done|]. intros Pb. eauto.
Qed.

Lemma take_while_fmap {A B} (f : A -> B) (P : B -> Prop) `{!forall x, Decision (P x)} l :
  take_while P (f <$> l) = f <$> take_while (fun x => P (f x)) l.
Proof. induction l as [|a l IH]; [done|]. cbn. case_decide; [|done]. cbn. by f_equal. Qed.

Lemma filter_sorted {A} (R : relation A) (P : A -> Prop) `{!forall x, Decision (P x)} l :
  StronglySorted R l -> StronglySorted R (filter P l).
Proof.
  intros Hl. induction Hl as [|a l Hl IH Ha]; [constructor|]. rewrite filter_cons.
  case_decide; [|done]. constructor; [done|]. apply Forall_forall. intros x [_ Hx]%list_elem_of_filter.
  by eapply Forall_forall in Ha.
Qed.

Lemma sorted_impl {A} (R S : relation A) l :
  StronglySorted R l -> (forall a b, R a b -> S a b) -> StronglySorted S l.
Proof. intros Hl HS. induction Hl; constructor; [done|]. eapply Forall_impl; eauto. Qed.

Lemma sorted_with_elem {A} (R : relation A) l :
  StronglySorted R l -> StronglySorted (fun a b => a ∈ l /\ b ∈ l /\ R a b) l.
Proof.
  induction 1 as [|a l Hl IH Ha]; constructor.
  - eapply sorted_impl; [exact IH|]. intros x y (? & ? & ?). split_and!; [by right..|done].
  - rewrite Forall_forall in *. intros x Hx. split_and!; [by left|by right|auto].
Qed.

Lemma take_while_filter_prefix p l :
  StronglySorted key_le l ->
  take_while (key_prefix p) (filter (key_from p) l) = filter (key_prefix p) l.
Proof.
  intros Hl. rewrite (take_while_sorted (fun a b => key_from p a /\ key_le a b)).
  - rewrite list_filter_filter. apply list_filter_iff. intros r. split; [tauto|].
    intros Hr. split; [done|]. by apply prefix_ord_le.
  - assert (Forall (key_from p) (filter (key_from p) l)) as Hf.
    { apply Forall_forall. by intros r [? _]%list_elem_of_filter. }
    pose proof (filter_sorted key_le (key_from p) l Hl) as Hs. revert Hf.
    induction Hs as [|a l' Hl' IH Ha]; intros Hf; [constructor|]. inversion Hf; subst.
    constructor; [auto|]. eapply Forall_impl; [exact Ha|]. done.
  - intros a b [Ha Hab]. unfold key_prefix. by apply prefix_between.
Qed.

(** ** What the streams yield *)

Section stream_facts.
Context (debug : bool) {E : Engine}.

Definition remaining (dir : Direction) (i : iter) : list row :=
  match dir with Forward => ahead i | Reverse => behind i end.

Lemma drain_moving fuel dir s :
  st_init s = false -> length (tail (remaining dir (inner s))) < fuel ->
  drain fuel dir s = tail (remaining dir (inner s)).
Proof.
  revert s. induction fuel as [|fuel IH]; intros s Hi Hf; [lia|]. cbn [drain].
  unfold poll_next, seek_fwd, seek_rev, fetch. rewrite Hi.
  destruct dir; cbn [remaining negb inner] in *.
  - rewrite item_ahead, ahead_next. destruct (tail (ahead (inner s))) as [|r l] eqn:El; [done|]. cbn. f_equal.
    rewrite IH; cbn; rewrite ?ahead_next, ?El; cbn in *; [done..|lia].
  - rewrite item_behind, behind_prev. destruct (tail (behind (inner s))) as [|r l] eqn:El; [done|]. cbn. f_equal.
    rewrite IH; cbn; rewrite ?behind_prev, ?El; cbn in *; [done..|lia].
Qed.

Lemma drain_start fuel dir i :
  length (remaining dir i) < fuel -> drain fuel dir (MkState i true true) = remaining dir i.
Proof.
  destruct fuel as [|fuel]; intros Hf; [lia|]. cbn [drain].
  unfold poll_next, seek_fwd, seek_rev, fetch. destruct dir; cbn [remaining negb inner] in *.
  - cbn. rewrite item_ahead. destruct (ahead i) as [|r l] eqn:El; [done|]. cbn. f_equal.
    rewrite drain_moving; cbn; rewrite ?El; cbn in *; [done..|lia].
  - cbn. rewrite item_behind. destruct (behind i) as [|r l] eqn:El; [done|]. cbn. f_equal.
    rewrite drain_moving; cbn; rewrite ?El; cbn in *; [done..|lia].
Qed.

Lemma length_filter_rows P `{!forall x, Decision (P x)} t : length (filter P (rows t)) < S (size t).
Proof. rewrite <- length_rows. pose proof (length_filter P (rows t)). lia. Qed.

Lemma raw_stream_rows t : raw_stream t = rows t.
Proof.
  unfold raw_stream, stream_of, handle_iter, init_fwd, state_new. cbn [inner st_init].
  destruct (cached t None); rewrite drain_start; cbn [remaining]; rewrite ahead_first; auto;
    rewrite length_rows; lia.
Qed.

Lemma raw_stream_from_rows t k : raw_stream_from t k = filter (key_from k) (rows t).
Proof.
  unfold raw_stream_from, stream_of, handle_iter, init_fwd, state_new. cbn [inner st_init].
  destruct (cached t (Some k)); rewrite drain_start; cbn [remaining]; rewrite ahead_seek;
    auto using length_filter_rows.
Qed.

Lemma rev_raw_stream_rows t : rev_raw_stream t = reverse (rows t).
Proof.
  unfold rev_raw_stream, stream_of, handle_iter, init_rev, state_new. cbn [inner st_init].
  destruct (cached t None); rewrite drain_start; cbn [remaining]; rewrite behind_last; auto;
    rewrite length_reverse, length_rows; lia.
Qed.

Lemma rev_raw_stream_from_rows t k :
  rev_raw_stream_from t k = reverse (filter (key_upto k) (rows t)).
Proof.
  unfold rev_raw_stream_from, stream_of, handle_iter, init_rev, state_new. cbn [inner st_init].
  destruct (cached t (Some k)); rewrite drain_start; cbn [remaining]; rewrite behind_seek;
    rewrite ?length_reverse; auto using length_filter_rows.
Qed.

Lemma raw_stream_prefix_rows t p : raw_stream_prefix t p = filter (key_prefix p) (rows t).
Proof.
  unfold raw_stream_prefix. rewrite raw_stream_from_rows.
  apply take_while_filter_prefix, rows_sorted.
Qed.

Lemma raw_keys_prefix_rows t p : raw_keys_prefix t p = (filter (key_prefix p) (rows t)).*1.
Proof.
  unfold raw_keys_prefix, raw_keys_from. rewrite take_while_fmap, <- raw_stream_prefix_rows. done.
Qed.

Lemma elem_of_raw_keys_prefix t p k :
  k ∈ raw_keys_prefix t p <-> p `prefix_of` k /\ is_Some (t !! k).
Proof.
  rewrite raw_keys_prefix_rows, list_elem_of_fmap. split.
  - intros ([k' v] & -> & [Hp Hr]%list_elem_of_filter). apply elem_of_rows in Hr. by eauto.
  - intros [Hp [v Hv]]. exists (k, v). split; [done|]. apply list_elem_of_filter.
    by rewrite elem_of_rows.
Qed.

Lemma raw_keys_prefix_NoDup t p : NoDup (raw_keys_prefix t p).
Proof. rewrite raw_keys_prefix_rows. apply NoDup_fmap_fst_filter, rows_NoDup_keys. Qed.

Lemma StronglySorted_keys l : StronglySorted key_le l -> StronglySorted ord_le l.*1.
Proof. apply StronglySorted_fmap. intros a b. done. Qed.

Lemma raw_keys_prefix_sorted t p : StronglySorted ord_le (raw_keys_prefix t p).
Proof.
  rewrite raw_keys_prefix_rows. apply StronglySorted_keys, filter_sorted, rows_sorted.
Qed.

End stream_facts.

(** ** Watchers: [src/database/watchers.rs] *)

Module Watchers.

(** The prefixes that are watched; each has one channel. *)
Abbreviation watchers := (gset bytes).

Definition watch (prefix : bytes) (w : watchers) : watchers := {[ prefix ]} ∪ w.

(** The prefixes that are woken, shortest first, and what is still watched. *)
Definition wake (key : bytes) (w : watchers) : list bytes * watchers :=
  let triggered := filter (fun p => p ∈ w) ((fun n => take n key) <$> List.seq 0 (S (length key))) in
  (triggered, foldl (fun w p => w ∖ {[ p ]}) w triggered).

(** [Map::insert] with its watchers; [remove] and [insert_batch] wake nobody. *)
Definition insert (t : table) (w : watchers) (key val : bytes) : list bytes * (table * watchers) :=
  let '(woken, w) := wake key w in (woken, (<[key := val]> t, w)).

Lemma elem_of_takes (p key : bytes) :
  p ∈ ((fun n => take n key) <$> List.seq 0 (S (length key))) <-> p `prefix_of` key.
Proof.
  rewrite list_elem_of_fmap. split.
  - intros (n & -> & _). exists (drop n key). by rewrite take_drop.
  - intros [r ->]. exists (length p). split; [by rewrite take_app_length|].
    apply elem_of_seq. rewrite length_app. lia.
Qed.

Lemma elem_of_removed (l : list bytes) (w : watchers) p :
  p ∈ foldl (fun w p => w ∖ {[ p ]}) w l <-> p ∈ w /\ p ∉ l.
Proof.
  revert w. induction l as [|q l IH]; intros w; cbn; [set_solver|].
  rewrite IH. set_solver.
Qed.

Lemma takes_NoDup (key : bytes) : NoDup ((fun n => take n key) <$> List.seq 0 (S (length key))).
Proof.
  apply NoDup_fmap_2_strong; [|apply NoDup_seq].
  intros n m Hn%elem_of_seq Hm%elem_of_seq E. apply (f_equal length) in E.
  rewrite !length_take in E. lia.
Qed.

(** An insertion wakes a watcher exactly when the watched prefix is a prefix
    of the inserted key, each such watcher once, and a woken watcher is no
    longer watched while every other one still is. *)
Theorem insert_wakes_prefixes t w key val woken t' w' :
  insert t w key val = (woken, (t', w')) ->
  NoDup woken /\ (forall p, p ∈ woken <-> p ∈ w /\ p `prefix_of` key) /\
  (forall p, p ∈ w' <-> p ∈ w /\ ~ p `prefix_of` key) /\ t' !! key = Some val.
Proof.
  unfold insert, wake. intros [= <- <- <-].
  assert (forall p, p ∈ filter (fun p => p ∈ w) ((fun n => take n key) <$> List.seq 0 (S (length key)))
                    <-> p ∈ w /\ p `prefix_of` key) as Ht.
  { intros p. by rewrite list_elem_of_filter, elem_of_takes. }
  split_and!; [apply NoDup_filter, takes_NoDup|done| |apply lookup_insert_eq].
  intros p. rewrite elem_of_removed, Ht. naive_solver.
Qed.

Lemma insert_wakes_prefixes_witness :
  str "@a" ∈ (insert ∅ {[ str "@a"; str "@b" ]} (str "@a:c") []).1.
Proof.
  destruct (insert ∅ {[ str "@a"; str "@b" ]} (str "@a:c") []) as [woken [t' w']] eqn:E.
  apply (insert_wakes_prefixes _ _ _ _ _ _ _ E). split; [set_solver|]. by exists (str ":c").
Defined.

End Watchers.

(** ** Keys of text fields *)

Section text_keys.
Context (debug : bool).

Lemma from_slice_ignore_text a s :
  SEP ∉ a -> utf8_valid s = true ->
  from_slice debug (TTuple [TIgnore; TStr]) (a ++ SEP :: s) = Done (VTuple [VIgnored; VStr s]).
Proof.
  intros Ha Hs. apply from_slice_records; [|by destruct a].
  constructor; [by constructor|]. constructor. by apply (reads_field true TStr (VStr s)), field_str.
Qed.

Lemma from_slice_u64 z : is_u64 z -> from_slice debug TU64 (u64_to_be_bytes z) = Done (VU64 z).
Proof.
  intros Hz. unfold from_slice. cbn [de_value]. unfold fixed8. cbn [buf pos].
  rewrite decide_False by lia. rewrite length_u64_to_be. cbn [Nat.min Nat.sub Nat.add].
  rewrite drop_0, take_ge by by rewrite length_u64_to_be.
  rewrite decide_True by apply length_u64_to_be. unfold inc_pos. cbn [buf pos].
  rewrite debug_assert_true by (apply bool_decide_eq_true; rewrite length_u64_to_be; lia).
  cbn [mbind outcome_bind]. rewrite u64_be_roundtrip by done. rewrite debug_assert_true; [done|].
  unfold finished. cbn [buf pos]. rewrite length_u64_to_be.
  by rewrite drop_ge by by rewrite length_u64_to_be.
Qed.

Lemma from_slice_ignored k : from_slice debug TIgnore k = Done VIgnored.
Proof.
  unfold from_slice. cbn [de_value]. unfold record_ignore. cbn [DbCodec.seq].
  unfold record_ignore_all, record_trail, rest. cbn [pos buf]. rewrite decide_True by lia.
  cbn [mbind outcome_bind]. rewrite drop_0. unfold inc_pos. cbn [pos buf].
  rewrite debug_assert_true by (apply bool_decide_eq_true; lia). cbn [mbind outcome_bind fmap outcome_fmap snd].
  rewrite debug_assert_true; [done|]. unfold finished. cbn [buf pos].
  rewrite Nat.add_0_l, drop_all. by rewrite bool_decide_true.
Qed.

Lemma from_slice_str l : utf8_valid l = true -> from_slice debug TStr l = Done (VStr l).
Proof.
  intros Hl. unfold from_slice. cbn [de_value]. unfold record_next, rest. cbn [buf pos].
  rewrite decide_True by lia. cbn [mbind outcome_bind]. rewrite drop_0.
  rewrite (proj2 (until_sep_app l [] (utf8_no_sep l Hl))). unfold inc_pos. cbn [buf pos].
  rewrite debug_assert_true by (apply bool_decide_eq_true; lia). cbn [mbind outcome_bind].
  unfold str_from_bytes. rewrite Hl. cbn [mbind outcome_bind]. rewrite debug_assert_true; [done|].
  unfold finished. cbn [buf pos]. rewrite Nat.add_0_l, drop_all. by rewrite bool_decide_true.
Qed.

Lemma serialize_pair a b :
  utf8_valid a = true -> utf8_valid b = true ->
  serialize_key debug (VTuple [VStr a; VStr b]) = Done (a ++ SEP :: b).
Proof.
  intros Ha Hb. unfold serialize_key.
  rewrite (serialize_fields debug [TStr; TStr]) by by repeat constructor. done.
Qed.

Lemma serialize_key_interfix a : serialize_key debug (VTuple [VStr a; VInterfix]) = Done (a ++ [SEP]).
Proof. unfold serialize_key. by rewrite serialize_interfix. Qed.

End text_keys.

(** The prefix [(a, Interfix)] selects the keys that begin with the field [a]. *)
Lemma interfix_prefix (a a' r : bytes) :
  SEP ∉ a -> SEP ∉ a' -> (a ++ [SEP]) `prefix_of` (a' ++ SEP :: r) <-> a = a'.
Proof.
  intros Ha Ha'. split.
  - intros [q Hq]. rewrite <- app_assoc in Hq. symmetry in Hq. by apply sep_split in Hq as [-> _].
  - intros ->. exists r. by rewrite <- app_assoc.
Qed.

Lemma ignore_err_done {Er A B} (f : A -> outcome Er B) (g : A -> B) l :
  (forall a, a ∈ l -> f a = Done (g a)) -> ignore_err (f <$> l) = Done (g <$> l).
Proof.
  induction l as [|a l IH]; intros Hf; [done|]. rewrite !fmap_cons. cbn.
  rewrite Hf by left. rewrite IH; [done|]. intros x Hx. apply Hf. by right.
Qed.

(** When every item decodes, the results are those of any function that agrees
    with the decoder. *)
Lemma ignore_err_total {Er A B} (f : A -> outcome Er B) l (d : B) :
  (forall a, a ∈ l -> is_done (f a)) ->
  let g := fun a => match f a with Done b => b | _ => d end in
  ignore_err (f <$> l) = Done (g <$> l).
Proof. intros Hf g. apply ignore_err_done. intros a Ha. unfold g. by destruct (Hf a Ha) as [b ->]. Qed.

(** ** Reverse scans *)

Lemma key_is_prefix p (r : row) : key_prefix p r /\ key_upto p r <-> r.1 = p.
Proof.
  unfold key_prefix, key_upto. split; [intros []; by apply prefix_upto|].
  intros ->. split; [done|apply ord_le_refl].
Qed.

Lemma filter_reverse {A} (P : A -> Prop) `{!forall x, Decision (P x)} l :
  filter P (reverse l) = reverse (filter P l).
Proof.
  induction l as [|a l IH]; [done|]. rewrite reverse_cons, filter_app, IH, filter_cons.
  rewrite filter_cons, filter_nil. case_decide; [by rewrite reverse_cons|by rewrite app_nil_r].
Qed.

Lemma filter_key_eq t p :
  filter (fun r : row => r.1 = p) (rows t) = from_option (fun v => [(p, v)]) [] (t !! p).
Proof.
  destruct (t !! p) as [v|] eqn:Ht; cbn.
  - apply Permutation_singleton_r, NoDup_Permutation; [|apply NoDup_singleton|].
    + eapply NoDup_filter, NoDup_fmap_1, rows_NoDup_keys.
    + intros [k w]. rewrite list_elem_of_filter, elem_of_rows, list_elem_of_singleton. cbn.
      naive_solver.
  - destruct (filter _ (rows t)) as [|[k w] l] eqn:El; [done|].
    assert ((k, w) ∈ filter (fun r : row => r.1 = p) (rows t)) as H by (rewrite El; left).
    apply list_elem_of_filter in H as [Hk H%elem_of_rows]. cbn in Hk. congruence.
Qed.

Lemma upto_reverse_sorted p l :
  StronglySorted key_le l ->
  StronglySorted (fun a b => key_upto p a /\ key_le b a) (reverse (filter (key_upto p) l)).
Proof.
  intros Hl. apply (filter_sorted _ (key_upto p)) in Hl.
  assert (Forall (key_upto p) (filter (key_upto p) l)) as Hf.
  { apply Forall_forall. by intros r [? _]%list_elem_of_filter. }
  induction Hl as [|a l' Hl' IH Ha]; [constructor|]. apply Forall_cons in Hf as [Hap Hf].
  rewrite reverse_cons. apply StronglySorted_app_2; [|by apply IH|repeat constructor].
  intros x y Hx Hy%list_elem_of_singleton. subst y. rewrite elem_of_reverse in Hx.
  rewrite Forall_forall in Ha, Hf. auto.
Qed.

(** ** Claims *)

(** C31. Scanning a table by a prefix, which seeks to the prefix and stops at the
    first key without it, yields exactly the rows whose key has that prefix, in
    key order, whether or not the seek is served from the cache. *)
Theorem prefix_stream_exact {E : Engine} t p :
  raw_stream_prefix t p = filter (key_prefix p) (rows t) /\
  StronglySorted key_le (raw_stream_prefix t p) /\
  forall k v, (k, v) ∈ raw_stream_prefix t p <-> t !! k = Some v /\ p `prefix_of` k.
Proof.
  rewrite raw_stream_prefix_rows. split_and!; [done|apply filter_sorted, rows_sorted|].
  intros k v. rewrite list_elem_of_filter, elem_of_rows. tauto.
Qed.

Definition toy_table : table :=
  list_to_map ((fun s => (str s, [])) <$> ["a"; "ab"; "abc"; "b"; "aa"])%string.

Lemma prefix_stream_exact_witness :
  (@raw_stream_prefix list_engine toy_table (str "ab")).*1 = [str "ab"; str "abc"].
Proof.
  destruct (@prefix_stream_exact list_engine toy_table (str "ab")) as [-> _]. by vm_compute.
Defined.

(** The reverse scan by a prefix seeks backwards from the prefix itself, and
    no key with the prefix sorts below it: the scan yields the row whose key is
    the prefix, if there is one, and none of the longer keys. *)
Theorem rev_prefix_stream_stops {E : Engine} t p :
  rev_raw_stream_prefix t p = from_option (fun v => [(p, v)]) [] (t !! p).
Proof.
  unfold rev_raw_stream_prefix. rewrite rev_raw_stream_from_rows.
  rewrite (take_while_sorted (fun a b => key_upto p a /\ key_le b a)).
  - rewrite filter_reverse, list_filter_filter.
    rewrite (list_filter_iff _ (fun r : row => r.1 = p)); [|apply key_is_prefix].
    rewrite filter_key_eq. by destruct (t !! p).
  - apply upto_reverse_sorted, rows_sorted.
  - intros a b [Ha Hba]. unfold key_prefix. intros Hb.
    assert (a.1 = p) as ->; [|done]. apply ord_le_antisym; [done|].
    eapply ord_le_trans; [by apply prefix_ord_le|done].
Qed.

Lemma rev_prefix_stream_stops_witness :
  @rev_raw_stream_prefix list_engine toy_table (str "a") = [(str "a", [])] /\
  @rev_raw_stream_prefix list_engine toy_table (str "b") = [(str "b", [])].
Proof. split; rewrite (@rev_prefix_stream_stops list_engine); by vm_compute. Defined.

Section claims.
Context (debug : bool).

(** A number fits the eight-byte stack buffer it is stored through, so
    storing it never panics, and it reads back. *)
Theorem counter_value_roundtrip t key n :
  is_u64 n ->
  exists t', raw_aput debug 8 t key (VU64 n) = Done t' /\
    deserialized debug TU64 (get t' key) = Done (VU64 n) /\
    forall k, k <> key -> t' !! k = t !! k.
Proof.
  intros Hn. exists (<[key := u64_to_be_bytes n]> t). split_and!.
  - unfold raw_aput, raw_bput, buffer_serialize, serialize. cbn [ser_value]. unfold write.
    cbn [out cap app from_option]. rewrite length_u64_to_be. by destruct debug.
  - unfold get. rewrite lookup_insert_eq. cbn [ok_or deserialized]. unfold deserialized. cbn [mbind outcome_bind].
    by rewrite from_slice_u64.
  - intros k Hk. by rewrite lookup_insert_ne.
Qed.
End claims.

Lemma counter_value_roundtrip_witness :
  exists t', raw_aput true 8 ∅ (str "c") (VU64 7) = Done t' /\
    deserialized true TU64 (get t' (str "c")) = Done (VU64 7).
Proof.
  destruct (counter_value_roundtrip true ∅ (str "c") 7) as (t' & H1 & H2 & _); [done|]. eauto.
Defined.
