(* ===== verification/CoreUtils.v ===== *)
(** * Utilities of the core crate

    Models [src/core/utils/set.rs], [src/core/utils/string.rs] with
    [string/{between,split,unquote}.rs], [src/core/utils/time/exponential_backoff.rs],
    [whole_unit] of [src/core/utils/time.rs], [clamp] of [math.rs], the checked
    operators of [math/{expected,tried}.rs] and
    [src/core/utils/content_disposition.rs]. *)

From stdpp Require Import prelude gmap strings list sorting.
From Stdlib Require Import ZArith Lia.
From Stdlib Require Import Strings.Byte.
From S2P Require Import Prelude MachineInt DbCodec.

Lemma filter_ext_elem {A} (P Q : A -> Prop) `{!forall x, Decision (P x), !forall x, Decision (Q x)} (l : list A) :
  (forall x, x ∈ l -> P x <-> Q x) -> filter P l = filter Q l.
Proof.
  induction l as [|a l IH]; intros HPQ; [done|]. rewrite !filter_cons.
  rewrite IH by (intros; apply HPQ; by right). pose proof (HPQ a ltac:(left)).
  repeat case_decide; naive_solver.
Qed.

(** ** [set.rs] *)

Module SetOps.

Section set_ops.
Context {A : Type} `{RustOrd A, EqDecision A}.
Implicit Types (l : list A) (x : A).

(** [intersection]: what every other input has, in the order of the first. *)
Definition intersection (input : list (list A)) : list A :=
  match input with
  | [] => []
  | first :: input =>
      filter (fun targ => Forall (fun other => targ ∈ other) input) first
  end.

Fixpoint skip_less (targ : A) (it : list A) : list A :=
  match it with
  | [] => []
  | a :: it' => match cmp a targ with Lt => skip_less targ it' | _ => it end
  end.

(** [input.iter_mut().all(…)]: every iterator up to the first that fails skips
    to its first item that is not less, and the peek takes that item off it. *)
Fixpoint all_peek (targ : A) (its : list (list A)) : bool * list (list A) :=
  match its with
  | [] => (true, [])
  | it :: its =>
      let it := skip_less targ it in
      if decide (head it = Some targ) then
        let '(b, its) := all_peek targ its in (b, tail it :: its)
      else (false, tail it :: its)
  end.

Fixpoint sorted_filter (first : list A) (its : list (list A)) : list A :=
  match first with
  | [] => []
  | targ :: first =>
      let '(b, its) := all_peek targ its in
      if b then targ :: sorted_filter first its else sorted_filter first its
  end.

Definition intersection_sorted (input : list (list A)) : list A :=
  match input with [] => [] | first :: input => sorted_filter first input end.

(** The [while let] loop with [next_if]: [Some rest] when [ai] was met. *)
Fixpoint next_if_loop (ai : A) (b : list A) : bool * list A :=
  match b with
  | [] => (false, [])
  | bi :: b' =>
      if decide (ord_le bi ai) then
        if decide (ai = bi) then (true, b') else next_if_loop ai b'
      else (false, b)
  end.

Fixpoint intersection_sorted_stream2 (a b : list A) : list A :=
  match a with
  | [] => []
  | ai :: a =>
      let '(found, b) := next_if_loop ai b in
      if found then ai :: intersection_sorted_stream2 a b
      else intersection_sorted_stream2 a b
  end.

(** *** Correctness *)

Definition ord_lt (a b : A) : Prop := cmp a b = Lt.

Lemma ord_lt_le a b : ord_lt a b -> ord_le a b.
Proof. unfold ord_lt, ord_le. by intros ->. Qed.

Lemma ord_lt_not_le a b : ord_lt a b -> ~ ord_le b a.
Proof. unfold ord_lt, ord_le. rewrite (cmp_antisym a b). intros ->. naive_solver. Qed.

Lemma not_le_lt a b : ~ ord_le b a -> ord_lt a b.
Proof.
  unfold ord_lt, ord_le. rewrite (cmp_antisym a b). destruct (cmp a b); naive_solver.
Qed.

Lemma next_if_loop_spec ai b :
  StronglySorted ord_lt b ->
  let '(found, b') := next_if_loop ai b in
  (found = true <-> ai ∈ b) /\ StronglySorted ord_lt b' /\
  forall x, ord_lt ai x -> x ∈ b <-> x ∈ b'.
Proof.
  induction 1 as [|bi b Hb IH Hlt]; cbn.
  - split_and!; [set_solver|constructor|done].
  - rewrite Forall_forall in Hlt. case_decide as Hle; [case_decide as Heq|].
    + subst bi. split_and!; [set_solver|done|]. intros x Hx. rewrite elem_of_cons.
      split; [|by right]. intros [->|]; [|done]. by apply ord_lt_not_le in Hx.
    + destruct (next_if_loop ai b) as [found b']. destruct IH as (IH1 & IH2 & IH3).
      split_and!; [rewrite elem_of_cons; naive_solver|done|].
      intros x Hx. rewrite elem_of_cons, <- IH3 by done. split; [|by right].
      intros [->|]; [|done]. by apply ord_lt_not_le in Hx.
    + split_and!; [|by constructor; [|apply Forall_forall]|done]. split; [done|].
      intros [->|Hin]%elem_of_cons; [done|]. destruct Hle. by apply ord_lt_le, Hlt.
Qed.

Lemma stream2_filter a b :
  StronglySorted ord_lt a -> StronglySorted ord_lt b ->
  intersection_sorted_stream2 a b = filter (fun x => x ∈ b) a.
Proof.
  intros Ha. revert b. induction Ha as [|ai a Ha IH Hlt]; intros b Hb; [done|].
  cbn [intersection_sorted_stream2]. pose proof (next_if_loop_spec ai b Hb) as Hs. destruct (next_if_loop ai b) as [found b'].
  destruct Hs as (Hf & Hb' & Hx). rewrite filter_cons.
  assert (filter (fun x => x ∈ b') a = filter (fun x => x ∈ b) a) as Hfl.
  { apply filter_ext_elem. rewrite Forall_forall in Hlt. intros x Hin. symmetry. auto. }
  destruct found.
  - rewrite decide_True by by apply Hf. by rewrite IH, Hfl.
  - rewrite decide_False by (intros Hin; by apply Hf in Hin). by rewrite IH, Hfl.
Qed.

Lemma skip_less_suffix targ it : exists pre, it = pre ++ skip_less targ it.
Proof.
  induction it as [|a it [pre IH]]; [by exists []|]. cbn.
  destruct (cmp a targ); [by exists []| |by exists []]. exists (a :: pre). cbn. by rewrite <- IH.
Qed.

Lemma all_peek_sound targ its :
  let '(b, its') := all_peek targ its in
  Forall2 (fun it it' => it' ⊆ it) its its' /\ (b = true -> Forall (fun it => targ ∈ it) its).
Proof.
  induction its as [|it its IH]; [done|]. cbn.
  destruct (skip_less_suffix targ it) as [pre Hpre].
  assert (tail (skip_less targ it) ⊆ it) as Ht.
  { intros x Hx. rewrite Hpre. apply elem_of_app. right. destruct (skip_less targ it); [done|by right]. }
  case_decide as Hh.
  - destruct (all_peek targ its) as [b its']. destruct IH as [IH1 IH2]. split; [by constructor|].
    intros Hb. constructor; [|auto]. rewrite Hpre. apply elem_of_app. right.
    destruct (skip_less targ it); [done|]. injection Hh as ->. left.
  - split; [|done]. constructor; [done|]. clear. induction its; constructor; set_solver.
Qed.

(** The merge of two sorted streams yields exactly their common elements, in
    order. *)
Theorem stream2_intersection a b :
  StronglySorted ord_lt a -> StronglySorted ord_lt b ->
  intersection_sorted_stream2 a b = intersection [a; b].
Proof.
  intros Ha Hb. rewrite stream2_filter by done. unfold intersection. apply filter_ext_elem. intros x _.
  rewrite Forall_singleton. done.
Qed.

End set_ops.

Lemma stream2_intersection_witness :
  intersection_sorted_stream2 [1; 2; 4]%Z [2; 3; 4]%Z = intersection [[1; 2; 4]; [2; 3; 4]]%Z.
Proof. apply stream2_intersection; repeat constructor. Defined.

(** The sorted intersection of several inputs does not yield all common
    elements: the first item that is not less than the one looked for is taken
    off an iterator even when it is greater.  [2] is in both inputs and sorted,
    yet it is lost once [1] was looked for. *)
Theorem intersection_sorted_loses :
  intersection_sorted [[1; 2]; [2]]%Z = [] /\ intersection [[1; 2]; [2]]%Z = [2]%Z /\
  StronglySorted ord_lt [1; 2]%Z /\ StronglySorted ord_lt [2]%Z.
Proof. split_and!; [done|by vm_compute|repeat constructor..]. Qed.

End SetOps.

(** ** [string.rs] and its parts

    A string is the list of its characters, given by their code points. *)

Module Str.

Abbreviation chars := (list Z).

Definition QUOTE : Z := 34.

Definition strip_prefix_char (q : Z) (s : chars) : option chars :=
  match s with c :: s' => if decide (c = q) then Some s' else None | [] => None end.
Definition strip_suffix_char (q : Z) (s : chars) : option chars :=
  reverse <$> strip_prefix_char q (reverse s).

Definition unquote_infallible (s : chars) : chars :=
  default s (strip_suffix_char QUOTE (default s (strip_prefix_char QUOTE s))).
Definition unquote (s : chars) : option chars :=
  s ← strip_prefix_char QUOTE s; strip_suffix_char QUOTE s.
Definition is_quoted (s : chars) : bool :=
  bool_decide (head s = Some QUOTE) && bool_decide (last s = Some QUOTE).

(** [str::split_once] and [str::rsplit_once]. *)
Fixpoint split_once (delim s : chars) : option (chars * chars) :=
  if decide (delim `prefix_of` s) then Some ([], drop (length delim) s) else
  match s with
  | [] => None
  | c :: s => '(a, b) ← split_once delim s; Some (c :: a, b)
  end.
Definition rsplit_once (delim s : chars) : option (chars * chars) :=
  '(a, b) ← split_once (reverse delim) (reverse s); Some (reverse b, reverse a).

Definition split_once_infallible (delim s : chars) : chars * chars := default (s, []) (split_once delim s).
Definition rsplit_once_infallible (delim s : chars) : chars * chars := default (s, []) (rsplit_once delim s).

Definition between (delim : chars * chars) (s : chars) : option chars :=
  '(_, b) ← split_once delim.1 s; fst <$> rsplit_once delim.2 b.
Definition between_infallible (delim : chars * chars) (s : chars) : chars := default s (between delim s).

Definition is_ascii_uppercase (c : Z) : bool := ((65 <=? c) && (c <=? 90))%Z.
Definition to_ascii_lowercase (c : Z) : Z := if is_ascii_uppercase c then (c + 32)%Z else c.

(** [state] is whether the last character was not upper case; the bytes of the
    input are taken as characters one by one. *)
Fixpoint camel_to_snake_case (state : bool) (input : chars) : chars :=
  match input with
  | [] => []
  | ch :: input =>
      let m := is_ascii_uppercase ch in
      (if m && state then [95%Z] else []) ++ to_ascii_lowercase ch :: camel_to_snake_case (negb m) input
  end.
Definition camel_to_snake_string (s : chars) : chars := camel_to_snake_case false s.

(** [char::len_utf8], [str::char_indices] and slicing [&s[0..n]] by bytes, which
    panics off a character boundary. *)
Definition len_utf8 (c : Z) : nat :=
  if (c <? 0x80)%Z then 1 else if (c <? 0x800)%Z then 2 else if (c <? 0x10000)%Z then 3 else 4.

Fixpoint char_indices (i : nat) (s : chars) : list (nat * Z) :=
  match s with [] => [] | c :: s => (i, c) :: char_indices (i + len_utf8 c) s end.

Fixpoint slice_to (n : nat) (s : chars) : outcome Empty_set chars :=
  match n, s with
  | O, _ => Done []
  | S _, [] => Panic
  | S _, c :: s =>
      if decide (len_utf8 c <= n) then r ← slice_to (n - len_utf8 c) s; Done (c :: r) else Panic
  end.

Fixpoint agree {A} `{EqDecision A} (a b : list A) : nat :=
  match a, b with
  | x :: a, y :: b => if decide (x = y) then S (agree a b) else O
  | _, _ => O
  end.

Definition common_prefix (choice : list chars) : outcome Empty_set chars :=
  match choice with
  | [] => Done []
  | best :: choice =>
      try_fold (fun best choice => slice_to (agree (char_indices 0 choice) (char_indices 0 best)) best)
        best choice
  end.

(** *** Quotes *)

Lemma strip_suffix_app q s : strip_suffix_char q (s ++ [q]) = Some s.
Proof.
  unfold strip_suffix_char. rewrite reverse_app. cbn. rewrite decide_True by done. cbn.
  by rewrite reverse_involutive.
Qed.

Lemma strip_suffix_Some q s t : strip_suffix_char q s = Some t <-> s = t ++ [q].
Proof.
  split; [|intros ->; apply strip_suffix_app]. unfold strip_suffix_char.
  destruct (reverse s) as [|c r] eqn:Er; [done|]. cbn. case_decide; [|done]. subst c. intros [= <-].
  by rewrite <- (reverse_involutive s), Er, reverse_cons.
Qed.

Lemma strip_prefix_Some q s t : strip_prefix_char q s = Some t <-> s = q :: t.
Proof. destruct s; cbn; [done|]. case_decide; naive_solver. Qed.

(** [unquote] succeeds exactly on text between two quotes and returns that
    text; the infallible form agrees with it there and leaves text without any
    outer quote alone. *)
Theorem unquote_exact s :
  (forall t, unquote s = Some t <-> s = QUOTE :: t ++ [QUOTE]) /\
  (forall t, unquote s = Some t -> unquote_infallible s = t /\ is_quoted s = true) /\
  (is_quoted s = true -> length s <> 1 -> is_Some (unquote s)) /\
  (last s <> Some QUOTE -> unquote_infallible s = s).
Proof.
  assert (forall t, unquote s = Some t <-> s = QUOTE :: t ++ [QUOTE]) as Hu.
  { intros t. unfold unquote. split.
    - intros (s' & Hs' & ->%strip_suffix_Some)%bind_Some. by apply strip_prefix_Some.
    - intros ->. cbn. apply strip_suffix_app. }
  split_and!; [done|..].
  - intros t ->%Hu. unfold unquote_infallible, is_quoted. cbn [strip_prefix_char].
    rewrite decide_True by done. cbn [from_option]. unfold id. rewrite strip_suffix_app. split; [done|].
    rewrite app_comm_cons, last_snoc. by rewrite !bool_decide_true.
  - unfold is_quoted. intros [Hh Hl]%andb_true_iff Hn. apply bool_decide_eq_true in Hh, Hl.
    apply last_Some in Hl as [[|c s'] ->]; [done|]. injection Hh as ->. exists s'. by apply Hu.
  - intros Hl. unfold unquote_infallible. destruct (strip_suffix_char _ _) as [t|] eqn:Et; [|done].
    apply strip_suffix_Some in Et. destruct Hl. destruct s as [|c s]; [by destruct t|]. cbn in Et.
    case_decide; cbn in Et; rewrite Et; [|by rewrite last_snoc].
    destruct (t ++ [QUOTE]) eqn:E; [by destruct t|]. rewrite <- E, <- last_snoc with (l := t). by rewrite E.
Qed.

(** The infallible form removes a quote at the end of text that has none at
    the beginning, and takes a lone quote for quoted text. *)
Theorem unquote_partial :
  unquote_infallible (97 :: [QUOTE])%Z = [97%Z] /\ unquote_infallible (QUOTE :: [97])%Z = (QUOTE :: [97])%Z /\
  is_quoted [QUOTE] = true /\ unquote [QUOTE] = None.
Proof. by vm_compute. Qed.

(** *** Splitting *)

Lemma prefix_drop (d s : chars) : d `prefix_of` s -> s = d ++ drop (length d) s.
Proof. intros [r ->]. by rewrite drop_app_length. Qed.

Lemma split_once_Some d s a b :
  split_once d s = Some (a, b) -> s = a ++ d ++ b /\
  forall a' b', s = a' ++ d ++ b' -> length a <= length a'.
Proof.
  revert a b. induction s as [|c s IH]; intros a b; cbn; case_decide as Hp.
  - intros [= <- <-]. split; [by apply prefix_drop|]. cbn. lia.
  - done.
  - intros [= <- <-]. split; [by apply prefix_drop|]. cbn. lia.
  - intros ([a0 b0] & E & [= <- <-])%bind_Some. destruct (IH _ _ E) as [-> Hmin].
    split; [done|]. intros [|c' a'] b' Hs; cbn.
    + destruct Hp. by exists b'.
    + injection Hs as -> Hs. apply Hmin in Hs. lia.
Qed.

Lemma split_once_None d s : split_once d s = None -> forall a b, s <> a ++ d ++ b.
Proof.
  induction s as [|c s IH]; cbn; case_decide as Hp; try done.
  - intros _ a b Hs. destruct a; [|done]. destruct Hp. exists b. by rewrite Hs.
  - intros E. assert (split_once d s = None) as E' by (destruct (split_once d s) as [[]|]; done).
    intros [|c' a] b Hs; [destruct Hp; by exists b|]. injection Hs as _ Hs. by eapply IH.
Qed.

Lemma rsplit_once_Some d s a b :
  rsplit_once d s = Some (a, b) -> s = a ++ d ++ b /\
  forall a' b', s = a' ++ d ++ b' -> length b <= length b'.
Proof.
  unfold rsplit_once. intros ([x y] & E & [= <- <-])%bind_Some.
  apply split_once_Some in E as [Hs Hmin]. split.
  - apply (f_equal reverse) in Hs. rewrite reverse_involutive, !reverse_app, reverse_involutive in Hs.
    by rewrite Hs, <- app_assoc.
  - intros a' b' ->. rewrite length_reverse, <- (length_reverse b'). apply (Hmin (reverse b') (reverse a')).
    by rewrite !reverse_app, <- app_assoc.
Qed.

Lemma suffix_of_longer (p q a b : chars) :
  p ++ a = q ++ b -> length q <= length p -> exists z, b = z ++ a.
Proof.
  intros E Hl. exists (drop (length q) p). rewrite <- drop_app_le by done. by rewrite E, drop_app_length.
Qed.

(** [between] cuts at the first opening and the last closing delimiter that
    follows it, and fails exactly when there is no such pair. *)
Theorem between_exact l r s :
  (forall m, between (l, r) s = Some m ->
     exists a b, s = a ++ l ++ m ++ r ++ b /\
       (forall a' x, s = a' ++ l ++ x -> length a <= length a') /\
       (forall m' b', m ++ r ++ b = m' ++ r ++ b' -> length m' <= length m)) /\
  (between (l, r) s = None -> forall a m b, s <> a ++ l ++ m ++ r ++ b).
Proof.
  split.
  - intros m. unfold between. intros ([a x] & E & H)%bind_Some. cbn [fst snd] in *.
    apply fmap_Some in H as ([m' b] & E2 & ->). cbn.
    apply split_once_Some in E as [-> Hmin]. apply rsplit_once_Some in E2 as [-> Hmax].
    exists a, b. split_and!; [done|done|]. intros m2 b2 Hm. specialize (Hmax m2 b2 Hm).
    apply (f_equal length) in Hm. rewrite !length_app in Hm. lia.
  - unfold between. cbn [fst snd]. intros E a m b ->. destruct (split_once l _) as [[a0 x]|] eqn:E1.
    + cbn in E. destruct (rsplit_once r x) as [[]|] eqn:E2; [done|].
      apply split_once_Some in E1 as [Hs Hmin]. specialize (Hmin a _ eq_refl).
      unfold rsplit_once in E2. destruct (split_once (reverse r) (reverse x)) as [[]|] eqn:E3; [done|].
      assert (exists z, x = z ++ m ++ r ++ b) as [z ->].
      { apply (suffix_of_longer (a ++ l) (a0 ++ l)); [by rewrite <- !app_assoc|].
        rewrite !length_app. lia. }
      apply (split_once_None _ _ E3 (reverse b) (reverse m ++ reverse z)).
      by rewrite !reverse_app, <- !app_assoc.
    + by apply (split_once_None _ _ E1 a (m ++ r ++ b)).
Qed.

(** *** Cases *)

Lemma lowercase_not_upper c : is_ascii_uppercase (to_ascii_lowercase c) = false.
Proof.
  unfold to_ascii_lowercase. destruct (is_ascii_uppercase c) eqn:E; [|done].
  unfold is_ascii_uppercase in *. lia.
Qed.

(** The snake-case text has no upper-case letter, and without the
    underscores it is the lower-case of the camel-case text, which had none. *)
Theorem snake_case_letters s st :
  (95%Z ∉ s) ->
  Forall (fun c => is_ascii_uppercase c = false) (camel_to_snake_case st s) /\
  filter (fun c => c <> 95%Z) (camel_to_snake_case st s) = to_ascii_lowercase <$> s.
Proof.
  revert st. induction s as [|c s IH]; intros st Hs; [done|].
  apply not_elem_of_cons in Hs as [Hc Hs]. cbn [camel_to_snake_case].
  destruct (IH (negb (is_ascii_uppercase c)) Hs) as [IH1 IH2].
  assert (to_ascii_lowercase c <> 95%Z) as Hl.
  { unfold to_ascii_lowercase, is_ascii_uppercase. destruct (_ && _) eqn:E; lia. }
  split.
  - apply Forall_app. split; [by destruct (_ && st); repeat constructor|].
    constructor; [apply lowercase_not_upper|done].
  - rewrite filter_app, filter_cons_True, IH2 by done.
    destruct (_ && st); [|done]. rewrite filter_cons_False; [done|]. intros H. by apply H.
Qed.

Lemma snake_case_letters_witness :
  filter (fun c => c <> 95%Z) (camel_to_snake_string [67; 97; 68; 97]%Z) = [99; 97; 100; 97]%Z.
Proof.
  unfold camel_to_snake_string. rewrite (proj2 (snake_case_letters [67; 97; 68; 97]%Z false ltac:(set_solver))). done.
Defined.

(** *** Common prefixes *)

Definition ascii (s : chars) : Prop := Forall (fun c => (0 <= c < 0x80)%Z) s.

Lemma len_utf8_ascii c : (0 <= c < 0x80)%Z -> len_utf8 c = 1.
Proof. intros ?. unfold len_utf8. by rewrite (proj2 (Z.ltb_lt _ _)) by lia. Qed.

Lemma slice_to_ascii n s : ascii s -> n <= length s -> slice_to n s = Done (take n s).
Proof.
  intros Hs. revert n. induction Hs as [|c s Hc Hs IH]; intros [|n] Hn; cbn in *; try done; [lia|].
  rewrite len_utf8_ascii by done. rewrite decide_True by lia. cbn. rewrite Nat.sub_0_r.
  by rewrite IH by lia.
Qed.

Lemma agree_indices a b i : ascii a -> ascii b -> agree (char_indices i a) (char_indices i b) = agree a b.
Proof.
  intros Ha. revert b i. induction Ha as [|x a Hx Ha IH]; intros [|y b] i Hb; cbn; try done.
  inversion Hb; subst. rewrite !len_utf8_ascii by done.
  destruct (decide (x = y)) as [->|Hn]; [|by rewrite decide_False by congruence].
  rewrite decide_True by done. f_equal. by apply IH.
Qed.

Lemma agree_spec (a b : chars) :
  agree a b <= length b /\ forall p, p `prefix_of` take (agree a b) b <-> p `prefix_of` a /\ p `prefix_of` b.
Proof.
  revert b. induction a as [|x a IH]; intros [|y b]; cbn.
  1-3: split; [lia|]; intros p; rewrite ?take_nil; split;
       [intros ->%prefix_nil_inv; split; apply prefix_nil|by intros [??]].
  case_decide as Hxy; cbn.
  - subst y. destruct (IH b) as [IH1 IH2]. split; [lia|]. intros [|z p]; [split; [split|]; intros; apply prefix_nil|].
    split.
    + intros Hp. pose proof (prefix_cons_inv_1 _ _ _ _ Hp) as ->. apply prefix_cons_inv_2, IH2 in Hp as [??].
      split; by apply prefix_cons.
    + intros [Hp1 Hp2]. pose proof (prefix_cons_inv_1 _ _ _ _ Hp1) as ->.
      apply prefix_cons, IH2. by split; eapply prefix_cons_inv_2.
  - split; [lia|]. intros [|z p]; [split; [split|]; intros; apply prefix_nil|]. split.
    + intros Hp. by apply prefix_nil_inv in Hp.
    + intros [H1 H2]. apply prefix_cons_inv_1 in H1, H2. congruence.
Qed.

(** Of ASCII texts, [common_prefix] returns the longest common prefix: its
    prefixes are the common prefixes of all. *)
Theorem common_prefix_ascii best choice :
  Forall ascii (best :: choice) ->
  exists r, common_prefix (best :: choice) = Done r /\
    forall p, p `prefix_of` r <-> Forall (fun s => p `prefix_of` s) (best :: choice).
Proof.
  intros [Hb Hc]%Forall_cons. cbn [common_prefix]. revert best Hb.
  induction Hc as [|c choice Hc Hcs IH]; intros best Hb; cbn [try_fold].
  - exists best. split; [done|]. intros p. by rewrite Forall_singleton.
  - rewrite agree_indices by done. destruct (agree_spec c best) as [Hl Hp].
    rewrite slice_to_ascii by done. cbn [mbind outcome_bind].
    destruct (IH (take (agree c best) best)) as (r & -> & Hr); [by apply Forall_take|].
    exists r. split; [done|]. intros p. rewrite Hr, !Forall_cons, Hp. tauto.
Qed.

Lemma common_prefix_ascii_witness :
  exists r, common_prefix [[99; 111; 110]; [99; 111; 120]]%Z = Done r /\
    forall p, p `prefix_of` r <-> Forall (fun s => p `prefix_of` s) [[99; 111; 110]; [99; 111; 120]]%Z.
Proof. apply common_prefix_ascii. repeat constructor; done. Defined.

(** The number of characters two texts share is used as a byte index: of
    texts with longer characters, a shared prefix is cut short, and when the
    index falls inside a character the call panics. *)
Theorem common_prefix_utf8 :
  common_prefix [[0xE9; 97]; [0xE9; 97]]%Z = Done [0xE9%Z] /\
  common_prefix [[97; 0xE9]; [97; 0xE9]]%Z = Panic.
Proof. by vm_compute. Qed.

End Str.

(** ** [time/exponential_backoff.rs] and [time.rs]

    A [Duration] is its number of nanoseconds. *)

Module Time.

Definition NANOS : Z := 1000000000.
Definition duration_max : Z := u64_max * NANOS + (NANOS - 1).
Definition from_secs (s : Z) : Z := s * NANOS.
Definition saturating_mul (d n : Z) : Z := Z.min duration_max (d * n).

Definition continue_exponential_backoff (min max elapsed tries : Z) : bool :=
  let min := saturating_mul (saturating_mul min tries) tries in
  let min := Z.min min max in
  (elapsed <? min)%Z.

Definition continue_exponential_backoff_secs (min max elapsed tries : Z) : bool :=
  continue_exponential_backoff (from_secs min) (from_secs max) elapsed tries.

Inductive Unit := Days (n : Z) | Hours (n : Z) | Mins (n : Z) | Secs (n : Z)
  | Millis (n : Z) | Micros (n : Z) | Nanos (n : Z).

Definition as_secs (d : Z) : Z := d / NANOS.
Definition as_micros (d : Z) : Z := d / 1000.
Definition subsec_nanos (d : Z) : Z := d mod NANOS.
Definition subsec_micros (d : Z) : Z := subsec_nanos d / 1000.
Definition subsec_millis (d : Z) : Z := subsec_nanos d / 1000000.

Definition whole_unit (d : Z) : Unit :=
  if (86400 <=? as_secs d)%Z then Days (as_secs d / 86400)
  else if (3600 <=? as_secs d)%Z then Hours (as_secs d / 3600)
  else if (60 <=? as_secs d)%Z then Mins (as_secs d / 60)
  else if (1000000 <=? as_micros d)%Z then Secs (as_secs d)
  else if (1000 <=? as_micros d)%Z then Millis (subsec_millis d)
  else if (1000 <=? d)%Z then Micros (subsec_micros d)
  else Nanos (subsec_nanos d).

(** The length of a unit in nanoseconds, and its count. *)
Definition unit_nanos (u : Unit) : Z * Z :=
  match u with
  | Days n => (86400 * NANOS, n) | Hours n => (3600 * NANOS, n) | Mins n => (60 * NANOS, n)
  | Secs n => (NANOS, n) | Millis n => (1000000, n) | Micros n => (1000, n) | Nanos n => (1, n)
  end%Z.

(** A backoff goes on exactly while less than [min * tries²] and less than
    [max] has passed; the saturation of the product never shows. *)
Theorem backoff_exact min max elapsed tries :
  (0 <= min <= duration_max -> 0 <= max <= duration_max -> 0 <= tries ->
  continue_exponential_backoff min max elapsed tries = true <->
  elapsed < max /\ elapsed < min * tries * tries)%Z.
Proof.
  intros Hmin Hmax Ht. unfold continue_exponential_backoff, saturating_mul. rewrite Z.ltb_lt.
  assert (0 <= min * tries)%Z by nia.
  destruct (Z.min_spec duration_max (min * tries)) as [[H1 ->]|[H1 ->]].
  - destruct (decide (tries = 0)%Z) as [->|]; [lia|]. assert (duration_max <= duration_max * tries)%Z by nia.
    assert (min * tries <= min * tries * tries)%Z by nia. lia.
  - lia.
Qed.

Lemma backoff_exact_witness :
  continue_exponential_backoff (from_secs 5) (from_secs 100) (from_secs 19) 2 = true.
Proof. apply backoff_exact; vm_compute; repeat split; congruence. Defined.

Lemma whole_unit_count d :
  (0 <= d)%Z -> let '(len, n) := unit_nanos (whole_unit d) in n = (d / len)%Z /\ (0 < d -> 0 < n)%Z.
Proof.
  intros Hd. unfold whole_unit, as_secs, as_micros, subsec_millis, subsec_micros, subsec_nanos, NANOS in *.
  repeat match goal with |- context [(?a <=? ?b)%Z] => destruct (Z.leb_spec a b) end; cbn [unit_nanos];
    unfold NANOS in *; split; Z.to_euclidean_division_equations; lia.
Qed.

End Time.

(** ** [content_disposition.rs] *)

Module ContentDisposition.

(** [slice::binary_search]: halves the part that can hold the item. *)
Section binary_search.
Context {A : Type} `{RustOrd A}.

Fixpoint search_loop (fuel : nat) (l : list A) (x : A) (base size : nat) : outcome Empty_set nat :=
  match fuel with
  | O => OutOfFuel
  | S fuel =>
      if decide (1 < size) then
        let half := size / 2 in
        let mid := base + half in
        m ← expect (l !! mid);
        let base := match cmp m x with Gt => base | _ => mid end in
        search_loop fuel l x base (size - half)
      else Done base
  end.

(** Whether the item was found. *)
Definition binary_search (l : list A) (x : A) : outcome Empty_set bool :=
  match l with
  | [] => Done false
  | _ => base ← search_loop (length l) l x 0 (length l);
         m ← expect (l !! base);
         Done (match cmp m x with Eq => true | _ => false end)
  end.

Lemma search_loop_ok l x :
  StronglySorted (fun a b => cmp a b = Lt) l ->
  forall fuel base size, 0 < size -> size <= fuel -> base + size <= length l ->
  (forall i y, l !! i = Some y -> cmp y x <> Gt -> i < base + size) ->
  (x ∈ l -> exists y, l !! base = Some y /\ cmp y x <> Gt) ->
  exists r, search_loop fuel l x base size = Done r /\ r < length l /\
    (x ∈ l -> l !! r = Some x).
Proof.
  intros Hs. assert (forall i j y z, l !! i = Some y -> l !! j = Some z -> i < j -> cmp y z = Lt) as Hlt.
  { clear -Hs. induction Hs as [|a l Hl IH Ha]; intros i j y z Hi Hj Hij; [done|].
    destruct j as [|j]; [lia|]. cbn in Hj. destruct i as [|i].
    - injection Hi as <-. rewrite Forall_forall in Ha. apply Ha. by apply list_elem_of_lookup_2 in Hj.
    - apply (IH i j); [done|done|lia]. }
  intros fuel. induction fuel as [|fuel IH]; intros base size H0 Hf Hb Hhi Hlo; [lia|].
  cbn [search_loop]. case_decide as H1.
  - assert (0 < size / 2 < size) as Hh by (split; [apply Nat.div_str_pos; lia|apply Nat.div_lt; lia]).
    pose proof (Nat.mul_div_le size 2 ltac:(lia)) as Hh2.
    destruct (lookup_lt_is_Some_2 l (base + size / 2)) as [m Hm]; [lia|]. rewrite Hm.
    cbn [expect mbind outcome_bind].
    destruct (decide (cmp m x = Gt)) as [Hg|Hg].
    + rewrite Hg. apply IH; [lia|lia|lia| |done]. intros i y Hi Hy.
      destruct (decide (i < base + size / 2)) as [|Hi']; [lia|]. exfalso.
      destruct (decide (i = base + size / 2)) as [->|]; [congruence|].
      assert (cmp m y = Lt) as Hmy by (apply (Hlt _ _ _ _ Hm Hi); lia).
      apply Hy. apply cmp_gt_lt. apply cmp_gt_lt in Hg. by apply (cmp_lt_trans x m y).
    + replace (match cmp m x with Gt => base | _ => base + size / 2 end) with (base + size / 2)
        by (by destruct (cmp m x)).
      apply IH; [lia|lia|lia| |by eauto]. intros i y Hi Hy. specialize (Hhi i y Hi Hy). lia.
  - exists base. split; [done|]. split; [lia|]. intros Hx. destruct (Hlo Hx) as (y & Hy & Hle).
    apply list_elem_of_lookup in Hx as [i Hi]. assert (i < base + size) as Hi2.
    { apply (Hhi i x Hi). by rewrite cmp_refl. }
    destruct (decide (i = base)) as [->|]; [done|]. exfalso.
    assert (cmp x y = Lt) as Hxy by (apply (Hlt i base); [done|done|lia]).
    apply Hle. by apply cmp_gt_lt.
Qed.

Lemma binary_search_sorted `{EqDecision A} l x :
  StronglySorted (fun a b => cmp a b = Lt) l -> binary_search l x = Done (bool_decide (x ∈ l)).
Proof.
  intros Hs. unfold binary_search. destruct l as [|a l']; [by rewrite bool_decide_false by set_solver|].
  set (l := a :: l') in *.
  assert (x ∈ l -> cmp a x <> Gt) as Ha.
  { intros [->|Hin]%elem_of_cons; [by rewrite cmp_refl|]. inversion Hs as [|? ? _ Hf]; subst.
    rewrite Forall_forall in Hf. by rewrite (Hf x Hin). }
  destruct (search_loop_ok l x Hs (length l) 0 (length l)) as (r & -> & Hr & Hx);
    [cbn; lia|done|done| |by eauto|].
  { intros i y Hi _. by apply lookup_lt_Some in Hi. }
  cbn [mbind outcome_bind]. destruct (lookup_lt_is_Some_2 l r Hr) as [m Hm]. rewrite Hm.
  cbn [expect mbind outcome_bind]. f_equal. case_bool_decide as Hin.
  - apply Hx in Hin. assert (m = x) as -> by congruence. by rewrite cmp_refl.
  - destruct (cmp m x) eqn:E; [|done..]. apply cmp_eq_iff in E as ->. destruct Hin.
    by apply list_elem_of_lookup_2 in Hm.
Qed.

(** Checks by evaluation that a list is sorted without repetitions. *)
Fixpoint strictly_sorted (l : list A) : bool :=
  match l with
  | a :: l' => match l' with b :: _ => match cmp a b with Lt => strictly_sorted l' | _ => false end | [] => true end
  | [] => true
  end.

Lemma strictly_sorted_ok l : strictly_sorted l = true -> StronglySorted (fun a b => cmp a b = Lt) l.
Proof.
  induction l as [|a l IH]; [constructor|]. cbn. destruct l as [|b l]; [by repeat constructor|].
  destruct (cmp a b) eqn:E; [done| |done]. intros Hs. apply IH in Hs. constructor; [done|].
  constructor; [done|]. inversion Hs as [|? ? _ Hf]; subst. eapply Forall_impl; [exact Hf|].
  cbn. intros c Hc. by apply (cmp_lt_trans a b c).
Qed.

End binary_search.

Inductive ContentDispositionType := Attachment | Inline.

Definition ALLOWED_INLINE_CONTENT_TYPES : list string :=
  ["application/json"; "application/ld+json"; "audio/aac"; "audio/flac"; "audio/mp4"; "audio/mpeg";
   "audio/ogg"; "audio/wav"; "audio/wave"; "audio/webm"; "audio/x-flac"; "audio/x-pn-wav"; "audio/x-wav";
   "image/apng"; "image/avif"; "image/gif"; "image/jpeg"; "image/png"; "image/webp";
   "text/css"; "text/csv"; "text/plain";
   "video/mp4"; "video/ogg"; "video/quicktime"; "video/webm"]%string.

(** [split(';').next()]. *)
Fixpoint until_semicolon (s : string) : string :=
  match s with
  | EmptyString => EmptyString
  | String c s => if N.eqb (Ascii.N_of_ascii c) 59 then EmptyString else String c (until_semicolon s)
  end.

Definition lower_char (c : Ascii.ascii) : Ascii.ascii :=
  let n := Ascii.N_of_ascii c in
  if ((65 <=? n) && (n <=? 90))%N then Ascii.ascii_of_N (n + 32) else c.
Fixpoint lowercase (s : string) : string :=
  match s with EmptyString => EmptyString | String c s => String (lower_char c) (lowercase s) end.

Section disposition.
Context (debug : bool).

(** [slice::is_sorted]. *)
Fixpoint is_sorted (l : list string) : bool :=
  match l with
  | a :: l' => match l' with b :: _ => match cmp a b with Gt => false | _ => is_sorted l' end | [] => true end
  | [] => true
  end.

Definition content_disposition_type (content_type : option string) : outcome Empty_set ContentDispositionType :=
  match content_type with
  | None => Done Attachment
  | Some content_type =>
      debug_assert debug (is_sorted ALLOWED_INLINE_CONTENT_TYPES);;
      let content_type := lowercase (until_semicolon content_type) in
      found ← binary_search ALLOWED_INLINE_CONTENT_TYPES content_type;
      Done (if (found : bool) then Inline else Attachment)
  end.

End disposition.

Lemma allowed_sorted : is_sorted ALLOWED_INLINE_CONTENT_TYPES = true.
Proof. by vm_compute. Qed.

Lemma search_allowed x :
  binary_search ALLOWED_INLINE_CONTENT_TYPES x = Done (bool_decide (x ∈ ALLOWED_INLINE_CONTENT_TYPES)).
Proof. apply binary_search_sorted, strictly_sorted_ok. by vm_compute. Qed.

(** A content type is served inline exactly when, up to its parameters and in
    lower case, it is one of the listed types; the list is sorted, so the binary
    search misses none of them and the debug assertion holds. *)
Theorem inline_exactly_listed debug ct :
  content_disposition_type debug (Some ct) =
    Done (if decide (lowercase (until_semicolon ct) ∈ ALLOWED_INLINE_CONTENT_TYPES) then Inline else Attachment).
Proof.
  unfold content_disposition_type. rewrite allowed_sorted, debug_assert_true by done.
  rewrite search_allowed. cbn [mbind outcome_bind].
  destruct (decide (_ ∈ ALLOWED_INLINE_CONTENT_TYPES)) as [Hin|Hin].
  - by rewrite bool_decide_true.
  - by rewrite bool_decide_false.
Qed.

End ContentDisposition.
