(* ===== verification/MutexMap.v ===== *)
(** * A map of mutexes

    Models [src/core/utils/mutex_map.rs]: tasks that lock keys through a shared
    map, and guards that remove an entry when they were its last user.

    The map is behind a standard mutex, so each access to it is one step; a
    mutex of the map is an [Arc], here a number, whose strong count is the
    number of entries and tasks that refer to it.  Every await and every access
    to the map is a point where other tasks may run; a task that waits for a
    mutex may be cancelled there. *)

From stdpp Require Import prelude gmap list.
From S2P Require Import Prelude.

Section mutex_map.
Context {Key : Type} `{Countable Key}.

(** What a task is doing with a mutex [m] of key [k]. *)
Inductive phase :=
| Waiting (k : Key) (m : nat)      (** in [lock], after the clone *)
| Guarding (k : Key) (m : nat)     (** has a [Guard] *)
| Dropping (k : Key) (m : nat)     (** in [drop], after the first count *)
| Unlocking (m : nat)              (** the body of [drop] is done *)
| Releasing (m : nat).             (** the mutex is unlocked, the [Arc] not yet freed *)

Definition phase_mutex (p : phase) : nat :=
  match p with Waiting _ m | Guarding _ m | Dropping _ m | Unlocking m | Releasing m => m end.

(** The map, who holds which mutex, the tasks, and the next allocation. *)
Record MutexMap := MkMutexMap {
  map : gmap Key nat; owner : gmap nat nat; tasks : gmap nat phase; fresh : nat }.

Definition new : MutexMap := MkMutexMap ∅ ∅ ∅ 0.

(** [Arc::strong_count] of a mutex. *)
Definition strong_count (m : nat) (s : MutexMap) : nat :=
  size (filter (fun kv => kv.2 = m) (map s)) + size (filter (fun tp => phase_mutex tp.2 = m) (tasks s)).

Definition set_phase (t : nat) (p : phase) (s : MutexMap) : MutexMap :=
  MkMutexMap (map s) (owner s) (<[t := p]> (tasks s)) (fresh s).

(** ** Steps *)

(** [self.map.lock().entry(k).or_default().clone()] *)
Definition entry (k : Key) (s : MutexMap) : nat * MutexMap :=
  match map s !! k with
  | Some m => (m, s)
  | None => (fresh s, MkMutexMap (<[k := fresh s]> (map s)) (owner s) (tasks s) (S (fresh s)))
  end.

Definition lock_start (t : nat) (k : Key) (s : MutexMap) : option MutexMap :=
  match tasks s !! t with
  | Some _ => None
  | None => let '(m, s) := entry k s in Some (set_phase t (Waiting k m) s)
  end.

(** [val.lock_owned()] is ready, or [try_lock_owned()] succeeds. *)
Definition acquire (t : nat) (s : MutexMap) : option MutexMap :=
  match tasks s !! t with
  | Some (Waiting k m) =>
      match owner s !! m with
      | Some _ => None
      | None => Some (MkMutexMap (map s) (<[m := t]> (owner s)) (<[t := Guarding k m]> (tasks s)) (fresh s))
      end
  | _ => None
  end.

(** The waiting future is dropped, or [try_lock_owned()] fails. *)
Definition cancel (t : nat) (s : MutexMap) : option MutexMap :=
  match tasks s !! t with
  | Some (Waiting _ _) => Some (MkMutexMap (map s) (owner s) (delete t (tasks s)) (fresh s))
  | _ => None
  end.

(** [if Arc::strong_count(Omg::mutex(&self.val)) <= 2] *)
Definition drop_check (t : nat) (s : MutexMap) : option MutexMap :=
  match tasks s !! t with
  | Some (Guarding k m) =>
      Some (set_phase t (if strong_count m s <=? 2 then Dropping k m else Unlocking m) s)
  | _ => None
  end.

(** [self.map.lock().retain(…)] *)
Definition drop_retain (t : nat) (s : MutexMap) : option MutexMap :=
  match tasks s !! t with
  | Some (Dropping k m) =>
      Some (MkMutexMap (filter (fun kv => kv.2 <> m \/ 2 < strong_count kv.2 s) (map s)) (owner s)
              (<[t := Unlocking m]> (tasks s)) (fresh s))
  | _ => None
  end.

(** The guard's fields are dropped: the mutex is unlocked, then its [Arc] freed. *)
Definition unlock (t : nat) (s : MutexMap) : option MutexMap :=
  match tasks s !! t with
  | Some (Unlocking m) =>
      Some (MkMutexMap (map s) (delete m (owner s)) (<[t := Releasing m]> (tasks s)) (fresh s))
  | _ => None
  end.

Definition free (t : nat) (s : MutexMap) : option MutexMap :=
  match tasks s !! t with
  | Some (Releasing _) => Some (MkMutexMap (map s) (owner s) (delete t (tasks s)) (fresh s))
  | _ => None
  end.

Definition contains (k : Key) (s : MutexMap) : bool := bool_decide (is_Some (map s !! k)).
Definition len (s : MutexMap) : nat := size (map s).
Definition is_empty (s : MutexMap) : bool := bool_decide (map s = ∅).

Inductive step : MutexMap -> MutexMap -> Prop :=
| step_lock t k s s' : lock_start t k s = Some s' -> step s s'
| step_acquire t s s' : acquire t s = Some s' -> step s s'
| step_cancel t s s' : cancel t s = Some s' -> step s s'
| step_check t s s' : drop_check t s = Some s' -> step s s'
| step_retain t s s' : drop_retain t s = Some s' -> step s s'
| step_unlock t s s' : unlock t s = Some s' -> step s s'
| step_free t s s' : free t s = Some s' -> step s s'.

Definition reachable (s : MutexMap) : Prop := rtc step new s.

(** ** The invariant *)

(** The key a task still needs in the map. *)
Definition needs (p : phase) : option (Key * nat) :=
  match p with Waiting k m | Guarding k m | Dropping k m => Some (k, m) | _ => None end.

Definition owns (p : phase) : option nat :=
  match p with Guarding _ m | Dropping _ m | Unlocking m => Some m | _ => None end.

Record inv (s : MutexMap) : Prop := {
  inv_entry : forall t p k m, tasks s !! t = Some p -> needs p = Some (k, m) -> map s !! k = Some m;
  inv_owner : forall t m, owner s !! m = Some t <-> exists p, tasks s !! t = Some p /\ owns p = Some m;
  inv_inj : forall k k' m, map s !! k = Some m -> map s !! k' = Some m -> k = k';
  inv_fresh_map : forall k m, map s !! k = Some m -> m < fresh s;
  inv_fresh_task : forall t p, tasks s !! t = Some p -> phase_mutex p < fresh s }.

Lemma new_inv : inv new.
Proof.
  split; unfold new; cbn; intros *.
  - by rewrite lookup_empty.
  - rewrite lookup_empty. split; [done|]. intros (p & Hp & _). by rewrite lookup_empty in Hp.
  - by rewrite lookup_empty.
  - by rewrite lookup_empty.
  - by rewrite lookup_empty.
Qed.

(** ** Counting references *)

Lemma size_filter_pos {K A} `{Countable K} (P : K * A -> Prop) `{!forall x, Decision (P x)} (f : gmap K A) i x :
  f !! i = Some x -> P (i, x) -> 1 <= size (filter P f).
Proof.
  intros Hi HP. assert (filter P f !! i = Some x) as Hf by (by apply map_lookup_filter_Some).
  destruct (size (filter P f)) eqn:E; [|lia].
  apply map_size_empty_iff in E. by rewrite E, lookup_empty in Hf.
Qed.

Lemma size_filter_two {K A} `{Countable K} (P : K * A -> Prop) `{!forall x, Decision (P x)} (f : gmap K A) i j x y :
  i <> j -> f !! i = Some x -> f !! j = Some y -> P (i, x) -> P (j, y) -> 2 <= size (filter P f).
Proof.
  intros Hij Hi Hj HPi HPj.
  assert (f = <[i := x]> (delete i f)) as -> by by rewrite insert_delete_id.
  rewrite map_filter_insert_True by done.
  rewrite map_size_insert_None.
  - assert (1 <= size (filter P (delete i f))); [|lia].
    apply (size_filter_pos _ _ j y); [|done]. by rewrite lookup_delete_ne.
  - apply map_lookup_filter_None. left. apply lookup_delete_eq.
Qed.

(** An entry two tasks refer to has more than two references. *)
Lemma strong_count_shared s k m t t' p p' :
  map s !! k = Some m -> t <> t' -> tasks s !! t = Some p -> tasks s !! t' = Some p' ->
  phase_mutex p = m -> phase_mutex p' = m -> 2 < strong_count m s.
Proof.
  intros Hk Ht Hp Hp' Hm Hm'. unfold strong_count.
  pose proof (size_filter_pos (fun kv => kv.2 = m) (map s) k m Hk eq_refl).
  pose proof (size_filter_two (fun tp => phase_mutex tp.2 = m) (tasks s) t t' p p' Ht Hp Hp' Hm Hm').
  lia.
Qed.

(** An entry one task refers to has two. *)
Lemma strong_count_alone s k m t p :
  inv s -> map s !! k = Some m -> tasks s !! t = Some p -> phase_mutex p = m ->
  (forall t' p', tasks s !! t' = Some p' -> phase_mutex p' = m -> t' = t) -> strong_count m s = 2.
Proof.
  intros Hinv Hk Hp Hm Halone. unfold strong_count.
  assert (filter (fun kv => kv.2 = m) (map s) = {[k := m]}) as ->.
  { apply map_eq. intros k'. apply option_eq. intros m'.
    rewrite map_lookup_filter_Some, lookup_singleton_Some. cbn. split.
    - intros [Hk' ->]. split; [by eapply inv_inj|done].
    - by intros [<- <-]. }
  assert (filter (fun tp => phase_mutex tp.2 = m) (tasks s) = {[t := p]}) as ->.
  { apply map_eq. intros t'. apply option_eq. intros p'.
    rewrite map_lookup_filter_Some, lookup_singleton_Some. cbn. split.
    - intros [Hp' Hm']. assert (t' = t) as -> by by eapply Halone. by simplify_eq.
    - by intros [<- <-]. }
  by rewrite !map_size_singleton.
Qed.

(** ** Preservation *)

(** One task changes its phase, and with it which mutex it holds. *)
Lemma task_change_inv s o t p :
  inv s ->
  (forall k m, needs p = Some (k, m) -> map s !! k = Some m) -> phase_mutex p < fresh s ->
  (forall t' m, o !! m = Some t' <-> if decide (t' = t) then owns p = Some m else owner s !! m = Some t') ->
  inv (MkMutexMap (map s) o (<[t := p]> (tasks s)) (fresh s)).
Proof.
  intros Hinv Hneeds Hfresh Howner. split; cbn.
  - intros t' p' k m [[-> <-]|[_ Ht']]%lookup_insert_Some Hp'; [by apply Hneeds | by eapply inv_entry].
  - intros t' m. rewrite Howner. case_decide as E; [subst t'|].
    + rewrite lookup_insert_eq. naive_solver.
    + rewrite lookup_insert_ne by done. by apply inv_owner.
  - by apply inv_inj.
  - by apply inv_fresh_map.
  - intros t' p' [[-> <-]|[_ Ht']]%lookup_insert_Some; [done | by eapply inv_fresh_task].
Qed.

(** A task that holds no mutex ends. *)
Lemma task_end_inv s t p :
  inv s -> tasks s !! t = Some p -> owns p = None ->
  inv (MkMutexMap (map s) (owner s) (delete t (tasks s)) (fresh s)).
Proof.
  intros Hinv Hp Howns. split; cbn.
  - intros t' p' k m [_ Ht']%lookup_delete_Some. by eapply inv_entry.
  - intros t' m. rewrite inv_owner by done. split; intros (p' & Hp' & Ho); exists p'; split; try done.
    + rewrite lookup_delete_ne; [done|]. intros ->. by simplify_eq.
    + by apply lookup_delete_Some in Hp' as [_ ?].
  - by apply inv_inj.
  - by apply inv_fresh_map.
  - intros t' p' [_ Ht']%lookup_delete_Some. by eapply inv_fresh_task.
Qed.

(** Entries no task needs may go. *)
Lemma retain_inv s (P : Key * nat -> Prop) `{!forall x, Decision (P x)} :
  inv s -> (forall t p k m, tasks s !! t = Some p -> needs p = Some (k, m) -> P (k, m)) ->
  inv (MkMutexMap (filter P (map s)) (owner s) (tasks s) (fresh s)).
Proof.
  intros Hinv HP. split; cbn.
  - intros t p k m Ht Hp. apply map_lookup_filter_Some. split; [by eapply inv_entry | by eapply HP].
  - by apply inv_owner.
  - intros k k' m [? _]%map_lookup_filter_Some [? _]%map_lookup_filter_Some. by eapply inv_inj.
  - intros k m [? _]%map_lookup_filter_Some. by eapply inv_fresh_map.
  - by apply inv_fresh_task.
Qed.

Lemma entry_inv s k m s' :
  inv s -> entry k s = (m, s') ->
  inv s' /\ map s' !! k = Some m /\ tasks s' = tasks s /\ owner s' = owner s.
Proof.
  intros Hinv. unfold entry. destruct (map s !! k) as [m0|] eqn:Hk; intros E; simplify_eq; [done|].
  cbn. split; [|by rewrite lookup_insert_eq]. split; cbn.
  - intros t p k' m' Ht Hp. pose proof (inv_entry _ Hinv _ _ _ _ Ht Hp) as Hm'.
    rewrite lookup_insert_ne; [done|]. by intros ->; simplify_eq.
  - by apply inv_owner.
  - intros k1 k2 m' [[<- <-]|[_ H1]]%lookup_insert_Some [[<- E2]|[_ H2]]%lookup_insert_Some; try done;
      [apply inv_fresh_map in H2; [lia|done] | apply inv_fresh_map in H1; [lia|done] | by eapply inv_inj].
  - intros k' m' [[_ <-]|[_ H1]]%lookup_insert_Some; [lia|]. apply inv_fresh_map in H1; [lia|done].
  - intros t p Ht. apply inv_fresh_task in Ht; [lia|done].
Qed.

(** The phase of a task says what it owns. *)
Lemma owner_own s t p m : inv s -> tasks s !! t = Some p -> owner s !! m = Some t <-> owns p = Some m.
Proof. intros Hinv Ht. rewrite inv_owner by done. naive_solver. Qed.

Lemma owner_of s t p m : inv s -> tasks s !! t = Some p -> owns p = Some m -> owner s !! m = Some t.
Proof. intros Hinv Ht Hp. by eapply owner_own. Qed.

Lemma owner_same s t p p' :
  inv s -> tasks s !! t = Some p -> owns p' = owns p ->
  forall t' m, owner s !! m = Some t' <-> if decide (t' = t) then owns p' = Some m else owner s !! m = Some t'.
Proof. intros Hinv Ht Hp t' m. case_decide; [subst|done]. rewrite Hp. by apply owner_own. Qed.

Lemma lock_start_inv t k s s' : inv s -> lock_start t k s = Some s' -> inv s'.
Proof.
  intros Hinv. unfold lock_start. destruct (tasks s !! t) eqn:Ht; [done|].
  destruct (entry k s) as [m s1] eqn:E. intros [= <-].
  destruct (entry_inv _ _ _ _ Hinv E) as (Hinv1 & Hk & Htasks & Howner).
  apply task_change_inv; [done| |by eapply inv_fresh_map|]; cbn.
  - by intros ?? [= <- <-].
  - intros t' m'. case_decide; [subst|done]. split; [|done].
    rewrite inv_owner by done. rewrite Htasks, Ht. naive_solver.
Qed.

Lemma acquire_inv t s s' : inv s -> acquire t s = Some s' -> inv s'.
Proof.
  intros Hinv. unfold acquire. destruct (tasks s !! t) as [[k m| | | |]|] eqn:Ht; try done.
  destruct (owner s !! m) eqn:Ho; [done|]. intros [= <-].
  apply task_change_inv; [done| | |]; cbn.
  - intros ?? [= <- <-]. by eapply inv_entry.
  - by apply (inv_fresh_task s Hinv t (Waiting k m)).
  - intros t' m'. rewrite lookup_insert_Some. case_decide; [subst|].
    + split; [|naive_solver]. intros [[-> _]|[_ Hm]]; [done|].
      by rewrite (owner_own _ _ _ _ Hinv Ht) in Hm.
    + split; [naive_solver|]. intros Hm. right. split; [by intros ->; simplify_eq|done].
Qed.

Lemma cancel_inv t s s' : inv s -> cancel t s = Some s' -> inv s'.
Proof.
  intros Hinv. unfold cancel. destruct (tasks s !! t) as [[k m| | | |]|] eqn:Ht; try done.
  intros [= <-]. by eapply task_end_inv.
Qed.

Lemma drop_check_inv t s s' : inv s -> drop_check t s = Some s' -> inv s'.
Proof.
  intros Hinv. unfold drop_check. destruct (tasks s !! t) as [[|k m| | |]|] eqn:Ht; try done.
  intros [= <-]. set (p := if _ : bool then _ else _).
  assert (owns p = Some m /\ phase_mutex p = m /\ (forall x, needs p = Some x -> x = (k, m))) as (Hown & Hmut & Hneed).
  { unfold p. case_match; naive_solver. }
  apply task_change_inv; [done| | |].
  - intros ?? [= <- <-]%Hneed. by eapply inv_entry.
  - rewrite Hmut. by apply (inv_fresh_task s Hinv t (Guarding k m)).
  - by eapply owner_same.
Qed.

Lemma drop_retain_inv t s s' : inv s -> drop_retain t s = Some s' -> inv s'.
Proof.
  intros Hinv. unfold drop_retain. destruct (tasks s !! t) as [[| |k m| |]|] eqn:Ht; try done.
  intros [= <-].
  assert (inv (set_phase t (Unlocking m) s)) as Hinv1.
  { apply task_change_inv; [done|done| |by eapply owner_same].
    by apply (inv_fresh_task s Hinv t (Dropping k m)). }
  apply (retain_inv _ (fun kv => kv.2 <> m \/ 2 < strong_count kv.2 s) Hinv1).
  cbn. intros t' p' k' m' [[<- <-]|[Hne Ht']]%lookup_insert_Some Hp'; [done|].
  destruct (decide (m' = m)) as [->|]; [right|by left].
  eapply (strong_count_shared s k' m t t'); [by eapply inv_entry|done..|].
  by destruct p'; simplify_eq/=.
Qed.

Lemma unlock_inv t s s' : inv s -> unlock t s = Some s' -> inv s'.
Proof.
  intros Hinv. unfold unlock. destruct (tasks s !! t) as [[| | |m|]|] eqn:Ht; try done.
  intros [= <-]. apply task_change_inv; [done|done| |].
  - by apply (inv_fresh_task s Hinv t (Unlocking m)).
  - intros t' m'. rewrite lookup_delete_Some. case_decide; [subst|].
    + split; [|done]. rewrite (owner_own _ _ _ _ Hinv Ht). naive_solver.
    + split; [naive_solver|]. intros Hm'. split; [|done]. intros <-.
      pose proof (owner_of _ _ _ m Hinv Ht eq_refl). naive_solver.
Qed.

Lemma free_inv t s s' : inv s -> free t s = Some s' -> inv s'.
Proof.
  intros Hinv. unfold free. destruct (tasks s !! t) as [[| | | |m]|] eqn:Ht; try done.
  intros [= <-]. by eapply task_end_inv.
Qed.

Lemma step_inv s s' : inv s -> step s s' -> inv s'.
Proof.
  intros Hinv Hs. destruct Hs; eauto using lock_start_inv, acquire_inv, cancel_inv, drop_check_inv,
    drop_retain_inv, unlock_inv, free_inv.
Qed.

Lemma steps_keep_inv s : reachable s -> inv s.
Proof. intros Hr. eapply rtc_ind_r; [apply new_inv| |exact Hr]. intros; by eapply step_inv. Qed.

(** ** What the guards promise *)

(** A task that has a guard for [k], or has not finished dropping it. *)
Definition guards (k : Key) (p : phase) : Prop :=
  match p with Guarding k' _ | Dropping k' _ => k' = k | _ => False end.

Lemma guards_needs k p : guards k p -> exists m, needs p = Some (k, m) /\ owns p = Some m.
Proof. destruct p; cbn; naive_solver. Qed.

(** C16. Whatever tasks lock, wait, give up and drop their guards in whatever
    order: at most one of them has a guard for a key; and while any task waits for
    a key, whether or not somebody guards it, or guards it, the key stays in the
    map, with the mutex that task waits for or holds. *)
Theorem guards_exclude (s : MutexMap) :
  reachable s ->
  (forall (t t' : nat) (p p' : phase) (k : Key), tasks s !! t = Some p -> tasks s !! t' = Some p' ->
     guards k p -> guards k p' -> t = t') /\
  (forall (t : nat) (p : phase) (k : Key) (m : nat), tasks s !! t = Some p ->
     p = Waiting k m \/ p = Guarding k m \/ p = Dropping k m -> contains k s = true /\ map s !! k = Some m).
Proof.
  intros Hinv%steps_keep_inv. split.
  - intros t t' p p' k Hp Hp' (m & Hn & Ho)%guards_needs (m' & Hn' & Ho')%guards_needs.
    pose proof (inv_entry _ Hinv _ _ _ _ Hp Hn). pose proof (inv_entry _ Hinv _ _ _ _ Hp' Hn').
    simplify_eq. pose proof (owner_of _ _ _ _ Hinv Hp Ho). pose proof (owner_of _ _ _ _ Hinv Hp' Ho').
    by simplify_eq.
  - intros t p k m Hp Hph. assert (map s !! k = Some m) as Hm.
    { eapply (inv_entry _ Hinv _ _ _ _ Hp). by destruct Hph as [-> | [-> | ->]]. }
    split; [|done]. unfold contains. rewrite bool_decide_eq_true. by eexists.
Qed.

(** The whole [drop] of a guard, with nothing in between. *)
Definition drop (t : nat) (s : MutexMap) : option MutexMap :=
  s ← drop_check t s; s ← (match drop_retain t s with Some s' => Some s' | None => Some s end);
  s ← unlock t s; free t s.

(** The guard of a key that no other task waits for removes the key when it
    is dropped, and nothing else: every other key keeps its mutex, and every
    other task its phase. *)
Theorem drop_removes_key (s : MutexMap) (t : nat) (k : Key) (m : nat) :
  reachable s -> tasks s !! t = Some (Guarding k m) ->
  (forall t' p', tasks s !! t' = Some p' -> phase_mutex p' = m -> t' = t) ->
  exists s', drop t s = Some s' /\ map s' = delete k (map s) /\ tasks s' = delete t (tasks s) /\
             owner s' !! m = None.
Proof.
  intros Hinv%steps_keep_inv Ht Halone.
  pose proof (inv_entry _ Hinv _ _ _ _ Ht eq_refl) as Hk.
  pose proof (strong_count_alone s k m t _ Hinv Hk Ht eq_refl Halone) as Hcount.
  set (s1 := set_phase t (Dropping k m) s).
  assert (drop_check t s = Some s1) as E1.
  { unfold drop_check. rewrite Ht, Hcount. done. }
  assert (strong_count m s1 = 2) as Hcount1.
  { eapply (strong_count_alone s1 k m t (Dropping k m)); cbn.
    - by eapply drop_check_inv. - done. - apply lookup_insert_eq. - done.
    - intros t' p' [[<- _]|[_ Ht']]%lookup_insert_Some; [done|]. by apply Halone. }
  unfold drop. rewrite E1. cbn. unfold drop_retain, s1 at 1. cbn. rewrite lookup_insert_eq. cbn.
  unfold unlock. cbn. rewrite lookup_insert_eq. cbn. unfold free. cbn. rewrite lookup_insert_eq. cbn.
  eexists. split; [done|]. cbn. split_and!.
  - apply map_eq. intros k'. apply option_eq. intros m'.
    rewrite map_lookup_filter_Some, lookup_delete_Some. cbn. split.
    + intros [Hk' Hkeep]. split; [|done]. intros <-. simplify_eq. destruct Hkeep; [done|lia].
    + intros [Hne Hk']. split; [done|]. left. intros ->. apply Hne. by eapply inv_inj.
  - by rewrite !delete_insert_eq.
  - apply lookup_delete_eq.
Qed.

End mutex_map.

(** ** Runs *)
Module Runs.

(** One task guards key 7 and another waits for it. *)
Definition contended : MutexMap (Key := nat) :=
  MkMutexMap {[7 := 0]} {[0 := 0]} {[0 := Guarding 7 0; 1 := Waiting 7 0]} 1.

Lemma contended_reachable : reachable contended.
Proof.
  eapply rtc_l; [by apply (step_lock 0 7)|].
  eapply rtc_l; [by apply (step_acquire 0)|].
  eapply rtc_once. by apply (step_lock 1 7).
Qed.

(** The guard is dropped, then the waiting task gives up. *)
Definition leaked : MutexMap (Key := nat) := MkMutexMap {[7 := 0]} ∅ ∅ 1.

Lemma leaked_reachable : reachable leaked.
Proof.
  unfold reachable. etrans; [exact contended_reachable|].
  eapply rtc_l; [by apply (step_check 0)|].
  eapply rtc_l; [by apply (step_unlock 0)|].
  eapply rtc_l; [by apply (step_free 0)|].
  eapply rtc_once. by apply (step_cancel 1).
Qed.

Definition alone : MutexMap (Key := nat) := MkMutexMap {[7 := 0]} {[0 := 0]} {[0 := Guarding 7 0]} 1.

Lemma alone_reachable : reachable alone.
Proof.
  eapply rtc_l; [by apply (step_lock 0 7)|].
  eapply rtc_once. by apply (step_acquire 0).
Qed.

Lemma guards_exclude_witness : contains 7 contended = true.
Proof.
  destruct (guards_exclude contended contended_reachable) as [_ H].
  exact (proj1 (H 1 (Waiting 7 0) 7 0 eq_refl (or_introl eq_refl))).
Defined.

Lemma drop_removes_key_witness : exists s', drop 0 alone = Some s' /\ map s' = ∅.
Proof.
  destruct (drop_removes_key alone 0 7 0 alone_reachable) as (s' & E & Em & _ & _).
  - reflexivity.
  - intros t' p' Ht' _. cbn in Ht'. by apply lookup_singleton_Some in Ht' as [<- _].
  - exists s'. split; [exact E|]. rewrite Em. reflexivity.
Defined.

(** The map is not always left empty: a waiting task that gives up after the
    guard was dropped leaves the key behind, with no task left to remove it,
    until the key is locked again. *)
Theorem cancelled_lock_leaks_key :
  reachable leaked /\ tasks leaked = ∅ /\ len leaked = 1 /\ contains 7 leaked = true /\
  (exists s, (s ← lock_start 2 7 leaked; s ← acquire 2 s; drop 2 s) = Some s /\ is_empty s = true).
Proof.
  split; [apply leaked_reachable|]. split_and!; [done..|]. eexists. split; reflexivity.
Qed.

End Runs.
