(* ===== verification/Effects.v ===== *)
(** * Stateful code that fails without rolling back

    An [async fn] of a service returns a [Result] and changes shared state on
    the way; an error does not undo what was written before it.  [eff S E A] is
    such a computation: it returns an [outcome] and the state it leaves, in
    every case. *)

From stdpp Require Import prelude list.
From S2P Require Import Prelude.

Definition eff (S E A : Type) : Type := S -> outcome E A * S.

Section eff.
Context {S E : Type}.
Implicit Types s : S.

#[global] Instance eff_ret : MRet (eff S E) := fun A a s => (Done a, s).
#[global] Instance eff_bind : MBind (eff S E) := fun A B f m s =>
  match m s with
  | (Done a, s') => f a s'
  | (Fail e, s') => (Fail e, s')
  | (Panic, s') => (Panic, s')
  | (OutOfFuel, s') => (OutOfFuel, s')
  end.

Definition lift_eff {A} (o : outcome E A) : eff S E A := fun s => (o, s).
Definition throw {A} (e : E) : eff S E A := fun s => (Fail e, s).
Definition out_of_fuel {A} : eff S E A := fun s => (OutOfFuel, s).
Definition gets {A} (f : S -> A) : eff S E A := fun s => (Done (f s), s).
Definition modify (f : S -> S) : eff S E () := fun s => (Done (), f s).

(** [match fut.await { Ok(a) => …, Err(e) => … }] *)
Definition attempt {A} (m : eff S E A) : eff S E (E + A) := fun s =>
  match m s with
  | (Done a, s') => (Done (inr a), s')
  | (Fail e, s') => (Done (inl e), s')
  | (Panic, s') => (Panic, s')
  | (OutOfFuel, s') => (OutOfFuel, s')
  end.

(** A [for] loop with an accumulator. *)
Fixpoint for_each {A X} (f : A -> X -> eff S E A) (a : A) (l : list X) : eff S E A :=
  match l with
  | [] => mret a
  | x :: l => a ← f a x; for_each f a l
  end.

End eff.

#[global] Typeclasses Opaque eff.
Arguments eff_bind : simpl never.
Arguments eff_ret : simpl never.

(** ** Reasoning

    [leads m s P]: whatever way [m] ends from [s], its outcome and the state it
    leaves satisfy [P]. *)

Create HintDb eff.

Section rules.
Context {S E : Type}.

Definition leads {A} (m : eff S E A) (s : S) (P : outcome E A -> S -> Prop) : Prop :=
  P (m s).1 (m s).2.

Lemma leads_bind {A B} (m : eff S E A) (f : A -> eff S E B) s (P : outcome E B -> S -> Prop) :
  leads m s (fun o s' => match o with
                         | Done a => leads (f a) s' P
                         | Fail e => P (Fail e) s'
                         | Panic => P Panic s'
                         | OutOfFuel => P OutOfFuel s'
                         end) -> leads (m ≫= f) s P.
Proof. unfold leads, mbind, eff_bind. by destruct (m s) as [[] s']. Qed.

Lemma leads_mono {A} (m : eff S E A) s (P P' : outcome E A -> S -> Prop) :
  leads m s P -> (forall o s', P o s' -> P' o s') -> leads m s P'.
Proof. unfold leads. auto. Qed.

(** What a computation that ends well did. *)
Lemma bind_eff_Done {A B} (m : eff S E A) (f : A -> eff S E B) s b s2 :
  (m ≫= f) s = (Done b, s2) <-> exists a s1, m s = (Done a, s1) /\ f a s1 = (Done b, s2).
Proof.
  unfold mbind, eff_bind. destruct (m s) as [[] s1] eqn:Em; naive_solver.
Qed.

(** *** Changes allowed by a preorder *)

Context (R : S -> S -> Prop) `{!PreOrder R}.

(** [m] changes the state only as [R] allows. *)
Definition confined {A} (m : eff S E A) : Prop := forall s, R s (m s).2.

Lemma confined_ret {A} (a : A) : confined (mret a).
Proof. intros s. cbn. reflexivity. Qed.
Lemma confined_lift {A} (o : outcome E A) : confined (lift_eff o).
Proof. intros s. cbn. reflexivity. Qed.
Lemma confined_throw {A} e : confined (throw (A := A) e).
Proof. intros s. cbn. reflexivity. Qed.
Lemma confined_fuel {A} : confined (out_of_fuel (A := A)).
Proof. intros s. cbn. reflexivity. Qed.
Lemma confined_gets {A} (f : S -> A) : confined (gets f).
Proof. intros s. cbn. reflexivity. Qed.
Lemma confined_modify f : (forall s, R s (f s)) -> confined (modify f).
Proof. intros H s. apply H. Qed.

Lemma confined_bind {A B} (m : eff S E A) (f : A -> eff S E B) :
  confined m -> (forall a, confined (f a)) -> confined (m ≫= f).
Proof.
  intros Hm Hf s. pose proof (Hm s) as H. unfold mbind, eff_bind.
  destruct (m s) as [[a|e| |] s']; cbn in *; try done. etrans; [exact H|apply Hf].
Qed.

(** The continuation may use what the first part returned and left. *)
Lemma confined_bind_at {A B} (m : eff S E A) (f : A -> eff S E B) s :
  R s (m s).2 -> (forall a s', m s = (Done a, s') -> R s' (f a s').2) -> R s ((m ≫= f) s).2.
Proof.
  intros Hm Hf. unfold mbind, eff_bind. destruct (m s) as [[a|e| |] s']; cbn in *; try done.
  etrans; [exact Hm|]. by apply Hf.
Qed.

Lemma confined_attempt {A} (m : eff S E A) : confined m -> confined (attempt m).
Proof. intros Hm s. specialize (Hm s). unfold attempt. by destruct (m s) as [[] s']. Qed.

Lemma confined_for_each {A X} (f : A -> X -> eff S E A) a l :
  (forall a x, confined (f a x)) -> confined (for_each f a l).
Proof.
  intros Hf. revert a. induction l as [|x l IH]; intros a; [apply confined_ret|].
  apply confined_bind; [apply Hf|]. intros a'. apply IH.
Qed.

End rules.

#[export] Hint Resolve confined_ret confined_lift confined_throw confined_fuel confined_gets confined_attempt
  confined_bind confined_for_each : eff.

(** *** Where something comes about

    [turns Q m s]: [Q] does not hold in [s] and holds when [m] has run from [s];
    the part of a run at which it comes about is a part that was run from the
    state the parts before it left. *)

Section turns.
Context {S E : Type} (Q : S -> Prop) {Qdec : forall s, Decision (Q s)}.

Definition turns {A} (m : eff S E A) (s : S) : Prop := ~ Q s /\ Q (m s).2.

Lemma turns_bind {A B} (m : eff S E A) (f : A -> eff S E B) s :
  turns (m ≫= f) s -> turns m s \/ exists a s', m s = (Done a, s') /\ turns (f a) s'.
Proof.
  intros [Hn Hq]. destruct (decide (Q (m s).2)) as [Hm|Hm]; [by left|right]. revert Hq. unfold mbind, eff_bind.
  destruct (m s) as [[a|e| |] s'] eqn:Em; cbn in *; [|done..]. intros Hq. exists a, s'. split; [done|]. by split.
Qed.

Lemma turns_attempt {A} (m : eff S E A) s : turns (attempt m) s -> turns m s.
Proof. intros [Hn Hq]. split; [done|]. revert Hq. unfold attempt. by destruct (m s) as [[] s']. Qed.

Lemma turns_for_each {A X} (f : A -> X -> eff S E A) a l s :
  turns (for_each f a l) s ->
  exists l1 x l2 a' s', l = l1 ++ x :: l2 /\ for_each f a l1 s = (Done a', s') /\ turns (f a' x) s'.
Proof.
  revert a s. induction l as [|x l IH]; intros a s; cbn [for_each]; [by intros []|].
  intros [H|(a' & s' & Hf & H)]%turns_bind; [by exists [], x, l, a, s|].
  apply IH in H as (l1 & y & l2 & b & s2 & -> & Hl & H). exists (x :: l1), y, l2, b, s2. split; [done|]. split; [|done].
  cbn [for_each]. unfold mbind, eff_bind. by rewrite Hf.
Qed.

End turns.

(** *** Not running out of fuel *)

Section fuel.
Context {S E : Type}.

Definition fueled {A} (m : eff S E A) : Prop := forall s, (m s).1 <> OutOfFuel.

Lemma fueled_ret {A} (a : A) : fueled (mret a : eff S E A).
Proof. done. Qed.
Lemma fueled_lift {A} (o : outcome E A) : o <> OutOfFuel -> fueled (lift_eff o).
Proof. by intros Ho s. Qed.
Lemma fueled_throw {A} e : fueled (throw (A := A) e).
Proof. done. Qed.
Lemma fueled_gets {A} (f : S -> A) : fueled (gets f).
Proof. done. Qed.
Lemma fueled_modify f : fueled (modify f).
Proof. done. Qed.
Lemma fueled_bind {A B} (m : eff S E A) (f : A -> eff S E B) :
  fueled m -> (forall a, fueled (f a)) -> fueled (m ≫= f).
Proof.
  intros Hm Hf s. pose proof (Hm s) as H. unfold mbind, eff_bind.
  destruct (m s) as [[a|e| |] s']; cbn in *; [apply Hf|done..].
Qed.
Lemma fueled_gets_bind {A B} (f : S -> A) (k : A -> eff S E B) :
  (forall s, fueled (k (f s))) -> fueled (gets f ≫= k).
Proof. intros Hk s. apply Hk. Qed.
Lemma fueled_attempt {A} (m : eff S E A) : fueled m -> fueled (attempt m).
Proof. intros Hm s. specialize (Hm s). unfold attempt. by destruct (m s) as [[] s']. Qed.
Lemma fueled_for_each {A X} (f : A -> X -> eff S E A) a l :
  (forall a x, x ∈ l -> fueled (f a x)) -> fueled (for_each f a l).
Proof.
  revert a. induction l as [|x l IH]; intros a Hf; [apply fueled_ret|].
  apply fueled_bind; [apply Hf; left|]. intros a'. apply IH. intros. apply Hf. by right.
Qed.

End fuel.

#[export] Hint Resolve fueled_ret fueled_lift fueled_throw fueled_gets fueled_modify fueled_bind
  fueled_attempt : eff.
