(* ===== verification/Short.v ===== *)
(** * The global counter and short ids

    Models [src/service/globals/data.rs] (the counter) and
    [src/service/rooms/short/mod.rs]: events, state keys, rooms and state
    hashes are numbered from one counter, and tables map them to their numbers
    and back.  A table is a map from key bytes to value bytes. *)

From stdpp Require Import prelude gmap strings list.
From Stdlib Require Import ZArith Lia.
From Stdlib Require Import Strings.Byte.
From S2P Require Import Prelude MachineInt DbCodec DbMap.

Inductive ShortError := DbNotFound | Codec (e : CodecError).

Record Db := MkDb {
  counter : Z;                      (** [RwLock<u64>] *)
  stored : option bytes;            (** [global["c"]] *)
  eventid_shorteventid : table;
  shorteventid_eventid : table;
  statekey_shortstatekey : table;
  shortstatekey_statekey : table;
  roomid_shortroomid : table;
  statehash_shortstatehash : table }.

(** ** Counter *)

Section short.
Context (debug : bool).

Definition stored_count (db : Db) : outcome Bytes.Error Z :=
  match stored db with None => Done 0%Z | Some b => Bytes.u64_from_bytes b end.

(** The condition of the [debug_assert!]: the counter is the stored one. *)
Definition counter_matches (db : Db) : bool :=
  match stored_count db with Done c => bool_decide (counter db = c) | _ => false end.

Definition set_counter (db : Db) (c : Z) : Db :=
  MkDb c (Some (u64_to_be_bytes c)) (eventid_shorteventid db) (shorteventid_eventid db)
    (statekey_shortstatekey db) (shortstatekey_statekey db) (roomid_shortroomid db)
    (statehash_shortstatehash db).

Definition next_count (db : Db) : outcome ShortError (Z * Db) :=
  debug_assert debug (counter_matches db);;
  c ← expect (u64_checked_add (counter db) 1);
  Done (c, set_counter db c).

Definition current_count (db : Db) : outcome ShortError Z :=
  debug_assert debug (counter_matches db);; Done (counter db).

(** ** Table access *)

Definition lift {A} (o : outcome CodecError A) : outcome ShortError A :=
  match o with Done a => Done a | Fail e => Fail (Codec e) | Panic => Panic | OutOfFuel => OutOfFuel end.

(** [get(key).await.deserialized()] into a number or a text. *)
Definition get_u64 (t : table) (key : bytes) : outcome ShortError Z :=
  b ← ok_or DbNotFound (t !! key);
  v ← lift (from_slice debug TU64 b);
  match v with VU64 z => Done z | _ => Panic end.

Definition get_text (t : table) (key : bytes) : outcome ShortError bytes :=
  b ← ok_or DbNotFound (t !! key);
  v ← lift (from_slice debug TStr b);
  match v with VStr s => Done s | _ => Panic end.

(** [if let Ok(short) = lookup { return short }], else create; a panic is not
    an [Err]. *)
Definition or_create (lookup : outcome ShortError Z) (db : Db) (create : Db -> outcome ShortError (Z * Db))
    : outcome ShortError (Z * Db) :=
  match lookup with
  | Done short => Done (short, db)
  | Fail _ => create db
  | Panic => Panic
  | OutOfFuel => OutOfFuel
  end.

(** ** Events *)

Definition set_event_tables (db : Db) (t1 t2 : table) : Db :=
  MkDb (counter db) (stored db) t1 t2 (statekey_shortstatekey db) (shortstatekey_statekey db)
    (roomid_shortroomid db) (statehash_shortstatehash db).

Definition create_shorteventid (event_id : bytes) (db : Db) : outcome ShortError (Z * Db) :=
  '(short, db) ← next_count db;
  Done (short, set_event_tables db
    (<[event_id := u64_to_be_bytes short]> (eventid_shorteventid db))
    (<[u64_to_be_bytes short := event_id]> (shorteventid_eventid db))).

Definition get_shorteventid (db : Db) (event_id : bytes) : outcome ShortError Z :=
  get_u64 (eventid_shorteventid db) event_id.

Definition get_or_create_shorteventid (db : Db) (event_id : bytes) : outcome ShortError (Z * Db) :=
  or_create (get_shorteventid db event_id) db (create_shorteventid event_id).

(** One item of the stream: what the batched lookup found, and the event. *)
Definition number_item (acc : list Z * Db) (item : option bytes * bytes) : outcome ShortError (list Z * Db) :=
  let '(shorts, db) := acc in
  match item with
  | (Some short, _) =>
      match Bytes.u64_from_bytes short with Done s => Done (shorts ++ [s], db) | _ => Panic end
  | (None, event_id) => '(s, db) ← create_shorteventid event_id db; Done (shorts ++ [s], db)
  end.

(** The lookups are made in batches ahead of the creations: here all of them. *)
Definition multi_get_or_create_shorteventid (db : Db) (event_ids : list bytes)
    : outcome ShortError (list Z * Db) :=
  let results := (fun event_id => eventid_shorteventid db !! event_id) <$> event_ids in
  try_fold number_item ([], db) (zip results event_ids).

(** One request after the other, as the reference. *)
Definition number_one (acc : list Z * Db) (event_id : bytes) : outcome ShortError (list Z * Db) :=
  let '(shorts, db) := acc in
  '(s, db) ← get_or_create_shorteventid db event_id; Done (shorts ++ [s], db).

Definition get_eventid_from_short (db : Db) (shorteventid : Z) : outcome ShortError bytes :=
  get_text (shorteventid_eventid db) (u64_to_be_bytes shorteventid).

(** Both [multi_get] streams look every number up on its own. *)
Definition multi_get_eventid_from_short (db : Db) (shorteventids : list Z) : list (outcome ShortError bytes) :=
  get_eventid_from_short db <$> shorteventids.

(** ** State keys *)

Definition set_statekey_tables (db : Db) (t1 t2 : table) : Db :=
  MkDb (counter db) (stored db) (eventid_shorteventid db) (shorteventid_eventid db) t1 t2
    (roomid_shortroomid db) (statehash_shortstatehash db).

Definition statekey_bytes (event_type state_key : bytes) : outcome ShortError bytes :=
  lift (serialize_to_vec debug (VTuple [VStr event_type; VStr state_key])).

Definition get_shortstatekey (db : Db) (event_type state_key : bytes) : outcome ShortError Z :=
  key ← statekey_bytes event_type state_key;
  get_u64 (statekey_shortstatekey db) key.

Definition create_shortstatekey (event_type state_key : bytes) (db : Db) : outcome ShortError (Z * Db) :=
  '(short, db) ← next_count db;
  key ← statekey_bytes event_type state_key;
  Done (short, set_statekey_tables db
    (<[key := u64_to_be_bytes short]> (statekey_shortstatekey db))
    (<[u64_to_be_bytes short := key]> (shortstatekey_statekey db))).

Definition get_or_create_shortstatekey (db : Db) (event_type state_key : bytes)
    : outcome ShortError (Z * Db) :=
  or_create (get_shortstatekey db event_type state_key) db (create_shortstatekey event_type state_key).

Definition get_statekey_from_short (db : Db) (shortstatekey : Z) : outcome ShortError (bytes * bytes) :=
  b ← ok_or DbNotFound (shortstatekey_statekey db !! u64_to_be_bytes shortstatekey);
  v ← lift (from_slice debug (TTuple [TStr; TStr]) b);
  match v with VTuple [VStr t; VStr k] => Done (t, k) | _ => Panic end.

Definition multi_get_statekey_from_short (db : Db) (shortstatekeys : list Z)
    : list (outcome ShortError (bytes * bytes)) :=
  get_statekey_from_short db <$> shortstatekeys.

(** ** Rooms and state hashes *)

Definition set_rooms (db : Db) (t : table) : Db :=
  MkDb (counter db) (stored db) (eventid_shorteventid db) (shorteventid_eventid db)
    (statekey_shortstatekey db) (shortstatekey_statekey db) t (statehash_shortstatehash db).

Definition get_shortroomid (db : Db) (room_id : bytes) : outcome ShortError Z :=
  get_u64 (roomid_shortroomid db) room_id.

Definition get_or_create_shortroomid (db : Db) (room_id : bytes) : outcome ShortError (Z * Db) :=
  or_create (get_shortroomid db room_id) db (fun db =>
    '(short, db) ← next_count db;
    Done (short, set_rooms db (<[room_id := u64_to_be_bytes short]> (roomid_shortroomid db)))).

Definition set_hashes (db : Db) (t : table) : Db :=
  MkDb (counter db) (stored db) (eventid_shorteventid db) (shorteventid_eventid db)
    (statekey_shortstatekey db) (shortstatekey_statekey db) (roomid_shortroomid db) t.

(** Returns (shortstatehash, already_existed). *)
Definition get_or_create_shortstatehash (db : Db) (state_hash : bytes)
    : outcome ShortError (Z * bool * Db) :=
  match get_u64 (statehash_shortstatehash db) state_hash with
  | Done shortstatehash => Done (shortstatehash, true, db)
  | Fail _ =>
      '(short, db) ← next_count db;
      Done (short, false,
            set_hashes db (<[state_hash := u64_to_be_bytes short]> (statehash_shortstatehash db)))
  | Panic => Panic
  | OutOfFuel => OutOfFuel
  end.

End short.

(** ** Invariant *)

(** A table of short ids: every value is a number handed out by the counter, no
    two keys have the same. *)
Definition numbered (c : Z) (t : table) : Prop :=
  (forall k v, t !! k = Some v -> exists s, v = u64_to_be_bytes s /\ (0 < s <= c)%Z) /\
  (forall k k' v, t !! k = Some v -> t !! k' = Some v -> k = k').

(** The reverse table is the inverse. *)
Definition inverse (t1 t2 : table) : Prop := forall k v, t1 !! k = Some v <-> t2 !! v = Some k.

Definition short_inv (db : Db) : Prop :=
  is_u64 (counter db) /\ counter_matches db = true /\
  numbered (counter db) (eventid_shorteventid db) /\
  numbered (counter db) (statekey_shortstatekey db) /\
  numbered (counter db) (roomid_shortroomid db) /\
  numbered (counter db) (statehash_shortstatehash db) /\
  inverse (eventid_shorteventid db) (shorteventid_eventid db) /\
  inverse (statekey_shortstatekey db) (shortstatekey_statekey db) /\
  (forall k, is_Some (eventid_shorteventid db !! k) -> utf8_valid k = true) /\
  (forall k, is_Some (statekey_shortstatekey db !! k) -> exists t s,
     utf8_valid t = true /\ utf8_valid s = true /\ k = t ++ SEP :: s).

Section facts.
Context (debug : bool).
Implicit Types (db : Db) (t : table) (c s : Z).

Lemma numbered_mono c c' t : (c <= c')%Z -> numbered c t -> numbered c' t.
Proof.
  intros Hc [H1 H2]. split; [|done]. intros k v (s & -> & ?)%H1. exists s. split; [done|lia].
Qed.

(** The next number is not in a table yet. *)
Lemma numbered_fresh c t k :
  numbered c t -> is_u64 (c + 1) -> t !! k <> Some (u64_to_be_bytes (c + 1)).
Proof.
  intros [H1 _] Hc (s & E & Hs)%H1. apply u64_to_be_inj in E; [lia|done|]. width_lia.
Qed.

Lemma numbered_insert c t k :
  numbered c t -> (0 <= c)%Z -> is_u64 (c + 1) -> numbered (c + 1) (<[k := u64_to_be_bytes (c + 1)]> t).
Proof.
  intros Hn H0 Hc. split.
  - intros k' v Hv. rewrite lookup_insert in Hv. case_decide; [injection Hv as <-; exists (c + 1)%Z; split; [done|lia]|].
    by apply (numbered_mono c (c + 1)) in Hv; [|lia|].
  - intros k1 k2 v. rewrite !lookup_insert. repeat case_decide; subst; try done.
    + intros [= <-] E. by apply numbered_fresh in E.
    + intros E [= <-]. by apply numbered_fresh in E.
    + apply Hn.
Qed.

Lemma inverse_insert t1 t2 k v :
  inverse t1 t2 -> t1 !! k = None -> t2 !! v = None -> inverse (<[k := v]> t1) (<[v := k]> t2).
Proof.
  intros Hi H1 H2 k' v'. rewrite !lookup_insert. repeat case_decide; subst.
  - naive_solver.
  - split; [intros [= ->]; done|]. intros E%Hi. congruence.
  - split; [intros E%Hi; congruence|]. naive_solver.
  - apply Hi.
Qed.

Lemma inverse_fresh c t1 t2 :
  numbered c t1 -> inverse t1 t2 -> is_u64 (c + 1) -> t2 !! u64_to_be_bytes (c + 1) = None.
Proof.
  intros Hn Hi Hc. destruct (t2 !! _) as [k|] eqn:E; [|done]. apply Hi in E.
  by apply numbered_fresh in E.
Qed.

Lemma get_u64_numbered c t k s :
  is_u64 c -> numbered c t -> get_u64 debug t k = Done s <-> t !! k = Some (u64_to_be_bytes s) /\ is_u64 s.
Proof.
  intros Hc [H1 _]. unfold get_u64. destruct (t !! k) as [v|] eqn:E; [|naive_solver].
  destruct (H1 k v E) as (s' & -> & Hs). cbn [ok_or mbind outcome_bind].
  assert (is_u64 s') by width_lia. rewrite (from_slice_u64 debug) by done. cbn. split.
  - intros [= ->]. done.
  - intros [Eb%(inj Some) ?]. by rewrite (u64_to_be_inj s' s).
Qed.

Lemma get_u64_None t k : t !! k = None -> get_u64 debug t k = Fail DbNotFound.
Proof. intros E. unfold get_u64. by rewrite E. Qed.

(** *** The counter *)

Lemma next_count_matches db :
  is_u64 (counter db) -> counter_matches db = true -> (counter db < u64_max)%Z ->
  next_count debug db = Done (counter db + 1, set_counter db (counter db + 1))%Z /\
  is_u64 (counter db + 1) /\ counter_matches (set_counter db (counter db + 1)) = true.
Proof.
  intros Hu Hm Hc. assert (is_u64 (counter db + 1)) by width_lia. split_and!; [|done|].
  - unfold next_count. rewrite debug_assert_true by done. cbn [mbind outcome_bind].
    unfold u64_checked_add. rewrite (proj2 (checked_Some 0 u64_max (counter db + 1) (counter db + 1))); [done|width_lia].
  - unfold counter_matches, stored_count. cbn. rewrite Bytes.u64_from_bytes_be by done.
    by apply bool_decide_eq_true.
Qed.

Lemma next_count_spec db :
  short_inv db -> (counter db < u64_max)%Z ->
  next_count debug db = Done (counter db + 1, set_counter db (counter db + 1))%Z /\
  is_u64 (counter db + 1) /\ counter_matches (set_counter db (counter db + 1)) = true.
Proof. intros (Hu & Hm & _). by apply next_count_matches. Qed.

(** *** Creating an entry keeps the invariant *)

Lemma short_inv_counter db :
  short_inv db -> (counter db < u64_max)%Z -> short_inv (set_counter db (counter db + 1)).
Proof.
  intros I Hc. destruct (next_count_spec db I Hc) as (_ & Hu & Hm).
  destruct I as (_ & _ & N1 & N2 & N3 & N4 & I1 & I2 & U1 & U2).
  unfold short_inv; split_and!; try done; cbn; (eapply numbered_mono; [|eassumption]; lia).
Qed.

Lemma short_inv_event db e :
  short_inv db -> (counter db < u64_max)%Z -> utf8_valid e = true -> eventid_shorteventid db !! e = None ->
  exists db', create_shorteventid debug e db = Done (counter db + 1, db')%Z /\ short_inv db' /\
    eventid_shorteventid db' = <[e := u64_to_be_bytes (counter db + 1)]> (eventid_shorteventid db).
Proof.
  intros I Hc He Hn. destruct (next_count_spec db I Hc) as (E & Hu & Hm).
  pose proof (short_inv_counter db I Hc) as (_ & _ & _ & N2 & N3 & N4 & _ & I2 & _ & U2).
  destruct I as (H0 & _ & N1 & _ & _ & _ & I1 & _ & U1 & _).
  unfold create_shorteventid. rewrite E. cbn [mbind outcome_bind]. eexists. split; [done|].
  split; [|done]. unfold short_inv; cbn in *; split_and!; try done.
  - apply numbered_insert; [done|width_lia|done].
  - apply inverse_insert; [done..|]. by eapply inverse_fresh.
  - intros k. rewrite lookup_insert. case_decide; [by subst|apply U1].
Qed.

Lemma short_inv_statekey db ty sk :
  short_inv db -> (counter db < u64_max)%Z -> utf8_valid ty = true -> utf8_valid sk = true ->
  statekey_shortstatekey db !! (ty ++ SEP :: sk) = None ->
  exists db', create_shortstatekey debug ty sk db = Done (counter db + 1, db')%Z /\ short_inv db' /\
    statekey_shortstatekey db' = <[ty ++ SEP :: sk := u64_to_be_bytes (counter db + 1)]> (statekey_shortstatekey db).
Proof.
  intros I Hc Ht Hs Hn. destruct (next_count_spec db I Hc) as (E & Hu & Hm).
  pose proof (short_inv_counter db I Hc) as (_ & _ & N1 & _ & N3 & N4 & I1 & _ & U1 & _).
  destruct I as (H0 & _ & _ & N2 & _ & _ & _ & I2 & _ & U2).
  unfold create_shortstatekey, statekey_bytes. rewrite E. cbn [mbind outcome_bind].
  rewrite (serialize_fields debug [TStr; TStr]) by (repeat constructor; done).
  cbn [lift mbind outcome_bind enc_fields enc]. eexists. split; [done|].
  split; [|done]. unfold short_inv; cbn in *; split_and!; try done.
  - apply numbered_insert; [done|width_lia|done].
  - apply inverse_insert; [done..|]. by eapply inverse_fresh.
  - intros k. rewrite lookup_insert. case_decide; [subst; eauto|apply U2].
Qed.

(** *** Looking entries up *)

Lemma get_shorteventid_spec db e s :
  short_inv db ->
  get_shorteventid debug db e = Done s <-> eventid_shorteventid db !! e = Some (u64_to_be_bytes s) /\ is_u64 s.
Proof. intros (Hu & _ & N1 & _). by eapply get_u64_numbered. Qed.

Lemma get_eventid_spec db e s :
  short_inv db -> get_shorteventid debug db e = Done s -> get_eventid_from_short debug db s = Done e.
Proof.
  intros I [E _]%get_shorteventid_spec; [|done]. destruct I as (_ & _ & _ & _ & _ & _ & I1 & _ & U1 & _).
  unfold get_eventid_from_short, get_text. rewrite (proj1 (I1 _ _) E). cbn [ok_or mbind outcome_bind].
  rewrite from_slice_str; [done|]. apply U1. eauto.
Qed.

Lemma get_shortstatekey_spec db ty sk s :
  short_inv db -> utf8_valid ty = true -> utf8_valid sk = true ->
  get_shortstatekey debug db ty sk = Done s <->
  statekey_shortstatekey db !! (ty ++ SEP :: sk) = Some (u64_to_be_bytes s) /\ is_u64 s.
Proof.
  intros (Hu & _ & _ & N2 & _) Ht Hs. unfold get_shortstatekey, statekey_bytes.
  rewrite (serialize_fields debug [TStr; TStr]) by (repeat constructor; done). cbn. by eapply get_u64_numbered.
Qed.

Lemma get_statekey_spec db ty sk s :
  short_inv db -> utf8_valid ty = true -> utf8_valid sk = true ->
  get_shortstatekey debug db ty sk = Done s -> get_statekey_from_short debug db s = Done (ty, sk).
Proof.
  intros I Ht Hs [E _]%get_shortstatekey_spec; [|done..].
  destruct I as (_ & _ & _ & _ & _ & _ & _ & I2 & _ & _).
  unfold get_statekey_from_short. rewrite (proj1 (I2 _ _) E). cbn [ok_or mbind outcome_bind].
  assert (fields [TStr; TStr] [VStr ty; VStr sk]) as F by (repeat constructor; done).
  change (ty ++ SEP :: sk) with (enc_fields [VStr ty; VStr sk]).
  rewrite from_slice_fields by (done || by eapply enc_fields_nonempty; [done|cbn; lia]). done.
Qed.

(** What a lookup that is followed by a creation promises. *)
Definition creates (get : Db -> outcome ShortError Z) (run : Db -> outcome ShortError (Z * Db)) db : Prop :=
  exists s db', run db = Done (s, db') /\ short_inv db' /\ get db' = Done s /\ run db' = Done (s, db') /\
    ((get db = Done s /\ db' = db) \/ s = (counter db + 1)%Z /\ counter db' = s).

Lemma or_create_existing get create db s :
  short_inv db -> get db = Done s -> creates get (fun db => or_create (get db) db create) db.
Proof. intros I E. exists s, db. unfold or_create. rewrite E. split_and!; auto. Qed.

Lemma event_creates db e :
  short_inv db -> (counter db < u64_max)%Z -> utf8_valid e = true ->
  creates (fun db => get_shorteventid debug db e) (fun db => get_or_create_shorteventid debug db e) db.
Proof.
  intros I Hc He. destruct (eventid_shorteventid db !! e) as [v|] eqn:E.
  - pose proof I as (Hu & _ & [N1 _] & _). destruct (N1 _ _ E) as (s & -> & Hs).
    eapply or_create_existing; [done|]. apply get_shorteventid_spec; [done|]. split; [done|width_lia].
  - destruct (short_inv_event db e I Hc He E) as (db' & Ec & I' & Et).
    destruct (next_count_spec db I Hc) as (En & Hu & _).
    assert (get_shorteventid debug db' e = Done (counter db + 1)%Z) as G.
    { apply get_shorteventid_spec; [done|]. by rewrite Et, lookup_insert_eq. }
    exists (counter db + 1)%Z, db'. unfold get_or_create_shorteventid, or_create.
    rewrite G. unfold get_shorteventid. rewrite get_u64_None by done. split_and!; try done.
    right. split; [done|]. unfold create_shorteventid in Ec. rewrite En in Ec. cbn in Ec. by injection Ec as <-.
Qed.

Lemma event_creates_table db e s db' :
  short_inv db -> get_or_create_shorteventid debug db e = Done (s, db') ->
  forall e', e' <> e -> eventid_shorteventid db' !! e' = eventid_shorteventid db !! e'.
Proof.
  intros I E e' Hn. unfold get_or_create_shorteventid, or_create in E.
  destruct (get_shorteventid debug db e); [by simplify_eq| |done|done].
  unfold create_shorteventid, next_count in E. repeat bind_inv E. destruct a as [c db1].
  bind_inv E0. bind_inv E0. simplify_eq/=. by rewrite lookup_insert_ne.
Qed.

(** Looking a batch up first is the same as numbering its events one after the
    other, if no event comes twice. *)
Lemma number_items_sequential db es shorts db1 :
  short_inv db1 -> NoDup es -> Forall (fun e => utf8_valid e = true) es ->
  (counter db1 + Z.of_nat (length es) <= u64_max)%Z ->
  (forall e, e ∈ es -> eventid_shorteventid db1 !! e = eventid_shorteventid db !! e) ->
  try_fold (number_item debug) (shorts, db1) (zip ((fun e => eventid_shorteventid db !! e) <$> es) es) =
  try_fold (number_one debug) (shorts, db1) es.
Proof.
  revert shorts db1. induction es as [|e es IH]; intros shorts db1 I Hnd Hu Hc He; [done|].
  apply NoDup_cons in Hnd as [Hne Hnd]. apply Forall_cons in Hu as [Hue Hu]. cbn [length] in Hc.
  destruct (event_creates db1 e I) as (s & db2 & Er & I2 & Eg & _ & Hd); [lia|done|].
  pose proof (event_creates_table db1 e s db2 I Er) as Ht.
  assert (counter db2 <= counter db1 + 1)%Z as Hc2 by (destruct Hd as [[_ ->]|[-> ->]]; lia).
  cbn [fmap list_fmap zip zip_with try_fold]. cbn [number_one]. rewrite Er. cbn [mbind outcome_bind].
  transitivity (try_fold (number_item debug) (shorts ++ [s], db2)
    (zip ((fun e => eventid_shorteventid db !! e) <$> es) es)).
  - rewrite <- (He e) by set_solver. cbn [number_item].
    unfold get_or_create_shorteventid, or_create in Er.
    destruct (eventid_shorteventid db1 !! e) as [v|] eqn:E.
    + pose proof I as (Hu1 & _ & [N1 _] & _). destruct (N1 _ _ E) as (s' & -> & Hs').
      assert (is_u64 s') by width_lia.
      rewrite (proj2 (get_shorteventid_spec db1 e s' I)) in Er by done. simplify_eq.
      rewrite Bytes.u64_from_bytes_be by done. done.
    + unfold get_shorteventid in Er. rewrite get_u64_None in Er by done. by rewrite Er.
  - apply IH; [done..|lia|]. intros e' He'. rewrite Ht, He; set_solver.
Qed.

Lemma number_all_spec es shorts db :
  short_inv db -> Forall (fun e => utf8_valid e = true) es ->
  (counter db + Z.of_nat (length es) <= u64_max)%Z ->
  exists ss db', try_fold (number_one debug) (shorts, db) es = Done (shorts ++ ss, db') /\ short_inv db' /\
    (forall e s, get_shorteventid debug db e = Done s -> get_shorteventid debug db' e = Done s) /\
    Forall2 (fun e s => get_shorteventid debug db' e = Done s) es ss.
Proof.
  revert shorts db. induction es as [|e es IH]; intros shorts db I Hu Hc.
  { exists [], db. rewrite app_nil_r. split_and!; [done..|constructor]. }
  apply Forall_cons in Hu as [Hue Hu]. cbn [length] in Hc.
  destruct (event_creates db e I) as (s & db1 & Er & I1 & Eg & _ & Hd); [lia|done|].
  assert (counter db1 <= counter db + 1)%Z as Hc1 by (destruct Hd as [[_ ->]|[-> ->]]; lia).
  destruct (IH (shorts ++ [s]) db1 I1 Hu) as (ss & db2 & E2 & I2 & X2 & F2); [lia|].
  exists (s :: ss), db2. cbn [try_fold number_one]. rewrite Er. cbn [mbind outcome_bind].
  rewrite E2, <- app_assoc. split_and!; [done..| |constructor; auto].
  intros e' s' E'. apply X2. destruct (decide (e' = e)) as [->|Hn].
  - unfold get_or_create_shorteventid, or_create in Er. rewrite E' in Er. by simplify_eq.
  - unfold get_shorteventid, get_u64 in *. by rewrite (event_creates_table db e s db1 I Er).
Qed.

Lemma statekey_creates db ty sk :
  short_inv db -> (counter db < u64_max)%Z -> utf8_valid ty = true -> utf8_valid sk = true ->
  creates (fun db => get_shortstatekey debug db ty sk)
    (fun db => get_or_create_shortstatekey debug db ty sk) db.
Proof.
  intros I Hc Ht Hs. destruct (statekey_shortstatekey db !! (ty ++ SEP :: sk)) as [v|] eqn:E.
  - pose proof I as (Hu & _ & _ & [N1 _] & _). destruct (N1 _ _ E) as (s & -> & Hs').
    eapply or_create_existing; [done|]. apply get_shortstatekey_spec; [done..|]. split; [done|width_lia].
  - destruct (short_inv_statekey db ty sk I Hc Ht Hs E) as (db' & Ec & I' & Et).
    destruct (next_count_spec db I Hc) as (En & Hu & _).
    assert (get_shortstatekey debug db' ty sk = Done (counter db + 1)%Z) as G.
    { apply get_shortstatekey_spec; [done..|]. by rewrite Et, lookup_insert_eq. }
    assert (get_shortstatekey debug db ty sk = Fail DbNotFound) as G0.
    { unfold get_shortstatekey, statekey_bytes.
      rewrite (serialize_fields debug [TStr; TStr]) by (repeat constructor; done). by apply get_u64_None. }
    exists (counter db + 1)%Z, db'. unfold get_or_create_shortstatekey, or_create. rewrite G, G0.
    split_and!; try done. right. split; [done|]. unfold create_shortstatekey, statekey_bytes in Ec.
    rewrite En in Ec. cbn [mbind outcome_bind] in Ec.
    rewrite (serialize_fields debug [TStr; TStr]) in Ec by (repeat constructor; done). cbn in Ec.
    by injection Ec as <-.
Qed.

End facts.

(** ** Claims *)

Section claims.
Context (debug : bool).

(** Until the counter reaches [u64::MAX] it hands out the next number,
    never 0 and never one handed out before, and stores it; at [u64::MAX] it
    panics instead of wrapping around. *)
Theorem counter_monotone db :
  short_inv db ->
  match next_count debug db with
  | Done (c, db') => c = (counter db + 1)%Z /\ (0 < c <= u64_max)%Z /\ counter db' = c /\
      stored db' = Some (u64_to_be_bytes c) /\ short_inv db'
  | Panic => counter db = u64_max
  | _ => False
  end.
Proof.
  intros I. destruct (decide (counter db < u64_max)%Z) as [Hc|Hc].
  - destruct (next_count_spec debug db I Hc) as (-> & Hu & _).
    pose proof (short_inv_counter debug db I Hc). destruct I as (H0 & _).
    split_and!; try done; width_lia.
  - destruct I as (H0 & Hm & _). unfold next_count. rewrite debug_assert_true by done. cbn.
    unfold u64_checked_add. rewrite (proj2 (checked_None 0 u64_max (counter db + 1))) by width_lia.
    cbn. width_lia.
Qed.

(** Short event ids are permanent and invertible: the first request for an
    event id allocates a fresh number, later requests and lookups return the
    same one without changing the tables, and the number leads back to the
    event id; the tables stay consistent. *)
Theorem short_event_ids db e :
  short_inv db -> (counter db < u64_max)%Z -> utf8_valid e = true ->
  exists s db', get_or_create_shorteventid debug db e = Done (s, db') /\ short_inv db' /\
    get_shorteventid debug db' e = Done s /\ get_eventid_from_short debug db' s = Done e /\
    get_or_create_shorteventid debug db' e = Done (s, db') /\
    (get_shorteventid debug db e = Done s /\ db' = db \/ s = (counter db + 1)%Z).
Proof.
  intros I Hc He. destruct (event_creates debug db e I Hc He) as (s & db' & Er & I' & Eg & Er' & Hs).
  exists s, db'. split_and!; [done..|by eapply get_eventid_spec|done|]. destruct Hs as [?|[-> _]]; auto.
Qed.

(** The same for state keys, whose table key is the encoded pair of event
    type and state key. *)
Theorem short_state_keys db ty sk :
  short_inv db -> (counter db < u64_max)%Z -> utf8_valid ty = true -> utf8_valid sk = true ->
  exists s db', get_or_create_shortstatekey debug db ty sk = Done (s, db') /\ short_inv db' /\
    get_shortstatekey debug db' ty sk = Done s /\ get_statekey_from_short debug db' s = Done (ty, sk) /\
    get_or_create_shortstatekey debug db' ty sk = Done (s, db') /\
    (get_shortstatekey debug db ty sk = Done s /\ db' = db \/ s = (counter db + 1)%Z).
Proof.
  intros I Hc Ht Hs. destruct (statekey_creates debug db ty sk I Hc Ht Hs) as (s & db' & Er & I' & Eg & Er' & Hd).
  exists s, db'. split_and!; [done..|by apply get_statekey_spec|done|]. destruct Hd as [?|[-> _]]; auto.
Qed.

(** The batched lookup of [multi_get_or_create_shorteventid] numbers distinct
    events exactly as one request after the other would. *)
Theorem batch_numbers_like_single_requests db es :
  short_inv db -> NoDup es -> Forall (fun e => utf8_valid e = true) es ->
  (counter db + Z.of_nat (length es) <= u64_max)%Z ->
  multi_get_or_create_shorteventid debug db es = try_fold (number_one debug) ([], db) es.
Proof. intros. by apply number_items_sequential. Qed.

End claims.

Definition empty_db : Db := MkDb 0 None ∅ ∅ ∅ ∅ ∅ ∅.

Lemma empty_db_inv : short_inv empty_db.
Proof.
  unfold short_inv, numbered, inverse. cbn.
  split_and!; [width_lia|done|..]; intros; rewrite ?lookup_empty in *; try done;
    by destruct (is_Some_None (A := bytes)).
Qed.

Lemma counter_monotone_witness :
  next_count true empty_db = Done (1%Z, set_counter empty_db 1) /\ short_inv (set_counter empty_db 1).
Proof.
  split; [reflexivity|]. pose proof (counter_monotone true empty_db empty_db_inv) as M.
  exact (proj2 (proj2 (proj2 (proj2 M)))).
Defined.

Lemma short_event_ids_witness :
  exists s db', get_or_create_shorteventid true empty_db (str "$event") = Done (s, db') /\
    get_eventid_from_short true db' s = Done (str "$event").
Proof.
  destruct (short_event_ids true empty_db (str "$event")) as (s & db' & ? & _ & _ & ? & _).
  - apply empty_db_inv.
  - reflexivity.
  - reflexivity.
  - by exists s, db'.
Defined.

Lemma short_state_keys_witness :
  exists s db', get_or_create_shortstatekey false empty_db (str "m.room.member") (str "@a:b") = Done (s, db') /\
    get_statekey_from_short false db' s = Done (str "m.room.member", str "@a:b").
Proof.
  destruct (short_state_keys false empty_db (str "m.room.member") (str "@a:b")) as (s & db' & ? & _ & _ & ? & _).
  - apply empty_db_inv.
  - reflexivity.
  - reflexivity.
  - reflexivity.
  - by exists s, db'.
Defined.

Lemma batch_numbers_like_single_requests_witness :
  exists db', multi_get_or_create_shorteventid true empty_db [str "$a"; str "$b"] = Done ([1; 2]%Z, db').
Proof.
  rewrite (batch_numbers_like_single_requests true empty_db [str "$a"; str "$b"]).
  - eexists. reflexivity.
  - apply empty_db_inv.
  - apply (bool_decide_unpack _). reflexivity.
  - repeat constructor.
  - vm_compute. congruence.
Defined.

(** An unknown event that comes twice in one batch is missed twice and
    numbered twice: the second number replaces the first in the table, while
    both numbers lead back to the event. *)
Theorem repeated_event_numbered_twice :
  exists db', multi_get_or_create_shorteventid true empty_db [str "$a"; str "$a"] = Done ([1; 2]%Z, db') /\
    get_shorteventid true db' (str "$a") = Done 2%Z /\
    get_eventid_from_short true db' 1 = Done (str "$a") /\
    get_eventid_from_short true db' 2 = Done (str "$a").
Proof.
  assert (match multi_get_or_create_shorteventid true empty_db [str "$a"; str "$a"] with
          | Done (ss, db') => bool_decide (ss = [1; 2]%Z) && returns (get_shorteventid true db' (str "$a")) 2%Z &&
              returns (get_eventid_from_short true db' 1) (str "$a") &&
              returns (get_eventid_from_short true db' 2) (str "$a")
          | _ => false
          end = true) as T by by vm_compute.
  destruct (multi_get_or_create_shorteventid true empty_db [str "$a"; str "$a"]) as [[ss db']| | |];
    [|done..].
  apply andb_true_iff in T as [[[T1 T2]%andb_true_iff T3]%andb_true_iff T4].
  apply bool_decide_eq_true in T1 as ->. exists db'. split_and!; [done|by apply returns_Done..].
Qed.
