(* ===== verification/World.v ===== *)
(** * What the services share: the database and identifiers

    The services of [src/service] keep their state in tables of one database,
    which they reach by name ([args.db["…"]] in each [build]), and number what
    they write from the counter of [src/service/globals/data.rs] (modelled with
    [Short.Db]).  [World] is that database; an operation of a service is a
    function from a world to a world.

    Identifiers come from the ruma crate and are parameters, as is the JSON text
    of what [serde_json] writes. *)

From stdpp Require Import prelude gmap strings list sorting.
From Stdlib Require Import ZArith Lia.
From Stdlib Require Import Strings.Byte.
From S2P Require Import Prelude MachineInt DbCodec DbMap Short.

(** ** Identifiers and JSON *)

Create HintDb ids.

Class Ids := {
  user_id_ok : bytes -> bool;
  room_id_ok : bytes -> bool;
  server_name_ok : bytes -> bool;
  server_name : bytes -> bytes;        (** [UserId::server_name] *)
  user_id_utf8 : forall u, user_id_ok u = true -> utf8_valid u = true;
  room_id_utf8 : forall r, room_id_ok r = true -> utf8_valid r = true;
  room_id_nonempty : forall r, room_id_ok r = true -> exists b r', r = b :: r' /\ b <> SEP;
  ids_disjoint : forall x, user_id_ok x = true -> room_id_ok x = true -> False;
  server_name_utf8 : forall s, server_name_ok s = true -> utf8_valid s = true;
  server_name_nonempty : forall s, server_name_ok s = true -> s <> [];
  (** a host name or an address: it begins with neither [+] nor [$] *)
  server_name_head : forall s, server_name_ok s = true -> head s <> Some x2b /\ head s <> Some x24;
  server_name_valid : forall u, user_id_ok u = true -> server_name_ok (server_name u) = true }.

(** The JSON text of an array of raw values, and its parser. *)
Class Json := {
  json_array : list bytes -> bytes;
  parse_array : bytes -> option (list bytes);
  json_array_utf8 : forall l, Forall (fun v => utf8_valid v = true) l ->
    utf8_valid (json_array l) = true;
  parse_json_array : forall l, Forall (fun v => utf8_valid v = true) l ->
    parse_array (json_array l) = Some l }.

(** An identifier holds no separator. *)
Section identifiers.
Context {I : Ids}.

Lemma user_no_sep u : user_id_ok u = true -> SEP ∉ u.
Proof. intros. by apply utf8_no_sep, user_id_utf8. Qed.
Lemma room_no_sep r : room_id_ok r = true -> SEP ∉ r.
Proof. intros. by apply utf8_no_sep, room_id_utf8. Qed.
Lemma server_no_sep s : server_name_ok s = true -> SEP ∉ s.
Proof. intros. by apply utf8_no_sep, server_name_utf8. Qed.

End identifiers.
#[export] Hint Resolve user_no_sep room_no_sep server_no_sep utf8_no_sep : ids.

(** ** The tables *)

Inductive tbl :=
| bannedroomids | disabledroomids
| roomid_invitedcount | roomid_inviteviaservers | roomid_joinedcount
| roomserverids | serverroomids
| roomuserid_invitecount | roomuserid_joined | roomuserid_leftcount | roomuserid_knockedcount
| roomuseroncejoinedids
| userroomid_invitestate | userroomid_joined | userroomid_leftstate | userroomid_knockedstate
| roomuserdataid_accountdata | roomusertype_roomuserdataid
| userid_password
| servercurrentevent_data | servernameevent_data | servername_educount
| pduid_pdu | eventid_pduid | eventid_outlierpdu
| userroomid_notificationcount | userroomid_highlightcount
| readreceiptid_readreceipt | roomuserid_privateread | roomuserid_lastprivatereadupdate
| roomid_pduleaves | roomid_shortstatehash | shorteventid_shortstatehash
| referencedevents | softfailedeventids | tofrom_relation | tokenids
| userdevicetxnid_response | lazyloadedids | threadid_userids
| roomsynctoken_shortstatehash
| alias_userid | alias_roomid | aliasid_alias
| senderkey_pusher | pushkey_deviceid
| publicroomids
| keychangeid_userid | keyid_key | onetimekeyid_onetimekeys
| openidtoken_expiresatuserid | logintoken_expiresatuserid
| todeviceid_events | token_userdeviceid
| userdeviceid_metadata | userdeviceid_token | userfilterid_filter
| userid_avatarurl | userid_blurhash | userid_devicelistversion | userid_displayname
| userid_lastonetimekeyupdate | userid_masterkeyid | userid_selfsigningkeyid | userid_usersigningkeyid
| useridprofilekey_value
| backupid_algorithm | backupid_etag | backupkeyid_backup
| userdevicesessionid_uiaainfo | userid_presenceid | presenceid_presence.

#[export] Instance tbl_eq_dec : EqDecision tbl.
Proof. solve_decision. Defined.

Record World := MkWorld { maps : tbl -> table; globals : Db }.

Definition set_map (t : tbl) (m : table) (w : World) : World :=
  MkWorld (fun t' => if decide (t = t') then m else maps w t') (globals w).

(** [self.db.t.insert(k, v)] and [self.db.t.remove(k)]. *)
Definition ins (t : tbl) (k v : bytes) (w : World) : World := set_map t (<[k := v]> (maps w t)) w.
Definition rem (t : tbl) (k : bytes) (w : World) : World := set_map t (delete k (maps w t)) w.

(** A write that may panic. *)
Definition upd (t : tbl) (f : table -> outcome CodecError table) (w : World) : outcome CodecError World :=
  m ← f (maps w t); Done (set_map t m w).

Lemma maps_ins_eq t k v w : maps (ins t k v w) t = <[k := v]> (maps w t).
Proof. unfold ins, set_map. cbn. by rewrite decide_True. Qed.
Lemma maps_ins_ne t t' k v w : t <> t' -> maps (ins t k v w) t' = maps w t'.
Proof. intros. unfold ins, set_map. cbn. by rewrite decide_False. Qed.
Lemma maps_rem_eq t k w : maps (rem t k w) t = delete k (maps w t).
Proof. unfold rem, set_map. cbn. by rewrite decide_True. Qed.
Lemma maps_rem_ne t t' k w : t <> t' -> maps (rem t k w) t' = maps w t'.
Proof. intros. unfold rem, set_map. cbn. by rewrite decide_False. Qed.
Lemma maps_set_eq t m w : maps (set_map t m w) t = m.
Proof. unfold set_map. cbn. by rewrite decide_True. Qed.
Lemma maps_set_ne t t' m w : t <> t' -> maps (set_map t m w) t' = maps w t'.
Proof. intros. unfold set_map. cbn. by rewrite decide_False. Qed.

Create Rewrite HintDb world.
#[export] Hint Rewrite maps_ins_eq maps_rem_eq maps_set_eq : world.
#[export] Hint Rewrite maps_ins_ne maps_rem_ne maps_set_ne using done : world.

Lemma globals_ins t k v w : globals (ins t k v w) = globals w.
Proof. done. Qed.
Lemma globals_rem t k w : globals (rem t k w) = globals w.
Proof. done. Qed.
Lemma globals_set t m w : globals (set_map t m w) = globals w.
Proof. done. Qed.
#[export] Hint Rewrite globals_ins globals_rem globals_set : world.

Arguments ins : simpl never.
Arguments rem : simpl never.
Arguments set_map : simpl never.

(** Writes of JSON and of numbers under raw keys. *)
Section raw_writes.
Context (debug : bool).

Lemma upd_json t k text w :
  upd t (fun m => raw_put debug m k (VJson text)) w = Done (ins t k text w).
Proof. by destruct debug. Qed.

Lemma upd_count t k n w :
  upd t (fun m => raw_aput debug 8 m k (VU64 n)) w = Done (ins t k (u64_to_be_bytes n) w).
Proof.
  unfold upd, raw_aput, raw_bput, buffer_serialize, serialize. cbn [ser_value]. unfold write.
  cbn [out cap app from_option]. rewrite length_u64_to_be. by destruct debug.
Qed.

Lemma upd_put_count t k n w :
  upd t (fun m => raw_put debug m k (VU64 n)) w = Done (ins t k (u64_to_be_bytes n) w).
Proof. by destruct debug. Qed.

End raw_writes.

(** Nothing but the given tables was written. *)
Definition frame (ts : list tbl) (w w' : World) : Prop :=
  forall t, t ∉ ts -> maps w' t = maps w t.

Lemma frame_refl ts w : frame ts w w.
Proof. done. Qed.
Lemma frame_trans ts w1 w2 w3 : frame ts w1 w2 -> frame ts w2 w3 -> frame ts w1 w3.
Proof. intros H1 H2 t Ht. by rewrite H2, H1. Qed.
Lemma frame_mono ts ts' w w' : frame ts w w' -> ts ⊆ ts' -> frame ts' w w'.
Proof. intros H Hs t Ht. apply H. set_solver. Qed.
Lemma frame_ins ts t k v w : t ∈ ts -> frame ts w (ins t k v w).
Proof. intros Ht t' Ht'. apply maps_ins_ne. set_solver. Qed.
Lemma frame_rem ts t k w : t ∈ ts -> frame ts w (rem t k w).
Proof. intros Ht t' Ht'. apply maps_rem_ne. set_solver. Qed.

(** Removing the keys of a scan. *)
Lemma rem_keys t ks w :
  let w' := foldl (fun w k => rem t k w) w ks in
  frame [t] w w' /\ forall k, maps w' t !! k = if decide (k ∈ ks) then None else maps w t !! k.
Proof.
  revert w. induction ks as [|k0 ks IH]; intros w; cbn [foldl].
  { split; [done|]. intros k. rewrite decide_False by set_solver. done. }
  destruct (IH (rem t k0 w)) as [Hf Hk]. split.
  - eapply frame_trans; [|done]. apply frame_rem. left.
  - intros k. rewrite Hk, maps_rem_eq. destruct (decide (k = k0)) as [->|Hne].
    + rewrite lookup_delete_eq. repeat case_decide; set_solver.
    + rewrite lookup_delete_ne by done. repeat case_decide; set_solver.
Qed.

(** Decides membership in a list of tables that is written out. *)
Ltac in_tables := repeat first [left; done | right].

(** ** The counter *)

Section counter.
Context (debug : bool).

(** [self.services.globals.next_count().unwrap()] *)
Definition next_count (w : World) : outcome CodecError (Z * World) :=
  match Short.next_count debug (globals w) with
  | Done (c, g) => Done (c, MkWorld (maps w) g)
  | Fail _ | Panic => Panic
  | OutOfFuel => OutOfFuel
  end.

Definition current (w : World) : Z := counter (globals w).

(** The counter is in step with the stored one and has room for [n] more. *)
Definition count_ok (n : Z) (w : World) : Prop :=
  (0 <= current w /\ current w + n <= u64_max)%Z /\ counter_matches (globals w) = true.

Lemma next_count_ok n w :
  count_ok n w -> (1 <= n)%Z ->
  exists w', next_count w = Done (current w + 1, w')%Z /\ maps w' = maps w /\
    current w' = (current w + 1)%Z /\ count_ok (n - 1) w' /\ is_u64 (current w + 1).
Proof.
  intros ([H0 Hm] & Hc) Hn. unfold next_count, current in *.
  destruct (next_count_matches debug (globals w)) as (-> & Hu & Hm'); [width_lia|done|lia|].
  eexists. split; [done|]. split; [done|]. unfold count_ok, current. cbn.
  split_and!; done || lia || width_lia.
Qed.

Lemma count_ok_mono n m w : count_ok n w -> (m <= n)%Z -> count_ok m w.
Proof. intros [? ?] ?. split; [lia|done]. Qed.

End counter.

(** ** Identifiers for the witnesses: ASCII text behind its sigil *)

Definition ascii_ok (b : bytes) : bool := forallb (in_range 0x00 0x7F) b.

Lemma ascii_utf8 b : ascii_ok b = true -> utf8_valid b = true.
Proof.
  induction b as [|x b IH]; [done|]. cbn [ascii_ok forallb utf8_valid].
  intros [-> Hb]%andb_true_iff. by apply IH.
Qed.

Fixpoint after_colon (b : bytes) : bytes :=
  match b with [] => [] | x :: b => if decide (x = x3a) then b else after_colon b end.

Definition sigil (x : byte) (b : bytes) : bool := ascii_ok b && bool_decide (head b = Some x).

Definition toy_server (b : bytes) : bool :=
  ascii_ok b && negb (bool_decide (b = []))
  && negb (bool_decide (head b = Some x2b)) && negb (bool_decide (head b = Some x24)).

Program Definition toy_ids : Ids :=
  {| user_id_ok := fun u => sigil x40 u && toy_server (after_colon u);
     room_id_ok := sigil x21; server_name_ok := toy_server; server_name := after_colon |}.
Next Obligation. intros u [[Hu _]%andb_true_iff _]%andb_true_iff. by apply ascii_utf8. Qed.
Next Obligation. intros u [Hu _]%andb_true_iff. by apply ascii_utf8. Qed.
Next Obligation.
  intros r [_ Hr%bool_decide_eq_true]%andb_true_iff. destruct r as [|b r]; [done|].
  injection Hr as ->. by exists x21, r.
Qed.
Next Obligation.
  intros x [[_ H1%bool_decide_eq_true]%andb_true_iff _]%andb_true_iff [_ H2%bool_decide_eq_true]%andb_true_iff.
  congruence.
Qed.
Next Obligation. unfold toy_server. intros s H. apply ascii_utf8. by destruct (ascii_ok s). Qed.
Next Obligation. by intros []. Qed.
Next Obligation.
  unfold toy_server. intros s H. repeat apply andb_true_iff in H as [H ?%negb_true_iff%bool_decide_eq_false].
  done.
Qed.
Next Obligation. by intros u [_ Hu]%andb_true_iff. Qed.

(** An empty database whose counter is [c]. *)
Definition empty_world (c : Z) : World :=
  MkWorld (fun _ => ∅) (MkDb c (Some (u64_to_be_bytes c)) ∅ ∅ ∅ ∅ ∅ ∅).

Lemma empty_world_ok c n :
  (0 <= c)%Z -> (c + n <= u64_max)%Z -> (0 <= n)%Z -> count_ok n (empty_world c).
Proof.
  intros. split; [cbn; lia|]. unfold counter_matches. cbn.
  rewrite Bytes.u64_from_bytes_be by width_lia. by apply bool_decide_eq_true.
Qed.

(** ** JSON for the witnesses: each value behind its length in unary *)

(** A valid text begins with a character, and what follows it decides. *)
Lemma utf8_char b0 l :
  utf8_valid (b0 :: l) = true ->
  exists h t, b0 :: l = h ++ t /\ h <> [] /\ utf8_valid t = true /\
    forall t', utf8_valid (h ++ t') = utf8_valid t'.
Proof.
  intros Hv. cbn [utf8_valid] in Hv. destruct (in_range 0 127 b0) eqn:E0.
  { exists [b0], l. split_and!; try done. intros t'. cbn. by rewrite E0. }
  destruct l as [|b1 l]; [done|]. destruct (in_range 194 223 b0) eqn:E1.
  { apply andb_true_iff in Hv as [H1 Hv]. exists [b0; b1], l. split_and!; try done.
    intros t'. cbn. by rewrite E0, E1, H1. }
  destruct l as [|b2 l]; [done|]. destruct (in_range 224 239 b0) eqn:E2.
  { apply andb_true_iff in Hv as [H1 Hv]. exists [b0; b1; b2], l. split_and!; try done.
    intros t'. cbn. rewrite E0, E1, E2. by rewrite H1. }
  destruct l as [|b3 l]; [done|]. apply andb_true_iff in Hv as [H1 Hv].
  exists [b0; b1; b2; b3], l. split_and!; try done. intros t'. cbn. rewrite E0, E1, E2. by rewrite H1.
Qed.

Lemma utf8_app a b : utf8_valid a = true -> utf8_valid b = true -> utf8_valid (a ++ b) = true.
Proof.
  intros Ha Hb. remember (length a) as n eqn:Hn. revert a Hn Ha.
  induction n as [n IH] using lt_wf_ind. intros a -> Ha. destruct a as [|b0 l]; [done|].
  destruct (utf8_char b0 l Ha) as (h & t & E & Hne & Ht & Hh). rewrite E, <- app_assoc, Hh.
  apply (IH (length t)); [|done|done]. rewrite E, length_app. destruct h; [done|cbn; lia].
Qed.

Fixpoint toy_array (l : list bytes) : bytes :=
  match l with
  | [] => []
  | v :: l => replicate (length v) x31 ++ x30 :: v ++ toy_array l
  end.

Fixpoint toy_ones (b : bytes) : nat * bytes :=
  match b with
  | x :: b' => if decide (x = x31) then let '(n, r) := toy_ones b' in (S n, r) else (0, b)
  | [] => (0, [])
  end.

Fixpoint toy_parse (fuel : nat) (b : bytes) : option (list bytes) :=
  match fuel, b with
  | _, [] => Some []
  | S fuel, _ =>
      match toy_ones b with
      | (n, _ :: r) => cons (take n r) <$> toy_parse fuel (drop n r)
      | _ => None
      end
  | O, _ => None
  end.

Lemma toy_ones_replicate n r : toy_ones (replicate n x31 ++ x30 :: r) = (n, x30 :: r).
Proof. induction n as [|n IH]; [done|]. cbn. by rewrite IH. Qed.

Lemma toy_parse_array l fuel : length l <= fuel -> toy_parse fuel (toy_array l) = Some l.
Proof.
  revert fuel. induction l as [|v l IH]; intros fuel Hf; [by destruct fuel|].
  destruct fuel as [|fuel]; [cbn in Hf; lia|]. cbn [toy_array toy_parse].
  rewrite toy_ones_replicate. destruct (replicate _ _ ++ _) eqn:Er; [by destruct (replicate _ _)|].
  rewrite take_app_length, drop_app_length, IH by (cbn in Hf; lia). done.
Qed.

Program Definition toy_arrays : Json :=
  {| json_array := toy_array; parse_array := fun b => toy_parse (length b) b |}.
Next Obligation.
  intros l Hl. induction Hl as [|v l Hv Hl IH]; [done|]. cbn [toy_array]. apply utf8_app.
  - apply ascii_utf8. induction (length v); [done|]. cbn. done.
  - change (utf8_valid (v ++ toy_array l) = true). by apply utf8_app.
Qed.
Next Obligation.
  intros l _. apply toy_parse_array. induction l as [|v l IH]; cbn; [lia|].
  rewrite length_app. cbn. rewrite length_app. lia.
Qed.
