(* ===== verification/AccountData.v ===== *)
(** * Account data

    Models [src/service/account_data/mod.rs]: the events a client stores for a
    user, globally or in a room.  A row of [roomuserdataid_accountdata] holds
    the event under its owner, the number of the change and its type;
    [roomusertype_roomuserdataid] names the newest row of each type. *)

From stdpp Require Import prelude gmap strings list sorting.
From Stdlib Require Import ZArith Lia.
From Stdlib Require Import Strings.Byte.
From S2P Require Import Prelude MachineInt DbCodec DbMap Short World.

(** What the code asks of a JSON text: whether an object has a field, and
    whether the text is a JSON value at all. *)
Class JsonText := {
  json_has : bytes -> string -> bool;
  json_raw_ok : bytes -> bool }.

Inductive AccountError := InvalidParam | AccountDb (e : DbError).

Section account_data.
Context (debug : bool) {E : Engine} {I : Ids} {J : JsonText}.

Definition lift_acct {A} (o : outcome DbError A) : outcome AccountError A :=
  match o with
  | Done a => Done a | Fail e => Fail (AccountDb e) | Panic => Panic | OutOfFuel => OutOfFuel
  end.

(** [Option<&RoomId>]. *)
Definition opt_room (room_id : option bytes) : value :=
  from_option (fun r => VSome (VStr r)) VNone room_id.

Definition roomuserdataid (room_id : option bytes) (user_id : bytes) (count : Z) (event_type : bytes) : value :=
  VTuple [opt_room room_id; VStr user_id; VU64 count; VStr event_type].
Definition roomusertype (room_id : option bytes) (user_id event_type : bytes) : value :=
  VTuple [opt_room room_id; VStr user_id; VStr event_type].

Definition update (room_id : option bytes) (user_id event_type data : bytes) (w : World)
    : outcome AccountError World :=
  if negb (json_has data "type") || negb (json_has data "content") then Fail InvalidParam else
  '(count, w) ← lift_acct (lift_de (next_count debug w));
  let id := roomuserdataid room_id user_id count event_type in
  w ← lift_acct (lift_de (upd roomuserdataid_accountdata (fun t => put debug t id (VJson data)) w));
  let key := roomusertype room_id user_id event_type in
  let prev := qry debug (maps w roomusertype_roomuserdataid) key in
  w ← lift_acct (lift_de (upd roomusertype_roomuserdataid (fun t => put debug t key id) w));
  match prev with
  | Done prev => Done (rem roomuserdataid_accountdata prev w)
  | Fail _ => Done w
  | Panic => Panic
  | OutOfFuel => OutOfFuel
  end.

Definition get_raw (room_id : option bytes) (user_id kind : bytes) (w : World) : outcome DbError bytes :=
  id ← qry debug (maps w roomusertype_roomuserdataid) (roomusertype room_id user_id kind);
  get (maps w roomuserdataid_accountdata) id.

(** [get_global] and [get_room] hand the row to a JSON decoder. *)
Definition get_global {T} (de : bytes -> option T) (user_id kind : bytes) (w : World) : outcome DbError T :=
  b ← get_raw None user_id kind w; ok_or (DeError (SerdeDe "json")) (de b).
Definition get_room {T} (de : bytes -> option T) (room_id user_id kind : bytes) (w : World) : outcome DbError T :=
  b ← get_raw (Some room_id) user_id kind w; ok_or (DeError (SerdeDe "json")) (de b).

(** A row of [changes_since] after [ignore_err]: owner, number and event. *)
Definition decode_change (kv : row) : outcome CodecError (option bytes * bytes * Z * bytes) :=
  k ← deserialize_key debug (TTuple [TOption TStr; TStr; TU64; TIgnore]) kv.1;
  v ← deserialize_key debug TBytes kv.2;
  match k, v with
  | VTuple [VNone; VStr u; VU64 c; _], VBytes data =>
      if user_id_ok u then Done (None, u, c, data) else Fail (SerdeDe "user id")
  | VTuple [VSome (VStr r); VStr u; VU64 c; _], VBytes data =>
      if room_id_ok r && user_id_ok u then Done (Some r, u, c, data) else Fail (SerdeDe "id")
  | _, _ => Panic
  end.

Definition change_in (room_id : option bytes) (user_id : bytes) (to : option Z)
    (x : option bytes * bytes * Z * bytes) : Prop :=
  let '(r, u, c, _) := x in room_id = r /\ user_id = u /\ from_option (fun to => (c <= to)%Z) True to.

#[global] Instance change_in_dec room_id user_id to x : Decision (change_in room_id user_id to x).
Proof. destruct x as [[[r u] c] d], to; cbn; apply _. Defined.

Definition changes_since (room_id : option bytes) (user_id : bytes) (since : Z) (to : option Z) (w : World)
    : outcome CodecError (list bytes) :=
  let first_possible := VTuple [opt_room room_id; VStr user_id; VU64 (saturate 0 u64_max (since + 1))] in
  rs ← stream_from_raw debug (maps w roomuserdataid_accountdata) first_possible;
  items ← ignore_err (decode_change <$> (rs : list row));
  let items := take_while (change_in room_id user_id to) (items : list _) in
  Done (filter (fun v => json_raw_ok v = true) (snd <$> (items : list (option bytes * bytes * Z * bytes)))).

End account_data.

(** ** Keys *)

Section keys.
Context (debug : bool) {I : Ids}.

Definition owner_ok (room_id : option bytes) (user_id : bytes) : Prop :=
  from_option (fun r => room_id_ok r = true) True room_id /\ user_id_ok user_id = true.

Definition id_key (room_id : option bytes) (user_id : bytes) (c : Z) (ty : bytes) : bytes :=
  enc_fields [opt_room room_id; VStr user_id; VU64 c; VStr ty].
Definition type_key (room_id : option bytes) (user_id ty : bytes) : bytes :=
  enc_fields [opt_room room_id; VStr user_id; VStr ty].

Lemma field_opt_room r final :
  from_option (fun r => room_id_ok r = true) True r -> field final (TOption TStr) (opt_room r).
Proof.
  destruct r as [r|]; cbn; intros Hr; [|constructor].
  destruct (room_id_nonempty r Hr) as (b & r' & -> & Hb).
  econstructor; [constructor; by apply room_id_utf8|done|done].
Qed.

Lemma id_fields r u c ty :
  owner_ok r u -> is_u64 c -> utf8_valid ty = true ->
  fields [TOption TStr; TStr; TU64; TStr] [opt_room r; VStr u; VU64 c; VStr ty].
Proof.
  intros [Hr Hu] Hc Ht. apply user_id_utf8 in Hu.
  repeat first [apply field_opt_room; done | constructor; try done].
Qed.

Lemma type_fields r u ty :
  owner_ok r u -> utf8_valid ty = true ->
  fields [TOption TStr; TStr; TStr] [opt_room r; VStr u; VStr ty].
Proof.
  intros [Hr Hu] Ht. apply user_id_utf8 in Hu.
  repeat first [apply field_opt_room; done | constructor; try done].
Qed.

Lemma opt_room_inj r r' : opt_room r = opt_room r' -> r = r'.
Proof. destruct r, r'; cbn; naive_solver. Qed.

Lemma id_key_inj r u c ty r' u' c' ty' :
  owner_ok r u -> is_u64 c -> utf8_valid ty = true ->
  owner_ok r' u' -> is_u64 c' -> utf8_valid ty' = true ->
  id_key r u c ty = id_key r' u' c' ty' -> r = r' /\ u = u' /\ c = c' /\ ty = ty'.
Proof.
  intros ?????? Ek. apply (enc_fields_inj debug [TOption TStr; TStr; TU64; TStr]) in Ek;
    [|by apply id_fields..|by eapply enc_fields_nonempty; [apply id_fields|cbn; lia]].
  injection Ek as Er -> -> ->. by apply opt_room_inj in Er.
Qed.

Lemma type_key_inj r u ty r' u' ty' :
  owner_ok r u -> utf8_valid ty = true -> owner_ok r' u' -> utf8_valid ty' = true ->
  type_key r u ty = type_key r' u' ty' -> r = r' /\ u = u' /\ ty = ty'.
Proof.
  intros ???? Ek. apply (enc_fields_inj debug [TOption TStr; TStr; TStr]) in Ek;
    [|by apply type_fields..|by eapply enc_fields_nonempty; [apply type_fields|cbn; lia]].
  injection Ek as Er -> ->. by apply opt_room_inj in Er.
Qed.

Lemma serialize_id r u c ty :
  owner_ok r u -> is_u64 c -> utf8_valid ty = true ->
  buffer_serialize debug None (roomuserdataid r u c ty) = Done (id_key r u c ty).
Proof.
  intros ???. unfold buffer_serialize.
  change (serialize debug None) with (serialize_to_vec debug). unfold roomuserdataid.
  by rewrite (serialize_fields debug [TOption TStr; TStr; TU64; TStr]) by by apply id_fields.
Qed.

Lemma serialize_type r u ty :
  owner_ok r u -> utf8_valid ty = true ->
  buffer_serialize debug None (roomusertype r u ty) = Done (type_key r u ty).
Proof.
  intros ??. unfold buffer_serialize.
  change (serialize debug None) with (serialize_to_vec debug). unfold roomusertype.
  by rewrite (serialize_fields debug [TOption TStr; TStr; TStr]) by by apply type_fields.
Qed.

End keys.

(** ** Invariant: the two tables name each other's rows *)

Section facts.
Context (debug : bool) {E : Engine} {I : Ids} {J : JsonText}.

Definition acct_inv (w : World) : Prop :=
  (forall k v, maps w roomuserdataid_accountdata !! k = Some v ->
     exists r u c ty, owner_ok r u /\ utf8_valid ty = true /\ (0 < c <= current w)%Z /\
       k = id_key r u c ty /\ maps w roomusertype_roomuserdataid !! type_key r u ty = Some k) /\
  (forall r u ty k, owner_ok r u -> utf8_valid ty = true ->
     maps w roomusertype_roomuserdataid !! type_key r u ty = Some k ->
     exists c, (0 < c <= current w)%Z /\ k = id_key r u c ty /\
       is_Some (maps w roomuserdataid_accountdata !! k)) /\
  (forall c r u ty r' u' ty', owner_ok r u -> utf8_valid ty = true -> owner_ok r' u' -> utf8_valid ty' = true ->
     is_u64 c ->
     is_Some (maps w roomuserdataid_accountdata !! id_key r u c ty) ->
     is_Some (maps w roomuserdataid_accountdata !! id_key r' u' c ty') ->
     (r, u, ty) = (r', u', ty')).

(** The world after an update, given the number it drew. *)
Definition updated (r : option bytes) (u ty data : bytes) (c : Z) (w : World) : World :=
  let w1 := set_map roomuserdataid_accountdata
    (<[id_key r u c ty := data]> (maps w roomuserdataid_accountdata)) w in
  let w2 := set_map roomusertype_roomuserdataid
    (<[type_key r u ty := id_key r u c ty]> (maps w roomusertype_roomuserdataid)) w1 in
  match maps w roomusertype_roomuserdataid !! type_key r u ty with
  | Some prev => rem roomuserdataid_accountdata prev w2
  | None => w2
  end.

Lemma update_runs r u ty data w n :
  owner_ok r u -> utf8_valid ty = true -> count_ok n w -> (1 <= n)%Z ->
  json_has data "type" = true -> json_has data "content" = true ->
  exists w1, maps w1 = maps w /\ current w1 = (current w + 1)%Z /\ count_ok (n - 1) w1 /\
    is_u64 (current w + 1) /\
    update debug r u ty data w = Done (updated r u ty data (current w + 1) w1).
Proof.
  intros Ho Ht Hc Hn H1 H2. destruct (next_count_ok debug n w Hc Hn) as (w1 & E1 & Hm & Hcur & Hc1 & Hu).
  exists w1. split_and!; [done..|]. unfold update. rewrite H1, H2. cbn [negb orb]. rewrite E1.
  cbn [lift_de lift_acct mbind outcome_bind]. unfold upd, put, bput, bput_raw, qry, bqry.
  erewrite serialize_id, serialize_type by done.
  assert (buffer_serialize debug None (VJson data) = Done data) as -> by by destruct debug.
  cbn [lift_de lift_acct mbind outcome_bind]. unfold updated.
  autorewrite with world. unfold get. rewrite Hm.
  by destruct (maps w roomusertype_roomuserdataid !! type_key r u ty).
Qed.

Lemma get_raw_runs r u ty w :
  owner_ok r u -> utf8_valid ty = true ->
  get_raw debug r u ty w =
    k ← ok_or NotFound (maps w roomusertype_roomuserdataid !! type_key r u ty);
    ok_or NotFound (maps w roomuserdataid_accountdata !! k).
Proof. intros ??. unfold get_raw, qry, bqry. by erewrite serialize_type by done. Qed.

Lemma id_key_fresh w r u ty k :
  acct_inv w -> owner_ok r u -> utf8_valid ty = true -> is_u64 (current w + 1) ->
  is_Some (maps w roomuserdataid_accountdata !! k) -> k <> id_key r u (current w + 1) ty.
Proof.
  intros [HI _] Ho Ht Hu [v Hv]. destruct (HI k v Hv) as (r' & u' & c & ty' & Ho' & Ht' & Hc & -> & _).
  intros Ek%(id_key_inj debug); try done; [lia|width_lia].
Qed.

Lemma index_key_inv w r u ty r' u' ty' k :
  acct_inv w -> owner_ok r u -> utf8_valid ty = true -> owner_ok r' u' -> utf8_valid ty' = true ->
  is_u64 (current w) ->
  maps w roomusertype_roomuserdataid !! type_key r u ty = Some k ->
  maps w roomusertype_roomuserdataid !! type_key r' u' ty' = Some k ->
  (r, u, ty) = (r', u', ty').
Proof.
  intros (_ & HI & _) Ho Ht Ho' Ht' Hu H1 H2.
  destruct (HI _ _ _ _ Ho Ht H1) as (c & Hc & -> & _). destruct (HI _ _ _ _ Ho' Ht' H2) as (c' & Hc' & Ek & _).
  apply (id_key_inj debug) in Ek; [naive_solver|done|width_lia|done|done|width_lia|done].
Qed.

(** The rows after an update: the new one, and the old ones but the replaced. *)
Lemma updated_rows w w1 r u ty data k :
  acct_inv w -> maps w1 = maps w -> owner_ok r u -> utf8_valid ty = true -> is_u64 (current w + 1) ->
  maps (updated r u ty data (current w + 1) w1) roomuserdataid_accountdata !! k =
    if decide (k = id_key r u (current w + 1) ty) then Some data
    else if decide (maps w roomusertype_roomuserdataid !! type_key r u ty = Some k) then None
    else maps w roomuserdataid_accountdata !! k.
Proof.
  intros HI Hm Ho Ht Hu. unfold updated. rewrite Hm.
  destruct (maps w roomusertype_roomuserdataid !! type_key r u ty) as [prev|] eqn:Ep.
  - autorewrite with world.
    assert (prev <> id_key r u (current w + 1) ty) as Hne.
    { pose proof HI as (HI1 & HI2 & _). destruct (HI2 _ _ _ _ Ho Ht Ep) as (c & _ & _ & Hs).
      by apply (id_key_fresh w). }
    rewrite lookup_delete. destruct (decide (prev = k)) as [->|Hk].
    + rewrite decide_False by done. by rewrite decide_True.
    + rewrite lookup_insert. case_decide as D1.
      * subst k. by rewrite decide_True.
      * rewrite decide_False by done. rewrite decide_False by congruence. done.
  - autorewrite with world. rewrite lookup_insert. case_decide as D1; [subst k; by rewrite decide_True|].
    rewrite decide_False by done. by rewrite decide_False.
Qed.

Lemma updated_index w1 r u ty data c :
  maps (updated r u ty data c w1) roomusertype_roomuserdataid =
    <[type_key r u ty := id_key r u c ty]> (maps w1 roomusertype_roomuserdataid).
Proof.
  unfold updated. destruct (maps w1 roomusertype_roomuserdataid !! _); by autorewrite with world.
Qed.

Lemma updated_current w1 r u ty data c : current (updated r u ty data c w1) = current w1.
Proof. unfold updated, current. by destruct (maps w1 roomusertype_roomuserdataid !! _). Qed.

Lemma updated_inv w w1 r u ty data :
  acct_inv w -> maps w1 = maps w -> current w1 = (current w + 1)%Z -> owner_ok r u -> utf8_valid ty = true ->
  is_u64 (current w + 1) -> (0 <= current w)%Z ->
  acct_inv (updated r u ty data (current w + 1) w1).
Proof.
  intros HI Hm Hcur Ho Ht Hu H0. split; [|split].
  - intros k v. rewrite (updated_rows w) by done. rewrite updated_index, updated_current, Hm, Hcur.
    destruct (decide (k = _)) as [->|Hk].
    + intros _. exists r, u, (current w + 1)%Z, ty. rewrite lookup_insert_eq. split_and!; try done; lia.
    + case_decide as Hp; [done|]. intros Hv. destruct HI as [HI _].
      destruct (HI k v Hv) as (r' & u' & c & ty' & Ho' & Ht' & Hc & -> & Hi).
      exists r', u', c, ty'. split_and!; try done; [lia|lia|].
      rewrite lookup_insert_ne; [done|]. intros Ek%(type_key_inj debug); [|done..].
      destruct Ek as (-> & -> & ->). done.
  - intros r' u' ty' k Ho' Ht'. rewrite updated_index, updated_current, Hm, Hcur, lookup_insert.
    rewrite (updated_rows w) by done. case_decide as Hk.
    + apply (type_key_inj debug) in Hk as (-> & -> & ->); [|done..]. intros [= <-].
      exists (current w + 1)%Z. rewrite decide_True by done. split_and!; try done; lia.
    + intros Hi. pose proof HI as (HI1 & HI2 & _). destruct (HI2 _ _ _ _ Ho' Ht' Hi) as (c & Hc & -> & Hs).
      exists c. split_and!; try done; [lia|lia|]. rewrite decide_False.
      2: { apply (id_key_fresh w); try done. }
      rewrite decide_False; [done|]. intros Hp. apply Hk.
      assert ((r, u, ty) = (r', u', ty')) as [= -> -> ->]; [|done].
      apply (index_key_inv w r u ty r' u' ty' (id_key r' u' c ty')); try done. width_lia.
  - intros c r1 u1 t1 r2 u2 t2 Ho1 Ht1 Ho2 Ht2 Hc. rewrite !(updated_rows w) by done.
    assert (forall r' u' t' c', is_Some (maps w roomuserdataid_accountdata !! id_key r' u' c' t') ->
              owner_ok r' u' -> utf8_valid t' = true -> is_u64 c' -> (c' <= current w)%Z) as Hold.
    { intros r' u' t' c' [v Hv] Ho' Ht' Hc'. destruct HI as [HI _].
      destruct (HI _ _ Hv) as (r0 & u0 & c0 & t0 & Ho0 & Ht0 & Hc0 & Ek & _).
      apply (id_key_inj debug) in Ek; [|done..|width_lia|done]. lia. }
    repeat case_decide; intros S1 S2; try (by destruct S1); try (by destruct S2).
    all: repeat match goal with
      | H : id_key _ _ _ _ = id_key _ _ _ _ |- _ =>
          apply (id_key_inj debug) in H as (? & ? & ? & ?); [|done..]; subst
      end; try done.
    + apply Hold in S2; [lia|done..].
    + apply Hold in S1; [lia|done..].
    + destruct HI as (_ & _ & HI). by eapply (HI c).
Qed.

End facts.

(** ** [changes_since] *)

Section changes.
Context (debug : bool) {E : Engine} {I : Ids} {J : JsonText}.

(** The bytes before the number of a row. *)
Definition owner_prefix (r : option bytes) (u : bytes) : bytes := enc (opt_room r) ++ SEP :: u ++ [SEP].

Lemma id_key_prefix r u c ty : id_key r u c ty = owner_prefix r u ++ u64_to_be_bytes c ++ SEP :: ty.
Proof. unfold id_key, owner_prefix. cbn. by norm_app. Qed.

Lemma opt_room_no_sep r u : owner_ok r u -> SEP ∉ enc (opt_room r).
Proof. intros [Hr _]. destruct r; cbn; [by apply utf8_no_sep, room_id_utf8|set_solver]. Qed.

Lemma opt_enc_inj r r' u u' :
  owner_ok r u -> owner_ok r' u' -> enc (opt_room r) = enc (opt_room r') -> r = r'.
Proof.
  intros [Hr _] [Hr' _]. destruct r, r'; cbn in *; try naive_solver.
  - destruct (room_id_nonempty _ Hr) as (? & ? & -> & _). done.
  - destruct (room_id_nonempty _ Hr') as (? & ? & -> & _). done.
Qed.

Lemma owner_prefix_inj r u r' u' x :
  owner_ok r u -> owner_ok r' u' ->
  owner_prefix r u `prefix_of` owner_prefix r' u' ++ x -> r = r' /\ u = u'.
Proof.
  intros Ho Ho' [y Hy]. unfold owner_prefix in Hy. norm_app_in Hy. symmetry in Hy.
  apply sep_split in Hy as [Hr Hy]; [|by eapply opt_room_no_sep..].
  apply sep_split in Hy as [-> _]; [|by apply user_no_sep, Ho..|by apply user_no_sep, Ho'].
  split; [|done]. by apply (opt_enc_inj r r' u' u').
Qed.

Lemma decode_change_row r u c ty v :
  owner_ok r u -> is_u64 c -> utf8_valid ty = true ->
  decode_change debug (id_key r u c ty, v) = Done (r, u, c, v).
Proof.
  intros Ho Hc Ht. unfold decode_change, deserialize_key. cbn [fst snd].
  rewrite (from_slice_records debug _ [opt_room r; VStr u; VU64 c; VIgnored]).
  - assert (from_slice debug TBytes v = Done (VBytes v)) as ->.
    { unfold from_slice. cbn [de_value]. unfold record_trail, rest. cbn [pos buf].
      rewrite decide_True by lia. cbn [mbind outcome_bind]. rewrite drop_0. unfold inc_pos. cbn [pos buf].
      rewrite debug_assert_true by (apply bool_decide_eq_true; lia). cbn [mbind outcome_bind].
      rewrite debug_assert_true; [done|]. unfold finished. cbn [buf pos].
      rewrite Nat.add_0_l, drop_all. by rewrite bool_decide_true. }
    cbn [mbind outcome_bind]. destruct Ho as [Hr Hu]. destruct r; cbn in *; by rewrite ?Hr, ?Hu.
  - unfold id_key. rewrite !enc_fields_cons by done. destruct Ho as [Hr Hu].
    repeat (constructor; [constructor; first [by apply field_opt_room|constructor; done
      |constructor; by apply user_id_utf8]|]).
    constructor. apply reads_ignore. by apply utf8_no_sep.
  - rewrite id_key_prefix. unfold owner_prefix. by destruct (enc (opt_room r)).
Qed.

Lemma first_possible_key r u c :
  owner_ok r u -> is_u64 c ->
  serialize_key debug (VTuple [opt_room r; VStr u; VU64 c]) = Done (owner_prefix r u ++ u64_to_be_bytes c).
Proof.
  intros [Hr Hu] Hc. unfold serialize_key.
  rewrite (serialize_fields debug [TOption TStr; TStr; TU64]).
  - unfold owner_prefix. cbn. by norm_app.
  - apply user_id_utf8 in Hu. repeat first [apply field_opt_room; done | constructor; try done].
Qed.

(** Where a row lies among the rows from the first possible one on. *)
Lemma between_first r u s r' u' c' ty' c ty :
  owner_ok r u -> owner_ok r' u' -> is_u64 s -> is_u64 c -> is_u64 c' ->
  ord_le (owner_prefix r u ++ u64_to_be_bytes s) (id_key r' u' c' ty') ->
  ord_le (id_key r' u' c' ty') (id_key r u c ty) -> r' = r /\ u' = u /\ (c' <= c)%Z.
Proof.
  intros Ho Ho' Hs Hc Hc' H1 H2. rewrite !id_key_prefix in *.
  assert (owner_prefix r u `prefix_of` owner_prefix r' u' ++ u64_to_be_bytes c' ++ SEP :: ty') as Hp.
  { eapply prefix_between; [|exact H2|by eexists]. eapply ord_le_trans; [|exact H1].
    by apply prefix_ord_le; eexists. }
  apply owner_prefix_inj in Hp as [<- <-]; [|done..]. split; [done|]. split; [done|].
  rewrite ord_le_app in H2. apply ord_le_u64 in H2; [|done..]. lia.
Qed.

Lemma from_first r u s c ty :
  is_u64 s -> is_u64 c ->
  ord_le (owner_prefix r u ++ u64_to_be_bytes s) (id_key r u c ty) <-> (s <= c)%Z.
Proof.
  intros Hs Hc. rewrite id_key_prefix, ord_le_app, <- (app_nil_r (u64_to_be_bytes s)), ord_le_u64 by done.
  split; [lia|]. intros. destruct (decide (s = c)); [right; split; [done|apply ord_le_nil]|left; lia].
Qed.

(** The rows a scan decodes; [change_row] is what the decoder makes of one. *)
Definition change_row (a : row) : option bytes * bytes * Z * bytes :=
  match decode_change debug a with Done b => b | _ => (None, [], 0%Z, []) end.

Lemma change_row_key r u c ty v :
  owner_ok r u -> is_u64 c -> utf8_valid ty = true -> change_row (id_key r u c ty, v) = (r, u, c, v).
Proof. intros. unfold change_row. by rewrite decode_change_row. Qed.

Lemma acct_row w k v :
  acct_inv w -> is_u64 (current w) -> (k, v) ∈ rows (maps w roomuserdataid_accountdata) ->
  exists r u c ty, owner_ok r u /\ is_u64 c /\ utf8_valid ty = true /\ k = id_key r u c ty.
Proof.
  intros [HI _] Hcur Hk%elem_of_rows. destruct (HI k v Hk) as (r & u & c & ty & ? & ? & ? & ? & _).
  exists r, u, c, ty. split_and!; try done; width_lia.
Qed.

Definition change_rows (w : World) (r : option bytes) (u : bytes) (s : Z) (to : option Z) : list row :=
  filter (fun a => change_in r u to (change_row a))
    (filter (key_from (owner_prefix r u ++ u64_to_be_bytes s)) (rows (maps w roomuserdataid_accountdata))).

Lemma changes_since_rows w r u since to :
  acct_inv w -> is_u64 (current w) -> owner_ok r u -> (0 <= since < u64_max)%Z ->
  changes_since debug r u since to w =
  Done (filter (fun v => json_raw_ok v = true) (snd <$> (change_row <$> change_rows w r u (since + 1) to))).
Proof.
  intros HI Hcur Ho Hs. assert (is_u64 (since + 1)) as Hsu by width_lia.
  unfold changes_since, stream_from_raw.
  replace (saturate 0 u64_max (since + 1)) with (since + 1)%Z by (unfold saturate; lia).
  rewrite first_possible_key by done. cbn [mbind outcome_bind]. rewrite raw_stream_from_rows.
  rewrite (ignore_err_total _ _ (None, [], 0%Z, [])).
  2: { intros [k v] [_ Hk]%list_elem_of_filter.
       destruct (acct_row w k v) as (r' & u' & c' & ty' & ? & ? & ? & ->); [done..|].
       eexists. by apply decode_change_row. }
  cbn [mbind outcome_bind]. rewrite take_while_fmap. unfold change_rows.
  set (l := filter (key_from _) _).
  rewrite (take_while_sorted (fun a b => a ∈ l /\ b ∈ l /\ key_le a b)); [done| |].
  - apply sorted_with_elem, filter_sorted, rows_sorted.
  - intros [ka va] [kb vb] ([Hfa Ha]%list_elem_of_filter & [_ Hb]%list_elem_of_filter & Hab).
    destruct (acct_row w ka va) as (ra & ua & ca & tya & ? & ? & ? & ->); [done..|].
    destruct (acct_row w kb vb) as (rb & ub & cb & tyb & ? & ? & ? & ->); [done..|].
    rewrite !decode_change_row by done. cbn [change_in]. intros (<- & <- & Hto).
    destruct (between_first r u (since + 1) ra ua ca tya cb tyb) as (-> & -> & Hle); try done.
    split_and!; try done. destruct to; cbn in *; [lia|done].
Qed.

Lemma elem_of_change_rows w r u s to k v :
  acct_inv w -> is_u64 (current w) -> owner_ok r u -> is_u64 s ->
  (k, v) ∈ change_rows w r u s to <->
  exists c ty, k = id_key r u c ty /\ utf8_valid ty = true /\ is_u64 c /\
    maps w roomuserdataid_accountdata !! k = Some v /\ (s <= c)%Z /\
    from_option (fun to => (c <= to)%Z) True to.
Proof.
  intros HI Hcur Ho Hs. unfold change_rows. rewrite !list_elem_of_filter. split.
  - intros (Hc & Hf & Hk). destruct (acct_row w k v) as (r' & u' & c & ty & ? & ? & ? & ->); [done..|].
    rewrite change_row_key in Hc by done. destruct Hc as (<- & <- & Hto).
    exists c, ty. apply elem_of_rows in Hk. split_and!; try done. by apply from_first in Hf.
  - intros (c & ty & -> & Ht & Hc & Hk & Hsc & Hto). rewrite change_row_key by done.
    split_and!; try done; [by apply from_first|by apply elem_of_rows].
Qed.

Lemma change_rows_sorted w r u s to :
  acct_inv w -> is_u64 (current w) -> owner_ok r u -> is_u64 s ->
  StronglySorted Z.lt ((fun a => (change_row a).1.2) <$> change_rows w r u s to).
Proof.
  intros HI Hcur Ho Hs. set (l := change_rows w r u s to).
  assert (StronglySorted key_le l) as Hl by (do 2 apply filter_sorted; apply rows_sorted).
  assert (NoDup l.*1) as Hn by (do 2 apply NoDup_fmap_fst_filter; apply rows_NoDup_keys).
  assert (forall k v, (k, v) ∈ l -> exists c ty, k = id_key r u c ty /\ utf8_valid ty = true /\ is_u64 c /\
            is_Some (maps w roomuserdataid_accountdata !! k)) as Hel.
  { intros k v (c & ty & ? & ? & ? & ? & _)%elem_of_change_rows; eauto 10. }
  clearbody l. induction Hl as [|[k v] l Hl IH Ha]; [constructor|].
  rewrite fmap_cons, NoDup_cons in Hn. destruct Hn as [Hk Hn]. rewrite fmap_cons. constructor.
  - apply IH; [done|]. intros k' v' Hv. apply (Hel k' v'). by right.
  - apply Forall_fmap, Forall_forall. intros [k' v'] Hv. unfold compose. cbv beta.
    destruct (Hel k v) as (c & ty & -> & ? & ? & Hi); [left|].
    destruct (Hel k' v') as (c' & ty' & -> & ? & ? & Hi'); [by right|].
    rewrite !change_row_key by done. cbn [fst snd]. rewrite Forall_forall in Ha. apply Ha in Hv as Hle.
    unfold key_le in Hle. cbn [fst] in Hle. rewrite !id_key_prefix, ord_le_app, ord_le_u64 in Hle by done.
    destruct Hle as [|[<- _]]; [done|]. destruct HI as (_ & _ & HI).
    assert ((r, u, ty) = (r, u, ty')) as [= <-] by by apply (HI c).
    destruct Hk. by apply list_elem_of_fmap_2 with (f := fst) in Hv.
Qed.

(** [changes_since] reports, of one owner and in the order of their numbers,
    exactly the events stored after [since] and up to [to], without those that
    are not JSON: the rows of other users and rooms end the scan and none of the
    owner's rows lies behind them. *)
Theorem changes_since_exact w r u since to :
  acct_inv w -> is_u64 (current w) -> owner_ok r u -> (0 <= since < u64_max)%Z ->
  exists l, changes_since debug r u since to w = Done (filter (fun v => json_raw_ok v = true) l.*2) /\
    StronglySorted Z.lt l.*1 /\
    forall c v, (c, v) ∈ l <->
      exists ty, utf8_valid ty = true /\ is_u64 c /\
        maps w roomuserdataid_accountdata !! id_key r u c ty = Some v /\
        (since < c)%Z /\ from_option (fun to => (c <= to)%Z) True to.
Proof.
  intros HI Hcur Ho Hs. assert (is_u64 (since + 1)) as Hsu by width_lia.
  exists ((fun a => ((change_row a).1.2, (change_row a).2)) <$> change_rows w r u (since + 1) to).
  rewrite <- !list_fmap_compose. split_and!.
  - rewrite changes_since_rows by done. by rewrite <- list_fmap_compose.
  - by apply change_rows_sorted.
  - intros c v. rewrite list_elem_of_fmap. split.
    + intros ([k v'] & Eq & Hk). apply elem_of_change_rows in Hk as (c' & ty & -> & Ht & Hc & Hk & Hle & Hto); try done.
      rewrite change_row_key in Eq by done. cbn in Eq. injection Eq as -> ->.
      exists ty. split_and!; try done. lia.
    + intros (ty & Ht & Hc & Hk & Hle & Hto). exists (id_key r u c ty, v).
      rewrite change_row_key by done. split; [done|]. apply elem_of_change_rows; try done.
      exists c, ty. split_and!; try done. lia.
Qed.

End changes.

(** ** For the clients of the service *)

Section client.
Context (debug : bool) {E : Engine} {I : Ids} {J : JsonText}.

Definition acct_tables : list tbl := [roomuserdataid_accountdata; roomusertype_roomuserdataid].

Lemma acct_inv_frame w w' :
  acct_inv w -> (forall t, t ∈ acct_tables -> maps w' t = maps w t) -> (current w <= current w')%Z -> acct_inv w'.
Proof.
  intros (H1 & H2 & H3) Hm Hc. unfold acct_inv.
  rewrite !(Hm roomuserdataid_accountdata), !(Hm roomusertype_roomuserdataid) by in_tables.
  split_and!; [| |done].
  - intros k v (r & u & c & ty & ? & ? & ? & ?)%H1. exists r, u, c, ty. split_and!; try done; try lia; naive_solver.
  - intros r u ty k Ho Ht (c & ? & ? & ?)%H2; [|done..]. exists c. split_and!; try done; lia.
Qed.

Lemma updated_frame w1 r u ty data c : frame acct_tables w1 (updated r u ty data c w1).
Proof.
  intros t Ht. unfold acct_tables in Ht. unfold updated.
  destruct (maps w1 roomusertype_roomuserdataid !! _);
    rewrite ?maps_rem_ne by set_solver; rewrite !maps_set_ne by set_solver; done.
Qed.

Lemma update_total w r u ty data n :
  acct_inv w -> count_ok n w -> (1 <= n)%Z -> owner_ok r u -> utf8_valid ty = true ->
  (update debug r u ty data w = Fail InvalidParam /\ json_has data "type" && json_has data "content" = false) \/
  exists w', update debug r u ty data w = Done w' /\ acct_inv w' /\ frame acct_tables w w' /\ count_ok (n - 1) w'.
Proof.
  intros HI Hc Hn Ho Ht. destruct (json_has data "type") eqn:H1; [|left; unfold update; by rewrite H1].
  destruct (json_has data "content") eqn:H2; [|left; unfold update; by rewrite H1, H2].
  right.
  destruct (update_runs debug r u ty data w n) as (w1 & Hm & Hcur & Hc1 & Hu & ->); try done.
  eexists. split; [done|]. split; [by eapply (updated_inv debug); [..|apply Hc]|]. split.
  - intros t Ht'. rewrite updated_frame by done. by rewrite Hm.
  - destruct Hc1 as [? ?]. unfold count_ok. rewrite updated_current. split; [done|].
    unfold updated. by destruct (maps w1 roomusertype_roomuserdataid !! _).
Qed.

Lemma get_raw_cases r u ty w :
  owner_ok r u -> utf8_valid ty = true ->
  (exists b, get_raw debug r u ty w = Done b) \/ get_raw debug r u ty w = Fail NotFound.
Proof.
  intros Ho Ht. rewrite (get_raw_runs debug (I:=I)) by done.
  destruct (maps w roomusertype_roomuserdataid !! _) as [k|]; cbn; [|by right].
  destruct (maps w roomuserdataid_accountdata !! k); cbn; [left|right]; eauto.
Qed.

End client.

(** ** Claims *)

Section claims.
Context (debug : bool) {E : Engine} {I : Ids} {J : JsonText}.

(** Storing an event that has its required fields succeeds and keeps the two
    tables consistent; afterwards it is what a lookup of its owner and type
    finds, no earlier event of that owner and type is left, and every other
    owner's and type's lookup is unchanged. *)
Theorem update_get w r u ty data n :
  acct_inv w -> count_ok n w -> (1 <= n)%Z -> owner_ok r u -> utf8_valid ty = true ->
  json_has data "type" = true -> json_has data "content" = true ->
  exists w', update debug r u ty data w = Done w' /\ acct_inv w' /\ count_ok (n - 1) w' /\
    get_raw debug r u ty w' = Done data /\
    (forall c, is_u64 c -> is_Some (maps w' roomuserdataid_accountdata !! id_key r u c ty) ->
       c = (current w + 1)%Z) /\
    (forall r' u' ty', owner_ok r' u' -> utf8_valid ty' = true -> (r', u', ty') <> (r, u, ty) ->
       get_raw debug r' u' ty' w' = get_raw debug r' u' ty' w).
Proof.
  intros HI Hc Hn Ho Ht H1 H2.
  destruct (update_runs debug r u ty data w n) as (w1 & Hm & Hcur & Hc1 & Hu & Hup); try done.
  assert (0 <= current w)%Z as H0 by apply Hc.
  exists (updated r u ty data (current w + 1) w1). split; [done|].
  assert (acct_inv (updated r u ty data (current w + 1) w1)) as HI' by by eapply updated_inv.
  assert (get_raw debug r u ty (updated r u ty data (current w + 1) w1) = Done data) as Hget.
  { rewrite (get_raw_runs debug (I:=I)), updated_index, lookup_insert_eq by done. cbn [ok_or mbind outcome_bind].
    rewrite (updated_rows debug (I:=I) w), decide_True by done. done. }
  split_and!; try done.
  - destruct Hc1 as [? ?]. unfold count_ok. rewrite updated_current. split; [done|].
    unfold updated. by destruct (maps w1 roomusertype_roomuserdataid !! _).
  - intros c Hcu [v Hv]. pose proof HI' as [HI1 _].
    destruct (HI1 _ _ Hv) as (r' & u' & c' & ty' & ? & ? & Hc' & Ek & Hi).
    rewrite updated_current, Hcur in Hc'.
    apply (id_key_inj debug) in Ek as (<- & <- & <- & <-); try done; [|width_lia].
    rewrite updated_index, lookup_insert_eq in Hi. injection Hi as Ek.
    by apply (id_key_inj debug) in Ek as (_ & _ & <- & _).
  - intros r' u' ty' Ho' Ht' Hne. rewrite !(get_raw_runs debug (I:=I)) by done.
    rewrite updated_index, lookup_insert_ne, Hm.
    2: { intros (-> & -> & ->)%(type_key_inj debug); done. }
    destruct (maps w roomusertype_roomuserdataid !! type_key r' u' ty') as [k|] eqn:Ek; [|done].
    cbn [ok_or mbind outcome_bind]. rewrite (updated_rows debug (I:=I) w) by done.
    pose proof HI as (_ & HI2 & _). destruct (HI2 _ _ _ _ Ho' Ht' Ek) as (c & Hcc & -> & Hs).
    rewrite decide_False by by apply (id_key_fresh debug w).
    rewrite decide_False; [done|]. intros Hp. apply Hne. symmetry.
    apply (index_key_inv debug w r u ty r' u' ty' (id_key r' u' c ty')); try done. width_lia.
Qed.

End claims.

(** A JSON decoder that accepts everything. *)
Definition toy_json : JsonText := {| json_has := fun _ _ => true; json_raw_ok := fun _ => true |}.

Lemma acct_inv_empty {I : Ids} c : acct_inv (empty_world c).
Proof. split; [|split]; cbn; intros; [done|done|]. by destruct H4. Qed.

Lemma update_get_witness :
  let w := empty_world 41 in
  exists w', @update true toy_json None (str "@a:b") (str "m.tag") (str "{}") w = Done w' /\
    get_raw true None (str "@a:b") (str "m.tag") w' = Done (str "{}").
Proof.
  intros w. destruct (@update_get true toy_ids toy_json w None (str "@a:b") (str "m.tag") (str "{}") 1)
    as (w' & H & _ & _ & G & _); try done.
  - apply acct_inv_empty.
  - by exists w'.
Defined.

Lemma changes_since_exact_witness :
  exists w' l, @update true toy_json None (str "@a:b") (str "m.tag") (str "{}") (empty_world 41) = Done w' /\
    @changes_since true list_engine toy_ids toy_json None (str "@a:b") 5 None w' =
    Done (filter (fun v => @json_raw_ok toy_json v = true) l.*2) /\ (42%Z, str "{}") ∈ l.
Proof.
  destruct (update_runs true (I:=toy_ids) (J:=toy_json) None (str "@a:b") (str "m.tag") (str "{}") (empty_world 41) 1)
    as (w1 & Hm & Hcur & _ & Hu & Hup); try done.
  eexists. assert (@acct_inv toy_ids (updated None (str "@a:b") (str "m.tag") (str "{}") 42 w1)) as HI.
  { apply (updated_inv true (I:=toy_ids) (empty_world 41)); try done. apply acct_inv_empty. }
  destruct (@changes_since_exact true list_engine toy_ids toy_json _ None (str "@a:b") 5 None HI)
    as (l & H1 & _ & H3); [by rewrite updated_current, Hcur|done|done|].
  exists l. split; [exact Hup|]. split; [exact H1|]. apply H3. exists (str "m.tag").
  split_and!; try done. rewrite (updated_rows true (I:=toy_ids) (empty_world 41)); try done.
  apply acct_inv_empty.
Defined.
