(* ===== verification/StateCache.v ===== *)
(** * The membership cache

    Models [src/service/rooms/state_cache/mod.rs]: who is joined, invited,
    knocking or gone, kept by user and by room, and which servers take part in a
    room; with what it calls of [src/service/users/mod.rs] ([exists], [create],
    [user_is_ignored], [is_active]) and [src/service/rooms/metadata/mod.rs].

    The abstract state is a map from a user and a room to one [kind] of
    membership; the tables refine it. *)

From stdpp Require Import prelude gmap strings list sorting.
From Stdlib Require Import ZArith Lia.
From Stdlib Require Import Strings.Byte.
From S2P Require Import Prelude MachineInt DbCodec DbMap CoreUtils Short World AccountData.

Inductive MembershipState := MBan | MInvite | MJoin | MKnock | MLeave | MCustom.

#[export] Instance MembershipState_eq_dec : EqDecision MembershipState.
Proof. solve_decision. Defined.

(** What the cache needs of the server's configuration, and the JSON of the
    account data it copies. *)
Record Config := MkConfig { cfg_server_name : bytes; forget_forced_upon_leave : bool }.

Class MemberJson := {
  de_tag : bytes -> option bytes;                        (** a [serde_json::Value], as its text *)
  de_direct : bytes -> option (list (bytes * list bytes));
  ser_direct : list (bytes * list bytes) -> bytes;
  de_ignored : bytes -> option (list bytes) }.

(** An appservice: its id, the user of its bridge if that parses, and the users
    its pattern matches. *)
Record RegistrationInfo := MkReg {
  as_id : bytes; as_bridge_user : option bytes; as_is_match : bytes -> bool }.

Section state_cache.
Context (debug : bool) {E : Engine} {I : Ids} {Js : Json} {J : JsonText} {M : MemberJson}.

Definition pair_key (a b : bytes) : value := VTuple [VStr a; VStr b].

(** ** Direct writes *)

Definition mark_as_joined (user_id room_id : bytes) (w : World) : outcome CodecError World :=
  userroom_id ← serialize_key debug (pair_key user_id room_id);
  roomuser_id ← serialize_key debug (pair_key room_id user_id);
  let w := ins userroomid_joined userroom_id [] w in
  let w := ins roomuserid_joined roomuser_id [] w in
  let w := rem userroomid_invitestate userroom_id w in
  let w := rem roomuserid_invitecount roomuser_id w in
  let w := rem userroomid_leftstate userroom_id w in
  let w := rem roomuserid_leftcount roomuser_id w in
  let w := rem userroomid_knockedstate userroom_id w in
  let w := rem roomuserid_knockedcount roomuser_id w in
  Done (rem roomid_inviteviaservers room_id w).

Definition mark_as_left (user_id room_id : bytes) (w : World) : outcome CodecError World :=
  userroom_id ← serialize_key debug (pair_key user_id room_id);
  roomuser_id ← serialize_key debug (pair_key room_id user_id);
  w ← upd userroomid_leftstate (fun t => raw_put debug t userroom_id (VJson (json_array []))) w;
  '(count, w) ← next_count debug w;
  w ← upd roomuserid_leftcount (fun t => raw_aput debug 8 t roomuser_id (VU64 count)) w;
  let w := rem userroomid_joined userroom_id w in
  let w := rem roomuserid_joined roomuser_id w in
  let w := rem userroomid_invitestate userroom_id w in
  let w := rem roomuserid_invitecount roomuser_id w in
  let w := rem userroomid_knockedstate userroom_id w in
  let w := rem roomuserid_knockedcount roomuser_id w in
  Done (rem roomid_inviteviaservers room_id w).

Definition mark_as_knocked (user_id room_id : bytes) (knocked_state : option (list bytes)) (w : World)
    : outcome CodecError World :=
  userroom_id ← serialize_key debug (pair_key user_id room_id);
  roomuser_id ← serialize_key debug (pair_key room_id user_id);
  w ← upd userroomid_knockedstate
        (fun t => raw_put debug t userroom_id (VJson (json_array (default [] knocked_state)))) w;
  '(count, w) ← next_count debug w;
  w ← upd roomuserid_knockedcount (fun t => raw_aput debug 8 t roomuser_id (VU64 count)) w;
  let w := rem userroomid_joined userroom_id w in
  let w := rem roomuserid_joined roomuser_id w in
  let w := rem userroomid_invitestate userroom_id w in
  let w := rem roomuserid_invitecount roomuser_id w in
  let w := rem userroomid_leftstate userroom_id w in
  let w := rem roomuserid_leftcount roomuser_id w in
  Done (rem roomid_inviteviaservers room_id w).

Definition forget (room_id user_id : bytes) (w : World) : outcome CodecError World :=
  w ← upd userroomid_leftstate (fun t => del debug t (pair_key user_id room_id)) w;
  upd roomuserid_leftcount (fun t => del debug t (pair_key room_id user_id)) w.

Definition mark_as_once_joined (user_id room_id : bytes) (w : World) : outcome CodecError World :=
  upd roomuseroncejoinedids (fun t => put_raw debug t (pair_key user_id room_id) []) w.

(** ** Scans

    A key [(Ignore, id)] of a row: the identifier is checked as it is read. *)

Definition second_id (ok : bytes -> bool) (k : bytes) : outcome CodecError bytes :=
  v ← deserialize_key debug (TTuple [TIgnore; TStr]) k;
  match v with
  | VTuple [_; VStr s] => if ok s then Done s else Fail (SerdeDe "invalid identifier")
  | _ => Panic
  end.

Definition scan_ids (ok : bytes -> bool) (t : table) (first : bytes) : outcome CodecError (list bytes) :=
  ks ← keys_prefix_raw debug t (VTuple [VStr first; VInterfix]);
  ignore_err (second_id ok <$> (ks : list bytes)).

Definition room_servers (room_id : bytes) (w : World) : outcome CodecError (list bytes) :=
  scan_ids server_name_ok (maps w roomserverids) room_id.
Definition server_rooms (server : bytes) (w : World) : outcome CodecError (list bytes) :=
  scan_ids room_id_ok (maps w serverroomids) server.
Definition room_members (room_id : bytes) (w : World) : outcome CodecError (list bytes) :=
  scan_ids user_id_ok (maps w roomuserid_joined) room_id.
Definition room_useroncejoined (room_id : bytes) (w : World) : outcome CodecError (list bytes) :=
  scan_ids user_id_ok (maps w roomuseroncejoinedids) room_id.
Definition room_members_invited (room_id : bytes) (w : World) : outcome CodecError (list bytes) :=
  scan_ids user_id_ok (maps w roomuserid_invitecount) room_id.
Definition room_members_knocked (room_id : bytes) (w : World) : outcome CodecError (list bytes) :=
  scan_ids user_id_ok (maps w roomuserid_knockedcount) room_id.

Definition rooms_joined (user_id : bytes) (w : World) : outcome CodecError (list bytes) :=
  ignore_err (second_id room_id_ok <$> raw_keys_prefix (maps w userroomid_joined) user_id).

(** [any] over a stream with an asynchronous predicate. *)
Fixpoint any_m {Er A} (f : A -> outcome Er bool) (l : list A) : outcome Er bool :=
  match l with
  | [] => Done false
  | a :: l => b ← f a; if (b : bool) then Done true else any_m f l
  end.

(** ** Queries *)

Definition has_key (t : tbl) (a b : bytes) (w : World) : outcome CodecError bool :=
  match is_ok (qry debug (maps w t) (pair_key a b)) with
  | Done b => Done b | Fail _ | Panic => Panic | OutOfFuel => OutOfFuel
  end.

Definition server_in_room (server room_id : bytes) (w : World) := has_key serverroomids server room_id w.
Definition once_joined (user_id room_id : bytes) (w : World) := has_key roomuseroncejoinedids user_id room_id w.
Definition is_joined (user_id room_id : bytes) (w : World) := has_key userroomid_joined user_id room_id w.
Definition is_knocked (user_id room_id : bytes) (w : World) := has_key userroomid_knockedstate user_id room_id w.
Definition is_invited (user_id room_id : bytes) (w : World) := has_key userroomid_invitestate user_id room_id w.
Definition is_left (user_id room_id : bytes) (w : World) := has_key userroomid_leftstate user_id room_id w.

Definition user_membership (user_id room_id : bytes) (w : World) : outcome CodecError (option MembershipState) :=
  joined ← is_joined user_id room_id w;
  left ← is_left user_id room_id w;
  knocked ← is_knocked user_id room_id w;
  invited ← is_invited user_id room_id w;
  once ← once_joined user_id room_id w;
  Done (match (joined : bool), (left : bool), (knocked : bool), (invited : bool), (once : bool) with
        | true, _, _, _, _ => Some MJoin
        | _, true, _, _, _ => Some MLeave
        | _, _, true, _, _ => Some MKnock
        | _, _, _, true, _ => Some MInvite
        | false, false, false, false, true => Some MBan
        | _, _, _, _, _ => None
        end).

Definition server_sees_user (server user_id : bytes) (w : World) : outcome CodecError bool :=
  rooms ← server_rooms server w;
  any_m (fun room_id => is_joined user_id room_id w) (rooms : list bytes).

Definition get_shared_rooms (user_a user_b : bytes) (w : World) : outcome CodecError (list bytes) :=
  a ← rooms_joined user_a w;
  b ← rooms_joined user_b w;
  Done (SetOps.intersection_sorted_stream2 (a : list bytes) (b : list bytes)).

Definition user_sees_user (user_a user_b : bytes) (w : World) : outcome CodecError bool :=
  rooms ← get_shared_rooms user_a user_b w;
  Done (match (rooms : list bytes) with [] => false | _ => true end).

(** A count of a table: [get(room).deserialized()] or [qry(key).deserialized()]. *)
Definition de_count (h : outcome DbError bytes) : outcome DbError Z :=
  v ← deserialized debug TU64 h; match v with VU64 n => Done n | _ => Panic end.

Definition room_joined_count (room_id : bytes) (w : World) : outcome DbError Z :=
  de_count (get (maps w roomid_joinedcount) room_id).
Definition room_invited_count (room_id : bytes) (w : World) : outcome DbError Z :=
  de_count (get (maps w roomid_invitedcount) room_id).
Definition get_invite_count (room_id user_id : bytes) (w : World) : outcome DbError Z :=
  de_count (qry debug (maps w roomuserid_invitecount) (pair_key room_id user_id)).
Definition get_knock_count (room_id user_id : bytes) (w : World) : outcome DbError Z :=
  de_count (qry debug (maps w roomuserid_knockedcount) (pair_key room_id user_id)).
Definition get_left_count (room_id user_id : bytes) (w : World) : outcome DbError Z :=
  de_count (qry debug (maps w roomuserid_leftcount) (pair_key room_id user_id)).

(** A stored state, a [Raw<Vec<…>>]: text that is parsed when it is wanted. *)
Definition de_state (h : outcome DbError bytes) : outcome DbError (list bytes) :=
  v ← deserialized debug TStr h;
  match v with VStr s => ok_or (DeError (SerdeDe "json")) (parse_array s) | _ => Panic end.

Definition invite_state (user_id room_id : bytes) (w : World) : outcome DbError (list bytes) :=
  de_state (qry debug (maps w userroomid_invitestate) (pair_key user_id room_id)).
Definition knock_state (user_id room_id : bytes) (w : World) : outcome DbError (list bytes) :=
  de_state (qry debug (maps w userroomid_knockedstate) (pair_key user_id room_id)).
Definition left_state (user_id room_id : bytes) (w : World) : outcome DbError (list bytes) :=
  de_state (qry debug (maps w userroomid_leftstate) (pair_key user_id room_id)).

Definition state_item (kv : row) : outcome CodecError (bytes * list bytes) :=
  '(k, v) ← deserialize debug (TTuple [TStr; TStr]) TStr kv;
  match k, v with
  | VTuple [VStr u; VStr r], VStr s =>
      if user_id_ok u && room_id_ok r then
        st ← ok_or (SerdeDe "json") (parse_array s); Done (r, st)
      else Fail (SerdeDe "invalid identifier")
  | _, _ => Panic
  end.

Definition rooms_of_state (t : tbl) (user_id : bytes) (w : World) : outcome CodecError (list (bytes * list bytes)) :=
  rs ← stream_prefix_raw debug (maps w t) (VTuple [VStr user_id; VInterfix]);
  ignore_err (state_item <$> (rs : list row)).
Definition rooms_invited (user_id : bytes) (w : World) := rooms_of_state userroomid_invitestate user_id w.
Definition rooms_knocked (user_id : bytes) (w : World) := rooms_of_state userroomid_knockedstate user_id w.
Definition rooms_left (user_id : bytes) (w : World) := rooms_of_state userroomid_leftstate user_id w.

End state_cache.

(** ** Users and room metadata *)

Section collaborators.
Context (debug : bool) {I : Ids} {M : MemberJson} (cfg : Config).

(** [globals.user_is_local] *)
Definition user_is_local (user_id : bytes) : bool := bool_decide (server_name user_id = cfg_server_name cfg).

Definition user_exists (user_id : bytes) (w : World) : bool :=
  bool_decide (is_Some (maps w userid_password !! user_id)).
(** [users.create(user_id, None)]: the empty password of a deactivated user. *)
Definition user_create (user_id : bytes) (w : World) : World := ins userid_password user_id [] w.
Definition is_deactivated (user_id : bytes) (w : World) : outcome DbError bool :=
  v ← get (maps w userid_password) user_id; Done (bool_decide (v = [])).
Definition is_active (user_id : bytes) (w : World) : bool :=
  negb (match is_deactivated user_id w with Done b => b | _ => true end).

Definition user_is_ignored (sender recipient : bytes) (w : World) : outcome CodecError bool :=
  match get_global debug de_ignored recipient (str "m.ignored_user_list") w with
  | Done ignored => Done (bool_decide (sender ∈ (ignored : list bytes)))
  | Fail _ => Done false
  | Panic => Panic
  | OutOfFuel => OutOfFuel
  end.

Definition disable_room (room_id : bytes) (disabled : bool) (w : World) : World :=
  if disabled then ins disabledroomids room_id [] w else rem disabledroomids room_id w.
Definition ban_room (room_id : bytes) (banned : bool) (w : World) : World :=
  if banned then ins bannedroomids room_id [] w else rem bannedroomids room_id w.
Definition is_disabled (room_id : bytes) (w : World) : bool :=
  bool_decide (is_Some (maps w disabledroomids !! room_id)).
Definition is_banned (room_id : bytes) (w : World) : bool :=
  bool_decide (is_Some (maps w bannedroomids !! room_id)).

End collaborators.

(** ** Invitations *)

Section invites.
Context (debug : bool) {E : Engine} {I : Ids} {Js : Json}.

(** The servers of a row, and the last of them. *)
Definition last_server (kv : row) : outcome CodecError bytes :=
  '(_, v) ← deserialize debug TIgnore (TSeq TStr) kv;
  match v with
  | VSeq vs =>
      servers ← try_map (fun v => match v with
                         | VStr s => if server_name_ok s then Done s else Fail (SerdeDe "invalid identifier")
                         | _ => Panic end) vs;
      expect (last (servers : list bytes))
  | _ => Panic
  end.

Definition servers_invite_via (room_id : bytes) (w : World) : outcome CodecError (list bytes) :=
  ignore_err (last_server <$> raw_stream_prefix (maps w roomid_inviteviaservers) room_id).

(** [Vec::dedup] and [join(&[0xFF])]. *)
Fixpoint dedup (l : list bytes) : list bytes :=
  match l with
  | a :: l' => match l' with b :: _ => if decide (a = b) then dedup l' else a :: dedup l' | [] => [a] end
  | [] => []
  end.
Fixpoint join_sep (l : list bytes) : bytes :=
  match l with
  | a :: l' => match l' with _ :: _ => a ++ SEP :: join_sep l' | [] => a end
  | [] => []
  end.

Definition add_servers_invite_via (room_id : bytes) (servers : list bytes) (w : World)
    : outcome CodecError World :=
  old ← servers_invite_via room_id w;
  let servers := dedup (merge_sort ord_le ((old : list bytes) ++ servers)) in
  Done (ins roomid_inviteviaservers room_id (join_sep servers) w).

Definition mark_as_invited (user_id room_id : bytes) (last_state : option (list bytes))
    (invite_via : option (list bytes)) (w : World) : outcome CodecError World :=
  roomuser_id ← serialize_key debug (pair_key room_id user_id);
  userroom_id ← serialize_key debug (pair_key user_id room_id);
  w ← upd userroomid_invitestate
        (fun t => raw_put debug t userroom_id (VJson (json_array (default [] last_state)))) w;
  '(count, w) ← next_count debug w;
  w ← upd roomuserid_invitecount (fun t => raw_aput debug 8 t roomuser_id (VU64 count)) w;
  let w := rem userroomid_joined userroom_id w in
  let w := rem roomuserid_joined roomuser_id w in
  let w := rem userroomid_leftstate userroom_id w in
  let w := rem roomuserid_leftcount roomuser_id w in
  let w := rem userroomid_knockedstate userroom_id w in
  let w := rem roomuserid_knockedcount roomuser_id w in
  match invite_via with
  | Some ((_ :: _) as servers) => add_servers_invite_via room_id servers w
  | _ => Done w
  end.

End invites.

(** ** The service *)

(** The database and the cache of which appservices are in which room. *)
Record StateCache := MkCache {
  world : World;
  appservice_in_room_cache : gmap bytes (gmap bytes bool) }.

Inductive MemberError := MemberDb (e : CodecError) | MemberAccount (e : AccountError).

Section service.
Context (debug : bool) {E : Engine} {I : Ids} {Js : Json} {J : JsonText} {M : MemberJson} {sched : Schedule}.
Context (cfg : Config).
(** [state_accessor.room_state_get_content(room, RoomCreate)]: the room's
    predecessor; and the users of its power levels, if it has any. *)
Context (predecessor : World -> bytes -> option bytes) (power_users : World -> bytes -> option (list (bytes * Z))).

Definition set_world (s : StateCache) (w : World) : StateCache := MkCache w (appservice_in_room_cache s).

(** The counters are [u64] and saturate. *)
Definition count_u64 {A} (l : list A) : Z := saturate 0 u64_max (Z.of_nat (length l)).

(** One server of the room before: kept, or taken out of both tables. *)
Definition settle_server (room_id : bytes) (acc : gset bytes * World) (old : bytes)
    : outcome CodecError (gset bytes * World) :=
  let '(joined_servers, w) := acc in
  if decide (old ∈ joined_servers) then Done (joined_servers ∖ {[ old ]}, w) else
  w ← upd roomserverids (fun t => del debug t (pair_key room_id old)) w;
  w ← upd serverroomids (fun t => del debug t (pair_key old room_id)) w;
  Done (joined_servers, w).

Definition add_server (room_id : bytes) (w : World) (server : bytes) : outcome CodecError World :=
  w ← upd roomserverids (fun t => put_raw debug t (pair_key room_id server) []) w;
  upd serverroomids (fun t => put_raw debug t (pair_key server room_id) []) w.

Definition update_joined_count (room_id : bytes) (s : StateCache) : outcome CodecError StateCache :=
  let w := world s in
  members ← room_members debug room_id w;
  let joined_servers : gset bytes := list_to_set (server_name <$> (members : list bytes)) in
  let joinedcount := count_u64 (members : list bytes) in
  invited ← room_members_invited debug room_id w;
  knocked ← room_members_knocked debug room_id w;
  w ← upd roomid_joinedcount (fun t => raw_put debug t room_id (VU64 joinedcount)) w;
  w ← upd roomid_invitedcount (fun t => raw_put debug t room_id (VU64 (count_u64 (invited : list bytes)))) w;
  w ← upd roomuserid_knockedcount (fun t => raw_put debug t room_id (VU64 (count_u64 (knocked : list bytes)))) w;
  old_servers ← room_servers debug room_id w;
  '(new_servers, w) ← try_fold (settle_server room_id) (joined_servers, w) old_servers;
  w ← try_fold (add_server room_id) w (reorder "joined servers" (elements new_servers));
  Done (MkCache w (delete room_id (appservice_in_room_cache s))).

Definition appservice_in_room (room_id : bytes) (appservice : RegistrationInfo) (s : StateCache)
    : outcome CodecError (bool * StateCache) :=
  match (m ← appservice_in_room_cache s !! room_id; m !! as_id appservice) with
  | Some cached => Done (cached, s)
  | None =>
      match as_bridge_user appservice with
      | None => Done (false, s)
      | Some bridge_user_id =>
          joined ← is_joined debug bridge_user_id room_id (world s);
          in_room ← (if (joined : bool) then Done true else
                     members ← room_members debug room_id (world s);
                     Done (existsb (as_is_match appservice) (members : list bytes)));
          let m := default ∅ (appservice_in_room_cache s !! room_id) in
          Done (in_room, MkCache (world s)
            (<[room_id := <[as_id appservice := in_room]> m]> (appservice_in_room_cache s)))
      end
  end.

Definition clear_appservice_in_room_cache (s : StateCache) : StateCache := MkCache (world s) ∅.

Definition local_users_in_room (room_id : bytes) (w : World) : outcome CodecError (list bytes) :=
  members ← room_members debug room_id w;
  Done (filter (fun u => user_is_local cfg u = true) (members : list bytes)).
Definition active_local_users_in_room (room_id : bytes) (w : World) : outcome CodecError (list bytes) :=
  users ← local_users_in_room room_id w;
  Done (filter (fun u => is_active u w = true) (users : list bytes)).

(** [max_by_key]: the last of the greatest. *)
Fixpoint max_power (best : option (bytes * Z)) (l : list (bytes * Z)) : option (bytes * Z) :=
  match l with
  | [] => best
  | x :: l =>
      max_power (match best with Some b => if decide (b.2 <= x.2)%Z then Some x else best | None => Some x end) l
  end.

Definition by_users (a b : bytes * nat) : Prop := a.2 <= b.2.
#[global] Instance by_users_dec a b : Decision (by_users a b).
Proof. unfold by_users. apply _. Defined.

Definition servers_route_via (room_id : bytes) (w : World) : outcome CodecError (list bytes) :=
  let most_powerful :=
    users ← power_users w room_id;
    x ← max_power None users;
    if decide (50 <= x.2)%Z then Some (server_name x.1) else None in
  members ← room_members debug room_id w;
  let names := server_name <$> (members : list bytes) in
  let counts := (fun server => (server, length (filter (fun n => n = server) names))) <$>
    reorder "counts" (elements (list_to_set names : gset bytes)) in
  let servers := take 5 (reverse (merge_sort by_users counts).*1) in
  Done (match most_powerful with
        | Some server => take 5 (server :: servers)
        | None => servers
        end).

(** *** [update_membership] *)

Definition lift_m {A} (o : outcome CodecError A) : outcome MemberError A :=
  match o with
  | Done a => Done a | Fail e => Fail (MemberDb e) | Panic => Panic | OutOfFuel => OutOfFuel
  end.

(** Copies the tags and the direct-chat flag of a room to its successor. *)
Definition copy_direct (room_id pred : bytes) (direct : list (bytes * list bytes)) : list (bytes * list bytes) * bool :=
  ((fun x => if decide (pred ∈ x.2) then (x.1, x.2 ++ [room_id]) else x) <$> direct,
   existsb (fun x => bool_decide (pred ∈ x.2)) direct).

Definition copy_from_predecessor (room_id user_id pred : bytes) (w : World) : outcome MemberError World :=
  w ← (match get_room debug de_tag pred user_id (str "m.tag") w with
       | Done tag_event =>
           match update debug (Some room_id) user_id (str "m.tag") tag_event w with
           | Done w' => Done w'
           | Fail _ => Done w
           | Panic => Panic
           | OutOfFuel => OutOfFuel
           end
       | Fail _ => Done w
       | Panic => Panic
       | OutOfFuel => OutOfFuel
       end);
  match get_global debug de_direct user_id (str "m.direct") w with
  | Done direct_event =>
      let '(direct_event, updated) := copy_direct room_id pred direct_event in
      if (updated : bool) then
        match update debug None user_id (str "m.direct") (ser_direct direct_event) w with
        | Done w => Done w
        | Fail e => Fail (MemberAccount e)
        | Panic => Panic
        | OutOfFuel => OutOfFuel
        end
      else Done w
  | Fail _ => Done w
  | Panic => Panic
  | OutOfFuel => OutOfFuel
  end.

(** What the membership itself changes; [None] when the invitation is ignored. *)
Definition apply_membership (room_id user_id : bytes) (membership : MembershipState) (sender : bytes)
    (last_state invite_via : option (list bytes)) (w : World) : outcome MemberError (option World) :=
  match membership with
  | MJoin =>
      once ← lift_m (once_joined debug user_id room_id w);
      w ← (if negb once then
             w ← lift_m (mark_as_once_joined debug user_id room_id w);
             match predecessor w room_id with
             | Some pred => copy_from_predecessor room_id user_id pred w
             | None => Done w
             end
           else Done w);
      w ← lift_m (mark_as_joined debug user_id room_id w);
      Done (Some w)
  | MInvite =>
      ignored ← lift_m (user_is_ignored debug sender user_id w);
      if (ignored : bool) then Done None else
      w ← lift_m (mark_as_invited debug user_id room_id last_state invite_via w);
      Done (Some w)
  | MLeave | MBan =>
      w ← lift_m (mark_as_left debug user_id room_id w);
      if user_is_local cfg user_id &&
         (forget_forced_upon_leave cfg || is_banned room_id w || is_disabled room_id w)
      then w ← lift_m (forget debug room_id user_id w); Done (Some w)
      else Done (Some w)
  | MKnock | MCustom => Done (Some w)
  end.

Definition update_membership (room_id user_id : bytes) (membership : MembershipState) (sender : bytes)
    (last_state invite_via : option (list bytes)) (update_count : bool) (s : StateCache)
    : outcome MemberError StateCache :=
  let w := world s in
  let w := if negb (user_is_local cfg user_id) && negb (user_exists user_id w) then user_create user_id w else w in
  r ← apply_membership room_id user_id membership sender last_state invite_via w;
  match r with
  | None => Done (set_world s w)
  | Some w =>
      if update_count then lift_m (update_joined_count room_id (set_world s w))
      else Done (set_world s w)
  end.

End service.

(** ** The abstract state *)

Inductive kind := Joined | Invited | Left | Knocked.

#[export] Instance kind_eq_dec : EqDecision kind.
Proof. solve_decision. Defined.

Abbreviation members := (gmap (bytes * bytes) kind).

Definition utbl (K : kind) : tbl :=
  match K with
  | Joined => userroomid_joined | Invited => userroomid_invitestate
  | Left => userroomid_leftstate | Knocked => userroomid_knockedstate
  end.
Definition rtbl (K : kind) : tbl :=
  match K with
  | Joined => roomuserid_joined | Invited => roomuserid_invitecount
  | Left => roomuserid_leftcount | Knocked => roomuserid_knockedcount
  end.

(** The bytes of the key [(a, b)]. *)
Definition pair_bytes (a b : bytes) : bytes := a ++ SEP :: b.

Section abstraction.
Context {I : Ids}.

Definition ids_ok (u r : bytes) : Prop := user_id_ok u = true /\ room_id_ok r = true.

(** The tables by user and by room both hold the memberships of [m]; a room's
    count of knocking users is also written among the latter. *)
Record abstracts (w : World) (m : members) : Prop := {
  abs_user : forall K u r, ids_ok u r -> is_Some (maps w (utbl K) !! pair_bytes u r) <-> m !! (u, r) = Some K;
  abs_room : forall K u r, ids_ok u r -> is_Some (maps w (rtbl K) !! pair_bytes r u) <-> m !! (u, r) = Some K;
  abs_user_keys : forall K k, is_Some (maps w (utbl K) !! k) -> exists u r, ids_ok u r /\ k = pair_bytes u r;
  abs_room_keys : forall K k, is_Some (maps w (rtbl K) !! k) ->
    (exists u r, ids_ok u r /\ k = pair_bytes r u) \/ (K = Knocked /\ room_id_ok k = true) }.

Lemma userroom_inj u r u' r' : ids_ok u r -> ids_ok u' r' -> pair_bytes u r = pair_bytes u' r' -> (u, r) = (u', r').
Proof.
  intros [Hu _] [Hu' _] Ek. apply sep_split in Ek as [-> ->]; [done|by apply user_no_sep..].
Qed.
Lemma roomuser_inj u r u' r' : ids_ok u r -> ids_ok u' r' -> pair_bytes r u = pair_bytes r' u' -> (u, r) = (u', r').
Proof.
  intros [_ Hr] [_ Hr'] Ek. apply sep_split in Ek as [-> ->]; [done|by apply room_no_sep..].
Qed.

Lemma pair_bytes_has_sep a b : SEP ∈ pair_bytes a b.
Proof. apply elem_of_app. right. left. Qed.

Lemma insert_key_Some (t : table) (k k' v : bytes) :
  is_Some (<[k := v]> t !! k') <-> k' = k \/ is_Some (t !! k').
Proof. rewrite lookup_insert_is_Some. destruct (decide (k = k')); naive_solver. Qed.
Lemma delete_key_Some (t : table) (k k' : bytes) : is_Some (delete k t !! k') <-> k' <> k /\ is_Some (t !! k').
Proof. rewrite lookup_delete_is_Some. naive_solver. Qed.

(** Writing one kind and removing the others. *)
Lemma abstracts_write w w' m u r K :
  abstracts w m -> ids_ok u r ->
  (exists v, maps w' (utbl K) = <[pair_bytes u r := v]> (maps w (utbl K))) ->
  (exists v, maps w' (rtbl K) = <[pair_bytes r u := v]> (maps w (rtbl K))) ->
  (forall K', K' <> K -> maps w' (utbl K') = delete (pair_bytes u r) (maps w (utbl K')) /\
                         maps w' (rtbl K') = delete (pair_bytes r u) (maps w (rtbl K'))) ->
  abstracts w' (<[(u, r) := K]> m).
Proof.
  intros [A1 A2 A3 A4] Hid [v Hv] [v' Hv'] Ho. split.
  - intros K' u' r' Hid'. rewrite lookup_insert. destruct (decide (K' = K)) as [->|HK].
    + rewrite Hv, insert_key_Some, A1 by done. case_decide as Heq; [naive_solver|].
      split; [|by right]. intros [Hk|]; [|done]. destruct Heq. by apply userroom_inj.
    + destruct (Ho K' HK) as [-> _]. rewrite delete_key_Some, A1 by done. case_decide as Heq.
      * injection Heq as -> ->. split; [by intros []|naive_solver].
      * split; [by intros []|]. intros. split; [|done]. intros Hk. apply Heq. symmetry. by apply userroom_inj.
  - intros K' u' r' Hid'. rewrite lookup_insert. destruct (decide (K' = K)) as [->|HK].
    + rewrite Hv', insert_key_Some, A2 by done. case_decide as Heq; [naive_solver|].
      split; [|by right]. intros [Hk|]; [|done]. destruct Heq. by apply roomuser_inj.
    + destruct (Ho K' HK) as [_ ->]. rewrite delete_key_Some, A2 by done. case_decide as Heq.
      * injection Heq as -> ->. split; [by intros []|naive_solver].
      * split; [by intros []|]. intros. split; [|done]. intros Hk. apply Heq. symmetry. by apply roomuser_inj.
  - intros K' k. destruct (decide (K' = K)) as [->|HK].
    + rewrite Hv, insert_key_Some. intros [->|Hk]; [by eauto|by eapply A3].
    + destruct (Ho K' HK) as [-> _]. rewrite delete_key_Some. intros [_ Hk]. by eapply A3.
  - intros K' k. destruct (decide (K' = K)) as [->|HK].
    + rewrite Hv', insert_key_Some. intros [->|Hk]; [left; by eauto|by eapply A4].
    + destruct (Ho K' HK) as [_ ->]. rewrite delete_key_Some. intros [_ Hk]. by eapply A4.
Qed.

Lemma abstracts_frame w w' m :
  abstracts w m -> (forall K, maps w' (utbl K) = maps w (utbl K)) ->
  (forall K, maps w' (rtbl K) = maps w (rtbl K)) -> abstracts w' m.
Proof.
  intros [A1 A2 A3 A4] Hu Hr. split; intros *; rewrite ?Hu, ?Hr; [apply A1|apply A2|apply A3|apply A4].
Qed.

End abstraction.

(** Evaluates the tables of a world that was written step by step. *)
Ltac world_simpl := cbn [utbl rtbl]; autorewrite with world.

(** The tables a change of membership writes. *)
Definition mark_tables : list tbl :=
  [userroomid_joined; userroomid_invitestate; userroomid_leftstate; userroomid_knockedstate;
   roomuserid_joined; roomuserid_invitecount; roomuserid_leftcount; roomuserid_knockedcount;
   roomid_inviteviaservers].

Ltac frame_steps := repeat first
  [ apply frame_refl | assumption
  | eapply frame_trans; [|apply frame_rem; in_tables]
  | eapply frame_trans; [|apply frame_ins; in_tables] ].

Section refinement.
Context (debug : bool) {E : Engine} {I : Ids} {Js : Json}.

(** A row that was written among the servers of invitations is a list of them. *)
Definition servers_ok (l : list bytes) : Prop := l <> [] /\ Forall (fun s => server_name_ok s = true) l.
Definition via_ok (w : World) : Prop :=
  forall k v, maps w roomid_inviteviaservers !! k = Some v -> exists l, servers_ok l /\ v = join_sep l.

Lemma via_ok_rem k w w1 :
  via_ok w -> maps w1 roomid_inviteviaservers = maps w roomid_inviteviaservers ->
  via_ok (rem roomid_inviteviaservers k w1).
Proof. intros Hv Hm k' v. world_simpl. rewrite Hm. intros [_ ?]%lookup_delete_Some. eauto. Qed.

Lemma serialize_ids u r :
  ids_ok u r ->
  serialize_key debug (pair_key u r) = Done (pair_bytes u r) /\
  serialize_key debug (pair_key r u) = Done (pair_bytes r u).
Proof. intros [Hu%user_id_utf8 Hr%room_id_utf8]. unfold pair_key. by rewrite !serialize_pair. Qed.

(** Runs the count that a membership other than joined is stored with. *)
Lemma next_count_ins n t k v w :
  count_ok n w -> (1 <= n)%Z ->
  exists w1, next_count debug (ins t k v w) = Done (current w + 1, w1)%Z /\ maps w1 = maps (ins t k v w) /\
    current w1 = (current w + 1)%Z /\ count_ok (n - 1) w1.
Proof.
  intros Hc Hn. destruct (next_count_ok debug n (ins t k v w)) as (w1 & ? & ? & ? & ? & _); [done..|]. eauto.
Qed.

(** The steps shared by the memberships that are stored with a number. *)
Ltac run_counted Hid Hc n :=
  destruct (serialize_ids _ _ Hid) as [-> ->];
  cbn [mbind outcome_bind]; rewrite upd_json; cbn [mbind outcome_bind];
  edestruct (next_count_ins n) as (w1 & -> & Hm & Hcur & Hc1); [exact Hc|done|];
  cbn [mbind outcome_bind]; rewrite upd_count; cbn [mbind outcome_bind].
Ltac write_kind Hm :=
  eapply abstracts_write; [done|done|eexists; world_simpl; rewrite ?Hm; by world_simpl..|];
  intros [] ?; try done; split; world_simpl; rewrite ?Hm; by world_simpl.
Ltac frame_counted Hm := intros t Ht; rewrite Hm; revert t Ht; apply frame_ins; in_tables.

Lemma mark_as_joined_refines w m u r :
  abstracts w m -> via_ok w -> ids_ok u r ->
  exists w', mark_as_joined debug u r w = Done w' /\ abstracts w' (<[(u, r) := Joined]> m) /\
    frame mark_tables w w' /\ via_ok w' /\ globals w' = globals w.
Proof.
  intros HA Hv Hid. unfold mark_as_joined. destruct (serialize_ids u r Hid) as [-> ->].
  cbn [mbind outcome_bind]. eexists. split; [done|]. split.
  - eapply abstracts_write; [done|done|eexists; by world_simpl..|].
    intros [] ?; try done; split; by world_simpl.
  - split; [frame_steps|]. split; [|done]. apply (via_ok_rem r w); [done|by world_simpl].
Qed.

Lemma mark_as_left_refines w m u r n :
  abstracts w m -> via_ok w -> ids_ok u r -> count_ok n w -> (1 <= n)%Z ->
  exists w', mark_as_left debug u r w = Done w' /\ abstracts w' (<[(u, r) := Left]> m) /\
    frame mark_tables w w' /\ via_ok w' /\ current w' = (current w + 1)%Z /\ count_ok (n - 1) w'.
Proof.
  intros HA Hv Hid Hc Hn. unfold mark_as_left. run_counted Hid Hc n.
  eexists. split; [done|]. split; [write_kind Hm|]. split; [frame_steps; frame_counted Hm|].
  split; [apply (via_ok_rem r w); [done|]; world_simpl; rewrite Hm; by world_simpl|]. by split.
Qed.

Lemma mark_as_knocked_refines w m u r st n :
  abstracts w m -> via_ok w -> ids_ok u r -> count_ok n w -> (1 <= n)%Z ->
  exists w', mark_as_knocked debug u r st w = Done w' /\ abstracts w' (<[(u, r) := Knocked]> m) /\
    frame mark_tables w w' /\ via_ok w' /\ current w' = (current w + 1)%Z /\ count_ok (n - 1) w'.
Proof.
  intros HA Hv Hid Hc Hn. unfold mark_as_knocked. run_counted Hid Hc n.
  eexists. split; [done|]. split; [write_kind Hm|]. split; [frame_steps; frame_counted Hm|].
  split; [apply (via_ok_rem r w); [done|]; world_simpl; rewrite Hm; by world_simpl|]. by split.
Qed.

(** *** The servers an invitation came through *)

(** The texts of a list, each behind its separator. *)
Definition sep_texts (l : list bytes) : bytes := mjoin (cons SEP <$> l).

Lemma join_sep_cons a l : join_sep (a :: l) = a ++ sep_texts l.
Proof.
  revert a. induction l as [|b l IH]; intros a; [by rewrite app_nil_r|].
  change (join_sep (a :: b :: l)) with (a ++ SEP :: join_sep (b :: l)). by rewrite IH.
Qed.

Lemma sep_texts_boundary l : boundary false (sep_texts l).
Proof. destruct l; [by left|]. right. split; [done|]. by eexists. Qed.

Lemma visit_all_texts l b p r fuel :
  Forall (fun x => utf8_valid x = true) l -> p <= length b -> 0 < r -> length l < fuel ->
  drop p b = sep_texts l ->
  exists r', visit_all debug (de_value debug TStr) fuel (MkDe b p r true) =
    Done (VStr <$> l, MkDe b (length b) r' true).
Proof.
  intros Hl. revert p r fuel. induction Hl as [|x l Hx Hl IH]; intros p r fuel Hp Hr Hf Hd;
    (destruct fuel as [|fuel]; [cbn in Hf; lia|]); cbn [visit_all].
  - apply (f_equal length) in Hd. rewrite length_drop in Hd. cbn in Hd.
    unfold next_element. cbn [buf pos]. rewrite decide_True by lia. exists r.
    replace p with (length b) by lia. done.
  - change (sep_texts (x :: l)) with (SEP :: x ++ sep_texts l) in Hd.
    destruct (drop_S_sep _ _ _ Hd) as [Hs Hd']. assert (p < length b) as Hlt.
    { apply (f_equal length) in Hd. rewrite length_drop in Hd. cbn in Hd. lia. }
    erewrite (next_element_ok debug false TStr (VStr x) x); [|by apply (reads_field false TStr (VStr x)), field_str
      |done|by rewrite started_rec|exact Hd'|apply sep_texts_boundary].
    cbn [mbind outcome_bind]. destruct (IH (S p + length x) (S r) fuel) as [r' ->].
    + apply (f_equal length) in Hd'. rewrite length_drop, length_app in Hd'. lia.
    + lia.
    + cbn in Hf. lia.
    + by rewrite <- drop_drop, Hd', drop_app_length.
    + by exists r'.
Qed.

Lemma from_slice_texts a l :
  Forall (fun x => utf8_valid x = true) (a :: l) -> a <> [] ->
  from_slice debug (TSeq TStr) (join_sep (a :: l)) = Done (VSeq (VStr <$> a :: l)).
Proof.
  intros [Ha Hl]%Forall_cons Hne. rewrite join_sep_cons. set (b := a ++ sep_texts l).
  assert (0 < length a) as Hla by (destruct a; [done|cbn; lia]).
  assert (length l <= length (sep_texts l)) as Hll.
  { clear. induction l as [|x l IH]; [cbn; lia|].
    change (sep_texts (x :: l)) with (SEP :: x ++ sep_texts l). cbn [length]. rewrite length_app. lia. }
  assert (length b = length a + length (sep_texts l)) as Hlb by apply length_app.
  unfold from_slice.
  change (de_value debug (TSeq TStr) (MkDe b 0 0 false)) with
    (d ← sequence_start debug (MkDe b 0 0 false);
     '(vs, d) ← visit_all debug (de_value debug TStr) (length (buf d) + 2) d; Done (VSeq vs, d)).
  unfold sequence_start. rewrite debug_assert_true by done.
  cbn [mbind outcome_bind buf pos rec]. replace (length b + 2) with (S (length b + 1)) by lia.
  cbn [visit_all].
  rewrite (next_element_ok debug false TStr (VStr a) a b 0 0 0 (sep_texts l));
    [|by apply (reads_field false TStr (VStr a)), field_str|lia|done|done|apply sep_texts_boundary].
  cbn [mbind outcome_bind].
  destruct (visit_all_texts l b (0 + length a) 1 (length b + 1)) as [r' ->];
    [done|lia|lia|lia|apply drop_app_length|].
  cbn [mbind outcome_bind]. rewrite debug_assert_true; [done|].
  unfold finished. cbn [buf pos]. rewrite drop_all. by rewrite bool_decide_true.
Qed.

Lemma last_server_row k l :
  servers_ok l -> exists s, last l = Some s /\ last_server debug (k, join_sep l) = Done s /\
    server_name_ok s = true.
Proof.
  intros [Hne Hl]. destruct l as [|a l]; [done|]. clear Hne.
  destruct (last (a :: l)) as [s|] eqn:Es; [|by apply last_None in Es].
  exists s. split; [done|]. assert (server_name_ok s = true) as Hs.
  { rewrite Forall_forall in Hl. apply Hl. by apply last_Some_elem_of in Es. }
  split; [|done]. unfold last_server, deserialize. cbn [fst snd].
  rewrite from_slice_ignored.
  cbn [mbind outcome_bind]. rewrite from_slice_texts.
  2: { eapply Forall_impl; [exact Hl|]. intros x. apply server_name_utf8. }
  2: { inversion Hl; subst. by apply server_name_nonempty. }
  cbn [mbind outcome_bind].
  assert (forall l, Forall (fun s => server_name_ok s = true) l ->
    try_map (fun v => match v with
      | VStr s => if server_name_ok s then Done s else Fail (SerdeDe "invalid identifier")
      | _ => Panic end) (VStr <$> l) = Done l) as Hmap.
  { clear. intros l Hl. induction Hl as [|x l Hx Hl IH]; [done|]. rewrite fmap_cons. cbn [try_map].
    rewrite Hx. cbn [mbind outcome_bind]. by rewrite IH. }
  rewrite Hmap by done. cbn [mbind outcome_bind]. by rewrite Es.
Qed.

Lemma servers_invite_via_runs w room :
  via_ok w -> exists l, servers_invite_via debug room w = Done l /\ Forall (fun s => server_name_ok s = true) l.
Proof.
  intros Hv. unfold servers_invite_via.
  assert (forall a, a ∈ raw_stream_prefix (maps w roomid_inviteviaservers) room ->
            exists s, last_server debug a = Done s /\ server_name_ok s = true) as Ha.
  { intros [k v] Hin. rewrite raw_stream_prefix_rows in Hin. apply list_elem_of_filter in Hin as [_ Hin%elem_of_rows].
    destruct (Hv _ _ Hin) as (l & Hl & ->). destruct (last_server_row k l Hl) as (s & _ & ? & ?). eauto. }
  revert Ha. generalize (raw_stream_prefix (maps w roomid_inviteviaservers) room). intros rs Ha.
  induction rs as [|a rs IH]; [by exists []|]. rewrite fmap_cons. cbn [ignore_err].
  destruct (Ha a) as (s & -> & Hs); [left|]. destruct IH as (l & -> & Hl); [intros; apply Ha; by right|].
  cbn. eexists. split; [done|]. by constructor.
Qed.

Lemma elem_of_bdedup (l : list bytes) x : x ∈ dedup l <-> x ∈ l.
Proof.
  induction l as [|a l IH]; [done|]. destruct l as [|b l]; [done|].
  change (dedup (a :: b :: l)) with (if decide (a = b) then dedup (b :: l) else a :: dedup (b :: l)).
  case_decide; [subst; rewrite IH; set_solver|]. rewrite elem_of_cons, IH. set_solver.
Qed.

Lemma settled_servers_ok (l : list bytes) :
  servers_ok l -> servers_ok (dedup (merge_sort ord_le l)).
Proof.
  intros [Hne Hl]. split.
  - intros Hd. destruct l as [|a l]; [done|]. assert (a ∈ dedup (merge_sort ord_le (a :: l))) as Hin.
    { rewrite elem_of_bdedup, merge_sort_Permutation. left. }
    rewrite Hd in Hin. by apply not_elem_of_nil in Hin.
  - rewrite Forall_forall in *. intros x. rewrite elem_of_bdedup, merge_sort_Permutation. apply Hl.
Qed.

Lemma add_servers_runs w room servers :
  via_ok w -> servers_ok servers ->
  exists w' v, add_servers_invite_via debug room servers w = Done w' /\
    w' = ins roomid_inviteviaservers room v w /\ via_ok w'.
Proof.
  intros Hv [Hne Hs]. unfold add_servers_invite_via.
  destruct (servers_invite_via_runs w room Hv) as (l & -> & Hl). cbn [mbind outcome_bind].
  eexists. eexists. split; [done|]. split; [done|].
  intros k v. world_simpl. rewrite lookup_insert. case_decide; [|apply Hv]. intros [= <-].
  eexists. split; [|done]. apply settled_servers_ok. split; [by destruct l; destruct servers|].
  by apply Forall_app.
Qed.

Lemma mark_as_invited_refines w m u r st via n :
  abstracts w m -> via_ok w -> ids_ok u r -> count_ok n w -> (1 <= n)%Z ->
  from_option (Forall (fun s => server_name_ok s = true)) True via ->
  exists w', mark_as_invited debug u r st via w = Done w' /\ abstracts w' (<[(u, r) := Invited]> m) /\
    frame mark_tables w w' /\ via_ok w' /\ current w' = (current w + 1)%Z /\ count_ok (n - 1) w'.
Proof.
  intros HA Hv Hid Hc Hn Hvia. unfold mark_as_invited. run_counted Hid Hc n.
  set (w2 := rem roomuserid_knockedcount _ _).
  assert (abstracts w2 (<[(u, r) := Invited]> m)) as HA2 by (unfold w2; write_kind Hm).
  assert (frame mark_tables w w2) as Hf2 by (unfold w2; frame_steps; frame_counted Hm).
  assert (via_ok w2) as Hv2.
  { intros k v. unfold w2. world_simpl. rewrite Hm. world_simpl. apply Hv. }
  assert (current w2 = current w1 /\ (count_ok (n - 1) w2 <-> count_ok (n - 1) w1)) as [Hcur2 Hc2] by done.
  clearbody w2.
  assert (exists w', Done w2 = Done (E := CodecError) w' /\ abstracts w' (<[(u, r):=Invited]> m) /\
    frame mark_tables w w' /\ via_ok w' /\ current w' = (current w + 1)%Z /\ count_ok (n - 1) w') as Hplain.
  { exists w2. split; [done|]. split; [done|]. split; [done|]. split; [done|].
    split; [exact (eq_trans Hcur2 Hcur)|by apply Hc2]. }
  destruct via as [[|s servers]|]; [exact Hplain| |exact Hplain].
  destruct (add_servers_runs w2 r (s :: servers)) as (w' & v & -> & -> & Hv'); [done|by split|].
  eexists. split; [done|]. split; [|split; [frame_steps|split; [done|split; [exact (eq_trans Hcur2 Hcur)|by apply Hc2]]]].
  eapply abstracts_frame; [exact HA2|intros []; by world_simpl..].
Qed.

Lemma upd_del t k kb w :
  serialize_key debug k = Done kb -> upd t (fun m => del debug m k) w = Done (rem t kb w).
Proof.
  intros Hk. unfold upd, del, bdel. change (buffer_serialize debug None k) with (serialize_key debug k).
  by rewrite Hk.
Qed.

Lemma upd_put_raw t k kb v w :
  serialize_key debug k = Done kb -> upd t (fun m => put_raw debug m k v) w = Done (ins t kb v w).
Proof.
  intros Hk. unfold upd, put_raw, bput_raw. change (buffer_serialize debug None k) with (serialize_key debug k).
  by rewrite Hk.
Qed.

(** The abstract effect of [forget]. *)
Definition forget_member (u r : bytes) (m : members) : members :=
  if decide (m !! (u, r) = Some Left) then delete (u, r) m else m.

Lemma lookup_forget u r u' r' m K :
  forget_member u r m !! (u', r') = Some K <->
  m !! (u', r') = Some K /\ ~ (K = Left /\ (u', r') = (u, r)).
Proof.
  unfold forget_member. case_decide as Hl.
  - rewrite lookup_delete_Some. naive_solver.
  - naive_solver.
Qed.

Lemma forget_refines w m u r :
  abstracts w m -> ids_ok u r ->
  exists w', forget debug r u w = Done w' /\ abstracts w' (forget_member u r m) /\
    frame [userroomid_leftstate; roomuserid_leftcount] w w' /\ globals w' = globals w.
Proof.
  intros [A1 A2 A3 A4] Hid. unfold forget. destruct (serialize_ids u r Hid) as [E1 E2].
  erewrite upd_del by exact E1. cbn [mbind outcome_bind]. erewrite upd_del by exact E2.
  eexists. split; [done|]. split; [|by split; [frame_steps|]]. split.
  - intros K u' r' Hid'. rewrite lookup_forget, <- (A1 K) by done.
    destruct (decide (K = Left)) as [->|]; [|destruct K; world_simpl; naive_solver].
    world_simpl. rewrite delete_key_Some. split; [|intros [? Hn]; split; [|done]; intros Hk; apply Hn; split; [done|by apply userroom_inj]].
    intros [Hk ?]. split; [done|]. intros [_ [= -> ->]]. done.
  - intros K u' r' Hid'. rewrite lookup_forget, <- (A2 K) by done.
    destruct (decide (K = Left)) as [->|]; [|destruct K; world_simpl; naive_solver].
    world_simpl. rewrite delete_key_Some. split; [|intros [? Hn]; split; [|done]; intros Hk; apply Hn; split; [done|by apply roomuser_inj]].
    intros [Hk ?]. split; [done|]. intros [_ [= -> ->]]. done.
  - intros K k Hk. apply (A3 K). destruct K; revert Hk; world_simpl; rewrite ?delete_key_Some; naive_solver.
  - intros K k Hk. apply (A4 K). destruct K; revert Hk; world_simpl; rewrite ?delete_key_Some; naive_solver.
Qed.

(** *** Scans *)

Lemma strictly_sorted_keys (l : list bytes) :
  StronglySorted ord_le l -> NoDup l -> StronglySorted SetOps.ord_lt l.
Proof.
  induction 1 as [|a l Hl IH Ha]; intros Hn; [constructor|]. apply NoDup_cons in Hn as [Hnin Hn].
  constructor; [by apply IH|]. rewrite Forall_forall in *. intros x Hx. apply SetOps.not_le_lt.
  intros Hle. destruct Hnin. by rewrite (ord_le_antisym a x (Ha x Hx) Hle).
Qed.

Lemma drop_pair a b : drop (S (length a)) (pair_bytes a b) = b.
Proof.
  unfold pair_bytes. replace (a ++ SEP :: b) with ((a ++ [SEP]) ++ b) by by rewrite <- app_assoc.
  replace (S (length a)) with (length (a ++ [SEP])) by (rewrite length_app; cbn; lia).
  apply drop_app_length.
Qed.

Lemma sorted_fmap_drop a l :
  Forall (fun k => exists b, k = pair_bytes a b) l -> StronglySorted SetOps.ord_lt l ->
  StronglySorted SetOps.ord_lt (drop (S (length a)) <$> l).
Proof.
  intros Hf Hs. induction Hs as [|k l Hs IH Hk]; [constructor|]. apply Forall_cons in Hf as [[b ->] Hf].
  rewrite fmap_cons. constructor; [by apply IH|]. apply Forall_fmap. rewrite Forall_forall in *.
  intros x Hx. destruct (Hf x Hx) as [b' ->]. specialize (Hk _ Hx). unfold compose.
  rewrite !drop_pair. unfold SetOps.ord_lt, pair_bytes in *. cbn [cmp bytes_ord] in *.
  rewrite bytes_cmp_app, bytes_cmp_refl in Hk by done.
  cbn [bytes_cmp] in Hk. by rewrite Z.compare_refl in Hk.
Qed.

(** A scan for the second part of the keys that begin with [a]. *)
Lemma scan_ids_exact ok t a :
  SEP ∉ a ->
  (forall k, is_Some (t !! k) -> (a ++ [SEP]) `prefix_of` k ->
     exists b, k = pair_bytes a b /\ ok b = true /\ utf8_valid b = true) ->
  exists l, scan_ids debug ok t a = Done l /\ StronglySorted SetOps.ord_lt l /\
    forall b, b ∈ l <-> is_Some (t !! pair_bytes a b).
Proof.
  intros Ha Hk. unfold scan_ids, keys_prefix_raw. rewrite serialize_key_interfix.
  cbn [mbind outcome_bind]. set (ks := raw_keys_prefix t (a ++ [SEP])).
  assert (forall k, k ∈ ks -> exists b, k = pair_bytes a b /\ ok b = true /\ utf8_valid b = true) as Hks.
  { intros k [Hp Hs]%elem_of_raw_keys_prefix. by apply Hk. }
  exists (drop (S (length a)) <$> ks). split_and!.
  - apply ignore_err_done. intros k (b & -> & Hb & Hu)%Hks. unfold second_id, deserialize_key.
    rewrite drop_pair. unfold pair_bytes. rewrite from_slice_ignore_text by done.
    cbn [mbind outcome_bind]. by rewrite Hb.
  - apply sorted_fmap_drop.
    + apply Forall_forall. intros k (b & -> & _)%Hks. by exists b.
    + apply strictly_sorted_keys; [apply raw_keys_prefix_sorted|apply raw_keys_prefix_NoDup].
  - intros b. rewrite list_elem_of_fmap. split.
    + intros (k & -> & Hin). pose proof (Hks k Hin) as (b' & -> & _).
      apply elem_of_raw_keys_prefix in Hin as [_ Hin]. by rewrite drop_pair.
    + intros Hs. exists (pair_bytes a b). split; [by rewrite drop_pair|]. apply elem_of_raw_keys_prefix. split; [|done].
      unfold pair_bytes. exists b. by rewrite <- app_assoc.
Qed.

Lemma scan_kind w m K r :
  abstracts w m -> room_id_ok r = true ->
  exists l, scan_ids debug user_id_ok (maps w (rtbl K)) r = Done l /\ StronglySorted SetOps.ord_lt l /\
    forall u, u ∈ l <-> user_id_ok u = true /\ m !! (u, r) = Some K.
Proof.
  intros HA Hr. destruct (scan_ids_exact user_id_ok (maps w (rtbl K)) r) as (l & El & Hs & Hl).
  - by apply room_no_sep.
  - intros k Hk Hp. destruct (abs_room_keys _ _ HA K k Hk) as [(u & r' & Hid & ->)|[-> Hro]].
    + apply interfix_prefix in Hp as <-; [|by apply room_no_sep|by apply room_no_sep, Hid].
      exists u. split_and!; [done|apply Hid|by apply user_id_utf8, Hid].
    + apply room_no_sep in Hro. destruct Hp as [x ->]. set_solver.
  - exists l. split_and!; [done|done|]. intros u. rewrite Hl. split.
    + intros Hs'. destruct (abs_room_keys _ _ HA K _ Hs') as [(u' & r' & Hid & Ek)|[-> Hro]].
      * apply sep_split in Ek as [<- <-]; [|by apply room_no_sep|by apply room_no_sep, Hid].
        split; [apply Hid|]. by apply (abs_room _ _ HA).
      * apply room_no_sep in Hro. destruct Hro. apply pair_bytes_has_sep.
    + intros [Hu Hm]. by apply (abs_room _ _ HA).
Qed.

Lemma has_key_ids t a b w :
  utf8_valid a = true -> utf8_valid b = true ->
  has_key debug t a b w = Done (bool_decide (is_Some (maps w t !! pair_bytes a b))).
Proof.
  intros Ha Hb. unfold has_key, qry, bqry, pair_key.
  change (buffer_serialize debug None (VTuple [VStr a; VStr b])) with (serialize_key debug (VTuple [VStr a; VStr b])).
  rewrite serialize_pair by done. cbn [lift_de mbind outcome_bind]. unfold get.
  change (a ++ SEP :: b) with (pair_bytes a b). by destruct (maps w t !! pair_bytes a b).
Qed.

Lemma has_kind w m K u r :
  abstracts w m -> ids_ok u r -> has_key debug (utbl K) u r w = Done (bool_decide (m !! (u, r) = Some K)).
Proof.
  intros HA Hid. pose proof Hid as [Hu%user_id_utf8 Hr%room_id_utf8]. rewrite has_key_ids by done. f_equal.
  apply bool_decide_ext. by apply (abs_user _ _ HA).
Qed.

(** *** Servers of a room *)

(** The two tables of servers mirror each other and hold nothing else. *)
Record servers_inv (w : World) : Prop := {
  srv_mirror : forall r s, room_id_ok r = true -> server_name_ok s = true ->
    is_Some (maps w roomserverids !! pair_bytes r s) <-> is_Some (maps w serverroomids !! pair_bytes s r);
  srv_room_keys : forall k, is_Some (maps w roomserverids !! k) ->
    exists r s, room_id_ok r = true /\ server_name_ok s = true /\ k = pair_bytes r s;
  srv_server_keys : forall k, is_Some (maps w serverroomids !! k) ->
    exists r s, room_id_ok r = true /\ server_name_ok s = true /\ k = pair_bytes s r }.

Lemma room_servers_exact w r :
  servers_inv w -> room_id_ok r = true ->
  exists l, room_servers debug r w = Done l /\ StronglySorted SetOps.ord_lt l /\
    forall s, s ∈ l <-> is_Some (maps w roomserverids !! pair_bytes r s).
Proof.
  intros HS Hr. apply scan_ids_exact; [by apply room_no_sep|].
  intros k Hk Hp. destruct (srv_room_keys _ HS k Hk) as (r' & s & Hr' & Hs & ->).
  apply interfix_prefix in Hp as <-; [|by apply room_no_sep..].
  exists s. split_and!; [done|done|by apply server_name_utf8].
Qed.

Lemma sorted_lt_NoDup (l : list bytes) : StronglySorted SetOps.ord_lt l -> NoDup l.
Proof.
  induction 1 as [|a l Hl IH Ha]; [constructor|]. apply NoDup_cons. split; [|done].
  rewrite Forall_forall in Ha. intros Hin. apply Ha, SetOps.ord_lt_not_le in Hin. by destruct Hin.
Qed.

(** What the two loops leave of one of the tables: the rows of [gone] servers
    removed, those of [new] ones added. *)
Definition settled (key : bytes -> bytes) (gone new : list bytes) (t t' : table) : Prop :=
  forall k, is_Some (t' !! k) <-> k ∈ key <$> new \/ k ∉ key <$> gone /\ is_Some (t !! k).

Definition settle_inv (w : World) (r : bytes) (joined : gset bytes) (pre : list bytes)
    (st : gset bytes * World) : Prop :=
  let gone := filter (fun s => s ∉ joined) pre in
  st.1 = joined ∖ list_to_set pre /\ frame [roomserverids; serverroomids] w st.2 /\ globals st.2 = globals w /\
  settled (pair_bytes r) gone [] (maps w roomserverids) (maps st.2 roomserverids) /\
  settled (fun s => pair_bytes s r) gone [] (maps w serverroomids) (maps st.2 serverroomids).

Lemma settled_rem key gone t t' s :
  settled key gone [] t t' -> settled key (gone ++ [s]) [] t (delete (key s) t').
Proof.
  intros Hs k. rewrite delete_key_Some, (Hs k), fmap_app. cbn. rewrite not_elem_of_app, not_elem_of_cons.
  rewrite !elem_of_nil. naive_solver.
Qed.

Lemma serialize_server r s :
  room_id_ok r = true -> server_name_ok s = true ->
  serialize_key debug (pair_key r s) = Done (pair_bytes r s) /\
  serialize_key debug (pair_key s r) = Done (pair_bytes s r).
Proof. intros Hr%room_id_utf8 Hs%server_name_utf8. unfold pair_key. by rewrite !serialize_pair. Qed.

Lemma settle_step w r joined pre s st :
  room_id_ok r = true -> server_name_ok s = true -> s ∉ pre -> settle_inv w r joined pre st ->
  outcome_spec (settle_server debug r st s) (settle_inv w r joined (pre ++ [s])) (fun _ => False).
Proof.
  intros Hr Hs Hn. destruct st as [j w1]. intros (Hj & Hf & Hg & H1 & H2). cbn [fst snd] in *.
  unfold settle_server. unfold settle_inv. rewrite filter_app, filter_cons, filter_nil.
  case_decide as Hin.
  - rewrite decide_False by set_solver. rewrite app_nil_r. cbn [outcome_spec fst snd].
    split; [|done]. rewrite list_to_set_app_L. set_solver.
  - rewrite decide_True by set_solver. destruct (serialize_server r s Hr Hs) as [E1 E2].
    erewrite upd_del by exact E1. cbn [mbind outcome_bind]. erewrite upd_del by exact E2.
    cbn [mbind outcome_bind outcome_spec fst snd]. split; [rewrite list_to_set_app_L; set_solver|].
    split; [|split; [done|split; world_simpl;
      [by apply settled_rem|by apply (settled_rem (fun s => pair_bytes s r))]]].
    eapply frame_trans; [exact Hf|]. eapply frame_trans; apply frame_rem; in_tables.
Qed.

Lemma settle_servers w r joined old :
  room_id_ok r = true -> NoDup old -> Forall (fun s => server_name_ok s = true) old ->
  exists st, try_fold (settle_server debug r) (joined, w) old = Done st /\ settle_inv w r joined old st.
Proof.
  intros Hr Hn Hok.
  assert (outcome_spec (try_fold (settle_server debug r) (joined, w) old) (settle_inv w r joined old)
            (fun _ => False)) as Hs.
  { apply try_fold_spec.
    - split_and!; cbn; [set_solver|done|done|..]; intros k; cbn; set_solver.
    - intros pre s post st -> Hi. apply settle_step; [done| | |done].
      + by apply Forall_app in Hok as [_ [? _]%Forall_cons].
      + apply NoDup_app in Hn as (_ & Hd & _). intros Hp. apply (Hd s Hp). left. }
  destruct (try_fold _ _ _) as [st| | |]; [by exists st|done..].
Qed.

(** The second loop adds the servers that are new. *)
Lemma add_servers w r new :
  room_id_ok r = true -> Forall (fun s => server_name_ok s = true) new ->
  exists w', try_fold (add_server debug r) w new = Done w' /\
    frame [roomserverids; serverroomids] w w' /\ globals w' = globals w /\
    settled (pair_bytes r) [] new (maps w roomserverids) (maps w' roomserverids) /\
    settled (fun s => pair_bytes s r) [] new (maps w serverroomids) (maps w' serverroomids).
Proof.
  intros Hr Hok. revert w. induction Hok as [|s new Hs Hok IH]; intros w; cbn [try_fold].
  - exists w. split_and!; [done|done|done|..]; intros k; cbn; set_solver.
  - unfold add_server. destruct (serialize_server r s Hr Hs) as [E1 E2].
    erewrite upd_put_raw by exact E1. cbn [mbind outcome_bind]. erewrite upd_put_raw by exact E2.
    cbn [mbind outcome_bind].
    edestruct IH as (w' & -> & Hf & Hg & H1 & H2). exists w'. split; [done|]. split_and!.
    + eapply frame_trans; [|exact Hf]. eapply frame_trans; apply frame_ins; in_tables.
    + done.
    + intros k. rewrite (H1 k). world_simpl. rewrite insert_key_Some, fmap_cons, elem_of_cons. set_solver.
    + intros k. rewrite (H2 k). world_simpl. rewrite insert_key_Some, fmap_cons, elem_of_cons. set_solver.
Qed.


Lemma servers_inv_frame w w' :
  servers_inv w -> maps w' roomserverids = maps w roomserverids -> maps w' serverroomids = maps w serverroomids ->
  servers_inv w'.
Proof. intros [S1 S2 S3] H1 H2. split; intros *; rewrite ?H1, ?H2; auto. Qed.

(** *** The counts and servers of a room *)

(** The servers of the users that are joined. *)
Definition joined_server (m : members) (r s : bytes) : Prop :=
  exists u, user_id_ok u = true /\ m !! (u, r) = Some Joined /\ server_name u = s.

(** The worlds after the counters are written: the bare key of the room among
    the knocking users is the one irregular row. *)
Definition count_world (r : bytes) (j i k : Z) (w : World) : World :=
  ins roomuserid_knockedcount r (u64_to_be_bytes k)
    (ins roomid_invitedcount r (u64_to_be_bytes i) (ins roomid_joinedcount r (u64_to_be_bytes j) w)).

Lemma count_world_abstracts w m r j i k :
  abstracts w m -> room_id_ok r = true -> abstracts (count_world r j i k w) m.
Proof.
  intros [A1 A2 A3 A4] Hr. unfold count_world. split.
  - intros K u r' Hid. rewrite <- (A1 K) by done. destruct K; by world_simpl.
  - intros K u r' Hid. rewrite <- (A2 K) by done. destruct K; world_simpl; try done.
    rewrite insert_key_Some. split; [|by right]. intros [Ek|]; [|done].
    destruct (room_no_sep _ Hr). rewrite <- Ek. apply pair_bytes_has_sep.
  - intros K key Hk. apply (A3 K). destruct K; revert Hk; by world_simpl.
  - intros K key Hk. destruct K; revert Hk; world_simpl;
      [apply (A4 Joined)|apply (A4 Invited)|apply (A4 Left)|].
    rewrite insert_key_Some. intros [->|Hk]; [by right|by apply (A4 Knocked)].
Qed.

Lemma settled_in (key : bytes -> bytes) gone new t t' k :
  settled key gone new t t' -> is_Some (t' !! k) ->
  (exists s, s ∈ new /\ k = key s) \/ is_Some (t !! k).
Proof.
  intros Hs [Hk|[_ Hk]]%Hs; [|by right]. left. apply list_elem_of_fmap in Hk as (s & -> & ?). eauto.
Qed.

(** Both loops together, on the table by room and on the table by server. *)
Lemma settled_exact (key : bytes -> bytes) (joined : gset bytes) old t t1 t2 new :
  (forall s s', server_name_ok s = true -> server_name_ok s' = true -> key s = key s' -> s = s') ->
  Forall (fun s => server_name_ok s = true) old -> (forall s, s ∈ joined -> server_name_ok s = true) ->
  (forall s, s ∈ new <-> s ∈ joined /\ s ∉ old) ->
  (forall s, server_name_ok s = true -> is_Some (t !! key s) <-> s ∈ old) ->
  settled key (filter (fun s => s ∉ joined) old) [] t t1 -> settled key [] new t1 t2 ->
  (forall s, server_name_ok s = true -> is_Some (t2 !! key s) <-> s ∈ joined) /\
  (forall k, (forall s, server_name_ok s = true -> k <> key s) -> is_Some (t2 !! k) <-> is_Some (t !! k)).
Proof.
  intros Hinj Hold Hj Hnew Ht H1 H2. rewrite Forall_forall in Hold. split.
  - intros s Hs. rewrite (H2 (key s)), (H1 (key s)), !fmap_nil, !elem_of_nil, !list_elem_of_fmap, Ht by done.
    assert (forall l : list bytes, (forall x, x ∈ l -> server_name_ok x = true) -> (exists y, key s = key y /\ y ∈ l) <-> s ∈ l) as Hm.
    { intros l Hl. split; [|by eauto]. intros (y & Ek & Hy). apply Hinj in Ek as ->; auto. }
    rewrite Hm by (intros x [? _]%Hnew; auto). rewrite Hm by (intros x [_ ?]%list_elem_of_filter; auto).
    rewrite Hnew, list_elem_of_filter. destruct (decide (s ∈ joined)), (decide (s ∈ old)); set_solver.
  - intros k Hk. rewrite (H2 k), (H1 k). cbn.
    assert (forall l : list bytes, (forall x, x ∈ l -> server_name_ok x = true) -> k ∉ key <$> l) as Hm.
    { intros l Hl (y & -> & Hy)%list_elem_of_fmap. by apply (Hk y); auto. }
    assert (k ∉ key <$> new) by (apply Hm; intros x [? _]%Hnew; auto).
    assert (k ∉ key <$> filter (fun s => s ∉ joined) old) by (apply Hm; intros x [_ ?]%list_elem_of_filter; auto).
    set_solver.
Qed.

Lemma elements_reorder `{Schedule} (site : string) (X : gset bytes) (s : bytes) : s ∈ reorder site (elements X) <-> s ∈ X.
Proof. by rewrite reorder_perm, elem_of_elements. Qed.

(** The two loops over a world whose counters are written. *)
Lemma settle_room `{sched : Schedule} (w : World) (r : bytes) (joined : gset bytes) :
  servers_inv w -> room_id_ok r = true -> (forall s, s ∈ joined -> server_name_ok s = true) ->
  exists old st w', room_servers debug r w = Done old /\
    try_fold (settle_server debug r) (joined, w) old = Done st /\
    try_fold (add_server debug r) st.2 (reorder "joined servers" (elements st.1)) = Done w' /\
    servers_inv w' /\ globals w' = globals w /\ frame [roomserverids; serverroomids] w w' /\
    (forall s, server_name_ok s = true -> is_Some (maps w' roomserverids !! pair_bytes r s) <-> s ∈ joined) /\
    (forall k, (forall s, server_name_ok s = true -> k <> pair_bytes r s) ->
       is_Some (maps w' roomserverids !! k) <-> is_Some (maps w roomserverids !! k)).
Proof.
  intros HS Hr Hj. destruct (room_servers_exact w r HS Hr) as (old & Eold & Hso & Hold).
  assert (Forall (fun s => server_name_ok s = true) old) as Hok.
  { apply Forall_forall. intros x Hx%Hold. destruct (srv_room_keys _ HS _ Hx) as (r' & s' & Hr' & Hs' & Ek).
    apply sep_split in Ek as [_ ->]; [done|by apply room_no_sep..]. }
  destruct (settle_servers w r joined old) as ([j w2] & E2 & Hj2 & Hf2 & Hg2 & R2 & S2);
    [done|by apply sorted_lt_NoDup|done|]. cbn [fst snd] in *.
  assert (forall x, x ∈ reorder "joined servers" (elements j) <-> x ∈ joined /\ x ∉ old) as Hnew.
  { intros x. rewrite elements_reorder, Hj2. set_solver. }
  destruct (add_servers w2 r (reorder "joined servers" (elements j))) as (w' & E3 & Hf3 & Hg3 & R3 & S3); [done| |].
  { apply Forall_forall. intros x [? _]%Hnew. auto. }
  destruct (settled_exact (pair_bytes r) joined old (maps w roomserverids) (maps w2 roomserverids)
    (maps w' roomserverids) (reorder "joined servers" (elements j))) as [HR HR']; try done.
  { intros x y _ _ Ek. by apply sep_split in Ek as [_ ->]; [|apply room_no_sep..]. }
  destruct (settled_exact (fun x => pair_bytes x r) joined old (maps w serverroomids) (maps w2 serverroomids)
    (maps w' serverroomids) (reorder "joined servers" (elements j))) as [HT HT']; try done.
  { intros x y Hx Hy Ek. by apply sep_split in Ek as [-> _]; [|apply server_no_sep..]. }
  { intros x Hx. rewrite Hold. symmetry. by apply (srv_mirror _ HS). }
  exists old, (j, w2), w'. split_and!; try done.
  - split.
    + intros r' x Hr' Hx. destruct (decide (r' = r)) as [->|Hne]; [by rewrite HR, HT|].
      rewrite HR', HT'; [by apply (srv_mirror _ HS)|..].
      * intros y Hy Ek. by apply sep_split in Ek as [_ ?]; [|apply server_no_sep..].
      * intros y Hy Ek. by apply sep_split in Ek as [? _]; [|apply room_no_sep..].
    + intros k [(x & [Hx _]%Hnew & ->)|Hk]%(settled_in _ _ _ _ _ _ R3); [by eauto 10|].
      apply (settled_in _ _ _ _ _ _ R2) in Hk as [(x & Hx & _)|Hk]; [set_solver|].
      by apply (srv_room_keys _ HS).
    + intros k [(x & [Hx _]%Hnew & ->)|Hk]%(settled_in _ _ _ _ _ _ S3); [by eauto 10|].
      apply (settled_in _ _ _ _ _ _ S2) in Hk as [(x & Hx & _)|Hk]; [set_solver|].
      by apply (srv_server_keys _ HS).
  - by rewrite Hg3.
  - by eapply frame_trans.
Qed.

Lemma run_joined_count `{sched : Schedule} (s : StateCache) (m : members) (r : bytes) :
  abstracts (world s) m -> servers_inv (world s) -> room_id_ok r = true ->
  exists w' l, room_members debug r (world s) = Done l /\
    update_joined_count debug r s = Done (MkCache w' (delete r (appservice_in_room_cache s))) /\
    abstracts w' m /\ servers_inv w' /\ globals w' = globals (world s) /\
    frame [roomid_joinedcount; roomid_invitedcount; roomuserid_knockedcount; roomserverids; serverroomids] (world s) w' /\
    maps w' roomid_joinedcount !! r = Some (u64_to_be_bytes (count_u64 l)) /\
    (forall srv, server_name_ok srv = true ->
       is_Some (maps w' roomserverids !! pair_bytes r srv) <-> joined_server m r srv) /\
    (forall k, (forall srv, server_name_ok srv = true -> k <> pair_bytes r srv) ->
       is_Some (maps w' roomserverids !! k) <-> is_Some (maps (world s) roomserverids !! k)).
Proof.
  intros HA HS Hr. set (w := world s) in *.
  destruct (scan_kind w m Joined r HA Hr) as (l & El & _ & Hl).
  destruct (scan_kind w m Invited r HA Hr) as (li & Ei & _ & _).
  destruct (scan_kind w m Knocked r HA Hr) as (lk & Ek & _ & _).
  cbn [rtbl] in *. unfold update_joined_count, room_members, room_members_invited, room_members_knocked.
  fold w. rewrite El, Ei, Ek. cbn [mbind outcome_bind]. do 3 (rewrite upd_put_count; cbn [mbind outcome_bind]).
  change (ins roomuserid_knockedcount r _ _) with (count_world r (count_u64 l) (count_u64 li) (count_u64 lk) w).
  set (w1 := count_world _ _ _ _ w).
  assert (servers_inv w1) as HS1 by (eapply servers_inv_frame; [exact HS|unfold w1, count_world; by world_simpl..]).
  assert (forall x, x ∈ (list_to_set (server_name <$> l) : gset bytes) <-> joined_server m r x) as Hjs.
  { intros x. rewrite elem_of_list_to_set, list_elem_of_fmap. split.
    - intros (u & -> & [? ?]%Hl). by exists u.
    - intros (u & ? & ? & <-). exists u. split; [done|]. by apply Hl. }
  destruct (settle_room w1 r (list_to_set (server_name <$> l))) as
    (old & [j w2] & w' & -> & Es & Ea & HS' & Hg & Hf & HR & HR'); [done|done| |].
  { intros x (u & Hu & _ & <-)%Hjs. by apply server_name_valid. }
  cbn [fst snd] in Ea. cbn [mbind outcome_bind]. rewrite Es. cbn [mbind outcome_bind]. rewrite Ea.
  cbn [mbind outcome_bind]. exists w', l. split; [done|]. split; [done|].
  assert (forall t, t <> roomserverids -> t <> serverroomids -> maps w' t = maps w1 t) as Hsame
    by (intros t ??; apply Hf; set_solver).
  split; [|split; [done|split; [done|split; [|split; [|split]]]]].
  - apply (abstracts_frame w1); [by apply count_world_abstracts|intros []; by apply Hsame..].
  - eapply frame_trans; [|eapply frame_mono; [exact Hf|set_solver]]. unfold w1, count_world. frame_steps.
  - rewrite Hsame by done. unfold w1, count_world. world_simpl. apply lookup_insert_eq.
  - intros srv Hs. by rewrite HR, Hjs.
  - intros k Hk. rewrite HR' by done. unfold w1, count_world. by world_simpl.
Qed.

End refinement.
