(* ===== verification/Membership.v ===== *)
(** * Membership: what the cache promises

    Theorems about [StateCache]: the tables refine a map from user and room to
    one membership, queries and scans answer from that map, and
    [update_membership] has the effect of the event it is given. *)

From stdpp Require Import prelude gmap strings list sorting.
From Stdlib Require Import ZArith Lia.
From Stdlib Require Import Strings.Byte.
From S2P Require Import Prelude MachineInt DbCodec DbMap CoreUtils Short World AccountData StateCache.

(** ** Sequences of operations *)

Inductive op :=
| OpJoin (u r : bytes) | OpLeave (u r : bytes)
| OpKnock (u r : bytes) (st : option (list bytes))
| OpInvite (u r : bytes) (st via : option (list bytes))
| OpForget (u r : bytes)
| OpCount (r : bytes).

Section operations.
Context (debug : bool) {E : Engine} {I : Ids} {Js : Json} {sched : Schedule}.

Definition run_op (s : StateCache) (o : op) : outcome CodecError StateCache :=
  match o with
  | OpJoin u r => w ← mark_as_joined debug u r (world s); Done (set_world s w)
  | OpLeave u r => w ← mark_as_left debug u r (world s); Done (set_world s w)
  | OpKnock u r st => w ← mark_as_knocked debug u r st (world s); Done (set_world s w)
  | OpInvite u r st via => w ← mark_as_invited debug u r st via (world s); Done (set_world s w)
  | OpForget u r => w ← forget debug r u (world s); Done (set_world s w)
  | OpCount r => update_joined_count debug r s
  end.

Definition op_ok (o : op) : Prop :=
  match o with
  | OpJoin u r | OpLeave u r | OpKnock u r _ | OpForget u r => ids_ok u r
  | OpInvite u r _ via => ids_ok u r /\ from_option (Forall (fun s => server_name_ok s = true)) True via
  | OpCount r => room_id_ok r = true
  end.

(** The abstract specification. *)
Definition abs_op (m : members) (o : op) : members :=
  match o with
  | OpJoin u r => <[(u, r) := Joined]> m
  | OpLeave u r => <[(u, r) := Left]> m
  | OpKnock u r _ => <[(u, r) := Knocked]> m
  | OpInvite u r _ _ => <[(u, r) := Invited]> m
  | OpForget u r => forget_member u r m
  | OpCount _ => m
  end.

(** The invariant of the cache. *)
Definition cache_ok (w : World) (m : members) : Prop := abstracts w m /\ via_ok w /\ servers_inv w.

Lemma cache_ok_marked w w' m' :
  servers_inv w -> frame mark_tables w w' -> abstracts w' m' -> via_ok w' -> cache_ok w' m'.
Proof.
  intros HS Hf HA Hv. split; [done|]. split; [done|].
  eapply servers_inv_frame; [exact HS|apply Hf; set_solver..].
Qed.

Lemma run_op_refines s m o n :
  cache_ok (world s) m -> op_ok o -> count_ok n (world s) -> (1 <= n)%Z ->
  exists s', run_op s o = Done s' /\ cache_ok (world s') (abs_op m o) /\ count_ok (n - 1) (world s').
Proof.
  intros (HA & Hv & HS) Hok Hc Hn. destruct o as [u r|u r|u r st|u r st via|u r|r]; cbn [run_op abs_op op_ok] in *.
  - destruct (mark_as_joined_refines debug (world s) m u r) as (w' & -> & HA' & Hf & Hv' & Hg); [done..|].
    eexists. split; [done|]. split; [by eapply cache_ok_marked|].
    eapply (count_ok_mono n); [|lia]. unfold count_ok, current in *. cbn. by rewrite Hg.
  - destruct (mark_as_left_refines debug (world s) m u r n) as (w' & -> & HA' & Hf & Hv' & _ & Hc'); [done..|].
    eexists. split; [done|]. split; [by eapply cache_ok_marked|done].
  - destruct (mark_as_knocked_refines debug (world s) m u r st n) as (w' & -> & HA' & Hf & Hv' & _ & Hc'); [done..|].
    eexists. split; [done|]. split; [by eapply cache_ok_marked|done].
  - destruct Hok as [Hid Hvia].
    destruct (mark_as_invited_refines debug (world s) m u r st via n) as (w' & -> & HA' & Hf & Hv' & _ & Hc'); [done..|].
    eexists. split; [done|]. split; [by eapply cache_ok_marked|done].
  - destruct (forget_refines debug (world s) m u r) as (w' & -> & HA' & Hf & Hg); [done..|].
    eexists. split; [done|]. split.
    + split; [done|]. split; [|eapply servers_inv_frame; [exact HS|apply Hf; set_solver..]].
      intros k v. cbn. rewrite (Hf roomid_inviteviaservers) by set_solver. apply Hv.
    + eapply (count_ok_mono n); [|lia]. unfold count_ok, current in *. cbn. by rewrite Hg.
  - destruct (run_joined_count debug s m r) as (w' & l & _ & -> & HA' & HS' & Hg & Hf & _); [done..|].
    eexists. split; [done|]. split.
    + split; [done|]. split; [|done]. intros k v. cbn. rewrite Hf by set_solver. apply Hv.
    + eapply (count_ok_mono n); [|lia]. unfold count_ok, current in *. cbn. by rewrite Hg.
Qed.

(** C12. Any sequence of joins, leaves, knocks, invitations, forgets and recounts
    runs without a panic, while the counter has room, and leaves the tables with
    exactly the memberships of the abstract map: by user and by room the same,
    and never two for one user and room. *)
Theorem membership_refinement ops s m :
  cache_ok (world s) m -> Forall op_ok ops -> count_ok (Z.of_nat (length ops)) (world s) ->
  exists s', try_fold run_op s ops = Done s' /\ cache_ok (world s') (foldl abs_op m ops).
Proof.
  intros Hi Hok. revert s m Hi. induction Hok as [|o ops Ho Hok IH]; intros s m Hi Hc; cbn [try_fold foldl].
  - by exists s.
  - cbn [length] in Hc. destruct (run_op_refines s m o _ Hi Ho Hc) as (s' & -> & Hi' & Hc'); [lia|].
    cbn [mbind outcome_bind]. apply IH; [done|]. eapply count_ok_mono; [exact Hc'|lia].
Qed.

Lemma user_membership_reads w m u r :
  abstracts w m -> ids_ok u r ->
  user_membership debug u r w = Done
    match m !! (u, r) with
    | Some Joined => Some MJoin | Some Left => Some MLeave
    | Some Knocked => Some MKnock | Some Invited => Some MInvite
    | None => if decide (is_Some (maps w roomuseroncejoinedids !! pair_bytes u r)) then Some MBan else None
    end.
Proof.
  intros HA Hid. unfold user_membership, is_joined, is_left, is_knocked, is_invited, once_joined.
  change userroomid_joined with (utbl Joined). change userroomid_leftstate with (utbl Left).
  change userroomid_knockedstate with (utbl Knocked). change userroomid_invitestate with (utbl Invited).
  rewrite !(has_kind debug w m) by done. pose proof Hid as [Hu%user_id_utf8 Hr%room_id_utf8].
  rewrite has_key_ids by done. cbn [mbind outcome_bind].
  destruct (m !! (u, r)) as [[]|]; [done..|]. rewrite !(bool_decide_false (None = Some _)) by done.
  case_decide as Ho; [by rewrite bool_decide_true|by rewrite bool_decide_false].
Qed.

(** [user_membership] reads the one membership a user has in a room; when
    there is none, it reports a ban for whoever was joined once. *)
Theorem user_membership_exact w m u r :
  abstracts w m -> ids_ok u r ->
  (forall K, m !! (u, r) = Some K -> user_membership debug u r w = Done (Some
    match K with Joined => MJoin | Left => MLeave | Knocked => MKnock | Invited => MInvite end)) /\
  (m !! (u, r) = None -> forall b, once_joined debug u r w = Done b ->
     user_membership debug u r w = Done (if b then Some MBan else None)).
Proof.
  intros HA Hid. rewrite (user_membership_reads w m u r HA Hid). split; [by intros [] ->|].
  intros -> b. pose proof Hid as [Hu%user_id_utf8 Hr%room_id_utf8]. unfold once_joined.
  rewrite has_key_ids by done. intros [= <-]. case_decide as Ho; [by rewrite bool_decide_true|by rewrite bool_decide_false].
Qed.

(** [room_members] yields exactly the joined users of the room, each once and
    in order; the scans for invited and knocking users likewise. *)
Theorem room_members_exact w m r :
  abstracts w m -> room_id_ok r = true ->
  exists lj li lk,
    room_members debug r w = Done lj /\ room_members_invited debug r w = Done li /\
    room_members_knocked debug r w = Done lk /\
    Forall (fun l => StronglySorted SetOps.ord_lt l) [lj; li; lk] /\
    (forall u, u ∈ lj <-> user_id_ok u = true /\ m !! (u, r) = Some Joined) /\
    (forall u, u ∈ li <-> user_id_ok u = true /\ m !! (u, r) = Some Invited) /\
    (forall u, u ∈ lk <-> user_id_ok u = true /\ m !! (u, r) = Some Knocked).
Proof.
  intros HA Hr. destruct (scan_kind debug w m Joined r HA Hr) as (lj & E1 & S1 & H1).
  destruct (scan_kind debug w m Invited r HA Hr) as (li & E2 & S2 & H2).
  destruct (scan_kind debug w m Knocked r HA Hr) as (lk & E3 & S3 & H3).
  exists lj, li, lk. split_and!; try done. by repeat constructor.
Qed.

(** A recount stores the number of joined users and leaves the room with
    exactly the servers of its joined users, in both tables of servers, whatever
    was there before and in whatever order the new servers are written; the
    servers of other rooms stay, and the room's appservice cache is dropped. *)
Theorem joined_count_exact s m r :
  abstracts (world s) m -> servers_inv (world s) -> room_id_ok r = true ->
  exists s' l, update_joined_count debug r s = Done s' /\ room_members debug r (world s) = Done l /\
    abstracts (world s') m /\ servers_inv (world s') /\
    room_joined_count debug r (world s') = Done (count_u64 l) /\
    (forall srv, server_name_ok srv = true ->
       server_in_room debug srv r (world s') = Done (bool_decide (is_Some (maps (world s') roomserverids !! pair_bytes r srv))) /\
       (is_Some (maps (world s') roomserverids !! pair_bytes r srv) <-> joined_server m r srv)) /\
    (forall r' srv, room_id_ok r' = true -> server_name_ok srv = true -> r' <> r ->
       is_Some (maps (world s') roomserverids !! pair_bytes r' srv) <->
       is_Some (maps (world s) roomserverids !! pair_bytes r' srv)) /\
    appservice_in_room_cache s' !! r = None.
Proof.
  intros HA HS Hr. destruct (run_joined_count debug s m r HA HS Hr)
    as (w' & l & El & -> & HA' & HS' & _ & _ & Hcnt & Hsrv & Hoth).
  eexists _, l. cbn [world]. split; [done|]. split; [done|]. split; [done|]. split; [done|]. split_and!.
  - unfold room_joined_count, de_count, get. cbn [world]. rewrite Hcnt. cbn [ok_or]. unfold deserialized.
    cbn [mbind outcome_bind]. rewrite from_slice_u64; [done|]. unfold count_u64, saturate. width_lia.
  - intros srv Hs. split; [|by apply Hsrv]. unfold server_in_room.
    rewrite has_key_ids by first [by apply server_name_utf8|by apply room_id_utf8]. f_equal.
    apply bool_decide_ext. symmetry. by apply (srv_mirror _ HS').
  - intros r' srv Hr' Hs Hne. apply Hoth. intros x Hx Ek.
    by apply sep_split in Ek as [? _]; [|apply room_no_sep..].
  - cbn. apply lookup_delete_eq.
Qed.

End operations.

(** ** [update_membership] *)

Section update_membership.
Context (debug : bool) {E : Engine} {I : Ids} {Js : Json} {J : JsonText} {M : MemberJson} {sched : Schedule}.
Context (cfg : Config) (predecessor : World -> bytes -> option bytes).

(** A predecessor is a room, and what is written of direct chats is an event. *)
Hypothesis predecessor_ok : forall w r p, predecessor w r = Some p -> room_id_ok p = true.
Hypothesis direct_ok : forall d,
  json_has (ser_direct d) "type" = true /\ json_has (ser_direct d) "content" = true.

(** The state the service works on. *)
Definition member_ok (w : World) (m : members) : Prop := cache_ok w m /\ acct_inv w.

Lemma member_ok_acct w w' m :
  member_ok w m -> frame acct_tables w w' -> acct_inv w' -> member_ok w' m.
Proof.
  intros [(HA & Hv & HS) _] Hf HI. split; [|done]. split; [|split].
  - eapply abstracts_frame; [exact HA|intros []; apply Hf; unfold acct_tables; set_solver..].
  - intros k v. rewrite Hf by (unfold acct_tables; set_solver). apply Hv.
  - eapply servers_inv_frame; [exact HS|apply Hf; unfold acct_tables; set_solver..].
Qed.

Lemma member_ok_marked w w' m m' :
  member_ok w m -> frame mark_tables w w' -> abstracts w' m' -> via_ok w' -> (current w <= current w')%Z ->
  member_ok w' m'.
Proof.
  intros [(_ & _ & HS) HI] Hf HA Hv Hc. split; [by eapply cache_ok_marked|].
  eapply acct_inv_frame; [exact HI| |done]. intros t Ht. apply Hf. revert Ht. unfold acct_tables, mark_tables. set_solver.
Qed.

Lemma copy_tags w m r u p n :
  member_ok w m -> count_ok n w -> (1 <= n)%Z -> user_id_ok u = true -> room_id_ok r = true -> room_id_ok p = true ->
  exists w', match get_room debug de_tag p u (str "m.tag") w with
    | Done tag_event =>
        match update debug (Some r) u (str "m.tag") tag_event w with
        | Done w' => Done w' | Fail _ => Done w | Panic => Panic | OutOfFuel => OutOfFuel end
    | Fail _ => Done w | Panic => Panic | OutOfFuel => OutOfFuel end = Done (E := MemberError) w' /\
    member_ok w' m /\ count_ok (n - 1) w'.
Proof.
  intros Hm Hc Hn Hu Hr Hp. assert (count_ok (n - 1) w) by (eapply count_ok_mono; [exact Hc|lia]).
  unfold get_room. destruct (get_raw_cases debug (Some p) u (str "m.tag") w) as [[b ->]| ->]; [done|done| |by eauto].
  cbn [mbind outcome_bind]. destruct (de_tag b) as [tag|]; cbn [ok_or]; [|by eauto].
  destruct (update_total debug w (Some r) u (str "m.tag") tag n) as [[-> _]|(w' & -> & HI & Hf & Hc')];
    [apply Hm|done..| |]; [by eauto|]. exists w'. split; [done|]. split; [by eapply member_ok_acct|done].
Qed.

Lemma copy_from_predecessor_ok w m r u p n :
  member_ok w m -> count_ok n w -> (2 <= n)%Z -> user_id_ok u = true -> room_id_ok r = true -> room_id_ok p = true ->
  exists w', copy_from_predecessor debug r u p w = Done w' /\ member_ok w' m /\ count_ok (n - 2) w'.
Proof.
  intros Hm Hc Hn Hu Hr Hp. unfold copy_from_predecessor.
  destruct (copy_tags w m r u p n) as (w1 & -> & Hm1 & Hc1); [done|done|lia|done..|].
  cbn [mbind outcome_bind]. assert (count_ok (n - 2) w1) by (eapply count_ok_mono; [exact Hc1|lia]).
  unfold get_global. destruct (get_raw_cases debug None u (str "m.direct") w1) as [[b ->]| ->]; [done|done| |by eauto].
  cbn [mbind outcome_bind]. destruct (de_direct b) as [d|]; cbn [ok_or]; [|by eauto].
  destruct (copy_direct r p d) as [d' []]; [|by eauto]. destruct (direct_ok d') as [D1 D2].
  destruct (update_total debug w1 None u (str "m.direct") (ser_direct d') (n - 1))
    as [[_ Hf]|(w' & -> & HI & Hf & Hc')]; [apply Hm1|done|lia|done|done| |].
  - by rewrite D1, D2 in Hf.
  - exists w'. split; [done|]. split; [by eapply member_ok_acct|]. by replace (n - 2)%Z with (n - 1 - 1)%Z by lia.
Qed.

Lemma user_is_ignored_done s u w :
  user_id_ok u = true -> exists b, user_is_ignored debug s u w = Done b.
Proof.
  intros Hu. unfold user_is_ignored, get_global.
  destruct (get_raw_cases debug None u (str "m.ignored_user_list") w) as [[b ->]| ->]; [done|done| |by eauto].
  cbn [mbind outcome_bind]. destruct (de_ignored b); cbn [ok_or]; eauto.
Qed.

(** Whether leaving makes the user forget the room. *)
Definition forgets (r u : bytes) (w : World) : bool :=
  user_is_local cfg u && (forget_forced_upon_leave cfg || is_banned r w || is_disabled r w).

(** The abstract effect of a membership event on the map. *)
Definition member_effect (r u : bytes) (ms : MembershipState) (ignored forgotten : bool) (m : members) : members :=
  match ms with
  | MJoin => <[(u, r) := Joined]> m
  | MInvite => if ignored then m else <[(u, r) := Invited]> m
  | MLeave | MBan => if forgotten then delete (u, r) m else <[(u, r) := Left]> m
  | MKnock | MCustom => m
  end.

Lemma leave_then_forget (m : members) u r : forget_member u r (<[(u, r) := Left]> m) = delete (u, r) m.
Proof. unfold forget_member. rewrite lookup_insert_eq, decide_True by done. apply delete_insert_eq. Qed.

(** Writing a table that none of the invariants speaks of. *)
Lemma member_ok_ins w m t k v :
  member_ok w m -> t = userid_password \/ t = roomuseroncejoinedids -> member_ok (ins t k v w) m.
Proof.
  intros [(HA & Hv & HS) HI] Ht. split; [split; [|split]|].
  - eapply abstracts_frame; [exact HA|intros []; destruct Ht as [-> | ->]; by world_simpl..].
  - intros k' v'. destruct Ht as [-> | ->]; world_simpl; apply Hv.
  - eapply servers_inv_frame; [exact HS|destruct Ht as [-> | ->]; by world_simpl..].
  - eapply acct_inv_frame; [exact HI| |by destruct Ht as [-> | ->]].
    intros t' Ht'. apply maps_ins_ne. unfold acct_tables in Ht'. set_solver.
Qed.

Lemma join_runs w m r u sender st via n :
  member_ok w m -> ids_ok u r -> count_ok n w -> (2 <= n)%Z ->
  exists w', apply_membership debug cfg predecessor r u MJoin sender st via w = Done (Some w') /\
    member_ok w' (<[(u, r) := Joined]> m).
Proof.
  intros Hm Hid Hc Hn. pose proof Hid as [Hu Hr].
  assert (utf8_valid u = true /\ utf8_valid r = true) as [Hu8 Hr8]
    by (split; [by apply user_id_utf8|by apply room_id_utf8]).
  cbn [apply_membership]. unfold once_joined. rewrite has_key_ids by done. cbn [lift_m mbind outcome_bind].
  assert (exists w', (if negb (bool_decide (is_Some (maps w roomuseroncejoinedids !! pair_bytes u r))) then
    w0 ← lift_m (mark_as_once_joined debug u r w);
    match predecessor w0 r with Some pred => copy_from_predecessor debug r u pred w0 | None => Done w0 end
    else Done w) = Done w' /\ member_ok w' m) as (w1 & -> & Hm1).
  { case_bool_decide; cbn [negb]; [by eauto|]. unfold mark_as_once_joined.
    erewrite upd_put_raw by by apply (serialize_ids debug u r). cbn [lift_m mbind outcome_bind].
    set (w0 := ins _ _ _ _). assert (member_ok w0 m) as Hm0 by (apply member_ok_ins; [done|by right]).
    destruct (predecessor w0 r) as [p|] eqn:Ep; [|by eauto].
    destruct (copy_from_predecessor_ok w0 m r u p n) as (w' & ? & ? & _); [done|done|done|done|done|by eapply predecessor_ok|].
    by eauto. }
  cbn [mbind outcome_bind].
  destruct (mark_as_joined_refines debug w1 m u r) as (w' & -> & HA' & Hf & Hv' & Hg); [apply Hm1|apply Hm1|done|].
  cbn [lift_m mbind outcome_bind]. exists w'. split; [done|].
  eapply member_ok_marked; [exact Hm1|done|done|done|]. unfold current. rewrite Hg. lia.
Qed.

Lemma leave_runs w m r u ms sender st via n :
  ms = MLeave \/ ms = MBan ->
  member_ok w m -> ids_ok u r -> count_ok n w -> (1 <= n)%Z ->
  exists w', apply_membership debug cfg predecessor r u ms sender st via w = Done (Some w') /\
    member_ok w' (member_effect r u ms false (forgets r u w) m).
Proof.
  intros Hms Hm Hid Hc Hn.
  destruct (mark_as_left_refines debug w m u r n) as (w1 & E1 & HA & Hf & Hv & Hcur & _); [apply Hm|apply Hm|done..|].
  assert (is_banned r w1 = is_banned r w /\ is_disabled r w1 = is_disabled r w) as [Hb Hd].
  { unfold is_banned, is_disabled. rewrite !Hf by (unfold mark_tables; set_solver). done. }
  assert (member_ok w1 (<[(u, r) := Left]> m)) as Hm1 by (eapply member_ok_marked; [exact Hm|done|done|done|lia]).
  assert (apply_membership debug cfg predecessor r u ms sender st via w =
    if forgets r u w then w2 ← lift_m (forget debug r u w1); Done (Some w2) else Done (Some w1)) as ->.
  { unfold forgets. rewrite <- Hb, <- Hd. destruct Hms as [-> | ->]; cbn [apply_membership];
      rewrite E1; cbn [lift_m mbind outcome_bind]; done. }
  assert (member_effect r u ms false (forgets r u w) m =
    if forgets r u w then delete (u, r) m else <[(u, r) := Left]> m) as -> by by destruct Hms as [-> | ->].
  destruct (forgets r u w); [|by eauto].
  destruct (forget_refines debug w1 (<[(u, r) := Left]> m) u r) as (w2 & -> & HA2 & Hf2 & Hg2); [done..|].
  cbn [lift_m mbind outcome_bind]. exists w2. split; [done|]. rewrite leave_then_forget in HA2.
  assert (frame mark_tables w1 w2) as Hf2' by (eapply frame_mono; [exact Hf2|unfold mark_tables; set_solver]).
  eapply member_ok_marked; [exact Hm1|done|done| |unfold current; rewrite Hg2; lia].
  intros k v. rewrite Hf2 by set_solver. apply Hv.
Qed.

(** What [apply_membership] does for every membership. *)
Lemma apply_membership_runs w m r u ms sender st via n :
  member_ok w m -> ids_ok u r -> count_ok n w -> (2 <= n)%Z ->
  from_option (Forall (fun s => server_name_ok s = true)) True via ->
  exists ignored, user_is_ignored debug sender u w = Done ignored /\
  if decide (ms = MInvite /\ ignored = true)
  then apply_membership debug cfg predecessor r u ms sender st via w = Done None
  else exists w', apply_membership debug cfg predecessor r u ms sender st via w = Done (Some w') /\
    member_ok w' (member_effect r u ms ignored (forgets r u w) m).
Proof.
  intros Hm Hid Hc Hn Hvia. destruct (user_is_ignored_done sender u w) as [ig Hig]; [apply Hid|].
  exists ig. split; [done|]. case_decide as Hd.
  - destruct Hd as [-> ->]. cbn [apply_membership]. by rewrite Hig.
  - destruct ms; try (by eauto).
    + apply (leave_runs w m r u MBan sender st via n); [by right|done|done|done|lia].
    + destruct ig; [by destruct Hd|]. cbn [apply_membership]. rewrite Hig. cbn [lift_m mbind outcome_bind].
      destruct (mark_as_invited_refines debug w m u r st via n) as (w' & -> & HA & Hf & Hv & Hcur & _);
        [apply Hm|apply Hm|done|done|lia|done|]. cbn [lift_m mbind outcome_bind].
      exists w'. split; [done|]. eapply member_ok_marked; [exact Hm|done|done|done|lia].
    + apply (join_runs w m r u sender st via n); done.
    + apply (leave_runs w m r u MLeave sender st via n); [by left|done|done|done|lia].
Qed.

(** A ban is recorded like a departure: right after it, the membership that
    is read is that of a user who left. *)
Theorem ban_reads_as_leave w m r u sender st via n :
  member_ok w m -> ids_ok u r -> count_ok n w -> (1 <= n)%Z -> forgets r u w = false ->
  exists w', apply_membership debug cfg predecessor r u MBan sender st via w = Done (Some w') /\
    user_membership debug u r w' = Done (Some MLeave).
Proof.
  intros Hm Hid Hc Hn Hf. destruct (leave_runs w m r u MBan sender st via n) as (w' & -> & [(HA & _) _]);
    [by right|done..|]. rewrite Hf in HA. exists w'. split; [done|].
  rewrite (user_membership_reads debug w' _ u r HA Hid). cbn [member_effect]. by rewrite lookup_insert_eq.
Qed.

(** [update_membership] keeps the tables consistent and has the effect of the
    event: joining joins, leaving and a ban leave (or, for a local user under a
    forced forget or in a banned or disabled room, remove every trace), an
    invitation invites unless the invited user ignores the sender, which leaves
    the memberships and counts alone; and when asked to recount it leaves the
    room with exactly the servers of its joined users. *)
Theorem update_membership_effect s m r u ms sender st via cnt n :
  member_ok (world s) m -> ids_ok u r -> count_ok n (world s) -> (2 <= n)%Z ->
  from_option (Forall (fun s => server_name_ok s = true)) True via ->
  exists ignored s', user_is_ignored debug sender u (world s) = Done ignored /\
    update_membership debug cfg predecessor r u ms sender st via cnt s = Done s' /\
    let m' := member_effect r u ms ignored (forgets r u (world s)) m in
    cache_ok (world s') m' /\
    (cnt = true -> ~ (ms = MInvite /\ ignored = true) -> forall srv, server_name_ok srv = true ->
       is_Some (maps (world s') roomserverids !! pair_bytes r srv) <-> joined_server m' r srv).
Proof.
  intros Hm Hid Hc Hn Hvia. unfold update_membership.
  set (w0 := if _ && _ then user_create u (world s) else world s).
  assert (member_ok w0 m) as Hm0.
  { unfold w0. destruct (_ && _); [|done]. apply member_ok_ins; [done|by left]. }
  assert (count_ok n w0) as Hc0 by (unfold w0; by destruct (_ && _)).
  assert (forall t, t <> userid_password -> maps w0 t = maps (world s) t) as Hw0.
  { intros t Ht. unfold w0. destruct (_ && _); [by apply maps_ins_ne|done]. }
  assert (user_is_ignored debug sender u w0 = user_is_ignored debug sender u (world s)) as Hig0.
  { unfold user_is_ignored, get_global, get_raw. by rewrite !Hw0. }
  assert (forgets r u w0 = forgets r u (world s)) as Hfg.
  { unfold forgets, is_banned, is_disabled. by rewrite !Hw0. }
  destruct (apply_membership_runs w0 m r u ms sender st via n) as (ig & Hig & Hrun); [done..|].
  rewrite Hig0 in Hig. rewrite Hfg in Hrun. exists ig. case_decide as Hd.
  - rewrite Hrun. cbn [mbind outcome_bind]. eexists. split; [done|]. split; [done|].
    destruct Hd as [-> ->]. split; [apply Hm0|]. intros _ Hne. by destruct Hne.
  - destruct Hrun as (w1 & -> & Hm1). cbn [mbind outcome_bind]. destruct cnt.
    + destruct (run_joined_count debug (set_world s w1) (member_effect r u ms ig (forgets r u (world s)) m) r)
        as (w' & l & _ & -> & HA & HS & Hg & Hf & _ & Hsrv & _); [apply Hm1|apply Hm1|apply Hid|].
      cbn [lift_m]. eexists. split; [done|]. split; [done|]. split; [|done]. split; [done|]. split; [|done].
      intros k v. cbn [world]. rewrite Hf by set_solver. apply Hm1.
    + eexists. split; [done|]. split; [done|]. split; [apply Hm1|done].
Qed.

End update_membership.

(** ** Scans that answer something else *)

Section divergences.
Context (debug : bool) {E : Engine} {I : Ids} {Js : Json}.

Lemma prefix_before_sep (u u' x : bytes) : SEP ∉ u -> u `prefix_of` u' ++ SEP :: x -> u `prefix_of` u'.
Proof.
  intros Hu [y Hy]. revert u' Hy. induction u as [|b u IH]; intros u' Hy; [apply prefix_nil|].
  apply not_elem_of_cons in Hu as [Hb Hu]. destruct u' as [|b' u']; cbn in Hy; injection Hy as E' Hy; [done|].
  subst b'. by apply prefix_cons, IH.
Qed.

(** [rooms_joined] scans by the user id without the separator behind it, so
    it also lists the rooms of every user whose id begins with this one. *)
Theorem rooms_joined_by_prefix w m u :
  abstracts w m -> user_id_ok u = true ->
  exists l, rooms_joined debug u w = Done l /\
    forall r, r ∈ l <-> exists u', u `prefix_of` u' /\ ids_ok u' r /\ m !! (u', r) = Some Joined.
Proof.
  intros HA Hu. unfold rooms_joined. set (ks := raw_keys_prefix _ u).
  assert (forall k, k ∈ ks <-> exists u' r, k = pair_bytes u' r /\ u `prefix_of` u' /\ ids_ok u' r /\
            m !! (u', r) = Some Joined) as Hks.
  { intros k. unfold ks. rewrite elem_of_raw_keys_prefix. split.
    - intros [Hp Hs]. destruct (abs_user_keys _ _ HA Joined k Hs) as (u' & r & Hid & ->).
      exists u', r. split_and!; [done| |apply Hid..|by apply (abs_user _ _ HA Joined)].
      eapply prefix_before_sep; [by apply user_no_sep|done].
    - intros (u' & r & -> & Hp & Hid & Hm). split; [by apply prefix_app_r|by apply (abs_user _ _ HA Joined)]. }
  rewrite (ignore_err_total _ ks []).
  2: { intros k (u' & r & -> & _ & Hid & _)%Hks. eexists. unfold second_id, deserialize_key, pair_bytes.
       rewrite from_slice_ignore_text; [|by apply user_no_sep, Hid|by apply room_id_utf8, Hid].
       cbn [mbind outcome_bind]. by rewrite (proj2 Hid). }
  eexists. split; [done|]. intros r. rewrite list_elem_of_fmap. split.
  - intros (k & Er & (u' & r' & -> & Hp & Hid & Hm)%Hks). exists u'. revert Er.
    unfold second_id, deserialize_key, pair_bytes.
    rewrite from_slice_ignore_text; [|by apply user_no_sep, Hid|by apply room_id_utf8, Hid].
    cbn [mbind outcome_bind]. rewrite (proj2 Hid). by intros ->.
  - intros (u' & Hp & Hid & Hm). exists (pair_bytes u' r). split; [|apply Hks; by exists u', r].
    unfold second_id, deserialize_key, pair_bytes.
    rewrite from_slice_ignore_text; [|by apply user_no_sep, Hid|by apply room_id_utf8, Hid].
    cbn [mbind outcome_bind]. by rewrite (proj2 Hid).
Qed.

(** [room_useroncejoined] scans by the room a table whose keys begin with the
    user, so it never finds anybody. *)
Theorem once_joined_scan_empty w r :
  (forall k, is_Some (maps w roomuseroncejoinedids !! k) -> exists u r', ids_ok u r' /\ k = pair_bytes u r') ->
  room_id_ok r = true -> room_useroncejoined debug r w = Done [].
Proof.
  intros Hk Hr. unfold room_useroncejoined.
  destruct (scan_ids_exact debug user_id_ok (maps w roomuseroncejoinedids) r) as (l & -> & _ & Hl);
    [by apply room_no_sep| |].
  - intros k Hs Hp. destruct (Hk k Hs) as (u & r' & Hid & ->).
    apply interfix_prefix in Hp as <-; [|by apply room_no_sep|by apply user_no_sep, Hid].
    exfalso. apply (ids_disjoint r); [apply Hid|done].
  - destruct l as [|b l]; [done|]. exfalso. assert (b ∈ b :: l) as Hs%Hl by left.
    destruct (Hk _ Hs) as (u & r' & [Hu _] & Ek). apply sep_split in Ek as [<- _];
      [by eapply ids_disjoint|by apply room_no_sep|by apply user_no_sep].
Qed.

(** The servers of a row are read back as the last of them, so a new
    invitation forgets the others: the row becomes the last server together
    with the new ones. *)
Theorem invite_via_keeps_last w room l s servers :
  via_ok w -> room_id_ok room = true ->
  (forall k, is_Some (maps w roomid_inviteviaservers !! k) -> room `prefix_of` k -> k = room) ->
  servers_ok (l ++ [s]) -> maps w roomid_inviteviaservers !! room = Some (join_sep (l ++ [s])) ->
  exists w', add_servers_invite_via debug room servers w = Done w' /\
    maps w' roomid_inviteviaservers !! room =
      Some (join_sep (dedup (merge_sort ord_le (s :: servers)))).
Proof.
  intros Hv Hr Honly Hs Hrow. unfold add_servers_invite_via, servers_invite_via.
  assert (raw_stream_prefix (maps w roomid_inviteviaservers) room = [(room, join_sep (l ++ [s]))]) as ->.
  { rewrite raw_stream_prefix_rows. transitivity (filter (fun x : row => x.1 = room) (rows (maps w roomid_inviteviaservers))).
    - apply filter_ext_elem. intros [k v] Hk%elem_of_rows. unfold key_prefix. cbn. split; [|by intros ->].
      apply Honly. by eexists.
    - by rewrite filter_key_eq, Hrow. }
  cbn [fmap list_fmap ignore_err]. destruct (last_server_row debug room (l ++ [s]) Hs) as (s' & Hl & -> & _).
  rewrite last_snoc in Hl. injection Hl as <-. cbn [mbind outcome_bind]. eexists. split; [done|].
  world_simpl. apply lookup_insert_eq.
Qed.

End divergences.

(** ** Witnesses *)

Section empty.
Context {I : Ids}.

Lemma empty_not_Some (k : bytes) : ~ is_Some ((∅ : table) !! k).
Proof. intros [? ?]. done. Qed.

Lemma member_ok_empty c : member_ok (empty_world c) ∅.
Proof.
  split; [|apply acct_inv_empty]. split; [|split].
  - split.
    1-2: intros K u r _; split; [by intros ?%empty_not_Some|done].
    1-2: by intros K k ?%empty_not_Some.
  - by intros k v.
  - split; [by intros r s _ _; split; intros ?%empty_not_Some|by intros k ?%empty_not_Some..].
Qed.

End empty.

Definition toy_member_json : MemberJson :=
  {| de_tag := Some; de_direct := fun _ => None; ser_direct := fun _ => []; de_ignored := fun _ => None |}.

Definition toy_user : bytes := str "@a:b".
Definition toy_user2 : bytes := str "@a:bc".
Definition toy_room : bytes := str "!r:b".
Definition toy_cache : StateCache := MkCache (empty_world 41) ∅.

Lemma membership_refinement_witness :
  let ops := [OpInvite toy_user toy_room None None; OpJoin toy_user toy_room; OpLeave toy_user2 toy_room;
              OpCount toy_room] in
  exists s', try_fold (@run_op true list_engine toy_ids toy_arrays in_order) toy_cache ops = Done s' /\
    @cache_ok toy_ids (world s') (foldl abs_op ∅ ops).
Proof.
  intros ops. apply (@membership_refinement true list_engine toy_ids toy_arrays in_order).
  - apply member_ok_empty.
  - by repeat constructor.
  - by apply empty_world_ok.
Defined.

(** The world in which the longer-named user has joined. *)
Lemma toy_joined :
  exists w, @mark_as_joined true toy_user2 toy_room (empty_world 41) = Done w /\
    @abstracts toy_ids w {[ (toy_user2, toy_room) := Joined ]}.
Proof.
  destruct (@mark_as_joined_refines true toy_ids (empty_world 41) ∅ toy_user2 toy_room)
    as (w & H1 & H2 & _); [apply member_ok_empty|by intros ??|done|]. by exists w.
Qed.

Lemma user_membership_exact_witness :
  exists w, @abstracts toy_ids w {[ (toy_user2, toy_room) := Joined ]} /\
    user_membership true toy_user2 toy_room w = Done (Some MJoin).
Proof.
  destruct toy_joined as (w & _ & HA). exists w. split; [done|].
  apply (proj1 (@user_membership_exact true toy_ids w _ toy_user2 toy_room HA ltac:(done)) Joined).
  by vm_compute.
Defined.

Lemma room_members_exact_witness :
  exists w l, @abstracts toy_ids w {[ (toy_user2, toy_room) := Joined ]} /\
    @room_members true list_engine toy_ids toy_room w = Done l /\ toy_user2 ∈ l.
Proof.
  destruct toy_joined as (w & _ & HA). exists w.
  destruct (@room_members_exact true list_engine toy_ids w _ toy_room HA) as (l & _ & _ & H1 & _ & _ & _ & H2 & _); [done|].
  exists l. split_and!; [done|done|]. apply H2. by vm_compute.
Defined.

Lemma joined_count_exact_witness :
  exists s', @update_joined_count true list_engine toy_ids in_order toy_room toy_cache = Done s' /\
    room_joined_count true toy_room (world s') = Done 0%Z.
Proof.
  destruct (@member_ok_empty toy_ids 41) as [(HA & _ & HS) _].
  destruct (@joined_count_exact true list_engine toy_ids in_order toy_cache ∅ toy_room HA HS)
    as (s' & l & H1 & H2 & _ & _ & H3 & _); [done|]. exists s'. split; [done|]. rewrite H3. f_equal.
  assert (@room_members true list_engine toy_ids toy_room (empty_world 41) = Done []) as H4 by by vm_compute.
  cbn [world toy_cache] in H2. rewrite H4 in H2. injection H2 as <-. done.
Defined.

Definition toy_config : Config := MkConfig (str "c") false.

Lemma ban_reads_as_leave_witness :
  exists w', @apply_membership true list_engine toy_ids toy_arrays toy_json toy_member_json toy_config
      (fun _ _ => None) toy_room toy_user MBan toy_user None None (empty_world 41) = Done (Some w') /\
    user_membership true toy_user toy_room w' = Done (Some MLeave).
Proof.
  apply ban_reads_as_leave with (m := ∅) (n := 1%Z); try done. apply member_ok_empty.
Defined.

Lemma update_membership_effect_witness :
  exists ignored s', @user_is_ignored true toy_member_json toy_user toy_user (empty_world 41) = Done ignored /\
    @update_membership true list_engine toy_ids toy_arrays toy_json toy_member_json in_order toy_config
      (fun _ _ => None) toy_room toy_user MJoin toy_user None None true toy_cache = Done s' /\
    @cache_ok toy_ids (world s') {[ (toy_user, toy_room) := Joined ]}.
Proof.
  destruct (@update_membership_effect true list_engine toy_ids toy_arrays toy_json toy_member_json in_order
    toy_config (fun _ _ => None) ltac:(done) ltac:(done) toy_cache ∅ toy_room toy_user MJoin toy_user None None true 2)
    as (ig & s' & H1 & H2 & H3 & _); [apply member_ok_empty|done|by apply empty_world_ok|done|done|].
  exists ig, s'. exact (conj H1 (conj H2 H3)).
Defined.

Lemma rooms_joined_by_prefix_witness :
  exists w l, @abstracts toy_ids w {[ (toy_user2, toy_room) := Joined ]} /\
    @rooms_joined true list_engine toy_ids toy_user w = Done l /\ toy_room ∈ l.
Proof.
  destruct toy_joined as (w & _ & HA). exists w.
  destruct (@rooms_joined_by_prefix true list_engine toy_ids w _ toy_user HA) as (l & H1 & H2); [done|].
  exists l. split_and!; [done|done|]. apply H2. exists toy_user2. split; [by exists (str "c")|]. split; [done|].
  by vm_compute.
Defined.

Lemma once_joined_scan_empty_witness :
  exists w, @mark_as_once_joined true toy_user toy_room (empty_world 41) = Done w /\
    once_joined true toy_user toy_room w = Done true /\
    @room_useroncejoined true list_engine toy_ids toy_room w = Done [].
Proof.
  exists (ins roomuseroncejoinedids (pair_bytes toy_user toy_room) [] (empty_world 41)).
  split; [done|]. split; [by vm_compute|]. apply (@once_joined_scan_empty true list_engine toy_ids); [|done].
  intros k. world_simpl. rewrite insert_key_Some. intros [->|Hk]; [by exists toy_user, toy_room|].
  by apply empty_not_Some in Hk.
Defined.

Lemma invite_via_keeps_last_witness :
  let w := ins roomid_inviteviaservers toy_room (join_sep [str "a"; str "b"]) (empty_world 41) in
  exists w', @add_servers_invite_via true list_engine toy_ids toy_room [str "c"] w = Done w' /\
    maps w' roomid_inviteviaservers !! toy_room = Some (join_sep [str "b"; str "c"]).
Proof.
  intros w. assert (forall k, is_Some (maps w roomid_inviteviaservers !! k) -> k = toy_room) as Hk.
  { intros k. unfold w. world_simpl. rewrite insert_key_Some. intros [->|Hk]; [done|]. by apply empty_not_Some in Hk. }
  destruct (@invite_via_keeps_last true list_engine toy_ids w toy_room [str "a"] (str "b") [str "c"])
    as (w' & H1 & H2); [|done|by intros k ?%Hk|by split; [|repeat constructor]| |].
  - intros k v Hv. pose proof (Hk k ltac:(by eexists)) as ->. exists [str "a"; str "b"].
    split; [by split; [|repeat constructor]|]. revert Hv. unfold w. world_simpl. rewrite lookup_insert_eq. congruence.
  - unfold w. world_simpl. apply lookup_insert_eq.
  - exists w'. split; [done|]. rewrite H2. by vm_compute.
Defined.
