(* ===== verification/Sending.v ===== *)
(** * The queue of outgoing transactions

    Models [src/service/sending/dest.rs], [data.rs], and of [sender.rs] and
    [mod.rs] what a sender worker does with a request and with a response:
    which events are queued, which are in flight, and when a destination is
    tried again.  [SenderSystem] runs the workers.

    What a transaction looks like on the wire, and whether it is delivered, is
    the environment's: a future is its destination and events. *)

From stdpp Require Import prelude gmap strings list sorting.
From Stdlib Require Import ZArith Lia.
From Stdlib Require Import Strings.Byte.
From S2P Require Import Prelude MachineInt PduCount DbCodec DbMap CoreUtils Short World.
Import PduId.

Inductive Destination :=
| Appservice (id : bytes)
| Push (user pushkey : bytes)
| Federation (server : bytes).

#[export] Instance Destination_eq_dec : EqDecision Destination.
Proof. solve_decision. Defined.

#[export] Instance Destination_countable : Countable Destination.
Proof.
  refine (inj_countable'
    (fun d => match d with
              | Appservice s => inl s | Push u p => inr (inl (u, p)) | Federation s => inr (inr s)
              end)
    (fun x => match x with
              | inl s => Appservice s | inr (inl (u, p)) => Push u p | inr (inr s) => Federation s
              end) _).
  by intros [].
Defined.

Inductive SendingEvent := Pdu (id : RawId) | Edu (buf : bytes) | Flush.

#[export] Instance RawId_eq_dec : EqDecision RawId.
Proof. solve_decision. Defined.
#[export] Instance SendingEvent_eq_dec : EqDecision SendingEvent.
Proof. solve_decision. Defined.

Record Msg := MkMsg { msg_dest : Destination; msg_event : SendingEvent; msg_queue_id : bytes }.

Abbreviation QueueItem := (bytes * SendingEvent)%type.

(** ** Keys: [dest.rs] *)

Definition PLUS : byte := x2b.
Definition DOLLAR : byte := x24.

Definition get_prefix (self : Destination) : bytes :=
  match self with
  | Federation server => server ++ [SEP]
  | Appservice server => [PLUS] ++ server ++ [SEP]
  | Push user pushkey => [DOLLAR] ++ user ++ [SEP] ++ pushkey ++ [SEP]
  end.

(** [splitn(n, |&b| b == 0xFF)]. *)
Fixpoint split_sep (b : bytes) : option (bytes * bytes) :=
  match b with
  | [] => None
  | x :: b =>
      if decide (x = SEP) then Some ([], b)
      else '(a, r) ← split_sep b; Some (x :: a, r)
  end.

Fixpoint splitn (n : nat) (b : bytes) : list bytes :=
  match n with
  | O => []
  | S O => [b]
  | S n => match split_sep b with None => [b] | Some (a, r) => a :: splitn n r end
  end.

Inductive BadDatabase := BadBytes | BadServer | BadUser | BadPushkey.

(** [.expect(…)] on a result. *)
Definition expect_ok {E E' A} (o : outcome E A) : outcome E' A :=
  match o with Done a => Done a | Fail _ | Panic => Panic | OutOfFuel => OutOfFuel end.

Definition utf8_or {E} (e : E) (b : bytes) : outcome E bytes :=
  match str_from_bytes b with Done s => Done s | _ => Fail e end.

Section sending.
Context (debug : bool) {E : Engine} {I : Ids}.

(** [SendingEvent::Pdu(event.into())], whose conversion panics on a wrong
    length, or [SendingEvent::Edu(value.into())]. *)
Definition parse_event (event value : bytes) : outcome BadDatabase SendingEvent :=
  if decide (value = []) then id ← expect_ok (raw_from_bytes event); Done (Pdu id)
  else Done (Edu value).

Definition parse_servercurrentevent (key value : bytes) : outcome BadDatabase (Destination * SendingEvent) :=
  match key with
  | [] => Fail BadBytes
  | x :: key' =>
      if decide (x = PLUS) then
        let parts := splitn 2 key' in
        server ← expect (parts !! 0);
        event ← ok_or BadBytes (parts !! 1);
        server ← utf8_or BadServer server;
        event ← parse_event event value;
        Done (Appservice server, event)
      else if decide (x = DOLLAR) then
        let parts := splitn 3 key' in
        user ← expect (parts !! 0);
        user_string ← utf8_or BadUser user;
        user_id ← (if user_id_ok user_string then Done user_string else Fail BadUser);
        pushkey ← ok_or BadBytes (parts !! 1);
        pushkey_string ← utf8_or BadPushkey pushkey;
        event ← ok_or BadBytes (parts !! 2);
        event ← parse_event event value;
        Done (Push user_id pushkey_string, event)
      else
        let parts := splitn 2 key in
        server ← expect (parts !! 0);
        event ← ok_or BadBytes (parts !! 1);
        server ← utf8_or BadServer server;
        server ← (if server_name_ok server then Done server else Fail BadServer);
        event ← parse_event event value;
        Done (Federation server, event)
  end.

(** ** The tables: [data.rs] *)

Definition delete_active_request (key : bytes) (w : World) : World := rem servercurrentevent_data key w.

(** The keys of a scan, each removed as it is met. *)
Definition delete_prefix (t : tbl) (prefix : bytes) (w : World) : World :=
  foldl (fun w key => rem t key w) w (raw_keys_prefix (maps w t) prefix).

Definition delete_all_active_requests_for (destination : Destination) (w : World) : World :=
  delete_prefix servercurrentevent_data (get_prefix destination) w.

Definition delete_all_requests_for (destination : Destination) (w : World) : World :=
  let prefix := get_prefix destination in
  let w := delete_prefix servercurrentevent_data prefix w in
  delete_prefix servernameevent_data prefix w.

(** What is stored for an event. *)
Definition event_value (event : SendingEvent) : bytes :=
  match event with Edu val => val | _ => [] end.

Definition mark_one (w : World) (item : QueueItem) : World :=
  rem servernameevent_data item.1 (ins servercurrentevent_data item.1 (event_value item.2) w).

Definition mark_as_active (events : list QueueItem) (w : World) : World :=
  foldl mark_one w (filter (fun item => item.1 <> []) events).

(** A row of a stream as the item it is read to, once it is polled. *)
Definition item_of (r : row) : outcome CodecError (bytes * SendingEvent * Destination) :=
  '(dest, event) ← expect_ok (parse_servercurrentevent r.1 r.2); Done (r.1, event, dest).

Definition queue_item_of (r : row) : outcome CodecError QueueItem :=
  '(_, event) ← expect_ok (parse_servercurrentevent r.1 r.2); Done (r.1, event).

Definition active_requests (w : World) : outcome CodecError (list (bytes * SendingEvent * Destination)) :=
  try_map item_of (raw_stream (maps w servercurrentevent_data)).

Definition rows_for (t : tbl) (destination : Destination) (w : World) : list row :=
  let prefix := get_prefix destination in
  take_while (key_prefix prefix) (raw_stream_from (maps w t) prefix).

Definition active_requests_for (destination : Destination) (w : World) : outcome CodecError (list QueueItem) :=
  try_map queue_item_of (rows_for servercurrentevent_data destination w).

(** [queued_requests(destination).take(n)]: later rows are not read. *)
Definition queued_requests (destination : Destination) (n : nat) (w : World)
    : outcome CodecError (list QueueItem) :=
  try_map queue_item_of (take n (rows_for servernameevent_data destination w)).

Fixpoint request_keys (requests : list (SendingEvent * Destination)) (w : World)
    : outcome CodecError (list bytes * World) :=
  match requests with
  | [] => Done ([], w)
  | (event, dest) :: requests =>
      '(suffix, w) ← (match event with
                      | Pdu value => Done (as_bytes value, w)
                      | _ => '(count, w) ← next_count debug w; Done (u64_to_be_bytes count, w)
                      end : outcome CodecError (bytes * World));
      '(keys, w) ← request_keys requests w;
      Done ((get_prefix dest ++ suffix) :: keys, w)
  end.

Definition queue_requests (requests : list (SendingEvent * Destination)) (w : World)
    : outcome CodecError (list bytes * World) :=
  '(keys, w) ← request_keys requests w;
  Done (keys, set_map servernameevent_data
                (insert_batch (maps w servernameevent_data) (zip keys (event_value <$> requests.*1))) w).

Definition set_latest_educount (server_name : bytes) (last_count : Z) (w : World) : outcome CodecError World :=
  upd servername_educount (fun t => raw_put debug t server_name (VU64 last_count)) w.

Definition get_latest_educount (server_name : bytes) (w : World) : outcome CodecError Z :=
  match deserialized debug TU64 (get (maps w servername_educount) server_name) with
  | Done (VU64 n) => Done n
  | Fail _ => Done 0%Z
  | OutOfFuel => OutOfFuel
  | _ => Panic
  end.

End sending.

Arguments rows_for : simpl never.

(** ** Workers: [sender.rs] *)

Inductive TransactionStatus :=
| Running
| Failed (tries time : Z)       (** number of times failed, time of last failure *)
| Retrying (tries : Z).

Definition DEQUEUE_LIMIT : nat := 48.
Definition PDU_LIMIT : nat := 50.
Definition EDU_LIMIT : nat := 100.
Definition SELECT_EDU_LIMIT : nat := EDU_LIMIT - 2.
Definition SELECT_PRESENCE_LIMIT : nat := 256.
Definition SELECT_RECEIPT_LIMIT : nat := 256.

Abbreviation CurTransactionStatus := (gmap Destination TransactionStatus).
Abbreviation Transaction := (Destination * list SendingEvent)%type.

Record SenderConfig := MkSenderConfig {
  sender_timeout : Z; sender_retry_backoff_limit : Z;
  startup_netburst_on : bool; startup_netburst_keep : Z }.

(** What a worker needs of the selection of ephemeral events. *)
Class EduSource := {
  select_edus : bytes -> World -> outcome CodecError (list bytes * Z);
  select_edus_limit : forall s w edus n, select_edus s w = Done (edus, n) -> length edus <= EDU_LIMIT }.

Section sender.
Context (debug : bool) {E : Engine} {I : Ids} {Ed : EduSource} (config : SenderConfig).

Definition u32_max : Z := 2 ^ 32 - 1.

(** [Instant::elapsed], which does not go below zero. *)
Definition elapsed (now time : Z) : Z := Z.max 0 (now - time).

Definition is_appservice (d : Destination) : bool :=
  match d with Appservice _ => true | _ => false end.

Definition handle_response_err (dest : Destination) (now : Z) (statuses : CurTransactionStatus)
    : outcome CodecError CurTransactionStatus :=
  match statuses !! dest with
  | None => Done statuses
  | Some Running => Done (<[dest := Failed 1 now]> statuses)
  | Some (Retrying n) => Done (<[dest := Failed (Z.min u32_max (n + 1)) now]> statuses)
  | Some (Failed _ _) => Panic
  end.

(** Boxes a future for the transaction; an empty one is refused in debug builds. *)
Definition send_events (dest : Destination) (events : list SendingEvent) : outcome CodecError Transaction :=
  if debug && bool_decide (events = []) then Panic else Done (dest, events).

Definition handle_response_ok (dest : Destination) (w : World) (futures : list Transaction)
    (statuses : CurTransactionStatus)
    : outcome CodecError (World * list Transaction * CurTransactionStatus) :=
  let w := delete_all_active_requests_for dest w in
  new_events ← queued_requests dest DEQUEUE_LIMIT w;
  if decide (new_events <> []) then
    let w := mark_as_active new_events w in
    future ← send_events dest new_events.*2;
    Done (w, futures ++ [future], statuses)
  else Done (w, futures, delete dest statuses).

(** [(allow, retry)] and the statuses. *)
Definition select_events_current (dest : Destination) (now : Z) (statuses : CurTransactionStatus)
    : bool * bool * CurTransactionStatus :=
  match statuses !! dest with
  | None => (true, false, <[dest := Running]> statuses)
  | Some (Failed tries time) =>
      if Time.continue_exponential_backoff_secs (sender_timeout config)
           (sender_retry_backoff_limit config) (elapsed now time) tries
         && negb (is_appservice dest)
      then (false, false, statuses)
      else (true, true, <[dest := Retrying tries]> statuses)
  | Some Running | Some (Retrying _) => (false, false, statuses)
  end.

(** The ephemeral events of a federation transaction, [if let Ok(…)]. *)
Definition add_edus (dest : Destination) (events : list SendingEvent) (w : World)
    : outcome CodecError (list SendingEvent * World) :=
  match dest with
  | Federation server_name =>
      match select_edus server_name w with
      | Done (edus, last_count) =>
          if debug && negb (bool_decide (length edus <= EDU_LIMIT)) then Panic
          else
            w ← set_latest_educount debug server_name last_count w;
            Done (events ++ (Edu <$> edus), w)
      | Fail _ => Done (events, w)
      | Panic => Panic
      | OutOfFuel => OutOfFuel
      end
  | _ => Done (events, w)
  end.

Definition select_events (dest : Destination) (new_events : list QueueItem) (now : Z) (w : World)
    (statuses : CurTransactionStatus)
    : outcome CodecError (option (list SendingEvent) * World * CurTransactionStatus) :=
  let '(allow, retry, statuses) := select_events_current dest now statuses in
  if negb allow then Done (None, w, statuses)
  else if (retry : bool) then
    items ← active_requests_for dest w;
    Done (Some items.*2, w, statuses)
  else
    let '(events, w) :=
      if decide (new_events <> []) then (new_events.*2, mark_as_active new_events w) else ([], w) in
    '(events, w) ← add_edus dest events w;
    Done (Some events, w, statuses).

Definition handle_request (msg : Msg) (now : Z) (w : World) (futures : list Transaction)
    (statuses : CurTransactionStatus)
    : outcome CodecError (World * list Transaction * CurTransactionStatus) :=
  let iv := [(msg_queue_id msg, msg_event msg)] in
  match select_events (msg_dest msg) iv now w statuses with
  | Done (Some events, w, statuses) =>
      if decide (events <> []) then
        future ← send_events (msg_dest msg) events;
        Done (w, futures ++ [future], statuses)
      else Done (w, futures, delete (msg_dest msg) statuses)
  | Done (None, w, statuses) => Done (w, futures, statuses)
  | Fail _ => Done (w, futures, statuses)
  | Panic => Panic
  | OutOfFuel => OutOfFuel
  end.

(** The responses that arrive before the deadline at shutdown. *)
Definition finish_response (w : World) (response : Destination * bool) : World :=
  if response.2 then delete_all_active_requests_for response.1 w else w.
Definition finish_responses (responses : list (Destination * bool)) (w : World) : World :=
  foldl finish_response w responses.

(** *** Startup *)

Context {Sc : Schedule}.

Abbreviation txns := (gmap Destination (list SendingEvent)).

(** [usize::try_from(startup_netburst_keep).unwrap_or(usize::MAX)] *)
Definition netburst_keep : Z :=
  if (0 <=? startup_netburst_keep config)%Z then startup_netburst_keep config else u64_max.

Definition netburst_item (shard : Destination -> nat) (id : nat) (s : World * txns)
    (item : bytes * SendingEvent * Destination) : World * txns :=
  let '(w, txns) := s in
  let '(key, event, dest) := item in
  if negb (shard dest =? id) then s
  else
    let entry := default [] (txns !! dest) in
    if (0 <=? startup_netburst_keep config)%Z && (netburst_keep <=? Z.of_nat (length entry))%Z
    then (delete_active_request key w, <[dest := entry]> txns)
    else (w, <[dest := entry ++ [event]]> txns).

Definition netburst_start (s : list Transaction * CurTransactionStatus) (txn : Destination * list SendingEvent)
    : outcome CodecError (list Transaction * CurTransactionStatus) :=
  let '(futures, statuses) := s in
  let '(dest, events) := txn in
  if startup_netburst_on config && negb (bool_decide (events = [])) then
    future ← send_events dest events;
    Done (futures ++ [future], <[dest := Running]> statuses)
  else Done s.

Definition startup_netburst (shard : Destination -> nat) (id : nat) (w : World)
    : outcome CodecError (World * list Transaction * CurTransactionStatus) :=
  items ← active_requests w;
  let '(w, txns) := foldl (netburst_item shard id) (w, ∅) items in
  '(futures, statuses) ← try_fold netburst_start ([], ∅) (reorder "startup_netburst" (map_to_list txns));
  Done (w, futures, statuses).

End sender.

(** ** Keys and what is read from them *)

Lemma split_sep_Some b a r : split_sep b = Some (a, r) <-> SEP ∉ a /\ b = a ++ SEP :: r.
Proof.
  revert a. induction b as [|x b IH]; intros a; cbn [split_sep].
  { split; [done|]. intros [_ H]. by destruct a. }
  case_decide as Hx.
  - subst x. split; [intros [= <- <-]; split; [apply not_elem_of_nil|done]|].
    intros [Ha E]. destruct a as [|y a]; injection E as; [congruence|subst; set_solver].
  - split.
    + destruct (split_sep b) as [[a' r']|] eqn:Eb; [|done]. intros [= <- <-].
      destruct (proj1 (IH a')) as [Ha ->]; [done|]. split; [set_solver|done].
    + intros [Ha Eq]. destruct a as [|y a]; cbn in Eq; injection Eq as -> Eq; [done|].
      rewrite (proj2 (IH a)); [done|]. split; [set_solver|done].
Qed.

Lemma split_sep_app a r : SEP ∉ a -> split_sep (a ++ SEP :: r) = Some (a, r).
Proof. intros. by apply split_sep_Some. Qed.

Section keys.
Context {I : Ids}.

(** A destination whose identifiers are valid. *)
Definition dest_ok (d : Destination) : Prop :=
  match d with
  | Appservice id => utf8_valid id = true
  | Push user pushkey => user_id_ok user = true /\ utf8_valid pushkey = true
  | Federation server => server_name_ok server = true
  end.

(** What follows the prefix of a key, and the value, for an event. *)
Definition event_row (e : SendingEvent) (suffix value : bytes) : Prop :=
  match e with
  | Pdu id => raw_typed id /\ suffix = as_bytes id /\ value = []
  | Edu buf => value = buf /\ buf <> []
  | Flush => False
  end.

Lemma parse_event_Done event value e :
  parse_event event value = Done e <-> event_row e event value.
Proof.
  unfold parse_event. case_decide as Hv.
  - subst value. split.
    + intros H. bind_inv H. injection H as <-.
      destruct (raw_from_bytes event) eqn:Er; try done. injection H0 as <-.
      apply raw_from_bytes_Done in Er as [? <-]. done.
    + destruct e as [id|buf|]; cbn; [|naive_solver..]. intros (Ht & -> & _).
      by rewrite raw_from_bytes_as_bytes.
  - split; [intros [= <-]; done|]. destruct e as [id|buf|]; cbn; naive_solver.
Qed.

Lemma utf8_or_Done {Er} (e : Er) b s : utf8_or e b = Done s <-> utf8_valid b = true /\ s = b.
Proof. unfold utf8_or, str_from_bytes. destruct (utf8_valid b); naive_solver. Qed.

Lemma splitn_2 b a r : splitn 2 b !! 0 = Some a /\ splitn 2 b !! 1 = Some r <-> split_sep b = Some (a, r).
Proof. cbn. destruct (split_sep b) as [[]|]; cbn; naive_solver. Qed.

Lemma splitn_3 b a p r :
  splitn 3 b !! 0 = Some a /\ splitn 3 b !! 1 = Some p /\ splitn 3 b !! 2 = Some r <->
  exists b', split_sep b = Some (a, b') /\ split_sep b' = Some (p, r).
Proof.
  cbn [splitn]. destruct (split_sep b) as [[a' b']|]; [|cbn; naive_solver].
  destruct (split_sep b') as [[]|] eqn:Eb; cbn; naive_solver.
Qed.

Lemma expect_Some {Er A} (o : option A) a : (expect o : outcome Er A) = Done a <-> o = Some a.
Proof. destruct o; cbn; naive_solver. Qed.

Lemma parse_sound key value d e :
  parse_servercurrentevent key value = Done (d, e) ->
  dest_ok d /\ exists suffix, key = get_prefix d ++ suffix /\ event_row e suffix value.
Proof.
  destruct key as [|x key']; [done|]. unfold parse_servercurrentevent.
  destruct (decide (x = PLUS)) as [->|Nx]; [|destruct (decide (x = DOLLAR)) as [->|Nx']].
  - intros H. bind_invs H. injection H as <- <-.
    apply expect_Some in H0. apply ok_or_Done in H1. apply utf8_or_Done in H2 as [Hu ->].
    destruct (proj1 (split_sep_Some _ _ _) (proj1 (splitn_2 _ _ _) (conj H0 H1))) as [_ ->].
    split; [done|]. exists a0. split; [cbn; by norm_app|by apply parse_event_Done].
  - intros H. bind_invs H. injection H as <- <-. apply expect_Some in H0.
    apply utf8_or_Done in H1 as [Hu ->]. destruct (user_id_ok a) eqn:Eu; [|done]. injection H2 as <-.
    apply ok_or_Done in H3. apply utf8_or_Done in H4 as [Hp ->]. apply ok_or_Done in H5.
    destruct (proj1 (splitn_3 key' a a2 a4)) as (b' & [_ ->]%split_sep_Some & [_ ->]%split_sep_Some); [done|].
    split; [done|]. exists a4. split; [cbn; by norm_app|by apply parse_event_Done].
  - intros H. bind_invs H. injection H as <- <-.
    apply expect_Some in H0. apply ok_or_Done in H1. apply utf8_or_Done in H2 as [Hu ->].
    destruct (server_name_ok a) eqn:Es; [|done]. injection H3 as <-.
    destruct (proj1 (split_sep_Some _ _ _) (proj1 (splitn_2 _ _ _) (conj H0 H1))) as [_ ->].
    split; [done|]. exists a0. split; [cbn; by norm_app|by apply parse_event_Done].
Qed.

(** Steps through a reader whose parts are known to be there. *)
Ltac parse_step :=
  norm_app; cbn [splitn]; repeat rewrite split_sep_app by eauto with ids;
  cbn [lookup list_lookup expect ok_or mbind outcome_bind].

Lemma utf8_or_ok {Er} (e : Er) b : utf8_valid b = true -> utf8_or e b = Done b.
Proof. intros. by apply utf8_or_Done. Qed.

Lemma parse_complete value d e suffix :
  dest_ok d -> event_row e suffix value ->
  parse_servercurrentevent (get_prefix d ++ suffix) value = Done (d, e).
Proof.
  intros Hd He%parse_event_Done.
  destruct d as [id|user pushkey|server]; cbn [get_prefix dest_ok] in *.
  - cbn [app]. unfold parse_servercurrentevent. rewrite decide_True by done. parse_step.
    rewrite utf8_or_ok by done. cbn [mbind outcome_bind]. by rewrite He.
  - destruct Hd as [Hu Hp]. cbn [app]. unfold parse_servercurrentevent.
    rewrite decide_False, decide_True by done. parse_step.
    rewrite (utf8_or_ok _ user) by by apply user_id_utf8. cbn [mbind outcome_bind]. rewrite Hu.
    cbn [mbind outcome_bind]. rewrite utf8_or_ok by done. cbn [mbind outcome_bind]. by rewrite He.
  - destruct (server_name_head _ Hd) as [H1 H2]. pose proof (server_name_utf8 _ Hd) as Hu.
    destruct server as [|x s]; [by apply server_name_nonempty in Hd|].
    unfold parse_servercurrentevent. cbn [app].
    rewrite decide_False by (intros ->; done). rewrite decide_False by (intros ->; done).
    change (x :: (s ++ [SEP]) ++ suffix) with (((x :: s) ++ [SEP]) ++ suffix). parse_step.
    change (x :: s ++ SEP :: suffix) with ((x :: s) ++ SEP :: suffix). parse_step.
    rewrite utf8_or_ok by done. cbn [mbind outcome_bind]. rewrite Hd. cbn [mbind outcome_bind]. by rewrite He.
Qed.

(** A stored row is read as exactly the destination and the event whose key and
    value it holds. *)
Lemma parse_exact key value d e :
  parse_servercurrentevent key value = Done (d, e) <->
  dest_ok d /\ exists suffix, key = get_prefix d ++ suffix /\ event_row e suffix value.
Proof. split; [apply parse_sound|]. intros (Hd & s & -> & He). by apply parse_complete. Qed.

(** The key and the value determine the destination and the event, so the rows
    of a destination are those that begin with its prefix. *)
Lemma get_prefix_free d d' key :
  dest_ok d -> dest_ok d' -> get_prefix d `prefix_of` key -> get_prefix d' `prefix_of` key -> d = d'.
Proof.
  intros Hd Hd' [s ->] [s' Hs].
  pose proof (parse_complete [x00] d (Edu [x00]) s Hd ltac:(done)) as H1.
  pose proof (parse_complete [x00] d' (Edu [x00]) s' Hd' ltac:(done)) as H2.
  rewrite <- Hs in H2. congruence.
Qed.

Lemma parse_prefix key value d d' e :
  dest_ok d -> parse_servercurrentevent key value = Done (d', e) ->
  get_prefix d `prefix_of` key <-> d = d'.
Proof.
  intros Hd (Hd' & s' & -> & He)%parse_exact. split; [|by intros <-; exists s'].
  intros Hs. apply (get_prefix_free d d' (get_prefix d' ++ s')); [done|done|done|by exists s'].
Qed.

End keys.

(** ** What the operations do to the two tables *)

Section tables.
Context {E : Engine} {I : Ids}.

Abbreviation active w := (maps w servercurrentevent_data).
Abbreviation queue w := (maps w servernameevent_data).

(** The two tables a worker writes besides the counts of ephemeral events. *)
Definition send_tables : list tbl := [servercurrentevent_data; servernameevent_data].

Lemma foldl_rem_maps t l w :
  (forall k, maps (foldl (fun w key => rem t key w) w l) t !! k = if decide (k ∈ l) then None else maps w t !! k)
  /\ (forall t', t' <> t -> maps (foldl (fun w key => rem t key w) w l) t' = maps w t')
  /\ globals (foldl (fun w key => rem t key w) w l) = globals w.
Proof.
  revert w. induction l as [|x l IH]; intros w; cbn [foldl]; [by split_and!|].
  destruct (IH (rem t x w)) as (H1 & H2 & ->). split_and!; [|intros; rewrite H2; by autorewrite with world|done].
  intros k. rewrite H1, maps_rem_eq. destruct (decide (k = x)) as [->|Hx].
  - rewrite lookup_delete_eq, (decide_True (P := x ∈ x :: l)) by left. by case_decide.
  - rewrite lookup_delete_ne by done. repeat case_decide; set_solver.
Qed.

Lemma delete_prefix_lookup t p w k :
  maps (delete_prefix t p w) t !! k = if decide (p `prefix_of` k) then None else maps w t !! k.
Proof.
  unfold delete_prefix. rewrite (proj1 (foldl_rem_maps _ _ _)).
  destruct (maps w t !! k) as [v|] eqn:Ek; [|by repeat case_match].
  rewrite (decide_ext _ (p `prefix_of` k)); [done|]. rewrite elem_of_raw_keys_prefix, Ek. naive_solver.
Qed.

Lemma delete_prefix_other t t' p w : t' <> t -> maps (delete_prefix t p w) t' = maps w t'.
Proof. apply (foldl_rem_maps t). Qed.

Lemma delete_prefix_globals t p w : globals (delete_prefix t p w) = globals w.
Proof. apply (foldl_rem_maps t). Qed.

Lemma mark_one_maps w k e k' :
  active (mark_one w (k, e)) !! k' = (if decide (k = k') then Some (event_value e) else active w !! k')
  /\ queue (mark_one w (k, e)) !! k' = (if decide (k = k') then None else queue w !! k').
Proof.
  unfold mark_one. cbn [fst snd]. autorewrite with world.
  case_decide; subst; by simplify_map_eq.
Qed.

(** Marking moves rows from the queue to the active ones. *)
Lemma mark_as_active_maps evs w :
  let w' := mark_as_active evs w in
  (forall k, queue w' !! k = if decide (k ∈ evs.*1 /\ k <> []) then None else queue w !! k)
  /\ (forall k, k ∉ evs.*1 \/ k = [] -> active w' !! k = active w !! k)
  /\ (forall k, k ∈ evs.*1 -> k <> [] -> exists e, (k, e) ∈ evs /\ active w' !! k = Some (event_value e))
  /\ frame send_tables w w' /\ globals w' = globals w.
Proof.
  unfold mark_as_active. revert w. induction evs as [|[k0 e0] evs IH]; intros w.
  { cbn. split_and!; [|done|intros ? []%not_elem_of_nil|done..]. intros k. rewrite decide_False; [done|]. set_solver. }
  rewrite filter_cons. case_decide as H0; cbn [fst] in H0.
  - cbn [foldl]. destruct (IH (mark_one w (k0, e0))) as (H1 & H2 & H3 & H4 & H5).
    split_and!.
    + intros k. rewrite H1, (proj2 (mark_one_maps w k0 e0 k)). cbn [fmap list_fmap fst].
      repeat case_decide; set_solver.
    + intros k Hk. rewrite H2, (proj1 (mark_one_maps w k0 e0 k)) by set_solver.
      case_decide; [subst; set_solver|done].
    + intros k Hk Hn. destruct (decide (k ∈ evs.*1)) as [Hin|Hin].
      { destruct (H3 k Hin Hn) as (e & He & ->). exists e. split; [by right|done]. }
      assert (k = k0) as -> by set_solver. exists e0. split; [by left|].
      rewrite H2, (proj1 (mark_one_maps w k0 e0 k0)) by set_solver. by rewrite decide_True.
    + eapply frame_trans; [|exact H4]. unfold mark_one.
      eapply frame_trans; [apply (frame_ins _ servercurrentevent_data)|apply frame_rem]; unfold send_tables; set_solver.
    + rewrite H5. done.
  - destruct (IH w) as (H1 & H2 & H3 & H4 & H5). split_and!; try done.
    + intros k. rewrite H1. cbn [fmap list_fmap fst]. repeat case_decide; set_solver.
    + intros k Hk. apply H2. set_solver.
    + intros k Hk Hn. destruct (H3 k) as (e & He & ->); [set_solver|done|]. exists e. split; [by right|done].
Qed.

Lemma rows_for_filter t d w : rows_for t d w = filter (key_prefix (get_prefix d)) (rows (maps w t)).
Proof. unfold rows_for. rewrite raw_stream_from_rows. apply take_while_filter_prefix, rows_sorted. Qed.

(** Every row of a table is the row of some event for a valid destination. *)
Definition rows_ok (t : table) : Prop :=
  forall k v, t !! k = Some v -> exists d e, parse_servercurrentevent k v = Done (d, e).

Definition row_event (r : row) : SendingEvent :=
  match parse_servercurrentevent r.1 r.2 with Done (_, e) => e | _ => Flush end.

Lemma rows_for_elem t d w k v :
  (k, v) ∈ rows_for t d w <-> get_prefix d `prefix_of` k /\ maps w t !! k = Some v.
Proof. rewrite rows_for_filter, list_elem_of_filter, elem_of_rows. done. Qed.

Lemma rows_for_NoDup t d w : NoDup (rows_for t d w).*1.
Proof. rewrite rows_for_filter. apply NoDup_fmap_fst_filter, rows_NoDup_keys. Qed.

Lemma rows_for_unique t d w l :
  StronglySorted key_le l -> NoDup l.*1 ->
  (forall k v, (k, v) ∈ l <-> get_prefix d `prefix_of` k /\ maps w t !! k = Some v) -> rows_for t d w = l.
Proof.
  intros Hs Hn Hl. apply sorted_rows_unique; [|done|apply rows_for_NoDup|].
  - rewrite rows_for_filter. apply filter_sorted, rows_sorted.
  - apply NoDup_Permutation; [eapply NoDup_fmap_1, rows_for_NoDup|by eapply NoDup_fmap_1|].
    intros [k v]. by rewrite rows_for_elem, Hl.
Qed.

Lemma rows_for_sorted t d w : StronglySorted key_le (rows_for t d w).
Proof. rewrite rows_for_filter. apply filter_sorted, rows_sorted. Qed.

Lemma rows_for_ext t d w w' :
  (forall k, get_prefix d `prefix_of` k -> maps w' t !! k = maps w t !! k) -> rows_for t d w' = rows_for t d w.
Proof.
  intros H. apply rows_for_unique; [apply rows_for_sorted|apply rows_for_NoDup|].
  intros k v. rewrite rows_for_elem. split; intros [Hp Hk]; (split; [done|]); [rewrite H|rewrite <- H]; done.
Qed.

Lemma rows_for_parse t d w r :
  dest_ok d -> rows_ok (maps w t) -> r ∈ rows_for t d w ->
  parse_servercurrentevent r.1 r.2 = Done (d, row_event r).
Proof.
  intros Hd Ho Hr. destruct r as [k v]. apply rows_for_elem in Hr as [Hp Hk].
  destruct (Ho k v Hk) as (d' & e & Hq). unfold row_event. cbn [fst snd]. rewrite Hq.
  by rewrite (proj1 (parse_prefix k v d d' e Hd Hq) Hp).
Qed.

Lemma try_map_done {Er A B} (f : A -> outcome Er B) (g : A -> B) l :
  (forall a, a ∈ l -> f a = Done (g a)) -> try_map f l = Done (g <$> l).
Proof.
  induction l as [|a l IH]; intros H; [done|]. cbn. rewrite H by left. cbn.
  rewrite IH; [done|]. intros. apply H. by right.
Qed.

Definition row_item (r : row) : QueueItem := (r.1, row_event r).

Lemma queue_item_of_ok t d w r :
  dest_ok d -> rows_ok (maps w t) -> r ∈ rows_for t d w -> queue_item_of r = Done (row_item r).
Proof. intros Hd Ho Hr. unfold queue_item_of, row_item. by rewrite (rows_for_parse t d w r). Qed.

Lemma elem_of_take_elem {A} (l : list A) n x : x ∈ take n l -> x ∈ l.
Proof. intros H. rewrite <- (take_drop n l). set_solver. Qed.

Lemma queued_requests_ok d n w :
  dest_ok d -> rows_ok (queue w) ->
  queued_requests d n w = Done (row_item <$> take n (rows_for servernameevent_data d w)).
Proof.
  intros Hd Ho. apply try_map_done. intros r Hr. eapply queue_item_of_ok; [done|done|].
  by eapply elem_of_take_elem.
Qed.

Lemma active_requests_for_ok d w :
  dest_ok d -> rows_ok (active w) ->
  active_requests_for d w = Done (row_item <$> rows_for servercurrentevent_data d w).
Proof. intros Hd Ho. apply try_map_done. intros r Hr. by eapply queue_item_of_ok. Qed.

End tables.
