(* ===== verification/SenderSystem.v ===== *)
(** * The sender workers

    Models the operations of [src/service/sending/mod.rs], which queue events
    and hand them to a worker, and the work loop of [sender.rs]: each worker
    owns the destinations of its shard, takes messages from its channel and
    answers the responses of its transactions.  The two arms of the loop and
    the callers interleave in any order; the body of an arm is one step.

    The hash of a destination is the standard library's and is a parameter. *)

From stdpp Require Import prelude gmap strings list sorting.
From Stdlib Require Import ZArith Lia.
From Stdlib Require Import Strings.Byte.
From S2P Require Import Prelude MachineInt PduCount DbCodec DbMap CoreUtils Short World StateCache Sending.
Import PduId.

Record Worker := MkWorker {
  statuses : CurTransactionStatus; futures : list Transaction; channel : list Msg }.

Record System := MkSystem { sys_world : World; workers : list Worker; closed : bool }.

Definition set_world (w : World) (s : System) : System := MkSystem w (workers s) (closed s).
Definition set_worker (i : nat) (wk : Worker) (s : System) : System :=
  MkSystem (sys_world s) (<[i := wk]> (workers s)) (closed s).

Section system.
Context (debug : bool) {E : Engine} {I : Ids} {Ed : EduSource} {Sc : Schedule}.
Context (config : SenderConfig) (own_name : bytes) (dest_hash : Destination -> Z).

(** ** Requests: [mod.rs] *)

Definition shard_id (channels : nat) (dest : Destination) : nat :=
  if channels <=? 1 then 0
  else Z.to_nat (as_u64 (dest_hash dest) mod Z.of_nat (Nat.max channels 1)).

(** The system and whether the message was accepted. *)
Definition dispatch (msg : Msg) (s : System) : outcome CodecError (System * bool) :=
  let shard := shard_id (length (workers s)) (msg_dest msg) in
  wk ← expect (workers s !! shard);
  if debug && closed s then Panic
  else if closed s then Done (s, false)
  else Done (set_worker shard (MkWorker (statuses wk) (futures wk) (channel wk ++ [msg])) s, true).

(** [dispatch(…)?] for each message in turn. *)
Fixpoint dispatch_all (msgs : list Msg) (s : System) : outcome CodecError (System * bool) :=
  match msgs with
  | [] => Done (s, true)
  | msg :: msgs =>
      '(s, ok) ← dispatch msg s;
      if (ok : bool) then dispatch_all msgs s else Done (s, false)
  end.

Definition queue_and_dispatch (requests : list (Destination * SendingEvent)) (s : System)
    : outcome CodecError (System * bool) :=
  '(keys, w) ← queue_requests debug ((fun '(o, e) => (e, o)) <$> requests) (sys_world s);
  dispatch_all ((fun '((dest, event), queue_id) => MkMsg dest event queue_id) <$> zip requests keys)
    (set_world w s).

Definition send_pdu_push (pdu_id : RawId) (user pushkey : bytes) (s : System) :=
  queue_and_dispatch [(Push user pushkey, Pdu pdu_id)] s.
Definition send_pdu_appservice (appservice_id : bytes) (pdu_id : RawId) (s : System) :=
  queue_and_dispatch [(Appservice appservice_id, Pdu pdu_id)] s.
Definition send_edu_server (server serialized : bytes) (s : System) :=
  queue_and_dispatch [(Federation server, Edu serialized)] s.
Definition send_pdu_servers (servers : list bytes) (pdu_id : RawId) (s : System) :=
  queue_and_dispatch ((fun server => (Federation server, Pdu pdu_id)) <$> servers) s.
Definition send_edu_servers (servers : list bytes) (serialized : bytes) (s : System) :=
  queue_and_dispatch ((fun server => (Federation server, Edu serialized)) <$> servers) s.
Definition flush_servers (servers : list bytes) (s : System) :=
  dispatch_all ((fun server => MkMsg (Federation server) Flush []) <$> servers) s.

(** The servers of a room but this one. *)
Definition other_servers (room_id : bytes) (s : System) : outcome CodecError (list bytes) :=
  servers ← room_servers debug room_id (sys_world s);
  Done (filter (fun server => server <> own_name) servers).

Definition send_pdu_room (room_id : bytes) (pdu_id : RawId) (s : System) :=
  servers ← other_servers room_id s; send_pdu_servers servers pdu_id s.
Definition send_edu_room (room_id serialized : bytes) (s : System) :=
  servers ← other_servers room_id s; send_edu_servers servers serialized s.
Definition flush_room (room_id : bytes) (s : System) :=
  servers ← other_servers room_id s; flush_servers servers s.

Definition cleanup_events (appservice_id user_id push_key : option bytes) (w : World) : World :=
  match appservice_id, user_id, push_key with
  | None, Some user_id, Some push_key => delete_all_requests_for (Push user_id push_key) w
  | Some appservice_id, None, None => delete_all_requests_for (Appservice appservice_id) w
  | _, _, _ => w
  end.

(** ** Steps *)

Inductive action :=
| Queue (requests : list (Destination * SendingEvent))
| FlushTo (servers : list bytes)
| Cleanup (appservice_id user_id push_key : option bytes)
| Receive (i : nat) (now : Z)
| Respond (i j : nat) (ok : bool) (now : Z)   (** the [j]th future of worker [i] is ready *)
| Interrupt
| Finish (i j : nat) (ok : bool).             (** … before the deadline at shutdown *)

(** What a handler returns, put back in place. *)
Definition put_back (i : nat) (chan : list Msg) (s : System)
    (o : outcome CodecError (World * list Transaction * CurTransactionStatus))
    : outcome CodecError (option System) :=
  '(w, futures, statuses) ← o;
  Done (Some (set_worker i (MkWorker statuses futures chan) (set_world w s))).

(** [None] if the step is not enabled. *)
Definition exec (a : action) (s : System) : outcome CodecError (option System) :=
  match a with
  | Queue requests => '(s, _) ← queue_and_dispatch requests s; Done (Some s)
  | FlushTo servers => '(s, _) ← flush_servers servers s; Done (Some s)
  | Cleanup a u p => Done (Some (set_world (cleanup_events a u p (sys_world s)) s))
  | Receive i now =>
      match closed s, workers s !! i with
      | false, Some (MkWorker statuses futures (msg :: chan)) =>
          put_back i chan s (handle_request debug config msg now (sys_world s) futures statuses)
      | _, _ => Done None
      end
  | Respond i j ok now =>
      match closed s, wk ← workers s !! i; txn ← futures wk !! j; Some (wk, txn) with
      | false, Some (wk, (dest, _)) =>
          let rest := delete j (futures wk) in
          put_back i (channel wk) s
            (if ok then handle_response_ok debug dest (sys_world s) rest (statuses wk)
             else statuses ← handle_response_err dest now (statuses wk);
                  Done (sys_world s, rest, statuses))
      | _, _ => Done None
      end
  | Interrupt => Done (Some (MkSystem (sys_world s) (workers s) true))
  | Finish i j ok =>
      match closed s, wk ← workers s !! i; txn ← futures wk !! j; Some (wk, txn) with
      | true, Some (wk, (dest, _)) =>
          put_back i (channel wk) s
            (Done (finish_response (sys_world s) (dest, ok), delete j (futures wk), statuses wk))
      | _, _ => Done None
      end
  end.

Definition step (a : action) (s s' : System) : Prop := exec a s = Done (Some s').

(** The workers at startup; each reads and writes only the rows of its shard. *)
Definition start_worker (n : nat) (s : World * list Worker) (i : nat) : outcome CodecError (World * list Worker) :=
  '(w, futures, statuses) ← startup_netburst debug config (shard_id n) i s.1;
  Done (w, s.2 ++ [MkWorker statuses futures []]).

Definition start (n : nat) (w : World) : outcome CodecError System :=
  '(w, workers) ← try_fold (start_worker n) (w, []) (List.seq 0 n);
  Done (MkSystem w workers false).

(** [num_senders]: the configured number of workers within its bounds. *)
Definition num_senders (sender_workers num_workers parallelism : nat) : outcome CodecError nat :=
  let max_senders := Nat.min num_workers parallelism in
  if decide (1 <= max_senders) then Done (Nat.min (Nat.max sender_workers 1) max_senders) else Panic.

End system.

(** ** The invariant *)

Abbreviation active w := (maps w servercurrentevent_data).
Abbreviation queue w := (maps w servernameevent_data).

Definition in_flight (st : option TransactionStatus) : Prop :=
  match st with Some Running | Some (Retrying _) => True | _ => False end.

#[export] Instance in_flight_dec st : Decision (in_flight st).
Proof. destruct st as [[]|]; apply _. Defined.

Section invariant.
Context {I : Ids} (dest_hash : Destination -> Z).

(** A row of the table is the row of event [e] for [d]. *)
Definition row_for (t : table) (d : Destination) (e : SendingEvent) : Prop :=
  exists k v, t !! k = Some v /\ parse_servercurrentevent k v = Done (d, e).

Definition msg_ok (m : Msg) : Prop :=
  dest_ok (msg_dest m) /\
  (msg_event m = Flush /\ msg_queue_id m = [] \/
   parse_servercurrentevent (msg_queue_id m) (event_value (msg_event m)) = Done (msg_dest m, msg_event m)).

(** A worker [i] of [n]: it knows the destinations of its shard; a destination
    has a transaction in flight exactly while its status says so, and then only
    one, which carries every active event; active events have a status. *)
Record worker_inv (n i : nat) (running : bool) (w : World) (wk : Worker) : Prop := {
  wi_shard : forall d st, statuses wk !! d = Some st -> shard_id dest_hash n d = i /\ dest_ok d;
  wi_nodup : NoDup (futures wk).*1;
  wi_flight : forall d, d ∈ (futures wk).*1 -> in_flight (statuses wk !! d);
  wi_live : running = true -> forall d, in_flight (statuses wk !! d) -> d ∈ (futures wk).*1;
  wi_active : forall d e, row_for (active w) d e -> shard_id dest_hash n d = i -> is_Some (statuses wk !! d);
  wi_carried : forall d evs e, (d, evs) ∈ futures wk -> row_for (active w) d e -> e ∈ evs;
  wi_nonempty : forall d evs, (d, evs) ∈ futures wk -> evs <> [];
  wi_channel : forall m, m ∈ channel wk -> shard_id dest_hash n (msg_dest m) = i /\ msg_ok m }.

Record sender_inv (s : System) : Prop := {
  si_workers : workers s <> [];
  si_active : rows_ok (active (sys_world s));
  si_queue : rows_ok (queue (sys_world s));
  si_worker : forall i wk, workers s !! i = Some wk ->
    worker_inv (length (workers s)) i (negb (closed s)) (sys_world s) wk }.

Lemma wi_future_shard n i r w wk d evs :
  worker_inv n i r w wk -> (d, evs) ∈ futures wk -> shard_id dest_hash n d = i /\ dest_ok d.
Proof.
  intros H Hf. assert (in_flight (statuses wk !! d)) as Hi.
  { apply (wi_flight _ _ _ _ _ H). by apply (list_elem_of_fmap_2 fst) in Hf. }
  destruct (statuses wk !! d) as [st|] eqn:Es; [|done]. by eapply wi_shard.
Qed.

(** A worker does not mind rows of other shards, nor rows that go. *)
Lemma worker_inv_frame n i r w w' wk :
  worker_inv n i r w wk ->
  (forall d e, shard_id dest_hash n d = i -> row_for (active w') d e -> row_for (active w) d e) ->
  worker_inv n i r w' wk.
Proof.
  intros H Hf. pose proof (wi_future_shard n i r w wk) as Hs. destruct H. split; eauto.
  intros d evs e Hd He. eapply wi_carried0; [done|]. apply Hf; [|done]. by eapply Hs.
Qed.

(** Only the rows of [d] changed. *)
Definition changes_only (d : Destination) (w w' : World) : Prop :=
  forall k, ~ get_prefix d `prefix_of` k ->
    active w' !! k = active w !! k /\ queue w' !! k = queue w !! k.

Lemma row_for_other d d' e w w' :
  dest_ok d -> changes_only d w w' -> d' <> d -> row_for (active w') d' e -> row_for (active w) d' e.
Proof.
  intros Hd Hc Hne (k & v & Hk & Hp). exists k, v. split; [|done].
  destruct (Hc k) as [<- _]; [|done]. intros Hpre. apply Hne. symmetry. by apply (parse_prefix k v d d' e).
Qed.

(** A handler of worker [i] for one of its destinations: what has to be shown of
    that destination alone. *)
Record dest_inv (d : Destination) (running : bool) (w : World) (wk : Worker) : Prop := {
  di_flight : d ∈ (futures wk).*1 -> in_flight (statuses wk !! d);
  di_live : running = true -> in_flight (statuses wk !! d) -> d ∈ (futures wk).*1;
  di_active : forall e, row_for (active w) d e -> is_Some (statuses wk !! d);
  di_carried : forall evs e, (d, evs) ∈ futures wk -> row_for (active w) d e -> e ∈ evs;
  di_nonempty : forall evs, (d, evs) ∈ futures wk -> evs <> [] }.

Lemma worker_inv_update d n i r w w' wk wk' :
  worker_inv n i r w wk -> shard_id dest_hash n d = i -> dest_ok d -> changes_only d w w' ->
  (forall d', d' <> d -> statuses wk' !! d' = statuses wk !! d') ->
  (forall d' evs, d' <> d -> (d', evs) ∈ futures wk' <-> (d', evs) ∈ futures wk) ->
  NoDup (futures wk').*1 -> channel wk' ⊆ channel wk ->
  dest_inv d r w' wk' -> worker_inv n i r w' wk'.
Proof.
  intros H Hi Hd Hc Hs Hf Hn Hch D.
  assert (forall d', d' <> d -> d' ∈ (futures wk').*1 <-> d' ∈ (futures wk).*1) as Hf'.
  { intros d' Hne. rewrite !list_elem_of_fmap.
    split; intros ([d'' evs] & Ed & Hin); cbn in Ed; subst d''; exists (d', evs);
      (split; [done|]); by apply Hf. }
  split; [| done | | | | | | ].
  - intros d' st Hst. destruct (decide (d' = d)) as [->|Hne]; [done|].
    rewrite Hs in Hst by done. by eapply wi_shard.
  - intros d' Hd'. destruct (decide (d' = d)) as [->|Hne]; [by apply D|].
    rewrite Hs by done. apply (wi_flight _ _ _ _ _ H), Hf'; done.
  - intros Hr d' Hd'. destruct (decide (d' = d)) as [->|Hne]; [by eapply di_live|].
    rewrite Hs in Hd' by done. apply Hf'; [done|]. by apply (wi_live _ _ _ _ _ H).
  - intros d' e Hrow Hsh. destruct (decide (d' = d)) as [->|Hne]; [by eapply di_active|].
    rewrite Hs by done. eapply wi_active; [done| |done]. by eapply row_for_other.
  - intros d' evs e Hin Hrow. destruct (decide (d' = d)) as [->|Hne]; [by eapply di_carried|].
    eapply wi_carried; [done|by apply Hf|by eapply row_for_other].
  - intros d' evs Hin. destruct (decide (d' = d)) as [->|Hne]; [by eapply di_nonempty|].
    eapply wi_nonempty; [done|by apply Hf].
  - intros m Hm. eapply wi_channel; [done|by apply Hch].
Qed.

Lemma worker_inv_other d n i r w w' wk :
  worker_inv n i r w wk -> shard_id dest_hash n d <> i -> dest_ok d -> changes_only d w w' ->
  worker_inv n i r w' wk.
Proof.
  intros H Hi Hd Hc. apply (worker_inv_frame n i r w); [done|].
  intros d' e Hs. apply (row_for_other d); [done|done|congruence].
Qed.

End invariant.

(** ** The handlers and the tables *)

Section handlers.
Context (debug : bool) {E : Engine} {I : Ids}.

Lemma parse_value k v d e : parse_servercurrentevent k v = Done (d, e) -> event_value e = v.
Proof. intros (_ & s & _ & He)%parse_exact. destruct e; cbn in *; naive_solver. Qed.

Lemma parse_key k v d e :
  parse_servercurrentevent k v = Done (d, e) -> dest_ok d /\ get_prefix d `prefix_of` k /\ k <> [].
Proof.
  intros (Hd & s & -> & _)%parse_exact. split_and!; [done|by exists s|]. intros E'.
  destruct d; cbn in E'; [done|done|]. by destruct server.
Qed.

Lemma delete_active_changes d w : changes_only d w (delete_all_active_requests_for d w).
Proof.
  intros k Hk. unfold delete_all_active_requests_for.
  rewrite delete_prefix_lookup, decide_False by done. by rewrite delete_prefix_other.
Qed.

Lemma delete_active_rows d w k v :
  active (delete_all_active_requests_for d w) !! k = Some v <->
  active w !! k = Some v /\ ~ get_prefix d `prefix_of` k.
Proof.
  unfold delete_all_active_requests_for. rewrite delete_prefix_lookup. case_decide; naive_solver.
Qed.

Lemma delete_active_queue d w : queue (delete_all_active_requests_for d w) = queue w.
Proof. by apply delete_prefix_other. Qed.

Lemma changes_only_trans d w1 w2 w3 : changes_only d w1 w2 -> changes_only d w2 w3 -> changes_only d w1 w3.
Proof. intros H1 H2 k Hk. destruct (H1 k Hk), (H2 k Hk). split; congruence. Qed.

(** Items of one destination, as they are read from the queue or received. *)
Definition items_for (d : Destination) (items : list QueueItem) : Prop :=
  forall k e, (k, e) ∈ items ->
    k = [] \/ parse_servercurrentevent k (event_value e) = Done (d, e).

Lemma mark_as_active_changes d items w :
  items_for d items -> changes_only d w (mark_as_active items w).
Proof.
  intros Hi k Hk. destruct (mark_as_active_maps items w) as (Hq & Ha & _).
  assert (k ∉ items.*1 \/ k = []) as Hn.
  { destruct (decide (k ∈ items.*1)) as [((k', e) & -> & Hin)%list_elem_of_fmap|]; [|by left].
    destruct (Hi _ _ Hin) as [->|Hp]; [by right|]. by apply parse_key in Hp as (_ & ? & _). }
  rewrite Ha, Hq by done. rewrite decide_False; naive_solver.
Qed.

(** What is active after items were marked. *)
Lemma mark_as_active_rows d items w k v :
  items_for d items -> active (mark_as_active items w) !! k = Some v ->
  active w !! k = Some v \/
  exists e, (k, e) ∈ items /\ v = event_value e /\ parse_servercurrentevent k v = Done (d, e).
Proof.
  intros Hi. destruct (mark_as_active_maps items w) as (_ & Ha & Hm & _).
  destruct (decide (k ∈ items.*1 /\ k <> [])) as [[Hk Hn]|Hk].
  - destruct (Hm k Hk Hn) as (e & He & ->). intros [= <-]. right. exists e. split_and!; [done|done|].
    by destruct (Hi _ _ He).
  - rewrite Ha; [by left|]. destruct (decide (k = [])); naive_solver.
Qed.

Lemma mark_as_active_ok d items w :
  items_for d items -> rows_ok (active w) -> rows_ok (queue w) ->
  rows_ok (active (mark_as_active items w)) /\ rows_ok (queue (mark_as_active items w)).
Proof.
  intros Hi Ha Hq. split; intros k v Hk.
  - destruct (mark_as_active_rows d items w k v Hi Hk) as [Hk'|(e & _ & _ & Hp)]; eauto.
  - destruct (mark_as_active_maps items w) as (Hqm & _). rewrite Hqm in Hk. case_decide; [done|]. eauto.
Qed.

(** What a key held stays in one of the tables. *)
Definition pending (w : World) (k : bytes) : Prop := is_Some (active w !! k) \/ is_Some (queue w !! k).

Lemma mark_as_active_pending items w k : pending w k -> pending (mark_as_active items w) k.
Proof.
  destruct (mark_as_active_maps items w) as (Hq & Ha & Hm & _). intros Hk. unfold pending in *.
  destruct (decide (k ∈ items.*1 /\ k <> [])) as [[Hin Hn]|Hn].
  - left. destruct (Hm k Hin Hn) as (e & _ & ->). by eexists.
  - rewrite Hq, (decide_False _ _ Hn), Ha; [done|]. destruct (decide (k = [])); naive_solver.
Qed.

Lemma delete_active_ok d w :
  rows_ok (active w) -> rows_ok (active (delete_all_active_requests_for d w)).
Proof. intros H k v [Hk _]%delete_active_rows. eauto. Qed.

Lemma queued_items_for t d w n :
  dest_ok d -> rows_ok (maps w t) -> items_for d (row_item <$> take n (rows_for t d w)).
Proof.
  intros Hd Hq k e ([k' v] & [= -> ->] & Hin%elem_of_take_elem)%list_elem_of_fmap. right.
  pose proof (rows_for_parse t d w _ Hd Hq Hin) as Hp. cbn [fst snd] in Hp. by rewrite (parse_value _ _ _ _ Hp).
Qed.

(** The next batch for a destination. *)
Definition next_items (d : Destination) (w : World) : list QueueItem :=
  row_item <$> take DEQUEUE_LIMIT (rows_for servernameevent_data d w).

Lemma send_events_ok d evs : evs <> [] -> send_events debug d evs = Done (d, evs).
Proof. intros. unfold send_events. rewrite bool_decide_eq_false_2 by done. by rewrite andb_false_r. Qed.

Lemma handle_response_ok_eq d w rest st :
  dest_ok d -> rows_ok (queue w) ->
  handle_response_ok debug d w rest st =
    Done (mark_as_active (next_items d w) (delete_all_active_requests_for d w),
          if decide (next_items d w = []) then rest else rest ++ [(d, (next_items d w).*2)],
          if decide (next_items d w = []) then delete d st else st).
Proof.
  intros Hd Hq. unfold handle_response_ok.
  rewrite queued_requests_ok; [|done|by rewrite delete_active_queue].
  assert (rows_for servernameevent_data d (delete_all_active_requests_for d w)
          = rows_for servernameevent_data d w) as ->.
  { rewrite !rows_for_filter. by rewrite delete_active_queue. }
  cbn [mbind outcome_bind]. fold (next_items d w).
  destruct (decide (next_items d w = [])) as [Hn|Hn].
  - rewrite decide_False by auto. by rewrite Hn.
  - rewrite decide_True by done. rewrite send_events_ok; [done|]. by destruct (next_items d w).
Qed.

(** The next batch becomes active and leaves the queue. *)
Lemma respond_ok_rows d w :
  dest_ok d -> rows_ok (queue w) ->
  let w' := mark_as_active (next_items d w) (delete_all_active_requests_for d w) in
  rows_for servercurrentevent_data d w' = take DEQUEUE_LIMIT (rows_for servernameevent_data d w) /\
  rows_for servernameevent_data d w' = drop DEQUEUE_LIMIT (rows_for servernameevent_data d w).
Proof.
  intros Hd Hq w'. set (l := rows_for servernameevent_data d w).
  assert (NoDup l.*1) as Hn by apply rows_for_NoDup. pose proof (rows_for_sorted servernameevent_data d w) as Hs.
  fold l in Hs. rewrite <- (take_drop DEQUEUE_LIMIT l) in Hn, Hs. rewrite fmap_app, NoDup_app in Hn.
  destruct Hn as (Hn1 & Hn2 & Hn3). apply StronglySorted_app in Hs as (_ & Hs1 & Hs2).
  assert ((next_items d w).*1 = (take DEQUEUE_LIMIT l).*1) as Hkeys.
  { unfold next_items. fold l. rewrite <- list_fmap_compose. by apply list_fmap_ext. }
  destruct (mark_as_active_maps (next_items d w) (delete_all_active_requests_for d w)) as (Mq & Ma & Mm & _).
  fold w' in Mq, Ma, Mm. rewrite Hkeys in *. rewrite delete_active_queue in Mq.
  assert (forall k v, (k, v) ∈ l -> get_prefix d `prefix_of` k /\ queue w !! k = Some v) as Hl
    by (intros k v; apply rows_for_elem).
  assert (forall k v, (k, v) ∈ take DEQUEUE_LIMIT l -> active w' !! k = Some v) as Htake.
  { intros k v Hin. destruct (Hl k v (elem_of_take_elem _ _ _ Hin)) as [Hp Hk].
    assert (k <> []) by (destruct (Hq k v Hk) as (? & ? & ?%parse_key); naive_solver).
    destruct (Mm k) as (e & He & ->); [by apply (list_elem_of_fmap_2 fst) in Hin|done|].
    apply list_elem_of_fmap in He as ([k' v'] & [= -> ->] & Hin').
    pose proof (NoDup_fmap_fst_unique _ _ _ _ Hn1 Hin Hin') as [= <-].
    f_equal. eapply parse_value, (rows_for_parse servernameevent_data d w (k', v)); [done|done|].
    by eapply elem_of_take_elem. }
  split; (apply rows_for_unique; [done|done|]); intros k v.
  - split; [intros Hin; split; [by destruct (Hl k v (elem_of_take_elem _ _ _ Hin))|by apply Htake]|].
    intros [Hp Hk]. destruct (decide (k ∈ (take DEQUEUE_LIMIT l).*1)) as [Hin|Hin].
    + apply list_elem_of_fmap in Hin as ([k' v'] & -> & Hin). cbn in *. rewrite (Htake _ _ Hin) in Hk. by injection Hk as <-.
    + rewrite Ma in Hk by by left. by apply delete_active_rows in Hk as [_ ?].
  - rewrite Mq. split.
    + intros Hin. destruct (Hl k v) as [Hp Hk]; [rewrite <- (take_drop DEQUEUE_LIMIT l); set_solver|].
      split; [done|]. rewrite decide_False; [done|]. intros [Hin' _].
      by apply (Hn2 k); [|apply (list_elem_of_fmap_2 fst) in Hin].
    + intros [Hp Hk]. case_decide as Hd'; [done|]. assert ((k, v) ∈ l) as Hin by by apply rows_for_elem.
      rewrite <- (take_drop DEQUEUE_LIMIT l) in Hin. apply elem_of_app in Hin as [Hin|?]; [|done].
      exfalso. apply Hd'. split; [by apply (list_elem_of_fmap_2 fst) in Hin|].
      destruct (Hq k v Hk) as (? & ? & ?%parse_key). naive_solver.
Qed.

End handlers.

Arguments next_items : simpl never.

(** ** What receiving a message does *)

Section receive.
Context (debug : bool) {E : Engine} {I : Ids} {Ed : EduSource} (config : SenderConfig).

(** A destination that is tried again, with its active events. *)
Definition active_events (d : Destination) (w : World) : list SendingEvent :=
  row_event <$> rows_for servercurrentevent_data d w.

Inductive request_effect (m : Msg) (w : World) (fs : list Transaction) (st : CurTransactionStatus)
    : World -> list Transaction -> CurTransactionStatus -> Prop :=
| EffBusy : is_Some (st !! msg_dest m) -> request_effect m w fs st w fs st
| EffRetry n t :
    st !! msg_dest m = Some (Failed n t) -> active_events (msg_dest m) w <> [] ->
    request_effect m w fs st w (fs ++ [(msg_dest m, active_events (msg_dest m) w)])
      (<[msg_dest m := Retrying n]> st)
| EffGiveUp n t :
    st !! msg_dest m = Some (Failed n t) -> active_events (msg_dest m) w = [] ->
    request_effect m w fs st w fs (delete (msg_dest m) (<[msg_dest m := Retrying n]> st))
| EffFresh w' edus :
    st !! msg_dest m = None -> length edus <= EDU_LIMIT ->
    frame [servername_educount] (mark_as_active [(msg_queue_id m, msg_event m)] w) w' ->
    request_effect m w fs st w' (fs ++ [(msg_dest m, msg_event m :: (Edu <$> edus))])
      (<[msg_dest m := Running]> st).

Lemma row_item_events (rs : list row) : (row_item <$> rs).*2 = row_event <$> rs.
Proof. rewrite <- list_fmap_compose. by apply list_fmap_ext. Qed.

Lemma set_latest_educount_frame s n w w' :
  set_latest_educount debug s n w = Done w' -> frame [servername_educount] w w'.
Proof.
  unfold set_latest_educount, upd. intros H. bind_invs H. injection H as <-.
  intros t Ht. apply maps_set_ne. set_solver.
Qed.

Lemma set_latest_educount_total s n w : exists w', set_latest_educount debug s n w = Done w'.
Proof.
  unfold set_latest_educount, upd, raw_put, raw_bput, buffer_serialize. destruct debug; by eexists.
Qed.

Lemma add_edus_effect d evs w evs' w' :
  add_edus debug d evs w = Done (evs', w') ->
  exists edus, evs' = evs ++ (Edu <$> edus) /\ length edus <= EDU_LIMIT /\ frame [servername_educount] w w'.
Proof.
  unfold add_edus. destruct d as [s|u p|s]; [intros [= <- <-]; exists []; rewrite app_nil_r; (split_and!; [done|cbn; lia|done])..|].
  destruct (select_edus s w) as [[edus n]|e| |] eqn:Es; [|intros [= <- <-]|done..].
  - case_match; [done|]. intros Hb. bind_invs Hb. injection Hb as <- <-. exists edus. split_and!; [done| |].
    + by eapply select_edus_limit.
    + by eapply set_latest_educount_frame.
  - exists []. rewrite app_nil_r. split_and!; [done|cbn; lia|done].
Qed.

Lemma handle_request_effect m now w fs st w' fs' st' :
  msg_ok m -> rows_ok (active w) ->
  handle_request debug config m now w fs st = Done (w', fs', st') ->
  request_effect m w fs st w' fs' st'.
Proof.
  intros [Hd _] Ha. unfold handle_request, select_events, select_events_current.
  destruct (st !! msg_dest m) as [[|n t|n]|] eqn:Est; cbn [negb].
  - intros [= <- <- <-]. apply EffBusy. by rewrite Est.
  - destruct (Time.continue_exponential_backoff_secs _ _ _ _ && _); cbn [negb].
    { intros [= <- <- <-]. apply EffBusy. by rewrite Est. }
    rewrite active_requests_for_ok by done. cbn [mbind outcome_bind]. rewrite row_item_events.
    fold (active_events (msg_dest m) w). case_decide as Hne.
    + rewrite send_events_ok by done. intros [= <- <- <-]. by eapply EffRetry.
    + intros [= <- <- <-]. eapply EffGiveUp; [done|]. by destruct (active_events _ _).
  - intros [= <- <- <-]. apply EffBusy. by rewrite Est.
  - rewrite decide_True by done. cbn [fmap list_fmap snd].
    destruct (add_edus debug _ _ _) as [[evs w1]| | |] eqn:Eadd; cbn [mbind outcome_bind]; try done.
    2: { exfalso. revert Eadd. unfold add_edus, set_latest_educount, upd, raw_put, raw_bput, buffer_serialize.
         repeat (case_match; cbn; try done). }
    apply add_edus_effect in Eadd as (edus & -> & Hl & Hf). cbn [app].
    rewrite decide_True by done. rewrite send_events_ok by done. intros [= <- <- <-]. by eapply EffFresh.
Qed.

(** Receiving a message does not panic unless the selection of ephemeral events
    does. *)
Lemma handle_request_total m now w fs st :
  msg_ok m -> rows_ok (active w) ->
  (forall s w', frame send_tables w w' -> globals w' = globals w ->
     outcome_spec (select_edus s w') (fun _ => True) (fun _ => True)) ->
  exists r, handle_request debug config m now w fs st = Done r.
Proof.
  intros [Hd _] Ha Hs. unfold handle_request, select_events, select_events_current.
  destruct (st !! msg_dest m) as [[|n t|n]|] eqn:Est; cbn [negb]; [by eexists| |by eexists|].
  - destruct (Time.continue_exponential_backoff_secs _ _ _ _ && _); cbn [negb]; [by eexists|].
    rewrite active_requests_for_ok by done. cbn [mbind outcome_bind].
    case_decide; [|by eexists]. rewrite send_events_ok by done. by eexists.
  - rewrite decide_True by done. cbn [fmap list_fmap snd].
    assert (exists r, add_edus debug (msg_dest m) [msg_event m]
              (mark_as_active [(msg_queue_id m, msg_event m)] w) = Done r) as [[evs w1] Hadd].
    { unfold add_edus. destruct (msg_dest m) as [s|u p|s]; [by eexists..|].
      destruct (mark_as_active_maps [(msg_queue_id m, msg_event m)] w) as (_ & _ & _ & Hf & Hg).
      pose proof (Hs s _ Hf Hg) as Hsel.
      destruct (select_edus s _) as [[edus n]|e| |] eqn:Esel; cbn in Hsel; [|by eexists|done..].
      rewrite bool_decide_eq_true_2 by by eapply select_edus_limit. rewrite andb_false_r.
      destruct (set_latest_educount_total s n (mark_as_active [(msg_queue_id m, msg_event m)] w)) as [w1 ->].
      by eexists. }
    rewrite Hadd. cbn [mbind outcome_bind]. case_decide; [|by eexists].
    rewrite send_events_ok by done. by eexists.
Qed.

End receive.

(** ** Every step keeps the invariant *)

Section preservation.
Context (debug : bool) {E : Engine} {I : Ids} {Ed : EduSource} {Sc : Schedule}.
Context (config : SenderConfig) (dest_hash : Destination -> Z).

Abbreviation sender_inv := (sender_inv dest_hash).
Abbreviation worker_inv := (worker_inv dest_hash).

Lemma delete_future (fs : list Transaction) j d evs :
  NoDup fs.*1 -> fs !! j = Some (d, evs) ->
  NoDup (delete j fs).*1 /\ d ∉ (delete j fs).*1 /\
  (forall d' evs', d' <> d -> (d', evs') ∈ delete j fs <-> (d', evs') ∈ fs).
Proof.
  intros Hn Hj. pose proof (delete_Permutation fs j _ Hj) as Hp.
  rewrite Hp in Hn. cbn in Hn. apply NoDup_cons in Hn as [H1 H2]. split_and!; [done|done|].
  intros d' evs' Hne. rewrite Hp at 2. rewrite elem_of_cons. naive_solver.
Qed.

Lemma not_in_futures d evs (fs : list Transaction) : d ∉ fs.*1 -> (d, evs) ∉ fs.
Proof. intros Hn Hin. apply Hn. by apply (list_elem_of_fmap_2 fst) in Hin. Qed.

(** A destination with no transaction in flight, and one that just got one. *)
Lemma dest_inv_idle d r w st fs ch :
  d ∉ fs.*1 -> ~ in_flight (st !! d) -> (forall e, row_for (active w) d e -> is_Some (st !! d)) ->
  dest_inv d r w (MkWorker st fs ch).
Proof.
  intros Hd Hs Hr. pose proof (fun evs => not_in_futures d evs fs Hd).
  split; cbn; [done|done|done|intros ? ? ?; naive_solver..].
Qed.

Lemma dest_inv_sent d r w st fs ch evs :
  d ∉ fs.*1 -> in_flight (st !! d) -> (forall e, row_for (active w) d e -> e ∈ evs) -> evs <> [] ->
  dest_inv d r w (MkWorker st (fs ++ [(d, evs)]) ch).
Proof.
  intros Hd Hs Hr Hne. pose proof (fun evs => not_in_futures d evs fs Hd).
  split; cbn; [done|intros; rewrite fmap_app; set_solver|intros; by destruct (st !! d)| |].
  - intros evs' e [Hin|[= ->]%list_elem_of_singleton]%elem_of_app; naive_solver.
  - intros evs' [Hin|[= ->]%list_elem_of_singleton]%elem_of_app; naive_solver.
Qed.

(** What every update of a worker's futures does to other destinations. *)
Lemma sent_others d evs (fs : list Transaction) :
  d ∉ fs.*1 -> NoDup fs.*1 ->
  NoDup (fs ++ [(d, evs)]).*1 /\ forall d' evs', d' <> d -> (d', evs') ∈ fs ++ [(d, evs)] <-> (d', evs') ∈ fs.
Proof.
  intros Hd Hn. split.
  - rewrite fmap_app, NoDup_app. split_and!; [done|set_solver|apply NoDup_singleton].
  - intros d' evs' Hne. rewrite elem_of_app, list_elem_of_singleton. naive_solver.
Qed.

(** A handler of one worker, seen from the system. *)
Lemma sender_inv_put s i d wk wk' w' :
  sender_inv s -> workers s !! i = Some wk ->
  shard_id dest_hash (length (workers s)) d = i -> dest_ok d -> changes_only d (sys_world s) w' ->
  rows_ok (active w') -> rows_ok (queue w') ->
  worker_inv (length (workers s)) i (negb (closed s)) w' wk' ->
  sender_inv (set_worker i wk' (set_world w' s)).
Proof.
  intros H Hi Hsh Hd Hc Ha Hq Hw. split; cbn.
  - intros E0. apply (f_equal length) in E0. rewrite length_insert in E0.
    destruct (workers s); [by rewrite lookup_nil in Hi|done].
  - done.
  - done.
  - rewrite length_insert. intros k wk0. destruct (decide (i = k)) as [<-|Hne].
    + rewrite list_lookup_insert_eq by by eapply lookup_lt_Some. by intros [= <-].
    + rewrite list_lookup_insert_ne by done. intros Hk.
      eapply (worker_inv_other _ d); [by eapply si_worker|congruence|done|done].
Qed.

Lemma respond_ok_inv n i w wk j d evs :
  worker_inv n i true w wk -> futures wk !! j = Some (d, evs) -> rows_ok (active w) -> rows_ok (queue w) ->
  let items := next_items d w in
  worker_inv n i true (mark_as_active items (delete_all_active_requests_for d w))
    (MkWorker (if decide (items = []) then delete d (statuses wk) else statuses wk)
       (if decide (items = []) then delete j (futures wk) else delete j (futures wk) ++ [(d, items.*2)])
       (channel wk)).
Proof.
  intros H Hj Ha Hq items.
  destruct (wi_future_shard _ _ _ _ _ _ d evs H) as [Hs Hd]; [by eapply list_elem_of_lookup_2|].
  destruct (delete_future _ _ _ _ (wi_nodup _ _ _ _ _ _ H) Hj) as (Hn & Hnd & Hf).
  assert (in_flight (statuses wk !! d)) as Hfl.
  { eapply wi_flight; [done|]. apply list_elem_of_fmap. eexists (d, evs). split; [done|].
    by eapply list_elem_of_lookup_2. }
  assert (items_for d items) as Hit by by apply queued_items_for. clearbody items.
  assert (forall e, row_for (active (mark_as_active items (delete_all_active_requests_for d w))) d e ->
            e ∈ items.*2) as Hrow.
  { intros e (k & v & Hk & Hp). destruct (mark_as_active_rows d items _ k v Hit Hk) as [Hk'|(e' & Hin & -> & Hp')].
    - apply delete_active_rows in Hk' as [_ Hk']. by apply parse_key in Hp as (_ & ? & _).
    - rewrite Hp in Hp'. injection Hp' as <-. by apply (list_elem_of_fmap_2 snd) in Hin. }
  assert (changes_only d w (mark_as_active items (delete_all_active_requests_for d w))) as Hc.
  { eapply changes_only_trans; [apply delete_active_changes|by apply mark_as_active_changes]. }
  destruct (sent_others d items.*2 _ Hnd Hn) as [Hn' Hf'].
  case_decide as Hemp; (eapply (worker_inv_update _ d n i true w); [done|done|done|done| | | |done|]); cbn.
  - intros d' Hne. by rewrite lookup_delete_ne.
  - done.
  - done.
  - apply dest_inv_idle; [done|rewrite lookup_delete_eq; by intros []|]. intros e He%Hrow. rewrite Hemp in He. set_solver.
  - done.
  - intros d' evs' Hne. by rewrite Hf', Hf.
  - done.
  - apply dest_inv_sent; [done|done|done|by destruct items].
Qed.

Lemma respond_err_inv n i w wk j d evs st st' :
  worker_inv n i true w wk -> futures wk !! j = Some (d, evs) ->
  statuses wk !! d = Some st -> (exists t n', st' = Failed n' t) ->
  worker_inv n i true w (MkWorker (<[d := st']> (statuses wk)) (delete j (futures wk)) (channel wk)).
Proof.
  intros H Hj Hst (t & n' & ->).
  destruct (wi_future_shard _ _ _ _ _ _ d evs H) as [Hs Hd]; [by eapply list_elem_of_lookup_2|].
  destruct (delete_future _ _ _ _ (wi_nodup _ _ _ _ _ _ H) Hj) as (Hn & Hnd & Hf).
  eapply (worker_inv_update _ d n i true w); [done|done|done|done| |exact Hf|exact Hn|done|].
  - intros d' Hne. cbn. by rewrite lookup_insert_ne.
  - apply dest_inv_idle; [done|rewrite lookup_insert_eq; by intros []|]. rewrite lookup_insert_eq. by eexists.
Qed.

Lemma frame_sends w w' :
  frame [servername_educount] w w' -> active w' = active w /\ queue w' = queue w.
Proof. intros H. split; apply H; set_solver. Qed.

Lemma msg_items m : msg_ok m -> items_for (msg_dest m) [(msg_queue_id m, msg_event m)].
Proof. intros [_ Hm] k e [= -> ->]%list_elem_of_singleton. naive_solver. Qed.

Lemma active_events_row d w e :
  dest_ok d -> rows_ok (active w) -> row_for (active w) d e -> e ∈ active_events d w.
Proof.
  intros Hd Ho (k & v & Hk & Hp). apply list_elem_of_fmap. exists (k, v). split.
  - unfold row_event. cbn [fst snd]. by rewrite Hp.
  - apply rows_for_elem. split; [|done]. by apply parse_key in Hp as (_ & ? & _).
Qed.

Lemma receive_inv n i w wk m chan w' fs' st' :
  worker_inv n i true w wk -> channel wk = m :: chan -> rows_ok (active w) ->
  request_effect m w (futures wk) (statuses wk) w' fs' st' ->
  worker_inv n i true w' (MkWorker st' fs' chan).
Proof.
  intros H Hch Ha He. pose (d := msg_dest m).
  destruct (wi_channel _ _ _ _ _ _ H m) as [Hs Hm]; [rewrite Hch; by left|].
  pose proof (proj1 Hm) as Hd. pose proof (wi_nodup _ _ _ _ _ _ H) as Hn.
  assert (~ in_flight (statuses wk !! d) -> d ∉ (futures wk).*1) as Hnf.
  { intros Hi Hin. apply Hi. by eapply wi_flight. }
  assert (chan ⊆ channel wk) as Hsub by (rewrite Hch; set_solver).
  destruct He as [Hb|k t Hst Hne|k t Hst Hne|w' edus Hst Hl [Hf1 Hf2]%frame_sends];
    [|assert (d ∉ (futures wk).*1) as Hnd by (apply Hnf; unfold d; rewrite Hst; intros [])..].
  - destruct wk as [st fs ch]. cbn in *. subst ch. destruct H. split; cbn in *; eauto.
  - destruct (sent_others d (active_events d w) _ Hnd Hn) as [Hn' Hf'].
    eapply (worker_inv_update _ d n i true w); [done|done|done|done| |exact Hf'|exact Hn'|done|].
    + intros d' Hd'. cbn. by rewrite lookup_insert_ne.
    + apply dest_inv_sent; [done|by rewrite lookup_insert_eq|by intros; apply active_events_row|done].
  - eapply (worker_inv_update _ d n i true w); [done|done|done|done| |done|done|done|].
    + intros d' Hd'. cbn. by rewrite lookup_delete_ne, lookup_insert_ne.
    + apply dest_inv_idle; [done|rewrite lookup_delete_eq; by intros []|].
      intros e He. apply active_events_row in He; [|done|done]. unfold d in He. rewrite Hne in He. set_solver.
  - destruct (sent_others d (msg_event m :: (Edu <$> edus)) _ Hnd Hn) as [Hn' Hf'].
    pose proof (msg_items m Hm) as Hit.
    eapply (worker_inv_update _ d n i true w); [done|done|done| | |exact Hf'|exact Hn'|done|].
    + intros k Hk. rewrite Hf1, Hf2. by apply (mark_as_active_changes d).
    + intros d' Hd'. cbn. by rewrite lookup_insert_ne.
    + apply dest_inv_sent; [done|by rewrite lookup_insert_eq| |done].
      intros e (k & v & Hk & Hp). rewrite Hf1 in Hk.
      destruct (mark_as_active_rows d _ _ k v Hit Hk) as [Hk'|(e' & Hin & -> & Hp')].
      * exfalso. destruct (wi_active _ _ _ _ _ _ H d e) as [st Est]; [by exists k, v|done|].
        unfold d in Est. congruence.
      * rewrite Hp in Hp'. injection Hp' as <-. apply list_elem_of_singleton in Hin as [= _ ->]. by left.
Qed.

(** *** Requests *)

Definition request_ok (r : Destination * SendingEvent) : Prop :=
  dest_ok r.1 /\
  match r.2 with Pdu id => raw_typed id | Edu buf => buf <> [] | Flush => False end.

Lemma request_keys_ok reqs w keys w' :
  Forall request_ok reqs ->
  request_keys debug ((fun '(o, e) => (e, o)) <$> reqs) w = Done (keys, w') ->
  maps w' = maps w /\
  Forall2 (fun r k => parse_servercurrentevent k (event_value r.2) = Done r) reqs keys.
Proof.
  intros Hr. revert w keys w'. induction Hr as [|[d e] reqs [Hd He] Hr IH]; intros w keys w'.
  { intros [= <- <-]. done. }
  rewrite fmap_cons. cbn [request_keys]. intros H. bind_inv H. destruct a as [suffix w1].
  bind_inv H. destruct a as [keys1 w2]. injection H as <- <-.
  destruct (IH _ _ _ H1) as [Hm Hf]. cbn [fst snd] in *.
  assert (maps w1 = maps w /\ event_row e suffix (event_value e)) as [Hm1 Hrow].
  { destruct e as [id|buf|]; [by injection H0 as <- <-| |done].
    bind_inv H0. destruct a as [c w3]. injection H0 as <- <-. split; [|done].
    unfold next_count in H2. destruct (Short.next_count _ _) as [[]| | |]; try done.
    by injection H2 as <- <-. }
  split; [by rewrite Hm|]. constructor; [|done]. cbn [fst snd]. by apply parse_complete.
Qed.

Lemma insert_batch_lookup (l : list row) (t : table) k v :
  insert_batch t l !! k = Some v -> (k, v) ∈ l \/ t !! k = Some v.
Proof.
  unfold insert_batch. revert t. induction l as [|[k0 v0] l IH]; intros t; cbn [foldl]; [by right|].
  intros [H|H]%IH; [left; by right|]. cbn in H.
  apply lookup_insert_Some in H as [[<- <-]|[_ H]]; [left; by left|by right].
Qed.

Lemma insert_batch_keeps (l : list row) (t : table) k :
  is_Some (t !! k) -> is_Some (insert_batch t l !! k).
Proof.
  unfold insert_batch. revert t. induction l as [|[k0 v0] l IH]; intros t; cbn [foldl]; [done|].
  intros H. apply IH. cbn. destruct (decide (k0 = k)) as [->|]; simplify_map_eq; [by eexists|done].
Qed.

Lemma dispatch_inv m s s' ok :
  sender_inv s -> msg_ok m -> dispatch debug dest_hash m s = Done (s', ok) ->
  sender_inv s' /\ sys_world s' = sys_world s.
Proof.
  intros H Hm. unfold dispatch. destruct (workers s !! _) as [wk|] eqn:Ew; cbn [expect mbind outcome_bind]; [|done].
  destruct (debug && closed s); [done|]. destruct (closed s) eqn:Ec; intros [= <- _]; [done|]. split; [|done].
  split; cbn; [|apply H..|].
  - intros E0. apply (f_equal length) in E0. rewrite length_insert in E0.
    destruct (workers s); [by rewrite lookup_nil in Ew|done].
  - rewrite length_insert. intros k wk0 Hk. pose proof (si_worker _ _ H) as Hall.
    destruct (decide (shard_id dest_hash (length (workers s)) (msg_dest m) = k)) as [<-|Hne].
    + rewrite list_lookup_insert_eq in Hk by by eapply lookup_lt_Some. injection Hk as <-.
      destruct (Hall _ _ Ew). split; cbn; eauto.
      intros m' [Hm'|Hm'%list_elem_of_singleton]%elem_of_app; [eauto|by subst].
    + rewrite list_lookup_insert_ne in Hk by done. eauto.
Qed.

Lemma dispatch_all_inv msgs s s' ok :
  sender_inv s -> Forall msg_ok msgs -> dispatch_all debug dest_hash msgs s = Done (s', ok) ->
  sender_inv s' /\ sys_world s' = sys_world s.
Proof.
  intros H Hm. revert s H. induction Hm as [|m msgs Hm Hms IH]; intros s H; cbn [dispatch_all].
  { by intros [= <- _]. }
  intros Hd. bind_inv Hd. destruct a as [s1 ok1].
  destruct (dispatch_inv m s s1 ok1 H Hm Hd0) as [H1 E1]. destruct ok1; [|by injection Hd as <- _].
  destruct (IH s1 H1 Hd) as [H2 E2]. split; [done|congruence].
Qed.

(** *** All steps *)

Definition action_ok (a : action) : Prop :=
  match a with
  | Queue requests => Forall request_ok requests
  | FlushTo servers => Forall (fun s => server_name_ok s = true) servers
  | _ => True
  end.

(** Rows that go do not matter. *)
Definition shrinks (w w' : World) : Prop :=
  forall k v, (active w' !! k = Some v -> active w !! k = Some v) /\
              (queue w' !! k = Some v -> queue w !! k = Some v).

Lemma shrinks_row w w' d e : shrinks w w' -> row_for (active w') d e -> row_for (active w) d e.
Proof. intros H (k & v & Hk & Hp). exists k, v. split; [by apply H|done]. Qed.

Lemma sender_inv_shrink s w' : sender_inv s -> shrinks (sys_world s) w' -> sender_inv (set_world w' s).
Proof.
  intros H Hw. split; cbn.
  - apply H.
  - intros k v Hk. apply (si_active _ _ H k v). by apply Hw.
  - intros k v Hk. apply (si_queue _ _ H k v). by apply Hw.
  - intros i wk Hi. eapply worker_inv_frame; [by eapply si_worker|]. intros d e _. by apply shrinks_row.
Qed.

Lemma delete_active_shrinks d w : shrinks w (delete_all_active_requests_for d w).
Proof. intros k v. rewrite delete_active_rows, delete_active_queue. by split; [intros []|]. Qed.

Lemma cleanup_lookup d w k :
  (active (delete_all_requests_for d w) !! k =
     if decide (get_prefix d `prefix_of` k) then None else active w !! k) /\
  (queue (delete_all_requests_for d w) !! k =
     if decide (get_prefix d `prefix_of` k) then None else queue w !! k).
Proof.
  unfold delete_all_requests_for. split.
  - by rewrite delete_prefix_other, delete_prefix_lookup.
  - by rewrite delete_prefix_lookup, delete_prefix_other.
Qed.

Lemma cleanup_shrinks a u p w : shrinks w (cleanup_events a u p w).
Proof.
  assert (forall d, shrinks w (delete_all_requests_for d w)) as H.
  { intros d k v. destruct (cleanup_lookup d w k) as [-> ->]. by case_decide. }
  unfold cleanup_events. destruct a, u, p; by auto.
Qed.

(** The rows and the messages of requests that were given their keys. *)
Lemma requests_rows reqs keys :
  Forall2 (fun r k => parse_servercurrentevent k (event_value r.2) = Done r) reqs keys ->
  (forall k v, (k, v) ∈ zip keys (event_value <$> ((fun '(o, e) => (e, o)) <$> reqs).*1) ->
     exists d e, parse_servercurrentevent k v = Done (d, e)) /\
  Forall msg_ok ((fun '((dest, event), queue_id) => MkMsg dest event queue_id) <$> zip reqs keys).
Proof.
  induction 1 as [|[d e] k reqs keys Hp Hf [IH1 IH2]]; [split; [intros k v []%not_elem_of_nil|constructor]|].
  cbn [fst snd] in Hp. split.
  - cbn. intros k' v [[= -> ->]|Hin]%elem_of_cons; [by exists d, e|by apply IH1].
  - cbn. constructor; [|done]. split; cbn; [by apply parse_key in Hp as [? _]|by right].
Qed.

Lemma queue_inv reqs s s' ok :
  sender_inv s -> Forall request_ok reqs -> queue_and_dispatch debug dest_hash reqs s = Done (s', ok) ->
  sender_inv s' /\ forall k, pending (sys_world s) k -> pending (sys_world s') k.
Proof.
  intros H Hr. unfold queue_and_dispatch, queue_requests. intros Hq. bind_inv Hq. destruct a as [keys w1].
  bind_inv Hq0. destruct a as [keys' w2]. injection Hq0 as <- <-.
  destruct (request_keys_ok _ _ _ _ Hr Hq1) as [Hm Hf].
  destruct (requests_rows _ _ Hf) as [Hrows Hmsgs].
  match type of Hq with dispatch_all _ _ _ ?s1 = _ => assert (sender_inv s1) as Hs1 end.
  - split; cbn; [apply H|..]; autorewrite with world; rewrite ?Hm; [apply H| |].
    + intros k v [Hin|Hk]%insert_batch_lookup; [by eapply Hrows|by apply (si_queue _ _ H k v)].
    + intros i wk Hi. eapply worker_inv_frame; [by eapply si_worker|]. intros d e _.
      autorewrite with world. by rewrite Hm.
  - destruct (dispatch_all_inv _ _ _ _ Hs1 Hmsgs Hq) as [H1 H2].
    split; [done|]. rewrite H2. cbn. intros k [Hk|Hk]; [left|right]; autorewrite with world; rewrite Hm; [done|].
    by apply insert_batch_keeps.
Qed.

Lemma finish_inv n i w wk j d evs ok :
  worker_inv n i false w wk -> futures wk !! j = Some (d, evs) ->
  worker_inv n i false (finish_response w (d, ok)) (MkWorker (statuses wk) (delete j (futures wk)) (channel wk)).
Proof.
  intros H Hj. assert (shrinks w (finish_response w (d, ok))) as Hw.
  { destruct ok; [apply delete_active_shrinks|by intros k v]. }
  apply (worker_inv_frame _ n i false w); [|intros d' e _; by apply shrinks_row].
  destruct (delete_future _ _ _ _ (wi_nodup _ _ _ _ _ _ H) Hj) as (Hn & Hnd & Hf).
  assert (forall x, x ∈ delete j (futures wk) -> x ∈ futures wk) as Hsub.
  { intros x Hx. rewrite (delete_Permutation _ _ _ Hj). by right. }
  destruct H. split; cbn; eauto; [|done].
  intros d' (x & -> & Hx)%list_elem_of_fmap. apply wi_flight0, list_elem_of_fmap_2. auto.
Qed.

(** *** The steps of a worker, taken apart *)

Lemma receive_step i now s s' :
  step debug config dest_hash (Receive i now) s s' ->
  exists wk m chan w' fs' st',
    closed s = false /\ workers s !! i = Some wk /\ channel wk = m :: chan /\
    handle_request debug config m now (sys_world s) (futures wk) (statuses wk) = Done (w', fs', st') /\
    s' = set_worker i (MkWorker st' fs' chan) (set_world w' s).
Proof.
  unfold step, exec. destruct (closed s); [done|].
  destruct (workers s !! i) as [[st fs [|m chan]]|]; [done| |done].
  unfold put_back. intros H. bind_inv H. destruct a as [[w' fs'] st']. injection H as <-.
  exists (MkWorker st fs (m :: chan)), m, chan, w', fs', st'. done.
Qed.

Lemma respond_step i j ok now s s' :
  step debug config dest_hash (Respond i j ok now) s s' ->
  exists wk d evs w' fs' st',
    closed s = false /\ workers s !! i = Some wk /\ futures wk !! j = Some (d, evs) /\
    (if ok then handle_response_ok debug d (sys_world s) (delete j (futures wk)) (statuses wk) = Done (w', fs', st')
     else handle_response_err d now (statuses wk) = Done st' /\ w' = sys_world s /\ fs' = delete j (futures wk)) /\
    s' = set_worker i (MkWorker st' fs' (channel wk)) (set_world w' s).
Proof.
  unfold step, exec. destruct (closed s); [done|].
  destruct (workers s !! i) as [wk|]; [|done]. cbn [mbind option_bind].
  destruct (futures wk !! j) as [[d evs]|] eqn:Ej; [|done]. cbn [mbind option_bind].
  unfold put_back. intros H. bind_inv H. destruct a as [[w' fs'] st']. injection H as <-.
  exists wk, d, evs, w', fs', st'. split_and!; [done|done|done| |done].
  destruct ok; [done|]. bind_inv H0. by injection H0 as <- <- <-.
Qed.

Lemma finish_step i j ok s s' :
  step debug config dest_hash (Finish i j ok) s s' ->
  exists wk d evs,
    closed s = true /\ workers s !! i = Some wk /\ futures wk !! j = Some (d, evs) /\
    s' = set_worker i (MkWorker (statuses wk) (delete j (futures wk)) (channel wk))
           (set_world (finish_response (sys_world s) (d, ok)) s).
Proof.
  unfold step, exec. destruct (closed s); [|done].
  destruct (workers s !! i) as [wk|]; [|done]. cbn [mbind option_bind].
  destruct (futures wk !! j) as [[d evs]|] eqn:Ej; [|done]. cbn [mbind option_bind put_back outcome_bind].
  intros [= <-]. by exists wk, d, evs.
Qed.

Lemma handle_response_err_cases d now st st' :
  handle_response_err d now st = Done st' ->
  st' = st /\ st !! d = None \/
  exists o n, st !! d = Some o /\ st' = <[d := Failed n now]> st.
Proof.
  unfold handle_response_err. destruct (st !! d) as [[]|] eqn:Es; intros [= <-]; [right..|by left]; eauto.
Qed.

Lemma respond_ok_world d w :
  dest_ok d -> rows_ok (active w) -> rows_ok (queue w) ->
  let w' := mark_as_active (next_items d w) (delete_all_active_requests_for d w) in
  changes_only d w w' /\ rows_ok (active w') /\ rows_ok (queue w').
Proof.
  intros Hd Ha Hq. assert (items_for d (next_items d w)) as Hit by by apply queued_items_for.
  split; [eapply changes_only_trans; [apply delete_active_changes|by apply mark_as_active_changes]|].
  apply (mark_as_active_ok d); [done|by apply delete_active_ok|by rewrite delete_active_queue].
Qed.

Lemma receive_world m w fs st w' fs' st' :
  msg_ok m -> rows_ok (active w) -> rows_ok (queue w) -> request_effect m w fs st w' fs' st' ->
  changes_only (msg_dest m) w w' /\ rows_ok (active w') /\ rows_ok (queue w') /\
  forall k, pending w k -> pending w' k.
Proof.
  intros Hm Ha Hq [| | |w'' edus Hst Hl [Hf1 Hf2]%frame_sends]; [by split_and!..|].
  pose proof (msg_items m Hm) as Hit. unfold pending. setoid_rewrite Hf1. setoid_rewrite Hf2. split_and!.
  - intros k Hk. rewrite Hf1, Hf2. by apply (mark_as_active_changes (msg_dest m)).
  - by apply (mark_as_active_ok (msg_dest m)).
  - by apply (mark_as_active_ok (msg_dest m)).
  - intros k. apply mark_as_active_pending.
Qed.

Lemma step_preserves a s s' :
  sender_inv s -> action_ok a -> step debug config dest_hash a s s' -> sender_inv s'.
Proof.
  intros H Ha Hst. pose proof (si_active _ _ H) as Hra. pose proof (si_queue _ _ H) as Hrq.
  destruct a as [reqs|servers|x u p|i now|i j ok now| |i j ok].
  - unfold step, exec in Hst. bind_inv Hst. destruct a as [s1 ok]. injection Hst as <-. by eapply queue_inv.
  - unfold step, exec in Hst. bind_inv Hst. destruct a as [s1 ok]. injection Hst as <-.
    eapply dispatch_all_inv; [done| |exact Hst0]. apply Forall_fmap.
    eapply Forall_impl; [exact Ha|]. intros x Hx. split; [done|by left].
  - injection Hst as <-. apply sender_inv_shrink; [done|apply cleanup_shrinks].
  - apply receive_step in Hst as (wk & m & chan & w' & fs' & st' & Hc & Hi & Hch & Hr & ->).
    pose proof (si_worker _ _ H i wk Hi) as Hw. rewrite Hc in Hw.
    destruct (wi_channel _ _ _ _ _ _ Hw m) as [Hs Hm]; [rewrite Hch; by left|].
    apply handle_request_effect in Hr; [|done|done].
    destruct (receive_world _ _ _ _ _ _ _ Hm Hra Hrq Hr) as (Hco & Ho1 & Ho2 & _).
    eapply sender_inv_put; [done|done|done|apply Hm|done|done|done|]. rewrite Hc. by eapply receive_inv.
  - apply respond_step in Hst as (wk & d & evs & w' & fs' & st' & Hc & Hi & Hj & Hr & ->).
    pose proof (si_worker _ _ H i wk Hi) as Hw. rewrite Hc in Hw.
    destruct (wi_future_shard _ _ _ _ _ _ d evs Hw) as [Hs Hd]; [by eapply list_elem_of_lookup_2|].
    destruct ok.
    + rewrite handle_response_ok_eq in Hr by done. injection Hr as <- <- <-.
      destruct (respond_ok_world d _ Hd Hra Hrq) as (Hco & Ho1 & Ho2).
      eapply sender_inv_put; [done|done|done|done|done|done|done|]. rewrite Hc. by eapply respond_ok_inv.
    + destruct Hr as (Hr & -> & ->). eapply sender_inv_put; [done|done|done|done|done|done|done|]. rewrite Hc.
      apply handle_response_err_cases in Hr as [[-> Hn]|(o & n & Ho & ->)]; [|eapply respond_err_inv; eauto].
      exfalso. pose proof (wi_flight _ _ _ _ _ _ Hw d) as Hf. rewrite Hn in Hf. apply Hf.
      apply (list_elem_of_fmap_2 fst _ (d, evs)). by eapply list_elem_of_lookup_2.
  - injection Hst as <-. split; cbn; [apply H..|]. intros i wk Hi.
    destruct (si_worker _ _ H i wk Hi). split; eauto. done.
  - apply finish_step in Hst as (wk & d & evs & Hc & Hi & Hj & ->).
    pose proof (si_worker _ _ H i wk Hi) as Hw. rewrite Hc in Hw.
    destruct (wi_future_shard _ _ _ _ _ _ d evs Hw) as [Hs Hd]; [by eapply list_elem_of_lookup_2|].
    assert (changes_only d (sys_world s) (finish_response (sys_world s) (d, ok)) /\
            shrinks (sys_world s) (finish_response (sys_world s) (d, ok))) as [Hco Hsh].
    { destruct ok; [split; [apply delete_active_changes|apply delete_active_shrinks]|done]. }
    eapply sender_inv_put; [done|done|done|done|done| | |rewrite Hc; by eapply finish_inv].
    + intros k v Hk. apply (Hra k v). by apply Hsh.
    + intros k v Hk. apply (Hrq k v). by apply Hsh.
Qed.

End preservation.
