(* ===== verification/Delivery.v ===== *)
(** * What the sender workers guarantee

    The claims about [Sending] and [SenderSystem]: one transaction in flight per
    destination, no event lost, the queue drains, the size of a transaction; and
    what the sender does not do. *)

From stdpp Require Import prelude gmap strings list sorting.
From Stdlib Require Import ZArith Lia.
From Stdlib Require Import Strings.Byte.
From S2P Require Import Prelude MachineInt PduCount DbCodec DbMap CoreUtils Short World Sending SenderSystem.
Import PduId.

Section startup.
Context (debug : bool) {E : Engine} {I : Ids} {Sc : Schedule}.
Context (config : SenderConfig) (shard : Destination -> nat) (i : nat).

Abbreviation txns := (gmap Destination (list SendingEvent)).

Lemma active_requests_items w :
  rows_ok (active w) ->
  exists items, active_requests w = Done items /\ Forall (fun it => dest_ok it.2) items /\
    (forall d, length (filter (fun it => it.2 = d) items) <= length (rows_for servercurrentevent_data d w)) /\
    forall k v d e, active w !! k = Some v -> parse_servercurrentevent k v = Done (d, e) ->
      (k, e, d) ∈ items.
Proof.
  intros Ho. unfold active_requests. rewrite raw_stream_rows.
  rewrite (try_map_done _ (fun r => match parse_servercurrentevent r.1 r.2 with
                                    | Done (d, e) => (r.1, e, d) | _ => (r.1, Flush, Appservice []) end)).
  - eexists. split_and!; [done| | |].
    { apply Forall_forall. intros it ([k v] & -> & Hr%elem_of_rows)%list_elem_of_fmap. cbn [fst snd].
      destruct (Ho k v Hr) as (d & e & Hp). rewrite Hp. cbn. by apply parse_key in Hp as [? _]. }
    { intros d. rewrite list_filter_fmap, length_fmap, rows_for_filter. apply submseteq_length, NoDup_submseteq.
      { eapply NoDup_filter, NoDup_fmap_1, rows_NoDup_keys. }
      intros [k v]. rewrite !list_elem_of_filter, elem_of_rows. cbn [compose fst snd]. intros [Hp Hk]. split; [|done].
      destruct (Ho k v Hk) as (d' & e & Hp'). rewrite Hp' in Hp. cbn in Hp. subst d'.
      unfold key_prefix. by apply parse_key in Hp' as (_ & ? & _). }
    intros k v d e Hk Hp. apply list_elem_of_fmap. exists (k, v).
    cbn [fst snd]. rewrite Hp. split; [done|]. by apply elem_of_rows.
  - intros [k v] Hr%elem_of_rows. unfold item_of. cbn [fst snd].
    by destruct (Ho k v Hr) as (d & e & ->).
Qed.

(** The rows of the shard that are left have their event in a transaction. *)
Record netburst_ok (w : World) (items : list (bytes * SendingEvent * Destination)) (r : World * txns) : Prop := {
  nb_shrinks : shrinks w r.1;
  nb_shard : forall d evs, r.2 !! d = Some evs -> shard d = i /\ dest_ok d;
  nb_length : forall d evs, r.2 !! d = Some evs ->
    length evs <= length (filter (fun it => it.2 = d) items);
  nb_rows : forall k e d v, (k, e, d) ∈ items -> shard d = i -> active r.1 !! k = Some v ->
    exists evs, r.2 !! d = Some evs /\ e ∈ evs }.

Lemma netburst_item_ok w items r item :
  netburst_ok w items r -> dest_ok item.2 -> netburst_ok w (items ++ [item]) (netburst_item config shard i r item).
Proof.
  intros H Hok. destruct r as [w1 tx], item as [[k e] d]. unfold netburst_item. cbn in Hok.
  assert (forall d', length (filter (fun it => it.2 = d') (items ++ [(k, e, d)])) =
    length (filter (fun it => it.2 = d') items) + if decide (d = d') then 1 else 0) as Hlen.
  { intros d'. rewrite filter_app, length_app, filter_cons, filter_nil. cbn [snd]. by case_decide. }
  assert (length (default [] (tx !! d)) <= length (filter (fun it => it.2 = d) items)) as Hd.
  { destruct (tx !! d) as [evs|] eqn:Et; [by apply (nb_length _ _ _ H)|cbn; lia]. }
  destruct (Nat.eqb_spec (shard d) i) as [Hi|Hi]; cbn [negb].
  2: { split; [apply H..| |].
       { intros d' evs Hd'. rewrite Hlen. pose proof (nb_length _ _ _ H d' evs Hd'). lia. }
       intros k' e' d' v [Hin|[= -> -> ->]%list_elem_of_singleton]%elem_of_app; [|done].
       by eapply nb_rows. }
  case_match.
  - split; cbn [fst snd].
    + intros k' v. unfold delete_active_request. autorewrite with world.
      pose proof (nb_shrinks _ _ _ H k' v) as [H1 H2]. split; [|done].
      intros [_ Hk]%lookup_delete_Some. by apply H1.
    + intros d' evs. destruct (decide (d = d')) as [<-|Hne]; [done|]. rewrite lookup_insert_ne by done.
      apply (nb_shard _ _ _ H).
    + intros d' evs Hd'. rewrite Hlen. destruct (decide (d = d')) as [<-|Hne].
      * rewrite lookup_insert_eq in Hd'. injection Hd' as <-. rewrite ?length_app. cbn. lia.
      * rewrite lookup_insert_ne in Hd' by done. pose proof (nb_length _ _ _ H d' evs Hd'). lia.
    + intros k' e' d' v Hin Hs. unfold delete_active_request. autorewrite with world.
      intros [Hne Hk]%lookup_delete_Some.
      apply elem_of_app in Hin as [Hin|[= -> -> ->]%list_elem_of_singleton]; [|done].
      destruct (nb_rows _ _ _ H k' e' d' v Hin Hs Hk) as (evs & Hd' & He). cbn in Hd'.
      destruct (decide (d = d')) as [<-|]; [|rewrite lookup_insert_ne by done; eauto].
      rewrite lookup_insert_eq, Hd'. eauto.
  - split; cbn [fst snd]; [apply H| | |].
    + intros d' evs. destruct (decide (d = d')) as [<-|Hne]; [done|]. rewrite lookup_insert_ne by done.
      apply (nb_shard _ _ _ H).
    + intros d' evs Hd'. rewrite Hlen. destruct (decide (d = d')) as [<-|Hne].
      * rewrite lookup_insert_eq in Hd'. injection Hd' as <-. rewrite length_app. cbn. lia.
      * rewrite lookup_insert_ne in Hd' by done. pose proof (nb_length _ _ _ H d' evs Hd'). lia.
    + intros k' e' d' v Hin Hs Hk.
      apply elem_of_app in Hin as [Hin|[= -> -> ->]%list_elem_of_singleton].
      * destruct (nb_rows _ _ _ H k' e' d' v Hin Hs Hk) as (evs & Hd' & He). cbn in Hd'.
        destruct (decide (d = d')) as [<-|]; [|rewrite lookup_insert_ne by done; eauto].
        rewrite lookup_insert_eq, Hd'. cbn. eexists. split; [done|]. set_solver.
      * rewrite lookup_insert_eq. eexists. split; [done|]. set_solver.
Qed.

Lemma netburst_items_ok w items :
  Forall (fun it => dest_ok it.2) items -> netburst_ok w items (foldl (netburst_item config shard i) (w, ∅) items).
Proof.
  induction items as [|x items IH] using rev_ind.
  2: { intros [H1 H2]%Forall_app. rewrite foldl_app. cbn [foldl]. apply netburst_item_ok; [by apply IH|by apply (Forall_singleton (fun it => dest_ok it.2) x)]. }
  split; cbn; [done|done|done|intros ? ? ? ? []%not_elem_of_nil].
Qed.

(** The transactions that are started, and their statuses. *)
Definition nonempty (txn : Transaction) : Prop := txn.2 <> [].
#[local] Instance nonempty_dec txn : Decision (nonempty txn).
Proof. unfold nonempty. apply _. Defined.

Lemma netburst_start_all l fs st :
  startup_netburst_on config = true ->
  try_fold (netburst_start debug config) (fs, st) l =
    Done (fs ++ filter nonempty l, foldl (fun st txn => <[txn.1 := Running]> st) st (filter nonempty l)).
Proof.
  intros Hon. revert fs st. induction l as [|[d evs] l IH]; intros fs st; cbn [try_fold].
  { by rewrite filter_nil, app_nil_r. }
  assert (netburst_start debug config (fs, st) (d, evs) =
    if decide (nonempty (d, evs)) then Done (fs ++ [(d, evs)], <[d := Running]> st) else Done (fs, st)) as ->.
  { unfold netburst_start. rewrite Hon. case_decide as Hne; unfold nonempty in Hne; cbn in Hne.
    - rewrite bool_decide_eq_false_2 by done. cbn [andb negb]. by rewrite send_events_ok.
    - rewrite bool_decide_eq_true_2; [done|]. destruct evs; [done|]. by destruct Hne. }
  rewrite filter_cons. case_decide; cbn [mbind outcome_bind]; rewrite IH; [|done].
  cbn [foldl fst]. by rewrite <- app_assoc.
Qed.

Lemma foldl_running (l : list Transaction) st d :
  foldl (fun st txn => <[txn.1 := Running]> st) st l !! d =
    if decide (d ∈ l.*1) then Some Running else (st : CurTransactionStatus) !! d.
Proof.
  revert st. induction l as [|[d0 evs] l IH]; intros st; cbn [foldl fst].
  { rewrite decide_False; [done|]. apply not_elem_of_nil. }
  rewrite IH. cbn [fmap list_fmap fst]. destruct (decide (d = d0)) as [->|Hne].
  - rewrite lookup_insert_eq. repeat case_decide; set_solver.
  - rewrite lookup_insert_ne by done. repeat case_decide; set_solver.
Qed.

(** A worker after startup, with the burst on. *)
Lemma startup_netburst_ok w :
  startup_netburst_on config = true -> rows_ok (active w) ->
  exists w' fs st, startup_netburst debug config shard i w = Done (w', fs, st) /\ shrinks w w' /\
    NoDup fs.*1 /\ (forall d, in_flight (st !! d) <-> d ∈ fs.*1) /\
    (forall d, is_Some (st !! d) -> d ∈ fs.*1) /\
    (forall d evs, (d, evs) ∈ fs -> shard d = i /\ dest_ok d /\ evs <> []) /\
    (forall d evs, (d, evs) ∈ fs -> length evs <= length (rows_for servercurrentevent_data d w)) /\
    (forall d e, row_for (active w') d e -> shard d = i -> exists evs, (d, evs) ∈ fs /\ e ∈ evs).
Proof.
  intros Hon Ho. unfold startup_netburst. destruct (active_requests_items w Ho) as (items & -> & Hok & Hlen & Hitems).
  cbn [mbind outcome_bind]. pose proof (netburst_items_ok w items Hok) as H.
  destruct (foldl _ _ items) as [w' tx]. rewrite netburst_start_all by done. cbn [mbind outcome_bind app].
  set (l := reorder "startup_netburst" (map_to_list tx)).
  assert (NoDup l.*1) as Hn.
  { unfold l. rewrite reorder_perm. apply NoDup_fst_map_to_list. }
  assert (forall d evs, (d, evs) ∈ filter nonempty l <-> tx !! d = Some evs /\ evs <> []) as Hl.
  { intros d evs. unfold l. rewrite list_elem_of_filter, elem_of_reorder, elem_of_map_to_list.
    unfold nonempty. cbn. tauto. }
  assert (forall d, foldl (fun st txn => <[txn.1 := Running]> st) (∅ : CurTransactionStatus) (filter nonempty l) !! d
            = if decide (d ∈ (filter nonempty l).*1) then Some Running else None) as Hst.
  { intros d. by rewrite foldl_running, lookup_empty. }
  eexists w', _, _. split; [done|]. split_and!.
  - apply (nb_shrinks _ _ _ H).
  - by apply NoDup_fmap_fst_filter.
  - intros d. rewrite Hst. by case_decide.
  - intros d. rewrite Hst. case_decide; [done|]. by intros [? ?].
  - intros d evs [Hd Hne]%Hl. by destruct (nb_shard _ _ _ H d evs Hd).
  - intros d evs [Hd _]%Hl. etrans; [by apply (nb_length _ _ _ H)|apply Hlen].
  - intros d e (k & v & Hk & Hp) Hs.
    destruct (nb_rows _ _ _ H k e d v) as (evs & Hd & He); [|done|done|].
    + eapply Hitems; [|exact Hp]. by apply (nb_shrinks _ _ _ H).
    + exists evs. split; [|done]. apply Hl. split; [done|]. by destruct evs; [apply not_elem_of_nil in He|].
Qed.

End startup.

(** ** Reachable systems *)

Section reachable.
Context (debug : bool) {E : Engine} {I : Ids} {Ed : EduSource} {Sc : Schedule}.
Context (config : SenderConfig) (dest_hash : Destination -> Z).

(** From a start with the burst on, by the steps of the workers and of callers
    that pass valid requests. *)
Inductive reachable (w : World) : System -> Prop :=
| reach_start n s :
    startup_netburst_on config = true -> 0 < n -> rows_ok (active w) -> rows_ok (queue w) ->
    start debug config dest_hash n w = Done s -> reachable w s
| reach_step a s s' :
    reachable w s -> action_ok a -> step debug config dest_hash a s s' -> reachable w s'.

Lemma shrinks_trans w1 w2 w3 : shrinks w1 w2 -> shrinks w2 w3 -> shrinks w1 w3.
Proof. intros H1 H2 k v. destruct (H1 k v), (H2 k v). auto. Qed.

Lemma shrinks_ok w w' :
  shrinks w w' -> rows_ok (active w) -> rows_ok (queue w) -> rows_ok (active w') /\ rows_ok (queue w').
Proof.
  intros H Ha Hq. split; intros k v Hk.
  - apply (Ha k v). by apply H.
  - apply (Hq k v). by apply H.
Qed.

(** The first [m] workers of [n] are up. *)
Definition started (n m : nat) (w0 : World) (r : World * list Worker) : Prop :=
  shrinks w0 r.1 /\ length r.2 = m /\
  (forall i wk, r.2 !! i = Some wk -> worker_inv dest_hash n i true r.1 wk) /\
  forall i wk d evs, r.2 !! i = Some wk -> (d, evs) ∈ futures wk ->
    length evs <= length (rows_for servercurrentevent_data d w0).

Lemma rows_for_shrinks w w' d :
  (forall k v, active w' !! k = Some v -> active w !! k = Some v) ->
  length (rows_for servercurrentevent_data d w') <= length (rows_for servercurrentevent_data d w).
Proof.
  intros H. apply submseteq_length, NoDup_submseteq; [eapply NoDup_fmap_1, rows_for_NoDup|].
  intros [k v]. rewrite !rows_for_elem. intros [? ?]. split; [done|by apply H].
Qed.

Lemma start_worker_ok n m w0 r :
  startup_netburst_on config = true -> rows_ok (active w0) -> rows_ok (queue w0) -> started n m w0 r ->
  exists r', start_worker debug config dest_hash n r m = Done r' /\ started n (S m) w0 r'.
Proof.
  intros Hon Ha Hq (Hsh & Hl & Hw & Hsz). destruct r as [w ws]. cbn [fst snd] in *.
  destruct (shrinks_ok w0 w Hsh Ha Hq) as [Ha' Hq'].
  destruct (startup_netburst_ok debug config (shard_id dest_hash n) m w Hon Ha')
    as (w' & fs & st & Hs & Hsh' & Hnd & Hfl & Hsome & Hd & Hlen & Hrow).
  unfold start_worker. cbn [fst snd]. rewrite Hs. cbn [mbind outcome_bind]. eexists. split; [done|].
  split_and!; cbn [fst snd]; [by eapply shrinks_trans|rewrite length_app; cbn; lia| |].
  2: { intros i wk d evs [Hi|[_ Hi]]%lookup_app_Some; [by eapply Hsz|].
       apply list_lookup_singleton_Some in Hi as [_ <-]. intros Hin. cbn in Hin.
       etrans; [by apply Hlen|]. apply rows_for_shrinks. apply Hsh. }
  intros i wk [Hi|[Hge Hi]]%lookup_app_Some.
  - eapply worker_inv_frame; [by apply Hw|]. intros d e _. by apply shrinks_row.
  - apply list_lookup_singleton_Some in Hi as [Hi <-]. assert (i = m) as -> by lia.
    assert (forall d, d ∈ fs.*1 -> exists evs, (d, evs) ∈ fs) as Hin.
    { intros d ([d' evs] & -> & Hf)%list_elem_of_fmap. by exists evs. }
    split; cbn.
    + intros d st' Hst. destruct (Hin d) as [evs Hf]; [apply Hsome; by eexists|]. by destruct (Hd d evs Hf) as (? & ? & _).
    + done.
    + intros d. apply Hfl.
    + intros _ d. apply Hfl.
    + intros d e Hr Hsd. destruct (Hrow d e Hr Hsd) as (evs & Hf & _).
      assert (in_flight (st !! d)) as Hi' by (apply Hfl; by apply (list_elem_of_fmap_2 fst) in Hf).
      by destruct (st !! d).
    + intros d evs e Hf Hr. destruct (Hd d evs Hf) as (Hs' & _).
      destruct (Hrow d e Hr Hs') as (evs' & Hf' & He).
      enough ((d, evs) = (d, evs')) as [= ->] by done.
      by eapply (NoDup_fmap_fst_unique fs).
    + intros d evs Hf. by apply (Hd d evs).
    + intros m' []%not_elem_of_nil.
Qed.

Lemma start_inv n w :
  startup_netburst_on config = true -> 0 < n -> rows_ok (active w) -> rows_ok (queue w) ->
  exists s, start debug config dest_hash n w = Done s /\ sender_inv dest_hash s /\ shrinks w (sys_world s) /\
    forall i wk d evs, workers s !! i = Some wk -> (d, evs) ∈ futures wk ->
      length evs <= length (rows_for servercurrentevent_data d w).
Proof.
  intros Hon Hn Ha Hq. unfold start.
  assert (forall m, exists r, try_fold (start_worker debug config dest_hash n) (w, []) (List.seq 0 m) = Done r
            /\ started n m w r) as Hall.
  { induction m as [|m (r & Hr & Hs)].
    - exists (w, []). split; [done|]. split_and!; [done|done|by intros []|by intros []].
    - rewrite seq_S, try_fold_app, Hr. cbn [mbind outcome_bind try_fold Nat.add].
      destruct (start_worker_ok n m w r Hon Ha Hq Hs) as (r' & -> & Hs'). by exists r'. }
  destruct (Hall n) as ([w' ws] & -> & Hsh & Hl & Hw & Hsz). cbn [mbind outcome_bind fst snd] in *.
  eexists. split; [done|]. split; [|done]. destruct (shrinks_ok w w' Hsh Ha Hq).
  split; cbn; [intros ->; cbn in Hl; lia|done|done|]. by rewrite Hl.
Qed.

Lemma reachable_inv w s : reachable w s -> sender_inv dest_hash s.
Proof.
  induction 1 as [n s Hon Hn Ha Hq Hs|a s s' _ IH Ha Hst].
  - destruct (start_inv n w Hon Hn Ha Hq) as (s' & Hs' & H & _). congruence.
  - by eapply step_preserves.
Qed.

(** ** No step panics *)

Lemma shard_id_lt n d : 0 < n -> shard_id dest_hash n d < n.
Proof.
  intros Hn. unfold shard_id. destruct (Nat.leb_spec n 1); [lia|].
  rewrite Nat.max_l by lia. pose proof (Z.mod_pos_bound (as_u64 (dest_hash d)) (Z.of_nat n)). lia.
Qed.

Lemma dispatch_all_total msgs s :
  workers s <> [] -> debug && closed s = false -> exists r, dispatch_all debug dest_hash msgs s = Done r.
Proof.
  intros Hw Hc. revert s Hw Hc. induction msgs as [|m msgs IH]; intros s Hw Hc; [by eexists|].
  cbn [dispatch_all]. unfold dispatch.
  destruct (lookup_lt_is_Some_2 (workers s) (shard_id dest_hash (length (workers s)) (msg_dest m))) as [wk Hwk].
  { apply shard_id_lt. destruct (workers s); [done|cbn; lia]. }
  rewrite Hwk. cbn [expect mbind outcome_bind]. rewrite Hc. destruct (closed s) eqn:Ec; cbn [mbind outcome_bind]; [by eexists|].
  apply IH; [|cbn; rewrite Ec; apply andb_false_r]. cbn. intros E0. apply (f_equal length) in E0. rewrite length_insert in E0.
  by destruct (workers s).
Qed.

Lemma request_keys_total reqs w :
  count_ok (Z.of_nat (length reqs)) w -> exists r, request_keys debug reqs w = Done r.
Proof.
  revert w. induction reqs as [|[e d] reqs IH]; intros w Hc; [by eexists|].
  assert (exists suffix w1, (match e with
    | Pdu value => Done (as_bytes value, w)
    | _ => '(count, w) ← next_count debug w; Done (u64_to_be_bytes count, w)
    end : outcome CodecError (bytes * World)) = Done (suffix, w1) /\ count_ok (Z.of_nat (length reqs)) w1)
    as (suffix & w1 & Hs & Hc1).
  { destruct (next_count_ok debug _ w Hc) as (w1 & Hn & _ & _ & Hc' & _); [cbn; lia|].
    assert (count_ok (Z.of_nat (length reqs)) w) by (eapply count_ok_mono; [exact Hc|cbn; lia]).
    assert (count_ok (Z.of_nat (length reqs)) w1) by (eapply count_ok_mono; [exact Hc'|cbn; lia]).
    destruct e; [by eexists _, _|rewrite Hn; by eexists _, _..]. }
  cbn [request_keys]. rewrite Hs. cbn [mbind outcome_bind].
  destruct (IH w1 Hc1) as [[keys w2] ->]. by eexists.
Qed.

(** What a step relies on: the counter has room, messages are not sent after
    the shutdown in a debug build, and the selection of ephemeral events does
    not panic. *)
Definition env_ok (a : action) (s : System) : Prop :=
  match a with
  | Queue requests => count_ok (Z.of_nat (length requests)) (sys_world s) /\ debug && closed s = false
  | FlushTo _ => debug && closed s = false
  | Receive _ _ =>
      forall server w', frame send_tables (sys_world s) w' -> globals w' = globals (sys_world s) ->
        outcome_spec (select_edus server w') (fun _ => True) (fun _ => True)
  | _ => True
  end.

Lemma inv_total a s :
  sender_inv dest_hash s -> env_ok a s -> exists r, exec debug config dest_hash a s = Done r.
Proof.
  intros H He. pose proof (si_active _ _ H) as Hra. pose proof (si_queue _ _ H) as Hrq.
  pose proof (si_workers _ _ H) as Hws.
  destruct a as [reqs|servers|x u p|i now|i j ok now| |i j ok]; cbn [exec env_ok] in *; [| |by eexists| | |by eexists|].
  - destruct He as [Hc Hd]. unfold queue_and_dispatch, queue_requests.
    edestruct (request_keys_total ((fun '(o, e) => (e, o)) <$> reqs)) as [[keys w] ->].
    { by rewrite length_fmap. }
    cbn [mbind outcome_bind].
    match goal with |- context [dispatch_all _ _ ?msgs ?s1] =>
      destruct (dispatch_all_total msgs s1 Hws Hd) as [[s' ok] ->] end. by eexists.
  - unfold flush_servers.
    match goal with |- context [dispatch_all _ _ ?msgs ?s1] =>
      destruct (dispatch_all_total msgs s1 Hws He) as [[s' ok] ->] end. by eexists.
  - destruct (closed s) eqn:Hc; [by eexists|].
    destruct (workers s !! i) as [[st fs [|m chan]]|] eqn:Hi; [by eexists| |by eexists].
    pose proof (si_worker _ _ H i _ Hi) as Hw.
    destruct (wi_channel _ _ _ _ _ _ Hw m) as [_ Hm]; [by left|].
    destruct (handle_request_total debug config m now (sys_world s) fs st Hm Hra He) as [[[w' fs'] st'] ->].
    by eexists.
  - destruct (closed s) eqn:Hc; [by eexists|]. destruct (workers s !! i) as [wk|] eqn:Hi; [|by eexists].
    cbn [mbind option_bind]. destruct (futures wk !! j) as [[d evs]|] eqn:Hj; [|by eexists]. cbn [mbind option_bind].
    pose proof (si_worker _ _ H i _ Hi) as Hw. pose proof (list_elem_of_lookup_2 _ _ _ Hj) as Hin.
    destruct (wi_future_shard _ _ _ _ _ _ d evs Hw Hin) as [_ Hd].
    destruct ok; [rewrite handle_response_ok_eq by done; by eexists|].
    assert (in_flight (statuses wk !! d)) as Hfl.
    { eapply wi_flight; [done|]. by apply (list_elem_of_fmap_2 fst) in Hin. }
    unfold handle_response_err. destruct (statuses wk !! d) as [[]|]; [by eexists|by destruct Hfl|by eexists|by destruct Hfl].
  - destruct (closed s); [|by eexists]. destruct (workers s !! i) as [wk|]; [|by eexists].
    cbn [mbind option_bind]. destruct (futures wk !! j) as [[d evs]|]; by eexists.
Qed.

(** No step of a running sender panics: in particular a failed response
    always finds its destination running or retrying ([handle_response_err]
    panics otherwise), and every stored row can be read back ([expect("invalid
    servercurrentevent")]).  The step may rely on the counter having room and on
    the selection of ephemeral events not panicking. *)
Theorem sender_no_panic w a s :
  reachable w s -> env_ok a s -> exists r, exec debug config dest_hash a s = Done r.
Proof. intros H%reachable_inv. by apply inv_total. Qed.

(** C25. In a sender that was started with the burst on: at every moment at most
    one transaction is in flight for a destination, across all workers; while the
    sender runs, one is in flight exactly for the destinations whose status is
    running or retrying. *)
Theorem one_transaction_per_destination w s i wk :
  reachable w s -> workers s !! i = Some wk ->
  (forall i' wk' d evs evs', workers s !! i' = Some wk' -> (d, evs) ∈ futures wk -> (d, evs') ∈ futures wk' ->
     i = i' /\ evs = evs') /\
  NoDup (futures wk).*1 /\
  (forall d, d ∈ (futures wk).*1 -> in_flight (statuses wk !! d)) /\
  (closed s = false -> forall d, in_flight (statuses wk !! d) -> d ∈ (futures wk).*1).
Proof.
  intros H%reachable_inv Hi. pose proof (si_worker _ _ H i wk Hi) as Hw. split_and!.
  - intros i' wk' d evs evs' Hi' Hf Hf'. pose proof (si_worker _ _ H i' wk' Hi') as Hw'.
    destruct (wi_future_shard _ _ _ _ _ _ d evs Hw Hf) as [<- _].
    destruct (wi_future_shard _ _ _ _ _ _ d evs' Hw' Hf') as [<- _].
    rewrite Hi in Hi'. injection Hi' as <-. pose proof (wi_nodup _ _ _ _ _ _ Hw) as Hn.
    by pose proof (NoDup_fmap_fst_unique _ _ _ _ Hn Hf Hf') as [= <-].
  - by eapply wi_nodup.
  - intros d. by eapply wi_flight.
  - intros Hc d. eapply wi_live; [exact Hw|]. by rewrite Hc.
Qed.

(** Deleting the active rows of a transaction deletes what it carried. *)
Lemma delivered_or_pending s i j wk d evs k :
  sender_inv dest_hash s -> workers s !! i = Some wk -> futures wk !! j = Some (d, evs) ->
  pending (sys_world s) k ->
  pending (delete_all_active_requests_for d (sys_world s)) k \/
  exists e v, active (sys_world s) !! k = Some v /\ parse_servercurrentevent k v = Done (d, e) /\ e ∈ evs.
Proof.
  intros H Hi Hj [[v Hk]|Hk]; [|left; right; by rewrite delete_active_queue].
  destruct (si_active _ _ H k v Hk) as (d' & e & Hp). pose proof (si_worker _ _ H i _ Hi) as Hw.
  pose proof (list_elem_of_lookup_2 _ _ _ Hj) as Hin.
  destruct (wi_future_shard _ _ _ _ _ _ d evs Hw Hin) as [_ Hd].
  destruct (decide (d = d')) as [<-|Hne].
  - right. exists e, v. split_and!; [done|done|]. eapply wi_carried; [done|done|by exists k, v].
  - left. left. exists v. apply delete_active_rows. split; [done|]. intros Hpre. apply Hne.
    by apply (parse_prefix k v d d' e).
Qed.

Lemma cleanup_pending x u p w k :
  pending w k ->
  pending (cleanup_events x u p w) k \/
  exists d, get_prefix d `prefix_of` k /\ cleanup_events x u p w = delete_all_requests_for d w.
Proof.
  intros Hk.
  assert (forall d, pending (delete_all_requests_for d w) k \/ get_prefix d `prefix_of` k) as Hd.
  { intros d. destruct (decide (get_prefix d `prefix_of` k)) as [|Hn]; [by right|]. left. unfold pending.
    destruct (cleanup_lookup d w k) as [-> ->]. by rewrite !decide_False. }
  unfold cleanup_events. destruct x as [x|], u as [u|], p as [p|]; try (by left).
  - destruct (Hd (Appservice x)); eauto.
  - destruct (Hd (Push u p)); eauto.
Qed.

(** C4. While a sender runs that was started with the burst on
    ([startup_netburst]), an event leaves the tables only when it was delivered: what
    was pending (queued or active) before a step is pending after it, unless the
    step is a successful response of a transaction that carried the event, or a
    cleanup of its destination.  (The start itself is not such a step: it drops what
    was active beyond [startup_netburst_keep]; without the burst, see [Gaps].) *)
Theorem no_event_lost w a s s' k :
  reachable w s -> action_ok a -> step debug config dest_hash a s s' -> pending (sys_world s) k ->
  pending (sys_world s') k \/
  (exists i j wk d evs e v,
     ((exists now, a = Respond i j true now) \/ a = Finish i j true) /\
     workers s !! i = Some wk /\ futures wk !! j = Some (d, evs) /\
     active (sys_world s) !! k = Some v /\ parse_servercurrentevent k v = Done (d, e) /\ e ∈ evs) \/
  (exists x u p d, a = Cleanup x u p /\ get_prefix d `prefix_of` k /\
     cleanup_events x u p (sys_world s) = delete_all_requests_for d (sys_world s)).
Proof.
  intros H%reachable_inv Ha Hst Hk. pose proof (si_active _ _ H) as Hra. pose proof (si_queue _ _ H) as Hrq.
  pose proof (fun i j wk d evs => delivered_or_pending s i j wk d evs k H) as Hdel.
  destruct a as [reqs|servers|x u p|i now|i j ok now| |i j ok].
  - left. unfold step, exec in Hst. bind_inv Hst. destruct a as [s1 ok]. injection Hst as <-. by eapply queue_inv.
  - left. unfold step, exec in Hst. bind_inv Hst. destruct a as [s1 ok]. injection Hst as <-.
    edestruct dispatch_all_inv as [_ ->]; [exact H| |exact Hst0|done]. apply Forall_fmap.
    eapply Forall_impl; [exact Ha|]. intros x Hx. split; [done|by left].
  - injection Hst as <-. destruct (cleanup_pending x u p (sys_world s) k Hk) as [?|(d & ? & ?)]; [by left|].
    right. right. by exists x, u, p, d.
  - left. apply receive_step in Hst as (wk & m & chan & w' & fs' & st' & Hc & Hi & Hch & Hr & ->).
    destruct (wi_channel _ _ _ _ _ _ (si_worker _ _ H i wk Hi) m) as [_ Hm]; [rewrite Hch; by left|].
    apply handle_request_effect in Hr; [|done|done]. by eapply receive_world.
  - apply respond_step in Hst as (wk & d & evs & w' & fs' & st' & Hc & Hi & Hj & Hr & ->).
    destruct ok; [|left; by destruct Hr as (_ & -> & _)].
    destruct (wi_future_shard _ _ _ _ _ _ d evs (si_worker _ _ H i _ Hi)) as [_ Hd];
      [by eapply list_elem_of_lookup_2|].
    rewrite handle_response_ok_eq in Hr by done. injection Hr as <- _ _.
    destruct (Hdel i j wk d evs Hi Hj Hk) as [Hp|(e & v & Hv)]; [left; by apply mark_as_active_pending|].
    right. left. exists i, j, wk, d, evs, e, v. split; [left; by eexists|]. tauto.
  - left. by injection Hst as <-.
  - apply finish_step in Hst as (wk & d & evs & Hc & Hi & Hj & ->). destruct ok; [|by left].
    destruct (Hdel i j wk d evs Hi Hj Hk) as [Hp|(e & v & Hv)]; [by left|].
    right. left. exists i, j, wk, d, evs, e, v. split; [by right|]. tauto.
Qed.

(** ** The queue drains *)

(** Successful responses for [d], one after the other, with what was sent. *)
Inductive delivers (d : Destination) : list (list SendingEvent) -> System -> System -> Prop :=
| delivers_nil s : delivers d [] s s
| delivers_cons i j wk evs sent now s s1 s2 :
    workers s !! i = Some wk -> futures wk !! j = Some (d, evs) ->
    step debug config dest_hash (Respond i j true now) s s1 ->
    delivers d sent s1 s2 -> delivers d (evs :: sent) s s2.

(** Nothing is left to do for [d]. *)
Definition idle (d : Destination) (s : System) : Prop :=
  rows_for servercurrentevent_data d (sys_world s) = [] /\
  rows_for servernameevent_data d (sys_world s) = [] /\
  forall i wk, workers s !! i = Some wk -> statuses wk !! d = None.

(** One successful response: the next batch is sent. *)
Lemma respond_ok_step s i j wk d evs :
  sender_inv dest_hash s -> closed s = false -> workers s !! i = Some wk -> futures wk !! j = Some (d, evs) ->
  let l := rows_for servernameevent_data d (sys_world s) in
  exists s' wk', step debug config dest_hash (Respond i j true 0) s s' /\ sender_inv dest_hash s' /\
    closed s' = false /\ workers s' !! i = Some wk' /\
    rows_for servercurrentevent_data d (sys_world s') = take DEQUEUE_LIMIT l /\
    rows_for servernameevent_data d (sys_world s') = drop DEQUEUE_LIMIT l /\
    (if decide (l = []) then statuses wk' !! d = None
     else exists j', futures wk' !! j' = Some (d, row_event <$> take DEQUEUE_LIMIT l)) /\
    (forall i', i' <> i -> workers s' !! i' = workers s !! i').
Proof.
  intros H Hc Hi Hj l. pose proof (si_active _ _ H) as Hra. pose proof (si_queue _ _ H) as Hrq.
  destruct (wi_future_shard _ _ _ _ _ _ d evs (si_worker _ _ H i _ Hi)) as [_ Hd];
    [by eapply list_elem_of_lookup_2|].
  destruct (respond_ok_rows d (sys_world s) Hd Hrq) as [Ha Hq].
  assert (next_items d (sys_world s) = [] <-> l = []) as Hnil.
  { unfold next_items. fold l. split; [|by intros ->]. destruct l as [|r l']; [done|]. by unfold DEQUEUE_LIMIT. }
  set (s' := set_worker i
    (MkWorker (if decide (next_items d (sys_world s) = []) then delete d (statuses wk) else statuses wk)
       (if decide (next_items d (sys_world s) = []) then delete j (futures wk)
        else delete j (futures wk) ++ [(d, (next_items d (sys_world s)).*2)]) (channel wk))
    (set_world (mark_as_active (next_items d (sys_world s)) (delete_all_active_requests_for d (sys_world s))) s)).
  assert (step debug config dest_hash (Respond i j true 0) s s') as Hst.
  { unfold step, exec. rewrite Hc, Hi. cbn [mbind option_bind]. rewrite Hj. cbn [mbind option_bind].
    by rewrite handle_response_ok_eq by done. }
  assert (sender_inv dest_hash s') by (eapply step_preserves; [exact H| |exact Hst]; done).
  eexists s', _. split_and!; [done|done|done| | | | |].
  - cbn. rewrite list_lookup_insert_eq; [done|]. by eapply lookup_lt_Some.
  - done.
  - done.
  - cbn. destruct (decide (l = [])) as [Hl|Hl].
    + rewrite decide_True by tauto. apply lookup_delete_eq.
    + rewrite decide_False by tauto. exists (length (delete j (futures wk))).
      rewrite lookup_app_r, Nat.sub_diag by lia. cbn. by rewrite <- row_item_events.
  - intros i' Hne. cbn. by rewrite list_lookup_insert_ne.
Qed.

Lemma status_home s d i i' wk' :
  sender_inv dest_hash s -> shard_id dest_hash (length (workers s)) d = i -> i' <> i ->
  workers s !! i' = Some wk' -> statuses wk' !! d = None.
Proof.
  intros H Hs Hne Hi'. destruct (statuses wk' !! d) as [st|] eqn:Est; [|done]. exfalso. apply Hne.
  rewrite <- Hs. symmetry. by eapply (wi_shard _ _ _ _ _ _ (si_worker _ _ H i' wk' Hi')).
Qed.

Lemma drains m d s i j wk evs :
  sender_inv dest_hash s -> closed s = false -> workers s !! i = Some wk -> futures wk !! j = Some (d, evs) ->
  let l := rows_for servernameevent_data d (sys_world s) in
  length l <= DEQUEUE_LIMIT * m ->
  exists sent s', delivers d (evs :: sent) s s' /\ idle d s' /\
    concat sent = row_event <$> l /\ length sent <= m /\
    Forall (fun evs => evs <> [] /\ length evs <= DEQUEUE_LIMIT) sent.
Proof.
  revert s i j wk evs. induction m as [|m IH]; intros s i j wk evs H Hc Hi Hj l Hl;
    destruct (respond_ok_step s i j wk d evs H Hc Hi Hj)
      as (s' & wk' & Hst & H' & Hc' & Hi' & Ha & Hq & Hcase & Hother); fold l in Ha, Hq, Hcase.
  all: destruct (wi_future_shard _ _ _ _ _ _ d evs (si_worker _ _ H i _ Hi)) as [Hsh _];
    [by eapply list_elem_of_lookup_2|].
  all: destruct (decide (l = [])) as [El|El].
  all: try (exists [], s'; split_and!;
    [by eapply delivers_cons; [..|apply delivers_nil]| |by rewrite El|cbn; lia|done];
    split_and!; [by rewrite Ha, El|by rewrite Hq, El|];
    intros i' wk'' Hi''; destruct (decide (i' = i)) as [->|Hne]; [congruence|];
    rewrite Hother in Hi'' by done; by eapply (status_home s)).
  - exfalso. apply El. apply length_zero_iff_nil. lia.
  - destruct Hcase as [j' Hj'].
    destruct (IH s' i j' wk' _ H' Hc' Hi' Hj') as (sent & s'' & Hd & Hidle & Hcat & Hlen & Hall).
    { rewrite Hq, length_drop. lia. }
    exists ((row_event <$> take DEQUEUE_LIMIT l) :: sent), s''. split_and!; [by eapply delivers_cons|done| |cbn; lia|].
    + cbn. rewrite Hcat, Hq, <- fmap_app, take_drop. done.
    + constructor; [|done]. split; [|rewrite length_fmap, length_take; lia].
      destruct l; [done|]. by unfold DEQUEUE_LIMIT.
Qed.

(** C17. While a destination answers with success its queue drains: with [n]
    events queued behind the transaction in flight, at most [n/48] rounded up
    further transactions are sent, each of 1 to 48 events, together exactly the
    queued events in the order of their keys; then nothing is left for the
    destination, queued, active or in the statuses. *)
Theorem queue_drains w s i j wk d evs :
  reachable w s -> closed s = false -> workers s !! i = Some wk -> futures wk !! j = Some (d, evs) ->
  let queued := rows_for servernameevent_data d (sys_world s) in
  exists sent s', delivers d (evs :: sent) s s' /\ idle d s' /\
    concat sent = row_event <$> queued /\
    length sent <= (length queued + 47) / 48 /\
    Forall (fun evs => evs <> [] /\ length evs <= DEQUEUE_LIMIT) sent.
Proof.
  intros H%reachable_inv Hc Hi Hj queued. eapply drains; [done|done|done|done|].
  fold queued. unfold DEQUEUE_LIMIT. pose proof (Nat.div_mod_eq (length queued + 47) 48).
  pose proof (Nat.mod_upper_bound (length queued + 47) 48). lia.
Qed.

(** ** The size of a transaction *)

Definition is_pdu (e : SendingEvent) : Prop := match e with Pdu _ => True | _ => False end.
#[local] Instance is_pdu_dec e : Decision (is_pdu e).
Proof. destruct e; apply _. Defined.

Definition txn_small (evs : list SendingEvent) : Prop :=
  length (filter is_pdu evs) <= PDU_LIMIT /\ length evs <= EDU_LIMIT + 1.

Lemma txn_small_short evs : length evs <= PDU_LIMIT -> txn_small evs.
Proof. intros H. pose proof (length_filter is_pdu evs). unfold txn_small, PDU_LIMIT, EDU_LIMIT in *. lia. Qed.

Lemma txn_small_fresh e edus : length edus <= EDU_LIMIT -> txn_small (e :: (Edu <$> edus)).
Proof.
  intros H. split; [|cbn [length]; rewrite length_fmap; lia]. rewrite filter_cons.
  assert (filter is_pdu (Edu <$> edus) = []) as Hn.
  { clear H. induction edus as [|x edus IH]; [done|]. rewrite fmap_cons, filter_cons. by rewrite decide_False by auto. }
  rewrite Hn. unfold PDU_LIMIT. case_decide; cbn; lia.
Qed.

Record small (s : System) : Prop := {
  sm_rows : forall d, dest_ok d -> length (rows_for servercurrentevent_data d (sys_world s)) <= PDU_LIMIT;
  sm_txn : forall i wk d evs, workers s !! i = Some wk -> (d, evs) ∈ futures wk -> txn_small evs }.

Lemma rows_for_other d d' w w' :
  dest_ok d -> dest_ok d' -> d' <> d -> changes_only d w w' ->
  rows_for servercurrentevent_data d' w' = rows_for servercurrentevent_data d' w.
Proof.
  intros Hd Hd' Hne Hc. apply rows_for_ext. intros k Hk. apply Hc. intros Hk'. apply Hne.
  by apply (get_prefix_free d' d k).
Qed.

Lemma small_put s i d wk st fs ch w' :
  small s -> workers s !! i = Some wk -> dest_ok d -> changes_only d (sys_world s) w' ->
  length (rows_for servercurrentevent_data d w') <= PDU_LIMIT ->
  (forall d' evs, (d', evs) ∈ fs -> (d', evs) ∈ futures wk \/ txn_small evs) ->
  small (set_worker i (MkWorker st fs ch) (set_world w' s)).
Proof.
  intros H Hi Hd Hc Hl Hf. split; cbn.
  - intros d' Hd'. destruct (decide (d' = d)) as [->|Hne]; [done|].
    rewrite (rows_for_other d d' (sys_world s)) by done. by apply H.
  - intros i' wk' d' evs Hi' Hin. destruct (decide (i = i')) as [<-|Hne].
    + rewrite list_lookup_insert_eq in Hi' by by eapply lookup_lt_Some. injection Hi' as <-.
      destruct (Hf d' evs Hin); [by eapply sm_txn|done].
    + rewrite list_lookup_insert_ne in Hi' by done. by eapply sm_txn.
Qed.

Lemma small_world s w' :
  small s -> (forall k v, active w' !! k = Some v -> active (sys_world s) !! k = Some v) -> small (set_world w' s).
Proof.
  intros H Hw. split; cbn; [|apply H]. intros d Hd. etrans; [by apply rows_for_shrinks|by apply H].
Qed.

Lemma dispatch_all_futures msgs s s' ok :
  dispatch_all debug dest_hash msgs s = Done (s', ok) ->
  sys_world s' = sys_world s /\
  forall i wk', workers s' !! i = Some wk' -> exists wk, workers s !! i = Some wk /\ futures wk' = futures wk.
Proof.
  revert s. induction msgs as [|m msgs IH]; intros s; cbn [dispatch_all]; [intros [= <- _]; eauto|].
  intros H. bind_inv H. destruct a as [s1 ok1].
  assert (sys_world s1 = sys_world s /\ forall i wk', workers s1 !! i = Some wk' -> exists wk, workers s !! i = Some wk /\ futures wk' = futures wk) as [Hw1 H1].
  { unfold dispatch in H0. destruct (workers s !! _) as [wk|] eqn:Ew; cbn [expect mbind outcome_bind] in H0; [|done].
    destruct (debug && closed s); [done|]. destruct (closed s); injection H0 as <- _; [eauto|].
    split; [done|]. intros i wk' Hi. cbn in Hi. destruct (decide (shard_id dest_hash (length (workers s)) (msg_dest m) = i)) as [<-|Hne].
    - rewrite list_lookup_insert_eq in Hi by by eapply lookup_lt_Some. injection Hi as <-. eauto.
    - rewrite list_lookup_insert_ne in Hi by done. eauto. }
  destruct ok1; [|by injection H as <- _].
  destruct (IH s1 H) as [Hw2 H2]. split; [congruence|].
  intros i wk' Hi. destruct (H2 i wk' Hi) as (wk1 & Hi1 & ->). by apply H1.
Qed.

Lemma small_dispatch msgs s s' ok :
  small s -> dispatch_all debug dest_hash msgs s = Done (s', ok) -> small s'.
Proof.
  intros H [Hw Hf]%dispatch_all_futures. split; [rewrite Hw; apply H|]. intros i wk' d evs Hi.
  destruct (Hf i wk' Hi) as (wk & Hi' & ->). by eapply sm_txn.
Qed.

Lemma delete_future_elem (fs : list Transaction) j x : x ∈ delete j fs -> x ∈ fs.
Proof.
  rewrite delete_take_drop. intros [H|H]%elem_of_app; [by eapply elem_of_take_elem|].
  rewrite <- (take_drop (S j) fs). set_solver.
Qed.

(** The active rows of a destination after one of its messages was received. *)
Lemma receive_rows n i w wk m chan w' fs' st' :
  worker_inv dest_hash n i true w wk -> channel wk = m :: chan -> rows_ok (active w) ->
  request_effect m w (futures wk) (statuses wk) w' fs' st' ->
  length (rows_for servercurrentevent_data (msg_dest m) w) <= PDU_LIMIT ->
  length (rows_for servercurrentevent_data (msg_dest m) w') <= PDU_LIMIT /\
  forall d evs, (d, evs) ∈ fs' -> (d, evs) ∈ futures wk \/ txn_small evs.
Proof.
  intros H Hch Ha He Hl. destruct (wi_channel _ _ _ _ _ _ H m) as [Hs Hm]; [rewrite Hch; by left|].
  destruct He as [Hb|k t Hst Hne|k t Hst Hne|w' edus Hst Hle Hf].
  - split; [done|by left].
  - split; [done|]. intros d evs [?|[= _ ->]%list_elem_of_singleton]%elem_of_app; [by left|right].
    apply txn_small_short. unfold active_events. by rewrite length_fmap.
  - split; [done|by left].
  - split; [|intros d evs [?|[= _ ->]%list_elem_of_singleton]%elem_of_app; [by left|right; by apply txn_small_fresh]].
    transitivity 1; [|unfold PDU_LIMIT; lia].
    rewrite (rows_for_ext _ _ (mark_as_active [(msg_queue_id m, msg_event m)] w)).
    2: { intros k _. by rewrite (proj1 (frame_sends _ _ Hf)). }
    transitivity (length ([msg_queue_id m] : list bytes)); [|done].
    rewrite <- (length_fmap fst). apply submseteq_length, NoDup_submseteq; [apply rows_for_NoDup|].
    intros k ([k' v] & -> & [Hp Hk]%rows_for_elem)%list_elem_of_fmap. cbn [fst].
    destruct (mark_as_active_rows _ _ _ _ _ (msg_items m Hm) Hk) as [Hk'|(e & Hin & _)].
    + exfalso. destruct (Ha k' v Hk') as (d & e & Hpa).
      rewrite <- (proj1 (parse_prefix _ _ _ _ _ (proj1 Hm) Hpa) Hp) in Hpa.
      destruct (wi_active _ _ _ _ _ _ H (msg_dest m) e) as [st Hst']; [by exists k', v|done|congruence].
    + apply list_elem_of_singleton in Hin as [= -> _]. by left.
Qed.

Lemma step_small a s s' :
  sender_inv dest_hash s -> action_ok a -> step debug config dest_hash a s s' -> small s -> small s'.
Proof.
  intros H Ha Hst Hsm. pose proof (si_active _ _ H) as Hra. pose proof (si_queue _ _ H) as Hrq.
  destruct a as [reqs|servers|x u p|i now|i j ok now| |i j ok].
  - unfold step, exec in Hst. bind_inv Hst. destruct a as [s1 ok]. injection Hst as <-.
    unfold queue_and_dispatch, queue_requests in Hst0. bind_inv Hst0. destruct a as [keys w1].
    bind_inv Hst1. destruct a as [keys' w2]. injection Hst1 as <- <-.
    destruct (request_keys_ok _ _ _ _ _ Ha Hst2) as [Hm _]. eapply small_dispatch; [|exact Hst0].
    apply small_world; [done|]. autorewrite with world. by rewrite Hm.
  - unfold step, exec in Hst. bind_inv Hst. destruct a as [s1 ok]. injection Hst as <-. by eapply small_dispatch.
  - injection Hst as <-. apply small_world; [done|]. intros k v. apply cleanup_shrinks.
  - apply receive_step in Hst as (wk & m & chan & w' & fs' & st' & Hc & Hi & Hch & Hr & ->).
    pose proof (si_worker _ _ H i wk Hi) as Hw. rewrite Hc in Hw.
    destruct (wi_channel _ _ _ _ _ _ Hw m) as [Hs Hm]; [rewrite Hch; by left|].
    apply handle_request_effect in Hr; [|done|done].
    destruct (receive_world _ _ _ _ _ _ _ Hm Hra Hrq Hr) as (Hco & _ & _ & _).
    destruct (receive_rows _ _ _ _ _ _ _ _ _ Hw Hch Hra Hr) as [Hl Hf]; [apply Hsm, Hm|].
    eapply small_put; [done|done|apply Hm|done|done|done].
  - apply respond_step in Hst as (wk & d & evs & w' & fs' & st' & Hc & Hi & Hj & Hr & ->).
    destruct (wi_future_shard _ _ _ _ _ _ d evs (si_worker _ _ H i _ Hi)) as [_ Hd];
      [by eapply list_elem_of_lookup_2|].
    destruct ok.
    + rewrite handle_response_ok_eq in Hr by done. injection Hr as <- <- <-.
      destruct (respond_ok_world d _ Hd Hra Hrq) as (Hco & _). destruct (respond_ok_rows d _ Hd Hrq) as [Hrows _].
      eapply small_put; [done|done|done|done| |].
      * rewrite Hrows, length_take. unfold DEQUEUE_LIMIT, PDU_LIMIT. lia.
      * intros d' evs'. case_decide; [intros ?%delete_future_elem; by left|].
        intros [?%delete_future_elem|[= _ ->]%list_elem_of_singleton]%elem_of_app; [by left|right].
        apply txn_small_short. unfold next_items. rewrite !length_fmap, length_take.
        unfold DEQUEUE_LIMIT, PDU_LIMIT. lia.
    + destruct Hr as (_ & -> & ->). eapply small_put; [done|done|done|done|by apply Hsm|].
      intros d' evs' ?%delete_future_elem. by left.
  - injection Hst as <-. split; cbn; apply Hsm.
  - apply finish_step in Hst as (wk & d & evs & Hc & Hi & Hj & ->).
    destruct (wi_future_shard _ _ _ _ _ _ d evs (si_worker _ _ H i _ Hi)) as [_ Hd];
      [by eapply list_elem_of_lookup_2|].
    assert (changes_only d (sys_world s) (finish_response (sys_world s) (d, ok)) /\
            shrinks (sys_world s) (finish_response (sys_world s) (d, ok))) as [Hco Hsh].
    { destruct ok; [split; [apply delete_active_changes|apply delete_active_shrinks]|done]. }
    eapply small_put; [done|done|done|done|etrans; [apply rows_for_shrinks, Hsh|by apply Hsm]|].
    intros d' evs' ?%delete_future_elem. by left.
Qed.

Lemma reachable_small w s :
  (forall d, dest_ok d -> length (rows_for servercurrentevent_data d w) <= PDU_LIMIT) ->
  reachable w s -> small s.
Proof.
  intros Hrows. induction 1 as [n s Hon Hn Ha Hq Hs|a s s' Hr IH Ha Hst].
  - destruct (start_inv n w Hon Hn Ha Hq) as (s' & Hs' & H & Hsh & Hlen).
    rewrite Hs in Hs'. injection Hs' as <-. split.
    + intros d Hd. etrans; [apply rows_for_shrinks, Hsh|by apply Hrows].
    + intros i wk d evs Hi Hin. apply txn_small_short. etrans; [by eapply Hlen|]. apply Hrows.
      by eapply (wi_future_shard _ _ _ _ _ _ d evs (si_worker _ _ H i wk Hi)).
  - eapply step_small; [by eapply reachable_inv|done|done|done].
Qed.

(** A transaction carries at most 50 room events, and at most 101 events in
    all, when no more than 50 were active for any destination at startup. *)
Theorem transaction_limits w s i wk d evs :
  (forall d, dest_ok d -> length (rows_for servercurrentevent_data d w) <= PDU_LIMIT) ->
  reachable w s -> workers s !! i = Some wk -> (d, evs) ∈ futures wk ->
  length (filter is_pdu evs) <= PDU_LIMIT /\ length evs <= EDU_LIMIT + 1.
Proof. intros Hrows Hr Hi Hin. by apply (sm_txn s (reachable_small w s Hrows Hr) i wk d evs). Qed.

(** The limit of 100 ephemeral events can be exceeded by one: when the
    selection is full and the message itself is an ephemeral event, 101 go into
    one transaction. *)
Theorem edus_exceed_limit server buf queue_id now w fs st edus n :
  st !! Federation server = None ->
  select_edus server (mark_as_active [(queue_id, Edu buf)] w) = Done (edus, n) ->
  length edus = EDU_LIMIT ->
  exists w' st' evs,
    handle_request debug config (MkMsg (Federation server) (Edu buf) queue_id) now w fs st
      = Done (w', fs ++ [(Federation server, evs)], st') /\
    length evs = EDU_LIMIT + 1 /\ Forall (fun e => exists b, e = Edu b) evs.
Proof.
  intros Hst Hsel Hlen. unfold handle_request, select_events, select_events_current.
  cbn [msg_dest msg_event msg_queue_id]. rewrite Hst. cbn [negb]. rewrite decide_True by done.
  cbn [fmap list_fmap snd add_edus]. rewrite Hsel, Hlen, bool_decide_eq_true_2, andb_false_r by done.
  destruct (set_latest_educount_total debug server n (mark_as_active [(queue_id, Edu buf)] w)) as [w' ->].
  cbn [mbind outcome_bind app]. rewrite decide_True by done. rewrite send_events_ok by done.
  eexists _, _, _. split; [done|]. split; [cbn [length]; change (list_fmap _ _ Edu edus) with (Edu <$> edus);
    rewrite length_fmap; lia|].
  constructor; [by eexists|]. apply Forall_forall. intros e (b & -> & _)%list_elem_of_fmap. by eexists.
Qed.

End reachable.

(** ** A small server, for the witnesses *)

Module Toy.

(** A selection that always gives the same ephemeral events. *)
Program Definition same_edus (edus : list bytes) (H : length edus <= EDU_LIMIT) : EduSource :=
  {| select_edus := fun _ _ => Done (edus, 5%Z) |}.
Next Obligation. intros edus H s w edus' n [= <- <-]. done. Qed.

Definition no_edus : EduSource := same_edus [] ltac:(unfold EDU_LIMIT; cbn; lia).
Definition one_edu : EduSource := same_edus [str "receipt"] ltac:(unfold EDU_LIMIT; cbn; lia).
Definition full_edus : EduSource :=
  same_edus (replicate 100 (str "x")) ltac:(unfold EDU_LIMIT; rewrite length_replicate; lia).

Definition config (burst : bool) : SenderConfig := MkSenderConfig 180 86400 burst 50.
Definition hash (d : Destination) : Z := 0.
Definition b_org : Destination := Federation (str "b.org").
Definition event : SendingEvent := Edu (str "e").

Definition run (Ed : EduSource) (a : action) (s : System) : outcome CodecError (option System) :=
  @exec true list_engine toy_ids Ed (config true) hash a s.

Definition after (s : System) (o : outcome CodecError (option System)) : System :=
  match o with Done (Some s') => s' | _ => s end.
Definition runs (o : outcome CodecError (option System)) : bool :=
  match o with Done (Some _) => true | _ => false end.

Definition start_of (w : World) : System :=
  match @start true list_engine toy_ids in_order (config true) hash 1 w with
  | Done s => s | _ => MkSystem w [] false end.

Definition init : World := empty_world 10.
Definition fresh : System := start_of init.

Definition go (Ed : EduSource) (acts : list action) (s : System) : System :=
  foldl (fun s a => after s (run Ed a s)) s acts.

(** Every action of the list is enabled in turn. *)
Fixpoint all_run (Ed : EduSource) (acts : list action) (s : System) : bool :=
  match acts with
  | [] => true
  | a :: acts => runs (run Ed a s) && all_run Ed acts (after s (run Ed a s))
  end.

Abbreviation reachable Ed := (@reachable true list_engine toy_ids Ed in_order (config true) hash init).

Lemma start_done w : (exists s, @start true list_engine toy_ids in_order (config true) hash 1 w = Done s) ->
  @start true list_engine toy_ids in_order (config true) hash 1 w = Done (start_of w).
Proof. unfold start_of. by intros [s ->]. Qed.

Lemma fresh_reachable Ed : reachable Ed fresh.
Proof.
  apply (@reach_start true list_engine toy_ids Ed in_order (config true) hash init 1); [done|lia|done|done|].
  apply start_done. destruct (@start_inv true list_engine toy_ids in_order (config true) hash 1 init)
    as (s & Hs & _); [done|lia|done|done|]. by exists s.
Qed.

Lemma run_step Ed a s :
  runs (run Ed a s) = true ->
  @step true list_engine toy_ids Ed (config true) hash a s (after s (run Ed a s)).
Proof. unfold step, run. by destruct (exec _ _ _ a s) as [[s'|]| | |]. Qed.

Lemma go_reachable Ed acts s :
  reachable Ed s -> Forall (@action_ok toy_ids) acts -> all_run Ed acts s = true -> reachable Ed (go Ed acts s).
Proof.
  intros Hr Ha. revert s Hr. induction Ha as [|a acts Ha Hacts IH]; intros s Hr; cbn [all_run]; [done|].
  intros [H1 H2]%andb_true_iff. unfold go. cbn [foldl]. apply IH; [|done].
  eapply reach_step; [exact Hr|exact Ha|]. by apply run_step.
Qed.

(** An event for [b.org] is queued and its transaction is in flight. *)
Definition sent_one : list action := [Queue [(b_org, event)]; Receive 0 0].
Definition in_air : System := go no_edus sent_one fresh.
Definition worker_of (s : System) : Worker := default (MkWorker ∅ [] []) (workers s !! 0).
Definition air_key : bytes := get_prefix b_org ++ u64_to_be_bytes 11.

Lemma in_air_reachable : reachable no_edus in_air.
Proof.
  apply go_reachable; [apply fresh_reachable| |by vm_compute].
  repeat constructor. by vm_compute.
Qed.

(** Its only worker, and the transaction the worker has in flight. *)
Lemma air_worker : workers in_air !! 0 = Some (worker_of in_air).
Proof. vm_compute. reflexivity. Qed.
Lemma air_future : futures (worker_of in_air) !! 0 = Some (b_org, [event]).
Proof. vm_compute. reflexivity. Qed.
Lemma air_flying : (b_org, [event]) ∈ futures (worker_of in_air).
Proof. exact (list_elem_of_lookup_2 _ _ _ air_future). Qed.
Lemma air_open : closed in_air = false.
Proof. vm_compute. reflexivity. Qed.

End Toy.

Lemma sender_no_panic_witness :
  exists r, Toy.run Toy.no_edus (Respond 0 0 false 7) Toy.in_air = Done r.
Proof.
  apply (@sender_no_panic true list_engine toy_ids Toy.no_edus in_order (Toy.config true) Toy.hash Toy.init);
    [apply Toy.in_air_reachable|done].
Defined.

Lemma one_transaction_per_destination_witness :
  in_flight (statuses (Toy.worker_of Toy.in_air) !! Toy.b_org) /\
  forall evs, (Toy.b_org, evs) ∈ futures (Toy.worker_of Toy.in_air) -> evs = [Toy.event].
Proof.
  destruct (@one_transaction_per_destination true list_engine toy_ids Toy.no_edus in_order
    (Toy.config true) Toy.hash Toy.init Toy.in_air 0 _ Toy.in_air_reachable Toy.air_worker) as (H1 & _ & H2 & _).
  split.
  - apply H2. exact (list_elem_of_fmap_2 fst _ _ Toy.air_flying).
  - intros evs He. exact (proj2 (H1 0 _ Toy.b_org evs [Toy.event] Toy.air_worker He Toy.air_flying)).
Defined.

Lemma no_event_lost_witness :
  exists s', @step true list_engine toy_ids Toy.no_edus (Toy.config true) Toy.hash (Respond 0 0 false 7) Toy.in_air s' /\
    pending (sys_world s') Toy.air_key.
Proof.
  pose proof (Toy.run_step Toy.no_edus (Respond 0 0 false 7) Toy.in_air) as Hs.
  eexists. split; [apply Hs; by vm_compute|].
  specialize (Hs ltac:(by vm_compute)).
  destruct (@no_event_lost true list_engine toy_ids Toy.no_edus in_order (Toy.config true) Toy.hash Toy.init
    (Respond 0 0 false 7) Toy.in_air _ Toy.air_key Toy.in_air_reachable ltac:(done) Hs)
    as [H|[(? & ? & ? & ? & ? & ? & ? & [[? [=]]|[=]] & _)|(? & ? & ? & ? & [=] & _)]].
  - left. by vm_compute; eexists.
  - exact H.
Defined.

Lemma queue_drains_witness :
  exists sent s', @delivers true list_engine toy_ids Toy.no_edus (Toy.config true) Toy.hash Toy.b_org
      ([Toy.event] :: sent) Toy.in_air s' /\ @idle list_engine Toy.b_org s'.
Proof.
  destruct (@queue_drains true list_engine toy_ids Toy.no_edus in_order (Toy.config true) Toy.hash Toy.init
    Toy.in_air 0 0 (Toy.worker_of Toy.in_air) Toy.b_org [Toy.event] Toy.in_air_reachable Toy.air_open
    Toy.air_worker Toy.air_future) as (sent & s' & Hd & Hi & _).
  exists sent, s'. exact (conj Hd Hi).
Defined.

Lemma transaction_limits_witness :
  length [Toy.event] <= EDU_LIMIT + 1.
Proof.
  refine (proj2 (@transaction_limits true list_engine toy_ids Toy.no_edus in_order (Toy.config true) Toy.hash Toy.init
    Toy.in_air 0 (Toy.worker_of Toy.in_air) Toy.b_org [Toy.event] _ Toy.in_air_reachable Toy.air_worker Toy.air_flying)).
  intros d _. rewrite rows_for_filter. change (maps Toy.init servercurrentevent_data) with (∅ : table).
  rewrite rows_empty, filter_nil. unfold PDU_LIMIT. cbn [length]. lia.
Defined.

Lemma edus_exceed_limit_witness :
  exists w' st' evs,
    @handle_request true list_engine toy_ids Toy.full_edus (Toy.config true)
      (MkMsg Toy.b_org Toy.event Toy.air_key) 0 Toy.init [] ∅ = Done (w', [(Toy.b_org, evs)], st') /\
    length evs = 101.
Proof.
  destruct (@edus_exceed_limit true list_engine toy_ids Toy.full_edus (Toy.config true)
    (str "b.org") (str "e") Toy.air_key 0 Toy.init [] ∅ (replicate 100 (str "x")) 5) as (w' & st' & evs & H & Hl & _);
    [done|done|by rewrite length_replicate|]. exists w', st', evs. split; [exact H|exact Hl].
Defined.

(** ** What the sender does not do *)

Module Gaps.
Import Toy.

(** A flush of [b.org] fails; then an event is queued and its message received
    after the backoff. *)
Definition failed_flush : list action := [FlushTo [str "b.org"]; Receive 0 0; Respond 0 0 false 0].
Definition late : Z := Time.from_secs 200000.
Definition stalled : System :=
  go one_edu (failed_flush ++ [Queue [(b_org, event)]; Receive 0 late]) fresh.

Lemma stalled_reachable : reachable one_edu stalled.
Proof.
  apply go_reachable; [apply fresh_reachable| |by vm_compute].
  repeat constructor; by vm_compute.
Qed.

(** An event can be left in the queue with nothing that will send it: after
    a failed transaction that stored no event, the message of the next event is
    spent on a retry that finds nothing to send; the event stays queued with no
    message, no transaction and no status for its destination, until some later
    event for the same destination succeeds. *)
Theorem queued_event_stalls :
  reachable one_edu stalled /\
  (@rows_for list_engine servernameevent_data b_org (sys_world stalled)).*1 = [get_prefix b_org ++ u64_to_be_bytes 11] /\
  workers stalled = [MkWorker ∅ [] []].
Proof. split; [apply stalled_reachable|]. by vm_compute. Qed.

(** Ephemeral events that were selected for a transaction are not kept: when
    it fails they are in no table and in no later transaction, although the
    count stored for the server says that they were sent. *)
Theorem selected_edus_lost :
  let sent := go one_edu [FlushTo [str "b.org"]; Receive 0 0] fresh in
  let failed := go one_edu failed_flush fresh in
  futures (worker_of sent) = [(b_org, [Flush; Edu (str "receipt")])] /\
  reachable one_edu failed /\
  rows (active (sys_world failed)) = [] /\ rows (queue (sys_world failed)) = [] /\
  futures (worker_of failed) = [] /\
  get_latest_educount true (str "b.org") (sys_world failed) = Done 5%Z.
Proof.
  split; [by vm_compute|]. split; [|by vm_compute].
  apply go_reachable; [apply fresh_reachable| |by vm_compute]. repeat constructor; by vm_compute.
Qed.

(** A server that stopped with a transaction of [b.org] unanswered, and starts
    with the burst off. *)
Definition stopped : World := sys_world in_air.
Definition quiet_start : System :=
  match @start true list_engine toy_ids in_order (config false) hash 1 stopped with
  | Done s => s | _ => MkSystem stopped [] true end.
Definition quiet_run (s : System) (a : action) : System :=
  after s (@exec true list_engine toy_ids no_edus (config false) hash a s).

Definition news : SendingEvent := Edu (str "n").
Definition quiet_sent : System := foldl quiet_run quiet_start [Queue [(b_org, news)]; Receive 0 0].
Definition quiet_done : System := quiet_run quiet_sent (Respond 0 0 true 0).

(** With [startup_netburst] off an event that was active at shutdown is lost:
    the next transaction to its destination does not carry it, and its success
    deletes it. *)
Theorem netburst_off_loses :
  pending stopped air_key /\ pending (sys_world quiet_start) air_key /\
  futures (worker_of quiet_start) = [] /\
  futures (worker_of quiet_sent) = [(b_org, [news])] /\
  ~ pending (sys_world quiet_done) air_key /\
  workers quiet_done = [MkWorker ∅ [] []].
Proof.
  split_and!; [left; by vm_compute; eexists|left; by vm_compute; eexists|by vm_compute|by vm_compute| |by vm_compute].
  intros [[v H]|[v H]]; by vm_compute in H.
Qed.

(** A success does not reset the number of failures while more is queued: a
    destination that was retried, answered, and then fails once is backed off as
    after two failures. *)
Theorem tries_survive_success d w rest st n now :
  st !! d = Some (Retrying n) ->
  forall w' fs' st', @handle_response_ok true list_engine toy_ids d w rest st = Done (w', fs', st') ->
  fs' <> rest -> handle_response_err d now st' = Done (<[d := Failed (Z.min u32_max (n + 1)) now]> st').
Proof.
  intros Hst w' fs' st'. unfold handle_response_ok. intros H. bind_inv H.
  destruct (decide (a <> [])) as [Ha|Ha]; [|injection H as <- <- <-; done].
  bind_inv H. injection H as <- <- <-. intros _. unfold handle_response_err. by rewrite Hst.
Qed.

End Gaps.
