(* ===== verification/Timeline.v ===== *)
(** * The timeline tables

    Models [src/service/rooms/timeline/data.rs] and of
    [src/core/matrix/pdu/unsigned.rs] what pagination does to each event: where
    room events are stored, how they are found by id, and the two scans that
    page through a room.

    The JSON of an event is a parameter; [Pdu] has the fields the code reads. *)

From stdpp Require Import prelude gmap strings list sorting.
From Stdlib Require Import ZArith Lia.
From Stdlib Require Import Strings.Byte.
From S2P Require Import Prelude MachineInt PduCount DbCodec DbMap Short World.
Import Count PduId.

Record Pdu := MkPdu {
  pdu_event_id : bytes; pdu_sender : bytes; pdu_ts : Z;
  pdu_unsigned : option bytes;      (** JSON text *)
  pdu_rest : bytes }.

(** [serde_json] on events, and on [unsigned] as a map of raw values. *)
Class PduJson := {
  de_pdu : bytes -> option Pdu;
  json_object_ok : bytes -> bool;   (** whether a text is a JSON object *)
  de_unsigned : bytes -> option (gmap string bytes);
  ser_unsigned : gmap string bytes -> bytes;
  ser_int : Z -> bytes }.

Inductive TimelineError := RoomNotFound | PduNotFound | NoPdus | InvalidPdu | TimelineDb (e : DbError).

(** ** [unsigned.rs] *)

Section unsigned.
Context {J : PduJson}.

Definition set_unsigned (u : option bytes) (pdu : Pdu) : Pdu :=
  MkPdu (pdu_event_id pdu) (pdu_sender pdu) (pdu_ts pdu) u (pdu_rest pdu).

Definition remove_transaction_id (pdu : Pdu) : outcome TimelineError Pdu :=
  match pdu_unsigned pdu with
  | None => Done pdu
  | Some text =>
      unsigned ← ok_or InvalidPdu (de_unsigned text);
      Done (set_unsigned (Some (ser_unsigned (delete "transaction_id"%string unsigned))) pdu)
  end.

(** The age is a difference of 128-bit integers of 64-bit values. *)
Definition add_age (now : Z) (pdu : Pdu) : outcome TimelineError Pdu :=
  unsigned ← match pdu_unsigned pdu with
             | None => Done ∅
             | Some text => ok_or InvalidPdu (de_unsigned text)
             end;
  Done (set_unsigned (Some (ser_unsigned (<["age"%string := ser_int (now - pdu_ts pdu)]> unsigned))) pdu).

(** [.log_err().ok()]: an error leaves the event as it was. *)
Definition or_unchanged (f : Pdu -> outcome TimelineError Pdu) (pdu : Pdu) : Pdu :=
  match f pdu with Done pdu => pdu | _ => pdu end.

End unsigned.

Section timeline.
Context (debug : bool) {E : Engine} {I : Ids} {J : PduJson}.

(** ** Lookups *)

Definition lift_tl {A} (o : outcome DbError A) : outcome TimelineError A :=
  match o with
  | Done a => Done a | Fail e => Fail (TimelineDb e) | Panic => Panic | OutOfFuel => OutOfFuel
  end.

Definition get_pdu_id (event_id : bytes) (w : World) : outcome TimelineError RawId :=
  handle ← lift_tl (get (maps w eventid_pduid) event_id);
  match raw_from_bytes handle with Done id => Done id | _ => Panic end.

Definition get_pdu_count (event_id : bytes) (w : World) : outcome TimelineError count :=
  pdu_id ← get_pdu_id event_id w; Done (pdu_count pdu_id).

Definition get_pdu_from_id (pdu_id : RawId) (w : World) : outcome TimelineError Pdu :=
  b ← lift_tl (get (maps w pduid_pdu) (as_bytes pdu_id)); ok_or InvalidPdu (de_pdu b).

(** A [CanonicalJsonObject] is its text. *)
Definition de_object (b : bytes) : outcome TimelineError bytes :=
  if json_object_ok b then Done b else Fail InvalidPdu.

Definition get_pdu_json_from_id (pdu_id : RawId) (w : World) : outcome TimelineError bytes :=
  b ← lift_tl (get (maps w pduid_pdu) (as_bytes pdu_id)); de_object b.

Definition get_non_outlier_pdu (event_id : bytes) (w : World) : outcome TimelineError Pdu :=
  pduid ← get_pdu_id event_id w; get_pdu_from_id pduid w.

Definition get_non_outlier_pdu_json (event_id : bytes) (w : World) : outcome TimelineError bytes :=
  pduid ← get_pdu_id event_id w; get_pdu_json_from_id pduid w.

(** [select_ok([a, b])]: the first success; [first] says which is ready first. *)
Definition select_ok {A} (first : bool) (a b : outcome TimelineError A) : outcome TimelineError A :=
  let '(a, b) := if first then (a, b) else (b, a) in
  match a with Fail _ => b | a => a end.

Definition get_outlier (event_id : bytes) (w : World) : outcome TimelineError Pdu :=
  b ← lift_tl (get (maps w eventid_outlierpdu) event_id); ok_or InvalidPdu (de_pdu b).

Definition get_pdu (first : bool) (event_id : bytes) (w : World) : outcome TimelineError Pdu :=
  select_ok first (get_non_outlier_pdu event_id w) (get_outlier event_id w).

Definition get_pdu_json (first : bool) (event_id : bytes) (w : World) : outcome TimelineError bytes :=
  select_ok first (get_non_outlier_pdu_json event_id w)
    (b ← lift_tl (get (maps w eventid_outlierpdu) event_id); de_object b).

Definition non_outlier_pdu_exists (event_id : bytes) (w : World) : outcome TimelineError () :=
  pduid ← get_pdu_id event_id w;
  _ ← lift_tl (get (maps w pduid_pdu) (as_bytes pduid)); Done tt.

Definition outlier_pdu_exists (event_id : bytes) (w : World) : outcome TimelineError () :=
  _ ← lift_tl (get (maps w eventid_outlierpdu) event_id); Done tt.

Definition pdu_exists (first : bool) (event_id : bytes) (w : World) : outcome TimelineError () :=
  select_ok first (non_outlier_pdu_exists event_id w) (outlier_pdu_exists event_id w).

(** ** Writes *)

Definition put_json (pdu_id : RawId) (json : bytes) (w : World) : outcome TimelineError World :=
  lift_tl (lift_de (upd pduid_pdu (fun t => raw_put debug t (as_bytes pdu_id) (VJson json)) w)).

Definition append_pdu (pdu_id : RawId) (pdu : Pdu) (json : bytes) (count : count) (w : World)
    : outcome TimelineError World :=
  if debug && match count with Normal _ => false | Backfilled _ => true end then Panic else
  w ← put_json pdu_id json w;
  let w := ins eventid_pduid (pdu_event_id pdu) (as_bytes pdu_id) w in
  Done (rem eventid_outlierpdu (pdu_event_id pdu) w).

Definition prepend_backfill_pdu (pdu_id : RawId) (event_id json : bytes) (w : World)
    : outcome TimelineError World :=
  w ← put_json pdu_id json w;
  let w := ins eventid_pduid event_id (as_bytes pdu_id) w in
  Done (rem eventid_outlierpdu event_id w).

Definition replace_pdu (pdu_id : RawId) (pdu_json : bytes) (w : World) : outcome TimelineError World :=
  match get (maps w pduid_pdu) (as_bytes pdu_id) with
  | Fail NotFound => Fail PduNotFound
  | _ => put_json pdu_id pdu_json w
  end.

(** ** Scans *)

Definition count_to_id (room_id : bytes) (shorteventid : count) (dir : Direction) (w : World)
    : outcome TimelineError RawId :=
  match Short.get_shortroomid debug (globals w) room_id with
  | Done shortroomid => Done (raw_from_id (MkId shortroomid (saturating_inc shorteventid dir)))
  | Fail _ => Fail RoomNotFound
  | Panic => Panic
  | OutOfFuel => OutOfFuel
  end.

(** What a reader sees of an event: its own transaction id only, and the age. *)
Definition for_reader (now : Z) (user_id : option bytes) (pdu : Pdu) : Pdu :=
  or_unchanged (add_age now)
    (if decide (Some (pdu_sender pdu) <> user_id) then or_unchanged remove_transaction_id pdu else pdu).

Definition each_pdu (now : Z) (user_id : option bytes) (item : row) : outcome TimelineError (count * Pdu) :=
  pdu_id ← (match raw_from_bytes item.1 with Done id => Done id | _ => Panic end : outcome _ RawId);
  pdu ← ok_or InvalidPdu (de_pdu item.2);
  Done (pdu_count pdu_id, for_reader now user_id pdu).

(** A stream of results; an error of [count_to_id] is its only item. *)
Definition pdu_stream (now : Z) (user_id : option bytes) (scan : bytes -> list row)
    (current : outcome TimelineError RawId) : list (outcome TimelineError (count * Pdu)) :=
  match current with
  | Done current =>
      let prefix := raw_shortroomid current in
      each_pdu now user_id <$> take_while (key_prefix prefix) (scan (as_bytes current))
  | Fail e => [Fail e]
  | Panic => [Panic]
  | OutOfFuel => [OutOfFuel]
  end.

Definition pdus_rev (now : Z) (user_id : option bytes) (room_id : bytes) (until : count) (w : World) :=
  pdu_stream now user_id (rev_raw_stream_from (maps w pduid_pdu)) (count_to_id room_id until Backward w).

Definition pdus (now : Z) (user_id : option bytes) (room_id : bytes) (from : count) (w : World) :=
  pdu_stream now user_id (raw_stream_from (maps w pduid_pdu)) (count_to_id room_id from Forward w).

(** [try_next().await?]. *)
Definition try_next {A} (s : list (outcome TimelineError A)) : outcome TimelineError (option A) :=
  match s with [] => Done None | o :: _ => a ← o; Done (Some a) end.

Definition last_timeline_count (now : Z) (sender_user : option bytes) (room_id : bytes) (w : World)
    : outcome TimelineError count :=
  last ← try_next (pdus_rev now sender_user room_id max w);
  Done (match last with Some (Normal n, _) => Normal n | _ => max end).

Definition latest_pdu_in_room (now : Z) (sender_user : option bytes) (room_id : bytes) (w : World)
    : outcome TimelineError Pdu :=
  last ← try_next (pdus_rev now sender_user room_id max w);
  ok_or NoPdus (snd <$> last).

(** ** Notification counts *)

Definition increment_row (t : tbl) (key : bytes) (w : World) : World :=
  ins t key (Bytes.increment (maps w t !! key)) w.

Definition count_for (t : tbl) (room_id : bytes) (w : World) (user : bytes) : World :=
  increment_row t (user ++ [SEP] ++ room_id) w.

Definition increment_notification_counts (room_id : bytes) (notifies highlights : list bytes) (w : World) : World :=
  let w := foldl (count_for userroomid_notificationcount room_id) w notifies in
  foldl (count_for userroomid_highlightcount room_id) w highlights.

End timeline.

(** ** Keys and positions *)

(** The positions events are stored at. *)
Definition position (c : count) : Prop := canonical c /\ c <> Backfilled 0.

#[export] Instance position_dec c : Decision (position c).
Proof. unfold position. apply _. Defined.

Definition pkey (r : Z) (c : count) : bytes := as_bytes (raw_from_id (MkId r c)).

Lemma pkey_prefix r c : exists t, pkey r c = u64_to_be_bytes r ++ t.
Proof. destruct c; eexists; reflexivity. Qed.

Lemma pkey_room r r' c :
  is_u64 r -> is_u64 r' -> u64_to_be_bytes r `prefix_of` pkey r' c <-> r = r'.
Proof.
  intros Hr Hr'. destruct (pkey_prefix r' c) as [t ->]. split; [|intros ->; by exists t].
  intros [t' E]. symmetry in E. apply app_inj_1 in E as [E _]; [|by rewrite !length_u64_to_be].
  symmetry. by apply u64_to_be_inj.
Qed.

Lemma pkey_le r c d :
  is_u64 r -> position c -> position d -> ord_le (pkey r c) (pkey r d) <-> cmp c d <> Gt.
Proof. intros Hr [Hc Nc] [Hd Nd]. unfold ord_le, pkey. cbn. by rewrite raw_tail_cmp. Qed.

Lemma pkey_inj r c r' d :
  is_u64 r -> is_u64 r' -> position c -> position d -> pkey r c = pkey r' d -> r = r' /\ c = d.
Proof.
  intros Hr Hr' [Hc Nc] [Hd Nd] Heq.
  assert (r = r') as <-.
  { apply (pkey_room r r' d); [done|done|]. rewrite <- Heq. by apply pkey_room. }
  split; [done|]. apply canonical_inj; [done|done|]. rewrite <- (raw_tail_cmp r) by done.
  unfold pkey in Heq. rewrite Heq. apply bytes_cmp_refl.
Qed.

Lemma pkey_count r c :
  is_u64 r -> canonical c -> raw_from_bytes (pkey r c) = Done (raw_from_id (MkId r c)) /\
    pdu_count (raw_from_id (MkId r c)) = c.
Proof.
  intros Hr Hc. split; [apply raw_from_bytes_as_bytes, raw_from_id_typed|].
  unfold pdu_count. by rewrite id_from_raw_from_id.
Qed.

Lemma u64_saturating_add_id a b : is_u64 (a + b) -> u64_saturating_add a b = (a + b)%Z.
Proof. intros. unfold u64_saturating_add, saturate. width_lia. Qed.
Lemma u64_saturating_sub_id a b : is_u64 (a - b) -> u64_saturating_sub a b = (a - b)%Z.
Proof. intros. unfold u64_saturating_sub, saturate. width_lia. Qed.
Lemma i64_saturating_add_id a b : is_i64 (a + b) -> i64_saturating_add a b = (a + b)%Z.
Proof. intros. unfold i64_saturating_add, saturate. width_lia. Qed.
Lemma i64_saturating_sub_id a b : is_i64 (a - b) -> i64_saturating_sub a b = (a - b)%Z.
Proof. intros. unfold i64_saturating_sub, saturate. width_lia. Qed.

(** The positions just after and just before one. *)
Lemma next_position c :
  position c -> c <> Backfilled (-1) -> c <> max ->
  position (saturating_inc c Forward) /\ into_signed (saturating_inc c Forward) = (into_signed c + 1)%Z.
Proof.
  intros [Hc Nc] N1 Nm. destruct c as [n|i]; cbn in *.
  - assert (n <> i64_max) by (intros ->; apply Nm; reflexivity).
    rewrite u64_saturating_add_id by width_lia.
    split; [split; [cbn; lia|done]|]. by rewrite !as_i64_id by width_lia.
  - assert (i <> 0)%Z by congruence. assert (i <> -1)%Z by congruence.
    change (as_i64 1) with 1%Z. rewrite i64_saturating_add_id by width_lia.
    split; [split; [cbn; lia|injection; lia]|done].
Qed.

Lemma prev_position c :
  position c -> c <> Normal 1 -> c <> min ->
  position (saturating_inc c Backward) /\ into_signed (saturating_inc c Backward) = (into_signed c - 1)%Z.
Proof.
  intros [Hc Nc] N1 Nm. destruct c as [n|i]; cbn in *.
  - assert (n <> 1)%Z by congruence. rewrite u64_saturating_sub_id by width_lia.
    split; [split; [cbn; lia|done]|]. by rewrite !as_i64_id by width_lia.
  - assert (i <> 0)%Z by congruence. assert (i <> i64_min) by (intros ->; apply Nm; reflexivity).
    change (as_i64 1) with 1%Z. rewrite i64_saturating_sub_id by width_lia.
    split; [split; [cbn; lia|injection; lia]|done].
Qed.

(** ** Paging through a room *)

Lemma sorted_fmap {A B} (R : relation A) (S : relation B) (f : A -> B) l :
  StronglySorted R l -> (forall a b, a ∈ l -> b ∈ l -> R a b -> S (f a) (f b)) -> StronglySorted S (f <$> l).
Proof.
  intros Hl. induction Hl as [|a l Hl IH Ha]; intros HS; [constructor|]. rewrite fmap_cons. constructor.
  - apply IH. intros x y Hx Hy. apply HS; by right.
  - apply Forall_fmap, Forall_forall. intros b Hb. rewrite Forall_forall in Ha. apply HS; [left|by right|auto].
Qed.

(** Rows have distinct keys, so their order is strict. *)
Definition key_lt (a b : row) : Prop := key_le a b /\ a.1 <> b.1.

Lemma sorted_strict (l : list row) : StronglySorted key_le l -> NoDup l.*1 -> StronglySorted key_lt l.
Proof.
  intros Hl. induction Hl as [|a l Hl IH Ha]; [constructor|]. rewrite fmap_cons, NoDup_cons. intros [Hn Hd].
  constructor; [auto|]. rewrite Forall_forall in *. intros b Hb. split; [auto|].
  intros Heq. apply Hn. rewrite Heq. by apply list_elem_of_fmap_2.
Qed.

Lemma sorted_reverse {A} (R : relation A) l : StronglySorted R l -> StronglySorted (flip R) (reverse l).
Proof.
  intros Hl. induction Hl as [|a l Hl IH Ha]; [constructor|]. rewrite reverse_cons. apply StronglySorted_app_2.
  - intros x y Hx Hy%list_elem_of_singleton. subst y. rewrite Forall_forall in Ha. apply Ha.
    by apply elem_of_reverse in Hx; rewrite reverse_involutive in Hx.
  - done.
  - repeat constructor.
Qed.

Section paging.
Context (debug : bool) {E : Engine} {J : PduJson}.

(** Every row is an event at a position of some room. *)
Definition timeline_rows (t : table) : Prop :=
  forall k v, t !! k = Some v -> exists r c, is_u64 r /\ position c /\ k = pkey r c /\ is_Some (de_pdu v).

(** The event of room [r] at [c], as a reader sees it. *)
Definition event_at (t : table) (now : Z) (user : option bytes) (r : Z) (c : count) (p : Pdu) : Prop :=
  position c /\ exists v pdu, t !! pkey r c = Some v /\ de_pdu v = Some pdu /\ p = for_reader now user pdu.

Definition item_of_row (now : Z) (user : option bytes) (r : row) : count * Pdu :=
  match each_pdu now user r with Done x => x | _ => (max, MkPdu [] [] 0 None []) end.

Lemma each_pdu_ok now user r c v :
  is_u64 r -> position c -> is_Some (de_pdu v) ->
  exists pdu, de_pdu v = Some pdu /\ each_pdu now user (pkey r c, v) = Done (c, for_reader now user pdu).
Proof.
  intros Hr [Hc _] [pdu Hv]. exists pdu. split; [done|]. unfold each_pdu. cbn [fst snd].
  destruct (pkey_count r c Hr Hc) as [-> Hp]. cbn [mbind outcome_bind]. rewrite Hv. cbn [ok_or mbind outcome_bind]. by rewrite Hp.
Qed.

(** A list of rows of room [r] that are exactly those whose position satisfies
    [P], read in its order. *)
Lemma read_rows t now user r (P : count -> Prop) (R : relation count) (l : list row) :
  timeline_rows t -> is_u64 r ->
  (forall c v, position c -> (pkey r c, v) ∈ l <-> P c /\ t !! pkey r c = Some v) ->
  (forall k v, (k, v) ∈ l -> u64_to_be_bytes r `prefix_of` k /\ t !! k = Some v) ->
  StronglySorted (fun a b => forall c d, position c -> position d -> a.1 = pkey r c -> b.1 = pkey r d -> R c d) l ->
  let items := item_of_row now user <$> l in
  each_pdu now user <$> l = Done <$> items /\
  StronglySorted (fun a b => R a.1 b.1) items /\
  forall c p, (c, p) ∈ items <-> P c /\ event_at t now user r c p.
Proof.
  intros Ht Hr Hl Hin Hs items.
  assert (forall x, x ∈ l -> exists c v pdu, x = (pkey r c, v) /\ position c /\ de_pdu v = Some pdu /\
    each_pdu now user x = Done (c, for_reader now user pdu)) as Hx.
  { intros [k v] Hk. destruct (Hin k v Hk) as [Hp Hkv]. destruct (Ht k v Hkv) as (r' & c & Hr' & Hc & -> & Hv).
    apply pkey_room in Hp as <-; [|done|done].
    destruct (each_pdu_ok now user r c v Hr Hc Hv) as (pdu & Hpdu & Heach). by exists c, v, pdu. }
  split_and!.
  - unfold items. rewrite <- list_fmap_compose. apply list_fmap_ext. intros i x Hi%list_elem_of_lookup_2.
    destruct (Hx x Hi) as (c & v & pdu & -> & _ & _ & He). cbn. unfold item_of_row. by rewrite He.
  - unfold items. eapply sorted_fmap; [exact Hs|]. intros a b Ha Hb HR.
    destruct (Hx a Ha) as (c & v & pdu & -> & Hc & _ & He). destruct (Hx b Hb) as (d & v' & pdu' & -> & Hd & _ & He').
    unfold item_of_row. rewrite He, He'. by apply HR.
  - intros c p. unfold items. rewrite list_elem_of_fmap. split.
    + intros (x & Heq & Hx'). destruct (Hx x Hx') as (c' & v & pdu & -> & Hc & Hpdu & He).
      unfold item_of_row in Heq. rewrite He in Heq. injection Heq as -> ->.
      apply Hl in Hx' as [HP Hv]; [|done]. split; [done|]. split; [done|]. by exists v, pdu.
    + intros (HP & Hc & v & pdu & Hv & Hpdu & ->). exists (pkey r c, v).
      assert ((pkey r c, v) ∈ l) as Hk by by apply Hl. split; [|done].
      destruct (Hx _ Hk) as (c' & v' & pdu' & Heq & Hc' & Hpdu' & He). injection Heq as Heq ->.
      apply pkey_inj in Heq as [_ <-]; [|done..]. unfold item_of_row. rewrite He. congruence.
Qed.

(** The rows of a room on one side of a key of that room. *)
Lemma scan_forward t p start :
  p `prefix_of` start ->
  take_while (key_prefix p) (raw_stream_from t start) = filter (key_prefix p) (filter (key_from start) (rows t)).
Proof.
  intros Hp. rewrite raw_stream_from_rows.
  apply (take_while_sorted (fun a b => key_from start a /\ key_le a b)).
  - eapply sorted_impl; [apply sorted_with_elem, (filter_sorted key_le), rows_sorted|].
    intros a b ([Ha _]%list_elem_of_filter & _ & Hab). done.
  - intros a b [Ha Hab] Hb. unfold key_prefix, key_from, key_le in *.
    eapply prefix_between; [|exact Hab|exact Hb]. apply (ord_le_trans _ start); [by apply prefix_ord_le|exact Ha].
Qed.

Lemma scan_backward t p start :
  p `prefix_of` start ->
  take_while (key_prefix p) (rev_raw_stream_from t start) =
    reverse (filter (key_prefix p) (filter (key_upto start) (rows t))).
Proof.
  intros Hp. rewrite rev_raw_stream_from_rows. rewrite <- (filter_reverse (key_prefix p)).
  apply (take_while_sorted (fun a b => key_upto start a /\ key_le b a)).
  - apply upto_reverse_sorted, rows_sorted.
  - intros a b [Ha Hab] Hb. unfold key_prefix, key_upto, key_le in *.
    eapply prefix_between; [|exact Ha|exact Hp]. apply (ord_le_trans _ b.1); [by apply prefix_ord_le|exact Hab].
Qed.

Lemma rows_strict t P Q `{!forall x, Decision (P x), !forall x, Decision (Q x)} :
  StronglySorted key_lt (filter P (filter Q (rows t))).
Proof.
  apply sorted_strict; [by do 2 apply (filter_sorted key_le); apply rows_sorted|].
  by do 2 apply NoDup_fmap_fst_filter; apply rows_NoDup_keys.
Qed.

Lemma key_lt_cmp r a b c d :
  is_u64 r -> position c -> position d -> key_lt a b -> a.1 = pkey r c -> b.1 = pkey r d -> cmp c d = Lt.
Proof.
  intros Hr Hc Hd [Hle Hne] Ea Eb. unfold key_le in Hle. rewrite Ea, Eb in Hle, Hne.
  apply pkey_le in Hle; [|done..]. destruct (cmp c d) eqn:Ecd; [|done|done]. exfalso. apply Hne.
  by apply canonical_inj in Ecd as ->; [|apply Hc|apply Hd].
Qed.

Lemma cmp_lt_signed c d : cmp c d = Lt <-> (into_signed c < into_signed d)%Z.
Proof. apply Z.compare_lt_iff. Qed.
Lemma cmp_not_gt_signed c d : cmp c d <> Gt <-> (into_signed c <= into_signed d)%Z.
Proof. apply Z.compare_le_iff. Qed.

Lemma pdus_items now user room from w r :
  timeline_rows (maps w pduid_pdu) -> Short.get_shortroomid debug (globals w) room = Done r -> is_u64 r ->
  position from -> from <> Backfilled (-1) -> from <> max ->
  exists items, pdus debug now user room from w = Done <$> items /\
    StronglySorted (fun a b => cmp a.1 b.1 = Lt) items /\
    forall c p, (c, p) ∈ items <-> cmp from c = Lt /\ event_at (maps w pduid_pdu) now user r c p.
Proof.
  intros Ht Hr Hu Hf N1 Nm. destruct (next_position from Hf N1 Nm) as [Hn Hs].
  unfold pdus, pdu_stream, count_to_id. rewrite Hr. rewrite raw_shortroomid_from_id.
  fold (pkey r (saturating_inc from Forward)).
  rewrite scan_forward by by apply pkey_room. eexists.
  apply (read_rows _ now user r (fun c => cmp from c = Lt) (fun a b => cmp a b = Lt)); [done|done| | |].
  - intros c v Hc. rewrite !list_elem_of_filter, elem_of_rows. unfold key_prefix, key_from. cbn [fst].
    rewrite pkey_room, pkey_le, cmp_not_gt_signed, cmp_lt_signed, Hs by done. split; intros; split_and!; naive_solver lia.
  - intros k v. rewrite !list_elem_of_filter, elem_of_rows. unfold key_prefix. cbn. tauto.
  - eapply sorted_impl; [apply rows_strict|]. intros a b Hab c d Hc Hd. by apply key_lt_cmp.
Qed.

Lemma pdus_rev_items now user room until w r :
  timeline_rows (maps w pduid_pdu) -> Short.get_shortroomid debug (globals w) room = Done r -> is_u64 r ->
  position until -> until <> Normal 1 -> until <> min ->
  exists items, pdus_rev debug now user room until w = Done <$> items /\
    StronglySorted (fun a b => cmp b.1 a.1 = Lt) items /\
    forall c p, (c, p) ∈ items <-> cmp c until = Lt /\ event_at (maps w pduid_pdu) now user r c p.
Proof.
  intros Ht Hr Hu Hf N1 Nm. destruct (prev_position until Hf N1 Nm) as [Hn Hs].
  unfold pdus_rev, pdu_stream, count_to_id. rewrite Hr. rewrite raw_shortroomid_from_id.
  fold (pkey r (saturating_inc until Backward)).
  rewrite scan_backward by by apply pkey_room. eexists.
  apply (read_rows _ now user r (fun c => cmp c until = Lt) (fun a b => cmp b a = Lt)); [done|done| | |].
  - intros c v Hc. rewrite elem_of_reverse, !list_elem_of_filter, elem_of_rows. unfold key_prefix, key_upto. cbn [fst].
    rewrite pkey_room, pkey_le, cmp_not_gt_signed, cmp_lt_signed, Hs by done. split; intros; split_and!; naive_solver lia.
  - intros k v. rewrite elem_of_reverse, !list_elem_of_filter, elem_of_rows. unfold key_prefix. cbn. tauto.
  - eapply sorted_impl; [apply sorted_reverse, rows_strict|]. intros a b Hab c d Hc Hd Ea Eb.
    by apply (key_lt_cmp r b a).
Qed.

(** The keys the two scans start from at the boundary between backfilled events
    and the others. *)
Lemma zero_key_first r c : is_u64 r -> position c -> ord_le (pkey r (Backfilled 0)) (pkey r c).
Proof.
  intros Hr [Hc Nc]. unfold pkey, raw_from_id, as_bytes. cbn [shorteventid shortroomid].
  destruct c as [n|i]; cbn in Hc; rewrite ord_le_app.
  - rewrite <- (app_nil_r (u64_to_be_bytes n)). apply ord_le_u64; [width_lia|width_lia|left; lia].
  - assert (i <> 0)%Z by congruence. rewrite ord_le_app. unfold i64_to_be_bytes.
    fold (u64_to_be_bytes (as_u64 0)). fold (u64_to_be_bytes (as_u64 i)).
    rewrite <- (app_nil_r (u64_to_be_bytes (as_u64 0))), <- (app_nil_r (u64_to_be_bytes (as_u64 i))).
    rewrite (as_u64_neg i) by width_lia. apply ord_le_u64; [by vm_compute|width_lia|left; change (as_u64 0) with 0%Z; width_lia].
Qed.

Lemma zero_key_below r c : is_u64 r -> position c -> ~ ord_le (pkey r c) (pkey r (Normal 0)).
Proof.
  intros Hr [Hc Nc] Hle. assert (ord_le (pkey r (Normal 0)) (pkey r c)) as Hge.
  { unfold pkey, raw_from_id, as_bytes. cbn [shorteventid shortroomid].
    destruct c as [n|i]; cbn in Hc; rewrite ord_le_app; [|apply prefix_ord_le; by eexists].
    rewrite <- (app_nil_r (u64_to_be_bytes n)), <- (app_nil_r (u64_to_be_bytes 0)).
    apply ord_le_u64; [width_lia|width_lia|left; lia]. }
  pose proof (ord_le_antisym _ _ Hle Hge) as Heq. unfold pkey, raw_from_id, as_bytes in Heq.
  cbn [shorteventid shortroomid] in Heq. destruct c as [n|i]; cbn in Hc; apply app_inv_head in Heq.
  - apply u64_to_be_inj in Heq; [lia|width_lia|width_lia].
  - apply (f_equal length) in Heq. rewrite length_app in Heq. autorewrite with bytes in Heq. lia.
Qed.

Lemma pdus_restart now user room w r :
  timeline_rows (maps w pduid_pdu) -> Short.get_shortroomid debug (globals w) room = Done r -> is_u64 r ->
  exists items, pdus debug now user room (Backfilled (-1)) w = Done <$> items /\
    forall c p, (c, p) ∈ items <-> event_at (maps w pduid_pdu) now user r c p.
Proof.
  intros Ht Hr Hu. unfold pdus, pdu_stream, count_to_id. rewrite Hr. rewrite raw_shortroomid_from_id.
  fold (pkey r (saturating_inc (Backfilled (-1)) Forward)).
  change (saturating_inc (Backfilled (-1)) Forward) with (Backfilled 0).
  rewrite scan_forward by by apply pkey_room. eexists.
  edestruct (read_rows (maps w pduid_pdu) now user r (fun c => True) (fun _ _ => True)) as (H1 & _ & H2);
    [done|done| | | |split; [exact H1|]; intros c p; rewrite H2; tauto].
  - intros c v Hc. rewrite !list_elem_of_filter, elem_of_rows. unfold key_prefix, key_from. cbn [fst].
    rewrite pkey_room by done. pose proof (zero_key_first r c Hu Hc). tauto.
  - intros k v. rewrite !list_elem_of_filter, elem_of_rows. unfold key_prefix. cbn. tauto.
  - eapply sorted_impl; [apply rows_strict|done].
Qed.

Lemma pdus_rev_nothing now user room w r :
  timeline_rows (maps w pduid_pdu) -> Short.get_shortroomid debug (globals w) room = Done r -> is_u64 r ->
  pdus_rev debug now user room (Normal 1) w = [].
Proof.
  intros Ht Hr Hu. unfold pdus_rev, pdu_stream, count_to_id. rewrite Hr. rewrite raw_shortroomid_from_id.
  fold (pkey r (saturating_inc (Normal 1) Backward)).
  change (saturating_inc (Normal 1) Backward) with (Normal 0).
  rewrite scan_backward by by apply pkey_room.
  destruct (filter _ (filter _ _)) as [|[k v] l] eqn:El; [done|]. exfalso.
  assert ((k, v) ∈ (k, v) :: l) as Hin by left. rewrite <- El in Hin.
  rewrite !list_elem_of_filter, elem_of_rows in Hin. destruct Hin as (Hp & Hle & Hk). cbn in Hp, Hle.
  destruct (Ht k v Hk) as (r' & c & Hr' & Hc & -> & _). apply pkey_room in Hp as <-; [|done|done].
  by apply (zero_key_below r c).
Qed.

(** C15. Paging through a room yields every stored event beyond the given position,
    each once: forward in timeline order, backfilled events before the others,
    backward newest first; with the transaction id removed unless the reader
    sent the event.  The position is one that events have, 1 and up or, backfilled,
    -1 and down; excluded are the greatest position and the last
    backfilled one (-1) when paging forward, and the least position and the first
    normal one (1) when paging backward. *)
Theorem paging_exact now user room at_ w r :
  timeline_rows (maps w pduid_pdu) -> Short.get_shortroomid debug (globals w) room = Done r -> is_u64 r ->
  position at_ ->
  (at_ <> Backfilled (-1) -> at_ <> max ->
   exists items, pdus debug now user room at_ w = Done <$> items /\
     StronglySorted (fun a b => cmp a.1 b.1 = Lt) items /\
     forall c p, (c, p) ∈ items <-> cmp at_ c = Lt /\ event_at (maps w pduid_pdu) now user r c p) /\
  (at_ <> Normal 1 -> at_ <> min ->
   exists items, pdus_rev debug now user room at_ w = Done <$> items /\
     StronglySorted (fun a b => cmp b.1 a.1 = Lt) items /\
     forall c p, (c, p) ∈ items <-> cmp c at_ = Lt /\ event_at (maps w pduid_pdu) now user r c p).
Proof. intros. split; intros; [by apply pdus_items|by apply pdus_rev_items]. Qed.

(** At the boundary paging goes wrong: forward from the newest backfilled
    event, position [-1], it starts again at the oldest event of the room, and
    backward from position [1] it finds nothing, although the backfilled events
    lie before it. *)
Theorem paging_boundary now user room w r :
  timeline_rows (maps w pduid_pdu) -> Short.get_shortroomid debug (globals w) room = Done r -> is_u64 r ->
  (exists items, pdus debug now user room (Backfilled (-1)) w = Done <$> items /\
     forall c p, (c, p) ∈ items <-> event_at (maps w pduid_pdu) now user r c p) /\
  pdus_rev debug now user room (Normal 1) w = [].
Proof. intros. split; [by apply pdus_restart|by eapply pdus_rev_nothing]. Qed.

Lemma below_max c : canonical c -> c <> max -> cmp c max = Lt.
Proof.
  intros Hc Hne. assert (into_signed max = i64_max) as Em by by vm_compute.
  apply cmp_lt_signed. rewrite Em. pose proof (into_signed_range c Hc) as Hr.
  assert (into_signed c <> i64_max); [|width_lia]. intros Heq. apply Hne.
  rewrite <- (from_signed_into_signed c Hc), Heq. by vm_compute.
Qed.

(** [last_timeline_count] is the position of the newest event of the room
    when that is not a backfilled one; it is [PduCount::max()] when the room has
    only backfilled events or none. *)
Theorem last_timeline_count_exact now user room w r :
  timeline_rows (maps w pduid_pdu) -> Short.get_shortroomid debug (globals w) room = Done r -> is_u64 r ->
  maps w pduid_pdu !! pkey r max = None ->
  exists last, last_timeline_count debug now user room w = Done last /\
    ((exists n, last = Normal n /\ (exists p, event_at (maps w pduid_pdu) now user r last p) /\
       forall c p, event_at (maps w pduid_pdu) now user r c p -> cmp c last <> Gt) \/
     last = max /\ forall c p, event_at (maps w pduid_pdu) now user r c p -> exists i, c = Backfilled i).
Proof.
  intros Ht Hr Hu Hmax.
  destruct (pdus_rev_items now user room max w r Ht Hr Hu) as (items & Heq & Hs & Hin); [done|done|done|].
  assert (forall c p, event_at (maps w pduid_pdu) now user r c p -> (c, p) ∈ items) as Hall.
  { intros c p Hc. apply Hin. split; [|done]. destruct Hc as ([Hc _] & v & pdu & Hv & _). apply below_max; [done|].
    congruence. }
  unfold last_timeline_count. rewrite Heq. destruct items as [|[c p] items]; cbn [fmap list_fmap try_next mbind outcome_bind].
  { exists max. split; [done|]. right. split; [done|]. intros c p []%Hall%not_elem_of_nil. }
  assert (forall c' p', (c', p') ∈ (c, p) :: items -> cmp c' c <> Gt) as Hfirst.
  { intros c' p' [[= -> ->]|Hc]%elem_of_cons; [by rewrite cmp_not_gt_signed|].
    inversion Hs as [|? ? ? Ha]. rewrite Forall_forall in Ha. specialize (Ha _ Hc). cbn in Ha. congruence. }
  destruct c as [n|i].
  - exists (Normal n). split; [done|]. left. exists n. split_and!; [done| |].
    + exists p. apply Hin. left.
    + intros c' p' Hc%Hall. by eapply Hfirst.
  - exists max. split; [done|]. right. split; [done|]. intros c' p' Hc.
    pose proof (Hfirst c' p' (Hall c' p' Hc)) as Hle. rewrite cmp_not_gt_signed in Hle.
    destruct c' as [n|i']; [|by eexists]. exfalso. destruct Hc as [[Hc _] _].
    assert (event_at (maps w pduid_pdu) now user r (Backfilled i) p) as [[Hi _] _] by (apply Hin; left).
    cbn in *. rewrite as_i64_id in Hle by width_lia. lia.
Qed.

End paging.

(** ** Storing events and finding them *)

Section storing.
Context (debug : bool) {E : Engine} {J : PduJson}.

(** Rows are events at positions; the index by event id leads to the event; no
    event is both in the timeline and an outlier. *)
Record timeline_inv (w : World) : Prop := {
  ti_rows : timeline_rows (maps w pduid_pdu);
  ti_index : forall e k, maps w eventid_pduid !! e = Some k ->
    exists v pdu, maps w pduid_pdu !! k = Some v /\ de_pdu v = Some pdu /\ pdu_event_id pdu = e;
  ti_outlier : forall e, is_Some (maps w eventid_pduid !! e) -> maps w eventid_outlierpdu !! e = None }.

(** The world after an event was stored at a key. *)
Definition stored (k e json : bytes) (w : World) : World :=
  rem eventid_outlierpdu e (ins eventid_pduid e k (ins pduid_pdu k json w)).

Lemma put_json_eq pdu_id json w :
  put_json debug pdu_id json w = Done (ins pduid_pdu (as_bytes pdu_id) json w).
Proof. unfold put_json. by rewrite upd_json. Qed.

Lemma append_pdu_eq r n pdu json w :
  append_pdu debug (raw_from_id (MkId r (Normal n))) pdu json (Normal n) w
    = Done (stored (pkey r (Normal n)) (pdu_event_id pdu) json w).
Proof. unfold append_pdu. rewrite andb_false_r, put_json_eq. done. Qed.

Lemma prepend_eq r c e json w :
  prepend_backfill_pdu debug (raw_from_id (MkId r c)) e json w = Done (stored (pkey r c) e json w).
Proof. unfold prepend_backfill_pdu. by rewrite put_json_eq. Qed.

Lemma stored_inv r c pdu json w :
  timeline_inv w -> is_u64 r -> position c -> de_pdu json = Some pdu ->
  maps w pduid_pdu !! pkey r c = None -> timeline_inv (stored (pkey r c) (pdu_event_id pdu) json w).
Proof.
  intros H Hr Hc Hj Hk. unfold stored. split; autorewrite with world.
  - intros k v. destruct (decide (pkey r c = k)) as [<-|Hne].
    + rewrite lookup_insert_eq. intros [= <-]. exists r, c. by rewrite Hj.
    + rewrite lookup_insert_ne by done. apply (ti_rows w H).
  - intros e k. destruct (decide (pdu_event_id pdu = e)) as [<-|Hne].
    + rewrite lookup_insert_eq. intros [= <-]. exists json, pdu. by rewrite lookup_insert_eq.
    + rewrite lookup_insert_ne by done. intros Hk'. destruct (ti_index w H e k Hk') as (v & pdu' & Hv & ?).
      exists v, pdu'. rewrite lookup_insert_ne by congruence. done.
  - intros e. destruct (decide (pdu_event_id pdu = e)) as [<-|Hne].
    + intros _. apply lookup_delete_eq.
    + rewrite lookup_insert_ne, lookup_delete_ne by done. apply (ti_outlier w H).
Qed.

Lemma get_pdu_id_ok w e k :
  timeline_inv w -> maps w eventid_pduid !! e = Some k ->
  exists r c, is_u64 r /\ position c /\ k = pkey r c /\ get_pdu_id e w = Done (raw_from_id (MkId r c)).
Proof.
  intros H Hk. destruct (ti_index w H e k Hk) as (v & pdu & Hv & _).
  destruct (ti_rows w H k v Hv) as (r & c & Hr & Hc & -> & _). exists r, c. split_and!; [done|done|done|].
  unfold get_pdu_id, get. rewrite Hk. cbn [ok_or lift_tl mbind outcome_bind].
  by rewrite (proj1 (pkey_count r c Hr (proj1 Hc))).
Qed.

(** What an event in the timeline reads as. *)
Lemma get_non_outlier_ok w e k v pdu :
  timeline_inv w -> maps w eventid_pduid !! e = Some k -> maps w pduid_pdu !! k = Some v -> de_pdu v = Some pdu ->
  get_non_outlier_pdu e w = Done pdu.
Proof.
  intros H Hk Hv Hp. destruct (get_pdu_id_ok w e k H Hk) as (r & c & _ & _ & -> & Hid).
  unfold get_non_outlier_pdu. rewrite Hid. cbn [mbind outcome_bind]. unfold get_pdu_from_id, get.
  fold (pkey r c). rewrite Hv. cbn. by rewrite Hp.
Qed.

(** An event that is appended or backfilled at a free position is found by
    its id with its position, whichever of the two lookups of [get_pdu] is ready
    first; it is no longer an outlier, what other events read as is unchanged,
    and the tables stay consistent. *)
Theorem stored_event_found r c pdu json w :
  timeline_inv w -> is_u64 r -> position c -> de_pdu json = Some pdu -> maps w pduid_pdu !! pkey r c = None ->
  exists w',
    (match c with
     | Normal _ => append_pdu debug (raw_from_id (MkId r c)) pdu json c w
     | Backfilled _ => prepend_backfill_pdu debug (raw_from_id (MkId r c)) (pdu_event_id pdu) json w
     end) = Done w' /\
    timeline_inv w' /\
    (forall first, get_pdu first (pdu_event_id pdu) w' = Done pdu) /\
    get_pdu_count (pdu_event_id pdu) w' = Done c /\
    outlier_pdu_exists (pdu_event_id pdu) w' = Fail (TimelineDb NotFound) /\
    forall first e, e <> pdu_event_id pdu -> get_pdu first e w' = get_pdu first e w.
Proof.
  intros H Hr Hc Hj Hk. exists (stored (pkey r c) (pdu_event_id pdu) json w).
  pose proof (stored_inv r c pdu json w H Hr Hc Hj Hk) as H'.
  assert (maps (stored (pkey r c) (pdu_event_id pdu) json w) eventid_pduid !! pdu_event_id pdu = Some (pkey r c)) as Hi.
  { unfold stored. autorewrite with world. apply lookup_insert_eq. }
  assert (maps (stored (pkey r c) (pdu_event_id pdu) json w) eventid_outlierpdu !! pdu_event_id pdu = None) as Ho
    by by apply (ti_outlier _ H').
  split_and!; [by destruct c; [apply append_pdu_eq|apply prepend_eq]|done| | | |].
  - intros first. unfold get_pdu, get_outlier, get. rewrite Ho. cbn [ok_or lift_tl mbind outcome_bind].
    erewrite get_non_outlier_ok; [|done|exact Hi| |exact Hj]; [by destruct first|].
    unfold stored. autorewrite with world. apply lookup_insert_eq.
  - unfold get_pdu_count. destruct (get_pdu_id_ok _ _ _ H' Hi) as (r' & c' & Hr' & Hc' & Heq & ->).
    apply pkey_inj in Heq as [<- <-]; [|done..]. cbn [mbind outcome_bind].
    by rewrite (proj2 (pkey_count r c Hr (proj1 Hc))).
  - unfold outlier_pdu_exists, get. by rewrite Ho.
  - intros first e Hne. unfold get_pdu, get_outlier, get_non_outlier_pdu, get_pdu_id, get.
    assert (maps (stored (pkey r c) (pdu_event_id pdu) json w) eventid_pduid !! e = maps w eventid_pduid !! e /\
            maps (stored (pkey r c) (pdu_event_id pdu) json w) eventid_outlierpdu !! e = maps w eventid_outlierpdu !! e)
      as [-> ->].
    { unfold stored. autorewrite with world. by rewrite lookup_insert_ne, lookup_delete_ne. }
    destruct (maps w eventid_pduid !! e) as [k|] eqn:Ek; [|done]. cbn [ok_or lift_tl mbind outcome_bind].
    destruct (ti_index w H e k Ek) as (v & pdu' & Hv & _).
    destruct (raw_from_bytes k) as [id| | |] eqn:Er; try done. cbn [mbind outcome_bind].
    unfold get_pdu_from_id, get, stored. autorewrite with world.
    apply raw_from_bytes_Done in Er as [_ <-]. rewrite lookup_insert_ne by congruence. done.
Qed.

End storing.

(** ** A room with three events, for the witnesses *)

Module ToyTimeline.

(** An event is its id. *)
Definition toy_pdu (b : bytes) : Pdu := MkPdu b (str "@a:b.org") 0 None [].
Definition json : PduJson :=
  {| de_pdu := fun b => Some (toy_pdu b); json_object_ok := fun _ => true;
     de_unsigned := fun _ => Some ∅; ser_unsigned := fun _ => []; ser_int := fun _ => [] |}.

Definition room : bytes := str "!r:b.org".
Definition blank : World :=
  MkWorld (fun _ => ∅) (MkDb 10 (Some (u64_to_be_bytes 10)) ∅ ∅ ∅ ∅ {[ room := u64_to_be_bytes 7 ]} ∅).

Definition add (c : count) (e : bytes) (w : World) : World := stored (pkey 7 c) e e w.
Definition three : World :=
  add (Normal 6) (str "$new") (add (Backfilled (-2)) (str "$older") (add (Backfilled (-1)) (str "$old") blank)).

Lemma blank_inv : @timeline_inv json blank.
Proof. split; [intros k v H|intros e k H|done]; cbn in H; by apply lookup_empty_Some in H. Qed.

Lemma add_inv c e w :
  @timeline_inv json w -> position c -> maps w pduid_pdu !! pkey 7 c = None -> @timeline_inv json (add c e w).
Proof. intros. by apply (@stored_inv json 7 c (toy_pdu e) e w). Qed.

Lemma three_inv : @timeline_inv json three.
Proof.
  apply add_inv; [apply add_inv; [apply add_inv; [apply blank_inv|..]|..]|..]; by vm_compute.
Qed.

Definition shown (e : bytes) : Pdu := @for_reader json 0 None (toy_pdu e).

Lemma at_old : @event_at json (maps three pduid_pdu) 0 None 7 (Backfilled (-1)) (shown (str "$old")).
Proof. split; [by vm_compute|]. exists (str "$old"), (toy_pdu (str "$old")). by vm_compute. Qed.
Lemma at_older : @event_at json (maps three pduid_pdu) 0 None 7 (Backfilled (-2)) (shown (str "$older")).
Proof. split; [by vm_compute|]. exists (str "$older"), (toy_pdu (str "$older")). by vm_compute. Qed.

End ToyTimeline.

Lemma paging_exact_witness :
  (exists items, @pdus true list_engine ToyTimeline.json 0 None ToyTimeline.room (Backfilled (-2)) ToyTimeline.three
      = Done <$> items /\ (Backfilled (-1), ToyTimeline.shown (str "$old")) ∈ items) /\
  (exists items, @pdus_rev true list_engine ToyTimeline.json 0 None ToyTimeline.room (Backfilled (-2)) ToyTimeline.three
      = Done <$> items /\ (Backfilled (-1), ToyTimeline.shown (str "$old")) ∉ items).
Proof.
  destruct (@paging_exact true list_engine ToyTimeline.json 0 None ToyTimeline.room (Backfilled (-2))
    ToyTimeline.three 7 (ti_rows _ ToyTimeline.three_inv)) as [Hf Hb];
    [by vm_compute|by vm_compute|split; [by vm_compute|discriminate]|]. split.
  - destruct Hf as (items & H1 & _ & H2); [discriminate|discriminate|]. exists items. split; [exact H1|].
    apply H2. split; [reflexivity|apply ToyTimeline.at_old].
  - destruct Hb as (items & H1 & _ & H2); [discriminate|discriminate|]. exists items. split; [exact H1|].
    intros [Hc _]%H2. discriminate Hc.
Defined.

Lemma paging_boundary_witness :
  exists items, @pdus true list_engine ToyTimeline.json 0 None ToyTimeline.room (Backfilled (-1)) ToyTimeline.three
      = Done <$> items /\ (Backfilled (-2), ToyTimeline.shown (str "$older")) ∈ items.
Proof.
  destruct (@paging_boundary true list_engine ToyTimeline.json 0 None ToyTimeline.room
    ToyTimeline.three 7 (ti_rows _ ToyTimeline.three_inv)) as [(items & H1 & H2) _]; [by vm_compute|by vm_compute|].
  exists items. split; [exact H1|]. apply H2, ToyTimeline.at_older.
Defined.

Lemma last_timeline_count_exact_witness :
  exists last, @last_timeline_count true list_engine ToyTimeline.json 0 None ToyTimeline.room ToyTimeline.three = Done last /\
    cmp last max = Lt.
Proof.
  destruct (@last_timeline_count_exact true list_engine ToyTimeline.json 0 None ToyTimeline.room
    ToyTimeline.three 7 (ti_rows _ ToyTimeline.three_inv)) as (last & H1 & H2); [by vm_compute..|].
  exists last. split; [exact H1|]. clear H2. vm_compute in H1. injection H1 as <-. reflexivity.
Defined.

Lemma stored_event_found_witness :
  exists w', @append_pdu true (raw_from_id (MkId 7 (Normal 8))) (ToyTimeline.toy_pdu (str "$e")) (str "$e") (Normal 8)
      ToyTimeline.three = Done w' /\
    @get_pdu ToyTimeline.json true (str "$e") w' = Done (ToyTimeline.toy_pdu (str "$e")).
Proof.
  destruct (@stored_event_found true ToyTimeline.json 7 (Normal 8) (ToyTimeline.toy_pdu (str "$e")) (str "$e")
    ToyTimeline.three ToyTimeline.three_inv) as (w' & H1 & _ & H2 & _);
    [by vm_compute|split; [by vm_compute|discriminate]|done|by vm_compute|].
  exists w'. split; [exact H1|apply H2].
Defined.
