(* ===== verification/Outliers.v ===== *)
(** * Outliers: events that are checked before they may enter a timeline

    Models of [src/service/rooms/event_handler] the files
    [handle_outlier_pdu.rs], [fetch_and_handle_outliers.rs] and the helpers of
    [mod.rs], and [src/core/matrix/pdu/event_id.rs].

    What another server answers, when, and which signatures verify is not known:
    it is the class [Federation], consulted with the number of requests made so
    far.  [PduStore] is what the handler needs of the timeline and of the
    outlier table. *)

From stdpp Require Import prelude gmap strings list.
From Stdlib Require Import ZArith Lia.
From S2P Require Import Prelude MachineInt PduCount Matrix ToyRuma EventAuth CoreUtils Effects.
Import CoreUtils.Time PduId.

(** ** Canonical JSON

    [ruma::CanonicalJsonValue]; an object is a [BTreeMap]. *)
Inductive CanonicalJsonValue :=
| JNull
| JBool (b : bool)
| JInteger (z : Z)
| JString (s : string)
| JArray (l : list CanonicalJsonValue)
| JObject (l : list (string * CanonicalJsonValue)).

Abbreviation CanonicalJsonObject := (gmap string CanonicalJsonValue).

Definition as_array (v : CanonicalJsonValue) : option (list CanonicalJsonValue) :=
  match v with JArray l => Some l | _ => None end.

(** [serde_json] and [ruma] on whole events. *)
Class EventJson := {
  from_str : string -> option CanonicalJsonObject;
  reference_hash : CanonicalJsonObject -> RoomVersionId -> option string;
  valid_event_id : string -> bool;
  redact_json : CanonicalJsonObject -> RoomVersionId -> option CanonicalJsonObject;
  de_pdu_event : CanonicalJsonObject -> option Event;
  de_create_version : string -> option RoomVersionId;   (** [RoomCreateEventContent::room_version] *)
  de_pdu_event_id : forall o e, de_pdu_event o = Some e -> o !! "event_id" = Some (JString (event_id e)) }.

(** [ruma::signatures::Verified] *)
Inductive Verified := All | Signatures.

Class Federation := {
  get_event : nat -> string -> string -> option string;
  verify_event : nat -> CanonicalJsonObject -> RoomVersionId -> option Verified;
  instant : nat -> Z;
  server_running : nat -> bool }.     (** [Server::running] *)

Inductive HandlerError :=
| BadCreateContent | BadServerResponse | RedactionFailed | AlreadyRedacted | SignatureFailed | BadJson
| WrongRoom | DuplicateAuthEvent | WrongCreateEvent | AuthFailed (e : Error) | AuthRefused
| ServerStopped | SortFailed
| SoftFailed | RefusedByState | NoRoomState | MissingPrevEvent | ResolutionFailed (e : Error)
| NonStateEvent | DuplicateStateKey | NoCreateKey | NoStateResponse
| UnknownRoom | RoomDisabled | DeniedByAcl | NoValidSender | NoRoomId | ServiceFailed.

(** ** [event_id.rs] *)

Section event_id.
Context {EJ : EventJson}.

Definition gen_event_id (value : CanonicalJsonObject) (room_version_id : RoomVersionId) : option string :=
  hash ← reference_hash value room_version_id;
  let event_id := "$" +:+ hash in
  if valid_event_id event_id then Some event_id else None.

Definition gen_event_id_canonical_json (pdu : string) (room_version_id : RoomVersionId)
    : option (string * CanonicalJsonObject) :=
  value ← from_str pdu;
  event_id ← gen_event_id value room_version_id;
  Some (event_id, value).

(** [serde_json::from_value::<OwnedEventId>] *)
Definition parse_event_id (v : CanonicalJsonValue) : option string :=
  match v with JString s => if valid_event_id s then Some s else None | _ => None end.

(** The ids of the [auth_events] of an event; entries that are no id are skipped. *)
Definition auth_event_ids (value : CanonicalJsonObject) : list string :=
  match value !! "auth_events" ≫= as_array with
  | Some l => omap parse_event_id l
  | None => []
  end.

End event_id.

(** ** What the handler needs of the timeline and the outliers *)

Class PduStore {EJ : EventJson} := {
  store : Type;
  get_pdu_id : string -> store -> option RawId;
  get_pdu : string -> store -> option Event;
  pdu_exists : string -> store -> bool;
  get_outlier_pdu_json : string -> store -> option CanonicalJsonObject;
  add_pdu_outlier : string -> CanonicalJsonObject -> store -> store;
  get_pdu_exists : forall id s e, get_pdu id s = Some e -> pdu_exists id s = true;
  get_pdu_id_added : forall id id' v s, get_pdu_id id' (add_pdu_outlier id v s) = get_pdu_id id' s;
  get_pdu_added : forall id v s e, get_pdu_id id s = None -> de_pdu_event v = Some e ->
    get_pdu id (add_pdu_outlier id v s) = Some e;
  get_pdu_other : forall id id' v s, id' <> id -> get_pdu id' (add_pdu_outlier id v s) = get_pdu id' s;
  get_json_added : forall id v s, get_outlier_pdu_json id (add_pdu_outlier id v s) = Some v;
  get_json_other : forall id id' v s, id' <> id ->
    get_outlier_pdu_json id' (add_pdu_outlier id v s) = get_outlier_pdu_json id' s }.

(** The handler's state: the tables, [bad_event_ratelimiter], and how many
    requests were made. *)
Record Handler {EJ : EventJson} {PS : PduStore} := MkHandler {
  db : store; bad_event_ratelimiter : gmap string (Z * Z); requests : nat }.
Arguments Handler {EJ} PS.

Section outliers.
Context {R : Ruma} {EJ : EventJson} {FD : Federation} {PS : PduStore}.

Abbreviation handler := (eff (Handler PS) HandlerError).

(** ** Helpers *)

Definition u32_max : Z := 4294967295.

(** A request to the network: its answer depends on when it is made. *)
Definition request {A} (f : nat -> A) : handler A := fun h =>
  (Done (f (requests h)), MkHandler _ _ (db h) (bad_event_ratelimiter h) (S (requests h))).

(** [Instant::elapsed] *)
Definition elapsed (time : Z) (h : Handler PS) : Z := Z.max 0 (instant (requests h) - time).

Definition back_off (id : string) : handler () := modify (fun h =>
  let tries := match bad_event_ratelimiter h !! id with
               | None => 1%Z
               | Some (_, tries) => Z.min u32_max (tries + 1)
               end in
  MkHandler _ _ (db h) (<[id := (instant (requests h), tries)]> (bad_event_ratelimiter h)) (requests h)).

Definition backing_off (min max : Z) (id : string) (h : Handler PS) : bool :=
  match bad_event_ratelimiter h !! id with
  | Some (time, tries) => continue_exponential_backoff_secs min max (elapsed time h) tries
  | None => false
  end.

Definition check_room_id (room_id : string) (pdu : Event) : outcome HandlerError () :=
  if decide (Matrix.room_id pdu <> room_id) then Fail WrongRoom else Done ().

Definition get_room_version_id (create_event : Event) : outcome HandlerError RoomVersionId :=
  ok_or BadCreateContent (de_create_version (content create_event)).

Definition to_room_version (room_version_id : RoomVersionId) : outcome HandlerError RoomVersion :=
  match room_version_new room_version_id with Done rv => Done rv | _ => Panic end.

Definition map_auth_err {A} (o : outcome Error A) : outcome HandlerError A :=
  match o with
  | Done a => Done a | Fail e => Fail (AuthFailed e) | Panic => Panic | OutOfFuel => OutOfFuel
  end.

(** ** [handle_outlier_pdu.rs] *)

(** Steps 2 and 3: signatures and content hash. *)
Definition verify (event_id : string) (value : CanonicalJsonObject) (room_version_id : RoomVersionId)
    : handler CanonicalJsonObject :=
  verified ← request (fun n => verify_event n value room_version_id);
  match verified with
  | Some All => mret value
  | Some Signatures =>
      obj ← lift_eff (ok_or RedactionFailed (redact_json value room_version_id));
      known ← gets (fun h => pdu_exists event_id (db h));
      if known : bool then throw AlreadyRedacted else mret obj
  | None => throw SignatureFailed
  end.

(** The map of auth events. *)
Definition insert_auth (room_id : string) (s : store) (m : StateMap Event) (id : string)
    : outcome HandlerError (StateMap Event) :=
  match get_pdu id s with
  | None => Done m
  | Some auth_event =>
      _ ← check_room_id room_id auth_event;
      sk ← expect (state_key auth_event);
      match m !! (event_type auth_event, sk) with
      | None => Done (<[(event_type auth_event, sk) := auth_event]> m)
      | Some _ => Fail DuplicateAuthEvent
      end
  end.

Definition build_auth_events (room_id : string) (ids : list string) (s : store)
    : outcome HandlerError (StateMap Event) := try_fold (insert_auth room_id s) ∅ ids.

(** [!matches!(auth_events.get(…), Some(_) | None)] *)
Definition wrong_create (auth_events : StateMap Event) : bool :=
  negb (match auth_events !! (RoomCreate, "") with Some _ | None => true end).

Definition handle_outlier_with (fetch : list string -> handler ()) (create_event : Event)
    (event_id room_id : string) (value : CanonicalJsonObject) (auth_events_known : bool)
    : handler (Event * CanonicalJsonObject) :=
  let value := delete "unsigned" value in
  room_version_id ← lift_eff (get_room_version_id create_event);
  val ← verify event_id value room_version_id;
  let val := <["event_id" := JString event_id]> val in
  incoming_pdu ← lift_eff (ok_or BadJson (de_pdu_event val));
  _ ← lift_eff (check_room_id room_id incoming_pdu);
  _ ← (if auth_events_known then mret () else fetch (auth_events incoming_pdu));
  built ← gets (fun h => build_auth_events room_id (auth_events incoming_pdu) (db h));
  auth ← lift_eff built;
  if wrong_create auth then throw WrongCreateEvent else
  rv ← lift_eff (to_room_version room_version_id);
  ok ← lift_eff (map_auth_err (auth_check rv incoming_pdu None (fun ty sk => auth !! (ty, sk))));
  if negb ok then throw AuthRefused else
  _ ← modify (fun h => MkHandler _ _ (add_pdu_outlier (Matrix.event_id incoming_pdu) val (db h))
                         (bad_event_ratelimiter h) (requests h));
  mret (incoming_pdu, val).

(** With [auth_events_known] nothing is fetched. *)
Definition handle_known (create_event : Event) (event_id room_id : string) (value : CanonicalJsonObject)
    : handler (Event * CanonicalJsonObject) :=
  handle_outlier_with (fun _ => mret ()) create_event event_id room_id value true.

(** ** [fetch_and_handle_outliers.rs] *)

Section fetching.
Context (fuel : nat) (origin : string) (create_event : Event) (room_id : string).

(** [while let Some(next_id) = todo_auth_events.pop_front()] *)
Fixpoint fetch_loop (fuel : nat) (todo_auth_events : list string)
    (events_in_reverse_order : list (string * CanonicalJsonObject)) (events_all : gset string)
    : handler (list (string * CanonicalJsonObject)) :=
  match todo_auth_events, fuel with
  | [], _ => mret events_in_reverse_order
  | _, O => out_of_fuel
  | next_id :: todo, S fuel =>
      let continue := fetch_loop fuel todo events_in_reverse_order events_all in
      backing ← gets (backing_off (60 * 2) (60 * 60 * 8) next_id);
      if backing : bool then continue else
      if decide (next_id ∈ events_all) then continue else
      known ← gets (fun h => pdu_exists next_id (db h));
      if known : bool then continue else
      res ← request (fun n => get_event n origin next_id);
      match res with
      | None => _ ← back_off next_id; continue
      | Some pdu =>
          match get_room_version_id create_event with
          | Done room_version_id =>
              match gen_event_id_canonical_json pdu room_version_id with
              | None => _ ← back_off next_id; continue
              | Some (_, value) =>
                  fetch_loop fuel (todo ++ auth_event_ids value)
                    (events_in_reverse_order ++ [(next_id, value)]) ({[next_id]} ∪ events_all)
              end
          | _ => _ ← back_off next_id; continue
          end
      end
  end.

(** The body of the first loop. *)
Definition find_or_fetch (found : list (string * option Event * list (string * CanonicalJsonObject))) (id : string)
    : handler (list (string * option Event * list (string * CanonicalJsonObject))) :=
  local ← gets (fun h => get_pdu id (db h));
  match local with
  | Some local_pdu => mret (found ++ [(id, Some local_pdu, [])])
  | None =>
      events_in_reverse_order ← fetch_loop fuel [id] [] ∅;
      mret (found ++ [(id, None, events_in_reverse_order)])
  end.

(** The bodies of the second loop. *)
Definition handle_fetched (id : string) (pdus : list (Event * option CanonicalJsonObject))
    (item : string * CanonicalJsonObject) : handler (list (Event * option CanonicalJsonObject)) :=
  let '(next_id, value) := item in
  backing ← gets (backing_off (5 * 60) (60 * 60 * 24) next_id);
  if backing : bool then mret pdus else
  res ← attempt (handle_known create_event next_id room_id value);
  match res with
  | inr (pdu, json) => mret (if decide (next_id = id) then pdus ++ [(pdu, Some json)] else pdus)
  | inl _ => _ ← back_off next_id; mret pdus
  end.

Definition handle_found (pdus : list (Event * option CanonicalJsonObject))
    (item : string * option Event * list (string * CanonicalJsonObject))
    : handler (list (Event * option CanonicalJsonObject)) :=
  let '(id, local_pdu, events_in_reverse_order) := item in
  let pdus := match local_pdu with Some p => pdus ++ [(p, None)] | None => pdus end in
  for_each (handle_fetched id) pdus (reverse events_in_reverse_order).

Definition fetch_and_handle_outliers (events : list string)
    : handler (list (Event * option CanonicalJsonObject)) :=
  events_with_auth_events ← for_each find_or_fetch [] events;
  for_each handle_found [] events_with_auth_events.

Definition handle_outlier_pdu (event_id : string) (value : CanonicalJsonObject) (auth_events_known : bool)
    : handler (Event * CanonicalJsonObject) :=
  handle_outlier_with (fun ids => _ ← fetch_and_handle_outliers ids; mret ()) create_event event_id room_id
    value auth_events_known.

End fetching.
End outliers.

(** ** What may be stored *)

Section checked.
Context {R : Ruma} {EJ : EventJson} {FD : Federation} {PS : PduStore}.
Context (create_event : Event) (room_id : string).

(** The auth events of [ids] that are known, by type and state key. *)
Definition auth_map (ids : list string) (s : store) (m : StateMap Event) : Prop :=
  (forall ty sk a, m !! (ty, sk) = Some a <->
     exists id, id ∈ ids /\ get_pdu id s = Some a /\ event_type a = ty /\ state_key a = Some sk) /\
  (forall id a, id ∈ ids -> get_pdu id s = Some a -> Matrix.room_id a = room_id /\ is_Some (state_key a)).

(** [val] is what is left of a received event whose signatures verified. *)
Definition received (rv : RoomVersionId) (id : string) (val : CanonicalJsonObject) : Prop :=
  exists n value obj, value !! "unsigned" = None /\ val = <["event_id" := JString id]> obj /\
    (verify_event n value rv = Some All /\ obj = value \/
     verify_event n value rv = Some Signatures /\ redact_json value rv = Some obj).

Definition admissible (s : store) (id : string) (val : CanonicalJsonObject) : Prop :=
  exists rvid rv e m,
    get_room_version_id create_event = Done rvid /\ room_version_new rvid = Done rv /\
    received rvid id val /\
    de_pdu_event val = Some e /\ event_id e = id /\ Matrix.room_id e = room_id /\
    auth_map (auth_events e) s m /\
    auth_check rv e None (fun ty sk => m !! (ty, sk)) = Done true.

Definition outlier_step (s s' : store) : Prop :=
  exists id val, admissible s id val /\ s' = add_pdu_outlier id val s.

Definition only_outliers (h h' : Handler PS) : Prop := rtc outlier_step (db h) (db h').

#[global] Instance only_outliers_preorder : PreOrder only_outliers.
Proof. split; [intros h; apply rtc_refl|]. unfold only_outliers. intros h1 h2 h3 H1 H2. by trans (db h2). Qed.

Lemma check_room_id_Done r e : check_room_id r e = Done () -> Matrix.room_id e = r.
Proof. unfold check_room_id. destruct (decide (Matrix.room_id e = r)); [done|]. by rewrite decide_True. Qed.

Lemma build_auth_events_map ids s m : build_auth_events room_id ids s = Done m -> auth_map ids s m.
Proof.
  intros Hm. eapply (try_fold_inv _ (fun ids m => auth_map ids s m)) in Hm; [exact Hm| |].
  { split; [|by intros ?? []%not_elem_of_nil]. intros. rewrite lookup_empty. split; [done|].
    by intros (? & []%not_elem_of_nil & _). }
  clear. intros ids id m m' [Hkeys Hroom] Hi. unfold insert_auth in Hi.
  destruct (get_pdu id s) as [a|] eqn:Ha.
  2: { injection Hi as <-. split.
       - intros ty sk a. rewrite Hkeys. split; intros (x & Hx & ? & ?); exists x.
         + rewrite elem_of_app. auto.
         + apply elem_of_app in Hx as [?| ->%list_elem_of_singleton]; [done|congruence].
       - intros id' a. rewrite elem_of_app, list_elem_of_singleton. intros [?| ->]; [eauto|congruence]. }
  bind_inv Hi. destruct a0. apply check_room_id_Done in Hi0. bind_inv Hi.
  destruct (state_key a) as [sk0|] eqn:Hsk; cbn in Hi1; [injection Hi1 as <-|done].
  destruct (m !! (event_type a, sk0)) eqn:Hm; [done|]. injection Hi as <-. split.
  - intros ty sk a'. destruct (decide ((event_type a, sk0) = (ty, sk))) as [E|Hne].
    + rewrite <- E, lookup_insert_eq. injection E as <- <-. split.
      * intros [= <-]. exists id. rewrite elem_of_app, list_elem_of_singleton. auto.
      * intros (id' & [Hin| ->%list_elem_of_singleton]%elem_of_app & Ha' & Hty & Hsk'); [|congruence].
        exfalso. assert (m !! (event_type a, sk0) = Some a') by (apply Hkeys; eauto). congruence.
    + rewrite lookup_insert_ne, Hkeys by done. split.
      * intros (id' & ? & ?). exists id'. rewrite elem_of_app. auto.
      * intros (id' & [Hin| ->%list_elem_of_singleton]%elem_of_app & Ha' & Hty & Hsk'); [eauto|congruence].
  - intros id' a'. rewrite elem_of_app, list_elem_of_singleton. intros [?| ->]; [eauto|].
    rewrite Ha. intros [= <-]. by rewrite Hsk.
Qed.

(** A request does not touch the tables. *)
Lemma request_only {A} (f : nat -> A) : confined only_outliers (request f).
Proof. intros h. apply rtc_refl. Qed.
Lemma back_off_only id : confined only_outliers (back_off id).
Proof. intros h. apply rtc_refl. Qed.

Lemma verify_spec id value rvid h val h' :
  value !! "unsigned" = None -> verify id value rvid h = (Done val, h') ->
  db h' = db h /\ received rvid id (<["event_id" := JString id]> val).
Proof.
  intros Hu. unfold verify. rewrite bind_eff_Done. intros (v & h1 & Hv & H).
  injection Hv as <- <-. destruct (verify_event _ _ _) as [[]|] eqn:Hv; [| |done].
  - injection H as <- <-. split; [done|]. exists (requests h), value, value. auto.
  - apply bind_eff_Done in H as (obj & h2 & H1 & H). injection H1 as Ho <-. apply ok_or_Done in Ho.
    apply bind_eff_Done in H as (k & h3 & [= <- <-] & H).
    destruct (pdu_exists _ _); [done|]. injection H as <- <-. split; [done|].
    exists (requests h), value, obj. auto.
Qed.

Lemma verify_only id value rvid : confined only_outliers (verify id value rvid).
Proof.
  unfold verify. apply confined_bind; [apply _|apply request_only|].
  intros [[]|]; eauto 6 using only_outliers_preorder with eff.
  apply confined_bind; [apply _|apply confined_lift, _|]. intros obj.
  apply confined_bind; [apply _|apply confined_gets, _|]. intros []; eauto using only_outliers_preorder with eff.
Qed.

(** [handle_outlier_pdu] stores nothing but the event it was given, and that
    only when it is admissible. *)
Lemma handle_with_only fetch id value known :
  (forall ids, confined only_outliers (fetch ids)) ->
  confined only_outliers (handle_outlier_with fetch create_event id room_id value known).
Proof.
  intros Hfetch h. unfold handle_outlier_with.
  apply confined_bind_at; [apply _|done|]. intros rvid h1 [= Hrv <-].
  apply confined_bind_at; [apply _|apply verify_only|]. intros val h2 Hval.
  apply verify_spec in Hval as [_ Hrec]; [|apply lookup_delete_eq].
  set (val' := <["event_id" := _]> val) in *.
  apply confined_bind_at; [apply _|done|]. intros e h3 [= He <-]. apply ok_or_Done in He.
  apply confined_bind_at; [apply _|done|]. intros [] h4 [= Hroom%check_room_id_Done <-].
  apply confined_bind_at; [apply _|destruct known; [done|apply Hfetch]|]. intros [] h5 _.
  apply confined_bind_at; [apply _|done|]. intros built h6 [= Hb <-].
  apply confined_bind_at; [apply _|done|]. intros auth h7 [= Ha <-]. rewrite <- Hb in Ha.
  destruct (wrong_create auth); [done|].
  apply confined_bind_at; [apply _|done|]. intros rv h8 [= Hv <-].
  apply confined_bind_at; [apply _|done|]. intros ok h9 [= Hok <-].
  destruct ok; cbn [negb]; [|done]. apply confined_bind_at; [apply _| |done].
  unfold only_outliers, modify. cbn. apply rtc_once. exists id, val'.
  pose proof (de_pdu_event_id val' e He) as Hid. unfold val' in Hid.
  rewrite lookup_insert_eq in Hid. injection Hid as Hid. rewrite <- Hid. split; [|done].
  exists rvid, rv, e, auth. split_and!; try done.
  - unfold to_room_version in Hv. destruct (room_version_new rvid); by simplify_eq.
  - by apply build_auth_events_map.
  - unfold map_auth_err in Hok. by destruct (auth_check _ _ _ _); simplify_eq.
Qed.

Lemma handle_known_only id value : confined only_outliers (handle_known create_event id room_id value).
Proof. apply handle_with_only. intros ids. apply confined_ret, _. Qed.

Context (origin : string).

#[local] Hint Resolve request_only back_off_only handle_known_only : eff.
#[local] Hint Extern 1 (PreOrder _) => apply only_outliers_preorder : eff.

Lemma fetch_loop_only fuel todo evs all :
  confined only_outliers (fetch_loop origin create_event fuel todo evs all).
Proof.
  revert todo evs all. induction fuel as [|fuel IH]; intros [|id todo] evs all; cbn [fetch_loop];
    [auto with eff..|].
  apply confined_bind; [apply _|auto with eff|]. intros []; [apply IH|]. case_decide; [apply IH|].
  apply confined_bind; [apply _|auto with eff|]. intros []; [apply IH|].
  apply confined_bind; [apply _|auto with eff|]. intros [pdu|]; [|auto with eff].
  destruct (get_room_version_id create_event) as [rvid|e| |]; auto with eff.
  destruct (gen_event_id_canonical_json pdu rvid) as [[cid value]|]; auto with eff.
Qed.

Lemma fetch_and_handle_only fuel ids :
  confined only_outliers (fetch_and_handle_outliers fuel origin create_event room_id ids).
Proof.
  unfold fetch_and_handle_outliers. apply confined_bind; [apply _| |].
  - apply confined_for_each; [apply _|]. intros found id. unfold find_or_fetch.
    apply confined_bind; [apply _|auto with eff|]. intros [p|]; [auto with eff|].
    apply confined_bind; [apply _|apply fetch_loop_only|]. auto with eff.
  - intros l. apply confined_for_each; [apply _|]. intros pdus [[id local] evs]. unfold handle_found.
    apply confined_for_each; [apply _|]. intros pdus' [next_id value]. unfold handle_fetched.
    apply confined_bind; [apply _|auto with eff|]. intros []; [auto with eff|].
    apply confined_bind; [apply _|auto with eff|]. intros [e|[pdu json]]; auto with eff.
Qed.

End checked.

(** ** The authorization rules have no loops that need fuel *)

Create HintDb no_fuel.

Section no_fuel.
Context {R : Ruma}.

Definition no_fuel {E A} (o : outcome E A) : Prop := o <> OutOfFuel.

Lemma no_fuel_bind {E A B} (o : outcome E A) (f : A -> outcome E B) :
  no_fuel o -> (forall a, no_fuel (f a)) -> no_fuel (o ≫= f).
Proof. unfold no_fuel. destruct o; cbn; [auto|done..]. Qed.

Lemma no_fuel_ok_or {E A} (e : E) (o : option A) : no_fuel (ok_or e o).
Proof. by destruct o. Qed.
Lemma no_fuel_expect {E A} (o : option A) : no_fuel (expect (E := E) o).
Proof. by destruct o. Qed.

Ltac no_fuel :=
  repeat first
    [ solve [auto with no_fuel]
    | unfold no_fuel; discriminate
    | apply no_fuel_bind; [|intros ?]
    | case_match ].

#[local] Hint Resolve no_fuel_ok_or no_fuel_expect : no_fuel.

Lemma joined_no_fuel rv ev create pl member : no_fuel (check_joined_sender rv ev create pl member).
Proof.
  unfold check_joined_sender, sender_power_level, check_redaction, deserialize_power_levels_content_redact,
    deserialize_power_levels_content_invite, deserialize_power_levels_content_fields,
    deserialize_integer_power_levels_content_fields, deserialize_legacy_power_levels_content_fields.
  no_fuel.
Qed.

Lemma member_no_fuel rv ev tpi fs create pl member : no_fuel (check_room_member rv ev tpi fs create pl member).
Proof.
  unfold check_room_member, valid_membership_change, current_membership, join_auth_valid, is_creator_join,
    deserialize_power_levels_content_invite, deserialize_power_levels_content_fields,
    deserialize_integer_power_levels_content_fields, deserialize_legacy_power_levels_content_fields.
  no_fuel.
Qed.

#[local] Hint Resolve joined_no_fuel member_no_fuel : no_fuel.

Lemma auth_check_no_fuel rv ev tpi fs : no_fuel (auth_check rv ev tpi fs).
Proof. unfold auth_check, check_room_create. no_fuel. Qed.

End no_fuel.

(** ** Fetching ends when the auth chains do *)

Section ends.
Context {R : Ruma} {EJ : EventJson} {FD : Federation} {PS : PduStore}.
Context (origin : string) (create_event : Event) (room_id : string).

(** The events the server offers under ids of [U] refer to at most [k] auth
    events, all of [U]. *)
Definition offers_within (U : gset string) (k : nat) : Prop :=
  forall n id pdu rv cid value, id ∈ U -> get_event n origin id = Some pdu ->
    gen_event_id_canonical_json pdu rv = Some (cid, value) ->
    list_to_set (auth_event_ids value) ⊆ U /\ length (auth_event_ids value) <= k.

Lemma unfetched_less (U all : gset string) id :
  id ∈ U -> id ∉ all -> S (size (U ∖ ({[id]} ∪ all))) = size (U ∖ all).
Proof.
  intros Hid Hall. rewrite (union_comm_L {[id]}), <- difference_difference_l_L.
  rewrite (size_difference (U ∖ all) {[id]}), size_singleton by set_solver.
  assert (size (U ∖ all) <> 0); [|lia]. rewrite size_non_empty_iff. set_solver.
Qed.

Lemma back_off_fueled id : fueled (back_off (PS := PS) id).
Proof. apply fueled_modify. Qed.
#[local] Hint Resolve back_off_fueled : eff.

Lemma fetch_loop_fueled U k fuel todo evs all :
  offers_within U k -> list_to_set todo ⊆ U -> length todo + k * size (U ∖ all) <= fuel ->
  fueled (fetch_loop (PS := PS) origin create_event fuel todo evs all).
Proof.
  intros Hoff. revert todo evs all. induction fuel as [|fuel IH]; intros [|id todo] evs all HU Hf;
    cbn [fetch_loop]; [auto with eff|cbn in Hf; lia|auto with eff|].
  assert (list_to_set todo ⊆ U /\ id ∈ U) as [HU' Hid] by set_solver. cbn in Hf.
  assert (fueled (fetch_loop (PS := PS) origin create_event fuel todo evs all)) as Hcont by (apply IH; [done|lia]).
  apply fueled_bind; [auto with eff|]. intros []; [done|]. case_decide as Hall; [done|].
  apply fueled_bind; [auto with eff|]. intros []; [done|]. intros h. unfold mbind, eff_bind, request.
  destruct (get_event _ _ _) as [pdu|] eqn:Hpdu; [|apply fueled_bind; auto with eff].
  destruct (get_room_version_id create_event) as [rvid|e| |]; try (apply fueled_bind; auto with eff).
  destruct (gen_event_id_canonical_json pdu rvid) as [[cid value]|] eqn:Hgen; [|apply fueled_bind; auto with eff].
  destruct (Hoff _ _ _ _ _ _ Hid Hpdu Hgen) as [Hsub Hlen]. apply IH.
  - rewrite list_to_set_app_L. set_solver.
  - rewrite length_app. pose proof (unfetched_less U all id Hid Hall). nia.
Qed.

Lemma handle_known_fueled id value :
  fueled (handle_known (PS := PS) create_event id room_id value).
Proof.
  assert (forall e : Event, no_fuel (check_room_id room_id e)) as Hroom.
  { intros e. unfold check_room_id. by case_decide. }
  unfold handle_known, handle_outlier_with. apply fueled_bind.
  { apply fueled_lift, no_fuel_ok_or. }
  intros rvid. apply fueled_bind.
  { unfold verify. apply fueled_bind; [done|]. intros [[]|]; auto with eff. apply fueled_bind.
    - apply fueled_lift, no_fuel_ok_or.
    - intros obj. apply fueled_bind; [auto with eff|]. intros []; auto with eff. }
  intros val. apply fueled_bind; [apply fueled_lift, no_fuel_ok_or|]. intros e.
  apply fueled_bind; [apply fueled_lift, Hroom|]. intros _. apply fueled_bind; [auto with eff|]. intros _.
  apply fueled_gets_bind. intros h. apply fueled_bind.
  { apply fueled_lift. unfold build_auth_events. generalize (∅ : StateMap Event).
    induction (auth_events e) as [|x l IH]; intros m; [done|]. cbn [try_fold].
    apply no_fuel_bind; [|intros; apply IH]. unfold insert_auth. case_match; [|done].
    apply no_fuel_bind; [apply Hroom|]. intros _. apply no_fuel_bind; [apply no_fuel_expect|].
    intros sk. by case_match. }
  intros auth. destruct (wrong_create auth); [done|]. apply fueled_bind.
  { apply fueled_lift. unfold to_room_version. by case_match. }
  intros rv. apply fueled_bind.
  { apply fueled_lift. unfold map_auth_err. pose proof (auth_check_no_fuel rv e None (fun ty sk => auth !! (ty, sk))).
    by case_match. }
  intros []; [|done]. apply fueled_bind; auto with eff.
Qed.

Lemma fetch_and_handle_fueled U k fuel ids :
  offers_within U k -> list_to_set ids ⊆ U -> 1 + k * size U <= fuel ->
  fueled (fetch_and_handle_outliers (PS := PS) fuel origin create_event room_id ids).
Proof.
  intros Hoff HU Hf. unfold fetch_and_handle_outliers. apply fueled_bind.
  - apply fueled_for_each. intros found id Hid. unfold find_or_fetch.
    apply fueled_bind; [auto with eff|]. intros [p|]; [auto with eff|].
    apply fueled_bind; [|auto with eff]. apply (fetch_loop_fueled U k); [done|set_solver|].
    rewrite difference_empty_L. cbn. lia.
  - intros l. apply fueled_for_each. intros pdus [[id local] evs] _. unfold handle_found.
    apply fueled_for_each. intros pdus' [next_id value] _. unfold handle_fetched.
    apply fueled_bind; [auto with eff|]. intros []; [auto with eff|].
    apply fueled_bind; [apply fueled_attempt, handle_known_fueled|].
    intros [e|[pdu json]]; auto with eff.
Qed.

End ends.

(** ** Claims *)

Section claims.
Context {R : Ruma} {EJ : EventJson} {FD : Federation} {PS : PduStore}.
Context (fuel : nat) (origin : string) (create_event : Event) (room_id : string).

(** C9. Whatever the other server answers, and whether the handler succeeds or
    fails, the only change [handle_outlier_pdu] and [fetch_and_handle_outliers]
    make to the tables is to add outliers, each of them admissible at the time:
    its signatures verified (after redaction when its content hash did not
    match), it is an event of the room, and the authorization rules accept it
    with the events it names that are known. *)
Theorem outliers_checked id value known ids h :
  rtc (outlier_step create_event room_id) (db h)
    (db (handle_outlier_pdu fuel origin create_event room_id id value known h).2) /\
  rtc (outlier_step create_event room_id) (db h)
    (db (fetch_and_handle_outliers fuel origin create_event room_id ids h).2).
Proof.
  split; [|apply fetch_and_handle_only]. apply handle_with_only. intros ids'.
  apply confined_bind; [apply _|apply fetch_and_handle_only|]. intros a. apply confined_ret, _.
Qed.

(** An event the handler accepts is an event of the room with the id it was
    received under; it is now an outlier, and reads back as what was returned. *)
Theorem accepted_outlier_stored id value known h e val h' :
  handle_outlier_pdu fuel origin create_event room_id id value known h = (Done (e, val), h') ->
  event_id e = id /\ Matrix.room_id e = room_id /\ de_pdu_event val = Some e /\
  get_outlier_pdu_json id (db h') = Some val /\
  (get_pdu_id id (db h') = None -> get_pdu id (db h') = Some e).
Proof.
  unfold handle_outlier_pdu, handle_outlier_with. intros H.
  apply bind_eff_Done in H as (rvid & h1 & [= _ <-] & H).
  apply bind_eff_Done in H as (v & h2 & _ & H).
  apply bind_eff_Done in H as (e' & h3 & [= He%ok_or_Done <-] & H).
  apply bind_eff_Done in H as ([] & h4 & [= Hr%check_room_id_Done <-] & H).
  apply bind_eff_Done in H as ([] & h5 & _ & H).
  apply bind_eff_Done in H as (b & h6 & [= _ <-] & H).
  apply bind_eff_Done in H as (auth & h7 & [= _ <-] & H).
  destruct (wrong_create auth); [done|].
  apply bind_eff_Done in H as (rv & h8 & [= _ <-] & H).
  apply bind_eff_Done in H as (ok & h9 & [= _ <-] & H). destruct ok; cbn [negb] in H; [|done].
  apply bind_eff_Done in H as ([] & h10 & [= <-] & [= <- <- <-]).
  pose proof (de_pdu_event_id _ _ He) as Hid. rewrite lookup_insert_eq in Hid. injection Hid as ->.
  split_and!; try done; cbn [db].
  - apply get_json_added.
  - rewrite get_pdu_id_added. intros. by apply get_pdu_added.
Qed.

(** What the first loop keeps of a known event. *)
Definition local_item (p : string * Event) : string * option Event * list (string * CanonicalJsonObject) :=
  (p.1, Some p.2, []).

Lemma find_known ids es h found :
  Forall2 (fun id e => get_pdu id (db h) = Some e) ids es ->
  for_each (find_or_fetch fuel origin create_event) found ids h =
    (Done (found ++ (local_item <$> zip ids es)), h).
Proof.
  intros Hes. revert found. induction Hes as [|id e ids es He Hes IH]; intros found; cbn; [by rewrite app_nil_r|].
  apply bind_eff_Done. exists (found ++ [local_item (id, e)]), h. split.
  - unfold find_or_fetch. apply bind_eff_Done. exists (Some e), h. unfold gets. by rewrite He.
  - rewrite IH. by rewrite <- app_assoc.
Qed.

Lemma handle_local (l : list (string * Event)) pdus h :
  for_each (handle_found create_event room_id) pdus (local_item <$> l) h =
    (Done (pdus ++ ((fun e => (e, None)) <$> l.*2)), h).
Proof.
  revert pdus. induction l as [|[id e] l IH]; intros pdus; cbn; [by rewrite app_nil_r|].
  apply bind_eff_Done. exists (pdus ++ [(e, None)]), h. split; [done|]. rewrite IH. by rewrite <- app_assoc.
Qed.

(** Events that are known are not fetched: the handler returns them in
    order, makes no request and changes nothing. *)
Theorem known_events_not_fetched ids es h :
  Forall2 (fun id e => get_pdu id (db h) = Some e) ids es ->
  fetch_and_handle_outliers fuel origin create_event room_id ids h =
    (Done ((fun e => (e, None)) <$> es), h).
Proof.
  intros Hes. apply bind_eff_Done. eexists _, h. split; [by apply (find_known ids es h [])|].
  cbn [app]. rewrite handle_local. cbn [app]. rewrite snd_zip; [done|].
  by rewrite (Forall2_length _ _ _ Hes).
Qed.

(** Fetching ends: when the auth events the other server offers stay within
    a finite set of ids, at most [k] for each event, the walk makes no more
    steps than one and [k] for each id. *)
Theorem fetching_ends U k ids h :
  offers_within origin U k -> list_to_set ids ⊆ U -> 1 + k * size U <= fuel ->
  (fetch_and_handle_outliers fuel origin create_event room_id ids h).1 <> OutOfFuel.
Proof. intros. by apply (fetch_and_handle_fueled _ _ _ U k). Qed.

End claims.

(** ** Small servers, for the witnesses *)

Module ToyHandler.

(** Events that are no part of the small room. *)
Definition ev_hello := toy_event "$hello" "@bob:a" 7 (OtherType "m.room.message") "hello" None
  ["$eve"] ["$create"; "$levels"; "$bob"].
Definition ev_reply := toy_event "$reply" "@bob:a" 8 (OtherType "m.room.message") "hi" None
  ["$hello"] ["$create"; "$levels"; "$bob"; "$hello"].
Definition ev_create2 := toy_event "$create2" "@alice:a" 9 RoomCreate "create" (Some "") [] [].
Definition ev_alice2 := toy_event "$alice2" "@alice:a" 10 RoomMember "join" (Some "@alice:a")
  ["$create2"] ["$create2"].

Definition known_events : gmap string Event := list_to_map ((fun e => (event_id e, e)) <$>
  [ev_create; ev_alice; ev_levels; ev_rules; ev_bob; ev_carol; ev_hello; ev_reply; ev_create2; ev_alice2]).

Definition with_id (id : string) (e : Event) : Event :=
  MkEvent id (Matrix.room_id e) (sender e) (origin_server_ts e) (event_type e) (content e) (state_key e)
    (prev_events e) (auth_events e) (redacts e).

Definition get_string (k : string) (o : CanonicalJsonObject) : option string :=
  match o !! k with Some (JString s) => Some s | _ => None end.

(** The text of an event is its name; an unknown name stands for an event that
    refers to another unknown one. *)
Definition object_of (name : string) : CanonicalJsonObject :=
  {[ "name" := JString name;
     "auth_events" := JArray (JString <$> from_option auth_events [name +:+ "x"] (known_events !! name)) ]}.

Definition tail_of (s : string) : string := match s with String _ s => s | EmptyString => EmptyString end.

Program Definition json : EventJson :=
  {| from_str := fun raw => Some (object_of raw);
     reference_hash := fun o _ => tail_of <$> get_string "name" o;
     valid_event_id := fun _ => true;
     redact_json := fun o _ => Some o;
     de_pdu_event := fun o => id ← get_string "event_id" o; name ← get_string "name" o;
                              with_id id <$> known_events !! name;
     de_create_version := fun c => if decide (c = "create") then Some IdV10 else None |}.
Next Obligation.
  intros o e H. apply bind_Some in H as (id & Hid & H). apply bind_Some in H as (name & _ & H).
  apply fmap_Some in H as (e' & _ & ->). cbn. unfold get_string in Hid.
  destruct (o !! "event_id") as [[]|]; by simplify_eq.
Qed.

(** ["a"] has the events of the small room; ["forger"] answers every request
    with [ev_alice]; ["endless"] has an event for every id. *)
Definition federation : Federation :=
  {| get_event := fun _ origin id =>
       if decide (origin = "forger") then Some "$alice"
       else if decide (origin = "endless") then Some id
       else if decide (is_Some (known_events !! id)) then Some id else None;
     verify_event := fun _ _ _ => Some All;
     instant := fun _ => 0%Z;
     server_running := fun _ => true |}.

Record tables := MkTables { timeline : gmap string Event; outliers : gmap string CanonicalJsonObject }.

Program Definition pdus : @PduStore json :=
  {| store := tables;
     get_pdu_id := fun id s => (fun _ => RawNormal []) <$> timeline s !! id;
     get_pdu := fun id s => match timeline s !! id with
                            | Some e => Some e
                            | None => outliers s !! id ≫= de_pdu_event (EventJson := json)
                            end;
     pdu_exists := fun id s => bool_decide (is_Some (timeline s !! id) \/ is_Some (outliers s !! id));
     get_outlier_pdu_json := fun id s => outliers s !! id;
     add_pdu_outlier := fun id v s => MkTables (timeline s) (<[id := v]> (outliers s)) |}.
Next Obligation.
  cbn. intros id s e H. apply bool_decide_eq_true. destruct (timeline s !! id); [by left|].
  apply bind_Some in H as (o & -> & _). by right.
Qed.
Next Obligation. done. Qed.
Next Obligation.
  cbn. intros id v s e Hn He. destruct (timeline s !! id); [done|]. by rewrite lookup_insert_eq.
Qed.
Next Obligation. cbn. intros id id' v s Hne. by rewrite lookup_insert_ne by congruence. Qed.
Next Obligation. cbn. intros. apply lookup_insert_eq. Qed.
Next Obligation. cbn. intros. by apply lookup_insert_ne. Qed.

Abbreviation state := (@Handler json pdus).
Definition with_timeline (l : list Event) : state :=
  @MkHandler json pdus (MkTables (list_to_map ((fun e => (event_id e, e)) <$> l)) ∅) ∅ 0.

Definition fetch_from (origin : string) (fuel : nat) (ids : list string) (s : state) :=
  @fetch_and_handle_outliers toy_ruma json federation pdus fuel origin ev_create "!room:a" ids s.
Definition handle_from (origin : string) (id name : string) (s : state) :=
  @handle_outlier_pdu toy_ruma json federation pdus 20 origin ev_create "!room:a" id (object_of name) false s.

Definition start : state := with_timeline [ev_create].

(** The chain of auth events of [$bob], handled oldest first. *)
Definition fetched : state := (fetch_from "a" 20 ["$bob"] start).2.

Lemma bob_fetched : get_pdu (PduStore := pdus) "$bob" (db fetched) = Some ev_bob.
Proof. vm_compute. reflexivity. Qed.

Lemma alice_handled :
  (handle_from "a" "$alice" "$alice" start).1 =
    Done (ev_alice, <["event_id" := JString "$alice"]> (object_of "$alice")).
Proof. vm_compute. reflexivity. Qed.

Lemma accepted_outlier_stored_witness :
  get_pdu (PduStore := pdus) "$alice" (db (handle_from "a" "$alice" "$alice" start).2) = Some ev_alice.
Proof.
  apply (@accepted_outlier_stored toy_ruma json federation pdus 20 "a" ev_create "!room:a" "$alice"
    (object_of "$alice") false start ev_alice (<["event_id" := JString "$alice"]> (object_of "$alice"))).
  - rewrite <- alice_handled. apply surjective_pairing.
  - vm_compute. reflexivity.
Defined.

Lemma known_events_not_fetched_witness :
  fetch_from "a" 0 ["$create"] start = (Done [(ev_create, None)], start).
Proof.
  apply (@known_events_not_fetched toy_ruma json federation pdus 0 "a" ev_create "!room:a" ["$create"] [ev_create] start).
  repeat constructor.
Defined.

Lemma parse_ids (l : list string) : omap (parse_event_id (EJ := json)) (JString <$> l) = l.
Proof. induction l as [|a l IH]; [done|]. cbn. by rewrite <- IH at 2. Qed.

(** What ["a"] offers under the ids of its events and one more. *)
Lemma toy_offers id : offers_within (EJ := json) (FD := federation) "a" ({[id]} ∪ dom known_events) 5.
Proof.
  intros n x pdu rv cid value _ Hp Hg.
  assert (is_Some (known_events !! x) /\ pdu = x) as [[e He] ->].
  { unfold get_event, federation in Hp. do 2 rewrite decide_False in Hp by done.
    case_decide; [|done]. by injection Hp as <-. }
  assert (auth_event_ids (EJ := json) value = auth_events e) as ->.
  { apply bind_Some in Hg as (v & [= <-] & Hg). apply bind_Some in Hg as (i & _ & [= _ <-]).
    unfold auth_event_ids, object_of. rewrite He. apply parse_ids. }
  assert (map_Forall (fun _ e => list_to_set (auth_events e) ⊆ dom known_events /\ length (auth_events e) <= 5)
            known_events) as Hall by (apply (bool_decide_unpack _); by vm_compute).
  destruct (Hall x e He) as [Hsub Hlen]. split; [set_solver|done].
Qed.

Lemma known_size id : size ({[id]} ∪ dom known_events) <= 11.
Proof.
  assert (size (dom known_events) = 10) as Hs by (vm_compute; reflexivity).
  generalize dependent (dom known_events : gset string). intros X HX.
  rewrite size_union_alt, size_singleton. pose proof (subseteq_size (X ∖ {[id]}) X ltac:(set_solver)). lia.
Qed.

Lemma fetching_ends_witness : (fetch_from "a" 56 ["$bob"] start).1 <> OutOfFuel.
Proof.
  apply (@fetching_ends toy_ruma json federation pdus 56 "a" ev_create "!room:a" ({["$bob"]} ∪ dom known_events) 5).
  - apply toy_offers.
  - set_solver.
  - pose proof (known_size "$bob"). lia.
Defined.

End ToyHandler.

(** ** What the checks leave open *)

Module Gaps.
Import ToyHandler.

Lemma unknown_name r : known_events !! ("e" +:+ r) = None.
Proof.
  destruct (known_events !! ("e" +:+ r)) as [e|] eqn:He; [|done].
  assert (map_Forall (fun k _ => String.prefix "e" k = false) known_events) as Hall
    by (apply (bool_decide_unpack _); by vm_compute).
  specialize (Hall _ e He). cbn beta in Hall. by destruct r.
Qed.

Lemma longer_name id : String.length (id +:+ "x") = S (String.length id).
Proof. induction id as [|c id IH]; [done|]. exact (f_equal S IH). Qed.

Lemma endless_loop fuel id evs all (h : state) :
  (exists r, id = "e" +:+ r) -> db h = db start -> bad_event_ratelimiter h = ∅ ->
  (forall x, x ∈ all -> String.length x < String.length id) ->
  exists h', @fetch_loop json federation pdus "endless" ev_create fuel [id] evs all h = (OutOfFuel, h') /\
    requests h' = requests h + fuel.
Proof.
  revert id evs all h. induction fuel as [|fuel IH]; intros id evs all h Hid Hdb Hrl Hall.
  { exists h. split; [done|lia]. }
  cbn [fetch_loop]. unfold mbind at 1, eff_bind at 1, gets, backing_off. rewrite Hrl, lookup_empty.
  rewrite decide_False by (intros Hin; specialize (Hall id Hin); lia).
  unfold mbind at 1, eff_bind at 1, gets. rewrite Hdb.
  assert (pdu_exists (PduStore := pdus) id (db start) = false) as ->.
  { cbn. apply bool_decide_eq_false. rewrite lookup_empty. intros [[e He]|[? [=]]].
    destruct Hid as [r ->]. by apply lookup_singleton_Some in He as [[=] _]. }
  unfold mbind at 1, eff_bind at 1, request. cbn [get_event federation].
  rewrite decide_False, decide_True by done. cbn [get_room_version_id].
  change (get_room_version_id (EJ := json) ev_create) with (Done (E := HandlerError) IdV10).
  lazy match beta.
  change (gen_event_id_canonical_json (EJ := json) id IdV10) with (Some ("$" +:+ tail_of id, object_of id)).
  lazy match beta.
  assert (auth_event_ids (EJ := json) (object_of id) = [id +:+ "x"]) as ->.
  { unfold auth_event_ids, object_of. destruct Hid as [r ->]. rewrite unknown_name. reflexivity. }
  destruct (IH (id +:+ "x") (evs ++ [(id, object_of id)]) ({[id]} ∪ all)
              (@MkHandler json pdus (db h) (bad_event_ratelimiter h) (S (requests h)))) as (h' & E & Hr).
  - destruct Hid as [r ->]. by exists (r +:+ "x").
  - done.
  - done.
  - intros x. rewrite elem_of_union, elem_of_singleton, longer_name. intros [->|Hx%Hall]; lia.
  - exists h'. split; [exact E|]. cbn in Hr. lia.
Qed.

(** Nothing bounds how far auth events are followed, and an answer is not
    held against the id that was asked for: a server that answers every request
    with an event that refers to another one keeps the handler fetching, one
    request for each step, however many steps it is given. *)
Theorem endless_auth_chain (fuel : nat) :
  (fetch_from "endless" fuel ["e"] start).1 = OutOfFuel /\
  requests (fetch_from "endless" fuel ["e"] start).2 = fuel.
Proof.
  destruct (endless_loop fuel "e" [] ∅ start) as (h' & E & Hr); [by exists ""|done|done|set_solver|].
  assert (fetch_from "endless" fuel ["e"] start = (OutOfFuel, h')) as ->; [|exact (conj eq_refl Hr)].
  assert (@find_or_fetch json federation pdus fuel "endless" ev_create [] "e" start = (OutOfFuel, h')) as E1.
  { unfold find_or_fetch. unfold mbind at 1, eff_bind at 1.
    change (gets _ start) with (Done (E := HandlerError) (@None Event), start). lazy match beta.
    unfold mbind, eff_bind. by rewrite E. }
  unfold fetch_from, fetch_and_handle_outliers. cbn [for_each]. unfold mbind, eff_bind. by rewrite E1.
Qed.

(** The id of a fetched event is the one that was asked for, not the one
    computed from the event, which is only compared in order to log a warning:
    an event whose id is [$alice] is stored, and read back, as [$forged]. *)
Theorem forged_id_stored :
  let s := (fetch_from "forger" 20 ["$forged"] start).2 in
  exists val e, get_outlier_pdu_json (PduStore := pdus) "$forged" (db s) = Some val /\
    gen_event_id (EJ := json) val IdV10 = Some "$alice" /\
    get_pdu (PduStore := pdus) "$forged" (db s) = Some e /\ event_id e = "$forged".
Proof.
  exists (<["event_id" := JString "$forged"]> (object_of "$alice")), (with_id "$forged" ev_alice).
  split_and!; vm_compute; reflexivity.
Qed.

(** An event that names a known message as one of its auth events makes
    the handler panic ([expect("all auth events have state keys")]). *)
Theorem message_as_auth_event_panics :
  (handle_from "a" "$reply" "$reply"
     (with_timeline [ev_create; ev_alice; ev_levels; ev_rules; ev_bob; ev_hello])).1 = Panic.
Proof. vm_compute. reflexivity. Qed.

(** The create event an event is checked against is the one it names, not
    the room's: [$alice2] names a second create event and is accepted. *)
Theorem second_create_accepted :
  exists val, (handle_from "a" "$alice2" "$alice2" start).1 = Done (ev_alice2, val) /\
    event_id ev_create2 ∈ auth_events ev_alice2 /\ event_id ev_create ∉ auth_events ev_alice2.
Proof.
  exists (<["event_id" := JString "$alice2"]> (object_of "$alice2")).
  split; [vm_compute; reflexivity|]. split; apply (bool_decide_unpack _); by vm_compute.
Qed.

End Gaps.
