(* ===== verification/OutlierStore.v ===== *)
(** * The tables behind the event handler

    Models [src/service/rooms/outlier/mod.rs] and shows that it and
    [Timeline] are what [Outliers] needs: the instance [world_pdus] of
    [PduStore].  The JSON text of events is a parameter. *)

From stdpp Require Import prelude gmap strings list.
From Stdlib Require Import ZArith Lia.
From S2P Require Import Prelude MachineInt PduCount Matrix DbCodec DbMap Short World Timeline Outliers.
Import PduId.

(** [serde_json] between events, canonical objects and their text: an object
    reads back as written, and an event is decoded from the text of an object as
    from the object.  [pdu_event] gives the getters of an event that was read. *)
Class EventText {EJ : EventJson} {J : PduJson} := {
  to_text : CanonicalJsonObject -> bytes;
  of_text : bytes -> option CanonicalJsonObject;
  pdu_event : Pdu -> Event;
  of_to_text : forall o, of_text (to_text o) = Some o;
  pdu_of_text : forall o, pdu_event <$> de_pdu (to_text o) = de_pdu_event o }.

Section outlier.
Context (debug : bool) {EJ : EventJson} {J : PduJson} {T : EventText}.

(** ** [outlier/mod.rs] *)

Definition service_outlier_json (event_id : bytes) (w : World) : outcome TimelineError CanonicalJsonObject :=
  b ← lift_tl (get (maps w eventid_outlierpdu) event_id); ok_or Timeline.InvalidPdu (of_text b).

Definition get_pdu_outlier (event_id : bytes) (w : World) : outcome TimelineError Pdu :=
  b ← lift_tl (get (maps w eventid_outlierpdu) event_id); ok_or Timeline.InvalidPdu (de_pdu b).

Definition service_add_outlier (event_id : bytes) (pdu : CanonicalJsonObject) (w : World)
    : outcome CodecError World :=
  upd eventid_outlierpdu (fun t => raw_put debug t event_id (VJson (to_text pdu))) w.

Lemma service_add_eq event_id pdu w :
  service_add_outlier event_id pdu w = Done (ins eventid_outlierpdu event_id (to_text pdu) w).
Proof. apply upd_json. Qed.

(** ** The instance *)

(** Every row of the index of events is a position. *)
Definition index_ok (w : World) : Prop :=
  forall e k, maps w eventid_pduid !! e = Some k -> exists id, raw_from_bytes k = Done id.

Lemma index_ok_add e v w : index_ok w -> index_ok (ins eventid_outlierpdu e v w).
Proof. unfold index_ok. autorewrite with world. done. Qed.

Definition ok_of {E A} (o : outcome E A) : option A := match o with Done a => Some a | _ => None end.

(** An event that is not in the index is not in the timeline. *)
Lemma not_indexed id w :
  index_ok w -> ok_of (Timeline.get_pdu_id id w) = None -> maps w eventid_pduid !! id = None.
Proof.
  intros Hw. unfold Timeline.get_pdu_id, get. destruct (maps w eventid_pduid !! id) as [k|] eqn:Hk; [|done].
  destruct (Hw id k Hk) as [i Hi]. cbn. by rewrite Hi.
Qed.

Lemma ok_of_Some {E A} (o : outcome E A) a : ok_of o = Some a <-> o = Done a.
Proof. destruct o; cbn; naive_solver. Qed.

Lemma select_ok_Done {A} first (a b : outcome TimelineError A) x :
  select_ok first a b = Done x -> a = Done x \/ b = Done x.
Proof. destruct first, a, b; cbn; naive_solver. Qed.

End outlier.

Section instance.
Context {EJ : EventJson} {J : PduJson} {T : EventText} (first : bool).

Definition pdu_world : Type := { w : World | index_ok w }.

Definition world_get_pdu_id (id : string) (s : pdu_world) : option RawId :=
  ok_of (Timeline.get_pdu_id (str id) (proj1_sig s)).
Definition world_get_pdu (id : string) (s : pdu_world) : option Event :=
  pdu_event <$> ok_of (Timeline.get_pdu first (str id) (proj1_sig s)).
Definition world_pdu_exists (id : string) (s : pdu_world) : bool :=
  match Timeline.pdu_exists first (str id) (proj1_sig s) with Done _ => true | _ => false end.
Definition world_outlier_json (id : string) (s : pdu_world) : option CanonicalJsonObject :=
  ok_of (service_outlier_json (str id) (proj1_sig s)).
Definition world_add_outlier (id : string) (v : CanonicalJsonObject) (s : pdu_world) : pdu_world :=
  let 'exist _ w Hw := s in exist _ (ins eventid_outlierpdu (str id) (to_text v) w) (index_ok_add _ _ _ Hw).

(** Whether an event exists does not depend on which lookup is ready first. *)
Lemma get_pdu_id_no_panic id w : index_ok w -> Timeline.get_pdu_id id w <> Panic /\ Timeline.get_pdu_id id w <> OutOfFuel.
Proof.
  intros Hw. unfold Timeline.get_pdu_id, get. destruct (maps w eventid_pduid !! id) as [k|] eqn:Hk; [|done].
  destruct (Hw id k Hk) as [i Hi]. cbn. by rewrite Hi.
Qed.

Lemma world_get_pdu_exists id s e : world_get_pdu id s = Some e -> world_pdu_exists id s = true.
Proof.
  destruct s as [w Hw]. unfold world_get_pdu, world_pdu_exists. cbn [proj1_sig].
  intros (p & Hp%ok_of_Some & _)%fmap_Some. pose proof (get_pdu_id_no_panic (str id) w Hw) as [Hn1 Hn2].
  apply select_ok_Done in Hp as [Hp|Hp].
  - unfold Timeline.pdu_exists, non_outlier_pdu_exists, outlier_pdu_exists.
    unfold get_non_outlier_pdu in Hp. bind_inv Hp. rewrite Hp0. unfold get_pdu_from_id in Hp. bind_inv Hp.
    cbn [mbind outcome_bind]. rewrite Hp1. unfold get.
    destruct first; [done|]. by destruct (maps w eventid_outlierpdu !! str id).
  - unfold Timeline.pdu_exists, non_outlier_pdu_exists, outlier_pdu_exists. unfold get_outlier in Hp.
    bind_inv Hp. rewrite Hp0. cbn [mbind outcome_bind]. destruct first; [|done]. unfold select_ok.
    destruct (Timeline.get_pdu_id (str id) w) as [i|er| |]; [|done..]. cbn [mbind outcome_bind]. unfold get.
    by destruct (maps w pduid_pdu !! _).
Qed.

(** What the lookups of other events see is unchanged. *)
Lemma add_outlier_lookup id id' v w :
  id' <> id -> maps (ins eventid_outlierpdu (str id) v w) eventid_outlierpdu !! str id' =
               maps w eventid_outlierpdu !! str id'.
Proof. intros Hne. autorewrite with world. rewrite lookup_insert_ne; [done|]. by intros ->%(inj str). Qed.

Program Definition world_pdus : PduStore :=
  {| store := pdu_world; get_pdu_id := world_get_pdu_id; get_pdu := world_get_pdu;
     pdu_exists := world_pdu_exists; get_outlier_pdu_json := world_outlier_json;
     add_pdu_outlier := world_add_outlier |}.
Next Obligation. apply world_get_pdu_exists. Qed.
Next Obligation.
  intros id id' v [w Hw]. unfold world_get_pdu_id, world_add_outlier. cbn [proj1_sig].
  unfold Timeline.get_pdu_id. by autorewrite with world.
Qed.
Next Obligation.
  intros id v [w Hw] e Hn He. unfold world_get_pdu, world_add_outlier. cbn [proj1_sig].
  apply not_indexed in Hn; [|done]. unfold Timeline.get_pdu, get_non_outlier_pdu, Timeline.get_pdu_id, get_outlier, get.
  autorewrite with world. cbn [proj1_sig] in Hn. rewrite Hn, lookup_insert_eq. cbn [ok_or lift_tl mbind outcome_bind].
  rewrite <- pdu_of_text in He. apply fmap_Some in He as (p & -> & ->). by destruct first.
Qed.
Next Obligation.
  intros id id' v [w Hw] Hne. unfold world_get_pdu, world_add_outlier. cbn [proj1_sig].
  unfold Timeline.get_pdu, get_non_outlier_pdu, Timeline.get_pdu_id, get_pdu_from_id, get_outlier, get.
  rewrite add_outlier_lookup by done. by autorewrite with world.
Qed.
Next Obligation.
  intros id v [w Hw]. unfold world_outlier_json, world_add_outlier, service_outlier_json, get. cbn [proj1_sig].
  autorewrite with world. rewrite lookup_insert_eq. cbn. by rewrite of_to_text.
Qed.
Next Obligation.
  intros id id' v [w Hw] Hne. unfold world_outlier_json, world_add_outlier, service_outlier_json, get. cbn [proj1_sig].
  by rewrite add_outlier_lookup.
Qed.

End instance.
