(* ===== verification/FetchPrev.v ===== *)
(** * Missing previous events

    Models [src/service/rooms/event_handler/fetch_prev.rs]: the events before a
    received one are fetched, back to the first event this server knows or to a
    limit, and sorted so that each can be handled after the events it follows. *)

From stdpp Require Import prelude gmap strings list sorting.
From Stdlib Require Import ZArith Lia.
From S2P Require Import Prelude MachineInt PduCount TopoSort Matrix ToyRuma EventAuth CoreUtils Effects Outliers.

Abbreviation prev_info := (gmap string (Event * CanonicalJsonObject)).
Abbreviation prev_graph := (gmap string (gset string)).

Section fetch_prev.
Context {R : Ruma} {EJ : EventJson} {FD : Federation} {PS : PduStore} {sched : Schedule}.
Context (fetch_fuel : nat) (max_fetch_prev_events : Z).
Context (origin : string) (create_event : Event) (room_id : string) (first_ts_in_room : Z).

Abbreviation handler := (eff (Handler PS) HandlerError).

Definition u16_max : Z := 65535.

Definition check_running : handler () :=
  running ← gets (fun h => server_running (requests h));
  if running : bool then mret () else throw ServerStopped.

(** What is known of one event: the event and its JSON, if it was fetched or is
    an outlier. *)
Definition look_up (prev_event_id : string) : handler (option (Event * option CanonicalJsonObject)) :=
  pdus ← fetch_and_handle_outliers fetch_fuel origin create_event room_id [prev_event_id];
  match last pdus with
  | None => mret None
  | Some (pdu, json) =>
      _ ← lift_eff (check_room_id room_id pdu);
      mret (Some (pdu, json))
  end.

Definition json_or_outlier (prev_event_id : string) (json_opt : option CanonicalJsonObject)
    : handler (option CanonicalJsonObject) :=
  match json_opt with
  | Some json => mret (Some json)
  | None => gets (fun h => get_outlier_pdu_json prev_event_id (db h))
  end.

(** [while let Some(prev_event_id) = todo_outlier_stack.pop_front()] *)
Fixpoint prev_loop (fuel : nat) (todo : list string) (graph : prev_graph) (eventid_info : prev_info)
    (amount : Z) : handler (prev_graph * prev_info) :=
  match todo, fuel with
  | [], _ => mret (graph, eventid_info)
  | _, O => out_of_fuel
  | prev_event_id :: todo, S fuel =>
      _ ← check_running;
      found ← look_up prev_event_id;
      match found with
      | Some (pdu, json_opt) =>
          if (max_fetch_prev_events <? amount)%Z
          then prev_loop fuel todo (<[prev_event_id := ∅]> graph) eventid_info amount
          else
            json_opt ← json_or_outlier prev_event_id json_opt;
            match json_opt with
            | Some json =>
                let eventid_info := <[prev_event_id := (pdu, json)]> eventid_info in
                if (first_ts_in_room <? origin_server_ts pdu)%Z
                then prev_loop fuel (todo ++ filter (fun p => p ∉ dom graph) (prev_events pdu))
                       (<[prev_event_id := list_to_set (prev_events pdu)]> graph) eventid_info
                       (Z.min u16_max (amount + 1))
                else prev_loop fuel todo (<[prev_event_id := ∅]> graph) eventid_info amount
            | None => prev_loop fuel todo (<[prev_event_id := ∅]> graph) eventid_info amount
            end
      | None => prev_loop fuel todo (<[prev_event_id := ∅]> graph) eventid_info amount
      end
  end.

(** The sort key: power level 0 and the timestamp, 0 for events without one. *)
Definition event_fetch (eventid_info : prev_info) (event_id : string) : HandlerError + (Z * Z) :=
  inr (0%Z, from_option (fun info => origin_server_ts info.1) 0%Z (eventid_info !! event_id)).

Definition sort_prev (eventid_info : prev_info) (graph : prev_graph) : outcome HandlerError (list string) :=
  match lexicographical_topological_sort (event_fetch eventid_info) graph with
  | Fail _ => Fail SortFailed
  | o => o
  end.

Definition fetch_prev (fuel : nat) (initial_set : list string) : handler (list string * prev_info) :=
  '(graph, eventid_info) ← prev_loop fuel initial_set ∅ ∅ 0%Z;
  sorted ← lift_eff (sort_prev eventid_info graph);
  mret (sorted, eventid_info).

End fetch_prev.

(** ** What the loop builds *)

Section graph.
Context {R : Ruma} {EJ : EventJson} {FD : Federation} {PS : PduStore} {sched : Schedule}.
Context (fetch_fuel : nat) (limit : Z) (origin : string) (create_event : Event) (room_id : string) (first_ts : Z).
Implicit Types (g : prev_graph) (info : prev_info).

(** The events whose previous events were followed. *)
Definition expanded g : gset string := dom (filter (fun kv => kv.2 <> ∅) g).

(** Every event that was asked for has an entry or is waiting; an entry without
    edges is an end; an entry with edges is an event of [eventid_info] newer than
    the first known one, with its previous events. *)
Record prev_inv (initial todo : list string) g info (amount : Z) : Prop := {
  pi_initial : forall x, x ∈ initial -> x ∈ dom g \/ x ∈ todo;
  pi_closed : forall n es p, g !! n = Some es -> p ∈ es -> p ∈ dom g \/ p ∈ todo;
  pi_edges : forall n es, g !! n = Some es -> es <> ∅ -> exists e j, info !! n = Some (e, j) /\
    es = list_to_set (prev_events e) /\ (first_ts < origin_server_ts e)%Z;
  pi_info : forall n e j, info !! n = Some (e, j) -> n ∈ dom g /\ Matrix.room_id e = room_id;
  pi_amount : (Z.of_nat (size (expanded g)) <= amount)%Z;
  pi_limit : (amount <= limit + 1)%Z }.

Lemma expanded_end g n : expanded (<[n := ∅]> g) ⊆ expanded g.
Proof.
  unfold expanded. intros x. rewrite !elem_of_dom. intros [es [Hx Hne]%map_lookup_filter_Some].
  cbn in Hne. apply lookup_insert_Some in Hx as [[_ <-]|[_ Hx]]; [done|].
  exists es. by apply map_lookup_filter_Some.
Qed.

Lemma expanded_insert g n es : expanded (<[n := es]> g) ⊆ {[n]} ∪ expanded g.
Proof.
  unfold expanded. intros x. rewrite elem_of_union, elem_of_singleton, !elem_of_dom.
  intros [es' [Hx Hne]%map_lookup_filter_Some]. apply lookup_insert_Some in Hx as [[-> _]|[_ Hx]]; [by left|].
  right. exists es'. by apply map_lookup_filter_Some.
Qed.

Lemma dom_insert_waiting g n (es : gset string) (todo todo' : list string) x :
  x ∈ dom g \/ x ∈ n :: todo -> todo ⊆ todo' -> x ∈ dom (<[n := es]> g) \/ x ∈ todo'.
Proof. rewrite dom_insert_L. set_solver. Qed.

(** An event whose previous events are not followed. *)
Lemma inv_end initial n todo g info info' amount :
  prev_inv initial (n :: todo) g info amount ->
  (info' = info \/ exists e j, info' = <[n := (e, j)]> info /\ Matrix.room_id e = room_id) ->
  prev_inv initial todo (<[n := ∅]> g) info' amount.
Proof.
  intros H Hinfo. split.
  - intros x Hx. eapply dom_insert_waiting; [by apply (pi_initial _ _ _ _ _ H)|done].
  - intros m es p [[_ <-]|[_ Hm]]%lookup_insert_Some Hp; [set_solver|].
    eapply dom_insert_waiting; [by eapply (pi_closed _ _ _ _ _ H)|done].
  - intros m es [[_ <-]|[Hne Hm]]%lookup_insert_Some Hes; [done|].
    destruct (pi_edges _ _ _ _ _ H m es Hm Hes) as (e & j & He & ?). exists e, j. split; [|done].
    destruct Hinfo as [->|(e' & j' & -> & _)]; [done|]. by rewrite lookup_insert_ne.
  - intros m e j Hm. rewrite dom_insert_L, elem_of_union, elem_of_singleton.
    destruct Hinfo as [->|(e' & j' & -> & Hr)].
    + destruct (pi_info _ _ _ _ _ H m e j Hm). auto.
    + apply lookup_insert_Some in Hm as [[-> [= <- <-]]|[_ Hm]]; [auto|].
      destruct (pi_info _ _ _ _ _ H m e j Hm). auto.
  - pose proof (pi_amount _ _ _ _ _ H). pose proof (subseteq_size _ _ (expanded_end g n)). lia.
  - apply H.
Qed.

(** An event whose previous events are followed. *)
Lemma inv_expand initial n todo g info e j amount :
  (limit < u16_max)%Z -> (amount <= limit)%Z -> prev_inv initial (n :: todo) g info amount ->
  Matrix.room_id e = room_id -> (first_ts < origin_server_ts e)%Z ->
  prev_inv initial (todo ++ filter (fun p => p ∉ dom g) (prev_events e))
    (<[n := list_to_set (prev_events e)]> g) (<[n := (e, j)]> info) (Z.min u16_max (amount + 1)).
Proof.
  intros Hlim Ham H Hroom Hts. split.
  - intros x Hx. eapply dom_insert_waiting; [by apply (pi_initial _ _ _ _ _ H)|set_solver].
  - intros m es p [[_ <-]|[_ Hm]]%lookup_insert_Some Hp.
    + rewrite elem_of_list_to_set in Hp. destruct (decide (p ∈ dom g)) as [Hd|Hd].
      * left. rewrite dom_insert_L. set_solver.
      * right. apply elem_of_app. right. by apply list_elem_of_filter.
    + eapply dom_insert_waiting; [by eapply (pi_closed _ _ _ _ _ H)|set_solver].
  - intros m es [[<- <-]|[Hne Hm]]%lookup_insert_Some Hes.
    + exists e, j. by rewrite lookup_insert_eq.
    + destruct (pi_edges _ _ _ _ _ H m es Hm Hes) as (e' & j' & He & ?). exists e', j'. by rewrite lookup_insert_ne.
  - intros m e' j' Hm. rewrite dom_insert_L, elem_of_union, elem_of_singleton.
    apply lookup_insert_Some in Hm as [[-> [= <- <-]]|[_ Hm]]; [auto|].
    destruct (pi_info _ _ _ _ _ H m e' j' Hm). auto.
  - pose proof (pi_amount _ _ _ _ _ H).
    pose proof (subseteq_size _ _ (expanded_insert g n (list_to_set (prev_events e)))).
    pose proof (size_union_alt {[n]} (expanded g)). pose proof (size_singleton (C := gset string) n).
    pose proof (subseteq_size (expanded g ∖ {[n]}) (expanded g) ltac:(set_solver)). lia.
  - lia.
Qed.

Lemma look_up_room n h pdu json h' :
  look_up fetch_fuel origin create_event room_id n h = (Done (Some (pdu, json)), h') -> Matrix.room_id pdu = room_id.
Proof.
  unfold look_up. intros (l & h1 & _ & H)%bind_eff_Done. destruct (last l) as [[e j]|]; [|done].
  apply bind_eff_Done in H as ([] & h2 & [= Hr%check_room_id_Done <-] & [= <- _ _]). done.
Qed.

Lemma prev_loop_inv fuel initial todo g info amount h g' info' h' :
  (limit < u16_max)%Z -> prev_inv initial todo g info amount ->
  prev_loop fetch_fuel limit origin create_event room_id first_ts fuel todo g info amount h = (Done (g', info'), h') ->
  exists amount', prev_inv initial [] g' info' amount'.
Proof.
  intros Hlim. revert todo g info amount h. induction fuel as [|fuel IH]; intros [|n todo] g info amount h H Hrun;
    cbn [prev_loop] in Hrun; [injection Hrun as <- <- _; eauto|done|injection Hrun as <- <- _; eauto|].
  apply bind_eff_Done in Hrun as ([] & h1 & _ & Hrun).
  apply bind_eff_Done in Hrun as (found & h2 & Hf & Hrun).
  destruct found as [[pdu json]|]; [|by eapply IH; [eapply inv_end; [exact H|by left]|]].
  apply look_up_room in Hf. destruct (Z.ltb_spec limit amount) as [Hl|Hl].
  { by eapply IH; [eapply inv_end; [exact H|by left]|]. }
  apply bind_eff_Done in Hrun as (json' & h3 & _ & Hrun). destruct json' as [j|].
  2: { by eapply IH; [eapply inv_end; [exact H|by left]|]. }
  destruct (Z.ltb_spec first_ts (origin_server_ts pdu)) as [Ht|Ht].
  - eapply IH; [|exact Hrun]. by apply inv_expand.
  - eapply IH; [|exact Hrun]. eapply inv_end; [done|]. right. by exists pdu, j.
Qed.

Lemma prev_inv_start initial : (0 <= limit)%Z -> prev_inv initial initial ∅ ∅ 0.
Proof.
  intros Hlim. split; try (intros *; by rewrite lookup_empty).
  - auto.
  - unfold expanded. rewrite map_filter_empty, dom_empty_L, size_empty. lia.
  - lia.
Qed.

End graph.

(** ** Termination *)

Section ends.
Context {R : Ruma} {EJ : EventJson} {FD : Federation} {PS : PduStore}.
Context (fetch_fuel : nat) (limit : Z) (origin : string) (create_event : Event) (room_id : string) (first_ts : Z).
Context (Hlim : (limit < u16_max)%Z).
Context (Hfetch : forall id, fueled (fetch_and_handle_outliers (PS := PS) fetch_fuel origin create_event room_id [id])).

Abbreviation loop := (prev_loop (PS := PS) fetch_fuel limit origin create_event room_id first_ts).

Lemma check_running_fueled : fueled (check_running (PS := PS)).
Proof. unfold check_running. apply fueled_bind; [auto with eff|]. intros []; auto with eff. Qed.

Lemma look_up_fueled n : fueled (look_up (PS := PS) fetch_fuel origin create_event room_id n).
Proof.
  unfold look_up. apply fueled_bind; [apply Hfetch|]. intros l. destruct (last l) as [[e j]|]; [|auto with eff].
  apply fueled_bind; [|auto with eff]. apply fueled_lift. unfold check_room_id. by case_decide.
Qed.

(** With enough fuel the loop does not run out of it. *)
Definition enough (m : nat -> eff (Handler PS) HandlerError (prev_graph * prev_info)) (h : Handler PS) : Prop :=
  exists N, forall fuel, N <= fuel -> (m fuel h).1 <> OutOfFuel.

Lemma enough_now m h : (forall fuel, (m (S fuel) h).1 <> OutOfFuel) -> enough m h.
Proof. intros Hm. exists 1. intros [|fuel] Hf; [lia|apply Hm]. Qed.

Lemma enough_step m m' h h' : (forall fuel, m (S fuel) h = m' fuel h') -> enough m' h' -> enough m h.
Proof. intros Hm [N HN]. exists (S N). intros [|fuel] Hf; [lia|]. rewrite Hm. apply HN. lia. Qed.

(** The limit bounds how many events are expanded, and between two expansions
    the queue shrinks. *)
Lemma prev_loop_ends k todo g info amount h :
  (limit + 1 - amount <= Z.of_nat k)%Z -> enough (fun fuel => loop fuel todo g info amount) h.
Proof.
  revert todo g info amount h. induction k as [k IHk] using lt_wf_ind.
  intros todo. induction todo as [|n todo IHtodo]; intros g info amount h Hk; [by apply enough_now|].
  pose proof (check_running_fueled h) as H1. destruct (check_running h) as [[[]|e| |] h1] eqn:E1; [|
    by apply enough_now; intros fuel; cbn [prev_loop]; unfold mbind, eff_bind; rewrite E1..].
  pose proof (look_up_fueled n h1) as H2. destruct (look_up _ _ _ _ n h1) as [[found|e| |] h2] eqn:E2; [|
    by apply enough_now; intros fuel; cbn [prev_loop]; unfold mbind, eff_bind; rewrite E1, E2..].
  assert (forall info' h', enough (fun fuel => loop fuel todo (<[n := ∅]> g) info' amount) h') as Hend
    by (intros; by apply IHtodo).
  destruct found as [[pdu json]|].
  2: { eapply enough_step; [|apply (Hend info h2)]. intros fuel. cbn [prev_loop].
       unfold mbind, eff_bind. by rewrite E1, E2. }
  destruct (limit <? amount)%Z eqn:El.
  { eapply enough_step; [|apply (Hend info h2)]. intros fuel. cbn [prev_loop].
    unfold mbind, eff_bind. by rewrite E1, E2, El. }
  destruct (json_or_outlier n json h2) as [[json'|e| |] h3] eqn:E3; [|by destruct json..].
  destruct json' as [j|].
  2: { eapply enough_step; [|apply (Hend info h3)]. intros fuel. cbn [prev_loop].
       unfold mbind, eff_bind. by rewrite E1, E2, El, E3. }
  destruct (first_ts <? origin_server_ts pdu)%Z eqn:Et.
  - apply Z.ltb_ge in El as Hl. destruct k as [|k]; [lia|].
    eapply enough_step; [|apply (IHk k ltac:(lia) (todo ++ filter (fun p => p ∉ dom g) (prev_events pdu))
      (<[n := list_to_set (prev_events pdu)]> g) (<[n := (pdu, j)]> info) (Z.min u16_max (amount + 1)) h3); lia].
    intros fuel. cbn [prev_loop]. unfold mbind, eff_bind. by rewrite E1, E2, El, E3, Et.
  - eapply enough_step; [|apply (Hend (<[n := (pdu, j)]> info) h3)]. intros fuel. cbn [prev_loop].
    unfold mbind, eff_bind. by rewrite E1, E2, El, E3, Et.
Qed.

End ends.

(** ** Claims *)

Section claims.
Context {R : Ruma} {EJ : EventJson} {FD : Federation} {PS : PduStore} {sched : Schedule}.
Context (fetch_fuel : nat) (limit : Z) (origin : string) (create_event : Event) (room_id : string) (first_ts : Z).

(** The order in which previous events are handled follows a graph that
    holds everything asked for: an entry without edges ends the search there; any
    other is a fetched event of the room, newer than the first known one, with
    all of its previous events, which are in the graph too; at most one more than
    the limit were followed.  No event is listed twice, each comes after the
    events it follows in the graph, and when the fetched events do not refer to
    each other in a circle none is left out. *)
Theorem prev_events_in_order fuel initial h sorted info h' :
  (0 <= limit < u16_max)%Z ->
  fetch_prev fetch_fuel limit origin create_event room_id first_ts fuel initial h = (Done (sorted, info), h') ->
  exists g : prev_graph,
    (forall x, x ∈ initial -> x ∈ dom g) /\
    (forall n es, g !! n = Some es -> es <> ∅ -> exists e j, info !! n = Some (e, j) /\
       es = list_to_set (prev_events e) /\ es ⊆ dom g /\ Matrix.room_id e = room_id /\
       (first_ts < origin_server_ts e)%Z) /\
    (Z.of_nat (size (expanded g)) <= limit + 1)%Z /\
    NoDup sorted /\
    (forall s1 n s2, sorted = s1 ++ n :: s2 -> forall p, p ∈ edges g n -> p ∈ s1) /\
    ((exists rank : string -> nat, forall n e j p, info !! n = Some (e, j) -> p ∈ prev_events e -> rank p < rank n) ->
       sorted ≡ₚ elements (dom g)).
Proof.
  intros Hlim. unfold fetch_prev. intros ([g info'] & h1 & Hl & H)%bind_eff_Done.
  apply bind_eff_Done in H as (s & h2 & [= Hs <-] & [= <- <- _]). exists g.
  destruct (prev_loop_inv _ _ _ _ _ _ _ initial _ _ _ _ _ _ _ _ (proj2 Hlim)
    (prev_inv_start limit room_id first_ts initial (proj1 Hlim)) Hl) as [amount Hinv].
  assert (greedy (event_fetch info') g s) as Hg.
  { unfold sort_prev in Hs. pose proof (sort_spec (event_fetch info') g) as Ho.
    destruct (lexicographical_topological_sort _ g); by simplify_eq/=. }
  assert (forall n es p, g !! n = Some es -> p ∈ es -> p ∈ dom g) as Hclosed.
  { intros n es p Hn Hp. destruct (pi_closed _ _ _ _ _ _ _ _ Hinv n es p Hn Hp) as [?|[]%not_elem_of_nil]. done. }
  split_and!.
  - intros x Hx. by destruct (pi_initial _ _ _ _ _ _ _ _ Hinv x Hx) as [?|[]%not_elem_of_nil].
  - intros n es Hn Hes. destruct (pi_edges _ _ _ _ _ _ _ _ Hinv n es Hn Hes) as (e & j & He & -> & Ht).
    exists e, j. split_and!; try done; [|by apply (pi_info _ _ _ _ _ _ _ _ Hinv n e j He)].
    intros p Hp. by eapply Hclosed.
  - pose proof (pi_amount _ _ _ _ _ _ _ _ Hinv). pose proof (pi_limit _ _ _ _ _ _ _ _ Hinv). lia.
  - by eapply greedy_prefix_NoDup, Hg.
  - intros s1 n s2 -> p Hp. destruct (proj1 Hg s1 n s2 eq_refl) as [(_ & _ & He) _]. set_solver.
  - intros [rank Hrank]. eapply greedy_perm; [|exact Hg]. apply (closed_acyclic_rank g rank).
    intros n es Hn. split; [intros p Hp; by eapply Hclosed|]. intros p Hp.
    destruct (pi_edges _ _ _ _ _ _ _ _ Hinv n es Hn) as (e & j & He & -> & _); [set_solver|].
    eapply Hrank; [exact He|]. by apply elem_of_list_to_set in Hp.
Qed.

(** Fetching previous events ends, however many other servers offer,
    when fetching the auth events of each of them does: the limit, unless it is
    the largest 16-bit number, bounds how often the search goes on. *)
Theorem prev_fetching_ends initial h :
  (limit < u16_max)%Z ->
  (forall id h, (fetch_and_handle_outliers fetch_fuel origin create_event room_id [id] h).1 <> OutOfFuel) ->
  exists N, forall fuel, N <= fuel ->
    (fetch_prev fetch_fuel limit origin create_event room_id first_ts fuel initial h).1 <> OutOfFuel.
Proof.
  intros Hlim Hfetch.
  destruct (prev_loop_ends fetch_fuel limit origin create_event room_id first_ts Hlim Hfetch
    (Z.to_nat (limit + 1)) initial ∅ ∅ 0 h) as [N HN]; [lia|].
  exists N. intros fuel Hf. specialize (HN fuel Hf). unfold fetch_prev, mbind, eff_bind.
  destruct (prev_loop _ _ _ _ _ _ fuel initial ∅ ∅ 0 h) as [[[g info]|e| |] h'] eqn:El; try done.
  unfold lift_eff, sort_prev. pose proof (sort_spec (event_fetch info) g) as Ho.
  by destruct (lexicographical_topological_sort _ g).
Qed.

End claims.

(** ** A history that is fetched, for the witnesses *)

Module ToyPrev.
Import ToyHandler.

Abbreviation run fuel :=
  (@fetch_prev toy_ruma json federation pdus in_order 56 192 "a" ev_create "!room:a" 0 fuel ["$carol"] start).

Definition result : list string * prev_info := match (run 20).1 with Done r => r | _ => ([], ∅) end.

Lemma run_done : run 20 = (Done (result.1, result.2), (run 20).2).
Proof.
  assert (match (run 20).1 with Done _ => true | _ => false end = true) as Hd by (vm_compute; reflexivity).
  unfold result. destruct (run 20) as [[[]| | |] h]; done.
Qed.

Lemma result_order : result.1 = ["$create"; "$alice"; "$levels"; "$rules"; "$bob"; "$carol"].
Proof. vm_compute. reflexivity. Qed.

Lemma prev_events_in_order_witness :
  NoDup result.1 /\ exists g : prev_graph, "$carol" ∈ dom g /\
    (forall s1 n s2, result.1 = s1 ++ n :: s2 -> forall p, p ∈ edges g n -> p ∈ s1).
Proof.
  destruct (@prev_events_in_order toy_ruma json federation pdus in_order 56 192 "a" ev_create "!room:a" 0
    20 ["$carol"] start result.1 result.2 (run 20).2 ltac:(unfold u16_max; lia) run_done)
    as (g & Hi & _ & _ & Hn & Ho & _).
  split; [exact Hn|]. exists g. split; [apply Hi; left|exact Ho].
Defined.

Lemma prev_fetching_ends_witness : exists N, forall fuel, N <= fuel -> (run fuel).1 <> OutOfFuel.
Proof.
  apply (@prev_fetching_ends toy_ruma json federation pdus in_order 56 192 "a" ev_create "!room:a" 0 ["$carol"] start).
  - unfold u16_max. lia.
  - intros id h. apply (fetch_and_handle_fueled _ _ _ ({[id]} ∪ dom known_events) 5).
    + apply toy_offers.
    + set_solver.
    + pose proof (known_size id). lia.
Defined.

End ToyPrev.
