(* ===== verification/StateCompressor.v ===== *)
(** * Compressed room states

    Models [src/service/rooms/state_compressor/mod.rs]: a room state is a set
    of 16-byte entries (short state key, short event id), stored as a stack of
    at most four layers of differences.  The LRU cache of loaded stacks comes
    from the crate [lru_cache] and is a parameter ([LruCache]), as is the hash
    function. *)

From stdpp Require Import prelude gmap strings list sorting.
From Stdlib Require Import ZArith Lia.
From Stdlib Require Import Strings.Byte.
From S2P Require Import Prelude MachineInt DbCodec Short.

(** ** Entries *)

Abbreviation CompressedStateEvent := bytes.
Abbreviation CompressedState := (gset bytes).

Definition compress_state_event (shortstatekey shorteventid : Z) : CompressedStateEvent :=
  u64_to_be_bytes shortstatekey ++ u64_to_be_bytes shorteventid.

Definition parse_compressed_state_event (e : CompressedStateEvent) : outcome Bytes.Error (Z * Z) :=
  shortstatekey ← Bytes.u64_from_u8 (take 8 e);
  shorteventid ← Bytes.u64_from_u8 (drop 8 e);
  Done (shortstatekey, shorteventid).

(** Iteration over a [BTreeSet]. *)
Definition iter (s : CompressedState) : list CompressedStateEvent := merge_sort ord_le (elements s).

(** ** The encoding of a difference *)

Record StateDiff := MkDiff {
  parent : option Z;
  diff_added : CompressedState;
  diff_removed : CompressedState }.

Inductive CompressorError := DiffNotFound | ArithmeticError | FromShort (e : ShortError).

Definition from_short {A} (o : outcome ShortError A) : outcome CompressorError A :=
  match o with Done r => Done r | Fail e => Fail (FromShort e) | Panic => Panic | OutOfFuel => OutOfFuel end.

Definition zero : bytes := u64_to_be_bytes 0.

Definition encode_diff (diff : StateDiff) : bytes :=
  u64_to_be_bytes (default 0%Z (parent diff)) ++
  mjoin (iter (diff_added diff)) ++
  (if decide (diff_removed diff = ∅) then [] else zero ++ mjoin (iter (diff_removed diff))).

Definition save_statediff (t : table) (shortstatehash : Z) (diff : StateDiff) : table :=
  <[u64_to_be_bytes shortstatehash := encode_diff diff]> t.

(** The loop of [get_statediff]; [value] is the part from index [i] on. *)
Fixpoint parse_diff (fuel : nat) (add_mode : bool) (value : bytes) (added removed : CompressedState)
    : outcome CompressorError (CompressedState * CompressedState) :=
  match fuel with
  | O => OutOfFuel
  | S fuel =>
      if decide (length value < 16) then Done (added, removed) else
      let v := take 16 value in
      if add_mode && bool_decide (take 8 v = zero) then
        parse_diff fuel false (drop 8 value) added removed
      else if add_mode then parse_diff fuel add_mode (drop 16 value) ({[v]} ∪ added) removed
      else parse_diff fuel add_mode (drop 16 value) added ({[v]} ∪ removed)
  end.

(** ** Stacks of layers *)

Record ShortStateInfo := MkInfo {
  shortstatehash : Z;
  full_state : CompressedState;
  added : CompressedState;
  removed : CompressedState }.

(** A [Vec] used as a stack: its last element is the head of the list. *)
Abbreviation ShortStateInfoVec := (list ShortStateInfo).

Section compressor.
Context (debug : bool).

Definition get_statediff (t : table) (shortstatehash : Z) : outcome CompressorError StateDiff :=
  value ← ok_or DiffNotFound (t !! u64_to_be_bytes shortstatehash);
  if decide (length value < 8) then Panic else
  let parent :=
    match Bytes.u64_from_bytes (take 8 value) with
    | Done p => if decide (p <> 0%Z) then Some p else None
    | _ => None
    end in
  debug_assert debug (bool_decide (length value mod 8 = 0));;
  '(added, removed) ← parse_diff (S (length value)) true (drop 8 value) ∅ ∅;
  Done (MkDiff parent added removed).

Context `{LruCache Z ShortStateInfoVec}.

Record Store := MkStore { statediff : table; stateinfo_cache : cache }.

Definition new_shortstatehash_info
    (load : Z -> Store -> outcome CompressorError (ShortStateInfoVec * Store))
    (h : Z) (st : Store) : outcome CompressorError (ShortStateInfoVec * Store) :=
  diff ← get_statediff (statediff st) h;
  match parent diff with
  | None => Done ([MkInfo h (diff_added diff) (diff_added diff) (diff_removed diff)], st)
  | Some p =>
      '(stack, st) ← load p st;
      top ← expect (head stack);
      let full := foldl (fun f r => f ∖ {[r]}) (full_state top ∪ diff_added diff)
                        (iter (diff_removed diff)) in
      Done (MkInfo h full (diff_added diff) (diff_removed diff) :: stack, st)
  end.

Fixpoint load_shortstatehash_info (fuel : nat) (h : Z) (st : Store)
    : outcome CompressorError (ShortStateInfoVec * Store) :=
  match peek (stateinfo_cache st) h with
  | Some r => Done (r, MkStore (statediff st) (touch (stateinfo_cache st) h))
  | None =>
      match fuel with
      | O => OutOfFuel
      | S fuel =>
          '(stack, st) ← new_shortstatehash_info (load_shortstatehash_info fuel) h st;
          Done (stack, MkStore (statediff st) (put (stateinfo_cache st) h stack))
      end
  end.

(** ** Saving *)

Definition checked_usize (z : Z) : outcome CompressorError Z := ok_or ArithmeticError (checked 0 u64_max z).

(** The two loops that fold a difference into its parent's. *)
Definition take_removed (st : CompressedState * CompressedState) (r : CompressedStateEvent)
    : CompressedState * CompressedState :=
  let '(parent_new, parent_removed) := st in
  if decide (r ∈ parent_new) then (parent_new ∖ {[r]}, parent_removed)
  else (parent_new, {[r]} ∪ parent_removed).
Definition take_new (st : CompressedState * CompressedState) (n : CompressedStateEvent)
    : CompressedState * CompressedState :=
  let '(parent_new, parent_removed) := st in
  if decide (n ∈ parent_removed) then (parent_new, parent_removed ∖ {[n]})
  else ({[n]} ∪ parent_new, parent_removed).

Definition merge_into (par : ShortStateInfo) (statediffnew statediffremoved : CompressedState)
    : CompressedState * CompressedState :=
  foldl take_new (foldl take_removed (added par, removed par) (iter statediffremoved))
        (iter statediffnew).

Definition zsize (s : CompressedState) : Z := Z.of_nat (size s).

Fixpoint save_state_from_diff (t : table) (h : Z) (statediffnew statediffremoved : CompressedState)
    (diff_to_sibling : Z) (parent_states : ShortStateInfoVec) : outcome CompressorError table :=
  diffsum ← checked_usize (zsize statediffnew + zsize statediffremoved);
  match parent_states with
  | [] => Done (save_statediff t h (MkDiff None statediffnew statediffremoved))
  | par :: parents =>
      if decide (3 < length parent_states) then
        let '(parent_new, parent_removed) := merge_into par statediffnew statediffremoved in
        save_state_from_diff t h parent_new parent_removed diffsum parents
      else
        parent_diff ← checked_usize (zsize (added par) + zsize (removed par));
        sq ← checked_usize (diffsum * diffsum);
        twice ← checked_usize (2 * diff_to_sibling);
        lim ← checked_usize (twice * parent_diff);
        if decide (lim <= sq)%Z then
          let '(parent_new, parent_removed) := merge_into par statediffnew statediffremoved in
          save_state_from_diff t h parent_new parent_removed diffsum parents
        else Done (save_statediff t h
               (MkDiff (Some (shortstatehash par)) statediffnew statediffremoved))
  end.

(** [save_state]: [previous_shortstatehash] is the room's current state and
    [calculate_hash] the SHA-256 of the entries in order. *)
Record HashSetCompressStateEvent := MkCompress {
  new_hash : Z; new_added : CompressedState; new_removed : CompressedState }.

Context (calculate_hash : list bytes -> bytes).

(** [Service::compress_state_event] and [compress_state_events]: the events
    are numbered, then compressed. *)
Definition service_compress_state_event (db : Db) (shortstatekey : Z) (event_id : bytes)
    : outcome CompressorError (CompressedStateEvent * Db) :=
  '(shorteventid, db) ← from_short (get_or_create_shorteventid debug db event_id);
  Done (compress_state_event shortstatekey shorteventid, db).

Definition compress_state_events (db : Db) (state : list (Z * bytes))
    : outcome CompressorError (list CompressedStateEvent * Db) :=
  '(shorteventids, db) ← from_short (multi_get_or_create_shorteventid debug db state.*2);
  Done (zip_with compress_state_event state.*1 shorteventids, db).

Definition clear_cache (st : Store) : Store := MkStore (statediff st) (clear (stateinfo_cache st)).

(** The layers of the previous state; a state that cannot be loaded counts as
    none. *)
Definition load_parents (fuel : nat) (st : Store) (previous_shortstatehash : option Z)
    : outcome CompressorError (ShortStateInfoVec * Store) :=
  match previous_shortstatehash with
  | None => Done ([], st)
  | Some p =>
      match load_shortstatehash_info fuel p st with
      | Done r => Done r
      | Fail _ => Done ([], st)
      | Panic => Panic
      | OutOfFuel => OutOfFuel
      end
  end.

Definition save_state (fuel : nat) (db : Db) (st : Store) (previous_shortstatehash : option Z)
    (new_state : CompressedState)
    : outcome CompressorError (HashSetCompressStateEvent * Db * Store) :=
  let state_hash := calculate_hash (iter new_state) in
  '(new_shortstatehash, already_existed, db) ←
    from_short (get_or_create_shortstatehash debug db state_hash);
  if decide (Some new_shortstatehash = previous_shortstatehash)
  then Done (MkCompress new_shortstatehash ∅ ∅, db, st) else
  '(states_parents, st) ← load_parents fuel st previous_shortstatehash;
  let '(statediffnew, statediffremoved) :=
    match head states_parents with
    | Some parent_stateinfo =>
        (new_state ∖ full_state parent_stateinfo, full_state parent_stateinfo ∖ new_state)
    | None => (new_state, ∅)
    end in
  st ← (if already_existed : bool then Done st else
          t ← save_state_from_diff (statediff st) new_shortstatehash statediffnew statediffremoved
                2 states_parents;
          Done (MkStore t (stateinfo_cache st)));
  Done (MkCompress new_shortstatehash statediffnew statediffremoved, db, st).

End compressor.

(** ** The encoding reads back *)

Definition entry_ok (e : CompressedStateEvent) : Prop := length e = 16 /\ take 8 e <> zero.
Definition state_ok (s : CompressedState) : Prop := forall e, e ∈ s -> entry_ok e.

Definition diff_ok (d : StateDiff) : Prop :=
  state_ok (diff_added d) /\ state_ok (diff_removed d) /\
  forall p, parent d = Some p -> is_u64 p /\ p <> 0%Z.

Lemma elem_of_iter s e : e ∈ iter s <-> e ∈ s.
Proof. unfold iter. by rewrite merge_sort_Permutation, elem_of_elements. Qed.

Lemma iter_set s : list_to_set (iter s) = s.
Proof. apply set_eq. intros e. by rewrite elem_of_list_to_set, elem_of_iter. Qed.

Lemma iter_empty s : iter s = [] <-> s = ∅.
Proof.
  split.
  - intros E. rewrite <- (iter_set s), E. done.
  - intros ->. unfold iter. by rewrite elements_empty.
Qed.

Lemma mjoin_cons {A} (x : list A) l : mjoin (x :: l) = x ++ mjoin l.
Proof. done. Qed.

Lemma length_entries es : Forall entry_ok es -> length (mjoin es) = 16 * length es.
Proof.
  induction 1 as [|e es [He _] Hes IH]; [done|]. rewrite mjoin_cons, length_app, IH. cbn. lia.
Qed.

Lemma parse_added es fuel rest a r :
  Forall entry_ok es ->
  parse_diff (length es + fuel) true (mjoin es ++ rest) a r =
  parse_diff fuel true rest (list_to_set es ∪ a) r.
Proof.
  intros F. revert a. induction F as [|e es [He Hz] F IH]; intros a.
  - cbn [length Nat.add]. f_equal. set_solver.
  - cbn [length Nat.add parse_diff]. rewrite mjoin_cons, <- app_assoc.
    rewrite decide_False by (rewrite length_app; lia).
    rewrite (take_app_length' e _ 16) by done. rewrite bool_decide_false by done.
    rewrite (drop_app_length' e _ 16) by done. cbn [andb]. rewrite IH. f_equal. set_solver.
Qed.

Lemma parse_removed es fuel a r :
  Forall entry_ok es ->
  parse_diff (length es + S fuel) false (mjoin es) a r = Done (a, list_to_set es ∪ r).
Proof.
  intros F. revert r. induction F as [|e es [He Hz] F IH]; intros r.
  - cbn. do 2 f_equal. set_solver.
  - cbn [length Nat.add parse_diff]. rewrite mjoin_cons.
    rewrite decide_False by (rewrite length_app; lia).
    rewrite (take_app_length' e _ 16), (drop_app_length' e _ 16) by done. cbn [andb].
    rewrite IH. do 2 f_equal. set_solver.
Qed.

Lemma parse_encoded d fuel :
  diff_ok d -> S (S (length (iter (diff_added d)) + length (iter (diff_removed d)))) <= fuel ->
  parse_diff fuel true
    (mjoin (iter (diff_added d)) ++
     (if decide (diff_removed d = ∅) then [] else zero ++ mjoin (iter (diff_removed d)))) ∅ ∅ =
  Done (diff_added d, diff_removed d).
Proof.
  intros (Ha & Hr & _) Hf.
  assert (forall s, state_ok s -> Forall entry_ok (iter s)) as Hiter.
  { intros s Hs. apply Forall_forall. intros e He%elem_of_iter. auto. }
  replace fuel with (length (iter (diff_added d)) + (fuel - length (iter (diff_added d)))) by lia.
  rewrite parse_added by auto. rewrite iter_set, union_empty_r_L.
  set (f := fuel - length (iter (diff_added d))). case_decide as D.
  - destruct f as [|f'] eqn:Ef; [lia|]. cbn. by rewrite D.
  - replace f with (S (length (iter (diff_removed d)) + S (f - 2 - length (iter (diff_removed d))))) by lia.
    cbn [parse_diff]. assert (0 < length (iter (diff_removed d))).
    { destruct (iter (diff_removed d)) eqn:E; [|cbn; lia]. by apply iter_empty in E. }
    rewrite decide_False.
    2: { rewrite length_app, length_entries by auto. unfold zero. rewrite length_u64_to_be. lia. }
    rewrite take_take, Nat.min_l by lia.
    assert (length zero = 8) as Hz by apply length_u64_to_be.
    rewrite (take_app_length' zero _ 8) by done. rewrite bool_decide_true by done.
    cbn [andb]. rewrite (drop_app_length' zero _ 8) by done.
    rewrite parse_removed by auto. by rewrite iter_set, union_empty_r_L.
Qed.

Lemma get_statediff_saved debug t h d :
  diff_ok d -> get_statediff debug (save_statediff t h d) h = Done d.
Proof.
  intros Hd. pose proof Hd as (Ha & Hr & Hp). unfold get_statediff, save_statediff.
  rewrite lookup_insert_eq. cbn [ok_or mbind outcome_bind]. unfold encode_diff.
  set (P := u64_to_be_bytes (default 0%Z (parent d))). set (rst := mjoin (iter (diff_added d)) ++ _).
  assert (length P = 8) as HP by apply length_u64_to_be.
  assert (forall s, state_ok s -> Forall entry_ok (iter s)) as Hiter.
  { intros s Hs. apply Forall_forall. intros e He%elem_of_iter. auto. }
  assert (exists k, length rst = 8 * k /\ length (iter (diff_added d)) + length (iter (diff_removed d)) <= k)
    as (k & Hk & Hk2).
  { unfold rst. rewrite length_app, length_entries by auto. case_decide as D.
    - rewrite (proj2 (iter_empty _) D). cbn. exists (2 * length (iter (diff_added d))). lia.
    - rewrite length_app, length_entries by auto. unfold zero. rewrite length_u64_to_be.
      exists (2 * length (iter (diff_added d)) + 1 + 2 * length (iter (diff_removed d))). lia. }
  assert (length (P ++ rst) = 8 * S k) as Hlen by (rewrite length_app; lia).
  rewrite decide_False by lia.
  rewrite (take_app_length' P _ 8), (drop_app_length' P _ 8) by done.
  rewrite debug_assert_true.
  2: { apply bool_decide_eq_true. rewrite Hlen, Nat.mul_comm. apply Nat.Div0.mod_mul. }
  cbn [mbind outcome_bind].
  pose proof (parse_encoded d (S (length (P ++ rst))) Hd ltac:(lia)) as E. fold rst in E.
  rewrite E. cbn. f_equal.
  unfold P. destruct d as [[p|] a r]; cbn [default parent diff_added diff_removed] in *.
  - destruct (Hp p eq_refl). rewrite Bytes.u64_from_bytes_be by done. by rewrite decide_True.
  - rewrite Bytes.u64_from_bytes_be by width_lia. by rewrite decide_False by auto.
Qed.

(** ** Layers *)

(** A difference [(pn, pr)] on top of the state [G] gives the state [P]:
    nothing is added that is there, nothing is removed that is not. *)
Definition layer_ok (G pn pr P : CompressedState) : Prop :=
  pn ## G /\ pr ⊆ G /\ P = (G ∪ pn) ∖ pr.

Ltac set_cases :=
  apply set_eq; intros ?x; repeat rewrite ?elem_of_union, ?elem_of_difference, ?elem_of_singleton,
    ?elem_of_list_to_set, ?elem_of_cons.

Lemma fold_take_removed rs pn pr :
  NoDup rs ->
  foldl take_removed (pn, pr) rs = (pn ∖ list_to_set rs, pr ∪ (list_to_set rs ∖ pn)).
Proof.
  intros Hnd. revert pn pr. induction Hnd as [|r rs Hr Hnd IH]; intros pn pr; cbn [foldl].
  - cbn [list_to_set]. f_equal; set_solver.
  - unfold take_removed at 2. case_decide as D; rewrite IH; cbn [list_to_set].
    + f_equal; [set_solver|]. set_cases. destruct (decide (x = r)); set_solver.
    + f_equal; set_solver.
Qed.

Lemma fold_take_new ns pn pr :
  NoDup ns ->
  foldl take_new (pn, pr) ns = (pn ∪ (list_to_set ns ∖ pr), pr ∖ list_to_set ns).
Proof.
  intros Hnd. revert pn pr. induction Hnd as [|r rs Hr Hnd IH]; intros pn pr; cbn [foldl].
  - cbn [list_to_set]. f_equal; set_solver.
  - unfold take_new at 2. case_decide as D; rewrite IH; cbn [list_to_set].
    + f_equal; [|set_solver]. set_cases. destruct (decide (x = r)); set_solver.
    + f_equal; set_solver.
Qed.

Lemma NoDup_iter s : NoDup (iter s).
Proof. unfold iter. rewrite merge_sort_Permutation. apply NoDup_elements. Qed.

Lemma merge_into_eq par new rem :
  merge_into par new rem =
  ((added par ∖ rem) ∪ (new ∖ (removed par ∪ (rem ∖ added par))),
   (removed par ∪ (rem ∖ added par)) ∖ new).
Proof.
  unfold merge_into. rewrite fold_take_removed, fold_take_new by apply NoDup_iter.
  by rewrite !iter_set.
Qed.

(** Folding a difference into the parent's gives a difference on top of the
    grandparent with the same result. *)
Lemma merge_layer G par new rem P :
  layer_ok G (added par) (removed par) (full_state par) ->
  layer_ok (full_state par) new rem P ->
  layer_ok G (merge_into par new rem).1 (merge_into par new rem).2 P.
Proof.
  intros (D1 & S1 & E1) (D2 & S2 & ->). rewrite merge_into_eq. cbn [fst snd]. rewrite E1 in *.
  split_and!.
  - intros x Hx HG. destruct (decide (x ∈ removed par)); set_solver.
  - intros x Hx. destruct (decide (x ∈ added par)); set_solver.
  - set_cases. destruct (decide (x ∈ G)), (decide (x ∈ added par)), (decide (x ∈ removed par)),
      (decide (x ∈ new)), (decide (x ∈ rem)); set_solver.
Qed.

Lemma merge_size par new rem :
  size (merge_into par new rem).1 + size (merge_into par new rem).2 <=
  size (added par) + size (removed par) + size new + size rem.
Proof.
  rewrite merge_into_eq. cbn [fst snd].
  assert (forall X Y : CompressedState, size (X ∖ Y) <= size X) as Hd
    by (intros; apply subseteq_size; set_solver).
  assert (size (rem ∖ added par) + size (added par ∖ rem) + size new <= size rem + size (added par) + size new).
  { pose proof (Hd rem (added par)). pose proof (Hd (added par) rem). lia. }
  pose proof (size_union_alt (added par ∖ rem) (new ∖ (removed par ∪ (rem ∖ added par)))) as U1.
  pose proof (Hd (new ∖ (removed par ∪ (rem ∖ added par))) (added par ∖ rem)).
  pose proof (Hd new (removed par ∪ (rem ∖ added par))).
  pose proof (Hd (removed par ∪ (rem ∖ added par)) new).
  pose proof (size_union_alt (removed par) (rem ∖ added par)) as U2.
  pose proof (Hd (rem ∖ added par) (removed par)). lia.
Qed.

Lemma merge_state_ok par new rem :
  state_ok (added par) -> state_ok (removed par) -> state_ok new -> state_ok rem ->
  state_ok (merge_into par new rem).1 /\ state_ok (merge_into par new rem).2.
Proof.
  intros. rewrite merge_into_eq. unfold state_ok in *. cbn [fst snd]. split; set_solver.
Qed.

(** ** Stacks *)

Definition top_full (l : ShortStateInfoVec) : CompressedState := from_option full_state ∅ (head l).

Definition info_ok (i : ShortStateInfo) : Prop :=
  state_ok (added i) /\ state_ok (removed i) /\ is_u64 (shortstatehash i) /\ shortstatehash i <> 0%Z.

(** Each layer is a difference on top of the one below; the bottom one is on
    top of the empty state. *)
Fixpoint wf_stack (l : ShortStateInfoVec) : Prop :=
  match l with
  | [] => True
  | i :: l => layer_ok (top_full l) (added i) (removed i) (full_state i) /\ info_ok i /\ wf_stack l
  end.

(** The table has the difference of each layer. *)
Fixpoint stored_stack (debug : bool) (t : table) (l : ShortStateInfoVec) : Prop :=
  match l with
  | [] => True
  | i :: l =>
      get_statediff debug t (shortstatehash i) =
        Done (MkDiff (shortstatehash <$> head l) (added i) (removed i)) /\
      stored_stack debug t l
  end.

(** [h] is saved in table [t] as the stack [l]. *)
Definition represents (debug : bool) (t : table) (h : Z) (l : ShortStateInfoVec) : Prop :=
  stored_stack debug t l /\ wf_stack l /\ shortstatehash <$> head l = Some h.

Lemma represents_unique debug t h l1 l2 :
  represents debug t h l1 -> represents debug t h l2 -> l1 = l2.
Proof.
  revert h l2. induction l1 as [|i l1 IH]; intros h [|j l2] (S1 & W1 & H1) (S2 & W2 & H2); try done.
  destruct S1 as [G1 S1], S2 as [G2 S2], W1 as (L1 & _ & W1), W2 as (L2 & _ & W2).
  cbn in H1, H2. assert (shortstatehash i = shortstatehash j) as Hij by congruence.
  rewrite Hij, G2 in G1. injection G1 as Hp Ha Hr.
  assert (l1 = l2) as ->.
  { destruct l1 as [|i' l1], l2 as [|j' l2]; try done. cbn in Hp.
    apply (IH (shortstatehash i')); [done|]. split_and!; [done..|]. cbn. congruence. }
  f_equal. destruct L1 as (_ & _ & F1), L2 as (_ & _ & F2). destruct i, j; cbn in *. congruence.
Qed.

Lemma get_statediff_other debug t h d h' d' :
  t !! u64_to_be_bytes h = None -> get_statediff debug t h' = Done d' ->
  get_statediff debug (save_statediff t h d) h' = Done d'.
Proof.
  intros Hn. unfold get_statediff, save_statediff. rewrite lookup_insert. case_decide as D; [|done].
  rewrite <- D, Hn. done.
Qed.

Lemma stored_other debug t h d l :
  t !! u64_to_be_bytes h = None -> stored_stack debug t l -> stored_stack debug (save_statediff t h d) l.
Proof.
  intros Hn. induction l as [|i l IH]; [done|]. intros [G S]. split; [|auto].
  by apply get_statediff_other.
Qed.

Lemma represents_other debug t h d h' l :
  t !! u64_to_be_bytes h = None -> represents debug t h' l -> represents debug (save_statediff t h d) h' l.
Proof. intros Hn (S & W & H). split_and!; [|done..]. by apply stored_other. Qed.

(** ** Loading *)

Section loading.
Context (debug : bool) `{LruCache Z ShortStateInfoVec}.

(** What the cache holds is what the table says. *)
Definition cache_ok (st : Store) : Prop :=
  forall h l, peek (stateinfo_cache st) h = Some l -> represents debug (statediff st) h l.

Lemma fold_remove (rs : list CompressedStateEvent) (f : CompressedState) :
  foldl (fun f r => f ∖ {[r]}) f rs = f ∖ list_to_set rs.
Proof.
  revert f. induction rs as [|r rs IH]; intros f; cbn [foldl list_to_set]; [set_solver|].
  rewrite IH. set_solver.
Qed.

(** Clearing the cache loses nothing that is stored. *)
Lemma clear_cache_ok st : cache_ok (clear_cache st) /\ statediff (clear_cache st) = statediff st.
Proof. split; [|done]. intros k l. cbn. by rewrite peek_clear. Qed.

Lemma load_represents fuel h l st :
  cache_ok st -> represents debug (statediff st) h l -> length l <= fuel ->
  exists st', load_shortstatehash_info debug fuel h st = Done (l, st') /\
    statediff st' = statediff st /\ cache_ok st'.
Proof.
  revert h l st. induction fuel as [|fuel IH]; intros h l st Hc R Hf.
  { destruct l; [by destruct R as (_ & _ & ?)|cbn in Hf; lia]. }
  cbn [load_shortstatehash_info]. destruct (peek (stateinfo_cache st) h) as [l'|] eqn:E.
  { rewrite (represents_unique _ _ _ _ _ (Hc _ _ E) R). eexists. split_and!; [done..|].
    intros k lk. cbn. rewrite peek_touch. apply Hc. }
  assert (forall st', cache_ok st' -> statediff st' = statediff st ->
            cache_ok (MkStore (statediff st') (put (stateinfo_cache st') h l))) as Hput.
  { intros st' Hc' Es k lk [[-> ->]|[_ Hk]]%peek_put; cbn; [by rewrite Es|by apply Hc']. }
  destruct l as [|i l]; [by destruct R as (_ & _ & ?)|].
  pose proof R as ([G S] & (L & Ok & W) & Hh). cbn in Hh. injection Hh as Hh.
  rewrite Hh in G. unfold new_shortstatehash_info. rewrite G. cbn [mbind outcome_bind parent].
  destruct l as [|j l]; cbn [head fmap option_fmap option_map diff_added diff_removed].
  - destruct L as (_ & Hr & Hf'). cbn in Hr, Hf'.
    assert (MkInfo h (added i) (added i) (removed i) = i) as ->.
    { destruct i; cbn in *; subst. f_equal. set_solver. }
    eexists. split_and!; [done..|]. by apply Hput.
  - destruct (IH (shortstatehash j) (j :: l) st Hc) as (st' & -> & Es & Hc'); [by split_and!|cbn in *; lia|].
    cbn [mbind outcome_bind head expect]. rewrite fold_remove, iter_set.
    destruct L as (_ & _ & Hf'). cbn in Hf'. rewrite <- Hf'.
    assert (MkInfo h (full_state i) (added i) (removed i) = i) as -> by (destruct i; cbn in *; by subst).
    eexists. split_and!; [done|done|]. by apply Hput.
Qed.

End loading.

(** ** Saving *)

Section saving.
Context (debug : bool).

Definition stack_size (l : ShortStateInfoVec) : Z :=
  foldr (fun i n => zsize (added i) + zsize (removed i) + n)%Z 0%Z l.

Lemma zsize_nonneg s : (0 <= zsize s)%Z.
Proof. unfold zsize. lia. Qed.

Lemma stack_size_nonneg l : (0 <= stack_size l)%Z.
Proof.
  induction l as [|i l IH]; [done|]. unfold stack_size in *. cbn [foldr].
  pose proof (zsize_nonneg (added i)). pose proof (zsize_nonneg (removed i)). lia.
Qed.

(** Where a new difference may be put: the table after saving it. *)
Definition saved_as (t : table) (h : Z) (P : CompressedState) (t' : table) : Prop :=
  exists d l, t' = save_statediff t h d /\ represents debug t' h l /\ top_full l = P /\ length l <= 4.

Lemma save_layer t h new rem parents P :
  t !! u64_to_be_bytes h = None -> is_u64 h -> h <> 0%Z -> state_ok new -> state_ok rem ->
  stored_stack debug t parents -> wf_stack parents -> layer_ok (top_full parents) new rem P ->
  length parents <= 3 ->
  saved_as t h P (save_statediff t h (MkDiff (shortstatehash <$> head parents) new rem)).
Proof.
  intros Hn Hu H0 Sn Sr St W L Hl. eexists _, (MkInfo h P new rem :: parents). split_and!; [done| |done|cbn; lia].
  split_and!; [split| |done].
  - cbn. apply get_statediff_saved. split_and!; [done..|]. cbn. intros p Hp.
    destruct parents as [|j ?]; [done|]. cbn in Hp. injection Hp as <-. destruct W as (_ & (_ & _ & ? & ?) & _). done.
  - by apply stored_other.
  - by split_and!.
Qed.

(** The bound under which no [checked!] arithmetic overflows. *)
Definition max_entries : Z := 2 ^ 31 - 1.

Lemma checked_usize_ok z : (0 <= z <= u64_max)%Z -> checked_usize z = Done z.
Proof. intros Hz. unfold checked_usize. by rewrite (proj2 (checked_Some 0 u64_max z z)). Qed.

Lemma save_from_diff_spec parents : forall t h new rem sib P,
  t !! u64_to_be_bytes h = None -> is_u64 h -> h <> 0%Z -> state_ok new -> state_ok rem ->
  stored_stack debug t parents -> wf_stack parents -> layer_ok (top_full parents) new rem P ->
  (zsize new + zsize rem + stack_size parents <= max_entries)%Z -> (0 <= sib <= max_entries)%Z ->
  exists t', save_state_from_diff t h new rem sib parents = Done t' /\ saved_as t h P t'.
Proof.
  induction parents as [|par parents IH]; intros t h new rem sib P Hn Hu H0 Sn Sr St W L Hb Hs;
    cbn [save_state_from_diff stack_size foldr] in *;
    pose proof (zsize_nonneg new); pose proof (zsize_nonneg rem).
  - rewrite checked_usize_ok by (unfold max_entries in *; width_lia). cbn [mbind outcome_bind].
    eexists. split; [done|]. by apply (save_layer t h new rem []); [..|cbn; lia].
  - pose proof (zsize_nonneg (added par)). pose proof (zsize_nonneg (removed par)).
    pose proof (stack_size_nonneg parents). fold (stack_size parents) in Hb.
    rewrite (checked_usize_ok (zsize new + zsize rem)) by (unfold max_entries in *; width_lia).
    cbn [mbind outcome_bind].
    assert (exists t', (let '(pn, pr) := merge_into par new rem in
              save_state_from_diff t h pn pr (zsize new + zsize rem) parents) = Done t' /\ saved_as t h P t')
      as Hm.
    { destruct St as [_ St], W as (Lp & (Sa & Sr' & _) & W).
      pose proof (merge_layer _ _ _ _ _ Lp L) as Lm. pose proof (merge_size par new rem) as Sz.
      destruct (merge_state_ok par new rem Sa Sr' Sn Sr) as [Ok1 Ok2].
      destruct (merge_into par new rem) as [pn pr]. cbn [fst snd] in *.
      apply IH; try done; unfold zsize, max_entries in *; lia. }
    case_decide as D; [exact Hm|]. unfold max_entries in *.
    rewrite (checked_usize_ok (zsize (added par) + _)) by width_lia. cbn [mbind outcome_bind].
    rewrite (checked_usize_ok ((zsize new + zsize rem) * _)) by (unfold u64_max; nia). cbn [mbind outcome_bind].
    rewrite (checked_usize_ok (2 * sib)) by width_lia. cbn [mbind outcome_bind].
    rewrite checked_usize_ok by (unfold u64_max; nia). cbn [mbind outcome_bind].
    case_decide; [exact Hm|]. eexists. split; [done|].
    apply (save_layer t h new rem (par :: parents)); try done. lia.
Qed.

End saving.

(** ** [save_state] *)

Section save_state.
Context (debug : bool) `{LruCache Z ShortStateInfoVec} (calculate_hash : list bytes -> bytes).
Implicit Types (db : Db) (st : Store) (S P : CompressedState).

(** The state [S] is saved under the short hash [h]. *)
Definition holds st (h : Z) S : Prop :=
  exists l, represents debug (statediff st) h l /\ top_full l = S /\ length l <= 4.

(** Every short state hash stands for the state with that hash, and every
    difference is stored under a number that was handed out. *)
Definition compressor_inv db st : Prop :=
  short_inv db /\ cache_ok debug st /\
  (forall hs v, statehash_shortstatehash db !! hs = Some v ->
     exists s S, v = u64_to_be_bytes s /\ hs = calculate_hash (iter S) /\ is_u64 s /\ holds st s S) /\
  (forall k, is_Some (statediff st !! k) -> exists s, k = u64_to_be_bytes s /\ (0 < s <= counter db)%Z).

(** No other saved state has the hash of [S]. *)
Definition no_collision st S : Prop :=
  forall h P, holds st h P -> calculate_hash (iter P) = calculate_hash (iter S) -> P = S.

Lemma shortstatehash_spec db hs :
  short_inv db -> (counter db < u64_max)%Z ->
  match statehash_shortstatehash db !! hs with
  | Some v => exists s, v = u64_to_be_bytes s /\ is_u64 s /\
      get_or_create_shortstatehash debug db hs = Done (s, true, db)
  | None => exists db', get_or_create_shortstatehash debug db hs = Done (counter db + 1, false, db')%Z /\
      short_inv db' /\ counter db' = (counter db + 1)%Z /\
      statehash_shortstatehash db' = <[hs := u64_to_be_bytes (counter db + 1)]> (statehash_shortstatehash db)
  end.
Proof.
  intros I Hc. pose proof I as (Hu & _ & _ & _ & _ & N4 & _). unfold get_or_create_shortstatehash.
  destruct (statehash_shortstatehash db !! hs) as [v|] eqn:E.
  - destruct (proj1 N4 hs v E) as (s & -> & Hs). exists s. assert (is_u64 s) by width_lia.
    split_and!; [done..|]. by rewrite (proj2 (get_u64_numbered debug (counter db) _ hs s Hu N4)).
  - destruct (next_count_spec debug db I Hc) as (En & Hu' & Hm).
    rewrite get_u64_None by done. rewrite En. cbn [mbind outcome_bind]. eexists. split; [done|].
    pose proof (short_inv_counter debug db I Hc) as (_ & _ & N1 & N2 & N3 & _ & I1 & I2 & U1 & U2).
    split_and!; [|done..]. unfold short_inv; cbn in *; split_and!; try done.
    apply numbered_insert; [done|width_lia|done].
Qed.

Lemma holds_hash st h S : holds st h S -> is_u64 h /\ h <> 0%Z.
Proof.
  intros (l & (_ & W & Hh) & _ & _). destruct l as [|i l]; [done|]. cbn in Hh. injection Hh as <-.
  by destruct W as (_ & (_ & _ & ? & ?) & _).
Qed.

Lemma holds_stored st h S : holds st h S -> is_Some (statediff st !! u64_to_be_bytes h).
Proof.
  intros (l & (St & _ & Hh) & _ & _). destruct l as [|i l]; [done|]. cbn in Hh. injection Hh as Hh.
  destruct St as [G _]. rewrite Hh in G. unfold get_statediff in G.
  destruct (statediff st !! u64_to_be_bytes h); [eauto|done].
Qed.

Lemma holds_load st h S :
  cache_ok debug st -> holds st h S ->
  exists l st', load_shortstatehash_info debug 4 h st = Done (l, st') /\ top_full l = S.
Proof.
  intros Hc (l & R & HS & Hl). destruct (load_represents debug 4 h l st Hc R Hl) as (st' & E & _).
  by exists l, st'.
Qed.

(** The next number is not the key of a difference yet. *)
Lemma next_fresh db st :
  compressor_inv db st -> (counter db < u64_max)%Z ->
  statediff st !! u64_to_be_bytes (counter db + 1) = None.
Proof.
  intros ((Hu & _) & _ & _ & K) Hc. destruct (statediff st !! _) eqn:E; [|done]. exfalso.
  destruct (K (u64_to_be_bytes (counter db + 1))) as (s & Es & Hs); [eauto|].
  apply u64_to_be_inj in Es; width_lia.
Qed.

(** Saving a new state keeps the invariant, whether or not its hash is kept. *)
Lemma compressor_inv_save db db' st st1 S t' :
  compressor_inv db st -> (counter db < u64_max)%Z ->
  short_inv db' -> counter db' = (counter db + 1)%Z ->
  (forall hs v, statehash_shortstatehash db' !! hs = Some v ->
     hs = calculate_hash (iter S) /\ v = u64_to_be_bytes (counter db + 1) \/
     statehash_shortstatehash db !! hs = Some v) ->
  statediff st1 = statediff st -> cache_ok debug st1 ->
  saved_as debug (statediff st) (counter db + 1) S t' ->
  compressor_inv db' (MkStore t' (stateinfo_cache st1)) /\ holds (MkStore t' (stateinfo_cache st1)) (counter db + 1) S.
Proof.
  intros I Hc I' Ec Et Es Hk Hsv. pose proof (next_fresh db st I Hc) as Hf.
  destruct I as ((Hu & _) & _ & T & K). destruct Hsv as (d & l & -> & R & HS & Hl).
  assert (holds (MkStore (save_statediff (statediff st) (counter db + 1) d) (stateinfo_cache st1))
            (counter db + 1) S) as Hh by by exists l.
  split; [|done]. split_and!; [done|..].
  - intros h l' E. cbn. apply represents_other; [done|]. rewrite <- Es. by apply Hk.
  - intros hs' v [[-> ->]|E]%Et.
    + exists (counter db + 1)%Z, S. split_and!; [done..|width_lia|done].
    + apply T in E as (s & S' & -> & -> & Hs & (l' & R' & HS' & Hl')). exists s, S'. split_and!; [done..|].
      exists l'. split_and!; [|done..]. by apply represents_other.
  - intros k. cbn. unfold save_statediff. rewrite lookup_insert, Ec. case_decide.
    + intros _. exists (counter db + 1)%Z. split; [done|]. width_lia.
    + intros (s & -> & ?)%K. exists s. split; [done|lia].
Qed.

Lemma wf_full_ok l : wf_stack l -> state_ok (top_full l).
Proof.
  induction l as [|i l IH]; [intros _ e; cbn; set_solver|]. intros ((_ & _ & Hf) & (Sa & _) & W).
  intros e. unfold top_full at 1. cbn [head from_option]. rewrite Hf. specialize (IH W).
  unfold state_ok in *. set_solver.
Qed.

Lemma layer_of_difference S P : layer_ok P (S ∖ P) (P ∖ S) S.
Proof.
  split_and!; [set_solver..|]. set_cases. destruct (decide (x ∈ S)), (decide (x ∈ P)); set_solver.
Qed.

(** The state and its difference to the previous one are small enough. *)
Definition room_for st (prev : option Z) S : Prop :=
  (zsize S <= max_entries)%Z /\
  forall p, prev = Some p -> exists l, represents debug (statediff st) p l /\ length l <= 4 /\
    (zsize (S ∖ top_full l) + zsize (top_full l ∖ S) + stack_size l <= max_entries)%Z.

Lemma load_parents_spec st prev S :
  cache_ok debug st -> room_for st prev S ->
  exists parents st1, load_parents debug 4 st prev = Done (parents, st1) /\
    statediff st1 = statediff st /\ cache_ok debug st1 /\
    stored_stack debug (statediff st) parents /\ wf_stack parents /\
    (zsize (S ∖ top_full parents) + zsize (top_full parents ∖ S) + stack_size parents <= max_entries)%Z.
Proof.
  intros Ck [Hb Hp]. unfold load_parents. destruct prev as [p|].
  - destruct (Hp p eq_refl) as (l & R & Hl & Bl).
    destruct (load_represents debug 4 p l st Ck R Hl) as (st1 & -> & Es & Hk).
    exists l, st1. destruct R as (? & ? & _). done.
  - exists [], st. split_and!; [done..|]. unfold top_full. cbn [head from_option stack_size foldr].
    replace (∅ ∖ S) with (∅ : CompressedState) by set_solver. rewrite difference_empty_L.
    unfold zsize at 2. rewrite size_empty. lia.
Qed.

Lemma save_state_spec db st prev S :
  no_collision st S -> compressor_inv db st -> (counter db < u64_max)%Z -> state_ok S ->
  room_for st prev S ->
  exists r db' st', save_state debug calculate_hash 4 db st prev S = Done (r, db', st') /\
    compressor_inv db' st' /\ holds st' (new_hash r) S.
Proof.
  intros Hinj I Hc HS Hr. unfold save_state. set (hs := calculate_hash (iter S)).
  pose proof (shortstatehash_spec db hs (proj1 I) Hc) as Hsh.
  pose proof I as (Is & Ck & T & K).
  destruct (load_parents_spec st prev S Ck Hr) as (parents & st1 & Eload & Es & Hk & Sp & Wp & Bp).
  assert (match head parents with
          | Some i => (S ∖ full_state i, full_state i ∖ S)
          | None => (S, ∅)
          end = (S ∖ top_full parents, top_full parents ∖ S)) as Ed.
  { destruct parents as [|i l]; cbn; [f_equal; set_solver|done]. }
  destruct (statehash_shortstatehash db !! hs) as [v|] eqn:Ev.
  - destruct Hsh as (s & -> & Hs & ->). cbn [from_short mbind outcome_bind].
    destruct (T hs _ Ev) as (s' & S' & Esb & Ehs & Hs' & Hh).
    apply u64_to_be_inj in Esb as <-; [|done..]. symmetry in Ehs. apply (Hinj s S' Hh) in Ehs as ->.
    case_decide; [by eexists _, _, _|]. rewrite Eload. cbn [from_short mbind outcome_bind]. rewrite Ed.
    eexists _, _, _. split; [done|]. assert (holds st1 s S) as Hh1 by (unfold holds in *; by rewrite Es).
    split; [|done]. split_and!; [done..| |].
    + intros hs' v' (x & X & ? & ? & ? & ?)%T. exists x, X. unfold holds. by rewrite Es.
    + intros k. rewrite Es. apply K.
  - destruct Hsh as (db' & -> & I' & Ec & Et). cbn [from_short mbind outcome_bind].
    pose proof (next_fresh db st I Hc) as Hf.
    rewrite decide_False.
    2: { intros <-. destruct (proj2 Hr _ eq_refl) as (l & R & Hl & _).
         destruct (holds_stored st (counter db + 1) (top_full l)) as [v Hv]; [by exists l|congruence]. }
    rewrite Eload. cbn [from_short mbind outcome_bind]. rewrite Ed. cbn [mbind outcome_bind]. rewrite Es.
    destruct (save_from_diff_spec debug parents (statediff st) (counter db + 1)
                (S ∖ top_full parents) (top_full parents ∖ S) 2 S) as (t' & -> & Hsv); try done.
    + destruct Is as (Hu & _). width_lia.
    + destruct Is as (Hu & _). width_lia.
    + intros e He. apply HS. set_solver.
    + intros e He. apply (wf_full_ok parents Wp). set_solver.
    + apply layer_of_difference.
    + cbn [from_short mbind outcome_bind]. eexists _, _, _. split; [done|]. cbn [new_hash].
      eapply compressor_inv_save; [done..| |done|done|done].
      intros hs' v'. rewrite Et, lookup_insert. case_decide; [|by right]. intros [= <-]. by left.
Qed.

End save_state.

Lemma compress_parse k e :
  is_u64 k -> is_u64 e -> parse_compressed_state_event (compress_state_event k e) = Done (k, e).
Proof.
  intros Hk He. unfold parse_compressed_state_event, compress_state_event.
  assert (length (u64_to_be_bytes k) = 8) as Hl by apply length_u64_to_be.
  rewrite (take_app_length' (u64_to_be_bytes k) (u64_to_be_bytes e) 8) by done.
  rewrite (drop_app_length' (u64_to_be_bytes k) (u64_to_be_bytes e) 8) by done.
  by rewrite !Bytes.u64_from_u8_be.
Qed.

(** ** Claims *)

Section claims.
Context (debug : bool) `{LruCache Z ShortStateInfoVec} (calculate_hash : list bytes -> bytes).

(** A difference reads back as it was saved: parent, added and removed
    entries, provided no entry has short state key 0 (the number that marks the
    start of the removed entries and that the counter never hands out). *)
Theorem statediff_roundtrip t h d :
  diff_ok d -> get_statediff debug (save_statediff t h d) h = Done d.
Proof. apply get_statediff_saved. Qed.

(** Compressing the state of a room, with each event named once, succeeds, and
    every entry reads back as its short state key and a number that leads to
    the event. *)
Theorem compressed_events_read_back db state :
  short_inv db -> NoDup state.*2 -> Forall (fun e => utf8_valid e = true) state.*2 ->
  Forall is_u64 state.*1 -> (counter db + Z.of_nat (length state) <= u64_max)%Z ->
  exists out db', compress_state_events debug db state = Done (out, db') /\ short_inv db' /\
    Forall2 (fun '(k, e) c => exists s, parse_compressed_state_event c = Done (k, s) /\
       get_eventid_from_short debug db' s = Done e) state out.
Proof.
  intros I Hnd Hu Hk Hc. destruct (number_all_spec debug state.*2 [] db I Hu) as (ss & db' & E & I' & _ & F).
  { by rewrite length_fmap. }
  unfold compress_state_events, multi_get_or_create_shorteventid.
  rewrite number_items_sequential by (done || by rewrite length_fmap). rewrite E. cbn.
  eexists _, db'. split_and!; [done..|]. clear E Hnd Hu Hc. revert ss F.
  induction state as [|[k e] state IH]; intros ss F; inversion F as [|? s ? ss' Hs F']; subst; [constructor|].
  apply Forall_cons in Hk as [Hk0 Hk]. constructor; [|by apply IH]. exists s.
  split; [|by apply get_eventid_spec]. apply compress_parse; [done|].
  by apply get_shorteventid_spec in Hs as [_ ?].
Qed.

(** Saving a difference on top of a stored stack never overflows below 2^31
    entries, writes one difference, under the new number, and stores exactly
    the intended state: the new stack has at most four layers, each of them a
    proper difference to the one below, its top is the previous state with the
    entries added and removed, and all other stored states are unchanged. *)
Theorem save_from_diff_exact t h new rem sib parents :
  t !! u64_to_be_bytes h = None -> is_u64 h -> h <> 0%Z -> state_ok new -> state_ok rem ->
  stored_stack debug t parents -> wf_stack parents ->
  new ## top_full parents -> rem ⊆ top_full parents ->
  (zsize new + zsize rem + stack_size parents <= max_entries)%Z -> (0 <= sib <= max_entries)%Z ->
  exists t' l, save_state_from_diff t h new rem sib parents = Done t' /\
    represents debug t' h l /\ length l <= 4 /\ top_full l = (top_full parents ∪ new) ∖ rem /\
    (forall k, k <> u64_to_be_bytes h -> t' !! k = t !! k) /\
    (forall h' l', represents debug t h' l' -> represents debug t' h' l').
Proof.
  intros Hn Hu H0 Sn Sr St W D1 D2 Hb Hs.
  destruct (save_from_diff_spec debug parents t h new rem sib ((top_full parents ∪ new) ∖ rem))
    as (t' & E & d & l & -> & R & HS & Hl); try done.
  eexists _, l. split_and!; [done..| |].
  - intros k Hk. by apply lookup_insert_ne.
  - intros h' l'. by apply represents_other.
Qed.

(** C13. End to end: when no other saved state has the same hash, saving the
    state of a room succeeds, keeps the invariant of the tables, and loading the
    returned short state hash gives back exactly that state, through the cache
    or from the table. *)
Theorem save_state_load db st prev S :
  no_collision debug calculate_hash st S -> compressor_inv debug calculate_hash db st ->
  (counter db < u64_max)%Z -> state_ok S -> room_for debug st prev S ->
  exists r db' st' l st'', save_state debug calculate_hash 4 db st prev S = Done (r, db', st') /\
    compressor_inv debug calculate_hash db' st' /\
    load_shortstatehash_info debug 4 (new_hash r) st' = Done (l, st'') /\ top_full l = S.
Proof.
  intros Hi I Hc HS Hr.
  destruct (save_state_spec debug calculate_hash db st prev S Hi I Hc HS Hr) as (r & db' & st' & E & I' & Hh).
  destruct (holds_load debug st' (new_hash r) S) as (l & st'' & El & Hl); [apply I'|done|].
  by exists r, db', st', l, st''.
Qed.

End claims.

(** ** Witnesses *)

(** A hash that marks every byte and every end. *)
Fixpoint mark (e : bytes) : bytes :=
  match e with [] => [x00] | b :: e => x01 :: b :: mark e end.
Definition marked (l : list bytes) : bytes := mjoin (mark <$> l).

Lemma mark_inj e e' r r' : mark e ++ r = mark e' ++ r' -> e = e' /\ r = r'.
Proof.
  revert e'. induction e as [|b e IH]; intros [|b' e']; cbn; intros E; simplify_eq; [done|].
  by destruct (IH e') as [-> ->].
Qed.

Lemma marked_inj l l' : marked l = marked l' -> l = l'.
Proof.
  revert l'. unfold marked. induction l as [|e l IH]; intros [|e' l']; rewrite ?fmap_cons, ?mjoin_cons.
  - done.
  - by destruct e'.
  - by destruct e.
  - intros [-> ?]%mark_inj. f_equal. auto.
Qed.

Lemma marked_no_collision `{LruCache Z ShortStateInfoVec} st S : no_collision true marked st S.
Proof. intros h P _ E%marked_inj. by rewrite <- (iter_set P), E, iter_set. Qed.

Definition entry1 : bytes := compress_state_event 1 7.
Definition entry2 : bytes := compress_state_event 2 8.
Definition state1 : CompressedState := {[entry1; entry2]}.

Lemma state1_ok : state_ok state1.
Proof.
  intros e. unfold state1. rewrite elem_of_union, !elem_of_singleton.
  intros [->| ->]; (split; [reflexivity|]; vm_compute; discriminate).
Qed.

Lemma state1_size : (zsize state1 <= 2)%Z.
Proof.
  unfold zsize, state1. rewrite size_union_alt, size_singleton.
  assert (size ({[entry2]} ∖ {[entry1]} : CompressedState) <= size ({[entry2]} : CompressedState))
    by (apply subseteq_size; set_solver).
  rewrite size_singleton in *. lia.
Qed.

Definition one_stack : LruCache Z ShortStateInfoVec := one_entry _ _.
Definition empty_store : @Store one_stack := @MkStore one_stack ∅ None.

Lemma empty_compressor_inv : compressor_inv (H := one_stack) true marked empty_db empty_store.
Proof.
  split_and!; [apply empty_db_inv|done|..].
  - intros hs v. cbn. by rewrite lookup_empty.
  - intros k. cbn. rewrite lookup_empty. by intros [? ?].
Qed.

Lemma statediff_roundtrip_witness :
  get_statediff true (save_statediff ∅ 5 (MkDiff (Some 3%Z) {[entry1]} {[entry2]})) 5 =
  Done (MkDiff (Some 3%Z) {[entry1]} {[entry2]}).
Proof.
  apply (statediff_roundtrip true). pose proof state1_ok as Hs. unfold state_ok, state1 in Hs.
  split_and!; [intros e ?; apply Hs; set_solver..|]. intros p [= <-]. split; [width_lia|done].
Defined.

Lemma save_from_diff_exact_witness :
  exists t' l, save_state_from_diff ∅ 1 state1 ∅ 2 [] = Done t' /\ represents true t' 1 l /\
    top_full l = (∅ ∪ state1) ∖ ∅.
Proof.
  destruct (save_from_diff_exact true ∅ 1 state1 ∅ 2 []) as (t' & l & ? & ? & _ & ? & _).
  - done.
  - width_lia.
  - done.
  - apply state1_ok.
  - intros e He. set_solver.
  - done.
  - done.
  - set_solver.
  - set_solver.
  - pose proof state1_size. unfold zsize at 2. rewrite size_empty. unfold max_entries. cbn [stack_size foldr]. lia.
  - unfold max_entries. lia.
  - exists t', l. split_and!; assumption.
Defined.

Lemma save_state_load_witness :
  exists r db' st' l st'',
    save_state (H := one_stack) true marked 4 empty_db empty_store None state1 = Done (r, db', st') /\
    load_shortstatehash_info (H := one_stack) true 4 (new_hash r) st' = Done (l, st'') /\ top_full l = state1.
Proof.
  destruct (save_state_load (H := one_stack) true marked empty_db empty_store None state1)
    as (r & db' & st' & l & st'' & ? & _ & ? & ?).
  - apply marked_no_collision.
  - apply empty_compressor_inv.
  - reflexivity.
  - apply state1_ok.
  - split; [pose proof state1_size; unfold max_entries; lia|]. intros p. discriminate.
  - exists r, db', st', l, st''. split_and!; assumption.
Defined.
