(* ===== verification/AuthChain.v ===== *)
(** * Auth chains

    Models [src/service/rooms/auth_chain/mod.rs] and [data.rs]: the set of all
    auth ancestors of some events, as sorted short event ids, computed by a
    breadth-first walk per event and cached per event (in memory and in the
    database) and per group of events (in memory).

    What the component needs of the short id service is the class [ShortIds];
    the service of [Short] is the instance [short_service].  The timeline's
    [get_pdu] is the map [pdus].  Concurrent work ([broad_and_then]) runs one
    item after the other in an order chosen by the [Schedule]. *)

From stdpp Require Import prelude gmap strings list sorting relations.
From Stdlib Require Import ZArith Lia.
From Stdlib Require Import Strings.Byte.
From S2P Require Import Prelude MachineInt DbCodec Matrix ToyRuma Short.

Inductive ChainError := Forbidden (event_id : string).

Abbreviation chain_cache := (LruCache (list Z) (list Z)).

(** ** What the short id service promises *)

(** Requests for several events, one after the other. *)
Definition number_all {ids} (get_or_create : ids -> string -> outcome ChainError (Z * ids))
    (i : ids) (es : list string) : outcome ChainError (list Z * ids) :=
  try_fold (fun '(ss, i) e => '(s, i) ← get_or_create i e; Done (ss ++ [s], i)) ([], i) es.

Class ShortIds := {
  ids : Type;
  ids_ok : ids -> Prop;
  id_ok : string -> Prop;                                   (** valid event ids *)
  lookup_id : ids -> string -> option Z;
  event_of : ids -> Z -> option string;
  get_or_create_id : ids -> string -> outcome ChainError (Z * ids);
  multi_get_or_create : ids -> list string -> outcome ChainError (list Z * ids);
  free : ids -> Z;                                          (** numbers left *)
  lookup_id_u64 : forall i a s, ids_ok i -> lookup_id i a = Some s -> is_u64 s;
  event_of_lookup : forall i a s, ids_ok i -> lookup_id i a = Some s -> event_of i s = Some a;
  get_or_create_known : forall i a s, ids_ok i -> lookup_id i a = Some s ->
    get_or_create_id i a = Done (s, i);
  get_or_create_new : forall i a, ids_ok i -> id_ok a -> lookup_id i a = None -> (0 < free i)%Z ->
    exists s i', get_or_create_id i a = Done (s, i') /\ ids_ok i' /\ free i' = (free i - 1)%Z /\
      lookup_id i' a = Some s /\ forall b, b <> a -> lookup_id i' b = lookup_id i b;
  multi_get_or_create_seq : forall i es, ids_ok i -> NoDup es -> Forall id_ok es ->
    (Z.of_nat (length es) <= free i)%Z ->
    multi_get_or_create i es = number_all get_or_create_id i es }.

Section auth_chain.
Context `{ShortIds} {sched : Schedule} `{C : chain_cache} (pdus : gmap string Event).

(** ** The walk from one event *)

Definition push_found (st : list string * gset Z * ids) (auth_event : string)
    : outcome ChainError (list string * gset Z * ids) :=
  let '(todo, found, i) := st in
  '(sauthevent, i) ← get_or_create_id i auth_event;
  if decide (sauthevent ∈ found) then Done (todo, found, i)
  else Done (todo ++ [auth_event], {[sauthevent]} ∪ found, i).

Fixpoint walk (fuel : nat) (room : string) (todo : list string) (found : gset Z) (i : ids)
    : outcome ChainError (gset Z * ids) :=
  match todo with
  | [] => Done (found, i)
  | event_id :: todo =>
      match fuel with
      | O => OutOfFuel
      | S fuel =>
          match pdus !! event_id with
          | None => walk fuel room todo found i
          | Some pdu =>
              if decide (room_id pdu <> room) then Fail (Forbidden event_id) else
              '(todo, found, i) ← try_fold push_found (todo, found, i) (auth_events pdu);
              walk fuel room todo found i
          end
      end
  end.

(** Every event that can be found, as a bound on the number of rounds. *)
Definition all_auth : gset string :=
  list_to_set (mjoin ((fun p => auth_events p.2) <$> map_to_list pdus)).

Definition get_auth_chain_inner (room event_id : string) (i : ids) : outcome ChainError (list Z * ids) :=
  '(found, i) ← walk (S (size all_auth)) room [event_id] ∅ i;
  Done (reorder "found" (elements found), i).

(** ** The caches *)

Record Chains := MkChains { shorts : ids; authchain : gmap bytes bytes; ram : cache }.

Fixpoint chunks_exact (fuel : nat) (l : bytes) : list bytes :=
  match fuel with
  | O => []
  | S fuel => if decide (length l < 8) then [] else take 8 l :: chunks_exact fuel (drop 8 l)
  end.

Definition get_cached_eventid_authchain (key : list Z) (st : Chains) : option (list Z) * Chains :=
  match peek (ram st) key with
  | Some result => (Some result, MkChains (shorts st) (authchain st) (touch (ram st) key))
  | None =>
      match key with
      | [k] =>
          match authchain st !! u64_to_be_bytes k with
          | None => (None, st)
          | Some chain =>
              let chain := from_be <$> chunks_exact (length chain) chain in
              (Some chain, MkChains (shorts st) (authchain st) (put (ram st) [k] chain))
          end
      | _ => (None, st)
      end
  end.

Definition cache_auth_chain (key : list Z) (auth_chain : list Z) (st : Chains) : Chains :=
  let db :=
    match key with
    | [k] => <[u64_to_be_bytes k := mjoin (u64_to_be_bytes <$> auth_chain)]> (authchain st)
    | _ => authchain st
    end in
  MkChains (shorts st) db (put (ram st) key auth_chain).

Definition clear_cache (st : Chains) : Chains := MkChains (shorts st) (authchain st) (clear (ram st)).

(** ** Groups of events *)

Definition z_le (a b : Z) : Prop := (a <= b)%Z.
#[global] Instance z_le_dec a b : Decision (z_le a b).
Proof. unfold z_le. apply _. Defined.

(** [sort_unstable] and [dedup] *)
Fixpoint dedup (l : list Z) : list Z :=
  match l with
  | [] => []
  | a :: l' =>
      match l' with
      | [] => [a]
      | b :: _ => if decide (a = b) then dedup l' else a :: dedup l'
      end
  end.
Definition sort_dedup (l : list Z) : list Z := dedup (merge_sort z_le l).

Definition chain_of_event (room : string) (acc : list Z * Chains) (e : Z * string)
    : outcome ChainError (list Z * Chains) :=
  let '(chain, st) := acc in
  let '(shortid, event_id) := e in
  match get_cached_eventid_authchain [shortid] st with
  | (Some cached, st) => Done (chain ++ cached, st)
  | (None, st) =>
      '(auth_chain, i) ← get_auth_chain_inner room event_id (shorts st);
      Done (chain ++ auth_chain, cache_auth_chain [shortid] auth_chain (MkChains i (authchain st) (ram st)))
  end.

Definition get_auth_chain_outer (room : string) (chunk : list (Z * string)) (st : Chains)
    : outcome ChainError (list Z * Chains) :=
  let chunk_key := chunk.*1 in
  match chunk_key with
  | [] => Done ([], st)
  | _ =>
      match get_cached_eventid_authchain chunk_key st with
      | (Some cached, st) => Done (cached, st)
      | (None, st) =>
          '(chunk_cache, st) ← try_fold (chain_of_event room) ([], st) (reorder "chunk" chunk);
          let chunk_cache := sort_dedup chunk_cache in
          Done (chunk_cache, cache_auth_chain chunk_key chunk_cache st)
      end
  end.

Definition NUM_BUCKETS : nat := 50.

(** A bucket is a [BTreeSet] of numbered events. *)
Definition by_short (a b : Z * string) : Prop := ord_le a b.
#[global] Instance by_short_dec a b : Decision (by_short a b).
Proof. unfold by_short. apply _. Defined.

Definition bucket (starting_ids : list (Z * string)) (n : nat) : list (Z * string) :=
  merge_sort by_short (elements (list_to_set (C := gset (Z * string))
    (filter (fun p => (p.1 mod Z.of_nat NUM_BUCKETS)%Z = Z.of_nat n) starting_ids))).

Definition chain_of_bucket (room : string) (acc : list Z * Chains) (chunk : list (Z * string))
    : outcome ChainError (list Z * Chains) :=
  let '(full, st) := acc in
  '(chain, st) ← get_auth_chain_outer room chunk st;
  Done (full ++ chain, st).

Definition get_auth_chain (room : string) (starting_events : list string) (st : Chains)
    : outcome ChainError (list Z * Chains) :=
  '(starting_shorts, i) ← multi_get_or_create (shorts st) starting_events;
  let buckets := bucket (zip starting_shorts starting_events) <$> List.seq 0 NUM_BUCKETS in
  '(full, st) ← try_fold (chain_of_bucket room) ([], MkChains i (authchain st) (ram st))
                  (reorder "buckets" buckets);
  Done (sort_dedup full, st).

(** The numbers whose event is not found are left out. *)
Definition event_ids_iter (room : string) (starting_events : list string) (st : Chains)
    : outcome ChainError (list string * Chains) :=
  '(chain, st) ← get_auth_chain room starting_events st;
  Done (omap (M := list) (event_of (shorts st)) chain, st).

End auth_chain.

(** ** Numbers given out during a run *)

Section numbering.
Context `{ShortIds} (U : gset string).

Definition extends (i i' : ids) : Prop :=
  forall a s, lookup_id i a = Some s -> lookup_id i' a = Some s.

#[global] Instance extends_preorder : PreOrder extends.
Proof. split; [by intros i a s|]. intros i j k H1 H2 a s ?. auto. Qed.

Definition unnumbered (i : ids) : gset string := filter (fun a => lookup_id i a = None) U.

(** A consistent service with a number left for every event of [U]. *)
Definition good (i : ids) : Prop :=
  ids_ok i /\ (forall a, a ∈ U -> id_ok a) /\ (Z.of_nat (size (unnumbered i)) <= free i)%Z.

Lemma lookup_id_inj i a b s : ids_ok i -> lookup_id i a = Some s -> lookup_id i b = Some s -> a = b.
Proof.
  intros Ok Ha%event_of_lookup Hb%event_of_lookup; [|done..]. congruence.
Qed.

Lemma get_or_create_good i a :
  good i -> a ∈ U ->
  exists s i', get_or_create_id i a = Done (s, i') /\ good i' /\ extends i i' /\ lookup_id i' a = Some s.
Proof.
  intros (Ok & Hid & Hf) Ha. destruct (lookup_id i a) as [s|] eqn:E.
  { exists s, i. split_and!; [by apply get_or_create_known|done..]. }
  assert (a ∈ unnumbered i) as Hau by by apply elem_of_filter.
  assert (0 < size (unnumbered i)) as Hpos.
  { destruct (decide (size (unnumbered i) = 0)) as [E0%size_empty_inv|]; [set_solver|lia]. }
  destruct (get_or_create_new i a Ok) as (s & i' & E' & Ok' & Hf' & Hs & Ho); [auto|done|lia|].
  exists s, i'. split_and!; [done| |by intros b t Hb; rewrite Ho; [|congruence]|done].
  split_and!; [done..|]. rewrite Hf'.
  replace (unnumbered i') with (unnumbered i ∖ {[a]}).
  - rewrite size_difference, size_singleton by set_solver. lia.
  - apply set_eq. intros b. unfold unnumbered.
    rewrite elem_of_difference, !elem_of_filter, not_elem_of_singleton. split.
    + intros [[Hb ?] Hn]. by rewrite Ho.
    + intros [Hb ?]. assert (b <> a) by congruence. by rewrite <- (Ho b).
Qed.

(** The events and their numbers, in order. *)
Definition named (i : ids) (es : list string) (ss : list Z) : Prop :=
  Forall2 (fun e s => lookup_id i e = Some s) es ss.

Lemma named_extends i i' es ss : extends i i' -> named i es ss -> named i' es ss.
Proof. intros He Hn. eapply Forall2_impl; [exact Hn|]. auto. Qed.

Lemma named_inj i es es' ss : ids_ok i -> named i es ss -> named i es' ss -> es = es'.
Proof.
  intros Ok Hn. revert es'. induction Hn as [|e s es ss He Hn IH]; intros es' Hn'.
  - by inversion Hn'.
  - inversion Hn' as [|e' ? es'' ? He']; subst. f_equal; [|auto]. by eapply lookup_id_inj.
Qed.

Lemma number_all_good i es :
  good i -> (forall e, e ∈ es -> e ∈ U) ->
  outcome_spec (number_all get_or_create_id i es)
    (fun '(ss, i') => good i' /\ extends i i' /\ named i' es ss) (fun _ => False).
Proof.
  intros G HU. unfold number_all.
  apply (try_fold_spec _ (fun pre '(ss, i') => good i' /\ extends i i' /\ named i' pre ss)).
  - split_and!; [done..|constructor].
  - intros pre a post [ss i1] -> (G1 & X1 & N1).
    destruct (get_or_create_good i1 a G1) as (s & i2 & -> & G2 & X2 & Hs); [apply HU; set_solver|].
    cbn. split_and!; [done|by trans i1|]. apply Forall2_app; [by eapply named_extends|by repeat constructor].
Qed.

End numbering.

(** ** The walk finds exactly the ancestors *)

Section walk_facts.
Context `{ShortIds} (pdus : gmap string Event) (room : string) (U : gset string).
Hypothesis U_all : all_auth pdus ⊆ U.

Definition auth_parent (x a : string) : Prop := exists e, pdus !! x = Some e /\ a ∈ auth_events e.

(** [a] is an auth ancestor of [x]. *)
Abbreviation ancestor := (tc auth_parent).

Definition wrong_room (x : string) : Prop := exists e, pdus !! x = Some e /\ room_id e <> room.

Lemma found_in_all x e a : pdus !! x = Some e -> a ∈ auth_events e -> a ∈ all_auth pdus.
Proof.
  intros Hx Ha. unfold all_auth. apply elem_of_list_to_set, list_elem_of_join.
  exists (auth_events e). split; [done|]. apply list_elem_of_fmap. exists (x, e).
  split; [done|]. by apply elem_of_map_to_list.
Qed.

(** The numbers found stand for the events found. *)
Definition stands_for (i : ids) (F : gset string) (found : gset Z) : Prop :=
  (forall x, x ∈ F -> exists s, lookup_id i x = Some s /\ s ∈ found) /\
  (forall s, s ∈ found -> exists x, lookup_id i x = Some s /\ x ∈ F).

Lemma stands_for_extends i i' F found : extends i i' -> stands_for i F found -> stands_for i' F found.
Proof. intros He [H1 H2]. split; [intros x Hx; destruct (H1 x Hx)|intros s Hs; destruct (H2 s Hs)]; naive_solver. Qed.

Lemma stands_for_elem i F found x s :
  ids_ok i -> stands_for i F found -> lookup_id i x = Some s -> s ∈ found <-> x ∈ F.
Proof.
  intros Ok [H1 H2] Hx. split.
  - intros (y & Hy & ?)%H2. by rewrite (lookup_id_inj i x y s).
  - intros (s' & Hs & ?)%H1. congruence.
Qed.

(** The result of queueing the auth events [aids] of one event. *)
Definition pushed (i : ids) (todo : list string) (F : gset string) (aids : list string)
    (st : list string * gset Z * ids) : Prop :=
  exists new, st.1.1 = todo ++ new /\ NoDup new /\
    (forall a, a ∈ new -> a ∈ aids /\ a ∉ F) /\ (forall a, a ∈ aids -> a ∈ new \/ a ∈ F) /\
    good U st.2 /\ extends i st.2 /\ stands_for st.2 (list_to_set new ∪ F) st.1.2.

Lemma push_all_found aids i todo F found :
  good U i -> stands_for i F found -> (forall a, a ∈ aids -> a ∈ U) ->
  outcome_spec (try_fold push_found (todo, found, i) aids) (pushed i todo F aids) (fun _ => False).
Proof.
  intros G Hs HU. apply (try_fold_spec _ (pushed i todo F)).
  { exists []. rewrite app_nil_r. cbn. split_and!; try done; [constructor|set_solver..|].
    by rewrite union_empty_l_L. }
  intros pre a post [[todo1 found1] i1] -> (new & Et & Hnd & H1 & H2 & G1 & X1 & S1). cbn in *. subst todo1.
  destruct (get_or_create_good U i1 a G1) as (s & i2 & -> & G2 & X2 & Ha); [apply HU; set_solver|].
  apply (stands_for_extends _ _ _ _ X2) in S1. cbn.
  pose proof (stands_for_elem i2 _ _ a s (proj1 G2) S1 Ha) as Hin. case_decide as D; cbn.
  - apply Hin in D. exists new. cbn. split_and!; try done; [set_solver| |by trans i1].
    intros b [Hb| ->%list_elem_of_singleton]%elem_of_app; [auto|set_solver].
  - rewrite Hin in D. exists (new ++ [a]). cbn. rewrite app_assoc. split_and!; try done.
    + apply NoDup_app. split_and!; [done|set_solver|apply NoDup_singleton].
    + set_solver.
    + intros b [[?|?]%H2| ->%list_elem_of_singleton]%elem_of_app; set_solver.
    + by trans i1.
    + rewrite list_to_set_app_L. destruct S1 as [S1 S2]. split.
      * intros x Hx. destruct (decide (x = a)) as [->|]; [exists s; set_solver|].
        destruct (S1 x) as (t & ? & ?); [set_solver|exists t; set_solver].
      * intros t [->%elem_of_singleton|Ht]%elem_of_union; [exists a; set_solver|].
        destruct (S2 t Ht) as (x & ? & ?). exists x. set_solver.
Qed.

Section one.
Context (start : string).

Definition reached (x : string) : Prop := x = start \/ ancestor start x.

Record walk_inv (todo : list string) (F : gset string) : Prop := {
  inv_todo : forall x, x ∈ todo -> reached x;
  inv_found : forall x, x ∈ F -> ancestor start x;
  inv_done : forall x, x = start \/ x ∈ F ->
    x ∈ todo \/ (~ wrong_room x /\ forall a, auth_parent x a -> a ∈ F) }.

Lemma reached_parent x a : reached x -> auth_parent x a -> ancestor start a.
Proof. intros [->|Hx] Ha; [by apply tc_once|]. by eapply tc_r. Qed.

Lemma walk_inv_init : walk_inv [start] ∅.
Proof.
  split; [intros x ->%list_elem_of_singleton; by left|set_solver|].
  intros x [->|?]; [left; set_solver|set_solver].
Qed.

Lemma walk_inv_final F : walk_inv [] F -> forall x, x ∈ F <-> ancestor start x.
Proof.
  intros [_ I2 I3] x. split; [apply I2|]. intros Hx.
  assert (forall x y, ancestor x y -> (x = start \/ x ∈ F) -> y ∈ F) as G; [|apply (G start x Hx); by left].
  clear x Hx. intros x y Hxy. induction Hxy as [x y E|x y z E _ IH]; intros Hx;
    destruct (I3 x Hx) as [?|[_ Ha]]; try set_solver; auto.
Qed.

Lemma walk_inv_missing x todo F :
  walk_inv (x :: todo) F -> pdus !! x = None -> walk_inv todo F.
Proof.
  intros [I1 I2 I3] Hx. split; [intros y Hy; apply I1; set_solver|done|].
  intros y Hy. destruct (I3 y Hy) as [[->|?]%elem_of_cons|?]; [|by left|by right].
  right. split; [intros (e & E & _); congruence|intros a (e & E & _); congruence].
Qed.

Lemma walk_inv_step x todo F e new :
  walk_inv (x :: todo) F -> pdus !! x = Some e -> room_id e = room ->
  (forall a, a ∈ new -> a ∈ auth_events e /\ a ∉ F) ->
  (forall a, a ∈ auth_events e -> a ∈ new \/ a ∈ F) ->
  walk_inv (todo ++ new) (list_to_set new ∪ F).
Proof.
  intros [I1 I2 I3] Hx Hr H1 H2.
  assert (forall a, a ∈ new -> ancestor start a) as Hn.
  { intros a Ha. eapply reached_parent; [apply (I1 x); set_solver|]. exists e. split; [done|]. by apply H1. }
  split.
  - intros y [Hy|Hy]%elem_of_app; [apply I1; set_solver|right; auto].
  - intros y [Hy%elem_of_list_to_set|Hy]%elem_of_union; auto.
  - intros y Hy. assert (y ∈ new \/ (y = start \/ y ∈ F)) as [?|Hy'] by set_solver.
    { left. set_solver. }
    destruct (I3 y Hy') as [[->|?]%elem_of_cons|[Hw Ha]]; [|left; set_solver|].
    + right. split; [intros (e' & E & ?); congruence|]. intros a (e' & E & Ha).
      rewrite Hx in E. injection E as <-. destruct (H2 a Ha); set_solver.
    + right. split; [done|]. intros a ?%Ha. set_solver.
Qed.

Lemma walk_spec fuel todo F found i :
  good U i -> stands_for i F found -> walk_inv todo F -> F ⊆ all_auth pdus ->
  length todo + size (all_auth pdus ∖ F) <= fuel ->
  outcome_spec (walk pdus fuel room todo found i)
    (fun '(found', i') => exists F', walk_inv [] F' /\ stands_for i' F' found' /\ good U i' /\ extends i i')
    (fun err => exists x, err = Forbidden x /\ reached x /\ wrong_room x).
Proof.
  revert todo F found i. induction fuel as [|fuel IH]; intros [|x todo] F found i G Hst I Hs Hf;
    cbn [walk length] in *; [by exists F|lia|by exists F|].
  destruct (pdus !! x) as [e|] eqn:Hx.
  2: { apply (IH _ F); [done..|by eapply walk_inv_missing|done|lia]. }
  case_decide as D.
  { exists x. split_and!; [done|by apply (inv_todo _ _ I); set_solver|by exists e]. }
  destruct (decide (room_id e = room)) as [Er|]; [|done].
  pose proof (push_all_found (auth_events e) i todo F found G Hst) as P.
  eapply outcome_spec_bind; [eapply outcome_spec_errors; [apply P|done]|].
  { intros a Ha. apply U_all. by eapply found_in_all. }
  intros [[todo' found'] i'] (new & Et & Hnd & H1 & H2 & G' & X' & S'). cbn in *. subst todo'.
  assert (list_to_set new ⊆ all_auth pdus ∖ F) as Hsub.
  { intros a Ha%elem_of_list_to_set. destruct (H1 a Ha). apply elem_of_difference.
    split; [by eapply found_in_all|done]. }
  eapply outcome_spec_mono; [apply (IH _ (list_to_set new ∪ F)); [done..| | |]| |done].
  - by eapply walk_inv_step.
  - set_solver.
  - pose proof (subseteq_size _ _ Hsub) as Hsz. rewrite size_list_to_set in Hsz by done.
    replace (all_auth pdus ∖ (list_to_set new ∪ F))
      with (all_auth pdus ∖ F ∖ list_to_set new) by set_solver.
    rewrite (size_difference _ _ Hsub), size_list_to_set, length_app by done. lia.
  - intros [found'' i''] (F' & ? & ? & ? & ?). exists F'. split_and!; [done..|by trans i'].
Qed.

End one.

(** What a chain for some events is: the numbers of all their ancestors. *)
Definition chain_for (i : ids) (es : list string) (chain : list Z) : Prop :=
  (forall e a, e ∈ es -> ancestor e a -> exists s, lookup_id i a = Some s /\ s ∈ chain) /\
  (forall s, s ∈ chain -> exists e a, e ∈ es /\ ancestor e a /\ lookup_id i a = Some s).

Definition chain_error (es : list string) (err : ChainError) : Prop :=
  exists e x, e ∈ es /\ err = Forbidden x /\ reached e x /\ wrong_room x.

Lemma inner_spec {sched : Schedule} e i :
  good U i ->
  outcome_spec (get_auth_chain_inner pdus room e i)
    (fun '(chain, i') => good U i' /\ extends i i' /\ chain_for i' [e] chain) (chain_error [e]).
Proof.
  intros G. unfold get_auth_chain_inner. eapply outcome_spec_bind.
  { eapply outcome_spec_errors; [apply (walk_spec e _ _ ∅)|].
    - done.
    - split; set_solver.
    - apply walk_inv_init.
    - set_solver.
    - cbn. rewrite difference_empty_L. lia.
    - intros err (x & -> & ? & ?). exists e, x. set_solver. }
  intros [found i'] (F & Hf & [S1 S2] & G' & X'). cbn. pose proof (walk_inv_final e F Hf) as Hx.
  split_and!; [done..|split].
  - intros e' a ->%list_elem_of_singleton (s & ? & ?)%Hx%S1. exists s.
    rewrite elem_of_reorder, elem_of_elements. done.
  - intros s. rewrite elem_of_reorder, elem_of_elements. intros (a & ? & ?%Hx)%S2. exists e, a. set_solver.
Qed.

End walk_facts.

(** ** Sorting *)

Lemma dedup_cons a b l :
  dedup (a :: b :: l) = if decide (a = b) then dedup (b :: l) else a :: dedup (b :: l).
Proof. done. Qed.

Lemma elem_of_dedup l s : s ∈ dedup l <-> s ∈ l.
Proof.
  induction l as [|a [|b l] IH]; [done|done|]. rewrite dedup_cons. case_decide; [subst; set_solver|].
  rewrite !(elem_of_cons _ _ a), IH. done.
Qed.

Lemma elem_of_sort_dedup l s : s ∈ sort_dedup l <-> s ∈ l.
Proof. unfold sort_dedup. by rewrite elem_of_dedup, merge_sort_Permutation. Qed.

Lemma dedup_sorted l : StronglySorted z_le l -> StronglySorted Z.lt (dedup l).
Proof.
  induction 1 as [|a l S IH F]; [constructor|]. destruct l as [|b l]; [repeat constructor|].
  rewrite dedup_cons. case_decide as D; [done|]. constructor; [done|]. apply Forall_forall.
  intros x Hx. rewrite elem_of_dedup in Hx. apply StronglySorted_inv in S as [_ Fb].
  rewrite Forall_forall in F, Fb. assert (a < b)%Z.
  { assert (z_le a b) by (apply F; set_solver). unfold z_le in *. lia. }
  apply elem_of_cons in Hx as [->|Hx]; [done|]. specialize (Fb x Hx). unfold z_le in *. lia.
Qed.

Lemma sort_dedup_sorted l : StronglySorted Z.lt (sort_dedup l).
Proof.
  apply dedup_sorted, StronglySorted_merge_sort; unfold z_le.
  - intros x y z. lia.
  - intros x y. lia.
Qed.

Lemma sorted_NoDup l : StronglySorted Z.lt l -> NoDup l.
Proof.
  induction 1 as [|a l S IH F]; constructor; [|done]. rewrite Forall_forall in F. intros Ha%F. lia.
Qed.

(** ** Caches and groups *)

Section chain_facts.
Context `{ShortIds} {sched : Schedule} `{C : chain_cache} (pdus : gmap string Event) (room : string)
  (U : gset string).
Hypothesis U_all : all_auth pdus ⊆ U.

Abbreviation chain_for := (chain_for pdus).
Abbreviation ancestor := (tc (auth_parent pdus)).

Lemma chain_for_u64 i es chain : ids_ok i -> chain_for i es chain -> Forall is_u64 chain.
Proof. intros Ok [_ H2]. apply Forall_forall. intros s (e & a & _ & _ & ?)%H2. by eapply lookup_id_u64. Qed.

Lemma chain_for_extends i i' es chain : extends i i' -> chain_for i es chain -> chain_for i' es chain.
Proof.
  intros He [H1 H2]. split; [intros e a Hin Ha; destruct (H1 e a Hin Ha)|intros s Hs; destruct (H2 s Hs)];
    naive_solver.
Qed.

Lemma chain_for_ext i es es' chain chain' :
  (forall e, e ∈ es <-> e ∈ es') -> (forall s, s ∈ chain <-> s ∈ chain') ->
  chain_for i es chain -> chain_for i es' chain'.
Proof.
  intros He Hs [H1 H2]. split.
  - intros e a Hin Ha. destruct (H1 e a) as (s & ? & ?); [by apply He|done|]. exists s. by rewrite <- Hs.
  - intros s (e & a & ? & ?)%Hs%H2. exists e, a. by rewrite <- He.
Qed.

Lemma chain_for_app i es1 es2 c1 c2 :
  chain_for i es1 c1 -> chain_for i es2 c2 -> chain_for i (es1 ++ es2) (c1 ++ c2).
Proof.
  intros [A1 A2] [B1 B2]. split.
  - intros e a [Hin|Hin]%elem_of_app Ha; [destruct (A1 e a Hin Ha) as (s & ? & ?)|
      destruct (B1 e a Hin Ha) as (s & ? & ?)]; exists s; set_solver.
  - intros s [Hs|Hs]%elem_of_app; [destruct (A2 s Hs) as (e & a & ? & ?)|
      destruct (B2 s Hs) as (e & a & ? & ?)]; exists e, a; set_solver.
Qed.

(** Everything cached is the chain of the events it is filed under. *)
Definition chains_ok (st : Chains) : Prop :=
  (forall key chain, peek (ram st) key = Some chain ->
     exists es, named (shorts st) es key /\ chain_for (shorts st) es chain) /\
  (forall k v, authchain st !! k = Some v ->
     exists e s chain, lookup_id (shorts st) e = Some s /\ k = u64_to_be_bytes s /\
       v = mjoin (u64_to_be_bytes <$> chain) /\ chain_for (shorts st) [e] chain).

Lemma chains_ok_extends i st :
  extends (shorts st) i -> chains_ok st -> chains_ok (MkChains i (authchain st) (ram st)).
Proof.
  intros He [O1 O2]. split; cbn.
  - intros key chain (es & ? & ?)%O1. exists es.
    split; [by eapply named_extends|by eapply chain_for_extends].
  - intros k v (e & s & chain & ? & ? & ? & ?)%O2. exists e, s, chain.
    split_and!; [auto..|by eapply chain_for_extends].
Qed.

Lemma chunks_encoded l fuel :
  length l <= fuel -> chunks_exact fuel (mjoin (u64_to_be_bytes <$> l)) = u64_to_be_bytes <$> l.
Proof.
  revert fuel. induction l as [|z l IH]; intros fuel Hf; [by destruct fuel|].
  destruct fuel as [|fuel]; [cbn in Hf; lia|]. rewrite fmap_cons.
  change (mjoin (u64_to_be_bytes z :: (u64_to_be_bytes <$> l)))
    with (u64_to_be_bytes z ++ mjoin (u64_to_be_bytes <$> l)).
  assert (length (u64_to_be_bytes z) = 8) as Hz by apply length_u64_to_be. cbn [chunks_exact].
  rewrite decide_False by (rewrite length_app; lia).
  rewrite (take_app_length' (u64_to_be_bytes z) _ 8), (drop_app_length' (u64_to_be_bytes z) _ 8) by done.
  rewrite IH by (cbn in Hf; lia). done.
Qed.

Lemma read_encoded chain :
  Forall is_u64 chain ->
  from_be <$> chunks_exact (length (mjoin (u64_to_be_bytes <$> chain))) (mjoin (u64_to_be_bytes <$> chain)) = chain.
Proof.
  intros F. rewrite chunks_encoded.
  - rewrite <- list_fmap_compose. rewrite <- (list_fmap_id chain) at 2. apply list_fmap_ext.
    intros i z Hz. cbn. apply u64_be_roundtrip. rewrite Forall_forall in F. apply F.
    by eapply list_elem_of_lookup_2.
  - clear F. induction chain as [|z l IH]; [done|]. rewrite fmap_cons.
    change (mjoin (u64_to_be_bytes z :: (u64_to_be_bytes <$> l)))
      with (u64_to_be_bytes z ++ mjoin (u64_to_be_bytes <$> l)).
    rewrite length_app, length_u64_to_be. cbn. lia.
Qed.

Lemma get_cached_shorts key st : shorts (get_cached_eventid_authchain key st).2 = shorts st.
Proof.
  unfold get_cached_eventid_authchain. destruct (peek _ _); [done|].
  destruct key as [|k [|]]; [done| |done]. by destruct (authchain st !! _).
Qed.

Lemma get_cached_spec key es st :
  ids_ok (shorts st) -> chains_ok st -> named (shorts st) es key ->
  chains_ok (get_cached_eventid_authchain key st).2 /\
  forall chain, (get_cached_eventid_authchain key st).1 = Some chain -> chain_for (shorts st) es chain.
Proof.
  intros Ok [O1 O2] Hn. unfold get_cached_eventid_authchain.
  destruct (peek (ram st) key) as [chain|] eqn:E.
  { cbn. split; [split; [|done]|].
    - intros k c. cbn. rewrite peek_touch. apply O1.
    - intros c [= <-]. destruct (O1 _ _ E) as (es' & Hn' & ?). by rewrite (named_inj (shorts st) es es' key). }
  destruct key as [|k [|k' key]]; [done| |done].
  destruct (authchain st !! u64_to_be_bytes k) as [v|] eqn:Ev; [|done].
  destruct (O2 _ _ Ev) as (e & s & chain & Hs & Ek & -> & Hc).
  assert (es = [e] /\ k = s) as [-> ->].
  { inversion Hn as [|e' ? ? ? He' Hnil]; subst. inversion Hnil; subst.
    apply u64_to_be_inj in Ek as ->; [|by eapply lookup_id_u64..]. by rewrite (lookup_id_inj (shorts st) e' e s). }
  rewrite read_encoded by by eapply chain_for_u64. cbn. split; [split; [|done]|].
  - intros k c [[-> ->]|[_ Hk]]%peek_put; [by exists [e]|auto].
  - by intros c [= <-].
Qed.

Lemma cache_put_ok key es chain st :
  chains_ok st -> named (shorts st) es key -> chain_for (shorts st) es chain ->
  chains_ok (cache_auth_chain key chain st).
Proof.
  intros [O1 O2] Hn Hc. split.
  - intros k c [[-> ->]|[_ Hk]]%peek_put; [by exists es|auto].
  - intros k v. cbn. destruct key as [|s [|s' key]]; cbn; [apply O2| |apply O2].
    rewrite lookup_insert. case_decide; [|apply O2]. intros [= <-]. subst k.
    inversion Hn as [|e ? ? ? He Hnil]; subst. inversion Hnil; subst. by exists e, s, chain.
Qed.

Lemma clear_chains_ok st : chains_ok st -> chains_ok (clear_cache st).
Proof. intros [O1 O2]. split; [|done]. intros k c. cbn. by rewrite peek_clear. Qed.

(** What a step of the computation leaves behind: a consistent state that
    extends the one before, and the chain of the events done so far. *)
Definition chain_result (st0 : Chains) (es : list string) (r : list Z * Chains) : Prop :=
  good U (shorts r.2) /\ extends (shorts st0) (shorts r.2) /\ chains_ok r.2 /\
  chain_for (shorts r.2) es r.1.

Lemma chain_result_nil st : good U (shorts st) -> chains_ok st -> chain_result st [] ([], st).
Proof. intros. split_and!; [done..|]. split; cbn; set_solver. Qed.

Lemma chain_error_mono es es' err :
  (forall e, e ∈ es -> e ∈ es') -> chain_error pdus room es err -> chain_error pdus room es' err.
Proof. intros Hs (e & x & ? & ?). exists e, x. auto. Qed.

Lemma chain_of_event_spec st0 pre s e acc :
  chain_result st0 pre acc -> lookup_id (shorts st0) e = Some s ->
  outcome_spec (chain_of_event pdus room acc (s, e)) (chain_result st0 (pre ++ [e]))
    (chain_error pdus room [e]).
Proof.
  destruct acc as [chain st]. intros (G & X & Ok & Hc) Hs%X. cbn in *.
  destruct (get_cached_spec [s] [e] st (proj1 G) Ok) as [Ok' Hget]; [by repeat constructor|].
  pose proof (get_cached_shorts [s] st) as Hsh.
  destruct (get_cached_eventid_authchain [s] st) as [[cached|] st']; cbn in *; subst.
  - unfold chain_result. cbn. rewrite Hsh. split_and!; [done..|]. apply chain_for_app; auto.
  - eapply outcome_spec_bind; [by apply (inner_spec _ _ U); [|rewrite Hsh]|].
    intros [c i] (G' & X' & Hcc). rewrite Hsh in *. split_and!; cbn; [done|by trans (shorts st)| |].
    + apply (cache_put_ok _ [e]); cbn; [by apply chains_ok_extends; [rewrite Hsh|]| |done].
      repeat constructor. auto.
    + apply chain_for_app; [by eapply chain_for_extends|done].
Qed.

(** A bucket: events with their numbers. *)
Definition numbered_events (i : ids) (chunk : list (Z * string)) : Prop :=
  forall s e, (s, e) ∈ chunk -> lookup_id i e = Some s.

Lemma numbered_named i chunk : numbered_events i chunk -> named i chunk.*2 chunk.*1.
Proof.
  intros Hn. apply Forall2_fmap, Forall_Forall2_diag, Forall_forall. intros [s e]. apply Hn.
Qed.

Lemma outer_spec st chunk :
  good U (shorts st) -> chains_ok st -> numbered_events (shorts st) chunk ->
  outcome_spec (get_auth_chain_outer pdus room chunk st) (chain_result st chunk.*2)
    (chain_error pdus room chunk.*2).
Proof.
  intros G Ok Hn. unfold get_auth_chain_outer. pose proof (numbered_named _ _ Hn) as Hk.
  destruct chunk.*1 as [|k key] eqn:Ek.
  { apply fmap_nil_inv in Ek as ->. by apply chain_result_nil. }
  rewrite <- Ek in *. clear Ek k key.
  destruct (get_cached_spec chunk.*1 chunk.*2 st (proj1 G) Ok Hk) as [Ok' Hget].
  pose proof (get_cached_shorts chunk.*1 st) as Hsh.
  destruct (get_cached_eventid_authchain chunk.*1 st) as [[cached|] st']; cbn [fst snd] in *.
  { unfold chain_result. cbn. rewrite Hsh. split_and!; auto. done. }
  eapply outcome_spec_bind.
  - apply (try_fold_spec _ (fun pre => chain_result st' pre.*2)); [by apply chain_result_nil; rewrite ?Hsh|].
    intros pre [s e] post acc Hl Hacc. rewrite fmap_app. cbn [fmap list_fmap snd].
    assert ((s, e) ∈ chunk) as Hin by (rewrite <- (reorder_perm _ "chunk"), Hl; set_solver).
    eapply outcome_spec_mono; [apply chain_of_event_spec; [done|rewrite Hsh; by apply Hn]|done|].
    intros err. apply chain_error_mono. intros x ->%list_elem_of_singleton.
    by apply (list_elem_of_fmap_2 snd chunk (s, e)).
  - intros [c st''] (G'' & X'' & Ok'' & Hc). cbn [fst snd] in *. rewrite Hsh in X''.
    assert (chain_for (shorts st'') chunk.*2 (sort_dedup c)) as Hc'.
    { eapply chain_for_ext; [| |exact Hc]; intros x; [by rewrite reorder_perm|by rewrite elem_of_sort_dedup]. }
    split_and!; cbn; [done..| |done]. eapply cache_put_ok; [done| |done]. by eapply named_extends.
Qed.

Lemma elem_of_bucket starting_ids n s e :
  (s, e) ∈ bucket starting_ids n <-> (s, e) ∈ starting_ids /\ (s mod 50)%Z = Z.of_nat n.
Proof.
  unfold bucket. rewrite merge_sort_Permutation, elem_of_elements, elem_of_list_to_set,
    list_elem_of_filter. cbn. naive_solver.
Qed.

(** Every starting event is in a bucket. *)
Lemma elem_of_buckets (starting_ids : list (Z * string)) e :
  e ∈ mjoin ((fun b => b.*2) <$> (bucket starting_ids <$> List.seq 0 NUM_BUCKETS)) <-> e ∈ starting_ids.*2.
Proof.
  rewrite list_elem_of_join. split.
  - intros (l & He & (b & -> & (n & -> & _)%list_elem_of_fmap)%list_elem_of_fmap).
    apply list_elem_of_fmap in He as ([s x] & -> & [? _]%elem_of_bucket).
    by apply (list_elem_of_fmap_2 snd _ (s, x)).
  - intros ([s x] & -> & He)%list_elem_of_fmap. cbn [snd].
    assert (0 <= s mod 50 < 50)%Z by (apply Z.mod_pos_bound; lia).
    set (n := Z.to_nat (s mod 50)).
    exists (bucket starting_ids n).*2. split.
    + apply (list_elem_of_fmap_2 snd _ (s, x)). apply elem_of_bucket. split; [done|]. unfold n. lia.
    + apply list_elem_of_fmap. exists (bucket starting_ids n). split; [done|]. apply list_elem_of_fmap.
      exists n. split; [done|]. apply list_elem_of_In, in_seq. unfold n, NUM_BUCKETS. lia.
Qed.

Lemma numbered_extends i i' chunk : extends i i' -> numbered_events i chunk -> numbered_events i' chunk.
Proof. intros He Hn s e ?%Hn. auto. Qed.

Lemma chain_result_step st0 st es1 es2 c1 c2 st' :
  chain_result st0 es1 (c1, st) -> chain_result st es2 (c2, st') ->
  chain_result st0 (es1 ++ es2) (c1 ++ c2, st').
Proof.
  intros (_ & X1 & _ & C1) (G2 & X2 & Ok2 & C2). cbn in *. split_and!; cbn; [done|by trans (shorts st)|done|].
  apply chain_for_app; [by eapply chain_for_extends|done].
Qed.

Lemma buckets_spec st (bs : list (list (Z * string))) :
  good U (shorts st) -> chains_ok st -> (forall b, b ∈ bs -> numbered_events (shorts st) b) ->
  outcome_spec (try_fold (chain_of_bucket pdus room) ([], st) bs)
    (chain_result st (mjoin ((fun b => b.*2) <$> bs)))
    (chain_error pdus room (mjoin ((fun b => b.*2) <$> bs))).
Proof.
  intros G Ok Hn. apply (try_fold_spec _ (fun pre => chain_result st (mjoin ((fun b => b.*2) <$> pre)))).
  - by apply chain_result_nil.
  - intros pre b post [full st'] -> R. pose proof R as (G' & X' & Ok' & _).
    unfold chain_of_bucket. eapply outcome_spec_bind.
    + eapply outcome_spec_errors;
        [apply outer_spec; [done..|eapply numbered_extends; [done|apply Hn; set_solver]]|].
      intros err. apply chain_error_mono. intros e He. apply list_elem_of_join. exists b.*2.
      split; [done|]. apply list_elem_of_fmap_2. set_solver.
    + intros [c st''] R2. pose proof (chain_result_step _ _ _ _ _ _ _ R R2) as (G3 & X3 & Ok3 & C3).
      split_and!; [done..|]. cbn in *. eapply chain_for_ext; [|done|exact C3]. intros e.
      rewrite fmap_app, join_app, !elem_of_app. cbn. by rewrite app_nil_r.
Qed.

Lemma zip_named i es ss :
  named i es ss -> numbered_events i (zip ss es) /\ (zip ss es).*2 = es.
Proof.
  intros Hn. split; [|apply snd_zip; by rewrite (Forall2_length _ _ _ Hn)].
  intros s e (k & Hk)%list_elem_of_lookup. apply lookup_zip_Some in Hk as [Hs He].
  by destruct (Forall2_lookup_l _ _ _ k e Hn He) as (s' & ? & ?); simplify_eq.
Qed.

(** The whole computation. *)
Lemma get_auth_chain_spec starts st :
  good U (shorts st) -> (Z.of_nat (length starts) <= free (shorts st))%Z -> chains_ok st -> NoDup starts ->
  (forall e, e ∈ starts -> e ∈ U) ->
  outcome_spec (get_auth_chain pdus room starts st)
    (fun r => StronglySorted Z.lt r.1 /\ chain_result st starts r) (chain_error pdus room starts).
Proof.
  intros G Hfree Ok Hnd HU. unfold get_auth_chain. pose proof G as (Oki & Hid & _).
  rewrite multi_get_or_create_seq; [|done..|apply Forall_forall; auto|done].
  eapply outcome_spec_bind.
  { eapply outcome_spec_errors; [by apply (number_all_good U)|done]. }
  intros [ss i] (G1 & X1 & N1). destruct (zip_named _ _ _ N1) as [Hz Hz2].
  set (bs := reorder "buckets" _). set (st1 := MkChains i (authchain st) (ram st)).
  assert (forall e, e ∈ mjoin ((fun b => b.*2) <$> bs) <-> e ∈ starts) as Hbs.
  { intros e. rewrite <- Hz2, <- elem_of_buckets, !list_elem_of_join. unfold bs.
    setoid_rewrite list_elem_of_fmap. setoid_rewrite elem_of_reorder. naive_solver. }
  eapply outcome_spec_bind.
  - eapply outcome_spec_errors; [apply (buckets_spec st1)|].
    + done.
    + by apply chains_ok_extends.
    + unfold bs. intros b (n & -> & _)%elem_of_reorder%list_elem_of_fmap s e [? _]%elem_of_bucket. by apply Hz.
    + intros err. apply chain_error_mono. intros e. apply Hbs.
  - intros [c st2] (G2 & X2 & Ok2 & C2). split; [apply sort_dedup_sorted|]. cbn in *.
    split_and!; cbn; [done|by trans i|done|].
    eapply chain_for_ext; [exact Hbs| |exact C2]. intros s. by rewrite elem_of_sort_dedup.
Qed.

End chain_facts.

(** ** The short id service keeps its promises *)

Definition unwrap {A} (o : outcome ShortError A) : outcome ChainError A :=
  match o with Done a => Done a | OutOfFuel => OutOfFuel | _ => Panic end.

Definition found {A} (o : outcome ShortError A) : option A :=
  match o with Done a => Some a | _ => None end.

Section service.
Context (debug : bool).

Definition short_lookup (db : Db) (a : string) : option Z := found (get_shorteventid debug db (str a)).
Definition short_get_or_create (db : Db) (a : string) : outcome ChainError (Z * Db) :=
  unwrap (get_or_create_shorteventid debug db (str a)).

Lemma short_lookup_Some db a s :
  short_lookup db a = Some s <-> get_shorteventid debug db (str a) = Done s.
Proof. unfold short_lookup, found. destruct (get_shorteventid _ _ _); naive_solver. Qed.

Lemma short_get_or_create_known db a s :
  short_lookup db a = Some s -> short_get_or_create db a = Done (s, db).
Proof.
  intros E%short_lookup_Some. unfold short_get_or_create, get_or_create_shorteventid, or_create. by rewrite E.
Qed.

Lemma short_get_or_create_new db a :
  short_inv db -> utf8_valid (str a) = true -> short_lookup db a = None -> (0 < u64_max - counter db)%Z ->
  exists s db', short_get_or_create db a = Done (s, db') /\ short_inv db' /\
    (u64_max - counter db' = u64_max - counter db - 1)%Z /\
    short_lookup db' a = Some s /\ forall b, b <> a -> short_lookup db' b = short_lookup db b.
Proof.
  intros I Ha Hn Hc.
  destruct (event_creates debug db (str a) I) as (s & db' & E & I' & Hg & _ & Hd); [lia|done|].
  pose proof (event_creates_table debug db (str a) s db' I E) as Ht.
  exists s, db'. unfold short_get_or_create. rewrite E. split_and!; [done..| |by apply short_lookup_Some|].
  - destruct Hd as [[Hs%short_lookup_Some _]|[-> ->]]; [congruence|lia].
  - intros b Hb. unfold short_lookup, get_shorteventid, get_u64. rewrite Ht; [done|].
    intros ?%(inj str). done.
Qed.

Lemma unwrap_number_all es db shorts :
  unwrap (try_fold (number_one debug) (shorts, db) (str <$> es)) =
  try_fold (fun '(ss, i) e => '(s, i) ← short_get_or_create i e; Done (ss ++ [s], i)) (shorts, db) es.
Proof.
  revert db shorts. induction es as [|e es IH]; intros db shorts; [done|]. cbn [fmap list_fmap try_fold number_one].
  unfold short_get_or_create.
  destruct (get_or_create_shorteventid debug db (str e)) as [[s db']| | |]; cbn; [apply IH|done..].
Qed.

#[global, program] Instance short_service : ShortIds := {|
  ids := Db;
  ids_ok := short_inv;
  id_ok := fun a => utf8_valid (str a) = true;
  lookup_id := short_lookup;
  event_of := fun db s => unstr <$> found (get_eventid_from_short debug db s);
  get_or_create_id := short_get_or_create;
  multi_get_or_create := fun db es => unwrap (multi_get_or_create_shorteventid debug db (str <$> es));
  free := fun db => (u64_max - counter db)%Z |}.
Next Obligation. intros db a s I E%short_lookup_Some. by apply get_shorteventid_spec in E as [_ ?]. Qed.
Next Obligation.
  intros db a s I E%short_lookup_Some. cbn. rewrite (get_eventid_spec debug db (str a) s I E). cbn.
  by rewrite unstr_str.
Qed.
Next Obligation. intros db a s I. apply short_get_or_create_known. Qed.
Next Obligation. intros db a. apply short_get_or_create_new. Qed.
Next Obligation.
  intros db es I Hnd Hok Hf. cbn. unfold multi_get_or_create_shorteventid.
  rewrite number_items_sequential; [apply unwrap_number_all|done|by apply (NoDup_fmap_2 str)| | |done].
  - by apply Forall_fmap.
  - rewrite length_fmap. lia.
Qed.

End service.

(** ** Claims *)

(** The state before a request: consistent caches and numbers, enough numbers
    left, and each starting event given once. *)
Definition ready `{ShortIds} `{C : chain_cache} (pdus : gmap string Event) (starts : list string)
    (st : Chains) : Prop :=
  good (list_to_set starts ∪ all_auth pdus) (shorts st) /\
  (Z.of_nat (length starts) <= free (shorts st))%Z /\ chains_ok pdus st /\ NoDup starts.

Lemma get_auth_chain_ready `{ShortIds} {sched : Schedule} `{C : chain_cache} pdus room starts st :
  ready pdus starts st ->
  outcome_spec (get_auth_chain pdus room starts st)
    (fun r => StronglySorted Z.lt r.1 /\ chain_result pdus (list_to_set starts ∪ all_auth pdus) st starts r)
    (chain_error pdus room starts).
Proof. intros (G & Hf & Ok & Hnd). apply get_auth_chain_spec; try done; set_solver. Qed.

(** C14. The auth chain of distinct events, when the chains that are cached are
    those of the events as they are: whichever of them are cached, on disk or in
    memory, and in whatever order the groups are worked off, the call ends with the numbers of exactly the
    auth ancestors of the starting events, sorted and without repetition, and
    leaves the caches exact and the numbers consistent; or it refuses because an event
    reached from them is in another room. *)
Theorem auth_chain_exact `{ShortIds} {sched : Schedule} `{C : chain_cache} pdus room starts st :
  ready pdus starts st ->
  outcome_spec (get_auth_chain pdus room starts st)
    (fun '(chain, st') => StronglySorted Z.lt chain /\ chain_for pdus (shorts st') starts chain /\
       chains_ok pdus st' /\ ids_ok (shorts st') /\ extends (shorts st) (shorts st'))
    (chain_error pdus room starts).
Proof.
  intros R. eapply outcome_spec_mono; [by apply get_auth_chain_ready| |done].
  intros [chain st'] (? & (? & _) & ? & ? & ?). done.
Qed.

(** [event_ids_iter] yields exactly the auth ancestors of the starting
    events, each once: no number it computed is lost on the way back to event
    ids. *)
Theorem event_ids_exact `{ShortIds} {sched : Schedule} `{C : chain_cache} pdus room starts st :
  ready pdus starts st ->
  outcome_spec (event_ids_iter pdus room starts st)
    (fun r => NoDup r.1 /\ forall a, a ∈ r.1 <-> exists e, e ∈ starts /\ tc (auth_parent pdus) e a)
    (chain_error pdus room starts).
Proof.
  intros R. unfold event_ids_iter.
  eapply outcome_spec_bind; [by apply get_auth_chain_ready|].
  intros [chain st'] (Hs & (Ok & _) & _ & _ & [C1 C2]). cbn in *.
  assert (forall s a, s ∈ chain -> event_of (shorts st') s = Some a <-> lookup_id (shorts st') a = Some s) as Hev.
  { intros s a (e & b & _ & _ & Hb)%C2. pose proof (event_of_lookup _ _ _ Ok Hb). naive_solver eauto using event_of_lookup. }
  split.
  - apply sorted_NoDup in Hs. clear C1 C2 R. revert Hev. induction Hs as [|s l Hn Hnd IH]; intros Hev; [constructor|].
    cbn. destruct (event_of (shorts st') s) as [a|] eqn:E; [|apply IH; set_solver].
    constructor; [|apply IH; set_solver]. intros (t & Ht & Ea)%list_elem_of_omap.
    apply Hev in E; [|set_solver]. apply Hev in Ea; [|set_solver]. congruence.
  - intros a. rewrite list_elem_of_omap. split.
    + intros (s & Hin & Ha). apply Hev in Ha; [|done]. destruct (C2 s Hin) as (e & b & ? & ? & Hb).
      exists e. by rewrite (lookup_id_inj (shorts st') a b s).
    + intros (e & He & Ha). destruct (C1 e a He Ha) as (s & Hl & Hin). exists s. by rewrite Hev.
Qed.

(** ** Witnesses *)

(** The small room, an empty service and a cache of one entry. *)
Definition toy_pdus : gmap string Event :=
  list_to_map ((fun e => (Matrix.event_id e, e)) <$> [ev_create; ev_alice; ev_levels; ev_rules]).
#[local] Instance toy_ids : ShortIds := short_service true.
#[local] Instance toy_cache : chain_cache := one_entry (list Z) (list Z).
#[local] Instance toy_order : Schedule := in_order.
Definition fresh_chains : Chains := MkChains (empty_db : ids) ∅ (None : cache).

Lemma toy_ready : ready toy_pdus ["$rules"] fresh_chains.
Proof.
  split_and!; [split_and!| | |].
  - apply empty_db_inv.
  - assert (set_Forall (fun a => utf8_valid (str a) = true) (list_to_set ["$rules"] ∪ all_auth toy_pdus))
      as F by (apply (bool_decide_unpack _); by vm_compute).
    exact F.
  - by vm_compute.
  - by vm_compute.
  - split; intros ? ? E; [done|]. cbn in E. by rewrite lookup_empty in E.
  - apply NoDup_singleton.
Qed.

Lemma auth_chain_exact_witness :
  match get_auth_chain toy_pdus "!room:a" ["$rules"] fresh_chains with
  | Done (chain, st') => chain = [2; 3; 4]%Z /\ chain_for toy_pdus (shorts st') ["$rules"] chain
  | _ => False
  end.
Proof.
  pose proof (auth_chain_exact toy_pdus "!room:a" ["$rules"] fresh_chains toy_ready) as T.
  assert (match get_auth_chain toy_pdus "!room:a" ["$rules"] fresh_chains with
          | Done (chain, _) => bool_decide (chain = [2; 3; 4]%Z) | _ => false end = true) as R by by vm_compute.
  destruct (get_auth_chain toy_pdus "!room:a" ["$rules"] fresh_chains) as [[chain st']| | |]; [|done..].
  destruct T as (_ & T & _). split; [by apply bool_decide_eq_true in R|exact T].
Defined.

Lemma event_ids_exact_witness :
  match event_ids_iter toy_pdus "!room:a" ["$rules"] fresh_chains with
  | Done (es, _) => forall a, a ∈ es <-> exists e, e ∈ ["$rules"] /\ tc (auth_parent toy_pdus) e a
  | _ => False
  end.
Proof.
  pose proof (event_ids_exact toy_pdus "!room:a" ["$rules"] fresh_chains toy_ready) as T.
  assert (match event_ids_iter toy_pdus "!room:a" ["$rules"] fresh_chains with
          | Done _ => true | _ => false end = true) as R by by vm_compute.
  destruct (event_ids_iter toy_pdus "!room:a" ["$rules"] fresh_chains) as [[es st']| | |]; [|done..].
  destruct T as [_ T]. exact T.
Defined.

(** An event that names [$alice] as its auth event, before and after that one
    is known. *)
Definition ev_late := toy_event "$late" "@alice:a" 7 (OtherType "m.room.topic") "topic" (Some "") ["$rules"] ["$alice"].
Definition pdus_before : gmap string Event := {[ "$late" := ev_late ]}.
Definition pdus_after : gmap string Event := <["$late" := ev_late]> toy_pdus.

(** A chain computed while one of its events is missing is cached as if it
    were whole: after the missing event has arrived, the same request still
    returns the old chain, without that event's ancestors, where a fresh cache
    gives the whole chain. *)
Theorem incomplete_chain_stays_cached :
  (exists st, event_ids_iter pdus_before "!room:a" ["$late"] fresh_chains = Done (["$alice"], st) /\
     fst <$> event_ids_iter pdus_after "!room:a" ["$late"] st = Done ["$alice"]) /\
  fst <$> event_ids_iter pdus_after "!room:a" ["$late"] fresh_chains = Done ["$alice"; "$create"].
Proof.
  split; [|apply returns_Done; by vm_compute].
  assert (match event_ids_iter pdus_before "!room:a" ["$late"] fresh_chains with
          | Done (es, st) => bool_decide (es = ["$alice"]) &&
              returns (fst <$> event_ids_iter pdus_after "!room:a" ["$late"] st) ["$alice"]
          | _ => false end = true) as R by by vm_compute.
  destruct (event_ids_iter pdus_before "!room:a" ["$late"] fresh_chains) as [[es st]| | |]; [|done..].
  apply andb_true_iff in R as [->%bool_decide_eq_true R2]. exists st. split; [done|by apply returns_Done].
Qed.
