(* ===== verification/StateAccessor.v ===== *)
(** * Reading room states

    Models [src/service/rooms/state_accessor] ([state.rs], [room_state.rs],
    [server_can.rs], [user_can.rs], [mod.rs]) with what it reads of
    [src/service/rooms/state/mod.rs]: the state of a room or of the room before
    an event, by type and key, and what follows from it for who may see and
    redact events.

    A lookup changes nothing but the cache of loaded states, so an accessor is a
    computation over the compressor's [Store]; the database is an argument. *)

From stdpp Require Import prelude gmap strings list sorting.
From Stdlib Require Import ZArith Lia.
From Stdlib Require Import Strings.Byte.
From S2P Require Import Prelude MachineInt Matrix DbCodec DbMap Effects Short World AccountData StateCache Timeline.
From S2P Require Import StateCompressor.

Inductive HistoryVisibility := VInvited | VJoined | VShared | VWorldReadable | VCustom.
Inductive GuestAccess := CanJoin | GuestForbidden | GuestCustom.

#[export] Instance HistoryVisibility_eq_dec : EqDecision HistoryVisibility.
Proof. solve_decision. Defined.
#[export] Instance GuestAccess_eq_dec : EqDecision GuestAccess.
Proof. solve_decision. Defined.

(** What the accessors use of the crates ruma and serde_json: the wire name of
    an event type, the getters of an event that was read, the contents they
    decode, and the two questions they ask of power levels. *)
Class RoomRuma := {
  type_text : EventType -> bytes;
  pdu_event : Pdu -> Event;
  de_member : string -> option Matrix.MembershipState;
  de_history_visibility : string -> option HistoryVisibility;
  de_guest_access : string -> option GuestAccess;
  de_join_rules : string -> option JoinRule;
  de_create_type : string -> option (option string);
  de_create_version : string -> option string;
  de_alias : string -> option (option string);
  de_name : string -> option string;
  de_topic : string -> option string;
  de_avatar : string -> option string;
  de_encryption : string -> option string;
  de_power_levels : string -> option RoomPowerLevelsEventContent;
  can_redact_other : RoomPowerLevelsEventContent -> bytes -> bool;
  can_redact_own : RoomPowerLevelsEventContent -> bytes -> bool }.

Inductive RoomError :=
| RoomShort (e : ShortError) | RoomDb (e : DbError) | RoomCodec (e : CodecError)
| RoomTimeline (e : TimelineError) | RoomCompressor (e : CompressorError) | RoomMembers (e : MemberError)
| MissingState | NotInState | NoRoomState | BadContent | NoSuchField
| Forbidden | NoCreateOrPowerLevels | NoCreateEvent | NoAuthTypes.

Definition fail_with {E E' A} (f : E -> E') (o : outcome E A) : outcome E' A :=
  match o with Done a => Done a | Fail e => Fail (f e) | Panic => Panic | OutOfFuel => OutOfFuel end.

(** [.ok()] *)
Definition ok {E E' A} (o : outcome E A) : outcome E' (option A) :=
  match o with Done a => Done (Some a) | Fail _ => Done None | Panic => Panic | OutOfFuel => OutOfFuel end.

Definition RoomHistoryVisibility := OtherType "m.room.history_visibility".
Definition RoomGuestAccess := OtherType "m.room.guest_access".
Definition RoomCanonicalAlias := OtherType "m.room.canonical_alias".
Definition RoomName := OtherType "m.room.name".
Definition RoomTopic := OtherType "m.room.topic".
Definition RoomAvatar := OtherType "m.room.avatar".
Definition RoomEncryption := OtherType "m.room.encryption".
Definition RoomServerAcl := OtherType "m.room.server_acl".
Definition SpaceChild := OtherType "m.space.child".

Section accessor.
Context (debug : bool) {E : Engine} {I : Ids} {J : PduJson} {RR : RoomRuma} {sched : Schedule}.
Context {L : LruCache Z ShortStateInfoVec} (fuel : nat) (first : bool).

Abbreviation acc := (eff (@Store L) RoomError).
Implicit Types (w : World) (h : Z).

(** [state.get_room_shortstatehash] *)
Definition get_room_shortstatehash (room_id : bytes) w : outcome ShortError Z :=
  get_u64 debug (maps w roomid_shortstatehash) room_id.

(** ** [state.rs] *)

Definition load_full_state h : acc CompressedState := fun st =>
  match load_shortstatehash_info debug fuel h st with
  | Done (stack, st') => (from_option (Done ∘ full_state) Panic (head stack), st')
  | Fail _ => (Fail MissingState, st)
  | Panic => (Panic, st)
  | OutOfFuel => (OutOfFuel, st)
  end.

(** An entry is an array of 16 bytes: it always parses. *)
Definition parse_entry (e : CompressedStateEvent) : outcome RoomError (Z * Z) :=
  match parse_compressed_state_event e with Done r => Done r | _ => Panic end.

(** [full_state.range(start..=end)] *)
Definition range (start fin : bytes) (s : CompressedState) : list CompressedStateEvent :=
  filter (fun e => ord_le start e /\ ord_le e fin) (iter s).

Definition first_with_key (shortstatekey : Z) (s : CompressedState) : option CompressedStateEvent :=
  head (range (compress_state_event shortstatekey 0) (compress_state_event shortstatekey u64_max) s).

Definition state_contains_shortstatekey h (shortstatekey : Z) : acc bool :=
  full_state ← attempt (load_full_state h);
  mret (match full_state with
        | inr s => bool_decide (is_Some (first_with_key shortstatekey s))
        | inl _ => false
        end).

Definition state_contains w h (ty : EventType) (state_key : bytes) : acc bool :=
  shortstatekey ← attempt (lift_eff (fail_with RoomShort
                    (get_shortstatekey debug (globals w) (type_text ty) state_key)));
  match shortstatekey with
  | inr k => state_contains_shortstatekey h k
  | inl _ => mret false
  end.

Definition state_get_shortid w h (ty : EventType) (state_key : bytes) : acc Z :=
  shortstatekey ← lift_eff (fail_with RoomShort
                    (get_shortstatekey debug (globals w) (type_text ty) state_key));
  full_state ← load_full_state h;
  match first_with_key shortstatekey full_state with
  | Some e => '(_, shorteventid) ← lift_eff (parse_entry e); mret shorteventid
  | None => throw NotInState
  end.

Definition state_get_id w h (ty : EventType) (state_key : bytes) : acc bytes :=
  shorteventid ← state_get_shortid w h ty state_key;
  lift_eff (fail_with RoomShort (get_eventid_from_short debug (globals w) shorteventid)).

(** [timeline.get_pdu] *)
Definition room_pdu w (event_id : bytes) : outcome RoomError Event :=
  pdu ← fail_with RoomTimeline (get_pdu first event_id w); Done (pdu_event pdu).

Definition state_get w h (ty : EventType) (state_key : bytes) : acc Event :=
  event_id ← state_get_id w h ty state_key; lift_eff (room_pdu w event_id).

Definition get_content {T} (de : string -> option T) (e : Event) : outcome RoomError T :=
  ok_or BadContent (de (content e)).

Definition state_get_content {T} (de : string -> option T) w h (ty : EventType) (state_key : bytes) : acc T :=
  event ← state_get w h ty state_key; lift_eff (get_content de event).

(** [fut.await.map_or(default, f)] *)
Definition map_or {A B} (d : B) (f : A -> B) (m : acc A) : acc B :=
  r ← attempt m; mret (match r with inr a => f a | inl _ => d end).

Definition user_membership_at w h (user_id : bytes) : acc Matrix.MembershipState :=
  map_or Matrix.Leave id (state_get_content de_member w h RoomMember user_id).

Definition user_was_joined w h (user_id : bytes) : acc bool :=
  m ← user_membership_at w h user_id; mret (bool_decide (m = Matrix.Join)).

Definition user_was_invited w h (user_id : bytes) : acc bool :=
  s ← user_membership_at w h user_id;
  mret (bool_decide (s = Matrix.Join) || bool_decide (s = Matrix.Invite)).

(** The items of a state; an error item stands alone. *)
Definition state_full_shortids h : acc (list (Z * Z)) :=
  full_state ← load_full_state h;
  lift_eff (try_map parse_entry (iter full_state)).

(** The stream after [ignore_err]. *)
Definition shortids_or_none h : acc (list (Z * Z)) := map_or [] id (state_full_shortids h).

(** [filter_map(Result::ok)] over lookups. *)
Definition oks {A} (l : list (outcome ShortError A)) : acc (list A) :=
  lift_eff (fail_with RoomShort (ignore_err l)).

(** Lookups zipped with what they are for. *)
Definition keep_found {A B} (r : outcome ShortError A) (b : B) : outcome ShortError (A * B) :=
  a ← r; Done (a, b).

Definition state_full_ids w h : acc (list (Z * bytes)) :=
  shortids ← shortids_or_none h;
  l ← oks (zip_with keep_found (multi_get_eventid_from_short debug (globals w) shortids.*2) shortids.*1);
  mret ((fun '(event_id, shortstatekey) => (shortstatekey, event_id)) <$> (l : list (bytes * Z))).

(** Lookups of events that run at once ([broad_filter_map]). *)
Definition found_pdus (site : string) w (event_ids : list bytes) : acc (list Event) :=
  lift_eff (ignore_err (room_pdu w <$> reorder site event_ids)).

Definition state_full_pdus w h : acc (list Event) :=
  shortids ← shortids_or_none h;
  event_ids ← oks (multi_get_eventid_from_short debug (globals w) shortids.*2);
  found_pdus "state_full_pdus" w event_ids.

Definition state_full w h : acc (list ((EventType * bytes) * Event)) :=
  pdus ← state_full_pdus w h;
  mret (omap (fun pdu => k ← state_key pdu; Some ((event_type pdu, str k), pdu)) (pdus : list Event)).

(** The keys of one type with the number of their event. *)
Definition state_keys_with_shortids w h (ty : EventType) : acc (list (bytes * Z)) :=
  short_ids ← shortids_or_none h;
  l ← oks (zip_with keep_found (multi_get_statekey_from_short debug (globals w) short_ids.*1) short_ids.*2);
  mret (omap (fun '((ty', state_key), event_id) =>
                if decide (ty' = type_text ty) then Some (state_key, event_id) else None)
             (l : list ((bytes * bytes) * Z))).

Definition state_keys_with_ids w h (ty : EventType) : acc (list (bytes * bytes)) :=
  l ← state_keys_with_shortids w h ty;
  l ← oks (zip_with keep_found (multi_get_eventid_from_short debug (globals w) (l : list (bytes * Z)).*2) l.*1);
  mret ((fun '(eid, sk) => (sk, eid)) <$> (l : list (bytes * bytes))).

Definition state_keys w h (ty : EventType) : acc (list bytes) :=
  short_ids ← shortids_or_none h;
  l ← oks (multi_get_statekey_from_short debug (globals w) short_ids.*1);
  mret (omap (fun '(ty', state_key) => if decide (ty' = type_text ty) then Some state_key else None)
             (l : list (bytes * bytes))).

Definition state_contains_type w h (ty : EventType) : acc bool :=
  keys ← state_keys w h ty; mret (bool_decide (is_Some (head (keys : list bytes)))).

(** [try_join] of the two states; nothing if either is missing. *)
Definition state_added (h0 h1 : Z) : acc (list (Z * Z)) :=
  r ← attempt (a ← load_full_state h0; b ← load_full_state h1; mret (iter (b ∖ a)));
  lift_eff (try_map parse_entry (match r with inr l => l | inl _ => [] end)).

Definition state_removed (h0 h1 : Z) : acc (list (Z * Z)) := state_added h1 h0.

Definition pdu_shortstatehash (event_id : bytes) w : outcome RoomError Z :=
  shorteventid ← fail_with RoomShort (get_shorteventid debug (globals w) event_id);
  fail_with RoomDb
    (de_count debug (aqry debug 8 (maps w shorteventid_shortstatehash) (VU64 shorteventid))).

(** ** [room_state.rs] *)

(** The current state of the room, for [map_err("Missing state for …")]. *)
Definition room_hash w (room_id : bytes) (e : ShortError -> RoomError) : acc Z :=
  lift_eff (fail_with e (get_room_shortstatehash room_id w)).

Definition room_state_full w (room_id : bytes) : acc (list ((EventType * bytes) * Event)) :=
  h ← room_hash w room_id (fun _ => NoRoomState); state_full w h.

Definition room_state_full_pdus w (room_id : bytes) : acc (list Event) :=
  h ← room_hash w room_id (fun _ => NoRoomState); state_full_pdus w h.

Definition room_state_get_id w (room_id : bytes) (ty : EventType) (state_key : bytes) : acc bytes :=
  h ← room_hash w room_id RoomShort; state_get_id w h ty state_key.

Definition room_state_get w (room_id : bytes) (ty : EventType) (state_key : bytes) : acc Event :=
  h ← room_hash w room_id RoomShort; state_get w h ty state_key.

Definition room_state_get_content {T} (de : string -> option T) w (room_id : bytes) (ty : EventType)
    (state_key : bytes) : acc T :=
  event ← room_state_get w room_id ty state_key; lift_eff (get_content de event).

(** ** [mod.rs] *)

Definition get_name w (room_id : bytes) : acc string := room_state_get_content de_name w room_id RoomName [].
Definition get_avatar w (room_id : bytes) : acc (option string) :=
  map_or None Some (room_state_get_content de_avatar w room_id RoomAvatar []).
Definition get_member w (room_id user_id : bytes) : acc Matrix.MembershipState :=
  room_state_get_content de_member w room_id RoomMember user_id.
Definition is_world_readable w (room_id : bytes) : acc bool :=
  map_or false (fun v => bool_decide (v = VWorldReadable))
    (room_state_get_content de_history_visibility w room_id RoomHistoryVisibility []).
Definition guest_can_join w (room_id : bytes) : acc bool :=
  map_or false (fun g => bool_decide (g = CanJoin))
    (room_state_get_content de_guest_access w room_id RoomGuestAccess []).
Definition get_canonical_alias w (room_id : bytes) : acc string :=
  c ← room_state_get_content de_alias w room_id RoomCanonicalAlias []; lift_eff (ok_or NoSuchField c).
Definition get_room_topic w (room_id : bytes) : acc string :=
  room_state_get_content de_topic w room_id RoomTopic [].
Definition get_join_rules w (room_id : bytes) : acc JoinRule :=
  map_or RuleInvite id (room_state_get_content de_join_rules w room_id RoomJoinRules []).
Definition get_room_type w (room_id : bytes) : acc string :=
  c ← room_state_get_content de_create_type w room_id RoomCreate []; lift_eff (ok_or NoSuchField c).
Definition get_room_encryption w (room_id : bytes) : acc string :=
  room_state_get_content de_encryption w room_id RoomEncryption [].
Definition is_encrypted_room w (room_id : bytes) : acc bool :=
  map_or false (fun _ => true) (room_state_get w room_id RoomEncryption []).

(** [state.get_room_version] *)
Definition get_room_version w (room_id : bytes) : acc string :=
  v ← attempt (room_state_get_content de_create_version w room_id RoomCreate []);
  match v with inr v => mret v | inl _ => throw NoCreateEvent end.

(** ** [server_can.rs] *)

(** [any] over a stream with an asynchronous predicate. *)
Fixpoint any_acc {A} (f : A -> acc bool) (l : list A) : acc bool :=
  match l with
  | [] => mret false
  | a :: l => b ← f a; if (b : bool) then mret true else any_acc f l
  end.

Definition visibility_at w h : acc HistoryVisibility :=
  map_or VShared id (state_get_content de_history_visibility w h RoomHistoryVisibility []).

Definition server_can_see_event (origin room_id event_id : bytes) w : acc bool :=
  h ← lift_eff (ok (pdu_shortstatehash event_id w));
  match h with
  | None => mret true
  | Some shortstatehash =>
      history_visibility ← visibility_at w shortstatehash;
      members ← lift_eff (fail_with RoomCodec (room_members debug room_id w));
      let current_server_members := filter (fun m => server_name m = origin) (members : list bytes) in
      match history_visibility with
      | VInvited => any_acc (user_was_invited w shortstatehash) current_server_members
      | VJoined => any_acc (user_was_joined w shortstatehash) current_server_members
      | VWorldReadable | VShared | VCustom => mret true
      end
  end.

(** ** [user_can.rs] *)

Definition user_can_see_event (user_id room_id event_id : bytes) w : acc bool :=
  h ← lift_eff (ok (pdu_shortstatehash event_id w));
  match h with
  | None => mret true
  | Some shortstatehash =>
      currently_member ← lift_eff (fail_with RoomCodec (is_joined debug user_id room_id w));
      history_visibility ← visibility_at w shortstatehash;
      match history_visibility with
      | VInvited => user_was_invited w shortstatehash user_id
      | VJoined => user_was_joined w shortstatehash user_id
      | VWorldReadable => mret true
      | VShared | VCustom => mret currently_member
      end
  end.

Definition user_can_see_state_events (user_id room_id : bytes) w : acc bool :=
  joined ← lift_eff (fail_with RoomCodec (is_joined debug user_id room_id w));
  if (joined : bool) then mret true else
  history_visibility ← map_or VShared id
    (room_state_get_content de_history_visibility w room_id RoomHistoryVisibility []);
  match history_visibility with
  | VInvited => lift_eff (fail_with RoomCodec (is_invited debug user_id room_id w))
  | VWorldReadable => mret true
  | _ => mret false
  end.

Definition user_can_redact (redacts sender_id room_id : bytes) (federation : bool) w : acc bool :=
  redacting_event ← lift_eff (ok (room_pdu w redacts));
  let kind := event_type <$> redacting_event in
  let by_sender := from_option (fun e => bool_decide (str (sender e) = sender_id)) false redacting_event in
  if decide (kind = Some RoomCreate) then throw Forbidden else
  if decide (kind = Some RoomServerAcl) then throw Forbidden else
  pl ← attempt (room_state_get_content de_power_levels w room_id RoomPowerLevels []);
  match pl with
  | inr pl_event =>
      mret (can_redact_other pl_event sender_id ||
            can_redact_own pl_event sender_id &&
            match redacting_event with
            | Some e => if federation
                        then bool_decide (server_name (str (sender e)) = server_name sender_id)
                        else bool_decide (str (sender e) = sender_id)
            | None => false
            end)
  | inl _ =>
      room_create ← attempt (room_state_get w room_id RoomCreate []);
      match room_create with
      | inr room_create => mret (bool_decide (str (sender room_create) = sender_id) || by_sender)
      | inl _ => throw NoCreateOrPowerLevels
      end
  end.

End accessor.

(** ** States as maps

    The entries of a state are those of a map from short state keys to short
    event ids: no key has two events. *)

Definition entries_of (S : CompressedState) (m : gmap Z Z) : Prop :=
  (forall e, e ∈ S <-> exists k id, m !! k = Some id /\ e = compress_state_event k id) /\
  forall k id, m !! k = Some id -> is_u64 k /\ k <> 0%Z /\ is_u64 id.

Lemma compress_inj k id k' id' :
  is_u64 k -> is_u64 k' -> is_u64 id -> is_u64 id' ->
  compress_state_event k id = compress_state_event k' id' -> k = k' /\ id = id'.
Proof.
  intros Hk Hk' Hi Hi' Ec. pose proof (compress_parse k id Hk Hi) as P1. rewrite Ec in P1.
  rewrite compress_parse in P1 by done. by injection P1.
Qed.

Lemma in_key_range k k' id :
  is_u64 k -> is_u64 k' -> is_u64 id ->
  ord_le (compress_state_event k 0) (compress_state_event k' id) /\
  ord_le (compress_state_event k' id) (compress_state_event k u64_max) <-> k' = k.
Proof.
  intros Hk Hk' Hi. unfold compress_state_event. rewrite !ord_le_u64 by done. split.
  - intros [[?|[? _]] [?|[? _]]]; lia.
  - intros ->. assert (forall a b, is_u64 a -> is_u64 b -> (a <= b)%Z -> ord_le (u64_to_be_bytes a) (u64_to_be_bytes b)) as Hle.
    { intros a b Ha Hb Hab. rewrite <- (app_nil_r (u64_to_be_bytes a)), <- (app_nil_r (u64_to_be_bytes b)).
      apply ord_le_u64; [done..|]. destruct (decide (a = b)); [right; split; [done|apply ord_le_refl]|left; lia]. }
    split; right; (split; [done|]); apply Hle; width_lia.
Qed.

(** The entry of a key, by whatever test finds it. *)
Lemma head_filter_key S m k (P : CompressedStateEvent -> Prop) `{!forall e, Decision (P e)} :
  entries_of S m -> (forall k' id, is_u64 k' -> is_u64 id -> P (compress_state_event k' id) <-> k' = k) ->
  head (filter P (iter S)) = compress_state_event k <$> (m !! k).
Proof.
  intros [HS Hm] HP. set (l := filter _ _).
  assert (forall e, e ∈ l <-> exists id, m !! k = Some id /\ e = compress_state_event k id) as Hl.
  { intros e. unfold l. rewrite list_elem_of_filter, elem_of_iter, HS. split.
    - intros [Hr (k' & id & Hi & ->)]. destruct (Hm k' id Hi) as (? & _ & ?). apply HP in Hr as ->; [|done..]. eauto.
    - intros (id & Hi & ->). split; [|eauto]. destruct (Hm k id Hi) as (? & _ & ?). by apply HP. }
  clearbody l. destruct (m !! k) as [id|] eqn:Ek; cbn.
  - destruct l as [|e l].
    + destruct (not_elem_of_nil (compress_state_event k id)). apply Hl. eauto.
    + destruct (proj1 (Hl e)) as (id' & [= <-] & ->); [by left|done].
  - destruct l as [|e l]; [done|]. destruct (proj1 (Hl e)) as (? & ? & _); [by left|done].
Qed.

(** The range scan finds the entry of the key, if there is one. *)
Lemma first_with_key_exact S m k :
  entries_of S m -> is_u64 k -> first_with_key k S = compress_state_event k <$> (m !! k).
Proof. intros He Hk. apply head_filter_key; [done|]. intros. by apply in_key_range. Qed.

Section reading.
Context (debug : bool) {E : Engine} {I : Ids} {J : PduJson} {RR : RoomRuma} {sched : Schedule}.
Context {L : LruCache Z ShortStateInfoVec} (first : bool).
Implicit Types (w : World) (st : Store) (S : CompressedState).

(** Loading leaves the stored states as they are and the cache true to them. *)
Definition same_states st st' : Prop := statediff st' = statediff st /\ cache_ok debug st'.

Lemma load_full_state_holds st h S :
  cache_ok debug st -> holds debug st h S ->
  exists st', load_full_state debug 4 h st = (Done S, st') /\ same_states st st'.
Proof.
  intros Hc (l & R & HS & Hl). destruct (load_represents debug 4 h l st Hc R Hl) as (st' & Eq & Hs & Hk).
  exists st'. unfold load_full_state. rewrite Eq. split; [|done].
  destruct R as (_ & _ & Hh). destruct l as [|i l]; [done|]. cbn in *. by rewrite HS.
Qed.

Lemma state_get_shortid_holds w h S m ty sk k st :
  cache_ok debug st -> holds debug st h S -> entries_of S m ->
  get_shortstatekey debug (globals w) (type_text ty) sk = Done k -> is_u64 k ->
  exists st', same_states st st' /\ state_get_shortid debug 4 w h ty sk st =
    (match m !! k with Some id => Done id | None => Fail NotInState end, st').
Proof.
  intros Hc Hh He Ek Hk. destruct (load_full_state_holds st h S Hc Hh) as (st' & El & Hs).
  exists st'. split; [done|]. unfold state_get_shortid, mbind, eff_bind, lift_eff. rewrite Ek. cbn [fail_with].
  rewrite El, (first_with_key_exact S m k He Hk). destruct (m !! k) as [id|] eqn:Em; cbn; [|done].
  unfold parse_entry. destruct (proj2 He k id Em) as (? & _ & ?). by rewrite compress_parse.
Qed.

(** The event of the key [(ty, sk)] in the state [S] is [e]. *)
Definition in_state (db : Db) S (ty sk e : bytes) : Prop :=
  exists k id, get_shortstatekey debug db ty sk = Done k /\ get_shorteventid debug db e = Done id /\
    compress_state_event k id ∈ S.

(** The numbers of a map that stand for known keys and events. *)
Definition known_map (db : Db) (m : gmap Z Z) : Prop :=
  forall k id, m !! k = Some id ->
    (exists ty sk, utf8_valid ty = true /\ utf8_valid sk = true /\ get_shortstatekey debug db ty sk = Done k) /\
    (exists e, get_shorteventid debug db e = Done id).

(** A state whose entries are those of a map of known keys and events. *)
Definition known_state (db : Db) S : Prop := exists m, entries_of S m /\ known_map db m.

Lemma get_shortstatekey_u64 db ty sk k :
  short_inv db -> utf8_valid ty = true -> utf8_valid sk = true ->
  get_shortstatekey debug db ty sk = Done k -> is_u64 k.
Proof. intros Hi Ht Hs. rewrite get_shortstatekey_spec by done. by intros [_ ?]. Qed.

Lemma get_shorteventid_u64 db e id : short_inv db -> get_shorteventid debug db e = Done id -> is_u64 id.
Proof. intros Hi. rewrite get_shorteventid_spec by done. by intros [_ ?]. Qed.

Lemma in_state_map db S m ty sk e :
  short_inv db -> entries_of S m -> utf8_valid ty = true -> utf8_valid sk = true ->
  in_state db S ty sk e <-> exists k id, get_shortstatekey debug db ty sk = Done k /\
    get_shorteventid debug db e = Done id /\ m !! k = Some id.
Proof.
  intros Hi He Ht Hsk. split; intros (k & id & Ek & Ee & Hin); exists k, id; (split_and!; [done..|]).
  - apply He in Hin as (k2 & id2 & Em & Ec). destruct (proj2 He k2 id2 Em) as (? & _ & ?).
    apply compress_inj in Ec as [<- <-]; eauto using get_shorteventid_u64, get_shortstatekey_u64.
  - apply He. eauto.
Qed.

Lemma get_shorteventid_inj db e e' id :
  short_inv db -> get_shorteventid debug db e = Done id -> get_shorteventid debug db e' = Done id -> e = e'.
Proof.
  intros Hi He He'. pose proof (get_eventid_spec debug _ _ _ Hi He) as G.
  rewrite (get_eventid_spec debug _ _ _ Hi He') in G. by injection G.
Qed.

Lemma get_shortstatekey_inj db ty sk ty' sk' k :
  short_inv db -> utf8_valid ty = true -> utf8_valid sk = true -> utf8_valid ty' = true -> utf8_valid sk' = true ->
  get_shortstatekey debug db ty sk = Done k -> get_shortstatekey debug db ty' sk' = Done k -> (ty, sk) = (ty', sk').
Proof.
  intros Hi Ht Hs Ht' Hs' Hk Hk'. pose proof (get_statekey_spec debug _ _ _ _ Hi Ht Hs Hk) as G.
  rewrite (get_statekey_spec debug _ _ _ _ Hi Ht' Hs' Hk') in G. by injection G as -> ->.
Qed.

Lemma state_get_id_holds w h S ty sk e st :
  short_inv (globals w) -> cache_ok debug st -> holds debug st h S -> known_state (globals w) S ->
  utf8_valid (type_text ty) = true -> utf8_valid sk = true ->
  (state_get_id debug 4 w h ty sk st).1 = Done e <-> in_state (globals w) S (type_text ty) sk e.
Proof.
  intros Hi Hc Hh (m & He & Hn) Ht Hsk. rewrite (in_state_map _ _ m) by done. unfold state_get_id.
  destruct (get_shortstatekey debug (globals w) (type_text ty) sk) as [k|err| |] eqn:Ek.
  2-4: unfold state_get_shortid, mbind, eff_bind, lift_eff; rewrite Ek; cbn; split;
    [done|intros (? & ? & ? & _); congruence].
  pose proof (get_shortstatekey_u64 _ _ _ _ Hi Ht Hsk Ek) as Hk.
  destruct (state_get_shortid_holds w h S m ty sk k st Hc Hh He Ek Hk) as (st' & _ & Eg).
  unfold mbind, eff_bind. rewrite Eg. destruct (m !! k) as [id|] eqn:Em; cbn.
  - destruct (Hn k id Em) as (_ & e' & Ee'). rewrite (get_eventid_spec debug _ e' id) by done. cbn. split.
    + intros [= <-]. eauto.
    + intros (k' & id' & [= <-] & Ee & ?). f_equal. eapply get_shorteventid_inj; [done..|]. by simplify_eq.
  - split; [done|]. intros (k' & id' & [= <-] & _ & ?). congruence.
Qed.

End reading.
