(* ===== verification/RoomState.v ===== *)
(** * Writing room states

    Models [src/service/rooms/state/mod.rs]: which state a room is in, which
    state each event was received in, and which events nothing follows yet (the
    forward extremities).

    The abstract state of a room is a map from type and key to an event;
    [append_to_state] refines the update of that map. *)

From stdpp Require Import prelude gmap strings list sorting.
From Stdlib Require Import ZArith Lia.
From Stdlib Require Import Strings.Byte.
From S2P Require Import Prelude MachineInt Matrix EventAuth DbCodec DbMap CoreUtils Effects Short World AccountData.
From S2P Require Import StateCache Timeline StateCompressor StateAccessor.

(** The database with the membership cache, the loaded states, and the rooms
    whose space summary is cached ([roomid_spacehierarchy_cache]). *)
Record Rooms {L : LruCache Z ShortStateInfoVec} := MkRooms {
  members_cache : StateCache;
  layers : @Store L;
  space_cache : gset bytes }.
Arguments MkRooms {L}.

Section room_state.
Context (debug : bool) {E : Engine} {I : Ids} {Js : Json} {JT : JsonText} {M : MemberJson} {J : PduJson}.
Context {R : Ruma} {RR : RoomRuma} {sched : Schedule} {L : LruCache Z ShortStateInfoVec}.
Context (fuel : nat) (first : bool) (cfg : Config) (calculate_hash : list bytes -> bytes).
Context (event_id_ok : bytes -> bool).
Context (predecessor : World -> bytes -> option bytes).

Definition room_world (r : Rooms) : World := world (members_cache r).
Definition with_db (r : Rooms) (w : World) : Rooms :=
  MkRooms (set_world (members_cache r) w) (layers r) (space_cache r).
Definition with_layers (r : Rooms) (st : Store) : Rooms := MkRooms (members_cache r) st (space_cache r).
Definition set_globals (w : World) (g : Db) : World := MkWorld (maps w) g.

(** ** The current state and the extremities *)

Definition set_room_state (room_id : bytes) (shortstatehash : Z) (w : World) : outcome CodecError World :=
  upd roomid_shortstatehash (fun t => raw_aput debug 8 t room_id (VU64 shortstatehash)) w.

Definition get_forward_extremities (room_id : bytes) (w : World) : outcome CodecError (list bytes) :=
  scan_ids debug event_id_ok (maps w roomid_pduleaves) room_id.

Definition put_leaf (room_id : bytes) (w : World) (event_id : bytes) : outcome CodecError World :=
  upd roomid_pduleaves (fun t => put_raw debug t (pair_key room_id event_id) event_id) w.

Definition set_forward_extremities (room_id : bytes) (event_ids : list bytes) (w : World)
    : outcome CodecError World :=
  ks ← keys_prefix_raw debug (maps w roomid_pduleaves) (VTuple [VStr room_id; VInterfix]);
  let w := foldl (fun w k => rem roomid_pduleaves k w) w (ks : list bytes) in
  try_fold (put_leaf room_id) w event_ids.

(** ** States of events *)

Definition put_event_state (shorteventid shortstatehash : Z) (w : World) : outcome CodecError World :=
  upd shorteventid_shortstatehash (fun t => aput debug 8 8 t (VU64 shorteventid) (VU64 shortstatehash)) w.

(** The layers of the previous state; a state that cannot be loaded is an
    error. *)
Definition parents_of (previous : option Z) (st : Store)
    : outcome RoomError (ShortStateInfoVec * Store) :=
  match previous with
  | Some p => fail_with RoomCompressor (load_shortstatehash_info debug fuel p st)
  | None => Done ([], st)
  end.

Definition set_event_state (event_id room_id : bytes) (state_ids_compressed : CompressedState) (r : Rooms)
    : outcome RoomError (Z * Rooms) :=
  let w := room_world r in
  '(shorteventid, g) ← fail_with RoomShort (get_or_create_shorteventid debug (globals w) event_id);
  let w := set_globals w g in
  previous_shortstatehash ← ok (get_room_shortstatehash debug room_id w);
  let state_hash := calculate_hash (iter state_ids_compressed) in
  '(h, already_existed, g) ← fail_with RoomShort (get_or_create_shortstatehash debug (globals w) state_hash);
  let w := set_globals w g in
  st ← (if already_existed : bool then Done (layers r) else
    '(states_parents, st) ← parents_of previous_shortstatehash (layers r);
    let '(statediffnew, statediffremoved) :=
      match head states_parents with
      | Some parent_stateinfo =>
          (state_ids_compressed ∖ full_state parent_stateinfo, full_state parent_stateinfo ∖ state_ids_compressed)
      | None => (state_ids_compressed, ∅)
      end in
    t ← fail_with RoomCompressor
          (save_state_from_diff (statediff st) h statediffnew statediffremoved 1000000 states_parents);
    Done (MkStore t (stateinfo_cache st)));
  w ← fail_with RoomCodec (put_event_state shorteventid h w);
  Done (h, with_layers (with_db r w) st).

(** The entry of the key in the previous state: [starts_with] over the set. *)
Definition replaced (states_parents : ShortStateInfoVec) (shortstatekey : Z) : option CompressedStateEvent :=
  info ← head states_parents;
  head (filter (fun e => u64_to_be_bytes shortstatekey `prefix_of` e) (iter (full_state info))).

Definition append_to_state (new_pdu : Event) (r : Rooms) : outcome RoomError (Z * Rooms) :=
  let w := room_world r in
  let eid := str (event_id new_pdu) in
  '(shorteventid, g) ← fail_with RoomShort (get_or_create_shorteventid debug (globals w) eid);
  let w := set_globals w g in
  previous_shortstatehash ← ok (get_room_shortstatehash debug (str (room_id new_pdu)) w);
  w ← match previous_shortstatehash with
      | Some p => fail_with RoomCodec (put_event_state shorteventid p w)
      | None => Done w
      end;
  match state_key new_pdu with
  | Some state_key =>
      '(states_parents, st) ← parents_of previous_shortstatehash (layers r);
      '(shortstatekey, g) ← fail_with RoomShort
        (get_or_create_shortstatekey debug (globals w) (type_text (event_type new_pdu)) (str state_key));
      '(new, g) ← fail_with RoomCompressor (service_compress_state_event debug g shortstatekey eid);
      let replaces := replaced states_parents shortstatekey in
      if decide (Some new = replaces) then
        p ← expect previous_shortstatehash;
        Done (p, with_layers (with_db r (set_globals w g)) st)
      else
        '(h, g) ← fail_with RoomShort (Short.next_count debug g);
        t ← fail_with RoomCompressor
              (save_state_from_diff (statediff st) h {[ new ]} (from_option singleton ∅ replaces) 2 states_parents);
        Done (h, with_layers (with_db r (set_globals w g)) (MkStore t (stateinfo_cache st)))
  | None =>
      p ← expect previous_shortstatehash;
      Done (p, with_db r w)
  end.

(** ** [force_state] *)

Definition membership_kind (m : Matrix.MembershipState) : StateCache.MembershipState :=
  match m with
  | Join => MJoin | Invite => MInvite | Leave => MLeave | Ban => MBan | Knock => MKnock
  | CustomMembership _ => MCustom
  end.

(** One entry of the new state. *)
Definition force_entry (room_id' : bytes) (r : Rooms) (event_id' : bytes) : outcome RoomError Rooms :=
  pdu ← ok (room_pdu first (room_world r) event_id');
  match pdu with
  | None => Done r
  | Some pdu =>
      if decide (event_type pdu = RoomMember) then
        match state_key pdu with
        | Some user_id =>
            if user_id_ok (str user_id) then
              match de_member (content pdu) with
              | Some membership =>
                  c ← fail_with RoomMembers
                        (update_membership debug cfg predecessor room_id' (str user_id)
                           (membership_kind membership) (str (sender pdu)) None None false (members_cache r));
                  Done (MkRooms c (layers r) (space_cache r))
              | None => Done r
              end
            else Done r
        | None => Done r
        end
      else if decide (event_type pdu = SpaceChild) then
        Done (MkRooms (members_cache r) (layers r) (space_cache r ∖ {[ str (room_id pdu) ]}))
      else Done r
  end.

(** The events of the new entries, as their numbers say. *)
Definition diff_event_ids (w : World) (statediffnew : CompressedState) : outcome RoomError (list bytes) :=
  entries ← try_map parse_entry (iter statediffnew);
  fail_with RoomShort (ignore_err (get_eventid_from_short debug (globals w) <$> (entries : list (Z * Z)).*2)).

Definition force_state (room_id : bytes) (shortstatehash : Z) (statediffnew : CompressedState) (r : Rooms)
    : outcome RoomError Rooms :=
  event_ids ← diff_event_ids (room_world r) statediffnew;
  r ← try_fold (force_entry room_id) r event_ids;
  c ← fail_with RoomCodec (update_joined_count debug room_id (members_cache r));
  w ← fail_with RoomCodec (set_room_state room_id shortstatehash (world c));
  Done (MkRooms (set_world c w) (layers r) (space_cache r)).

(** ** [get_auth_events] *)

Abbreviation acc := (eff (@Store L) RoomError).

(** The keys the event is checked against that have a number. *)
Definition short_auth_types (w : World) (auth_types : list TypeStateKey)
    : outcome RoomError (list (Z * TypeStateKey)) :=
  fail_with RoomShort (ignore_err ((fun '(ty, sk) =>
    ssk ← get_shortstatekey debug (globals w) (type_text ty) (str sk); Done (ssk, (ty, sk)))
    <$> reorder "get_auth_events" auth_types)).

Definition get_auth_events (room_id : bytes) (kind : EventType) (sender : string) (state_key : option string)
    (content : string) (w : World) : acc (StateMap Event) :=
  h ← lift_eff (ok (get_room_shortstatehash debug room_id w));
  match h with
  | None => mret ∅
  | Some shortstatehash =>
      auth_types ← lift_eff (fail_with (fun _ => NoAuthTypes) (auth_types_for_event kind sender state_key content));
      short_types ← lift_eff (short_auth_types w auth_types);
      let sauthevents : gmap Z TypeStateKey := list_to_map (reverse (short_types : list (Z * TypeStateKey))) in
      shortids ← shortids_or_none debug fuel shortstatehash;
      let wanted := omap (fun '(shortstatekey, shorteventid) =>
        k ← sauthevents !! shortstatekey; Some (k, shorteventid)) shortids in
      found ← oks (zip_with keep_found (multi_get_eventid_from_short debug (globals w) wanted.*2) wanted.*1);
      pdus ← lift_eff (ignore_err ((fun '(event_id, k) =>
        pdu ← room_pdu first w event_id; Done (k, pdu)) <$>
        reorder "get_auth_events pdus" (found : list (bytes * TypeStateKey))));
      mret (list_to_map (reverse (pdus : list (TypeStateKey * Event))))
  end.

(** ** [summary_stripped] *)

(** [to_stripped_state_event] keeps content, type, sender and state key. *)
Definition stripped (e : Event) : string * EventType * string * option string :=
  (content e, event_type e, sender e, state_key e).

Definition summary_cells (event : Event) : list (EventType * bytes) :=
  [(RoomCreate, []); (RoomJoinRules, []); (RoomCanonicalAlias, []); (RoomName, []); (RoomAvatar, []);
   (RoomMember, str (sender event)); (RoomEncryption, []); (RoomTopic, [])].

Fixpoint join_all {A} (l : list (acc A)) : acc (list A) :=
  match l with
  | [] => mret []
  | m :: l =>
      r ← attempt m;
      rest ← join_all l;
      mret (match r with inr a => a :: rest | inl _ => rest end)
  end.

Definition summary_stripped (event : Event) (w : World)
    : acc (list (string * EventType * string * option string)) :=
  l ← join_all ((fun '(ty, sk) => room_state_get debug fuel first w (str (room_id event)) ty sk) <$> summary_cells event);
  mret ((stripped <$> l) ++ [stripped event]).

End room_state.

(** ** Forward extremities *)

Section extremities.
Context (debug : bool) {E : Engine} {I : Ids} (event_id_ok : bytes -> bool).
Hypothesis event_id_utf8 : forall e, event_id_ok e = true -> utf8_valid e = true.

(** Every row names a room and an event. *)
Definition leaves_ok (w : World) : Prop :=
  forall k, is_Some (maps w roomid_pduleaves !! k) ->
    exists r e, room_id_ok r = true /\ event_id_ok e = true /\ k = pair_bytes r e.

Lemma strictly_sorted_unique (l1 l2 : list bytes) :
  StronglySorted SetOps.ord_lt l1 -> StronglySorted SetOps.ord_lt l2 -> (forall b, b ∈ l1 <-> b ∈ l2) -> l1 = l2.
Proof.
  intros S1 S2 Hel. apply (StronglySorted_unique_strong SetOps.ord_lt); [|done..|].
  - intros a b **. unfold SetOps.ord_lt in *. rewrite (cmp_antisym a b) in *. by destruct (cmp a b).
  - apply NoDup_Permutation; [by apply sorted_lt_NoDup..|done].
Qed.

Lemma get_leaves w r :
  leaves_ok w -> room_id_ok r = true ->
  exists l, get_forward_extremities debug event_id_ok r w = Done l /\ StronglySorted SetOps.ord_lt l /\
    forall e, e ∈ l <-> is_Some (maps w roomid_pduleaves !! pair_bytes r e).
Proof.
  intros Hw Hr. apply scan_ids_exact; [by apply room_no_sep|].
  intros k (r' & e & Hr' & He & ->)%Hw Hp. apply interfix_prefix in Hp as <-; [|by apply room_no_sep..].
  exists e. auto.
Qed.

(** The rows that are left when those of one room were taken out. *)
Lemma remove_keys ks w :
  let w' := foldl (fun w k => rem roomid_pduleaves k w) w ks in
  frame [roomid_pduleaves] w w' /\
  forall k, is_Some (maps w' roomid_pduleaves !! k) <-> k ∉ ks /\ is_Some (maps w roomid_pduleaves !! k).
Proof.
  destruct (rem_keys roomid_pduleaves ks w) as [Hf Hk]. split; [done|]. intros k. rewrite Hk.
  case_decide; [|tauto]. split; [by intros []|tauto].
Qed.

Lemma put_leaf_eq r e w :
  room_id_ok r = true -> event_id_ok e = true ->
  put_leaf debug r w e = Done (ins roomid_pduleaves (pair_bytes r e) e w).
Proof. intros Hr He. apply upd_put_raw, serialize_pair; [by apply room_id_utf8|auto]. Qed.

Lemma put_leaves r es w :
  room_id_ok r = true -> Forall (fun e => event_id_ok e = true) es ->
  exists w', try_fold (put_leaf debug r) w es = Done w' /\ frame [roomid_pduleaves] w w' /\
    forall k, is_Some (maps w' roomid_pduleaves !! k) <->
      k ∈ pair_bytes r <$> es \/ is_Some (maps w roomid_pduleaves !! k).
Proof.
  intros Hr Hes. revert w. induction Hes as [|e es He Hes IH]; intros w.
  { exists w. split_and!; [done..|]. intros k. set_solver. }
  cbn [try_fold]. rewrite put_leaf_eq by done. cbn [mbind outcome_bind]. destruct (IH (ins roomid_pduleaves (pair_bytes r e) e w)) as (w' & -> & Hf & Hk).
  exists w'. split_and!; [done|eapply frame_trans; [|done]; apply frame_ins; in_tables|].
  intros k. rewrite Hk. autorewrite with world. rewrite insert_key_Some. set_solver.
Qed.

(** Setting the extremities of a room replaces exactly those of that room. *)
Lemma set_leaves r es w :
  leaves_ok w -> room_id_ok r = true -> Forall (fun e => event_id_ok e = true) es ->
  exists w', set_forward_extremities debug r es w = Done w' /\ frame [roomid_pduleaves] w w' /\ leaves_ok w' /\
    forall r' e, room_id_ok r' = true ->
      is_Some (maps w' roomid_pduleaves !! pair_bytes r' e) <->
      if decide (r' = r) then e ∈ es else is_Some (maps w roomid_pduleaves !! pair_bytes r' e).
Proof.
  intros Hw Hr Hes. unfold set_forward_extremities, keys_prefix_raw. rewrite serialize_key_interfix.
  cbn [mbind outcome_bind]. set (ks := raw_keys_prefix _ _).
  destruct (remove_keys ks w) as [Hf1 Hk1]. set (w1 := foldl _ w ks) in *.
  destruct (put_leaves r es w1 Hr Hes) as (w' & -> & Hf2 & Hk2).
  exists w'. split; [done|]. split; [by eapply frame_trans|].
  assert (forall r' e, room_id_ok r' = true -> pair_bytes r' e ∈ ks <->
            r' = r /\ is_Some (maps w roomid_pduleaves !! pair_bytes r' e)) as Hks.
  { intros r' e Hr'. unfold ks. rewrite elem_of_raw_keys_prefix. unfold pair_bytes at 1.
    rewrite interfix_prefix by by apply room_no_sep. naive_solver. }
  split.
  - intros k [(e & -> & He)%list_elem_of_fmap|[_ Hk]%Hk1]%Hk2; [|by apply Hw].
    rewrite Forall_forall in Hes. by exists r, e; auto.
  - intros r' e Hr'. rewrite Hk2, Hk1, Hks, list_elem_of_fmap by done. case_decide as D.
    + subst r'. split; [|by eauto]. intros [(e' & Ee & He')|[Hn Hs]]; [|tauto].
      unfold pair_bytes in Ee. apply sep_split in Ee as [_ ->]; [done|by apply room_no_sep..].
    + split; [|tauto]. intros [(e' & Ee & _)|[_ Hs]]; [|done].
      unfold pair_bytes in Ee. by apply sep_split in Ee as [? _]; [|apply room_no_sep..].
Qed.

(** The extremities of a room read back as they were set, each once, and those
    of every other room are untouched. *)
Theorem extremities_roundtrip r es w :
  leaves_ok w -> room_id_ok r = true -> Forall (fun e => event_id_ok e = true) es ->
  exists w' l, set_forward_extremities debug r es w = Done w' /\ leaves_ok w' /\ frame [roomid_pduleaves] w w' /\
    get_forward_extremities debug event_id_ok r w' = Done l /\ NoDup l /\ (forall e, e ∈ l <-> e ∈ es) /\
    forall r', room_id_ok r' = true -> r' <> r ->
      get_forward_extremities debug event_id_ok r' w' = get_forward_extremities debug event_id_ok r' w.
Proof.
  intros Hw Hr Hes. destruct (set_leaves r es w Hw Hr Hes) as (w' & Es & Hf & Hw' & Hk).
  destruct (get_leaves w' r Hw' Hr) as (l & El & Sl & Hl). exists w', l. split_and!; try done.
  - by apply sorted_lt_NoDup.
  - intros e. rewrite Hl, Hk by done. by rewrite decide_True.
  - intros r' Hr' Hne. destruct (get_leaves w' r' Hw' Hr') as (l1 & -> & S1 & H1).
    destruct (get_leaves w r' Hw Hr') as (l2 & -> & S2 & H2). f_equal. apply strictly_sorted_unique; [done..|].
    intros e. rewrite H1, H2, Hk by done. by rewrite decide_False.
Qed.

End extremities.

(** ** Numbering more keys and events changes no state *)

Section growth.
Context (debug : bool) {L : LruCache Z ShortStateInfoVec} (calculate_hash : list bytes -> bytes).
Implicit Types (db : Db) (S : CompressedState) (st : Store).

(** Everything numbered before keeps its number. *)
Record grows db db' : Prop := {
  grows_events : forall e s, get_shorteventid debug db e = Done s -> get_shorteventid debug db' e = Done s;
  grows_keys : forall ty sk k, get_shortstatekey debug db ty sk = Done k -> get_shortstatekey debug db' ty sk = Done k;
  grows_hashes : statehash_shortstatehash db' = statehash_shortstatehash db;
  grows_counter : (counter db <= counter db')%Z }.

Lemma grows_refl db : grows db db.
Proof. by split. Qed.
Lemma grows_trans a b c : grows a b -> grows b c -> grows a c.
Proof. intros [E1 K1 H1 C1] [E2 K2 H2 C2]. split; [auto|auto|congruence|lia]. Qed.

Lemma next_count_grows db c db' : Short.next_count debug db = Done (c, db') -> grows db db'.
Proof.
  unfold Short.next_count. intros N. repeat bind_inv N. simplify_eq/=. split; [done..|]. cbn.
  unfold u64_checked_add in *. destruct (checked _ _ _) eqn:Ec; simplify_eq/=.
  apply checked_Some in Ec. lia.
Qed.

Lemma event_grows db e s db' : get_or_create_shorteventid debug db e = Done (s, db') -> grows db db'.
Proof.
  unfold get_or_create_shorteventid, or_create. destruct (get_shorteventid debug db e) eqn:G; intros N; simplify_eq.
  { apply grows_refl. }
  unfold create_shorteventid in N. bind_inv N. destruct a as [c db1]. pose proof (next_count_grows _ _ _ N0) as [H1 H2 H3 H4].
  simplify_eq/=. split; [|exact H2|exact H3|exact H4].
  intros e' s' G'. pose proof (H1 _ _ G') as G1. unfold get_shorteventid, get_u64 in *. cbn.
  rewrite lookup_insert_ne; [done|]. intros <-. congruence.
Qed.

Lemma statekey_grows db ty sk k db' : get_or_create_shortstatekey debug db ty sk = Done (k, db') -> grows db db'.
Proof.
  unfold get_or_create_shortstatekey, or_create. destruct (get_shortstatekey debug db ty sk) eqn:G; intros N; simplify_eq.
  { apply grows_refl. }
  unfold create_shortstatekey in N. bind_inv N. destruct a as [c db1]. bind_inv N.
  pose proof (next_count_grows _ _ _ N0) as [H1 H2 H3 H4].
  simplify_eq/=. split; [exact H1| |exact H3|exact H4].
  intros ty' sk' k' G'. pose proof (H2 _ _ _ G') as G1. unfold get_shortstatekey in *. rewrite N1 in G.
  destruct (statekey_bytes debug ty' sk') as [key| | |]; [|done..]. cbn [mbind outcome_bind] in *.
  unfold get_u64 in *. cbn. rewrite lookup_insert_ne; [done|]. intros <-. congruence.
Qed.

Lemma compressor_inv_grows db db' st :
  compressor_inv debug calculate_hash db st -> short_inv db' -> grows db db' ->
  compressor_inv debug calculate_hash db' st.
Proof.
  intros (_ & Hc & T & K) Hi [_ _ Hh Hn]. split_and!; [done..| |].
  - intros hs v. rewrite Hh. apply T.
  - intros k (s & -> & ?)%K. exists s. split; [done|lia].
Qed.

Lemma known_map_grows db db' m : grows db db' -> known_map debug db m -> known_map debug db' m.
Proof.
  intros [He Hk _ _] Hm k id Hki. destruct (Hm k id Hki) as [(ty & sk & ? & ? & ?) (e & ?)].
  split; [exists ty, sk; auto|eauto].
Qed.

(** What a state says is the same before and after. *)
Lemma in_state_grows db db' S ty sk e :
  short_inv db -> short_inv db' -> grows db db' -> known_state debug db S ->
  utf8_valid ty = true -> utf8_valid sk = true ->
  in_state debug db' S ty sk e <-> in_state debug db S ty sk e.
Proof.
  intros Hi Hi' G (m & He & Hm) Ht Hs. rewrite !(in_state_map debug _ S m) by done. split.
  - intros (k & id & Ek & Ee & Em). destruct (Hm k id Em) as [(ty' & sk' & Ht' & Hs' & Ek') (e' & Ee')].
    pose proof (grows_keys _ _ G _ _ _ Ek') as Gk. pose proof (grows_events _ _ G _ _ Ee') as Ge.
    assert ((ty, sk) = (ty', sk')) as [= -> ->] by by eapply get_shortstatekey_inj.
    assert (e = e') as -> by by eapply get_shorteventid_inj. eauto.
  - intros (k & id & Ek & Ee & Em). exists k, id. split_and!; [by eapply grows_keys|by eapply grows_events|done].
Qed.

End growth.

(** ** The state after an event *)

Section appending.
Context (debug : bool) {L : LruCache Z ShortStateInfoVec} (calculate_hash : list bytes -> bytes).
Implicit Types (db : Db) (S : CompressedState) (st : Store).

(** [S] is the state numbered [prev]; before the first one it is empty. *)
Definition state_at st (prev : option Z) S : Prop :=
  match prev with Some p => holds debug st p S | None => S = ∅ end.

(** The layers leave room for [n] more entries. *)
Definition fits (n : Z) st (prev : option Z) : Prop :=
  forall p l, prev = Some p -> represents debug (statediff st) p l -> (stack_size l + n <= max_entries)%Z.

Lemma parents_spec n st prev S :
  (0 <= n <= max_entries)%Z -> cache_ok debug st -> state_at st prev S -> fits n st prev ->
  exists parents st1, parents_of debug 4 prev st = Done (parents, st1) /\ same_states debug st st1 /\
    stored_stack debug (statediff st) parents /\ wf_stack parents /\ top_full parents = S /\
    (n + stack_size parents <= max_entries)%Z.
Proof.
  intros Hn Hc HS Hf. unfold parents_of. destruct prev as [p|].
  - destruct HS as (l & R & HS & Hl). destruct (load_represents debug 4 p l st Hc R Hl) as (st1 & -> & ? & ?).
    exists l, st1. specialize (Hf p l eq_refl R). destruct R as (? & ? & _). split_and!; done || lia.
  - exists [], st. cbn in HS |- *. split_and!; done || lia.
Qed.

Lemma compress_prefix k k' id :
  is_u64 k -> is_u64 k' -> u64_to_be_bytes k `prefix_of` compress_state_event k' id <-> k' = k.
Proof.
  intros Hk Hk'. unfold compress_state_event. split.
  - intros [r Hr]. apply app_inj_1 in Hr as [Hr _]; [|by rewrite !length_u64_to_be]. by apply u64_to_be_inj in Hr.
  - intros ->. by apply prefix_app_r.
Qed.

Lemma replaced_exact parents S m k :
  top_full parents = S -> entries_of S m -> is_u64 k -> replaced parents k = compress_state_event k <$> (m !! k).
Proof.
  intros <- He Hk. unfold replaced. destruct parents as [|i l].
  - cbn. destruct (m !! k) as [id|] eqn:Em; [|done]. exfalso.
    apply (not_elem_of_empty (C := CompressedState) (compress_state_event k id)), He. eauto.
  - cbn [head mbind option_bind]. apply head_filter_key; [done|]. intros. by apply compress_prefix.
Qed.

(** The entries with one key replaced. *)
Definition replace_entry (S : CompressedState) (m : gmap Z Z) (k id : Z) : CompressedState :=
  (S ∪ {[ compress_state_event k id ]}) ∖ from_option (fun id => {[ compress_state_event k id ]}) ∅ (m !! k).

Lemma replace_entries S m k id :
  entries_of S m -> is_u64 k -> k <> 0%Z -> is_u64 id -> m !! k <> Some id ->
  entries_of (replace_entry S m k id) (<[k := id]> m).
Proof.
  intros He Hk H0 Hid Hne. split.
  2: { intros k' id' [[<- <-]|[_ ?]]%lookup_insert_Some; [done|]. by apply He. }
  intros e. unfold replace_entry. rewrite elem_of_difference, elem_of_union, elem_of_singleton, (proj1 He e). split.
  - intros [[(k' & id' & Em & ->)| ->] Hnot]; [|exists k, id; by rewrite lookup_insert_eq].
    exists k', id'. split; [|done]. rewrite lookup_insert_ne; [done|]. intros <-. rewrite Em in Hnot. set_solver.
  - intros (k' & id' & [[<- <-]|[Hkk Em]]%lookup_insert_Some & ->).
    + split; [by right|]. destruct (m !! k) as [id0|] eqn:Em0; [|apply not_elem_of_empty]. cbn.
      rewrite elem_of_singleton. destruct (proj2 He k id0 Em0) as (_ & _ & ?).
      intros [_ ->]%compress_inj; [done|done..].
    + split; [eauto|]. destruct (m !! k) as [id0|] eqn:Em0; [|apply not_elem_of_empty]. cbn.
      rewrite elem_of_singleton. destruct (proj2 He k id0 Em0) as (_ & _ & ?), (proj2 He k' id' Em) as (? & _ & ?).
      intros [? _]%compress_inj; [done|done..].
Qed.

Lemma replace_layer S m k id :
  entries_of S m -> is_u64 k -> is_u64 id -> m !! k <> Some id ->
  layer_ok S {[ compress_state_event k id ]} (from_option (fun id => {[ compress_state_event k id ]}) ∅ (m !! k))
    (replace_entry S m k id).
Proof.
  intros He Hk Hid Hne. split_and!; [| |done].
  - apply disjoint_singleton_l. intros (k' & id' & Em & Ec)%He. destruct (proj2 He k' id' Em) as (? & _ & ?).
    apply compress_inj in Ec as [<- <-]; done.
  - destruct (m !! k) as [id0|] eqn:Em; cbn; [|apply empty_subseteq].
    apply singleton_subseteq_l, He. eauto.
Qed.

Lemma compress_entry_ok k id : is_u64 k -> k <> 0%Z -> entry_ok (compress_state_event k id).
Proof.
  intros Hk H0. unfold entry_ok, compress_state_event. rewrite length_app, !length_u64_to_be. split; [done|].
  rewrite take_app_length' by by rewrite length_u64_to_be. unfold zero. intros Ez%u64_to_be_inj; [done|done|width_lia].
Qed.

(** Saving the state with one entry replaced, under the next number. *)
Lemma save_replaced db st st1 parents S m k id :
  compressor_inv debug calculate_hash db st -> (counter db < u64_max)%Z -> same_states debug st st1 ->
  stored_stack debug (statediff st) parents -> wf_stack parents -> top_full parents = S ->
  (2 + stack_size parents <= max_entries)%Z -> entries_of S m -> known_map debug db m ->
  is_u64 k -> k <> 0%Z -> is_u64 id -> m !! k <> Some id ->
  exists g t, Short.next_count debug db = Done (counter db + 1, g)%Z /\ short_inv g /\ grows debug db g /\
    save_state_from_diff (statediff st1) (counter db + 1) {[ compress_state_event k id ]}
      (from_option singleton ∅ (replaced parents k)) 2 parents = Done t /\
    compressor_inv debug calculate_hash g (MkStore t (stateinfo_cache st1)) /\
    holds debug (MkStore t (stateinfo_cache st1)) (counter db + 1) (replace_entry S m k id).
Proof.
  intros Hi Hc [Es Hk1] Hst Hwf Htop Hn He Hm Hk H0 Hid Hne. pose proof Hi as (Hsi & _).
  destruct (next_count_spec debug db Hsi Hc) as (En & Hu & _).
  pose proof (next_count_grows debug _ _ _ En) as G. pose proof (short_inv_counter debug db Hsi Hc) as Hsi'.
  exists (set_counter db (counter db + 1)).
  assert (from_option singleton ∅ (replaced parents k) =
          from_option (fun id => {[ compress_state_event k id ]}) (∅ : CompressedState) (m !! k)) as ->.
  { rewrite (replaced_exact parents S m k) by done. by destruct (m !! k). }
  set (gone := from_option _ _ _).
  assert (zsize gone <= 1)%Z as Hgone.
  { unfold gone, zsize. destruct (m !! k); cbn; [by rewrite size_singleton|by rewrite size_empty]. }
  destruct (save_from_diff_spec debug parents (statediff st1) (counter db + 1) {[ compress_state_event k id ]} gone 2
              (replace_entry S m k id)) as (t & Et & Hsv).
  - rewrite Es. by eapply next_fresh.
  - done.
  - destruct Hsi as (? & _). width_lia.
  - intros e ->%elem_of_singleton. by apply compress_entry_ok.
  - intros e He'. unfold gone in He'. destruct (m !! k) as [id0|]; cbn in He'; [|set_solver].
    apply elem_of_singleton in He' as ->. by apply compress_entry_ok.
  - by rewrite Es.
  - done.
  - rewrite Htop. by apply replace_layer.
  - unfold zsize at 1. rewrite size_singleton. lia.
  - unfold max_entries. lia.
  - exists t. rewrite En. split_and!; try done.
    all: eapply compressor_inv_save with (st := st); try done; [by right|by rewrite <- Es].
Qed.

End appending.

Section appended.
Context (debug : bool) {RR : RoomRuma} {L : LruCache Z ShortStateInfoVec} (calculate_hash : list bytes -> bytes).
Implicit Types (db : Db) (S : CompressedState) (st : Store) (r : Rooms).

Definition rooms_inv r : Prop := compressor_inv debug calculate_hash (globals (room_world r)) (layers r).

(** The number of the room's current state. *)
Definition current_state (room : bytes) (w : World) : option Z :=
  match get_room_shortstatehash debug room w with Done h => Some h | _ => None end.

(** The table of current states holds numbers. *)
Definition hashes_ok (w : World) : Prop :=
  forall k v, maps w roomid_shortstatehash !! k = Some v -> exists h, is_u64 h /\ v = u64_to_be_bytes h.

Lemma get_u64_be t k h : t !! k = Some (u64_to_be_bytes h) -> is_u64 h -> get_u64 debug t k = Done h.
Proof. intros Ek Hh. unfold get_u64. rewrite Ek. cbn [ok_or mbind outcome_bind]. by rewrite from_slice_u64. Qed.

Lemma current_state_ok w room :
  hashes_ok w -> ok (E' := RoomError) (get_room_shortstatehash debug room w) = Done (current_state room w).
Proof.
  intros Hw. unfold current_state, get_room_shortstatehash.
  destruct (maps w roomid_shortstatehash !! room) as [v|] eqn:Ev.
  - destruct (Hw _ _ Ev) as (h & Hh & ->). by rewrite (get_u64_be _ _ h).
  - by rewrite get_u64_None.
Qed.

Lemma buffer_u64 n : buffer_serialize debug (Some 8) (VU64 n) = Done (u64_to_be_bytes n).
Proof.
  unfold buffer_serialize, serialize. cbn [ser_value]. unfold write. cbn [out cap app from_option].
  rewrite length_u64_to_be. by destruct debug.
Qed.

Lemma put_event_state_eq k h w :
  put_event_state debug k h w = Done (ins shorteventid_shortstatehash (u64_to_be_bytes k) (u64_to_be_bytes h) w).
Proof. unfold put_event_state, upd, aput, bput, bput_raw. by rewrite !buffer_u64. Qed.

(** The state an event was received in is the one that was recorded for it. *)
Lemma pdu_shortstatehash_spec eid k h w :
  get_shorteventid debug (globals w) eid = Done k -> is_u64 h ->
  maps w shorteventid_shortstatehash !! u64_to_be_bytes k = Some (u64_to_be_bytes h) ->
  pdu_shortstatehash debug eid w = Done h.
Proof.
  intros Ek Hh Em. unfold pdu_shortstatehash. rewrite Ek. cbn [fail_with mbind outcome_bind].
  unfold aqry, bqry. rewrite buffer_u64. cbn [lift_de mbind outcome_bind]. unfold get. rewrite Em.
  unfold de_count, deserialized. cbn [ok_or mbind outcome_bind]. by rewrite from_slice_u64.
Qed.

(** Numbering the event. *)
Lemma number_event r eid :
  rooms_inv r -> (counter (globals (room_world r)) < u64_max)%Z -> utf8_valid eid = true ->
  exists k g, get_or_create_shorteventid debug (globals (room_world r)) eid = Done (k, g) /\ short_inv g /\
    grows debug (globals (room_world r)) g /\ get_shorteventid debug g eid = Done k /\
    compressor_inv debug calculate_hash g (layers r) /\
    (counter g <= counter (globals (room_world r)) + 1)%Z.
Proof.
  intros Hi Hc He. destruct (event_creates debug _ eid (proj1 Hi) Hc He) as (k & g & Er & Hg & Gk & _ & Hd).
  pose proof (event_grows debug _ _ _ _ Er) as G. exists k, g. split_and!; try done.
  - by eapply compressor_inv_grows.
  - destruct Hd as [[_ ->]|[? ?]]; lia.
Qed.

(** Numbering the key, and the event once more. *)
Lemma number_entry db st ty sk eid id :
  compressor_inv debug calculate_hash db st -> (counter db < u64_max)%Z ->
  utf8_valid ty = true -> utf8_valid sk = true -> get_shorteventid debug db eid = Done id ->
  exists k g, get_or_create_shortstatekey debug db ty sk = Done (k, g) /\ compressor_inv debug calculate_hash g st /\
    grows debug db g /\ get_shortstatekey debug g ty sk = Done k /\ is_u64 k /\ k <> 0%Z /\ is_u64 id /\
    service_compress_state_event debug g k eid = Done (compress_state_event k id, g) /\
    (counter g <= counter db + 1)%Z.
Proof.
  intros Hi Hc Ht Hs Hid. destruct (statekey_creates debug db ty sk (proj1 Hi) Hc Ht Hs) as (k & g & Er & Hg & Gk & _ & Hd).
  pose proof (statekey_grows debug _ _ _ _ _ Er) as G. pose proof (grows_events debug _ _ G _ _ Hid) as Gid.
  exists k, g. split_and!; try done.
  - by eapply compressor_inv_grows.
  - exact (get_shortstatekey_u64 debug _ _ _ _ Hg Ht Hs Gk).
  - apply (get_shortstatekey_spec debug g ty sk k Hg Ht Hs) in Gk as [Ek Hk].
    destruct Hg as (Hu & _ & _ & [N _] & _). destruct (N _ _ Ek) as (s & Es & Hs'). apply u64_to_be_inj in Es; width_lia.
  - exact (get_shorteventid_u64 debug _ _ _ Hg Gid).
  - unfold service_compress_state_event, get_or_create_shorteventid, or_create. by rewrite Gid.
  - destruct Hd as [[_ ->]|[? ?]]; lia.
Qed.

(** The state with the event put in its place. *)
Lemma in_state_replaced db S m ty sk eid k id :
  short_inv db -> entries_of S m -> known_map debug db m -> utf8_valid ty = true -> utf8_valid sk = true ->
  get_shortstatekey debug db ty sk = Done k -> is_u64 k -> k <> 0%Z -> get_shorteventid debug db eid = Done id ->
  m !! k <> Some id ->
  known_state debug db (replace_entry S m k id) /\
  forall ty' sk' e, utf8_valid ty' = true -> utf8_valid sk' = true ->
    in_state debug db (replace_entry S m k id) ty' sk' e <->
    if decide ((ty', sk') = (ty, sk)) then e = eid else in_state debug db S ty' sk' e.
Proof.
  intros Hi He Hm Ht Hs Hk Huk H0 Hid Hne. pose proof (get_shorteventid_u64 debug _ _ _ Hi Hid) as Hui.
  pose proof (replace_entries S m k id He Huk H0 Hui Hne) as He'. split.
  - exists (<[k := id]> m). split; [done|].
    intros k' id' [[<- <-]|[_ ?]]%lookup_insert_Some; [|by apply Hm]. split; [by exists ty, sk|by exists eid].
  - intros ty' sk' e Ht' Hs'. rewrite (in_state_map debug _ _ _ ty' sk' e Hi He' Ht' Hs'). case_decide as D.
    + injection D as -> ->. split.
      * intros (k' & id' & Ek & Ee & Em). assert (k' = k) as -> by congruence.
        rewrite lookup_insert_eq in Em. injection Em as <-. by eapply get_shorteventid_inj.
      * intros ->. exists k, id. by rewrite lookup_insert_eq.
    + rewrite (in_state_map debug _ _ _ ty' sk' e Hi He Ht' Hs').
      assert (forall k', get_shortstatekey debug db ty' sk' = Done k' -> k <> k') as Hkk.
      { intros k' Ek <-. apply D. by eapply get_shortstatekey_inj. }
      split; intros (k' & id' & Ek & Ee & Em); exists k', id'; (split_and!; [done..|]);
        [rewrite lookup_insert_ne in Em by auto|rewrite lookup_insert_ne by auto]; done.
Qed.

(** What [append_to_state] promises for the event with key [(ty, sk)]. *)
Definition appended r r' (h : Z) S (ty sk eid : bytes) : Prop :=
  rooms_inv r' /\ exists S', holds debug (layers r') h S' /\ known_state debug (globals (room_world r')) S' /\
    forall ty' sk' e, utf8_valid ty' = true -> utf8_valid sk' = true ->
      in_state debug (globals (room_world r')) S' ty' sk' e <->
      if decide ((ty', sk') = (ty, sk)) then e = eid else in_state debug (globals (room_world r)) S ty' sk' e.

(** It is enough to compare with the old state under the new numbers. *)
Lemma appended_by r r' h S S' ty sk eid :
  rooms_inv r -> rooms_inv r' -> grows debug (globals (room_world r)) (globals (room_world r')) ->
  known_state debug (globals (room_world r)) S -> holds debug (layers r') h S' ->
  known_state debug (globals (room_world r')) S' ->
  (forall ty' sk' e, utf8_valid ty' = true -> utf8_valid sk' = true ->
     in_state debug (globals (room_world r')) S' ty' sk' e <->
     if decide ((ty', sk') = (ty, sk)) then e = eid else in_state debug (globals (room_world r')) S ty' sk' e) ->
  appended r r' h S ty sk eid.
Proof.
  intros Hi Hi' G HS Hh HS' Hin. split; [done|]. exists S'. split_and!; [done..|].
  intros ty' sk' e Ht Hs. rewrite Hin by done. case_decide; [done|].
  by apply in_state_grows; [apply Hi|apply Hi'|..].
Qed.

(** The event is the one of its key already. *)
Lemma in_state_present db S m ty sk eid k id :
  short_inv db -> entries_of S m -> utf8_valid ty = true -> utf8_valid sk = true ->
  get_shortstatekey debug db ty sk = Done k -> get_shorteventid debug db eid = Done id -> m !! k = Some id ->
  forall ty' sk' e, utf8_valid ty' = true -> utf8_valid sk' = true ->
    in_state debug db S ty' sk' e <->
    if decide ((ty', sk') = (ty, sk)) then e = eid else in_state debug db S ty' sk' e.
Proof.
  intros Hi He Ht Hs Hk Hid Em ty' sk' e Ht' Hs'. case_decide as D; [|done]. injection D as -> ->.
  rewrite (in_state_map debug _ _ m) by done. split.
  - intros (k' & id' & Ek & Ee & Em'). assert (k' = k) as -> by congruence.
    rewrite Em in Em'. injection Em' as <-. by eapply get_shorteventid_inj.
  - intros ->. eauto.
Qed.

End appended.

Section append_facts.
Context (debug : bool) {RR : RoomRuma} {L : LruCache Z ShortStateInfoVec} (calculate_hash : list bytes -> bytes).
Implicit Types (S : CompressedState) (r : Rooms) (pdu : Event).

(** What a state event needs to be appended to the state [S] of its room. *)
Record appendable r pdu (sk : string) S : Prop := {
  ap_inv : rooms_inv debug calculate_hash r;
  ap_hashes : hashes_ok (room_world r);
  ap_counter : (counter (globals (room_world r)) + 3 <= u64_max)%Z;
  ap_event : utf8_valid (str (event_id pdu)) = true;
  ap_type : utf8_valid (type_text (event_type pdu)) = true;
  ap_key : utf8_valid (str sk) = true;
  ap_state_key : state_key pdu = Some sk;
  ap_state : state_at debug (layers r) (current_state debug (str (room_id pdu)) (room_world r)) S;
  ap_fits : fits debug 2 (layers r) (current_state debug (str (room_id pdu)) (room_world r));
  ap_known : known_state debug (globals (room_world r)) S }.

(** The state the event was received in is recorded. *)
Lemma record_previous w prev id :
  exists w1, match prev with
             | Some p => fail_with RoomCodec (put_event_state debug id p w)
             | None => Done w
             end = Done w1 /\ globals w1 = globals w /\ frame [shorteventid_shortstatehash] w w1 /\
    forall p, prev = Some p -> maps w1 shorteventid_shortstatehash !! u64_to_be_bytes id = Some (u64_to_be_bytes p).
Proof.
  destruct prev as [p|]; [|by eexists]. rewrite put_event_state_eq. eexists. split_and!; [done|done|..].
  - apply frame_ins. in_tables.
  - intros p' [= <-]. autorewrite with world. by rewrite lookup_insert_eq.
Qed.

(** The two ends of [append_to_state]: the entry is there, or it is put in. *)
Lemma append_present r w1 g st1 S m ty sk eid k id p :
  rooms_inv debug calculate_hash r -> compressor_inv debug calculate_hash g (layers r) ->
  grows debug (globals (room_world r)) g -> same_states debug (layers r) st1 ->
  entries_of S m -> known_map debug (globals (room_world r)) m -> utf8_valid ty = true -> utf8_valid sk = true ->
  get_shortstatekey debug g ty sk = Done k -> get_shorteventid debug g eid = Done id -> m !! k = Some id ->
  holds debug (layers r) p S ->
  appended debug calculate_hash r (with_layers (with_db r (set_globals w1 g)) st1) p S ty sk eid.
Proof.
  intros Hi Hi2 G [Es Hk1] Hm Hkm Ht Hs Gk Gid Em HS.
  pose proof (known_map_grows debug _ _ _ G Hkm) as Hkm2.
  apply appended_by with (S' := S); try done; [..|eapply in_state_present; [apply Hi2|done..]].
  2, 4: by exists m.
  - split_and!; [apply Hi2|done|..]; cbn; unfold holds; rewrite Es; apply Hi2.
  - cbn. unfold holds. by rewrite Es.
Qed.

Lemma append_replaced r w1 g g3 t st1 S m ty sk eid k id h :
  rooms_inv debug calculate_hash r -> grows debug (globals (room_world r)) g3 ->
  compressor_inv debug calculate_hash g3 (MkStore t (stateinfo_cache st1)) -> grows debug g g3 ->
  entries_of S m -> known_map debug (globals (room_world r)) m -> utf8_valid ty = true -> utf8_valid sk = true ->
  get_shortstatekey debug g ty sk = Done k -> get_shorteventid debug g eid = Done id -> m !! k <> Some id ->
  is_u64 k -> k <> 0%Z -> holds debug (MkStore t (stateinfo_cache st1)) h (replace_entry S m k id) ->
  appended debug calculate_hash r (with_layers (with_db r (set_globals w1 g3)) (MkStore t (stateinfo_cache st1)))
    h S ty sk eid.
Proof.
  intros Hi G Hi3 G3 Hm Hkm Ht Hs Gk Gid Hne Hk H0 Hh.
  apply (grows_keys debug _ _ G3) in Gk. apply (grows_events debug _ _ G3) in Gid.
  destruct (in_state_replaced debug g3 S m ty sk eid k id) as [Hks Hin]; try done; [apply Hi3|exact (known_map_grows debug _ _ _ G Hkm)|].
  apply appended_by with (S' := replace_entry S m k id); try done. by exists m.
Qed.

Lemma append_run r pdu sk S :
  appendable r pdu sk S ->
  let prev := current_state debug (str (room_id pdu)) (room_world r) in
  exists h r', append_to_state debug 4 pdu r = Done (h, r') /\
    appended debug calculate_hash r r' h S (type_text (event_type pdu)) (str sk) (str (event_id pdu)) /\
    frame [shorteventid_shortstatehash] (room_world r) (room_world r') /\
    exists id, get_shorteventid debug (globals (room_world r')) (str (event_id pdu)) = Done id /\
      forall p, prev = Some p ->
        maps (room_world r') shorteventid_shortstatehash !! u64_to_be_bytes id = Some (u64_to_be_bytes p).
Proof.
  intros [Hi Hh Hc He Ht Hs Hk HS Hf (m & Hm & Hkm)] prev. pose proof (proj1 Hi) as Hsi.
  destruct (number_event debug calculate_hash r (str (event_id pdu)) Hi) as (id & g1 & E1 & Hg1 & G1 & Gid & Hi1 & Hc1); [lia|done|].
  unfold append_to_state. rewrite E1. cbn [fail_with mbind outcome_bind].
  change (get_room_shortstatehash debug (str (room_id pdu)) (set_globals (room_world r) g1))
    with (get_room_shortstatehash debug (str (room_id pdu)) (room_world r)).
  rewrite (current_state_ok debug _ _ Hh). cbn [mbind outcome_bind]. fold prev in HS, Hf |- *.
  destruct (record_previous (set_globals (room_world r) g1) prev id) as (w1 & -> & Eg & Fr & Hrec).
  cbn [mbind outcome_bind globals set_globals] in *. rewrite Hk.
  destruct (parents_spec debug 2 (layers r) prev S) as (parents & st1 & -> & Hst & Hstk & Hwf & Htop & Hn);
    [by unfold max_entries|apply Hi|done..|]. cbn [mbind outcome_bind]. rewrite Eg.
  destruct (number_entry debug calculate_hash g1 (layers r) (type_text (event_type pdu)) (str sk) (str (event_id pdu)) id)
    as (k & g2 & -> & Hi2 & G2 & Gk & Huk & H0 & Huid & Ec & Hc2); [done|lia|done..|].
  cbn [fail_with mbind outcome_bind]. rewrite Ec. cbn [fail_with mbind outcome_bind].
  pose proof (known_map_grows debug _ _ _ (grows_trans debug _ _ _ G1 G2) Hkm) as Hkm2.
  pose proof (grows_events debug _ _ G2 _ _ Gid) as Gid2.
  pose proof (replaced_exact parents S m k Htop Hm Huk) as Er. rewrite Er. case_decide as D.
  - destruct (m !! k) as [id'|] eqn:Em; [|done]. cbn in D.
    assert (id' = id) as ->.
    { destruct (proj2 Hm k id' Em) as (_ & _ & ?). apply (inj Some) in D. by apply compress_inj in D as [_ <-]. }
    assert (exists p, prev = Some p) as [p Ep].
    { destruct prev as [p|]; [eauto|]. cbn in HS. exfalso. rewrite HS in Hm.
      apply (not_elem_of_empty (C := CompressedState) (compress_state_event k id)), Hm. eauto. }
    rewrite Ep in *. cbn [expect mbind outcome_bind]. eexists p, _. split; [done|]. split; [|split].
    + eapply append_present with (m := m) (k := k); try done. by eapply grows_trans.
    + done.
    + exists id. split; [done|]. cbn. intros p' [= <-]. by apply Hrec.
  - assert (m !! k <> Some id) as Hne by (intros Em; apply D; by rewrite Em).
    destruct (save_replaced debug calculate_hash g2 (layers r) st1 parents S m k id)
      as (g3 & t & En & Hg3 & G3 & Esv & Hi3 & Hh3); try done; [lia|].
    rewrite En. cbn [fail_with mbind outcome_bind]. rewrite Er in Esv. rewrite Esv. cbn [fail_with mbind outcome_bind].
    eexists _, _. split; [done|]. split; [|split].
    + eapply append_replaced with (m := m) (k := k); try done. eapply grows_trans; [|done]. by eapply grows_trans.
    + done.
    + exists id. split; [by eapply grows_events|]. done.
Qed.

End append_facts.

(** ** The state of an event *)

Section event_state.
Context (debug : bool) {RR : RoomRuma} {L : LruCache Z ShortStateInfoVec} (calculate_hash : list bytes -> bytes).
Implicit Types (S : CompressedState) (r : Rooms) (st : Store).

(** The difference to the room's state is small enough. *)
Definition diff_fits st (prev : option Z) S : Prop :=
  (zsize S <= max_entries)%Z /\ forall p l, prev = Some p -> represents debug (statediff st) p l ->
    (zsize (S ∖ top_full l) + zsize (top_full l ∖ S) + stack_size l <= max_entries)%Z.

Lemma zsize_empty : zsize ∅ = 0%Z.
Proof. done. Qed.

(** Saving the whole state as a difference to the room's. *)
Lemma save_whole db g st st1 parents S hs :
  compressor_inv debug calculate_hash db st -> (counter db < u64_max)%Z -> short_inv g ->
  hs = calculate_hash (iter S) -> counter g = (counter db + 1)%Z ->
  statehash_shortstatehash g = <[hs := u64_to_be_bytes (counter db + 1)]> (statehash_shortstatehash db) ->
  same_states debug st st1 -> stored_stack debug (statediff st) parents -> wf_stack parents -> state_ok S ->
  (zsize (S ∖ top_full parents) + zsize (top_full parents ∖ S) + stack_size parents <= max_entries)%Z ->
  exists t, save_state_from_diff (statediff st1) (counter db + 1) (S ∖ top_full parents) (top_full parents ∖ S)
      1000000 parents = Done t /\
    compressor_inv debug calculate_hash g (MkStore t (stateinfo_cache st1)) /\
    holds debug (MkStore t (stateinfo_cache st1)) (counter db + 1) S.
Proof.
  intros Hi Hc Hg Hhs Ec Et [Es Hk1] Hst Hwf HS Hb. pose proof (proj1 Hi) as (Hu & _).
  destruct (save_from_diff_spec debug parents (statediff st1) (counter db + 1) (S ∖ top_full parents)
              (top_full parents ∖ S) 1000000 S) as (t & E & Hsv); rewrite ?Es in *; try done.
  - by eapply next_fresh.
  - width_lia.
  - width_lia.
  - intros e He. apply HS. set_solver.
  - intros e He. apply (wf_full_ok parents Hwf). set_solver.
  - apply layer_of_difference.
  - exists t. split; [done|]. eapply compressor_inv_save with (st := st); try done.
    intros hs' v. rewrite Et, lookup_insert. case_decide; [|by right]. intros [= <-]. left. by subst.
Qed.

Lemma parents_diff st prev S P :
  cache_ok debug st -> state_at debug st prev P -> diff_fits st prev S ->
  exists parents st1, parents_of debug 4 prev st = Done (parents, st1) /\ same_states debug st st1 /\
    stored_stack debug (statediff st) parents /\ wf_stack parents /\
    (zsize (S ∖ top_full parents) + zsize (top_full parents ∖ S) + stack_size parents <= max_entries)%Z /\
    match head parents with
    | Some i => (S ∖ full_state i, full_state i ∖ S) | None => (S, ∅)
    end = (S ∖ top_full parents, top_full parents ∖ S).
Proof.
  intros Hc HP [Hb Hf].
  assert (forall l, match head l with
                    | Some i => (S ∖ full_state i, full_state i ∖ S) | None => (S, ∅)
                    end = (S ∖ top_full l, top_full l ∖ S)) as Hd.
  { intros [|i l]; [|done]. cbn. f_equal; set_solver. }
  unfold parents_of. destruct prev as [p|].
  - destruct HP as (l & R & _ & Hl). destruct (load_represents debug 4 p l st Hc R Hl) as (st1 & -> & ? & ?).
    exists l, st1. specialize (Hf p l eq_refl R). destruct R as (? & ? & _). split_and!; done.
  - exists [], st. specialize (Hd []). split_and!; try done. unfold top_full. cbn [head from_option stack_size foldr].
    replace (∅ ∖ S) with (∅ : CompressedState) by set_solver. rewrite difference_empty_L, zsize_empty. lia.
Qed.

Lemma hash_keeps_events db hs h b db' :
  get_or_create_shortstatehash debug db hs = Done (h, b, db') -> eventid_shorteventid db' = eventid_shorteventid db.
Proof.
  unfold get_or_create_shortstatehash, Short.next_count. destruct (get_u64 _ _ _); intros N; [by simplify_eq| |done..].
  repeat bind_inv N. destruct a as [c db1]. repeat bind_inv N0. by simplify_eq/=.
Qed.

Lemma set_event_state_run r eid room S P :
  rooms_inv debug calculate_hash r -> hashes_ok (room_world r) ->
  (counter (globals (room_world r)) + 2 <= u64_max)%Z -> utf8_valid eid = true -> state_ok S ->
  no_collision debug calculate_hash (layers r) S ->
  state_at debug (layers r) (current_state debug room (room_world r)) P ->
  diff_fits (layers r) (current_state debug room (room_world r)) S ->
  exists h r', set_event_state debug 4 calculate_hash eid room S r = Done (h, r') /\
    rooms_inv debug calculate_hash r' /\ holds debug (layers r') h S /\
    pdu_shortstatehash debug eid (room_world r') = Done h /\
    frame [shorteventid_shortstatehash] (room_world r) (room_world r').
Proof.
  intros Hi Hh Hc He HS Hcol HP Hf.
  destruct (number_event debug calculate_hash r eid Hi) as (id & g & E1 & Hg & G & Gid & Hi1 & Hc1); [lia|done|].
  unfold set_event_state. rewrite E1. cbn [fail_with mbind outcome_bind].
  change (get_room_shortstatehash debug room (set_globals (room_world r) g))
    with (get_room_shortstatehash debug room (room_world r)).
  rewrite (current_state_ok debug _ _ Hh). cbn [mbind outcome_bind globals set_globals].
  set (prev := current_state _ _ _) in *. set (hs := calculate_hash (iter S)).
  pose proof (shortstatehash_spec debug g hs Hg ltac:(lia)) as Hsh.
  destruct (statehash_shortstatehash g !! hs) as [v|] eqn:Ev.
  - destruct Hsh as (h & -> & Hu & ->). cbn [fail_with mbind outcome_bind]. rewrite put_event_state_eq.
    cbn [fail_with mbind outcome_bind]. eexists h, _. split; [done|].
    destruct Hi1 as (? & ? & T & ?). destruct (T hs _ Ev) as (h' & S' & Eh & Ehs & Hu' & Hh').
    apply u64_to_be_inj in Eh as <-; [|done..]. symmetry in Ehs. apply (Hcol _ _ Hh') in Ehs as ->. split_and!; try done.
    + eapply pdu_shortstatehash_spec; [done..|]. cbn. autorewrite with world. by rewrite lookup_insert_eq.
    + intros t Ht. cbn. rewrite maps_ins_ne by set_solver. done.
  - destruct Hsh as (g2 & Eh & Hg2 & Ec & Et). pose proof (hash_keeps_events _ _ _ _ _ Eh) as Ev2. rewrite Eh.
    cbn [fail_with mbind outcome_bind].
    destruct (parents_diff (layers r) prev S P) as (parents & st1 & -> & Hst & Hstk & Hwf & Hb & Hd); [apply Hi|done..|].
    cbn [mbind outcome_bind]. rewrite Hd.
    destruct (save_whole g g2 (layers r) st1 parents S hs) as (t & -> & Hi2 & Hh2); try done; [lia|].
    cbn [fail_with mbind outcome_bind]. rewrite put_event_state_eq. cbn [fail_with mbind outcome_bind].
    eexists _, _. split; [done|]. split_and!; try done.
    + apply (pdu_shortstatehash_spec debug eid id); [|apply (holds_hash debug _ _ _ Hh2)|].
      * change (get_u64 debug (eventid_shorteventid g2) eid = Done id). rewrite Ev2. exact Gid.
      * cbn. autorewrite with world. by rewrite lookup_insert_eq.
    + intros tb Ht. cbn. rewrite maps_ins_ne by set_solver. done.
Qed.

End event_state.

(** ** Claims *)

Section claims.
Context (debug : bool) {E : Engine} {I : Ids} {Js : Json} {JT : JsonText} {M : MemberJson} {J : PduJson}.
Context {R : Ruma} {RR : RoomRuma} {sched : Schedule} {L : LruCache Z ShortStateInfoVec}.
Context (calculate_hash : list bytes -> bytes).
Implicit Types (S : CompressedState) (r : Rooms) (pdu : Event).

Abbreviation state_id r h ty sk := (state_get_id debug 4 (room_world r) h ty sk (layers r)).1.

(** C8. Appending a state event to the state of its room gives a state in which the
    type and key of the event lead to it and every other type and key lead to
    what they led to before; the state the event was received in is recorded as
    the event's; and the invariant of the tables is kept. *)
Theorem append_updates_state r pdu sk S :
  appendable debug calculate_hash r pdu sk S ->
  exists h r', append_to_state debug 4 pdu r = Done (h, r') /\ rooms_inv debug calculate_hash r' /\
    (forall ty' sk' e, utf8_valid (type_text ty') = true -> utf8_valid sk' = true ->
       state_id r' h ty' sk' = Done e <->
       if decide ((type_text ty', sk') = (type_text (event_type pdu), str sk)) then e = str (event_id pdu)
       else exists p, current_state debug (str (room_id pdu)) (room_world r) = Some p /\ state_id r p ty' sk' = Done e) /\
    forall p, current_state debug (str (room_id pdu)) (room_world r) = Some p ->
      pdu_shortstatehash debug (str (event_id pdu)) (room_world r') = Done p.
Proof.
  intros Ha. destruct (append_run debug calculate_hash r pdu sk S Ha) as (h & r' & Er & [Hi' (S' & Hh & HS' & Hin)] & _ & id & Gid & Hrec).
  exists h, r'. destruct Ha as [Hi Hw _ _ _ _ _ HP _ HS]. split_and!; [done..| |].
  - intros ty' sk' e Ht Hs. rewrite (state_get_id_holds debug _ _ S' ty' sk' e) by (done || apply Hi'). rewrite Hin by done.
    case_decide; [done|]. destruct (current_state _ _ _) as [p|] eqn:Ep.
    + rewrite <- (state_get_id_holds debug (room_world r) p S ty' sk' e (layers r)) by (done || apply Hi). naive_solver.
    + cbn in HP. subst S. split; [|naive_solver]. intros (? & ? & _ & _ & ?). set_solver.
  - intros p Ep. eapply pdu_shortstatehash_spec; [done| |by apply Hrec].
    rewrite Ep in HP. by apply holds_hash in HP as [? _].
Qed.

(** C24. The state that appending gives is again a map: no type and key has two
    events, and every number in it stands for a known key and a known event. *)
Theorem states_stay_maps r pdu sk S :
  appendable debug calculate_hash r pdu sk S ->
  exists h r' S', append_to_state debug 4 pdu r = Done (h, r') /\ holds debug (layers r') h S' /\
    known_state debug (globals (room_world r')) S' /\
    forall ty' sk' e e', utf8_valid ty' = true -> utf8_valid sk' = true ->
      in_state debug (globals (room_world r')) S' ty' sk' e ->
      in_state debug (globals (room_world r')) S' ty' sk' e' -> e = e'.
Proof.
  intros Ha. destruct (append_run debug calculate_hash r pdu sk S Ha) as (h & r' & Er & [Hi' (S' & Hh & HS' & _)] & _).
  exists h, r', S'. split_and!; [done..|]. intros ty' sk' e e' Ht Hs. destruct HS' as (m & Hm & _).
  rewrite !(in_state_map debug _ _ m) by (done || apply Hi'). intros (k & id & ? & ? & ?) (k' & id' & ? & ? & ?).
  assert (k' = k) as -> by congruence. assert (id' = id) as -> by congruence.
  by apply (get_shorteventid_inj debug _ e e' id (proj1 Hi')).
Qed.

(** An event without a state key leaves the state as it is and is recorded with
    it; in a room that has no state yet it panics. *)
Theorem append_message r pdu :
  rooms_inv debug calculate_hash r -> hashes_ok (room_world r) ->
  (counter (globals (room_world r)) < u64_max)%Z -> utf8_valid (str (event_id pdu)) = true -> state_key pdu = None ->
  match current_state debug (str (room_id pdu)) (room_world r) with
  | Some p => exists r', append_to_state debug 4 pdu r = Done (p, r') /\ layers r' = layers r /\
      (is_u64 p -> pdu_shortstatehash debug (str (event_id pdu)) (room_world r') = Done p)
  | None => append_to_state debug 4 pdu r = Panic
  end.
Proof.
  intros Hi Hh Hc He Hk. destruct (number_event debug calculate_hash r (str (event_id pdu)) Hi)
    as (id & g & E1 & Hg & G & Gid & Hi1 & Hc1); [done..|].
  unfold append_to_state. rewrite E1. cbn [fail_with mbind outcome_bind].
  change (get_room_shortstatehash debug (str (room_id pdu)) (set_globals (room_world r) g))
    with (get_room_shortstatehash debug (str (room_id pdu)) (room_world r)).
  rewrite (current_state_ok debug _ _ Hh). cbn [mbind outcome_bind]. rewrite Hk.
  set (prev := current_state _ _ _).
  destruct (record_previous debug (set_globals (room_world r) g) prev id) as (w1 & -> & Eg & Fr & Hrec).
  cbn [mbind outcome_bind]. destruct prev as [p|]; cbn [expect mbind outcome_bind]; [|done].
  eexists. split_and!; [done..|]. intros Hp. apply (pdu_shortstatehash_spec debug _ id p); [|done|by apply Hrec].
  change (get_shorteventid debug (globals w1) (str (event_id pdu)) = Done id). by rewrite Eg.
Qed.

(** The state given for an incoming event is stored and is what is read for that
    event, also when the room's state was stored in layers, provided no other
    stored state has the same hash. *)
Theorem event_state_reads_back r eid room S P :
  rooms_inv debug calculate_hash r -> hashes_ok (room_world r) ->
  (counter (globals (room_world r)) + 2 <= u64_max)%Z -> utf8_valid eid = true -> state_ok S ->
  no_collision debug calculate_hash (layers r) S ->
  state_at debug (layers r) (current_state debug room (room_world r)) P ->
  diff_fits debug (layers r) (current_state debug room (room_world r)) S ->
  exists h r' st', set_event_state debug 4 calculate_hash eid room S r = Done (h, r') /\
    rooms_inv debug calculate_hash r' /\ pdu_shortstatehash debug eid (room_world r') = Done h /\
    load_full_state debug 4 h (layers r') = (Done S, st') /\
    forall room', get_room_shortstatehash debug room' (room_world r') = get_room_shortstatehash debug room' (room_world r).
Proof.
  intros Hi Hh Hc He HS Hn HP Hf.
  destruct (set_event_state_run debug calculate_hash r eid room S P Hi Hh Hc He HS Hn HP Hf)
    as (h & r' & Er & Hi' & Hh' & Hp & Hfr).
  destruct (load_full_state_holds debug (layers r') h S) as (st' & El & _); [apply Hi'|done|].
  exists h, r', st'. split_and!; [done..|]. intros room'. unfold get_room_shortstatehash. by rewrite Hfr by set_solver.
Qed.

(** A state that is forced on a room is its current state afterwards, and no
    stored state changes. *)
Theorem force_state_current fuel first cfg predecessor room h diff r r' :
  is_u64 h -> force_state (E := E) (sched := sched) debug first cfg predecessor room h diff r = Done r' ->
  get_room_shortstatehash debug room (room_world r') = Done h /\ layers r' = layers r /\
  load_full_state debug fuel h (layers r') = load_full_state debug fuel h (layers r).
Proof.
  intros Hh Hf. unfold force_state in Hf. bind_inv Hf. bind_inv Hf. rename a0 into r1.
  assert (layers r1 = layers r) as Hl.
  { clear - Hf1. revert r r1 Hf1. induction a as [|e l IH]; intros r r1 Hf; [by injection Hf as <-|].
    cbn [try_fold] in Hf. bind_inv Hf. rewrite (IH _ _ Hf). clear - Hf0. unfold force_entry in Hf0.
    repeat first [bind_inv Hf0 | case_match]; by simplify_eq/=. }
  bind_inv Hf. unfold set_room_state in Hf. rewrite upd_count in Hf. cbn [fail_with mbind outcome_bind] in Hf.
  injection Hf as <-. cbn [layers]. split; [|by rewrite Hl]. unfold get_room_shortstatehash. cbn.
  apply get_u64_be; [|done]. autorewrite with world. by rewrite lookup_insert_eq.
Qed.

End claims.

(** ** Witnesses *)

Module ToyRooms.

Definition no_json : PduJson :=
  {| de_pdu := fun _ => None; json_object_ok := fun _ => true; de_unsigned := fun _ => None;
     ser_unsigned := fun _ => []; ser_int := fun _ => [] |}.

(** Wire names are not needed: a type is its number or its name. *)
Definition toy_room_ruma : RoomRuma :=
  {| type_text := fun t => match EventType_code t with inl n => replicate (S n) x2a | inr s => str s end;
     pdu_event := fun p => MkEvent (unstr (pdu_event_id p)) "!r:a" (unstr (pdu_sender p)) (pdu_ts p) RoomCreate "" None [] [] None;
     de_member := fun _ => Some Join; de_history_visibility := fun _ => None; de_guest_access := fun _ => None;
     de_join_rules := fun _ => None; de_create_type := fun _ => None; de_create_version := fun _ => None;
     de_alias := fun _ => None; de_name := Some; de_topic := Some; de_avatar := Some; de_encryption := Some;
     de_power_levels := fun _ => None; can_redact_other := fun _ _ => false; can_redact_own := fun _ _ => true |}.
#[local] Existing Instance toy_room_ruma.
#[local] Existing Instance no_json.
#[local] Existing Instance list_engine.
#[local] Existing Instance toy_ids.
#[local] Existing Instance one_stack.

Definition room : string := "!r:a".
Definition event (id : string) (ty : EventType) (key : option string) : Event :=
  MkEvent id room "@alice:a" 0 ty "" key [] [] None.
Definition create := event "$create" RoomCreate (Some "").
Definition alice := event "$alice" RoomMember (Some "@alice:a").
Definition name1 := event "$name1" RoomName (Some "").
Definition name2 := event "$name2" RoomName (Some "").

Definition empty_rooms : Rooms := MkRooms (MkCache (MkWorld (fun _ => ∅) empty_db) ∅) empty_store ∅.

(** Appends an event and makes the result the room's state. *)
Definition step (r : Rooms) (pdu : Event) : outcome RoomError Rooms :=
  '(h, r) ← append_to_state true 4 pdu r;
  w ← fail_with RoomCodec (set_room_state true (str room) h (room_world r));
  Done (with_db r w).

Definition lookup_id (ty : EventType) (key : string) (r : Rooms) : outcome RoomError bytes :=
  (room_state_get_id true 4 (room_world r) (str room) ty (str key) (layers r)).1.

Example four_events :
  (r ← try_fold step empty_rooms [create; alice; name1; name2];
   a ← lookup_id RoomCreate "" r; b ← lookup_id RoomMember "@alice:a" r; c ← lookup_id RoomName "" r;
   Done (a, b, c)) = Done (str "$create", str "$alice", str "$name2").
Proof. vm_compute. reflexivity. Qed.

Lemma empty_appendable : appendable true marked empty_rooms create "" ∅.
Proof.
  split; try done.
  - apply empty_compressor_inv.
  - exists ∅. split; [split|]; [|by intros k id ?%lookup_empty_Some..].
    intros e. split; [set_solver|]. intros (k & id & ?%lookup_empty_Some & _). done.
Qed.

Lemma append_updates_state_witness :
  exists h r', append_to_state true 4 create empty_rooms = Done (h, r') /\
    (state_get_id true 4 (room_world r') h RoomCreate [] (layers r')).1 = Done (str "$create").
Proof.
  destruct (append_updates_state true marked empty_rooms create "" ∅ empty_appendable)
    as (h & r' & Er & _ & Hst & _). exists h, r'. split; [assumption|]. by apply Hst.
Defined.

Lemma states_stay_maps_witness :
  exists h r' S', append_to_state true 4 create empty_rooms = Done (h, r') /\ holds true (layers r') h S' /\
    known_state true (globals (room_world r')) S'.
Proof.
  destruct (states_stay_maps true marked empty_rooms create "" ∅ empty_appendable)
    as (h & r' & S' & ? & ? & ? & _). exists h, r', S'. split_and!; assumption.
Defined.

Lemma append_message_witness :
  append_to_state true 4 (event "$hello" (OtherType "m.room.message") None) empty_rooms = Panic.
Proof.
  apply (append_message true marked empty_rooms (event "$hello" (OtherType "m.room.message") None));
    [apply empty_compressor_inv|done..].
Defined.

Lemma event_state_reads_back_witness :
  exists h r' st', set_event_state true 4 marked (str "$alice") (str room) state1 empty_rooms = Done (h, r') /\
    load_full_state true 4 h (layers r') = (Done state1, st').
Proof.
  destruct (event_state_reads_back true marked empty_rooms (str "$alice") (str room) state1 ∅)
    as (h & r' & st' & ? & _ & _ & ? & _); [apply empty_compressor_inv|done..|apply state1_ok|apply marked_no_collision|done| |].
  - split; [pose proof state1_size; unfold max_entries; lia|done].
  - exists h, r', st'. split; assumption.
Defined.

Lemma extremities_roundtrip_witness :
  exists w' l, set_forward_extremities true (str room) [str "$a"; str "$b"] (empty_world 0) = Done w' /\
    get_forward_extremities true ascii_ok (str room) w' = Done l /\ NoDup l /\ forall e, e ∈ l <-> e ∈ [str "$a"; str "$b"].
Proof.
  destruct (extremities_roundtrip true ascii_ok ascii_utf8 (str room) [str "$a"; str "$b"] (empty_world 0))
    as (w' & l & ? & _ & _ & ? & ? & ? & _); [by intros k [? ?]|done|by repeat constructor|].
  exists w', l. split_and!; assumption.
Defined.

Definition no_members : MemberJson :=
  {| de_tag := fun _ => None; de_direct := fun _ => None; ser_direct := fun _ => []; de_ignored := fun _ => None |}.

Definition forced : outcome RoomError Rooms := force_state (Js := toy_arrays) (JT := toy_json) (M := no_members) (sched := in_order)
  true true (MkConfig (str "a") false) (fun _ _ => None) (str room) 7 ∅ empty_rooms.

Lemma forced_ends : match forced with Done _ => true | _ => false end = true.
Proof. vm_compute. reflexivity. Qed.

Lemma done_of {Er A} (o : outcome Er A) : match o with Done _ => true | _ => false end = true -> is_done o.
Proof. destruct o; [by eexists|done..]. Qed.

Lemma force_state_current_witness :
  exists r', forced = Done r' /\ get_room_shortstatehash true (str room) (room_world r') = Done 7%Z.
Proof.
  destruct (done_of forced forced_ends) as [r' Ef]. exists r'. split; [exact Ef|].
  refine (proj1 (force_state_current (Js := toy_arrays) (JT := toy_json) (M := no_members) (sched := in_order)
    true 4 true (MkConfig (str "a") false) (fun _ _ => None) (str room) 7 ∅ empty_rooms r' _ Ef)). width_lia.
Defined.

End ToyRooms.
