(* ===== verification/RoomTables.v ===== *)
(** * What is kept beside the events of a room

    Models the services that index events or count for users:
    [src/service/rooms/pdu_metadata] (relations, referenced and soft-failed
    events), [src/service/rooms/read_receipt/data.rs], [src/service/rooms/user]
    (notification counts and sync tokens), [src/service/rooms/search] (the index
    of words) and the participants of [src/service/rooms/threads]. *)

From stdpp Require Import prelude gmap strings list sorting.
From Stdlib Require Import ZArith Lia.
From Stdlib Require Import Strings.Byte.
From S2P Require Import Prelude MachineInt PduCount DbCodec DbMap CoreUtils Short World StateCache Timeline.
Import Count PduId.

(** ** [pdu_metadata] *)

Section pdu_metadata.
Context (debug : bool) {E : Engine} {J : PduJson}.

Definition data_add_relation (from to : Z) (w : World) : outcome CodecError World :=
  upd tofrom_relation (fun t => aput_raw debug 16 t (VSeq [VU64 to; VU64 from]) []) w.

Definition add_relation (from to : count) (w : World) : outcome CodecError World :=
  match from, to with
  | Normal f, Normal t => data_add_relation f t w
  | _, _ => Done w
  end.

(** [u64_from_u8(&to_from[8..16])] *)
Definition relation_from (key : bytes) : outcome TimelineError count :=
  if decide (length key < 16) then Panic else
  match Bytes.u64_from_u8 (take 8 (drop 8 key)) with Done n => Done (from_unsigned n) | _ => Panic end.

(** The events that relate to [target], from a position on. *)
Definition relation_keys (target : Z) (from : count) (dir : Count.Direction) (w : World) : list bytes :=
  let current := u64_to_be_bytes target ++ u64_to_be_bytes (into_unsigned (saturating_inc from dir)) in
  take_while (fun k => u64_to_be_bytes target `prefix_of` k)
    (match dir with
     | Count.Forward => raw_keys_from (maps w tofrom_relation) current
     | Backward => rev_raw_keys_from (maps w tofrom_relation) current
     end).

(** [wide_filter_map]: an event that cannot be read is left out. *)
Definition relation_pdu (user_id : bytes) (shortroomid : Z) (w : World) (c : count) : option (count * Pdu) :=
  match get_pdu_from_id (raw_from_id (MkId shortroomid c)) w with
  | Done pdu =>
      Some (c, if decide (pdu_sender pdu <> user_id) then or_unchanged remove_transaction_id pdu else pdu)
  | _ => None
  end.

Definition data_get_relations (user_id : bytes) (shortroomid target : Z) (from : count) (dir : Count.Direction)
    (w : World) : outcome TimelineError (list (count * Pdu)) :=
  counts ← try_map relation_from (relation_keys target from dir w);
  Done (omap (relation_pdu user_id shortroomid w) (counts : list count)).

Definition normal_or_zero (c : count) : Z := match c with Normal n => n | Backfilled _ => 0 end.

(** One event of the stack: its relations, until the limit is reached; [true]
    when it is. *)
Fixpoint push_relations (relations : list (count * Pdu)) (depth max_depth : Z) (limit : nat)
    (pdus : list (count * Pdu)) (stack : list ((count * Pdu) * Z))
    : bool * list (count * Pdu) * list ((count * Pdu) * Z) :=
  match relations with
  | [] => (false, pdus, stack)
  | relation :: relations =>
      let stack := if (depth <? max_depth)%Z then (relation, saturate 0 255 (depth + 1)) :: stack else stack in
      let pdus := pdus ++ [relation] in
      if decide (limit <= length pdus) then (true, pdus, stack)
      else push_relations relations depth max_depth limit pdus stack
  end.

(** ['limit: while let Some(stack_pdu) = stack.pop()] *)
Fixpoint relation_loop (fuel : nat) (user_id : bytes) (shortroomid : Z) (from : count) (limit : nat) (max_depth : Z)
    (dir : Count.Direction) (w : World) (pdus : list (count * Pdu)) (stack : list ((count * Pdu) * Z))
    : outcome TimelineError (list (count * Pdu)) :=
  match stack, fuel with
  | [], _ => Done pdus
  | _, O => OutOfFuel
  | ((c, _), depth) :: stack, S fuel =>
      relations ← data_get_relations user_id shortroomid (normal_or_zero c) from dir w;
      let '(full, pdus, stack) := push_relations relations depth max_depth limit pdus stack in
      if (full : bool) then Done pdus
      else relation_loop fuel user_id shortroomid from limit max_depth dir w pdus stack
  end.

Definition get_relations (fuel : nat) (user_id room_id target : bytes) (from : count) (limit : nat) (max_depth : Z)
    (dir : Count.Direction) (w : World) : outcome TimelineError (list (count * Pdu)) :=
  match get_shortroomid debug (globals w) room_id, get_pdu_count target w with
  | Done shortroomid, Done target =>
      pdus ← data_get_relations user_id shortroomid (normal_or_zero target) from dir w;
      let stack := (fun pdu => (pdu, 1%Z)) <$> (if (0 <? max_depth)%Z then pdus else []) in
      relation_loop fuel user_id shortroomid from limit max_depth dir w pdus (reverse stack)
  | Panic, _ | _, Panic => Panic
  | _, _ => Done []
  end.

Definition mark_one_referenced (room_id : bytes) (w : World) (prev : bytes) : outcome CodecError World :=
  upd referencedevents (fun t => put_raw debug t (pair_key room_id prev) []) w.
Definition mark_as_referenced (room_id : bytes) (event_ids : list bytes) (w : World) : outcome CodecError World :=
  try_fold (mark_one_referenced room_id) w event_ids.

Definition is_event_referenced (room_id event_id : bytes) (w : World) : outcome CodecError bool :=
  has_key debug referencedevents room_id event_id w.

Definition mark_event_soft_failed (event_id : bytes) (w : World) : World := ins softfailedeventids event_id [] w.
Definition is_event_soft_failed (event_id : bytes) (w : World) : bool :=
  bool_decide (is_Some (maps w softfailedeventids !! event_id)).

End pdu_metadata.

(** ** [read_receipt/data.rs] *)

Section read_receipt.
Context (debug : bool) {E : Engine}.

(** [rev_keys_from_raw(&(room_id, u64::MAX))], with the keys of the user among
    those that begin with the room. *)
Definition receipt_keys (user_id room_id : bytes) (w : World) : outcome CodecError (list bytes) :=
  last ← serialize_key debug (VTuple [VStr room_id; VU64 u64_max]);
  Done (filter (fun k => user_id `suffix_of` k)
    (take_while (fun k => room_id `prefix_of` k) (rev_raw_keys_from (maps w readreceiptid_readreceipt) last))).

(** A raw key that is serialized: a sequence of bytes. *)
Definition byte_seq (k : bytes) : value := VSeq ((fun b => VU8 (Z_of_byte b)) <$> k).

Definition drop_receipt (w : World) (k : bytes) : outcome CodecError World :=
  upd readreceiptid_readreceipt (fun t => del debug t (byte_seq k)) w.

Definition readreceipt_update (user_id room_id event : bytes) (w : World) : outcome CodecError World :=
  ks ← receipt_keys user_id room_id w;
  w ← try_fold drop_receipt w (ks : list bytes);
  '(count, w) ← next_count debug w;
  upd readreceiptid_readreceipt
    (fun t => put debug t (VTuple [VStr room_id; VU64 count; VStr user_id]) (VJson event)) w.

Definition put_count (t : tbl) (a b : bytes) (n : Z) (w : World) : outcome CodecError World :=
  upd t (fun m => put debug m (pair_key a b) (VU64 n)) w.

(** [qry(&key).await.deserialized().unwrap_or(0)] *)
Definition count_or_zero (t : tbl) (a b : bytes) (w : World) : outcome CodecError Z :=
  match de_count debug (qry debug (maps w t) (pair_key a b)) with
  | Done n => Done n | Fail _ => Done 0%Z | Panic => Panic | OutOfFuel => OutOfFuel
  end.

Definition private_read_set (room_id user_id : bytes) (pdu_count : Z) (w : World) : outcome CodecError World :=
  '(count, w) ← next_count debug w;
  w ← put_count roomuserid_privateread room_id user_id pdu_count w;
  put_count roomuserid_lastprivatereadupdate room_id user_id count w.

Definition private_read_get_count (room_id user_id : bytes) (w : World) : outcome DbError Z :=
  de_count debug (qry debug (maps w roomuserid_privateread) (pair_key room_id user_id)).

Definition last_privateread_update (user_id room_id : bytes) (w : World) : outcome CodecError Z :=
  count_or_zero roomuserid_lastprivatereadupdate room_id user_id w.

(** ** [rooms/user/mod.rs]

    The field [roomuserid_lastnotificationread] is opened on the table
    [userroomid_highlightcount]. *)

Definition roomuserid_lastnotificationread : tbl := userroomid_highlightcount.

Definition reset_notification_counts (user_id room_id : bytes) (w : World) : outcome CodecError World :=
  w ← put_count userroomid_highlightcount user_id room_id 0 w;
  w ← put_count userroomid_notificationcount user_id room_id 0 w;
  '(count, w) ← next_count debug w;
  put_count roomuserid_lastnotificationread room_id user_id count w.

Definition notification_count (user_id room_id : bytes) (w : World) : outcome CodecError Z :=
  count_or_zero userroomid_notificationcount user_id room_id w.
Definition highlight_count (user_id room_id : bytes) (w : World) : outcome CodecError Z :=
  count_or_zero userroomid_highlightcount user_id room_id w.
Definition last_notification_read (user_id room_id : bytes) (w : World) : outcome CodecError Z :=
  count_or_zero roomuserid_lastnotificationread room_id user_id w.

Definition associate_token_shortstatehash (room_id : bytes) (token shortstatehash : Z) (w : World)
    : outcome CodecError World :=
  match get_shortroomid debug (globals w) room_id with
  | Done shortroomid =>
      upd roomsynctoken_shortstatehash
        (fun t => put debug t (VSeq [VU64 shortroomid; VU64 token]) (VU64 shortstatehash)) w
  | OutOfFuel => OutOfFuel
  | _ => Panic
  end.

Definition get_token_shortstatehash (room_id : bytes) (token : Z) (w : World) : outcome DbError Z :=
  match get_shortroomid debug (globals w) room_id with
  | Done shortroomid =>
      de_count debug (qry debug (maps w roomsynctoken_shortstatehash) (VSeq [VU64 shortroomid; VU64 token]))
  | Fail _ => Fail NotFound
  | Panic => Panic
  | OutOfFuel => OutOfFuel
  end.

End read_receipt.

(** ** [search] *)

(** [char::is_alphanumeric] and [str::to_lowercase]; a character is its bytes. *)
Class Unicode := {
  is_alphanumeric : bytes -> bool;
  to_lowercase : bytes -> bytes }.

(** The characters of a valid text. *)
Fixpoint chars (b : bytes) : list bytes :=
  match b with
  | [] => []
  | b0 :: l =>
      if in_range 0x00 0x7F b0 then [b0] :: chars l else
      match l with
      | [] => [[b0]]
      | b1 :: l =>
          if in_range 0xC2 0xDF b0 then [b0; b1] :: chars l else
          match l with
          | [] => [[b0; b1]]
          | b2 :: l =>
              if in_range 0xE0 0xEF b0 then [b0; b1; b2] :: chars l else
              match l with
              | [] => [[b0; b1; b2]]
              | b3 :: l => [b0; b1; b2; b3] :: chars l
              end
          end
      end
  end.

Section search.
Context {U : Unicode} {E : Engine} (debug : bool).

Definition WORD_MAX_LEN : nat := 50.
(** [size_of::<ShortRoomId>() + WORD_MAX_LEN + 1 + size_of::<RawPduId>()]: a
    [RawPduId] is a tag and at most 24 bytes. *)
Definition TOKEN_ID_MAX_LEN : nat := 8 + WORD_MAX_LEN + 1 + 25.

(** The parts between characters that are not alphanumeric. *)
Fixpoint split_words (word : bytes) (cs : list bytes) : list bytes :=
  match cs with
  | [] => [word]
  | c :: cs => if is_alphanumeric c then split_words (word ++ c) cs else word :: split_words [] cs
  end.

Definition tokenize (body : bytes) : list bytes :=
  to_lowercase <$>
    filter (fun word => length word <= WORD_MAX_LEN)
      (filter (fun word => word <> []) (split_words [] (chars body))).

Definition token_key (shortroomid : Z) (pdu_id : RawId) (word : bytes) : bytes :=
  u64_to_be_bytes shortroomid ++ word ++ SEP :: as_bytes pdu_id.

Definition index_pdu (shortroomid : Z) (pdu_id : RawId) (message_body : bytes) (w : World) : World :=
  set_map tokenids
    (insert_batch (maps w tokenids) ((fun word => (token_key shortroomid pdu_id word, [])) <$> tokenize message_body)) w.

Definition deindex_pdu (shortroomid : Z) (pdu_id : RawId) (message_body : bytes) (w : World) : World :=
  foldl (fun w word => rem tokenids (token_key shortroomid pdu_id word) w) w (tokenize message_body).

(** An [ArrayVec] that cannot take more bytes panics. *)
Definition array_extend (key more : bytes) : outcome ShortError bytes :=
  if decide (length (key ++ more) <= TOKEN_ID_MAX_LEN) then Done (key ++ more) else Panic.

Definition make_prefix (shortroomid : Z) (word : bytes) : outcome ShortError bytes :=
  key ← array_extend [] (u64_to_be_bytes shortroomid);
  key ← array_extend key word;
  array_extend key [SEP].

Definition make_tokenid (shortroomid : Z) (word : bytes) (pdu_id : RawId) : outcome ShortError bytes :=
  key ← make_prefix shortroomid word; array_extend key (as_bytes pdu_id).

Definition prefix_len (word : bytes) : nat := 8 + length word + 1.

Definition search_pdu_ids_query_word (shortroomid : Z) (word : bytes) (w : World) : outcome ShortError (list bytes) :=
  let end_id := raw_from_id (MkId shortroomid max) in
  fin ← make_tokenid shortroomid word end_id;
  prefix ← make_prefix shortroomid word;
  Done (take_while (fun k => (prefix : bytes) `prefix_of` k) (rev_raw_keys_from (maps w tokenids) fin)).

Definition token_pdu_id (word key : bytes) : outcome ShortError RawId :=
  match raw_from_bytes (drop (prefix_len word) key) with Done id => Done id | _ => Panic end.

Definition search_pdu_ids_query_words (shortroomid : Z) (w : World) (word : bytes) : outcome ShortError (list RawId) :=
  keys ← search_pdu_ids_query_word shortroomid word w;
  try_map (token_pdu_id word) keys.

Definition search_pdu_ids_query_room (search_term : bytes) (shortroomid : Z) (w : World)
    : outcome ShortError (list (list RawId)) :=
  try_map (search_pdu_ids_query_words shortroomid w) (tokenize search_term).

#[export] Instance RawId_eq_dec : EqDecision RawId.
Proof. solve_decision. Defined.

Definition search_pdu_ids (room_id search_term : bytes) (w : World) : outcome ShortError (list RawId) :=
  shortroomid ← get_shortroomid debug (globals w) room_id;
  pdu_ids ← search_pdu_ids_query_room search_term shortroomid w;
  Done (SetOps.intersection pdu_ids).

(** ** [threads]: the participants *)

Definition update_participants (root_id : RawId) (participants : list bytes) (w : World) : World :=
  ins threadid_userids (as_bytes root_id) (join_sep participants) w.

End search.

(** ** Scans of keys *)

Lemma try_map_total {Er A B} (f : A -> outcome Er B) (g : A -> B) l :
  (forall a, a ∈ l -> f a = Done (g a)) -> try_map f l = Done (g <$> l).
Proof.
  induction l as [|a l IH]; intros Hf; [done|]. cbn [try_map]. rewrite Hf by left. cbn [mbind outcome_bind].
  rewrite IH; [done|]. intros b Hb. apply Hf. by right.
Qed.

Section key_scans.
Context {E : Engine}.

Lemma keys_backward t p start :
  p `prefix_of` start ->
  take_while (fun k => p `prefix_of` k) (rev_raw_keys_from t start) =
    reverse (filter (key_prefix p) (filter (key_upto start) (rows t))).*1.
Proof.
  intros Hp. unfold rev_raw_keys_from. rewrite take_while_fmap, <- fmap_reverse. f_equal. by apply scan_backward.
Qed.

Lemma keys_forward t p start :
  p `prefix_of` start ->
  take_while (fun k => p `prefix_of` k) (raw_keys_from t start) =
    (filter (key_prefix p) (filter (key_from start) (rows t))).*1.
Proof. intros Hp. unfold raw_keys_from. rewrite take_while_fmap. f_equal. by apply scan_forward. Qed.

Lemma elem_of_keys_backward t p start k :
  p `prefix_of` start ->
  k ∈ take_while (fun k => p `prefix_of` k) (rev_raw_keys_from t start) <->
  p `prefix_of` k /\ ord_le k start /\ is_Some (t !! k).
Proof.
  intros Hp. rewrite keys_backward by done. rewrite elem_of_reverse, list_elem_of_fmap. split.
  - intros ([k' v] & -> & Hin). rewrite !list_elem_of_filter, elem_of_rows in Hin.
    destruct Hin as (? & ? & ?). split_and!; [done..|eauto].
  - intros (? & ? & [v ?]). exists (k, v). by rewrite !list_elem_of_filter, elem_of_rows.
Qed.

Lemma elem_of_keys_forward t p start k :
  p `prefix_of` start ->
  k ∈ take_while (fun k => p `prefix_of` k) (raw_keys_from t start) <->
  p `prefix_of` k /\ ord_le start k /\ is_Some (t !! k).
Proof.
  intros Hp. rewrite keys_forward by done. rewrite list_elem_of_fmap. split.
  - intros ([k' v] & -> & Hin). rewrite !list_elem_of_filter, elem_of_rows in Hin.
    destruct Hin as (? & ? & ?). split_and!; [done..|eauto].
  - intros (? & ? & [v ?]). exists (k, v). by rewrite !list_elem_of_filter, elem_of_rows.
Qed.

Lemma keys_backward_sorted t p start :
  p `prefix_of` start ->
  StronglySorted (fun a b => ord_le b a /\ a <> b) (take_while (fun k => p `prefix_of` k) (rev_raw_keys_from t start)).
Proof.
  intros Hp. rewrite keys_backward by done. rewrite <- fmap_reverse.
  eapply sorted_fmap; [apply sorted_reverse, rows_strict|]. intros a b _ _ [Hle Hne]. split; [exact Hle|congruence].
Qed.

End key_scans.

(** ** The index of words *)

Section search_facts.
Context {U : Unicode} {E : Engine}.

(** Every row names a room, a word and a position of that room. *)
Definition tokens_ok (w : World) : Prop :=
  forall k, is_Some (maps w tokenids !! k) -> exists r c word,
    is_u64 r /\ position c /\ utf8_valid word = true /\ k = token_key r (raw_from_id (MkId r c)) word.

Definition word_prefix (r : Z) (word : bytes) : bytes := u64_to_be_bytes r ++ word ++ [SEP].

Lemma token_key_eq r id word : token_key r id word = word_prefix r word ++ as_bytes id.
Proof. unfold token_key, word_prefix. by rewrite <- !app_assoc. Qed.

Lemma word_prefix_of r r' word word' id :
  is_u64 r -> is_u64 r' -> utf8_valid word = true -> utf8_valid word' = true ->
  word_prefix r word `prefix_of` token_key r' id word' <-> r = r' /\ word = word'.
Proof.
  intros Hr Hr' Hw Hw'. split.
  - intros [x Hx]. unfold token_key, word_prefix in Hx. rewrite <- !app_assoc in Hx.
    apply app_inj_1 in Hx as [Ei Hx]; [|by rewrite !length_u64_to_be]. apply u64_to_be_inj in Ei; [|done..].
    apply sep_split in Hx as [-> _]; [done|by apply utf8_no_sep..].
  - intros [-> ->]. rewrite token_key_eq. by apply prefix_app_r.
Qed.

Lemma position_max : position max.
Proof. split; [|done]. change max with (Normal i64_max). cbn. width_lia. Qed.

Lemma relation_below_max c : position c -> cmp c max <> Gt.
Proof.
  intros [Hc _]. apply cmp_not_gt_signed. change (into_signed max) with i64_max.
  pose proof (into_signed_range c Hc). width_lia.
Qed.

Lemma word_fits r word id :
  length word <= 59 -> length (as_bytes id) = 16 ->
  make_prefix r word = Done (word_prefix r word) /\ make_tokenid r word id = Done (token_key r id word).
Proof.
  intros Hl Hi.
  assert (make_prefix r word = Done (word_prefix r word)) as Hp.
  { unfold make_prefix, array_extend, TOKEN_ID_MAX_LEN, WORD_MAX_LEN. cbn [app].
    rewrite length_u64_to_be, decide_True by lia. cbn [mbind outcome_bind].
    rewrite length_app, length_u64_to_be, decide_True by lia. cbn [mbind outcome_bind].
    rewrite !length_app, length_u64_to_be. cbn [length]. rewrite decide_True by lia.
    unfold word_prefix. by rewrite <- app_assoc. }
  split; [done|]. unfold make_tokenid. rewrite Hp. cbn [mbind outcome_bind]. rewrite token_key_eq.
  unfold array_extend, TOKEN_ID_MAX_LEN, WORD_MAX_LEN. rewrite decide_True; [done|].
  unfold word_prefix. rewrite !length_app, length_u64_to_be, Hi. cbn [length]. lia.
Qed.

(** What a key of the index is for. *)
Definition key_id (word key : bytes) : RawId :=
  match raw_from_bytes (drop (prefix_len word) key) with Done id => id | _ => RawNormal [] end.

Lemma key_id_token r c word :
  is_u64 r -> position c ->
  token_pdu_id word (token_key r (raw_from_id (MkId r c)) word) = Done (raw_from_id (MkId r c)) /\
  key_id word (token_key r (raw_from_id (MkId r c)) word) = raw_from_id (MkId r c).
Proof.
  intros Hr [Hc _]. unfold token_pdu_id, key_id. rewrite token_key_eq.
  rewrite drop_app_length' by (unfold prefix_len, word_prefix; rewrite !length_app, length_u64_to_be; cbn; lia).
  fold (pkey r c). by rewrite (proj1 (pkey_count r c Hr Hc)).
Qed.

Lemma search_keys w r word :
  tokens_ok w -> is_u64 r -> utf8_valid word = true -> length word <= 59 ->
  exists ks, search_pdu_ids_query_word r word w = Done ks /\
    StronglySorted (fun a b => ord_le b a /\ a <> b) ks /\
    (forall k, k ∈ ks -> exists c, position c /\ k = token_key r (raw_from_id (MkId r c)) word) /\
    forall c, position c -> token_key r (raw_from_id (MkId r c)) word ∈ ks <->
      is_Some (maps w tokenids !! token_key r (raw_from_id (MkId r c)) word).
Proof.
  intros Hw Hr Hu Hl. unfold search_pdu_ids_query_word.
  set (end_id := raw_from_id (MkId r max)). destruct (word_fits r word end_id Hl eq_refl) as [-> ->].
  cbn [mbind outcome_bind]. eexists. split; [done|].
  assert (word_prefix r word `prefix_of` token_key r end_id word) as Hp by by apply word_prefix_of.
  split_and!.
  - by apply keys_backward_sorted.
  - intros k (Hk & _ & Hs)%elem_of_keys_backward; [|done].
    destruct (Hw k Hs) as (r' & c & word' & Hr' & Hc & Hu' & ->).
    apply word_prefix_of in Hk as [<- <-]; [|done..]. by exists c.
  - intros c Hc. rewrite elem_of_keys_backward by done. split; [by intros (_ & _ & ?)|]. intros Hs. split_and!; [|..|done].
    + by apply word_prefix_of.
    + rewrite !token_key_eq, ord_le_app. apply (pkey_le r c max); [done|done|apply position_max|by apply relation_below_max].
Qed.

(** Searching for a word lists the events of the room that are indexed under it,
    newest first, each once. *)
Theorem search_word_exact w r word :
  tokens_ok w -> is_u64 r -> utf8_valid word = true -> length word <= 59 ->
  exists cs, search_pdu_ids_query_words r w word = Done ((fun c => raw_from_id (MkId r c)) <$> cs) /\
    StronglySorted (fun c d => cmp d c = Lt) cs /\
    forall c, c ∈ cs <-> position c /\ is_Some (maps w tokenids !! token_key r (raw_from_id (MkId r c)) word).
Proof.
  intros Hw Hr Hu Hl. destruct (search_keys w r word Hw Hr Hu Hl) as (ks & Ek & Hs & Hks & Hin).
  unfold search_pdu_ids_query_words. rewrite Ek. cbn [mbind outcome_bind].
  exists (pdu_count ∘ key_id word <$> ks).
  assert (forall c, position c -> pdu_count (key_id word (token_key r (raw_from_id (MkId r c)) word)) = c) as Hc.
  { intros c Hc. rewrite (proj2 (key_id_token r c word Hr Hc)). by apply pkey_count; [|apply Hc]. }
  split_and!.
  - rewrite <- list_fmap_compose. apply try_map_total. intros k (c & Pc & ->)%Hks. unfold compose. rewrite Hc by done.
    by apply key_id_token.
  - eapply sorted_fmap; [exact Hs|]. intros a b (c & Pc & ->)%Hks (d & Pd & ->)%Hks [Hle Hne].
    unfold compose. rewrite !Hc by done. rewrite !token_key_eq, ord_le_app in Hle.
    apply (pkey_le r d c) in Hle; [|done..]. destruct (cmp d c) eqn:Ed; [|done|done].
    destruct Hne. do 2 f_equal. symmetry. apply canonical_inj in Ed; [congruence|apply Pd|apply Pc].
  - intros c. rewrite list_elem_of_fmap. split.
    + intros (k & -> & Hk). destruct (Hks k Hk) as (c & Pc & ->). unfold compose. rewrite Hc by done.
      split; [done|]. by apply Hin.
    + intros [Pc Hs']. exists (token_key r (raw_from_id (MkId r c)) word). split; [symmetry; by apply Hc|].
      by apply Hin.
Qed.

(** *** Writing the index *)

Lemma index_keys r id body w k :
  is_Some (maps (index_pdu r id body w) tokenids !! k) <->
  k ∈ (token_key r id <$> tokenize body) \/ is_Some (maps w tokenids !! k).
Proof.
  unfold index_pdu. autorewrite with world. generalize (tokenize body). generalize (maps w tokenids). unfold insert_batch.
  intros t l. revert t. induction l as [|a l IH]; intros t; cbn [fmap list_fmap foldl]; [set_solver|].
  rewrite IH. cbn [fst snd]. rewrite insert_key_Some. set_solver.
Qed.

Lemma deindex_keys r id body w k :
  is_Some (maps (deindex_pdu r id body w) tokenids !! k) <->
  k ∉ (token_key r id <$> tokenize body) /\ is_Some (maps w tokenids !! k).
Proof.
  unfold deindex_pdu. generalize (tokenize body). intros l. revert w.
  induction l as [|a l IH]; intros w; cbn [fmap list_fmap foldl]; [set_solver|].
  rewrite IH. autorewrite with world. rewrite delete_key_Some. set_solver.
Qed.

(** Taking a message out of the index undoes putting it in, when none of its
    words was there for that event before; the words of other events stay. *)
Theorem deindex_undoes_index r id body w k :
  (forall word, word ∈ tokenize body -> maps w tokenids !! token_key r id word = None) ->
  is_Some (maps (deindex_pdu r id body (index_pdu r id body w)) tokenids !! k) <-> is_Some (maps w tokenids !! k).
Proof.
  intros Hn. rewrite deindex_keys, index_keys. split; [tauto|]. intros Hs. split; [|by right].
  intros (word & -> & Hw)%list_elem_of_fmap. rewrite (Hn word Hw) in Hs. by destruct Hs.
Qed.

End search_facts.

(** ** Relations *)

Section relations.
Context (debug : bool) {E : Engine} {J : PduJson}.

Definition relation_key (to from : Z) : bytes := u64_to_be_bytes to ++ u64_to_be_bytes from.

(** Relations are kept between events of the timeline that were not
    backfilled. *)
Definition relations_ok (w : World) : Prop :=
  forall k, is_Some (maps w tofrom_relation !! k) -> exists to from,
    is_u64 to /\ (0 < from <= i64_max)%Z /\ k = relation_key to from.

Lemma write_fits b s n :
  cap s = Some n -> length (out s ++ b) <= n -> write b s = Done (set_out s (out s ++ b)).
Proof. intros Hc Hl. unfold write. rewrite Hc. cbn [from_option]. by rewrite (proj2 (Nat.leb_le _ _) Hl). Qed.

Lemma buffer_pair a b : buffer_serialize debug (Some 16) (VSeq [VU64 a; VU64 b]) = Done (relation_key a b).
Proof.
  unfold buffer_serialize, serialize. cbn [ser_value List.map ser_elements].
  unfold ser_sequence_start, debug_assert. cbn [fin negb]. rewrite andb_false_r. cbn [mbind outcome_bind].
  rewrite (write_fits _ _ 16); [|by destruct debug|
    destruct debug; cbn [out set_depth set_out app]; rewrite length_u64_to_be; lia].
  cbn [mbind outcome_bind]. rewrite (write_fits _ _ 16); [|by destruct debug|
    destruct debug; cbn [out set_depth set_out app]; rewrite length_app, !length_u64_to_be; lia].
  cbn [mbind outcome_bind]. by destruct debug.
Qed.

Lemma data_add_relation_eq from to w :
  data_add_relation debug from to w = Done (ins tofrom_relation (relation_key to from) [] w).
Proof.
  unfold data_add_relation, upd, aput_raw, bput_raw. by rewrite buffer_pair.
Qed.

Lemma relation_from_key to from :
  is_u64 to -> (0 < from <= i64_max)%Z -> relation_from (relation_key to from) = Done (Normal from).
Proof.
  intros Ht Hf. unfold relation_from, relation_key. rewrite length_app, !length_u64_to_be, decide_False by lia.
  rewrite drop_app_length' by by rewrite length_u64_to_be.
  rewrite take_ge by (rewrite length_u64_to_be; lia). rewrite Bytes.u64_from_u8_be by width_lia. do 2 f_equal.
  unfold from_unsigned, from_signed. rewrite as_i64_id by width_lia. rewrite (proj2 (Z.leb_gt _ _)) by lia. f_equal. apply as_u64_id. width_lia.
Qed.

(** The key a scan starts from. *)
Definition scan_start (from : count) (dir : Count.Direction) : Z := into_unsigned (saturating_inc from dir).

Lemma relation_keys_elem w target from dir k :
  k ∈ relation_keys target from dir w <->
  u64_to_be_bytes target `prefix_of` k /\ is_Some (maps w tofrom_relation !! k) /\
  match dir with
  | Count.Forward => ord_le (relation_key target (scan_start from dir)) k
  | Backward => ord_le k (relation_key target (scan_start from dir))
  end.
Proof.
  unfold relation_keys, relation_key, scan_start.
  destruct dir; [rewrite elem_of_keys_forward by by apply prefix_app_r|rewrite elem_of_keys_backward by by apply prefix_app_r];
    tauto.
Qed.

Lemma relation_keys_of w target from dir k :
  relations_ok w -> is_u64 target -> k ∈ relation_keys target from dir w ->
  exists f, (0 < f <= i64_max)%Z /\ k = relation_key target f.
Proof.
  intros Hw Ht (Hp & Hs & _)%relation_keys_elem. destruct (Hw k Hs) as (to & f & Hto & Hf & ->). exists f.
  split; [done|]. f_equal. destruct Hp as [x Hx]. unfold relation_key in Hx.
  apply app_inj_1 in Hx as [Hx _]; [|by rewrite !length_u64_to_be]. by apply u64_to_be_inj in Hx.
Qed.

Lemma relation_key_le target a b :
  is_u64 target -> is_u64 a -> is_u64 b -> ord_le (relation_key target a) (relation_key target b) <-> (a <= b)%Z.
Proof.
  intros Ht Ha Hb. unfold relation_key. rewrite ord_le_app.
  rewrite <- (app_nil_r (u64_to_be_bytes a)), <- (app_nil_r (u64_to_be_bytes b)), ord_le_u64 by done.
  split; [intros [?|[? _]]; lia|]. intros Hab. destruct (decide (a = b)) as [->|]; [right; by split|left; lia].
Qed.

Definition relation_count (k : bytes) : count := match relation_from k with Done c => c | _ => max end.

(** The relations of an event on one side of a position are those that were
    added: after it going forward, before it going backward. *)
Theorem relations_exact w target n dir :
  relations_ok w -> is_u64 target -> (0 < n < i64_max)%Z ->
  exists cs, try_map relation_from (relation_keys target (Normal n) dir w) = Done cs /\
    forall f, (0 < f <= i64_max)%Z ->
      Normal f ∈ cs <-> is_Some (maps w tofrom_relation !! relation_key target f) /\
                        match dir with Count.Forward => (n < f)%Z | Backward => (f < n)%Z end.
Proof.
  intros Hw Ht Hn. exists (relation_count <$> relation_keys target (Normal n) dir w).
  assert (forall f, (0 < f <= i64_max)%Z -> relation_count (relation_key target f) = Normal f) as Hc.
  { intros f Hf. unfold relation_count. by rewrite relation_from_key. }
  assert (scan_start (Normal n) dir = match dir with Count.Forward => (n + 1)%Z | Backward => (n - 1)%Z end) as Hs.
  { unfold scan_start. destruct dir; cbn; [apply u64_saturating_add_id|apply u64_saturating_sub_id]; width_lia. }
  split.
  - apply try_map_total. intros k (f & Hf & ->)%relation_keys_of; [|done..]. unfold relation_count. by rewrite relation_from_key.
  - intros f Hf. rewrite list_elem_of_fmap.
    assert (relation_key target f ∈ relation_keys target (Normal n) dir w <->
      is_Some (maps w tofrom_relation !! relation_key target f) /\
      match dir with Count.Forward => (n < f)%Z | Backward => (f < n)%Z end) as <-.
    { rewrite relation_keys_elem, Hs. assert (u64_to_be_bytes target `prefix_of` relation_key target f) by by apply prefix_app_r.
      destruct dir; rewrite relation_key_le by width_lia; split; intros; split_and!; naive_solver lia. }
    split; [|intros Hin; eexists; split; [symmetry; by apply Hc|done]].
    intros (k & Ek & Hk). destruct (relation_keys_of _ _ _ _ _ Hw Ht Hk) as (f' & Hf' & ->).
    rewrite Hc in Ek by done. by injection Ek as ->.
Qed.

(** Going forward from the first position, as a request without a start does, no
    relation is found: the first position is a negative number and its unsigned
    form is behind every other. *)
Theorem forward_from_start_finds_nothing w user r target :
  relations_ok w -> is_u64 target -> data_get_relations user r target min Count.Forward w = Done [].
Proof.
  intros Hw Ht. unfold data_get_relations.
  destruct (relation_keys target min Count.Forward w) as [|k ks] eqn:Ek; [done|]. exfalso.
  assert (k ∈ relation_keys target min Count.Forward w) as Hk by (rewrite Ek; left).
  pose proof Hk as (_ & _ & Hle)%relation_keys_elem.
  destruct (relation_keys_of _ _ _ _ _ Hw Ht Hk) as (f & Hf & ->).
  assert (scan_start min Count.Forward = 2 ^ 63 + 1)%Z as Hs by reflexivity. rewrite Hs in Hle.
  apply relation_key_le in Hle; [unfold i64_max in *; lia|width_lia..].
Qed.

(** A relation that is added is found from any position on its side, and nothing
    else changes. *)
Theorem added_relation_found w from to n :
  relations_ok w -> is_u64 to -> (0 < from < i64_max)%Z -> (0 < n < from)%Z ->
  exists w' cs, add_relation debug (Normal from) (Normal to) w = Done w' /\ relations_ok w' /\
    try_map relation_from (relation_keys to (Normal n) Count.Forward w') = Done cs /\ Normal from ∈ cs.
Proof.
  intros Hw Ht Hf Hn. cbn [add_relation]. rewrite data_add_relation_eq.
  set (w' := ins tofrom_relation (relation_key to from) [] w).
  assert (relations_ok w') as Hw'.
  { intros k. unfold w'. autorewrite with world. rewrite insert_key_Some. intros [->|Hs]; [|by apply Hw].
    exists to, from. split_and!; [done|lia|lia|done]. }
  exists w', (relation_count <$> relation_keys to (Normal n) Count.Forward w').
  assert (scan_start (Normal n) Count.Forward = n + 1)%Z as Hs by (apply u64_saturating_add_id; width_lia).
  split_and!; [done|done| |].
  - apply try_map_total. intros k (f & ? & ->)%relation_keys_of; [|done..]. unfold relation_count. by rewrite relation_from_key.
  - apply list_elem_of_fmap. exists (relation_key to from). unfold relation_count at 1.
    rewrite relation_from_key by (done || lia). split; [done|]. apply relation_keys_elem. rewrite Hs. split_and!.
    + by apply prefix_app_r.
    + unfold w'. autorewrite with world. rewrite insert_key_Some. by left.
    + apply relation_key_le; width_lia.
Qed.

End relations.

(** ** Notification counts *)

Section counts.
Context (debug : bool) {I : Ids}.

Lemma put_count_eq t a b n w :
  utf8_valid a = true -> utf8_valid b = true ->
  put_count debug t a b n w = Done (ins t (pair_bytes a b) (u64_to_be_bytes n) w).
Proof.
  intros Ha Hb. unfold put_count, upd, put, bput, bput_raw.
  change (buffer_serialize debug None (pair_key a b)) with (serialize_key debug (pair_key a b)).
  unfold pair_key. rewrite serialize_pair by done. by destruct debug.
Qed.

Lemma count_or_zero_eq t a b w n :
  utf8_valid a = true -> utf8_valid b = true -> is_u64 n ->
  maps w t !! pair_bytes a b = Some (u64_to_be_bytes n) -> count_or_zero debug t a b w = Done n.
Proof.
  intros Ha Hb Hn Hk. unfold count_or_zero, qry, bqry.
  change (buffer_serialize debug None (pair_key a b)) with (serialize_key debug (pair_key a b)).
  unfold pair_key. rewrite serialize_pair by done. cbn [lift_de mbind outcome_bind]. unfold get.
  fold (pair_bytes a b). rewrite Hk. unfold de_count, deserialized. cbn [ok_or mbind outcome_bind]. by rewrite from_slice_u64.
Qed.

Lemma count_or_zero_same t a b w w' :
  utf8_valid a = true -> utf8_valid b = true -> maps w' t !! pair_bytes a b = maps w t !! pair_bytes a b ->
  count_or_zero debug t a b w' = count_or_zero debug t a b w.
Proof.
  intros Ha Hb Hk. unfold count_or_zero, qry, bqry.
  change (buffer_serialize debug None (pair_key a b)) with (serialize_key debug (pair_key a b)).
  unfold pair_key. rewrite serialize_pair by done. cbn [lift_de mbind outcome_bind]. unfold get.
  fold (pair_bytes a b). by rewrite Hk.
Qed.

Lemma user_room_ne u r u' r' : ids_ok u r -> ids_ok u' r' -> pair_bytes r u <> pair_bytes u' r'.
Proof.
  intros [Hu Hr] [Hu' Hr'] Ek. apply sep_split in Ek as [-> ->]; [|eauto with ids..]. by eapply ids_disjoint.
Qed.

(** Reading a room resets the counts of its reader and no others, and the time
    of the reading is kept; that it shares the table of highlight counts does no
    harm, since a room and a user never have the same name. *)
Theorem counts_reset u r w n :
  ids_ok u r -> count_ok n w -> (1 <= n)%Z ->
  exists w', reset_notification_counts debug u r w = Done w' /\
    notification_count debug u r w' = Done 0%Z /\ highlight_count debug u r w' = Done 0%Z /\
    last_notification_read debug u r w' = Done (current w + 1)%Z /\
    forall u' r', ids_ok u' r' -> (u', r') <> (u, r) ->
      notification_count debug u' r' w' = notification_count debug u' r' w /\
      highlight_count debug u' r' w' = highlight_count debug u' r' w /\
      last_notification_read debug u' r' w' = last_notification_read debug u' r' w.
Proof.
  intros Hid Hc Hn. pose proof Hid as [Hu%user_id_utf8 Hr%room_id_utf8]. unfold reset_notification_counts.
  rewrite !put_count_eq by done. cbn [mbind outcome_bind]. rewrite put_count_eq by done. cbn [mbind outcome_bind].
  set (w1 := ins _ _ _ (ins _ _ _ w)).
  destruct (next_count_ok debug n w1) as (w2 & -> & Hm & _ & _ & Hu64); [done..|]. cbn [mbind outcome_bind].
  change (current w1) with (current w) in *. rewrite put_count_eq by done. eexists. split; [done|].
  unfold notification_count, highlight_count, last_notification_read, roomuserid_lastnotificationread.
  assert (pair_bytes r u <> pair_bytes u r) as Hne by by apply user_room_ne.
  split_and!.
  - apply count_or_zero_eq; [done..|width_lia|]. autorewrite with world. rewrite Hm. unfold w1. autorewrite with world.
    by rewrite lookup_insert_eq.
  - apply count_or_zero_eq; [done..|width_lia|]. autorewrite with world. rewrite lookup_insert_ne by done. rewrite Hm.
    unfold w1. autorewrite with world. by rewrite lookup_insert_eq.
  - apply count_or_zero_eq; [done..|]. autorewrite with world. by rewrite lookup_insert_eq.
  - intros u' r' Hid' Hd. pose proof Hid' as [Hu'%user_id_utf8 Hr'%room_id_utf8].
    assert (pair_bytes u r <> pair_bytes u' r') as Hk1 by (intros Ek%userroom_inj; [congruence|done..]).
    assert (pair_bytes r u <> pair_bytes r' u') as Hk2 by (intros Ek%roomuser_inj; [congruence|done..]).
    pose proof (user_room_ne u r u' r' Hid Hid'). pose proof (user_room_ne u' r' u r Hid' Hid).
    split_and!; apply count_or_zero_same; try done; autorewrite with world; rewrite ?lookup_insert_ne by done;
      rewrite Hm; unfold w1; autorewrite with world; rewrite ?lookup_insert_ne by done; done.
Qed.

(** ** Referenced and soft-failed events *)

Lemma mark_as_referenced_run r es w :
  room_id_ok r = true -> Forall (fun e => utf8_valid e = true) es ->
  exists w', mark_as_referenced debug r es w = Done w' /\ frame [referencedevents] w w' /\
    globals w' = globals w /\
    forall k, is_Some (maps w' referencedevents !! k) <->
      k ∈ pair_bytes r <$> es \/ is_Some (maps w referencedevents !! k).
Proof.
  intros Hr Hes. unfold mark_as_referenced. revert w. induction Hes as [|e es He Hes IH]; intros w.
  { exists w. split_and!; [done..|]. intros k. set_solver. }
  cbn [try_fold]. assert (mark_one_referenced debug r w e = Done (ins referencedevents (pair_bytes r e) [] w)) as ->
    by (apply upd_put_raw, serialize_pair; [by apply room_id_utf8|done]).
  cbn [mbind outcome_bind]. destruct (IH (ins referencedevents (pair_bytes r e) [] w)) as (w' & -> & Hf & Hg & Hk).
  exists w'. split_and!; [done|eapply frame_trans; [|done]; apply frame_ins; in_tables|done|].
  intros k. rewrite Hk. autorewrite with world. rewrite insert_key_Some. set_solver.
Qed.

Lemma is_event_referenced_eq r e w :
  room_id_ok r = true -> utf8_valid e = true ->
  is_event_referenced debug r e w = Done (bool_decide (is_Some (maps w referencedevents !! pair_bytes r e))).
Proof. intros Hr He. apply has_key_ids; [by apply room_id_utf8|done]. Qed.

(** An event is referenced once a later event of the same room names it, and
    only then. *)
Theorem referenced_exact r es w :
  room_id_ok r = true -> Forall (fun e => utf8_valid e = true) es ->
  exists w', mark_as_referenced debug r es w = Done w' /\
    forall r' e, room_id_ok r' = true -> utf8_valid e = true ->
      is_event_referenced debug r' e w' =
      if decide (r' = r /\ e ∈ es) then Done true else is_event_referenced debug r' e w.
Proof.
  intros Hr Hes. destruct (mark_as_referenced_run r es w Hr Hes) as (w' & Em & _ & _ & Hk). exists w'. split; [done|].
  intros r' e Hr' He. rewrite !is_event_referenced_eq by done.
  assert (pair_bytes r' e ∈ pair_bytes r <$> es <-> r' = r /\ e ∈ es) as Hin.
  { rewrite list_elem_of_fmap. split; [|intros [-> ?]; eauto]. intros (e' & Ek & He').
    unfold pair_bytes in Ek. apply sep_split in Ek as [-> ->]; [done|by apply room_no_sep..]. }
  case_decide as D.
  - f_equal. apply bool_decide_eq_true, Hk. left. by apply Hin.
  - f_equal. apply bool_decide_ext. rewrite Hk, Hin. tauto.
Qed.

End counts.

(** ** Witnesses *)

Module ToyTables.

#[local] Existing Instance list_engine.
#[local] Existing Instance toy_ids.
#[local] Existing Instance ToyTimeline.json.

(** ASCII words, and one letter whose lower case is longer: U+0130 is two
    bytes, its lower case is an [i] and a combining dot, three bytes. *)
Definition dotted : bytes := [xc4; xb0].
Definition lower_dotted : bytes := [x69; xcc; x87].

Fixpoint lower (cs : list bytes) : bytes :=
  match cs with [] => [] | c :: cs => (if decide (c = dotted) then lower_dotted else c) ++ lower cs end.

Definition letters : Unicode :=
  {| is_alphanumeric := fun c => negb (bool_decide (c = str " ")); to_lowercase := fun w => lower (chars w) |}.
#[local] Existing Instance letters.

Definition room := str "!r:a".
Definition alice := str "@alice:a".
Definition pid (n : Z) : RawId := raw_from_id (MkId 7 (Normal n)).

Definition indexed : World := index_pdu 7 (pid 5) (str "hello world") (empty_world 41).

Lemma empty_tokens : tokens_ok (empty_world 41).
Proof. intros k. cbn. rewrite lookup_empty. by intros [? ?]. Qed.

Lemma indexed_tokens : tokens_ok indexed.
Proof.
  intros k [Hk|Hk]%index_keys; [|by apply empty_tokens].
  assert (tokenize (str "hello world") = [str "hello"; str "world"]) as Ht by (vm_compute; reflexivity).
  rewrite Ht in Hk. apply list_elem_of_fmap in Hk as (word & -> & Hw). exists 7%Z, (Normal 5), word.
  split_and!; [done|by split|..|done]. set_unfold in Hw. by destruct Hw as [Hw|[Hw|[]]]; subst word.
Qed.

Lemma indexed_world :
  position (Normal 5) /\ is_Some (maps indexed tokenids !! token_key 7 (raw_from_id (MkId 7 (Normal 5))) (str "world")).
Proof.
  split; [by split|]. unfold indexed. rewrite (index_keys 7 (pid 5)). left.
  apply list_elem_of_fmap. exists (str "world"). split; [reflexivity|]. vm_compute. right. left.
Qed.

Lemma search_word_exact_witness :
  exists cs, search_pdu_ids_query_words 7 indexed (str "world") = Done ((fun c => raw_from_id (MkId 7 c)) <$> cs) /\
    Normal 5 ∈ cs.
Proof.
  destruct (search_word_exact indexed 7 (str "world") indexed_tokens) as (cs & H1 & _ & H2); [done|done|cbn; lia|].
  exists cs. split; [exact H1|]. apply (proj2 (H2 (Normal 5))). exact indexed_world.
Defined.

Lemma deindex_undoes_index_witness :
  is_Some (maps (deindex_pdu 7 (pid 5) (str "hello world") (index_pdu 7 (pid 5) (str "hello world") (empty_world 41)))
    tokenids !! str "x") <-> is_Some (maps (empty_world 41) tokenids !! str "x").
Proof. apply (deindex_undoes_index 7 (pid 5) (str "hello world") (empty_world 41) (str "x")). done. Defined.

(** A search for a word of 25 letters U+0130 panics: the word passes the limit
    of 50 bytes before its lower case, of 75 bytes, is copied to a buffer of
    84. *)
Theorem long_lower_case_panics :
  exists term, utf8_valid term = true /\ length term = 50 /\
    tokenize term = [mjoin (replicate 25 lower_dotted)] /\
    search_pdu_ids_query_room term 7 (empty_world 41) = Panic.
Proof. exists (mjoin (replicate 25 dotted)). split_and!; vm_compute; reflexivity. Qed.

Definition related : World := ins tofrom_relation (relation_key 3 5) [] (empty_world 41).

Lemma empty_relations : relations_ok (empty_world 41).
Proof. intros k. cbn. rewrite lookup_empty. by intros [? ?]. Qed.

Lemma related_ok : relations_ok related.
Proof.
  intros k. unfold related. autorewrite with world. rewrite insert_key_Some. intros [->|Hk]; [|by apply empty_relations].
  exists 3%Z, 5%Z. split_and!; [width_lia|lia|unfold i64_max; lia|done].
Qed.

Lemma related_entry : is_Some (maps related tofrom_relation !! relation_key 3 5).
Proof. unfold related. autorewrite with world. rewrite lookup_insert_eq. eauto. Qed.

Lemma relations_exact_witness :
  exists cs, try_map relation_from (relation_keys 3 (Normal 4) Count.Forward related) = Done cs /\ Normal 5 ∈ cs.
Proof.
  destruct (relations_exact related 3 4 Count.Forward related_ok) as (cs & H1 & H2); [width_lia|unfold i64_max; lia|].
  exists cs. split; [exact H1|]. apply H2; [unfold i64_max; lia|]. split; [exact related_entry|lia].
Defined.

Lemma forward_from_start_finds_nothing_witness :
  data_get_relations alice 7 3 min Count.Forward related = Done [] /\
  try_map relation_from (relation_keys 3 max Backward related) = Done [Normal 5].
Proof.
  split; [|vm_compute; reflexivity].
  apply (forward_from_start_finds_nothing related alice 7 3 related_ok). width_lia.
Defined.

Lemma added_relation_found_witness :
  exists w' cs, add_relation true (Normal 5) (Normal 3) (empty_world 41) = Done w' /\
    try_map relation_from (relation_keys 3 (Normal 4) Count.Forward w') = Done cs /\ Normal 5 ∈ cs.
Proof.
  destruct (added_relation_found true (empty_world 41) 5 3 4 empty_relations) as (w' & cs & H1 & _ & H2 & H3);
    [width_lia|unfold i64_max; lia|lia|]. exists w', cs. split_and!; assumption.
Defined.

Lemma counts_reset_witness :
  exists w', reset_notification_counts true alice room (empty_world 41) = Done w' /\
    highlight_count true alice room w' = Done 0%Z /\ last_notification_read true alice room w' = Done 42%Z.
Proof.
  destruct (counts_reset true alice room (empty_world 41) 1) as (w' & H1 & _ & H2 & H3 & _);
    [by split|by apply empty_world_ok|done|]. exists w'. split_and!; assumption.
Defined.

Lemma referenced_exact_witness :
  exists w', mark_as_referenced true room [str "$a"] (empty_world 41) = Done w' /\
    is_event_referenced true room (str "$a") w' = Done true.
Proof.
  destruct (referenced_exact true room [str "$a"] (empty_world 41)) as (w' & H1 & H2); [done|by repeat constructor|].
  exists w'. split; [exact H1|]. rewrite H2 by done. rewrite decide_True; [done|]. split; [done|left].
Defined.

(** A receipt in one room removes the user's receipt in every room whose name
    begins with the name of that one. *)
Definition other_room := str "!r:a.org".
Definition other_receipt : bytes := other_room ++ SEP :: u64_to_be_bytes 9 ++ SEP :: alice.
Definition with_receipt : World := ins readreceiptid_readreceipt other_receipt (str "{}") (empty_world 41).

Theorem receipt_removed_elsewhere :
  other_room <> room /\ is_Some (maps with_receipt readreceiptid_readreceipt !! other_receipt) /\
  match readreceipt_update true alice room (str "{}") with_receipt with
  | Done w => maps w readreceiptid_readreceipt !! other_receipt = None
  | _ => False
  end.
Proof. split_and!; [done|vm_compute; eauto|vm_compute; reflexivity]. Qed.

End ToyTables.
