(* ===== verification/Alias.v ===== *)
(** * Room aliases, and who administers the server

    Models [src/service/rooms/alias/mod.rs] and [remote.rs],
    [src/service/rooms/directory/mod.rs], and of [src/service/admin/mod.rs] what
    decides who is an administrator and what is a command.

    An alias [#local:server] is stored by its local part. *)

From stdpp Require Import prelude gmap strings list sorting.
From Stdlib Require Import ZArith Lia.
From Stdlib Require Import Strings.Byte.
From S2P Require Import Prelude MachineInt Matrix DbCodec DbMap CoreUtils Effects Short World AccountData StateCache.
From S2P Require Import Timeline StateCompressor StateAccessor.

Inductive AliasError :=
| AliasForbidden | AliasNotFound | AliasExclusive | AliasForeign
| AliasDb (e : DbError) | AliasCodec (e : CodecError) | AliasRoom (e : RoomError).

(** [RoomAliasId::alias] and [RoomAliasId::server_name]. *)
Fixpoint until_colon (b : bytes) : bytes :=
  match b with [] => [] | x :: b => if decide (x = x3a) then [] else x :: until_colon b end.
Definition alias_localpart (alias : bytes) : bytes := until_colon (drop 1 alias).
Definition alias_server (alias : bytes) : bytes := after_colon alias.

(** The server: its name, the user it acts as and the alias of the admin room,
    and two settings. *)
Record AdminConfig := MkAdmin {
  own_server : bytes; server_user : bytes; admin_alias : bytes;
  admin_escape_commands : bool; emergency_password : option bytes }.

(** An appservice, as far as aliases go. *)
Record AliasSpace := MkSpace { space_matches : bytes -> bool; space_exclusive : bytes -> bool }.

Section alias.
Context (debug : bool) {E : Engine} {I : Ids} {J : PduJson} {RR : RoomRuma} {sched : Schedule}.
Context {L : LruCache Z ShortStateInfoVec} (fuel : nat) (first : bool) (admin : AdminConfig).
Context (alias_ok : bytes -> bool).
(** [RoomPowerLevels::user_can_send_state] for [m.room.canonical_alias] *)
Context (can_send_alias : RoomPowerLevelsEventContent -> bytes -> bool).

(** A text column that holds an identifier. *)
Definition de_id (ok : bytes -> bool) (h : outcome DbError bytes) : outcome DbError bytes :=
  v ← deserialized debug TStr h;
  match v with VStr s => if ok s then Done s else Fail (DeError (SerdeDe "invalid identifier")) | _ => Panic end.

(** ** Reading *)

Definition resolve_local_alias (alias : bytes) (w : World) : outcome DbError bytes :=
  de_id room_id_ok (get (maps w alias_roomid) (alias_localpart alias)).

Definition who_created_alias (alias : bytes) (w : World) : outcome DbError bytes :=
  de_id user_id_ok (get (maps w alias_userid) (alias_localpart alias)).

Definition alias_of_row (r : outcome CodecError (value * value)) : outcome CodecError bytes :=
  '(_, v) ← r;
  match v with VStr s => if alias_ok s then Done s else Fail (SerdeDe "invalid identifier") | _ => Panic end.

Definition local_aliases_for_room (room_id : bytes) (w : World) : outcome CodecError (list bytes) :=
  rows ← stream_prefix debug TIgnore TStr (maps w aliasid_alias) (VTuple [VStr room_id; VInterfix]);
  ignore_err (alias_of_row <$> (rows : list (outcome CodecError (value * value)))).

(** ** Administrators: [admin/mod.rs] *)

Definition get_admin_room (w : World) : outcome AliasError bytes :=
  room_id ← fail_with AliasDb (resolve_local_alias (admin_alias admin) w);
  joined ← fail_with AliasCodec (is_joined debug (server_user admin) room_id w);
  if (joined : bool) then Done room_id else Fail AliasNotFound.

Definition or_false {Er A} (o : outcome Er A) (f : A -> outcome Er bool) : outcome Er bool :=
  match o with Done a => f a | Fail _ => Done false | Panic => Panic | OutOfFuel => OutOfFuel end.

Definition user_is_admin (user_id : bytes) (w : World) : outcome AliasError bool :=
  or_false (get_admin_room w) (fun admin_room => fail_with AliasCodec (is_joined debug user_id admin_room w)).

Definition is_admin_room (room_id : bytes) (w : World) : outcome AliasError bool :=
  or_false (get_admin_room w) (fun r => Done (bool_decide (r = room_id))).

Definition starts_with (p b : bytes) : bool := bool_decide (p `prefix_of` b).
(** [trim_start_matches('\\')] *)
Fixpoint trim_escape (b : bytes) : bytes :=
  match b with x :: b' => if decide (x = x5c) then trim_escape b' else b | [] => [] end.

Definition is_admin_command (sender room_id body : bytes) (w : World) : outcome AliasError bool :=
  let is_escape := starts_with [x5c] body in
  let is_public_escape := is_escape && starts_with (str "!admin") (trim_escape body) in
  let is_public_prefix := starts_with (str "!admin") body || starts_with (server_user admin) body in
  if negb is_public_escape && negb is_public_prefix then Done false else
  if is_public_escape && negb (bool_decide (server_name sender = own_server admin)) then Done false else
  if is_public_escape && negb (admin_escape_commands admin) then Done false else
  in_room ← (if is_public_prefix then is_admin_room room_id w else Done true);
  if negb in_room then Done false else
  is_admin ← user_is_admin sender w;
  if negb is_admin then Done false else
  let emergency_password_set := bool_decide (is_Some (emergency_password admin)) in
  let from_server := bool_decide (sender = server_user admin) && negb emergency_password_set in
  answered ← (if from_server then is_admin_room room_id w else Done false);
  Done (negb answered).

(** ** Writing *)

Definition set_alias (alias room_id user_id : bytes) (w : World) : outcome AliasError World :=
  if bool_decide (alias = admin_alias admin) && negb (bool_decide (user_id = server_user admin))
  then Fail AliasForbidden else
  let w := ins alias_userid (alias_localpart alias) user_id w in
  let w := ins alias_roomid (alias_localpart alias) room_id w in
  '(count, w) ← fail_with AliasCodec (next_count debug w);
  Done (ins aliasid_alias (room_id ++ SEP :: u64_to_be_bytes count) alias w).

Abbreviation acc := (eff (@Store L) RoomError).

(** The room's state decides: the power levels, or else who created it. *)
Definition alias_by_state (room_id user_id : bytes) (w : World) : eff (@Store L) AliasError bool := fun st =>
  match room_state_get_content debug fuel first de_power_levels w room_id RoomPowerLevels [] st with
  | (Done levels, st) => (Done (can_send_alias levels user_id), st)
  | (Fail _, st) =>
      match room_state_get debug fuel first w room_id RoomCreate [] st with
      | (Done event, st) => (Done (bool_decide (str (sender event) = user_id)), st)
      | (Fail _, st) => (Fail (AliasRoom NoCreateEvent), st)
      | (Panic, st) => (Panic, st)
      | (OutOfFuel, st) => (OutOfFuel, st)
      end
  | (Panic, st) => (Panic, st)
  | (OutOfFuel, st) => (OutOfFuel, st)
  end.

(** Who may remove an alias. *)
Definition user_can_remove_alias (alias user_id : bytes) (w : World) : eff (@Store L) AliasError bool :=
  room_id ← lift_eff (fail_with (fun _ => AliasNotFound) (resolve_local_alias alias w));
  created ← lift_eff (or_false (fail_with AliasDb (who_created_alias alias w)) (fun u => Done (bool_decide (u = user_id))));
  is_admin ← lift_eff (if created : bool then Done true else user_is_admin user_id w);
  if (is_admin : bool) || bool_decide (server_user admin = user_id) then mret true else
  alias_by_state room_id user_id w.

(** What is deleted for the alias of a room. *)
Definition drop_alias (localpart room_id : bytes) (w : World) : outcome CodecError World :=
  keys ← keys_prefix_raw debug (maps w aliasid_alias) (VTuple [VStr room_id; VInterfix]);
  let w := foldl (fun w k => rem aliasid_alias k w) w (keys : list bytes) in
  let w := rem alias_roomid localpart w in
  Done (rem alias_userid localpart w).

Definition remove_alias (alias user_id : bytes) (w : World) : eff (@Store L) AliasError World :=
  allowed ← user_can_remove_alias alias user_id w;
  if negb allowed then throw AliasForbidden else
  match get (maps w alias_roomid) (alias_localpart alias) with
  | Done room_id => lift_eff (fail_with AliasCodec (drop_alias (alias_localpart alias) room_id w))
  | Fail _ => throw AliasNotFound
  | Panic => lift_eff Panic
  | OutOfFuel => out_of_fuel
  end.

(** ** Resolving *)

(** [add_server] and the loop of [remote_resolve]; [ask] is the answer of a
    server to a query. *)
Definition add_server (servers : list bytes) (server : bytes) : list bytes :=
  if decide (server ∈ servers) then servers else servers ++ [server].

Fixpoint ask_servers (ask : bytes -> option (bytes * list bytes)) (servers : list bytes) (room : option bytes)
    (resolved : list bytes) : option bytes * list bytes :=
  match servers with
  | [] => (room, resolved)
  | server :: servers =>
      match ask server with
      | None => ask_servers ask servers room resolved
      | Some (room_id, more) =>
          let room := match room with Some r => Some r | None => Some room_id end in
          let resolved := add_server resolved server in
          if decide (more = []) then ask_servers ask servers room resolved
          else (room, foldl add_server resolved more)
      end
  end.

Definition remote_resolve (ask : bytes -> option (bytes * list bytes)) (alias : bytes) (servers : list bytes)
    : outcome AliasError (bytes * list bytes) :=
  match ask_servers ask (alias_server alias :: servers) None [] with
  | (Some room_id, resolved) => Done (room_id, resolved)
  | (None, _) => Fail AliasNotFound
  end.

(** The first appservice whose aliases match and that knows this one. *)
Fixpoint resolve_appservice_alias (query : AliasSpace -> bytes -> bool) (appservices : list AliasSpace) (alias : bytes)
    (w : World) : outcome AliasError (option bytes) :=
  match appservices with
  | [] => Done None
  | a :: appservices =>
      if space_matches a alias && query a alias
      then room_id ← fail_with (fun _ => AliasNotFound) (resolve_local_alias alias w); Done (Some room_id)
      else resolve_appservice_alias query appservices alias w
  end.

Section resolve.
Context (ask : bytes -> bytes -> option (bytes * list bytes)) (query : AliasSpace -> bytes -> bool).
Context (appservices : list AliasSpace).

Definition resolve_alias (alias : bytes) (servers : option (list bytes)) (w : World)
    : outcome AliasError (bytes * list bytes) :=
  let server_is_ours := bool_decide (alias_server alias = own_server admin) in
  let servers_contains_ours := from_option (fun l => bool_decide (own_server admin ∈ l)) false servers in
  if negb server_is_ours && negb servers_contains_ours
  then remote_resolve (ask alias) alias (default [] servers) else
  room_id ← match resolve_local_alias alias w with
            | Done r => Done (Some r)
            | Fail _ => resolve_appservice_alias query appservices alias w
            | Panic => Panic
            | OutOfFuel => OutOfFuel
            end;
  match room_id with Some room_id => Done (room_id, []) | None => Fail AliasNotFound end.

Definition resolve_with_servers (room : bytes) (servers : option (list bytes)) (w : World)
    : outcome AliasError (bytes * list bytes) :=
  if room_id_ok room then Done (room, default [] servers) else resolve_alias room servers w.

(** Whether this server may set the alias for a user or an appservice. *)
Definition appservice_checks (alias : bytes) (appservice : option AliasSpace) : outcome AliasError () :=
  if negb (bool_decide (alias_server alias = own_server admin)) then Fail AliasForeign else
  match appservice with
  | Some info => if space_matches info alias then Done () else Fail AliasExclusive
  | None => if existsb (fun a => space_exclusive a alias) appservices then Fail AliasExclusive else Done ()
  end.

End resolve.

(** ** [directory/mod.rs] *)

Definition set_public (room_id : bytes) (w : World) : World := ins publicroomids room_id [] w.
Definition set_not_public (room_id : bytes) (w : World) : World := rem publicroomids room_id w.
Definition visibility (room_id : bytes) (w : World) : bool := bool_decide (is_Some (maps w publicroomids !! room_id)).
Definition is_public_room (room_id : bytes) (w : World) : bool := visibility room_id w.
Definition public_rooms (w : World) : outcome CodecError (list bytes) :=
  ignore_err ((fun k => v ← deserialize_key debug TStr k;
    match v with VStr s => if room_id_ok s then Done s else Fail (SerdeDe "invalid identifier") | _ => Panic end)
    <$> raw_keys (maps w publicroomids)).

End alias.

(** ** Facts *)

Section facts.
Context (debug : bool) {E : Engine} {I : Ids} (admin : AdminConfig) (alias_ok : bytes -> bool).
Hypothesis alias_utf8 : forall a, alias_ok a = true -> utf8_valid a = true.

(** Rows of the list of aliases: a room and a number, and the alias. *)
Definition aliases_ok (w : World) : Prop := forall k v, maps w aliasid_alias !! k = Some v ->
  alias_ok v = true /\ exists r n, room_id_ok r = true /\ k = r ++ SEP :: u64_to_be_bytes n.

Lemma de_id_ok ok s t k : t !! k = Some s -> ok s = true -> utf8_valid s = true -> de_id debug ok (get t k) = Done s.
Proof.
  intros Hk Hok Hu. unfold de_id, deserialized, get. rewrite Hk. cbn [ok_or mbind outcome_bind].
  rewrite from_slice_str by done. cbn. by rewrite Hok.
Qed.

(** The aliases listed for a room: those of its rows. *)
Lemma room_aliases_exact w r :
  aliases_ok w -> room_id_ok r = true ->
  exists l, local_aliases_for_room debug alias_ok r w = Done l /\
    forall a, a ∈ l <-> exists n, maps w aliasid_alias !! (r ++ SEP :: u64_to_be_bytes n) = Some a.
Proof.
  intros Hw Hr. unfold local_aliases_for_room, stream_prefix, stream_prefix_raw. rewrite serialize_key_interfix.
  cbn [mbind outcome_bind]. rewrite raw_stream_prefix_rows, <- list_fmap_compose.
  set (rs := filter _ (rows (maps w aliasid_alias))). exists (rs.*2). split.
  - apply ignore_err_done. intros [k v] [_ Hk%elem_of_rows]%list_elem_of_filter. cbn in Hk.
    destruct (Hw k v Hk) as [Hv _]. unfold compose, alias_of_row, deserialize. cbn [fst snd].
    rewrite from_slice_ignored, from_slice_str by auto. cbn. by rewrite Hv.
  - intros a. rewrite list_elem_of_fmap. split.
    + intros ([k v] & -> & [Hp Hk%elem_of_rows]%list_elem_of_filter). cbn in *.
      destruct (Hw k v Hk) as (_ & r' & n & Hr' & ->). unfold key_prefix in Hp. cbn in Hp.
      apply interfix_prefix in Hp as <-; [|by apply room_no_sep..]. by exists n.
    + intros [n Hn]. exists (r ++ SEP :: u64_to_be_bytes n, a). split; [done|].
      apply list_elem_of_filter. split; [|by apply elem_of_rows]. unfold key_prefix. cbn.
      exists (u64_to_be_bytes n). by rewrite <- app_assoc.
Qed.

End facts.

(** ** Claims *)

Section claims.
Context (debug : bool) {E : Engine} {I : Ids} (admin : AdminConfig) (alias_ok : bytes -> bool).

(** An alias that is set resolves to its room and remembers who set it, the
    room lists it, and aliases with another local part resolve as before; the
    alias of the admin room can be set by the server's own user only. *)
Theorem alias_set_resolves alias r u w :
  (forall a, alias_ok a = true -> utf8_valid a = true) ->
  aliases_ok alias_ok w -> count_ok 1 w -> alias_ok alias = true -> room_id_ok r = true -> user_id_ok u = true ->
  (alias = admin_alias admin /\ u <> server_user admin /\ set_alias debug admin alias r u w = Fail AliasForbidden) \/
  exists w' l, set_alias debug admin alias r u w = Done w' /\ aliases_ok alias_ok w' /\
    resolve_local_alias debug alias w' = Done r /\ who_created_alias debug alias w' = Done u /\
    local_aliases_for_room debug alias_ok r w' = Done l /\ alias ∈ l /\
    forall a, alias_localpart a <> alias_localpart alias ->
      resolve_local_alias debug a w' = resolve_local_alias debug a w.
Proof.
  intros Hutf Hw Hc Ha Hr Hu. unfold set_alias.
  destruct (bool_decide (alias = admin_alias admin) && negb (bool_decide (u = server_user admin))) eqn:Eg.
  { left. apply andb_true_iff in Eg as [->%bool_decide_eq_true Hn%negb_true_iff%bool_decide_eq_false]. done. }
  right. set (w1 := ins alias_roomid _ r _).
  destruct (next_count_ok debug 1 w1) as (w2 & -> & Hm & _ & _ & _); [done|lia|]. cbn [fail_with mbind outcome_bind].
  set (w3 := ins aliasid_alias _ _ w2).
  assert (aliases_ok alias_ok w3) as Hw3.
  { intros k v. unfold w3. rewrite maps_ins_eq, Hm. unfold w1. autorewrite with world.
    destruct (decide (r ++ SEP :: u64_to_be_bytes (current w1 + 1) = k)) as [<-|Hne].
    - rewrite lookup_insert_eq. intros [= <-]. eauto.
    - rewrite lookup_insert_ne by done. apply Hw. }
  destruct (room_aliases_exact debug alias_ok Hutf w3 r Hw3 Hr) as (l & Hl & Hel).
  exists w3, l. split_and!; try done.
  - apply de_id_ok; [|done|by apply room_id_utf8]. unfold w3. rewrite maps_ins_ne, Hm by done. unfold w1.
    autorewrite with world. apply lookup_insert_eq.
  - apply de_id_ok; [|done|by apply user_id_utf8]. unfold w3. rewrite maps_ins_ne, Hm by done. unfold w1.
    autorewrite with world. apply lookup_insert_eq.
  - apply Hel. exists (current w1 + 1)%Z. unfold w3. rewrite maps_ins_eq. apply lookup_insert_eq.
  - intros a Hne. unfold resolve_local_alias, get. unfold w3. rewrite maps_ins_ne, Hm by done. unfold w1.
    autorewrite with world. by rewrite lookup_insert_ne by done.
Qed.

(** Removing one alias of a room takes every alias of that room off its list,
    although the others still resolve to it. *)
Theorem removal_unlists_all_aliases localpart r w :
  (forall a, alias_ok a = true -> utf8_valid a = true) ->
  aliases_ok alias_ok w -> room_id_ok r = true ->
  exists w', drop_alias debug localpart r w = Done w' /\
    local_aliases_for_room debug alias_ok r w' = Done [] /\
    forall a, resolve_local_alias debug a w' =
      if decide (alias_localpart a = localpart) then Fail NotFound else resolve_local_alias debug a w.
Proof.
  intros Hutf Hw Hr. unfold drop_alias, keys_prefix_raw. rewrite serialize_key_interfix. cbn [mbind outcome_bind].
  set (ks := raw_keys_prefix _ _). destruct (rem_keys aliasid_alias ks w) as [Hf Hk]. set (w1 := foldl _ w ks) in *.
  eexists. split; [done|]. set (w2 := rem alias_userid _ _).
  assert (forall k, maps w2 aliasid_alias !! k = maps w1 aliasid_alias !! k) as H2
    by (intros k; unfold w2; by autorewrite with world).
  split.
  - assert (aliases_ok alias_ok w2) as Hw2.
    { intros k v. rewrite H2, Hk. case_decide; [done|apply Hw]. }
    destruct (room_aliases_exact debug alias_ok Hutf w2 r Hw2 Hr) as (l & -> & Hl). f_equal.
    apply elem_of_nil_inv. intros a [n Hn]%Hl. rewrite H2, Hk in Hn. case_decide as Hin; [done|]. apply Hin.
    apply elem_of_raw_keys_prefix. split; [|by eauto]. exists (u64_to_be_bytes n). by rewrite <- app_assoc.
  - intros a. unfold resolve_local_alias, get, w2. autorewrite with world. rewrite (Hf alias_roomid) by set_solver.
    case_decide as D; [by rewrite D, lookup_delete_eq|]. by rewrite lookup_delete_ne.
Qed.

(** An alias of another server is resolved by its local part alone when this
    server is among those to ask: it leads to the room of the local alias with
    the same local part. *)
Theorem foreign_alias_resolved_locally ask query appservices alias foreign servers r w :
  alias_localpart foreign = alias_localpart alias -> alias_server foreign <> own_server admin ->
  own_server admin ∈ servers -> resolve_local_alias debug alias w = Done r ->
  resolve_alias debug admin ask query appservices foreign (Some servers) w = Done (r, []).
Proof.
  intros Hl Hne Hin Hr. unfold resolve_alias. cbn [from_option]. rewrite (bool_decide_true _ Hin), andb_false_r.
  unfold resolve_local_alias in *. by rewrite Hl, Hr.
Qed.

Lemma starts_with_prefix p b : starts_with p b = true <-> p `prefix_of` b.
Proof. apply bool_decide_eq_true. Qed.

Lemma trim_escape_spec b : exists n, b = replicate n x5c ++ trim_escape b.
Proof.
  induction b as [|x b [n IH]]; [by exists 0|]. cbn. case_decide as Hx; [|by exists 0].
  exists (S n). cbn. by rewrite <- IH, Hx.
Qed.

(** A command with an escape: backslashes before it. *)
Definition escaped (body : bytes) : Prop := exists n rest, body = replicate (S n) x5c ++ str "!admin" ++ rest.

(** C32. What is taken as a command to the server comes from one of its
    administrators.  It begins as a command and is sent to the admin room; or it is
    a command with an escape, sent by a local user, and the setting allows
    escapes.  In the admin room nothing the server's own user says is taken as a
    command, unless the emergency password is set. *)
Theorem commands_from_admins sender room body w :
  is_admin_command debug admin sender room body w = Done true ->
  user_is_admin debug admin sender w = Done true /\
  ((str "!admin" `prefix_of` body \/ server_user admin `prefix_of` body) /\ is_admin_room debug admin room w = Done true \/
   escaped body /\ server_name sender = own_server admin /\ admin_escape_commands admin = true) /\
  (sender = server_user admin -> is_admin_room debug admin room w = Done true -> is_Some (emergency_password admin)).
Proof.
  unfold is_admin_command. set (esc := starts_with [x5c] body && starts_with _ (trim_escape body)). set (pre := _ || _).
  destruct (negb esc && negb pre) eqn:E1; [done|].
  destruct (esc && negb (bool_decide (server_name sender = own_server admin))) eqn:E2; [done|].
  destruct (esc && negb (admin_escape_commands admin)) eqn:E3; [done|].
  intros H. bind_inv H. destruct a; cbn [negb] in H; [|done].
  bind_inv H. destruct a; cbn [negb] in H; [|done]. split_and!; [done| |].
  - destruct pre eqn:Ep.
    + left. split; [|done]. unfold pre in Ep. apply orb_true_iff in Ep.
      by rewrite !starts_with_prefix in Ep.
    + right. destruct esc eqn:Ee; [|done]. cbn in E2, E3. apply negb_false_iff in E2, E3. apply bool_decide_eq_true in E2.
      split; [|done]. unfold esc in Ee. apply andb_true_iff in Ee as [H2%starts_with_prefix [rest Hr]%starts_with_prefix].
      destruct (trim_escape_spec body) as [n Hn]. rewrite Hr in Hn. destruct n as [|n]; [|by exists n, rest].
      exfalso. rewrite Hn in H2. by destruct H2.
  - intros -> Hr. rewrite bool_decide_true in H by done. cbn [andb] in H.
    destruct (emergency_password admin) as [p|]; [by eexists|]. cbn in H. rewrite Hr in H. done.
Qed.

End claims.

(** ** Two aliases of a room, for the witnesses *)

Module ToyAlias.
#[local] Existing Instance list_engine.
#[local] Existing Instance toy_ids.

Definition room : bytes := str "!r:a".
Definition alice : bytes := str "@alice:a".
Definition server : AdminConfig := MkAdmin (str "a") (str "@conduit:a") (str "#admins:a") true None.
Definition alias_ok : bytes -> bool := sigil x23.
Definition row_key (n : Z) : bytes := room ++ SEP :: u64_to_be_bytes n.
Definition two : World :=
  ins aliasid_alias (row_key 2) (str "#y:a") (ins aliasid_alias (row_key 1) (str "#x:a")
    (ins alias_roomid (str "y") room (ins alias_roomid (str "x") room (empty_world 7)))).

Lemma alias_ok_utf8 a : alias_ok a = true -> utf8_valid a = true.
Proof. intros [Ha _]%andb_true_iff. by apply ascii_utf8. Qed.

Lemma empty_aliases c : aliases_ok alias_ok (empty_world c).
Proof. intros k v. done. Qed.

Lemma two_aliases : aliases_ok alias_ok two.
Proof.
  assert (room_id_ok room = true) as Hr by reflexivity.
  intros k v. unfold two. rewrite !maps_ins_eq, !maps_ins_ne by done. cbn [maps empty_world].
  intros [[<- <-]|[_ [[<- <-]|[_ H]]%lookup_insert_Some]]%lookup_insert_Some.
  - split; [reflexivity|]. exists room, 2%Z. split; [exact Hr|reflexivity].
  - split; [reflexivity|]. exists room, 1%Z. split; [exact Hr|reflexivity].
  - discriminate H.
Qed.

Lemma room_ok : room_id_ok room = true.
Proof. vm_compute. reflexivity. Qed.
Lemma alice_ok : user_id_ok alice = true.
Proof. vm_compute. reflexivity. Qed.
Lemma x_ok : alias_ok (str "#x:a") = true.
Proof. vm_compute. reflexivity. Qed.
Lemma room_left : count_ok 1 (empty_world 7).
Proof. apply empty_world_ok; width_lia. Qed.

Lemma alias_set_resolves_witness :
  str "#x:a" = admin_alias server /\ alice <> server_user server /\
    set_alias true server (str "#x:a") room alice (empty_world 7) = Fail AliasForbidden \/
  exists w' l, set_alias true server (str "#x:a") room alice (empty_world 7) = Done w' /\
    resolve_local_alias true (str "#x:a") w' = Done room /\
    local_aliases_for_room true alias_ok room w' = Done l /\ str "#x:a" ∈ l.
Proof.
  destruct (alias_set_resolves true server alias_ok (str "#x:a") room alice (empty_world 7) alias_ok_utf8
    (empty_aliases 7) room_left x_ok room_ok alice_ok) as [H|(w' & l & H1 & _ & H2 & _ & H3 & H4 & _)].
  - left. exact H.
  - right. exists w', l. exact (conj H1 (conj H2 (conj H3 H4))).
Defined.

Lemma removal_unlists_all_aliases_witness :
  resolve_local_alias true (str "#y:a") two = Done room /\
  exists w', drop_alias true (str "x") room two = Done w' /\ local_aliases_for_room true alias_ok room w' = Done [] /\
    resolve_local_alias true (str "#y:a") w' = resolve_local_alias true (str "#y:a") two.
Proof.
  split; [vm_compute; reflexivity|].
  destruct (removal_unlists_all_aliases true alias_ok (str "x") room two alias_ok_utf8 two_aliases room_ok)
    as (w' & H1 & H2 & H3).
  exists w'. split; [exact H1|]. split; [exact H2|]. rewrite H3. reflexivity.
Defined.

Lemma foreign_alias_resolved_locally_witness :
  resolve_alias true server (fun _ _ => None) (fun _ _ => false) [] (str "#x:other") (Some [str "a"]) two =
    Done (room, []).
Proof.
  apply (foreign_alias_resolved_locally true server (fun _ _ => None) (fun _ _ => false) [] (str "#x:a")).
  - reflexivity.
  - vm_compute. discriminate.
  - left.
  - vm_compute. reflexivity.
Defined.

(** The admin room, with the server's user and [@alice:a] joined. *)
Definition admin_world : World :=
  ins alias_roomid (str "admins") room
    (ins userroomid_joined (pair_bytes (str "@conduit:a") room) []
      (ins userroomid_joined (pair_bytes alice room) [] (empty_world 7))).

Lemma commands_from_admins_witness :
  user_is_admin true server alice admin_world = Done true /\
  (is_admin_room true server (str "!other:a") admin_world = Done true \/
   escaped (str "\!admin users list") /\ server_name alice = own_server server /\ admin_escape_commands server = true).
Proof.
  destruct (commands_from_admins true server alice (str "!other:a") (str "\!admin users list") admin_world)
    as (H1 & H2 & _); [vm_compute; reflexivity|].
  split; [exact H1|]. destruct H2 as [[_ H2]|H2]; [left; exact H2|right; exact H2].
Defined.

End ToyAlias.
