(* ===== verification/AppendPdu.v ===== *)
(** * Adding events to the timeline

    Models [src/service/rooms/timeline/mod.rs]: appending an event with all that
    follows from it (notifications, redactions, memberships, search, relations,
    threads, appservices), building the server's own events, and the checks for
    the admin room; with [src/service/rooms/threads/mod.rs], and of
    [src/service/pusher/mod.rs] the questions the timeline asks.

    The services share one state, [Server].  A step that fails leaves what was
    written before it; of a step of another service that fails, nothing is kept. *)

From stdpp Require Import prelude gmap strings list sorting.
From Stdlib Require Import ZArith Lia.
From Stdlib Require Import Strings.Byte.
From S2P Require Import Prelude MachineInt PduCount Matrix EventAuth DbCodec DbMap CoreUtils Effects Short World.
From S2P Require Import AccountData StateCache Timeline Sending SenderSystem Outliers OutlierStore StateCompressor.
From S2P Require Import StateAccessor RoomState RoomTables Alias.
Import PduId.

(** ** What the timeline needs of ruma and serde_json *)

(** [Relation]: what a message relates to. *)
Inductive Relation := RelReply (event_id : string) | RelThread (event_id : string) | RelOther.

(** [ruma::push::Action], as far as it matters here. *)
Inductive Action := Notify | Highlight (on : bool) | OtherAction.

(** What the rules for notifications look at: [PushConditionRoomCtx]. *)
Record PushContext := MkPushContext {
  ctx_room : bytes; ctx_members : Z; ctx_user : bytes; ctx_name : bytes;
  ctx_levels : RoomPowerLevelsEventContent }.

Class TimelineRuma := {
  de_relates_to_event_id : string -> option string;       (** [ExtractRelatesToEventId] *)
  de_relates_to : string -> option Relation;              (** [ExtractRelatesTo] *)
  de_body : string -> option (option string);             (** [ExtractBody] *)
  de_redacts : string -> option (option string);          (** [RoomRedactionEventContent::redacts] *)
  de_authorised_via : string -> option (option string);   (** [RoomMemberEventContent] *)
  parse_version : string -> RoomVersionId;
  content_object : string -> option (list (string * CanonicalJsonValue));
  ser_stripped : string * EventType * string * option string -> bytes;
  default_levels : RoomPowerLevelsEventContent;
  ruleset : Type;
  de_push_rules : bytes -> option ruleset;
  server_default : bytes -> ruleset;
  rule_actions : ruleset -> Event -> PushContext -> list Action;
  localpart : bytes -> bytes;                             (** [UserId::localpart] *)
  (** [redact_content_in_place], and the event with its new content as JSON *)
  redact_content : RoomVersionId -> EventType -> string -> option string;
  redacted_json : Event -> string -> Event -> CanonicalJsonObject;
  (** building an event: its depth, its JSON, the hashes and signatures *)
  pdu_depth : Timeline.Pdu -> Z;
  event_json : Event -> Z -> list (string * CanonicalJsonValue) -> option CanonicalJsonObject;
  content_value : string -> CanonicalJsonValue;
  hash_and_sign : CanonicalJsonObject -> RoomVersionId -> option CanonicalJsonObject;
  (** [BundledThread] in the [unsigned] of a thread's root, with one more event *)
  bundle_thread : option CanonicalJsonValue -> Event -> CanonicalJsonValue }.

(** An appservice with its patterns. *)
Record Appservice := MkAppservice {
  as_info : RegistrationInfo; as_sender_localpart : bytes;
  as_users : bytes -> bool; as_aliases : bytes -> bool; as_rooms : bytes -> bool }.

Inductive AppendError :=
| RoomDoesNotExist | BadDatabase | CommandNotQueued | InvalidUser | InvalidContent | InvalidThread | QueueClosed
| NotAuthorized | CannotRedact | AdminForbidden | BadMember | UnknownVersion | SigningFailed
| InRoom (e : RoomError) | InAlias (e : AliasError) | InCodec (e : CodecError) | InMembers (e : MemberError)
| InTimeline (e : TimelineError).

(** [PduBuilder]: an event before it has an id, auth events and signatures. *)
Record PduBuilder := MkBuilder {
  b_type : EventType; b_content : string; b_unsigned : option (list (string * CanonicalJsonValue));
  b_state_key : option string; b_redacts : option string; b_timestamp : option Z }.

(** The services' state; the queue of admin commands, while it is open. *)
Record Server {L : LruCache Z ShortStateInfoVec} := MkServer {
  rooms : Rooms; senders : list Worker; senders_closed : bool; admin_queue : option (list (bytes * bytes)) }.
Arguments MkServer {L}.

Section append.
Context (debug : bool) {E : Engine} {I : Ids} {Js : Json} {JT : JsonText} {M : MemberJson} {J : PduJson}.
Context {R : Ruma} {RR : RoomRuma} {EJ : EventJson} {T : EventText} {TR : TimelineRuma} {U : Unicode}.
Context {sched : Schedule} {L : LruCache Z ShortStateInfoVec}.
Context (fuel : nat) (first : bool) (cfg : Config) (admin : AdminConfig) (calculate_hash : list bytes -> bytes).
Context (event_id_ok alias_ok : bytes -> bool) (predecessor : World -> bytes -> option bytes).
Context (dest_hash : Destination -> Z) (appservices : list Appservice).

Abbreviation srv := (eff (@Server L) AppendError).

(** ** Calls of other services *)

Definition srv_world (s : Server) : World := room_world (rooms s).
Definition set_rooms (s : @Server L) (r : Rooms) : Server := MkServer r (senders s) (senders_closed s) (admin_queue s).
Definition set_db (s : @Server L) (w : World) : Server := set_rooms s (with_db (rooms s) w).

Definition asks {Er A} (f : Er -> AppendError) (o : World -> outcome Er A) : srv A := fun s =>
  (fail_with f (o (srv_world s)), s).

Definition writes {Er} (f : Er -> AppendError) (o : World -> outcome Er World) : srv () := fun s =>
  match o (srv_world s) with
  | Done w => (Done (), set_db s w)
  | Fail e => (Fail (f e), s)
  | Panic => (Panic, s)
  | OutOfFuel => (OutOfFuel, s)
  end.

Definition write (f : World -> World) : srv () := modify (fun s => set_db s (f (srv_world s))).

(** A lookup in room states. *)
Definition reads {A} (m : World -> eff (@Store L) RoomError A) : srv A := fun s =>
  let '(o, st) := m (srv_world s) (layers (rooms s)) in
  (fail_with InRoom o, set_rooms s (with_layers (rooms s) st)).

(** A call of the state service or of the membership cache. *)
Definition on_rooms {A} (f : Rooms -> outcome RoomError (A * Rooms)) : srv A := fun s =>
  match f (rooms s) with
  | Done (a, r) => (Done a, set_rooms s r)
  | Fail e => (Fail (InRoom e), s)
  | Panic => (Panic, s)
  | OutOfFuel => (OutOfFuel, s)
  end.

Definition on_members {Er A} (g : Er -> AppendError) (f : StateCache -> outcome Er (A * StateCache)) : srv A := fun s =>
  match f (members_cache (rooms s)) with
  | Done (a, c) => (Done a, set_rooms s (MkRooms c (layers (rooms s)) (space_cache (rooms s))))
  | Fail e => (Fail (g e), s)
  | Panic => (Panic, s)
  | OutOfFuel => (OutOfFuel, s)
  end.

(** A call of the sending service; whether its channel accepted the message. *)
Definition sends (f : System -> outcome CodecError (System * bool)) : srv bool := fun s =>
  match f (MkSystem (srv_world s) (senders s) (senders_closed s)) with
  | Done (y, ok) => (Done ok, MkServer (with_db (rooms s) (sys_world y)) (workers y) (closed y) (admin_queue s))
  | Fail e => (Fail (InCodec e), s)
  | Panic => (Panic, s)
  | OutOfFuel => (OutOfFuel, s)
  end.

(** [globals.next_count().unwrap()] *)
Definition counted : srv Z := fun s =>
  match next_count debug (srv_world s) with
  | Done (c, w) => (Done c, set_db s w)
  | Fail e => (Fail (InCodec e), s)
  | Panic => (Panic, s)
  | OutOfFuel => (OutOfFuel, s)
  end.

(** [.ok()] and [unwrap_or]. *)
Definition opt {A} (m : srv A) : srv (option A) :=
  r ← attempt m; mret (match r with inr a => Some a | inl _ => None end).

(** ** [unsigned] *)

(** Insertion into a [BTreeMap]. *)
Fixpoint obj_insert (k : string) (v : CanonicalJsonValue) (o : list (string * CanonicalJsonValue))
    : list (string * CanonicalJsonValue) :=
  match o with
  | [] => [(k, v)]
  | (k', v') :: o' =>
      match String.compare k k' with
      | Lt => (k, v) :: o
      | Eq => (k, v) :: o'
      | Gt => (k', v') :: obj_insert k v o'
      end
  end.

Fixpoint obj_get (k : string) (o : list (string * CanonicalJsonValue)) : option CanonicalJsonValue :=
  match o with [] => None | (k', v) :: o => if decide (k = k') then Some v else obj_get k o end.

(** The state the event replaces, if it is known. *)
Definition prev_state (pdu : Event) (state_key : string) : srv (option Event) :=
  h ← opt (asks InRoom (pdu_shortstatehash debug (str (event_id pdu))));
  match h with
  | None => mret None
  | Some shortstatehash =>
      opt (reads (fun w => state_get debug fuel first w shortstatehash (event_type pdu) (str state_key)))
  end.

Definition with_prev_content (pdu : Event) (pdu_json : CanonicalJsonObject) : srv CanonicalJsonObject :=
  match state_key pdu with
  | None => mret pdu_json
  | Some state_key =>
      let pdu_json := <["unsigned" := default (JObject []) (pdu_json !! "unsigned")]> pdu_json in
      match pdu_json !! "unsigned" with
      | Some (JObject unsigned) =>
          prev ← prev_state pdu state_key;
          match prev with
          | None => mret pdu_json
          | Some prev_state =>
              prev_content ← lift_eff (ok_or BadDatabase (content_object (content prev_state)));
              let unsigned := obj_insert "prev_content" (JObject prev_content) unsigned in
              let unsigned := obj_insert "prev_sender" (JString (sender prev_state)) unsigned in
              let unsigned := obj_insert "replaces_state" (JString (event_id prev_state)) unsigned in
              mret (<["unsigned" := JObject unsigned]> pdu_json)
          end
      | _ => mret pdu_json
      end
  end.

(** ** Notifications *)

(** [UInt::try_from(count).unwrap_or(0)] *)
Definition uint_or_zero (n : Z) : Z := if decide (n < 2 ^ 53)%Z then n else 0.

(** [users.displayname] *)
Definition displayname (user : bytes) (w : World) : outcome DbError bytes :=
  v ← deserialized debug TStr (get (maps w userid_displayname) user);
  match v with VStr s => Done s | _ => Panic end.

(** [pusher.get_actions] *)
Definition get_actions (user : bytes) (rules : ruleset) (levels : RoomPowerLevelsEventContent) (pdu : Event)
    : srv (list Action) :=
  let room := str (room_id pdu) in
  members ← opt (asks (fun _ => BadDatabase) (room_joined_count debug room));
  name ← opt (asks (fun _ => BadDatabase) (displayname user));
  mret (rule_actions rules pdu
    (MkPushContext room (uint_or_zero (default 1%Z members)) user (default (localpart user) name) levels)).

(** The loop over the actions, which stops when both are known. *)
Fixpoint scan_actions (actions : list Action) (notify highlight : bool) : bool * bool :=
  match actions with
  | [] => (notify, highlight)
  | a :: actions =>
      let notify := match a with Notify => true | _ => notify end in
      let highlight := match a with Highlight true => true | _ => highlight end in
      if notify && highlight then (notify, highlight) else scan_actions actions notify highlight
  end.

(** [pusher.get_pushkeys] *)
Definition get_pushkeys (sender : bytes) (w : World) : outcome CodecError (list bytes) :=
  scan_ids debug (fun _ => true) (maps w senderkey_pusher) sender.

Definition push_to (pdu_id : RawId) (user : bytes) (u : ()) (push_key : bytes) : srv () :=
  ok ← sends (send_pdu_push debug dest_hash pdu_id user push_key);
  if ok : bool then mret () else lift_eff Panic.

Definition notify_user (pdu : Event) (pdu_id : RawId) (levels : RoomPowerLevelsEventContent)
    (acc : list bytes * list bytes) (user : bytes) : srv (list bytes * list bytes) :=
  rules ← opt (asks (fun _ => BadDatabase) (get_global debug de_push_rules user (str "m.push_rules")));
  actions ← get_actions user (default (server_default user) rules) levels pdu;
  let '(notify, highlight) := scan_actions actions false false in
  keys ← asks InCodec (get_pushkeys user);
  _ ← for_each (push_to pdu_id user) () keys;
  mret (if notify then acc.1 ++ [user] else acc.1, if highlight then acc.2 ++ [user] else acc.2).

(** Who may be notified: active local members but the sender, who do not ignore
    the sender, and the target of a membership event. *)
Definition not_ignored (sender : bytes) (acc : list bytes) (user : bytes) : srv (list bytes) :=
  ignored ← asks InCodec (user_is_ignored debug sender user);
  mret (if (ignored : bool) then acc else acc ++ [user]).

Definition push_targets (pdu : Event) : srv (gset bytes) :=
  users ← asks InCodec (active_local_users_in_room debug cfg (str (room_id pdu)));
  let users := filter (fun u => u <> str (sender pdu)) (users : list bytes) in
  targets ← for_each (not_ignored (str (sender pdu))) [] users;
  let targets : gset bytes := list_to_set (targets : list bytes) in
  match state_key pdu with
  | Some state_key =>
      if decide (event_type pdu = RoomMember) then
        let target := str state_key in
        if user_id_ok target then
          active ← gets (fun s => user_is_local cfg target && is_active target (srv_world s));
          mret (if active : bool then {[ target ]} ∪ targets else targets)
        else throw InvalidUser
      else mret targets
  | None => mret targets
  end.

Definition notify (pdu : Event) (pdu_id : RawId) : srv () :=
  levels ← opt (reads (fun w => room_state_get_content debug fuel first de_power_levels w (str (room_id pdu)) RoomPowerLevels []));
  targets ← push_targets pdu;
  '(notifies, highlights) ← for_each (notify_user pdu pdu_id (default default_levels levels)) ([], [])
                              (reorder "push targets" (elements targets));
  write (increment_notification_counts (str (room_id pdu)) notifies highlights).

(** ** Redactions *)

Definition index_body (content : string) (f : bytes -> World -> World) : srv () :=
  match de_body content with
  | Some (Some body) => write (f (str body))
  | _ => mret ()
  end.

Definition redact_pdu (event_id' : string) (reason : Event) (shortroomid : Z) : srv () :=
  id ← opt (asks InTimeline (Timeline.get_pdu_id (str event_id')));
  match id with
  | None => mret ()
  | Some pdu_id =>
      p ← asks (fun _ => BadDatabase) (get_pdu_from_id pdu_id);
      let pdu := StateAccessor.pdu_event p in
      _ ← index_body (content pdu) (deindex_pdu shortroomid pdu_id);
      version ← reads (fun w => get_room_version debug fuel first w (str (room_id pdu)));
      redacted ← lift_eff (ok_or BadDatabase (redact_content (parse_version version) (event_type pdu) (content pdu)));
      writes InTimeline (Timeline.replace_pdu debug pdu_id (to_text (redacted_json pdu redacted reason)))
  end.

(** The event to redact, by room version. *)
Definition redaction_target (pdu : Event) : srv (option string) :=
  version ← reads (fun w => get_room_version debug fuel first w (str (room_id pdu)));
  match parse_version version with
  | IdV1 | IdV2 | IdV3 | IdV4 | IdV5 | IdV6 | IdV7 | IdV8 | IdV9 | IdV10 => mret (redacts pdu)
  | _ => lift_eff (ok_or InvalidContent (de_redacts (content pdu)))
  end.

Definition may_redact (redact_id : string) (pdu : Event) : srv bool :=
  reads (user_can_redact debug fuel first (str redact_id) (str (sender pdu)) (str (room_id pdu)) false).

(** ** Threads: [threads/mod.rs] *)

(** [Vec<OwnedUserId>] *)
Definition get_participants (root_id : RawId) (w : World) : outcome DbError (list bytes) :=
  v ← deserialized debug (TSeq TStr) (get (maps w threadid_userids) (as_bytes root_id));
  match v with
  | VSeq vs => try_map (fun v => match v with
                        | VStr s => if user_id_ok s then Done s else Fail (DeError (SerdeDe "invalid identifier"))
                        | _ => Panic end) vs
  | _ => Panic
  end.

(** The root's [unsigned] with the thread as its newest event leaves it. *)
Definition with_thread (root_pdu_json : CanonicalJsonObject) (pdu : Event) : option CanonicalJsonObject :=
  match default (JObject []) (root_pdu_json !! "unsigned") with
  | JObject unsigned =>
      let relations := r ← obj_get "m.relations" unsigned;
                       match r with JObject r => obj_get "m.thread" r | _ => None end in
      Some (<["unsigned" := JObject (obj_insert "m.relations" (JObject [("m.thread", bundle_thread relations pdu)])
                                      unsigned)]> root_pdu_json)
  | _ => None
  end.

Definition add_to_thread (root_event_id : string) (pdu : Event) : srv () :=
  root_id ← asks (fun _ => InvalidThread) (Timeline.get_pdu_id (str root_event_id));
  root_pdu ← asks (fun _ => InvalidThread) (get_pdu_from_id root_id);
  text ← asks (fun _ => InvalidThread) (get_pdu_json_from_id root_id);
  root_pdu_json ← lift_eff (ok_or InvalidThread (of_text text));
  _ ← (match with_thread root_pdu_json pdu with
       | Some json => writes InTimeline (Timeline.replace_pdu debug root_id (to_text json))
       | None => mret ()
       end);
  users ← opt (asks (fun _ => BadDatabase) (get_participants root_id));
  write (update_participants root_id (default [pdu_sender root_pdu] users ++ [str (sender pdu)])).

(** ** What an event changes *)

Definition RoomMessage := OtherType "m.room.message".

(** [admin.command]: the queue is closed when the server stops.  (A full queue only
    delays.) *)
Definition command (body reply_id : bytes) : srv () := fun s =>
  match admin_queue s with
  | Some queue => (Done (), MkServer (rooms s) (senders s) (senders_closed s) (Some (queue ++ [(body, reply_id)])))
  | None => (Fail CommandNotQueued, s)
  end.

Definition apply_redaction (pdu : Event) (shortroomid : Z) : srv () :=
  target ← redaction_target pdu;
  match target with
  | None => mret ()
  | Some redact_id =>
      allowed ← may_redact redact_id pdu;
      if allowed : bool then redact_pdu redact_id pdu shortroomid else mret ()
  end.

Definition apply_member (pdu : Event) (state_key : string) : srv () :=
  if negb (user_id_ok (str state_key)) then lift_eff Panic else
  membership ← lift_eff (ok_or InvalidContent (de_member (content pdu)));
  stripped ← (match membership with
              | Matrix.Invite | Matrix.Knock =>
                  l ← reads (summary_stripped debug fuel first pdu); mret (Some (ser_stripped <$> l))
              | _ => mret None
              end);
  on_members InMembers (fun c =>
    c ← update_membership debug cfg predecessor (str (room_id pdu)) (str state_key) (membership_kind membership)
          (str (sender pdu)) stripped None true c;
    Done ((), c)).

Definition apply_message (pdu : Event) (pdu_id : RawId) (shortroomid : Z) : srv () :=
  body ← lift_eff (ok_or InvalidContent (de_body (content pdu)));
  match body with
  | None => mret ()
  | Some body =>
      _ ← write (index_pdu shortroomid pdu_id (str body));
      is_command ← asks InAlias (is_admin_command debug admin (str (sender pdu)) (str (room_id pdu)) (str body));
      if is_command : bool then command (str body) (str (event_id pdu)) else mret ()
  end.

Definition forget_space (room_id : bytes) : srv () := modify (fun s =>
  set_rooms s (MkRooms (members_cache (rooms s)) (layers (rooms s)) (space_cache (rooms s) ∖ {[ room_id ]}))).

(** [match pdu.kind] *)
Definition apply_event (pdu : Event) (pdu_id : RawId) (shortroomid : Z) : srv () :=
  if decide (event_type pdu = RoomRedaction) then apply_redaction pdu shortroomid
  else if decide (event_type pdu = SpaceChild) then
    match state_key pdu with Some _ => forget_space (str (room_id pdu)) | None => mret () end
  else if decide (event_type pdu = RoomMember) then
    match state_key pdu with Some sk => apply_member pdu sk | None => mret () end
  else if decide (event_type pdu = RoomMessage) then apply_message pdu pdu_id shortroomid
  else mret ().

Definition relate_to (from : Count.count) (event_id' : string) : srv () :=
  related ← opt (asks InTimeline (get_pdu_count (str event_id')));
  match related with
  | Some to => writes InCodec (add_relation debug from to)
  | None => mret ()
  end.

Definition relate (pdu : Event) (count2 : Count.count) : srv () :=
  _ ← (match de_relates_to_event_id (content pdu) with
       | Some event_id' => relate_to count2 event_id'
       | None => mret ()
       end);
  match de_relates_to (content pdu) with
  | Some (RelReply in_reply_to) => relate_to count2 in_reply_to
  | Some (RelThread root) => add_to_thread root pdu
  | _ => mret ()
  end.

(** ** Appservices *)

(** Whether an appservice that is not in the room is told of the event: its own
    user, its aliases, its rooms, its users. *)
Definition appservice_wants (pdu : Event) (a : Appservice) (w : World) : outcome CodecError bool :=
  let room := str (room_id pdu) in
  let is_member := bool_decide (event_type pdu = RoomMember) in
  let target := str <$> state_key pdu in
  if is_member && match target with
                  | Some u => user_id_ok u && bool_decide (u = as_sender_localpart a)
                  | None => false
                  end
  then Done true else
  aliases ← local_aliases_for_room debug alias_ok room w;
  Done (existsb (as_aliases a) (aliases : list bytes) || as_rooms a room ||
        (as_users a (str (sender pdu)) || (is_member && from_option (as_users a) false target))).

Definition send_to_appservice (pdu : Event) (pdu_id : RawId) (u : ()) (a : Appservice) : srv () :=
  in_room ← on_members InCodec (appservice_in_room debug (str (room_id pdu)) (as_info a));
  wanted ← (if in_room : bool then mret true else asks InCodec (appservice_wants pdu a));
  if wanted : bool then
    ok ← sends (send_pdu_appservice debug dest_hash (as_id (as_info a)) pdu_id);
    if ok : bool then mret () else throw QueueClosed
  else mret ().

(** ** [append_pdu] *)

Definition stored_pdu (pdu : Event) : Timeline.Pdu :=
  MkPdu (str (event_id pdu)) (str (sender pdu)) (origin_server_ts pdu) None [].

(** The event is put into the timeline: the previous events are referenced, the
    extremities replaced, and the sender has read the room up to here. *)
Definition insert_pdu (pdu : Event) (pdu_json : CanonicalJsonObject) (leafs : list string) (shortroomid : Z)
    : srv (Count.count * RawId) :=
  let room := str (room_id pdu) in
  _ ← writes InCodec (mark_as_referenced debug room (str <$> prev_events pdu));
  _ ← writes InCodec (set_forward_extremities debug room (str <$> leafs));
  count1 ← counted;
  _ ← writes InCodec (private_read_set debug room (str (sender pdu)) count1);
  _ ← writes InCodec (reset_notification_counts debug (str (sender pdu)) room);
  count2 ← counted;
  let count2 := Count.Normal count2 in
  let pdu_id := raw_from_id (MkId shortroomid count2) in
  _ ← writes InTimeline (Timeline.append_pdu debug pdu_id (stored_pdu pdu) (to_text pdu_json) count2);
  mret (count2, pdu_id).

Definition append_pdu (pdu : Event) (pdu_json : CanonicalJsonObject) (leafs : list string) : srv RawId :=
  shortroomid ← asks (fun _ => RoomDoesNotExist) (fun w => get_shortroomid debug (globals w) (str (room_id pdu)));
  pdu_json ← with_prev_content pdu pdu_json;
  '(count2, pdu_id) ← insert_pdu pdu pdu_json leafs shortroomid;
  _ ← notify pdu pdu_id;
  _ ← apply_event pdu pdu_id shortroomid;
  _ ← relate pdu count2;
  _ ← for_each (send_to_appservice pdu pdu_id) () appservices;
  mret pdu_id.

Definition append_incoming_pdu (pdu : Event) (pdu_json : CanonicalJsonObject) (new_room_leafs : list string)
    (state_ids_compressed : CompressedState) (soft_fail : bool) : srv (option RawId) :=
  let room := str (room_id pdu) in
  _ ← on_rooms (set_event_state debug fuel calculate_hash (str (event_id pdu)) room state_ids_compressed);
  if soft_fail then
    _ ← writes InCodec (mark_as_referenced debug room (str <$> prev_events pdu));
    _ ← writes InCodec (set_forward_extremities debug room (str <$> new_room_leafs));
    mret None
  else
    pdu_id ← append_pdu pdu pdu_json new_room_leafs;
    mret (Some pdu_id).

(** ** The server's own events *)

(** [UInt::saturating_add] *)
Definition uint_max : Z := 2 ^ 53 - 1.

Definition known_depth (acc : Z) (event_id' : bytes) : srv Z :=
  p ← opt (asks InTimeline (Timeline.get_pdu first event_id'));
  mret (from_option (fun p => Z.max acc (pdu_depth p)) acc p).

(** The version of the room; a room that is being created has that of its create
    event. *)
Definition building_version (b : PduBuilder) (room_id : bytes) : srv RoomVersionId :=
  v ← opt (reads (fun w => get_room_version debug fuel first w room_id));
  match v with
  | Some v => mret (parse_version v)
  | None =>
      if decide (b_type b = RoomCreate)
      then lift_eff (ok_or InvalidContent (parse_version <$> StateAccessor.de_create_version (b_content b)))
      else throw UnknownVersion
  end.

Definition building_unsigned (b : PduBuilder) (room_id : bytes) : srv (list (string * CanonicalJsonValue)) :=
  let unsigned := default [] (b_unsigned b) in
  match b_state_key b with
  | None => mret unsigned
  | Some state_key =>
      prev ← opt (reads (fun w => room_state_get debug fuel first w room_id (b_type b) (str state_key)));
      mret (match prev with
            | None => unsigned
            | Some prev_pdu =>
                let unsigned := obj_insert "prev_content" (content_value (content prev_pdu)) unsigned in
                let unsigned := obj_insert "prev_sender" (JString (sender prev_pdu)) unsigned in
                obj_insert "replaces_state" (JString (event_id prev_pdu)) unsigned
            end)
  end.

Definition create_hash_and_sign_event (now : Z) (b : PduBuilder) (sender room_id : string)
    : srv (Event * CanonicalJsonObject) :=
  let room := str room_id in
  leaves ← asks InCodec (get_forward_extremities debug event_id_ok room);
  let prev_events := take 20 (leaves : list bytes) in
  room_version_id ← building_version b room;
  room_version ← lift_eff (match room_version_new room_version_id with Done v => Done v | OutOfFuel => OutOfFuel | _ => Panic end);
  auth_events ← reads (get_auth_events debug fuel first room (b_type b) sender (b_state_key b) (b_content b));
  top ← for_each known_depth 0%Z prev_events;
  let depth := Z.min uint_max (top + 1) in
  unsigned ← building_unsigned b room;
  let pdu := MkEvent "$thiswillbefilledinlater" room_id sender (default now (b_timestamp b)) (b_type b) (b_content b)
               (b_state_key b) (unstr <$> prev_events)
               (event_id <$> reorder "auth events" (map_to_list (auth_events : StateMap Event)).*2) (b_redacts b) in
  allowed ← lift_eff (fail_with (fun _ => NotAuthorized)
              (auth_check room_version pdu None (fun ty sk => (auth_events : StateMap Event) !! (ty, sk))));
  if negb allowed then throw NotAuthorized else
  pdu_json ← lift_eff (ok_or InvalidContent (event_json pdu depth unsigned));
  let pdu_json := match room_version_id with IdV1 | IdV2 => pdu_json | _ => delete "event_id" pdu_json end in
  let pdu_json := <["origin" := JString (unstr (own_server admin))]> pdu_json in
  pdu_json ← lift_eff (ok_or SigningFailed (hash_and_sign pdu_json room_version_id));
  event_id' ← lift_eff (ok_or SigningFailed (gen_event_id pdu_json room_version_id));
  let pdu := MkEvent event_id' room_id sender (origin_server_ts pdu) (event_type pdu) (content pdu) (state_key pdu)
               (Matrix.prev_events pdu) (Matrix.auth_events pdu) (redacts pdu) in
  let pdu_json := <["event_id" := JString event_id']> pdu_json in
  _ ← writes (fun e => InRoom (RoomShort e)) (fun w =>
        '(_, g) ← get_or_create_shorteventid debug (globals w) (str event_id'); Done (set_globals w g));
  mret (pdu, pdu_json).

(** ** The admin room *)

(** The local members of the room but one. *)
Definition other_admins (room target : bytes) (w : World) : outcome CodecError nat :=
  members ← room_members debug room w;
  Done (length (filter (fun u => user_is_local cfg u = true /\ u <> target) (members : list bytes))).

Definition keeps_admins (room target : bytes) : srv () :=
  if decide (target = server_user admin) then throw AdminForbidden else
  count ← asks InCodec (other_admins room target);
  if decide (count < 2) then throw AdminForbidden else mret ().

Definition check_pdu_for_admin_room (pdu : Event) (sender : string) : srv () :=
  if decide (event_type pdu = RoomEncryption) then throw AdminForbidden
  else if decide (event_type pdu = RoomMember) then
    let target := match state_key pdu with
                  | Some v => if bool_decide (head (str v) = Some x40) then str v else str sender
                  | None => str sender
                  end in
    membership ← lift_eff (ok_or InvalidContent (de_member (content pdu)));
    match membership with
    | Matrix.Leave => keeps_admins (str (room_id pdu)) target
    | Matrix.Ban => if decide (is_Some (state_key pdu)) then keeps_admins (str (room_id pdu)) target else mret ()
    | _ => mret ()
    end
  else mret ().

(** ** [build_and_append_pdu] *)

Definition check_redaction (pdu : Event) : srv () :=
  if decide (event_type pdu <> RoomRedaction) then mret () else
  target ← redaction_target pdu;
  match target with
  | None => mret ()
  | Some redact_id =>
      allowed ← may_redact redact_id pdu;
      if allowed : bool then mret () else throw CannotRedact
  end.

Definition check_member (pdu : Event) : srv () :=
  if decide (event_type pdu <> RoomMember) then mret () else
  membership ← lift_eff (ok_or InvalidContent (de_member (content pdu)));
  via ← lift_eff (ok_or InvalidContent (de_authorised_via (content pdu)));
  match via with
  | None => mret ()
  | Some authorising_user =>
      if decide (membership <> Matrix.Join) then throw BadMember else
      if user_is_local cfg (str authorising_user) then mret () else throw BadMember
  end.

(** The servers told of the event: those of the room and that of the member it
    concerns, but not this one. *)
Definition recipients (pdu : Event) (w : World) : outcome CodecError (gset bytes) :=
  servers ← room_servers debug (str (room_id pdu)) w;
  let servers : gset bytes := list_to_set (servers : list bytes) in
  let servers := match state_key pdu with
                 | Some sk => if bool_decide (event_type pdu = RoomMember) && user_id_ok (str sk)
                              then {[ server_name (str sk) ]} ∪ servers else servers
                 | None => servers
                 end in
  Done (servers ∖ {[ own_server admin ]}).

Definition build_and_append_pdu (now : Z) (b : PduBuilder) (sender room_id : string) : srv string :=
  '(pdu, pdu_json) ← create_hash_and_sign_event now b sender room_id;
  in_admin_room ← asks InAlias (is_admin_room debug admin (str (Matrix.room_id pdu)));
  _ ← (if in_admin_room : bool then check_pdu_for_admin_room pdu sender else mret ());
  _ ← check_redaction pdu;
  _ ← check_member pdu;
  statehashid ← on_rooms (append_to_state debug fuel pdu);
  pdu_id ← append_pdu pdu pdu_json [event_id pdu];
  _ ← writes InCodec (set_room_state debug (str (Matrix.room_id pdu)) statehashid);
  servers ← asks InCodec (recipients pdu);
  ok ← sends (send_pdu_servers debug dest_hash (reorder "servers" (elements (servers : gset bytes))) pdu_id);
  if ok : bool then mret (event_id pdu) else throw QueueClosed.

End append.

(** ** Tables that only the timeline and the state service write

    Where events are, which were followed and which are not, which were
    soft-failed, and the states of events and rooms; with [b], the events
    themselves, which a redaction or a thread rewrites. *)

Definition watched (b : bool) (t : tbl) : bool :=
  match t with
  | pduid_pdu => b
  | eventid_pduid | eventid_outlierpdu | roomid_pduleaves | referencedevents | softfailedeventids
  | roomid_shortstatehash | shorteventid_shortstatehash => true
  | _ => false
  end.

Definition still (b : bool) (w w' : World) : Prop := forall t, watched b t = true -> maps w' t = maps w t.

#[global] Instance still_preorder b : PreOrder (still b).
Proof. split; [done|]. intros w1 w2 w3 H1 H2 t Ht. by rewrite H2, H1. Qed.

Lemma still_ins b t k v w : watched b t = false -> still b w (ins t k v w).
Proof. intros Ht t' Ht'. apply maps_ins_ne. congruence. Qed.
Lemma still_rem b t k w : watched b t = false -> still b w (rem t k w).
Proof. intros Ht t' Ht'. apply maps_rem_ne. congruence. Qed.
Lemma still_upd b t f w w' : upd t f w = Done w' -> watched b t = false -> still b w w'.
Proof. unfold upd. intros H Ht. bind_inv H. injection H as <-. intros t' Ht'. apply maps_set_ne. congruence. Qed.
Lemma still_count b debug w c w' : next_count debug w = Done (c, w') -> still b w w'.
Proof. unfold next_count. destruct (Short.next_count _ _) as [[]| | |]; intros [= <- <-]; done. Qed.
Lemma still_foldl b {A} (f : World -> A -> World) l w : (forall w a, still b w (f w a)) -> still b w (foldl f w l).
Proof. intros Hf. revert w. induction l as [|a l IH]; intros w; cbn; [done|]. etrans; [apply Hf|apply IH]. Qed.
Lemma still_try_fold b {Er A X} (pr : X -> World) (f : X -> A -> outcome Er X) l x x' :
  try_fold f x l = Done x' -> (forall x a x', f x a = Done x' -> still b (pr x) (pr x')) -> still b (pr x) (pr x').
Proof.
  intros H Hf. revert x H. induction l as [|a l IH]; intros x; cbn; [by intros [= <-]|].
  intros H. bind_inv H. etrans; [by eapply Hf|by apply IH].
Qed.
Lemma lift_acct_Done {A} (o : outcome DbError A) a : lift_acct o = Done a -> o = Done a.
Proof. destruct o; cbn; congruence. Qed.
Lemma lift_de_Done {A} (o : outcome CodecError A) a : lift_de o = Done a -> o = Done a.
Proof. destruct o; cbn; congruence. Qed.
Lemma lift_m_Done {A} (o : outcome CodecError A) a : lift_m o = Done a -> o = Done a.
Proof. destruct o; cbn; congruence. Qed.
Lemma lift_tl_Done {A} (o : outcome DbError A) a : lift_tl o = Done a -> o = Done a.
Proof. destruct o as [|[]| |]; cbn; congruence. Qed.
Lemma fail_with_Done {Er Er' A} (f : Er -> Er') (o : outcome Er A) a : fail_with f o = Done a -> o = Done a.
Proof. destruct o; cbn; congruence. Qed.

(** Takes a run apart and chains what each part left alone. *)
Ltac run_inv b := repeat match goal with
  | H : _ ≫= _ = Done _ |- _ => bind_inv H
  | H : Done _ = Done _ |- _ => injection H; clear H; intros; subst
  | H : Fail _ = Done _ |- _ => discriminate H
  | H : Panic = Done _ |- _ => discriminate H
  | H : OutOfFuel = Done _ |- _ => discriminate H
  | H : upd _ _ _ = Done _ |- _ => apply (still_upd b) in H; [|reflexivity]
  | H : next_count _ _ = Done _ |- _ => apply (still_count b) in H
  | H : lift_acct _ = Done _ |- _ => apply lift_acct_Done in H
  | H : lift_de _ = Done _ |- _ => apply lift_de_Done in H
  | H : lift_m _ = Done _ |- _ => apply lift_m_Done in H
  | H : lift_tl _ = Done _ |- _ => apply lift_tl_Done in H
  | H : fail_with _ _ = Done _ |- _ => apply fail_with_Done in H
  | x : (_ * _)%type |- _ => destruct x
  | H : context [match ?x with _ => _ end] |- _ => destruct x eqn:?
  end.
Ltac chain := let t := fresh "t" in let Ht := fresh "Ht" in
  intros t Ht; repeat match goal with H : still _ _ _ |- _ => specialize (H t Ht) end;
  repeat match goal with
  | |- context [maps (ins _ _ _ _) t] => rewrite maps_ins_ne by (intros <-; discriminate Ht)
  | |- context [maps (rem _ _ _) t] => rewrite maps_rem_ne by (intros <-; discriminate Ht)
  | H : context [maps (ins _ _ _ _) t] |- _ => rewrite maps_ins_ne in H by (intros <-; discriminate Ht)
  | H : context [maps (rem _ _ _) t] |- _ => rewrite maps_rem_ne in H by (intros <-; discriminate Ht)
  end;
  congruence.
Ltac stays b := intros; run_inv b; chain.

Section stays.
Context (debug : bool) {E : Engine} {I : Ids} {Js : Json} {JT : JsonText} {M : MemberJson} {sched : Schedule}.
Context (cfg : Config) (predecessor : World -> bytes -> option bytes).

Lemma update_still b r u ty data w w' : update debug r u ty data w = Done w' -> still b w w'.
Proof. unfold update. stays b. Qed.

Lemma joined_count_still b r s s' : update_joined_count debug r s = Done s' -> still b (world s) (world s').
Proof.
  unfold update_joined_count. intros H. run_inv b.
  match goal with H : try_fold _ _ _ = Done (_, _) |- _ => apply (still_try_fold b snd) in H;
    [|intros [] ? []; unfold settle_server; cbn [snd fst]; stays b] end.
  match goal with H : try_fold _ _ _ = Done _ |- _ => apply (still_try_fold b id) in H;
    [|intros ???; unfold StateCache.add_server, id; stays b] end.
  cbn [snd fst world] in *. unfold id in *. chain.
Qed.

Lemma membership_still b r u ms sender st via cnt s s' :
  update_membership debug cfg predecessor r u ms sender st via cnt s = Done s' -> still b (world s) (world s').
Proof.
  unfold update_membership. intros (o & Ho & H)%bind_Done.
  set (w0 := if negb _ && _ then _ else _) in *.
  assert (still b (world s) w0) as S0 by (unfold w0, user_create; destruct (_ && _); [by apply still_ins|done]).
  assert (forall w1, o = Some w1 -> still b w0 w1) as S1.
  { intros w1 ->. clearbody w0. clear H S0. unfold apply_membership, copy_from_predecessor in Ho. destruct ms.
    all: unfold mark_as_joined, mark_as_left, mark_as_invited, mark_as_once_joined, forget, add_servers_invite_via in *.
    all: run_inv b; repeat match goal with H : update _ _ _ _ _ _ = Done _ |- _ => apply (update_still b) in H end; chain. }
  destruct o as [w1|]; [|by injection H as <-]. specialize (S1 w1 eq_refl).
  destruct cnt; [apply lift_m_Done, (joined_count_still b) in H|injection H as <-]; cbn in *; by repeat (etrans; [eassumption|]).
Qed.

End stays.

Section quiet.
Context (debug : bool) {E : Engine} {I : Ids} {Js : Json} {JT : JsonText} {M : MemberJson} {J : PduJson}.
Context {R : Ruma} {RR : RoomRuma} {EJ : EventJson} {T : EventText} {TR : TimelineRuma} {U : Unicode}.
Context {sched : Schedule} {L : LruCache Z ShortStateInfoVec}.
Context (fuel : nat) (first : bool) (cfg : Config) (admin : AdminConfig).
Context (alias_ok : bytes -> bool) (predecessor : World -> bytes -> option bytes).
Context (dest_hash : Destination -> Z).

Definition quiet (b : bool) (s s' : @Server L) : Prop := still b (srv_world s) (srv_world s').

#[global] Instance quiet_preorder b : PreOrder (quiet b).
Proof. split; [intros s; unfold quiet; reflexivity|]. intros s1 s2 s3 H1 H2. unfold quiet in *. by etrans. Qed.

Lemma quiet_asks b {Er A} f (o : World -> outcome Er A) : confined (quiet b) (asks f o).
Proof. intros s. unfold quiet. reflexivity. Qed.
Lemma quiet_reads b {A} (m : World -> eff (@Store L) RoomError A) : confined (quiet b) (reads m).
Proof. intros s. unfold reads. destruct (m _ _). unfold quiet. reflexivity. Qed.
Lemma quiet_write b f : (forall w, still b w (f w)) -> confined (quiet b) (write f).
Proof. intros Hf s. apply Hf. Qed.
Lemma quiet_writes b {Er} (g : Er -> AppendError) o :
  (forall w w', o w = Done w' -> still b w w') -> confined (quiet b) (writes g o).
Proof.
  intros Ho s. unfold writes. destruct (o (srv_world s)) as [w| | |] eqn:Ew; [by apply Ho|..]; unfold quiet; reflexivity.
Qed.
Lemma quiet_members b {Er A} (g : Er -> AppendError) (f : StateCache -> outcome Er (A * StateCache)) :
  (forall c a c', f c = Done (a, c') -> still b (world c) (world c')) -> confined (quiet b) (on_members g f).
Proof.
  intros Hf s. unfold on_members. destruct (f _) as [[a c]| | |] eqn:Ec; [by eapply Hf|..]; unfold quiet; reflexivity.
Qed.
Lemma quiet_command b body r : confined (quiet b) (command body r).
Proof. intros s. unfold quiet, command. destruct (admin_queue s); reflexivity. Qed.
Lemma quiet_space b r : confined (quiet b) (forget_space r).
Proof. intros s. unfold quiet. reflexivity. Qed.

Lemma dispatch_still msgs y y' ok : dispatch_all debug dest_hash msgs y = Done (y', ok) -> sys_world y' = sys_world y.
Proof.
  revert y. induction msgs as [|m msgs IH]; intros y; cbn [dispatch_all]; [by intros [= <- <-]|].
  intros H. bind_inv H. destruct a as [y1 ok1].
  assert (sys_world y1 = sys_world y) as <-.
  { unfold dispatch in H0. bind_inv H0. destruct (_ && _); [done|]. destruct (closed y); by injection H0 as <- _. }
  destruct ok1; [by apply IH|]. by injection H as <- <-.
Qed.

Lemma queue_still b reqs y y' ok :
  queue_and_dispatch debug dest_hash reqs y = Done (y', ok) -> still b (sys_world y) (sys_world y').
Proof.
  unfold queue_and_dispatch. intros H. bind_inv H. destruct a as [keys w].
  apply dispatch_still in H as ->. cbn. unfold queue_requests in H0. bind_inv H0. destruct a as [ks w1].
  assert (forall reqs w ks w', request_keys debug reqs w = Done (ks, w') -> still b w w') as Hr.
  { clear. induction reqs as [|[e d] reqs IH]; intros w ks w'; cbn [request_keys]; [by intros [= <- <-]|].
    intros H. run_inv b; try (match goal with H : request_keys _ _ _ = _ |- _ => apply IH in H end); chain. }
  apply Hr in H1. injection H0 as <- <-. etrans; [exact H1|]. intros t Ht. by destruct t.
Qed.

Lemma quiet_sends b f :
  (forall y y' ok, f y = Done (y', ok) -> still b (sys_world y) (sys_world y')) -> confined (quiet b) (sends f).
Proof.
  intros Hf s. unfold sends. destruct (f _) as [[y ok]| | |] eqn:Ey; [by apply Hf in Ey|..]; unfold quiet; reflexivity.
Qed.

Create HintDb quiet.
#[local] Hint Resolve quiet_asks quiet_reads quiet_command quiet_space queue_still : quiet.
#[local] Hint Resolve confined_ret confined_lift confined_throw confined_gets : quiet.
#[local] Hint Extern 1 (PreOrder _) => apply _ : quiet.

Ltac settle := repeat first
  [ solve [auto 3 with quiet]
  | apply quiet_sends; intros ? ? ?; apply queue_still
  | apply confined_bind; [apply _| |intros ?]
  | apply confined_for_each; [apply _|intros ? ?]
  | apply confined_attempt
  | match goal with
    | |- confined _ (let '_ := ?x in _) => destruct x
    | |- confined _ (match ?x with _ => _ end) => destruct x
    end ].

Lemma quiet_notify pdu id : confined (quiet false) (notify debug fuel first cfg dest_hash pdu id).
Proof.
  unfold notify, push_targets, not_ignored, notify_user, get_actions, push_to, opt. settle.
  apply quiet_write. intros w. unfold increment_notification_counts, count_for, increment_row.
  trans (foldl (fun w u => increment_row userroomid_notificationcount (u ++ [SEP] ++ str (room_id pdu)) w) w l);
    apply still_foldl; intros; by apply still_ins.
Qed.

Lemma replace_still id json w w' : Timeline.replace_pdu debug id json w = Done w' -> still false w w'.
Proof. unfold Timeline.replace_pdu, put_json. stays false. Qed.

Lemma quiet_redact id reason r : confined (quiet false) (redact_pdu debug fuel first id reason r).
Proof.
  unfold redact_pdu, index_body, opt. settle.
  - apply quiet_write. intros w. unfold deindex_pdu. apply still_foldl. intros. by apply still_rem.
  - apply quiet_writes. intros w w'. apply replace_still.
Qed.

#[local] Hint Resolve quiet_redact : quiet.

Lemma quiet_apply pdu id r : confined (quiet false) (apply_event debug fuel first cfg admin predecessor pdu id r).
Proof.
  unfold apply_event, apply_redaction, redaction_target, may_redact, apply_member, apply_message. settle.
  all: try (apply quiet_write; intros w t Ht; apply maps_set_ne; by intros <-).
  all: apply quiet_members; intros c u c' H; bind_inv H; injection H as <- <-; by eapply membership_still.
Qed.

Lemma add_relation_still b x y w w' : add_relation debug x y w = Done w' -> still b w w'.
Proof. unfold add_relation, data_add_relation. stays b. Qed.

Lemma quiet_relate pdu c : confined (quiet false) (relate debug pdu c).
Proof.
  unfold relate, relate_to, add_to_thread, opt. settle.
  all: try (apply quiet_writes; intros w w'; first [apply add_relation_still|apply replace_still]).
  all: apply quiet_write; intros w; by apply still_ins.
Qed.

Lemma quiet_appservice pdu id u a : confined (quiet false) (send_to_appservice debug alias_ok dest_hash pdu id u a).
Proof.
  unfold send_to_appservice. settle. apply quiet_members. intros c b c' H.
  unfold appservice_in_room in H. run_inv false; reflexivity.
Qed.

End quiet.

(** ** Inserting *)

Section inserting.
Context (debug : bool) {E : Engine} {I : Ids} {Js : Json} {JT : JsonText} {M : MemberJson} {J : PduJson}.
Context {R : Ruma} {RR : RoomRuma} {EJ : EventJson} {T : EventText} {TR : TimelineRuma} {U : Unicode}.
Context {sched : Schedule} {L : LruCache Z ShortStateInfoVec}.
Context (fuel : nat) (first : bool) (event_id_ok : bytes -> bool).
Hypothesis event_id_utf8 : forall e, event_id_ok e = true -> utf8_valid e = true.

(** Looking up the replaced state writes nothing. *)
Definition same_world (s s' : @Server L) : Prop := srv_world s' = srv_world s.
#[global] Instance same_world_preorder : PreOrder same_world.
Proof. split; [done|]. intros s1 s2 s3 H1 H2. unfold same_world in *. congruence. Qed.

Lemma prev_content_same pdu json : confined same_world (with_prev_content debug fuel first pdu json).
Proof.
  assert (forall A (m : World -> eff (@Store L) RoomError A), confined same_world (reads m)) as Hr.
  { intros A m s. unfold reads. by destruct (m _ _). }
  unfold with_prev_content, prev_state, opt. destruct (state_key pdu); [|apply confined_ret, _].
  case_match; [|apply confined_ret, _]. case_match; try apply confined_ret, _.
  apply confined_bind; [apply _| |].
  - apply confined_bind; [apply _| |intros []; [|apply confined_ret, _]].
    + apply confined_bind; [apply _|apply confined_attempt; by intros s'|]. intros. apply confined_ret, _.
    + apply confined_bind; [apply _|apply confined_attempt, Hr|]. intros. apply confined_ret, _.
  - intros []; [|apply confined_ret, _]. apply confined_bind; [apply _|apply confined_lift, _|].
    intros. apply confined_ret, _.
Qed.

Lemma set_leaves_globals r es w w' : set_forward_extremities debug r es w = Done w' -> globals w' = globals w.
Proof.
  unfold set_forward_extremities. intros H. bind_inv H.
  assert (forall ks w, globals (foldl (fun w k => rem roomid_pduleaves k w) w ks) = globals w) as Hr.
  { induction ks as [|k ks IH]; intros w0; [done|]. cbn. by rewrite IH. }
  rewrite <- (Hr a w). revert H. generalize (foldl (fun w k => rem roomid_pduleaves k w) w a). clear.
  induction es as [|e es IH]; intros w; cbn; [by intros [= <-]|]. intros H. bind_inv H. rewrite (IH _ H).
  unfold put_leaf, upd in H0. bind_inv H0. by injection H0 as <-.
Qed.

(** What is in the tables once the event was inserted. *)
Record inserted (w w' : World) (pdu : Event) (leafs : list string) (pdu_id : RawId) : Prop := {
  ins_index : maps w' eventid_pduid = <[str (event_id pdu) := as_bytes pdu_id]> (maps w eventid_pduid);
  ins_leaves : leaves_ok event_id_ok w' /\ forall e,
    is_Some (maps w' roomid_pduleaves !! pair_bytes (str (room_id pdu)) e) <-> e ∈ str <$> leafs;
  ins_referenced : forall k, is_Some (maps w' referencedevents !! k) <->
    k ∈ pair_bytes (str (room_id pdu)) <$> (str <$> prev_events pdu) \/ is_Some (maps w referencedevents !! k);
  ins_soft_failed : maps w' softfailedeventids = maps w softfailedeventids }.

Lemma inserted_still w w1 w2 pdu leafs id : inserted w w1 pdu leafs id -> still false w1 w2 -> inserted w w2 pdu leafs id.
Proof.
  intros [H1 [H2 H2'] H3 H4] Hs. split.
  - by rewrite Hs.
  - unfold leaves_ok in *. by rewrite (Hs roomid_pduleaves).
  - by rewrite (Hs referencedevents).
  - by rewrite Hs.
Qed.

(** An event that can be appended. *)
Record insertable (w : World) (pdu : Event) (leafs : list string) : Prop := {
  ia_room : room_id_ok (str (room_id pdu)) = true;
  ia_sender : user_id_ok (str (sender pdu)) = true;
  ia_prev : Forall (fun e => utf8_valid (str e) = true) (prev_events pdu);
  ia_leafs : Forall (fun e => event_id_ok (str e) = true) leafs;
  ia_leaves : leaves_ok event_id_ok w;
  ia_count : count_ok 4 w }.

Lemma bind_run {A B} (m : eff (@Server L) AppendError A) (f : A -> eff (@Server L) AppendError B) s a s' :
  m s = (Done a, s') -> (m ≫= f) s = f a s'.
Proof. intros H. unfold mbind, eff_bind. by rewrite H. Qed.

Lemma writes_run {Er} (g : Er -> AppendError) o (s : @Server L) w :
  o (srv_world s) = Done w -> writes g o s = (Done (), set_db s w).
Proof. intros Ho. unfold writes. by rewrite Ho. Qed.

Lemma counted_run n (s : @Server L) :
  count_ok n (srv_world s) -> (1 <= n)%Z ->
  exists w, counted debug s = (Done (current (srv_world s) + 1)%Z, set_db s w) /\ maps w = maps (srv_world s) /\
    current w = (current (srv_world s) + 1)%Z /\ count_ok (n - 1) w.
Proof.
  intros Hc Hn. destruct (next_count_ok debug n (srv_world s) Hc Hn) as (w & Ew & Hm & Hcu & Hc' & _).
  exists w. split_and!; try done. unfold counted. by rewrite Ew.
Qed.

(** Marking the room as read uses two numbers and only the tables of counts. *)
Definition count_tables : list tbl :=
  [userroomid_notificationcount; userroomid_highlightcount; roomuserid_privateread; roomuserid_lastprivatereadupdate].

Lemma private_read_run n room user c w :
  utf8_valid room = true -> utf8_valid user = true -> count_ok n w -> (1 <= n)%Z ->
  exists w', private_read_set debug room user c w = Done w' /\ frame count_tables w w' /\
    current w' = (current w + 1)%Z /\ count_ok (n - 1) w'.
Proof.
  intros Hr Hu Hc Hn. destruct (next_count_ok debug n w Hc Hn) as (w1 & E1 & M1 & C1 & Hc1 & _).
  unfold private_read_set. rewrite E1. cbn [mbind outcome_bind]. rewrite put_count_eq by done. cbn [mbind outcome_bind].
  rewrite put_count_eq by done. eexists. split; [done|]. split; [|done].
  intros t Ht. rewrite !maps_ins_ne by (intros <-; apply Ht; in_tables). by rewrite M1.
Qed.

Lemma reset_counts_run n user room w :
  utf8_valid room = true -> utf8_valid user = true -> count_ok n w -> (1 <= n)%Z ->
  exists w', reset_notification_counts debug user room w = Done w' /\ frame count_tables w w' /\
    current w' = (current w + 1)%Z /\ count_ok (n - 1) w'.
Proof.
  intros Hr Hu Hc Hn. unfold reset_notification_counts. rewrite put_count_eq by done. cbn [mbind outcome_bind].
  rewrite put_count_eq by done. cbn [mbind outcome_bind]. set (w1 := ins _ _ _ (ins _ _ _ w)).
  destruct (next_count_ok debug n w1 Hc Hn) as (w2 & E2 & M2 & C2 & Hc2 & _). rewrite E2. cbn [mbind outcome_bind].
  rewrite put_count_eq by done. eexists. split; [done|]. split; [|done].
  intros t Ht. unfold roomuserid_lastnotificationread. rewrite maps_ins_ne by (intros <-; apply Ht; in_tables).
  rewrite M2. unfold w1. by rewrite !maps_ins_ne by (intros <-; apply Ht; in_tables).
Qed.

(** The references and the extremities. *)
Lemma link_run pdu leafs w :
  insertable w pdu leafs ->
  exists w1 w2, mark_as_referenced debug (str (room_id pdu)) (str <$> prev_events pdu) w = Done w1 /\
    set_forward_extremities debug (str (room_id pdu)) (str <$> leafs) w1 = Done w2 /\
    frame [referencedevents; roomid_pduleaves] w w2 /\ globals w2 = globals w /\ leaves_ok event_id_ok w2 /\
    (forall k, is_Some (maps w2 referencedevents !! k) <->
       k ∈ pair_bytes (str (room_id pdu)) <$> (str <$> prev_events pdu) \/ is_Some (maps w referencedevents !! k)) /\
    forall e, is_Some (maps w2 roomid_pduleaves !! pair_bytes (str (room_id pdu)) e) <-> e ∈ str <$> leafs.
Proof.
  intros [Hr Hu Hp Hl Hlv Hc].
  destruct (mark_as_referenced_run debug (str (room_id pdu)) (str <$> prev_events pdu) w Hr)
    as (w1 & E1 & F1 & G1 & K1); [by apply Forall_fmap|].
  assert (leaves_ok event_id_ok w1) as Hlv1 by (unfold leaves_ok; rewrite (F1 roomid_pduleaves) by set_solver; done).
  destruct (set_leaves debug event_id_ok event_id_utf8 (str (room_id pdu)) (str <$> leafs) w1 Hlv1 Hr)
    as (w2 & E2 & F2 & L2 & K2); [by apply Forall_fmap|].
  exists w1, w2. split_and!; try done.
  - intros t Ht. rewrite (F2 t), (F1 t) by set_solver. done.
  - by rewrite (set_leaves_globals _ _ _ _ E2), G1.
  - intros k. rewrite (F2 referencedevents) by set_solver. apply K1.
  - intros e. rewrite K2 by done. by rewrite decide_True.
Qed.

Lemma insert_run pdu json leafs r s :
  insertable (srv_world s) pdu leafs ->
  let id := raw_from_id (MkId r (Count.Normal (current (srv_world s) + 4))) in
  exists s', insert_pdu debug pdu json leafs r s = (Done (Count.Normal (current (srv_world s) + 4), id), s') /\
    inserted (srv_world s) (srv_world s') pdu leafs id /\
    maps (srv_world s') pduid_pdu !! as_bytes id = Some (to_text json).
Proof.
  intros Hi id. destruct (link_run pdu leafs _ Hi) as (w1 & w2 & E1 & E2 & F2 & G2 & L2 & K2 & V2).
  destruct Hi as [Hr%room_id_utf8 Hu%user_id_utf8 _ _ _ Hc].
  assert (count_ok 4 w2) as Hc2 by (unfold count_ok, current in *; by rewrite G2).
  assert (current w2 = current (srv_world s)) as Cu2 by (unfold current; by rewrite G2).
  unfold insert_pdu. erewrite bind_run by by apply writes_run. erewrite bind_run by by apply writes_run.
  destruct (counted_run 4 (set_db (set_db s w1) w2)) as (w3 & E3 & M3 & C3 & Hc3); [done|lia|].
  erewrite bind_run by exact E3. change (srv_world (set_db _ w2)) with w2 in *.
  destruct (private_read_run (4 - 1) _ _ (current w2 + 1) w3 Hr Hu Hc3) as (w4 & E4 & F4 & C4 & Hc4); [lia|].
  erewrite bind_run by by apply writes_run.
  destruct (reset_counts_run (4 - 1 - 1) _ _ w4 Hr Hu Hc4) as (w5 & E5 & F5 & C5 & Hc5); [lia|].
  erewrite bind_run by by apply writes_run.
  match goal with |- context [(counted debug ≫= _) ?s5] => set (s5' := s5) end.
  destruct (counted_run (4 - 1 - 1 - 1) s5') as (w6 & E6 & M6 & C6 & Hc6); [done|lia|].
  erewrite bind_run by exact E6. change (srv_world s5') with w5 in *.
  assert (current w5 + 1 = current (srv_world s) + 4)%Z as -> by lia. fold id.
  erewrite bind_run by (apply writes_run; apply append_pdu_eq). eexists. split; [done|].
  match goal with |- inserted _ (srv_world ?s') _ _ _ /\ _ =>
    change (srv_world s') with (stored (as_bytes id) (str (event_id pdu)) (to_text json) w6) end. unfold stored.
  assert (forall t, t ∉ count_tables -> maps w6 t = maps w2 t) as Hm.
  { intros t Ht. by rewrite M6, (F5 t Ht), (F4 t Ht), M3. }
  split; [split|].
  - autorewrite with world. rewrite Hm, (F2 eventid_pduid) by (unfold count_tables; set_solver). done.
  - unfold leaves_ok. autorewrite with world. rewrite Hm by (unfold count_tables; set_solver). done.
  - intros k. autorewrite with world. rewrite Hm by (unfold count_tables; set_solver). apply K2.
  - autorewrite with world. rewrite Hm, (F2 softfailedeventids) by (unfold count_tables; set_solver). done.
  - autorewrite with world. apply lookup_insert_eq.
Qed.

End inserting.

(** ** Which events a call moves *)

Lemma upd_frame t f w w' : upd t f w = Done w' -> frame [t] w w'.
Proof. unfold upd. intros H. bind_inv H. injection H as <-. intros t' Ht'. apply maps_set_ne. set_solver. Qed.

Lemma try_fold_frame {Er A} ts (f : World -> A -> outcome Er World) l w w' :
  try_fold f w l = Done w' -> (forall w a w', f w a = Done w' -> frame ts w w') -> frame ts w w'.
Proof.
  intros H Hf. revert w H. induction l as [|a l IH]; intros w; cbn; [by intros [= <-]|].
  intros H. bind_inv H. eapply frame_trans; [by eapply Hf|by apply IH].
Qed.

Lemma count_frame debug w c w' : next_count debug w = Done (c, w') -> maps w' = maps w.
Proof. unfold next_count. destruct (Short.next_count _ _) as [[]| | |]; by intros [= <- <-]. Qed.

(** The events and their positions. *)
Definition event_tables : list tbl := [eventid_pduid; pduid_pdu; eventid_outlierpdu].

Section frames.
Context (debug : bool) {E : Engine} {I : Ids}.

Lemma mark_frame r es w w' : mark_as_referenced debug r es w = Done w' -> frame [referencedevents] w w'.
Proof. intros H. eapply try_fold_frame; [exact H|]. intros w0 a w1. apply upd_frame. Qed.

Lemma leaves_frame r es w w' : set_forward_extremities debug r es w = Done w' -> frame [roomid_pduleaves] w w'.
Proof.
  unfold set_forward_extremities. intros H. bind_inv H. eapply frame_trans; [apply rem_keys|].
  eapply try_fold_frame; [exact H|]. intros w0 e w1. apply upd_frame.
Qed.

Lemma private_read_frame r u c w w' : private_read_set debug r u c w = Done w' -> frame count_tables w w'.
Proof.
  unfold private_read_set, put_count. intros H. bind_inv H. destruct a as [c' w1]. apply count_frame in H0.
  bind_inv H. apply upd_frame in H, H1. intros t Ht. unfold count_tables in Ht. rewrite H, H1 by set_solver. by rewrite H0.
Qed.

Lemma reset_frame r u w w' : reset_notification_counts debug u r w = Done w' -> frame count_tables w w'.
Proof.
  unfold reset_notification_counts, put_count. intros H. bind_inv H. bind_inv H. bind_inv H. destruct a1 as [c w1].
  apply count_frame in H2. apply upd_frame in H, H1, H0. intros t Ht. unfold count_tables, roomuserid_lastnotificationread in *.
  rewrite H by set_solver. rewrite H2, H1, H0 by set_solver. done.
Qed.

End frames.

Section moves.
Context (debug : bool) {E : Engine} {I : Ids} {Js : Json} {JT : JsonText} {M : MemberJson} {J : PduJson}.
Context {R : Ruma} {RR : RoomRuma} {EJ : EventJson} {T : EventText} {TR : TimelineRuma} {U : Unicode}.
Context {sched : Schedule} {L : LruCache Z ShortStateInfoVec}.
Context (fuel : nat) (first : bool) (cfg : Config) (admin : AdminConfig) (calculate_hash : list bytes -> bytes).
Context (event_id_ok alias_ok : bytes -> bool) (predecessor : World -> bytes -> option bytes).
Context (dest_hash : Destination -> Z) (appservices : list Appservice).

(** Every other event keeps its position. *)
Definition index_but (e0 : bytes) (s s' : @Server L) : Prop := forall e, e <> e0 ->
  maps (srv_world s') eventid_pduid !! e = maps (srv_world s) eventid_pduid !! e.
#[global] Instance index_but_preorder e0 : PreOrder (index_but e0).
Proof. split; [done|]. intros s1 s2 s3 H1 H2 e He. by rewrite H2, H1. Qed.

(** The events are as they were. *)
Definition same_pdus (s s' : @Server L) : Prop := forall t, t ∈ event_tables ->
  maps (srv_world s') t = maps (srv_world s) t.
#[global] Instance same_pdus_preorder : PreOrder same_pdus.
Proof. split; [done|]. intros s1 s2 s3 H1 H2 t Ht. by rewrite H2, H1. Qed.

Lemma quiet_index b e0 s s' : quiet b s s' -> index_but e0 s s'.
Proof. intros H e _. by rewrite (H eventid_pduid). Qed.
Lemma same_index e0 s s' : same_pdus s s' -> index_but e0 s s'.
Proof. intros H e _. rewrite (H eventid_pduid); [done|left]. Qed.
Lemma quiet_same s s' : quiet true s s' -> same_pdus s s'.
Proof. intros H t Ht. apply H. unfold event_tables in Ht. set_unfold in Ht. by destruct Ht as [->|[->|[->|[]]]]. Qed.
Lemma world_same s s' : same_world s s' -> same_pdus s s'.
Proof. intros H t _. by rewrite H. Qed.

Lemma confined_weaken {A} (P Q : @Server L -> @Server L -> Prop) (m : eff (@Server L) AppendError A) :
  (forall s s', P s s' -> Q s s') -> confined P m -> confined Q m.
Proof. intros HPQ Hm s. apply HPQ, Hm. Qed.

Lemma writes_same {Er} (g : Er -> AppendError) o ts :
  (forall w w', o w = Done w' -> frame ts w w') -> event_tables ## ts -> confined same_pdus (writes g o).
Proof.
  intros Ho Hd s. unfold writes. destruct (o (srv_world s)) as [w| | |] eqn:Ew; [|done..].
  intros t Ht. apply (Ho _ _ Ew). intros Ht2. exact (Hd t Ht Ht2).
Qed.
Lemma counted_same : confined same_pdus (counted debug).
Proof.
  intros s. unfold counted. destruct (next_count _ _) as [[c w]| | |] eqn:Ew; [|done..].
  intros t _. apply count_frame in Ew. change (maps w t = maps (srv_world s) t). by rewrite Ew.
Qed.

Lemma insert_but pdu json leafs r :
  confined (index_but (str (event_id pdu))) (insert_pdu debug pdu json leafs r).
Proof.
  unfold insert_pdu.
  apply confined_bind; [apply _|eapply confined_weaken; [apply same_index|]; eapply writes_same; [apply mark_frame|set_solver]|intros u1].
  apply confined_bind; [apply _|eapply confined_weaken; [apply same_index|]; eapply writes_same; [apply leaves_frame|set_solver]|intros u2].
  apply confined_bind; [apply _|eapply confined_weaken; [apply same_index|apply counted_same]|intros c1].
  apply confined_bind; [apply _|eapply confined_weaken; [apply same_index|]; eapply writes_same; [intros ??; apply private_read_frame|set_solver]|intros u3].
  apply confined_bind; [apply _|eapply confined_weaken; [apply same_index|]; eapply writes_same; [intros ??; apply reset_frame|set_solver]|intros u4].
  apply confined_bind; [apply _|eapply confined_weaken; [apply same_index|apply counted_same]|intros c2].
  apply confined_bind; [apply _| |intros; apply confined_ret, _].
  intros s. unfold writes. rewrite append_pdu_eq. intros e He.
  match goal with |- maps (srv_world ?s') _ !! _ = _ => change (srv_world s') with
    (stored (pkey r (Count.Normal c2)) (str (event_id pdu)) (to_text json) (srv_world s)) end.
  unfold stored. autorewrite with world. by rewrite lookup_insert_ne.
Qed.

Lemma append_but pdu json leafs : confined (index_but (str (event_id pdu)))
  (append_pdu debug fuel first cfg admin alias_ok predecessor dest_hash appservices pdu json leafs).
Proof.
  unfold append_pdu. apply confined_bind; [apply _|by intros s|intros r].
  apply confined_bind; [apply _|eapply confined_weaken; [intros ???; apply same_index, world_same; eassumption|apply prev_content_same]|intros j].
  apply confined_bind; [apply _|apply insert_but|intros [c id]].
  apply confined_bind; [apply _|eapply confined_weaken; [apply quiet_index|apply quiet_notify]|intros u1].
  apply confined_bind; [apply _|eapply confined_weaken; [apply quiet_index|apply quiet_apply]|intros u2].
  apply confined_bind; [apply _|eapply confined_weaken; [apply quiet_index|apply quiet_relate]|intros u3].
  apply confined_bind; [apply _| |intros; apply confined_ret, _].
  apply confined_for_each; [apply _|]. intros. eapply confined_weaken; [apply quiet_index|apply quiet_appservice].
Qed.

(** *** The server's own events *)

Lemma asks_same {Er A} f (o : World -> outcome Er A) : confined same_pdus (asks f o).
Proof. done. Qed.
Lemma reads_same {A} (m : World -> eff (@Store L) RoomError A) : confined same_pdus (reads m).
Proof. intros s. unfold reads. by destruct (m _ _). Qed.
Lemma rooms_same {A} (f : Rooms -> outcome RoomError (A * Rooms)) ts :
  (forall r a r', f r = Done (a, r') -> frame ts (room_world r) (room_world r')) -> event_tables ## ts ->
  confined same_pdus (on_rooms f).
Proof.
  intros Hf Hd s. unfold on_rooms. destruct (f (rooms s)) as [[a r]| | |] eqn:Er; [|done..].
  intros t Ht. apply (Hf _ _ _ Er). intros Ht2. exact (Hd t Ht Ht2).
Qed.

Lemma create_hash_same now b sender room : confined same_pdus
  (create_hash_and_sign_event debug fuel first admin event_id_ok now b sender room).
Proof.
  unfold create_hash_and_sign_event, building_version, building_unsigned, known_depth, opt.
  repeat first
  [ apply asks_same | apply reads_same | apply confined_ret, _ | apply confined_lift, _ | apply confined_throw, _
  | apply confined_bind; [apply _| |intros ?] | apply confined_for_each; [apply _|intros ? ?] | apply confined_attempt
  | match goal with |- confined _ (match ?x with _ => _ end) => destruct x end
  | eapply (writes_same _ _ []); [|set_solver]; intros w w' H; bind_inv H;
    match goal with a : (Z * Db)%type |- _ => destruct a end; by injection H as <- ].
Qed.

Lemma event_state_frame id h w w' : put_event_state debug id h w = Done w' -> frame [shorteventid_shortstatehash] w w'.
Proof. apply upd_frame. Qed.

Lemma append_state_frame pdu r h r' :
  append_to_state debug fuel pdu r = Done (h, r') -> frame [shorteventid_shortstatehash] (room_world r) (room_world r').
Proof.
  unfold append_to_state. intros H. bind_inv H. destruct a as [sid g]. bind_inv H. bind_inv H.
  assert (frame [shorteventid_shortstatehash] (room_world r) a0) as F0.
  { destruct a; [|by injection H2 as <-]. apply fail_with_Done, event_state_frame in H2. exact H2. }
  clear H0 H1 H2. destruct (state_key pdu) as [sk|]; [|bind_inv H; by injection H as <- <-].
  bind_inv H. destruct a1 as [ps st]. bind_inv H. destruct a1 as [k g1]. bind_inv H. destruct a1 as [new g2].
  case_decide; [bind_inv H; by injection H as <- <-|]. bind_inv H. destruct a1 as [h' g3]. bind_inv H.
  by injection H as <- <-.
Qed.

Lemma build_only now b sender room s :
  let r := build_and_append_pdu debug fuel first cfg admin event_id_ok alias_ok predecessor dest_hash appservices
             now b sender room s in
  same_pdus s r.2 \/
  exists pdu json s1, create_hash_and_sign_event debug fuel first admin event_id_ok now b sender room s = (Done (pdu, json), s1) /\
    index_but (str (event_id pdu)) s r.2.
Proof.
  cbn zeta. pose proof (create_hash_same now b sender room s) as Hc. unfold build_and_append_pdu.
  match goal with |- context [(?m ≫= ?k) s] => destruct (m s) as [o s1] eqn:Em; set (cont := k) end.
  cbn [snd] in Hc. destruct o as [[pdu json]| | |];
    [|left; unfold mbind, eff_bind; rewrite Em; exact Hc..].
  right. exists pdu, json, s1. split; [done|]. erewrite bind_run by exact Em.
  etrans; [apply same_index, Hc|]. generalize s1. clear s s1 Em Hc. change (confined (index_but (str (event_id pdu))) (cont (pdu, json))).
  unfold cont. clear cont. lazy beta iota.
  assert (forall A (m : eff (@Server L) AppendError A), confined same_pdus m -> confined (index_but (str (event_id pdu))) m) as Hw.
  { intros A m. apply confined_weaken, same_index. }
  unfold check_pdu_for_admin_room, keeps_admins, check_redaction, redaction_target, may_redact, check_member.
  repeat first
  [ apply Hw, asks_same | apply Hw, reads_same | apply confined_ret, _ | apply confined_lift, _ | apply confined_throw, _
  | apply append_but
  | apply Hw, (rooms_same _ [shorteventid_shortstatehash]); [apply append_state_frame|set_solver]
  | apply Hw, (writes_same _ _ [roomid_shortstatehash]); [intros w w'; apply upd_frame|set_solver]
  | apply Hw, (confined_weaken _ _ _ quiet_same), quiet_sends; intros ???; apply queue_still
  | apply confined_bind; [apply _| |intros ?] | apply confined_attempt
  | match goal with |- confined _ (match ?x with _ => _ end) => destruct x end ].
Qed.

(** What was read on the way to the auth events: the tables are the same, and
    of the stored states only the cache may differ. *)
Definition same_diffs (st st' : @Store L) : Prop := statediff st' = statediff st.
#[global] Instance same_diffs_preorder : PreOrder same_diffs.
Proof. split; [done|]. intros s1 s2 s3 H1 H2. unfold same_diffs in *. congruence. Qed.

Lemma load_same_diffs h st stack st' :
  load_shortstatehash_info debug fuel h st = Done (stack, st') -> same_diffs st st'.
Proof.
  revert h st stack st'. induction fuel as [|n IH]; intros h st stack st'; cbn [load_shortstatehash_info];
    (destruct (peek _ h); [by intros [= <- <-]|]); [done|].
  intros H. bind_inv H. destruct a as [stack1 st1]. injection H as <- <-. unfold same_diffs. cbn [statediff].
  unfold new_shortstatehash_info in H0. bind_inv H0. destruct (parent a) as [p|]; [|by injection H0 as <- <-].
  bind_inv H0. destruct a0 as [stack2 st2]. bind_inv H0. injection H0 as <- <-. by eapply IH.
Qed.

Lemma version_same_diffs w r : confined same_diffs (get_room_version debug fuel first w r).
Proof.
  assert (forall h, confined same_diffs (load_full_state debug fuel h)) as Hl.
  { intros h st. unfold load_full_state. destruct (load_shortstatehash_info _ _ _ _) as [[stack st']| | |] eqn:El; [|done..].
    by eapply load_same_diffs. }
  unfold get_room_version, room_state_get_content, room_state_get, room_hash, state_get, state_get_id, state_get_shortid.
  repeat first
  [ apply Hl | apply confined_ret, _ | apply confined_lift, _ | apply confined_throw, _
  | apply confined_bind; [apply _| |intros ?] | apply confined_attempt
  | match goal with |- confined _ (match ?x with _ => _ end) => destruct x end ].
Qed.

Definition same_rooms (s s' : @Server L) : Prop :=
  srv_world s' = srv_world s /\ same_diffs (layers (rooms s)) (layers (rooms s')).
#[global] Instance same_rooms_preorder : PreOrder same_rooms.
Proof.
  split; [done|]. intros s1 s2 s3 [H1 H1'] [H2 H2']. split; [congruence|]. by etrans.
Qed.

Lemma reads_rooms {A} (m : World -> eff (@Store L) RoomError A) :
  (forall w, confined same_diffs (m w)) -> confined same_rooms (reads m).
Proof.
  intros Hm s. specialize (Hm (srv_world s) (layers (rooms s))). unfold reads. by destruct (m _ _) as [o st].
Qed.

Lemma building_version_same b room : confined same_rooms (building_version debug fuel first b room).
Proof.
  unfold building_version, opt. repeat first
  [ apply reads_rooms; intros w; apply version_same_diffs | apply confined_ret, _ | apply confined_lift, _
  | apply confined_throw, _ | apply confined_bind; [apply _| |intros ?] | apply confined_attempt
  | match goal with |- confined _ (match ?x with _ => _ end) => destruct x end ].
Qed.

(** The event passed the rules of the room's version in the current state of the
    room. *)
Definition passes_now (b : PduBuilder) (room : string) (pdu : Event) (s : @Server L) : Prop :=
  exists rvid rv auth_events st, (building_version debug fuel first b (str room) s).1 = Done rvid /\
    room_version_new rvid = Done rv /\ same_diffs (layers (rooms s)) st /\
    (get_auth_events debug fuel first (str room) (event_type pdu) (sender pdu) (state_key pdu) (content pdu)
       (srv_world s) st).1 = Done auth_events /\
    auth_check rv pdu None (fun ty sk => auth_events !! (ty, sk)) = Done true.

(** The event before it has an id. *)
Definition unnamed (e : Event) : Event :=
  MkEvent "$thiswillbefilledinlater" (room_id e) (sender e) (origin_server_ts e) (event_type e) (content e)
    (state_key e) (prev_events e) (Matrix.auth_events e) (redacts e).

Lemma create_hash_Done now b sender' room s pdu json s1 :
  create_hash_and_sign_event debug fuel first admin event_id_ok now b sender' room s = (Done (pdu, json), s1) ->
  (event_type pdu, content pdu, state_key pdu, sender pdu, room_id pdu) =
    (b_type b, b_content b, b_state_key b, sender', room) /\ passes_now b room (unnamed pdu) s.
Proof.
  unfold create_hash_and_sign_event. intros H.
  apply bind_eff_Done in H as (leaves & s2 & E2 & H). assert (s2 = s) as -> by (by injection E2).
  apply bind_eff_Done in H as (rvid & s3 & E3 & H). pose proof (building_version_same b (str room) s) as S3.
  rewrite E3 in S3. cbn [snd] in S3.
  apply bind_eff_Done in H as (rv & s4 & E4 & H). injection E4 as E4 <-.
  apply bind_eff_Done in H as (auth & s5 & E5 & H). unfold reads in E5.
  destruct (get_auth_events _ _ _ _ _ _ _ _ _ _) as [o st] eqn:Ea. injection E5 as E5 _.
  apply fail_with_Done in E5 as ->.
  apply bind_eff_Done in H as (top & s6 & _ & H). apply bind_eff_Done in H as (unsigned & s7 & _ & H).
  apply bind_eff_Done in H as (allowed & s8 & E8 & H). injection E8 as E8 <-. apply fail_with_Done in E8.
  destruct allowed; [|done].
  apply bind_eff_Done in H as (j & s9 & _ & H). apply bind_eff_Done in H as (j' & s10 & _ & H).
  apply bind_eff_Done in H as (id & s11 & _ & H). apply bind_eff_Done in H as (u & s12 & _ & H).
  injection H as <- _ _. split; [done|]. destruct S3 as [Sw Sd]. exists rvid, rv, auth, (layers (rooms s3)).
  split; [by rewrite E3|]. split; [destruct (room_version_new rvid); congruence|]. split; [exact Sd|]. rewrite <- Sw. split; [|exact E8]. cbn. by rewrite Ea.
Qed.

End moves.

(** ** Claims *)

Section claims.
Context (debug : bool) {E : Engine} {I : Ids} {Js : Json} {JT : JsonText} {M : MemberJson} {J : PduJson}.
Context {R : Ruma} {RR : RoomRuma} {EJ : EventJson} {T : EventText} {TR : TimelineRuma} {U : Unicode}.
Context {sched : Schedule} {L : LruCache Z ShortStateInfoVec}.
Context (fuel : nat) (first : bool) (cfg : Config) (admin : AdminConfig) (calculate_hash : list bytes -> bytes).
Context (event_id_ok alias_ok : bytes -> bool) (predecessor : World -> bytes -> option bytes).
Context (dest_hash : Destination -> Z) (appservices : list Appservice).

Abbreviation append := (append_pdu debug fuel first cfg admin alias_ok predecessor dest_hash appservices).

(** What follows the insertion leaves the inserted event alone. *)
Lemma append_after pdu json leafs r s :
  insertable event_id_ok (srv_world s) pdu leafs ->
  (forall e, event_id_ok e = true -> utf8_valid e = true) ->
  get_shortroomid debug (globals (srv_world s)) (str (room_id pdu)) = Done r ->
  forall json' s1, with_prev_content debug fuel first pdu json s = (Done json', s1) ->
  let id := raw_from_id (MkId r (Count.Normal (current (srv_world s) + 4))) in
  inserted event_id_ok (srv_world s) (srv_world (append pdu json leafs s).2) pdu leafs id /\
  forall p, (append pdu json leafs s).1 = Done p -> p = id.
Proof.
  intros Hi Hutf Hr json' s1 Hprev id. unfold append_pdu.
  pose proof (prev_content_same debug fuel first pdu json s) as Hs1. rewrite Hprev in Hs1. cbn in Hs1.
  erewrite bind_run by (unfold asks; rewrite Hr; done). erewrite bind_run by exact Hprev.
  unfold same_world in Hs1. rewrite <- Hs1 in Hi. destruct (insert_run debug event_id_ok Hutf pdu json' leafs r s1 Hi) as (s2 & E2 & H2 & _).
  rewrite Hs1 in H2, E2. erewrite bind_run by exact E2.
  assert (forall m : eff (@Server L) AppendError RawId, confined (quiet false) m ->
    (forall s p, (m s).1 = Done p -> p = id) ->
    inserted event_id_ok (srv_world s) (srv_world (m s2).2) pdu leafs id /\ forall p, (m s2).1 = Done p -> p = id) as Hfin.
  { intros m Hq Hd. split; [|apply Hd]. eapply inserted_still; [exact H2|apply Hq]. }
  apply Hfin.
  - apply confined_bind; [apply _|apply quiet_notify|intros u]. apply confined_bind; [apply _|apply quiet_apply|intros u'].
    apply confined_bind; [apply _|apply quiet_relate|intros u'']. apply confined_bind; [apply _| |intros; apply confined_ret, _].
    apply confined_for_each; [apply _|]. intros. apply quiet_appservice.
  - intros s0 p. unfold mbind, eff_bind. repeat (case_match; try done). simplify_eq/=. by intros [= <-].
Qed.

(** C7. Once an event is inserted it stays in the timeline, whether or not what
    follows - notifications, redactions, memberships, relations, appservices -
    succeeds: it is found at the next position, the extremities of the room are
    those that were given, the events it follows are referenced, and no other
    event moves. *)
Theorem appended_whatever_follows pdu json leafs r s json' s1 :
  insertable event_id_ok (srv_world s) pdu leafs ->
  (forall e, event_id_ok e = true -> utf8_valid e = true) ->
  get_shortroomid debug (globals (srv_world s)) (str (room_id pdu)) = Done r -> is_u64 r ->
  (current (srv_world s) + 4 <= i64_max)%Z ->
  with_prev_content debug fuel first pdu json s = (Done json', s1) ->
  let w := srv_world s in let w' := srv_world (append pdu json leafs s).2 in
  let id := raw_from_id (MkId r (Count.Normal (current w + 4))) in
  Timeline.get_pdu_id (str (event_id pdu)) w' = Done id /\
  (forall e, e <> str (event_id pdu) -> Timeline.get_pdu_id e w' = Timeline.get_pdu_id e w) /\
  (exists l, get_forward_extremities debug event_id_ok (str (room_id pdu)) w' = Done l /\ NoDup l /\
     forall e, e ∈ l <-> e ∈ str <$> leafs) /\
  (forall e, e ∈ prev_events pdu -> is_event_referenced debug (str (room_id pdu)) (str e) w' = Done true) /\
  (forall p, (append pdu json leafs s).1 = Done p -> p = id).
Proof.
  intros Hi Hutf Hr Hu Hc Hprev. cbn zeta. pose proof (append_after pdu json leafs r s Hi Hutf Hr _ _ Hprev) as [[H1 [H2 H2'] H3 _] Hd].
  assert (Count.canonical (Count.Normal (current (srv_world s) + 4))) as Hcan.
  { destruct Hi as [_ _ _ _ _ [[? _] _]]. split; lia. }
  split_and!; [| | | |done].
  - unfold Timeline.get_pdu_id, get. rewrite H1, lookup_insert_eq. cbn [ok_or lift_tl mbind outcome_bind].
    fold (pkey r (Count.Normal (current (srv_world s) + 4))). by rewrite (proj1 (pkey_count r _ Hu Hcan)).
  - intros e He. unfold Timeline.get_pdu_id, get. by rewrite H1, lookup_insert_ne.
  - destruct (get_leaves debug event_id_ok Hutf _ (str (room_id pdu)) H2 ltac:(eapply ia_room, Hi)) as (l & El & Sl & Hl).
    exists l. split_and!; [done|by apply sorted_lt_NoDup|]. intros e. by rewrite Hl, H2'.
  - intros e He. rewrite (@is_event_referenced_eq debug I); [|eapply ia_room, Hi|].
    + f_equal. apply bool_decide_eq_true, H3. left. apply list_elem_of_fmap. exists (str e). split; [done|].
      by apply list_elem_of_fmap_2.
    + destruct Hi as [_ _ Hp _ _ _]. rewrite Forall_forall in Hp. by apply Hp.
Qed.


End claims.
