(* ===== verification/ToyServer.v ===== *)
(** * A small server

    Concrete parameters for the theorems about the whole server: an event's JSON
    holds its fields, the text of a JSON object is its number in an enumeration
    of all objects, contents are the short texts of [ToyRuma].  On it runs a room
    that is created, joined and written to. *)

From stdpp Require Import prelude gmap strings list sorting countable.
From Stdlib Require Import ZArith Lia.
From Stdlib Require Import Strings.Byte.
From S2P Require Import Prelude MachineInt PduCount Matrix ToyRuma EventAuth DbCodec DbMap CoreUtils Effects Short.
From S2P Require Import World AccountData StateCache Membership Timeline Sending SenderSystem Outliers OutlierStore.
From S2P Require Import StateCompressor StateAccessor RoomState RoomTables Alias AppendPdu.
Import PduId.

(** ** The text of JSON *)

Module JsonCode.

Fixpoint tree_of (v : CanonicalJsonValue) : gen_tree (string + Z) :=
  match v with
  | JNull => GenNode 0 []
  | JBool b => GenNode (if b then 1 else 2) []
  | JInteger z => GenLeaf (inr z)
  | JString s => GenLeaf (inl s)
  | JArray l => GenNode 3 (map tree_of l)
  | JObject l => GenNode 4 (map (fun '(k, v) => GenNode 5 [GenLeaf (inl k); tree_of v]) l)
  end.

Fixpoint of_tree (t : gen_tree (string + Z)) : CanonicalJsonValue :=
  match t with
  | GenLeaf (inr z) => JInteger z
  | GenLeaf (inl s) => JString s
  | GenNode 0 _ => JNull
  | GenNode 1 _ => JBool true
  | GenNode 2 _ => JBool false
  | GenNode 3 l => JArray (map of_tree l)
  | GenNode _ l => JObject (map (fun t => match t with
                                 | GenNode _ [GenLeaf (inl k); v] => (k, of_tree v)
                                 | _ => (EmptyString, JNull)
                                 end) l)
  end.

Lemma of_tree_of v : of_tree (tree_of v) = v.
Proof.
  revert v. fix IH 1. intros [|[]| | |l|l]; cbn; try done; f_equal.
  - induction l as [|v l IHl]; cbn; [done|]. by rewrite IH, IHl.
  - induction l as [|[k v] l IHl]; cbn; [done|]. by rewrite IH, IHl.
Qed.

#[export] Instance json_eq_dec : EqDecision CanonicalJsonValue.
Proof.
  intros x y. refine (cast_if (decide (tree_of x = tree_of y))); [|congruence].
  by rewrite <- (of_tree_of x), <- (of_tree_of y), e.
Defined.
#[export] Instance json_countable : Countable CanonicalJsonValue := inj_countable' tree_of of_tree of_tree_of.

Fixpoint digits (p : positive) : bytes :=
  match p with xH => [] | xO p => x30 :: digits p | xI p => x31 :: digits p end.
Fixpoint number (b : bytes) : positive :=
  match b with [] => xH | x :: b => if decide (x = x30) then xO (number b) else xI (number b) end.

Lemma number_digits p : number (digits p) = p.
Proof. induction p as [p IH|p IH|]; cbn; [by rewrite IH..|done]. Qed.

Definition text (o : CanonicalJsonObject) : bytes := digits (encode (map_to_list o)).
Definition of_text (b : bytes) : option CanonicalJsonObject := list_to_map <$> decode (number b).

Lemma of_text_text o : of_text (text o) = Some o.
Proof. unfold of_text, text. rewrite number_digits, decode_encode. cbn. by rewrite list_to_map_to_list. Qed.

End JsonCode.

Module ToyServer.

(** ** Events as JSON *)

Definition type_name (t : EventType) : string :=
  match t with
  | RoomCreate => "m.room.create" | RoomMember => "m.room.member" | RoomPowerLevels => "m.room.power_levels"
  | RoomJoinRules => "m.room.join_rules" | RoomThirdPartyInvite => "m.room.third_party_invite"
  | RoomAliases => "m.room.aliases" | RoomRedaction => "m.room.redaction" | OtherType s => s
  end.
Definition type_of (s : string) : EventType :=
  if decide (s = "m.room.create") then RoomCreate else if decide (s = "m.room.member") then RoomMember
  else if decide (s = "m.room.power_levels") then RoomPowerLevels
  else if decide (s = "m.room.join_rules") then RoomJoinRules
  else if decide (s = "m.room.redaction") then RoomRedaction else OtherType s.

Definition get_string := ToyHandler.get_string.
Definition get_strings (k : string) (o : CanonicalJsonObject) : list string :=
  match o !! k with
  | Some (JArray l) => omap (fun v => match v with JString s => Some s | _ => None end) l
  | _ => []
  end.

Definition object (e : Event) : CanonicalJsonObject :=
  let o : CanonicalJsonObject :=
    {[ "event_id" := JString (event_id e); "room_id" := JString (room_id e); "sender" := JString (sender e);
       "origin_server_ts" := JInteger (origin_server_ts e); "type" := JString (type_name (event_type e));
       "content" := JString (content e); "prev_events" := JArray (JString <$> prev_events e);
       "auth_events" := JArray (JString <$> auth_events e) ]} in
  let o := match state_key e with Some sk => <["state_key" := JString sk]> o | None => o end in
  match redacts e with Some r => <["redacts" := JString r]> o | None => o end.

Definition event_of (o : CanonicalJsonObject) : option Event :=
  id ← get_string "event_id" o;
  room ← get_string "room_id" o;
  sender ← get_string "sender" o;
  ty ← get_string "type" o;
  content ← get_string "content" o;
  ts ← (match o !! "origin_server_ts" with Some (JInteger z) => Some z | _ => None end);
  Some (MkEvent id room sender ts (type_of ty) content (get_string "state_key" o) (get_strings "prev_events" o)
          (get_strings "auth_events" o) (get_string "redacts" o)).

Program Definition event_json : EventJson :=
  {| from_str := fun s => JsonCode.of_text (str s);
     reference_hash := fun o _ => c ← get_string "content" o;
                                  Some (c +:+ default "" (get_string "state_key" o));
     valid_event_id := fun _ => true;
     redact_json := fun o _ => Some o;
     de_pdu_event := event_of;
     Outliers.de_create_version := fun c => if decide (c = "create") then Some IdV10 else None |}.
Next Obligation.
  intros o e H. apply bind_Some in H as (id & Hid & H).
  repeat (let x := fresh in apply bind_Some in H as (x & _ & H)). injection H as <-. cbn.
  unfold get_string, ToyHandler.get_string in Hid. destruct (o !! "event_id") as [[]|]; by simplify_eq.
Qed.

Definition nobody : Event := MkEvent "" "" "" 0 RoomCreate "" None [] [] None.
Definition event_of_pdu (p : Timeline.Pdu) : Event := default nobody (JsonCode.of_text (pdu_rest p) ≫= event_of).

Definition pdu_json : PduJson :=
  {| de_pdu := fun b => o ← JsonCode.of_text b; e ← event_of o;
                        Some (MkPdu (str (event_id e)) (str (sender e)) (origin_server_ts e) None b);
     json_object_ok := fun _ => true; de_unsigned := fun _ => None; ser_unsigned := fun _ => []; ser_int := fun _ => [] |}.

Program Definition event_text : @EventText event_json pdu_json :=
  {| to_text := JsonCode.text; of_text := JsonCode.of_text; OutlierStore.pdu_event := event_of_pdu |}.
Next Obligation. apply JsonCode.of_text_text. Qed.
Next Obligation.
  intros o. change (event_of_pdu <$> de_pdu (PduJson := pdu_json) (JsonCode.text o) = event_of o).
  unfold de_pdu, pdu_json. rewrite JsonCode.of_text_text. unfold mbind at 1, option_bind at 1.
  destruct (event_of o) as [e|] eqn:He; [|done].
  change (Some (event_of_pdu (MkPdu (str (event_id e)) (str (sender e)) (origin_server_ts e) None (JsonCode.text o))) = Some e).
  unfold event_of_pdu. change (pdu_rest _) with (JsonCode.text o). rewrite JsonCode.of_text_text.
  change (Some o ≫= event_of) with (event_of o). by rewrite He.
Qed.

Definition room_ruma : RoomRuma :=
  {| type_text := fun t => str (type_name t); StateAccessor.pdu_event := event_of_pdu; de_member := toy_membership;
     de_history_visibility := fun _ => None; de_guest_access := fun _ => None; de_join_rules := toy_rule;
     de_create_type := fun _ => None; StateAccessor.de_create_version := fun c => if decide (c = "create") then Some "10" else None;
     de_alias := fun _ => None; de_name := Some; de_topic := Some; de_avatar := Some; de_encryption := Some;
     de_power_levels := toy_power; can_redact_other := fun _ _ => false; can_redact_own := fun _ _ => true |}.

Definition with_content (e : Event) (c : string) : Event :=
  MkEvent (event_id e) (room_id e) (sender e) (origin_server_ts e) (event_type e) c (state_key e) (prev_events e)
    (auth_events e) (redacts e).

(** The content ["no text"] is one that cannot be read as a message. *)
Definition timeline_ruma : TimelineRuma :=
  {| de_relates_to_event_id := fun _ => None; de_relates_to := fun _ => None;
     de_body := fun c => if decide (c = "no text") then None else Some (Some c);
     de_redacts := fun _ => Some None; de_authorised_via := fun _ => Some None;
     parse_version := fun v => if decide (v = "10") then IdV10 else IdOther v;
     content_object := fun c => Some [("text", JString c)]; ser_stripped := fun _ => [];
     default_levels := toy_levels ∅ 0; ruleset := (); de_push_rules := fun _ => None; server_default := fun _ => ();
     rule_actions := fun _ _ _ => [Notify]; localpart := fun u => u;
     redact_content := fun _ _ _ => Some ""; redacted_json := fun e c _ => object (with_content e c);
     pdu_depth := fun _ => 0%Z;
     AppendPdu.event_json := fun e depth unsigned =>
       Some (<["depth" := JInteger depth]> (<["unsigned" := JObject unsigned]> (object e)));
     content_value := JString; hash_and_sign := fun o _ => Some o; bundle_thread := fun _ _ => JNull |}.

#[export] Existing Instance list_engine.
#[export] Existing Instance toy_ids.
#[export] Existing Instance toy_arrays.
#[export] Existing Instance toy_json.
#[export] Existing Instance toy_member_json.
#[export] Existing Instance pdu_json.
#[export] Existing Instance toy_ruma.
#[export] Existing Instance room_ruma.
#[export] Existing Instance event_json.
#[export] Existing Instance event_text.
#[export] Existing Instance timeline_ruma.
#[export] Existing Instance ToyTables.letters.
#[export] Existing Instance in_order.
#[export] Existing Instance one_stack.

Definition config : Config := MkConfig (str "a") false.
Definition admin : AdminConfig := ToyAlias.server.
Definition event_id_ok : bytes -> bool := sigil x24.
Lemma event_id_utf8 e : event_id_ok e = true -> utf8_valid e = true.
Proof. intros [He _]%andb_true_iff. by apply ascii_utf8. Qed.

Abbreviation append := (append_pdu true 4 true config admin ToyAlias.alias_ok (fun _ _ => None) (fun _ => 0%Z) []).
Abbreviation build :=
  (build_and_append_pdu true 4 true config admin event_id_ok ToyAlias.alias_ok (fun _ _ => None) (fun _ => 0%Z) []).

(** ** A room *)

Definition room : string := "!room:a".
Definition alice : string := "@alice:a".
Definition state_event (ty : EventType) (content key : string) : PduBuilder :=
  MkBuilder ty content None (Some key) None None.
Definition message (text : string) : PduBuilder := MkBuilder RoomMessage text None None None None.

(** The room has a number; it is empty. *)
Definition empty_server : Server :=
  let db := MkDb 10 (Some (u64_to_be_bytes 10)) ∅ ∅ ∅ ∅ {[ str room := u64_to_be_bytes 7 ]} ∅ in
  MkServer (MkRooms (MkCache (MkWorld (fun _ => ∅) db) ∅) empty_store ∅) [] false (Some []).

Definition script : list PduBuilder :=
  [state_event RoomCreate "create" ""; state_event RoomMember "join" alice;
   state_event RoomPowerLevels "levels" ""; state_event RoomJoinRules "public" ""].

Definition play (l : list PduBuilder) : eff Server AppendError (list string) :=
  for_each (fun ids b => id ← build 0 b alice room; mret (ids ++ [id])) [] l.

Definition joined : Server := (play script empty_server).2.

Lemma script_ran :
  (play script empty_server).1 = Done ["$create"; "$join@alice:a"; "$levels"; "$public"].
Proof. vm_compute. reflexivity. Qed.

(** ** Appending *)

Definition unreadable : Event :=
  MkEvent "$no text" room alice 0 RoomMessage "no text" None ["$public"] ["$create"] None.

Lemma unreadable_insertable : insertable event_id_ok (srv_world empty_server) unreadable ["$no text"].
Proof.
  split; [reflexivity|reflexivity|by repeat constructor|by repeat constructor| |].
  - intros k [v Hv]. change ((∅ : table) !! k = Some v) in Hv. by apply lookup_empty_Some in Hv.
  - split; [by vm_compute|vm_compute; reflexivity].
Qed.

Definition unreadable_id : RawId := raw_from_id (MkId 7 (Count.Normal 14)).

Lemma appended_whatever_follows_witness :
  (append unreadable ∅ ["$no text"] empty_server).1 = Fail InvalidContent /\
  Timeline.get_pdu_id (str "$no text") (srv_world (append unreadable ∅ ["$no text"] empty_server).2) = Done unreadable_id.
Proof.
  split; [vm_compute; reflexivity|].
  refine (proj1 (appended_whatever_follows true 4 true config admin event_id_ok ToyAlias.alias_ok (fun _ _ => None)
    (fun _ => 0%Z) [] unreadable ∅ ["$no text"] 7 empty_server ∅ empty_server unreadable_insertable event_id_utf8 _ _ _ _)).
  - reflexivity.
  - width_lia.
  - vm_compute. discriminate.
  - reflexivity.
Defined.

(** Building an event can fail after it entered the timeline: the caller gets
    an error for an event that is there, and that is the only extremity of the
    room, but is not in the queue of any server. *)
Theorem failed_append_leaves_event :
  exists b s, let r := build 0 b alice room s in
    r.1 = Fail InvalidContent /\
    Timeline.get_pdu_id (str "$no text") (srv_world s) = Fail (TimelineDb NotFound) /\
    (exists id, Timeline.get_pdu_id (str "$no text") (srv_world r.2) = Done id) /\
    get_forward_extremities true event_id_ok (str room) (srv_world r.2) = Done [str "$no text"].
Proof.
  exists (message "no text"), joined. cbn zeta. split_and!; [vm_compute; reflexivity..|vm_compute; eexists; reflexivity|].
  vm_compute. reflexivity.
Qed.

Lemma hello_entered :
  Timeline.get_pdu_id (str "$hello") (srv_world (build 0 (message "hello") alice room joined).2) <>
  Timeline.get_pdu_id (str "$hello") (srv_world joined).
Proof. vm_compute. discriminate. Qed.


End ToyServer.
