(* ===== verification/Users.v ===== *)
(** * Users and their devices

    Models [src/service/users/mod.rs]: accounts and profiles, devices with their
    access tokens, device keys, one-time keys and cross-signing keys, messages to
    devices, filters, and tokens for OpenID and for logins.

    A call changes the tables of [World]; what was written before an error
    stays.  Whether a room is encrypted is read from the room states of
    [StateAccessor]; what that leaves in the cache of states is not kept. *)

From stdpp Require Import prelude gmap strings list sorting.
From Stdlib Require Import ZArith Lia.
From Stdlib Require Import Strings.Byte.
From S2P Require Import Prelude MachineInt PduCount Matrix DbCodec DbMap CoreUtils Effects Short World AccountData.
From S2P Require Import StateCache Timeline Outliers StateCompressor StateAccessor Alias AppendPdu.

(** ** What the service needs of other crates *)

(** [Device] of ruma *)
Record Device := MkDevice {
  dev_id : bytes; dev_name : option bytes; dev_ip : option bytes; dev_seen : option Z }.

(** Text that JSON writes between quotation marks as it is. *)
Definition json_plain (s : bytes) : bool :=
  forallb (fun b => in_range 0x20 0xFF b && negb (bool_decide (b = x22)) && negb (bool_decide (b = x5c))) s.

Class UserJson := {
  ser_device : Device -> bytes;
  de_device : bytes -> option Device;
  de_ser_device : forall d, de_device (ser_device d) = Some d;
  (** [serde_json::to_string] and [from_slice] of the id of a key *)
  json_string : bytes -> bytes;
  de_key_id : bytes -> option bytes;
  json_string_plain : forall s, json_plain s = true -> json_string s = x22 :: s ++ [x22];
  de_json_string : forall s, utf8_valid s = true -> de_key_id (json_string s) = Some s;
  (** [OneTimeKeyId]: which texts are one, and [algorithm] *)
  key_id_ok : bytes -> bool;
  key_algorithm : bytes -> bytes;
  (** the values of [keys] of a [CrossSigningKey] *)
  de_cross_keys : bytes -> option (list bytes);
  (** [serde_json::Value] *)
  de_json : bytes -> option CanonicalJsonValue;
  ser_json : CanonicalJsonValue -> bytes;
  ser_to_device : bytes -> bytes -> bytes -> bytes;     (** [json!({type, sender, content})] *)
  hash_password : bytes -> option bytes }.              (** [argon2] *)

Inductive UserError :=
| NoSuchUser | NoSuchDevice | NoBackup | WeakPassword | NoOneTimeKey | BadCrossKey | NoSuchKey | BadKeyJson
| UnknownToken | ExpiredToken | BadTokenRow | UserDb (e : DbError) | UserCodec (e : CodecError).

(** [to.is_none_or(|to| count <= to)] *)
Definition upto (to : option Z) (count : Z) : Prop := from_option (fun to => (count <= to)%Z) True to.
#[export] Instance upto_dec to c : Decision (upto to c).
Proof. destruct to; cbn; apply _. Defined.

Section users.
Context (debug : bool) {E : Engine} {I : Ids} {JT : JsonText} {UJ : UserJson} {J : PduJson} {RR : RoomRuma}.
Context {sched : Schedule} {L : LruCache Z ShortStateInfoVec} (fuel : nat) (first : bool) (states : @Store L).

Abbreviation usr := (eff World UserError).

Definition query {A} (o : World -> outcome DbError A) : usr A := fun w => (fail_with UserDb (o w), w).
Definition scan {A} (o : World -> outcome CodecError A) : usr A := fun w => (fail_with UserCodec (o w), w).
Definition change (o : World -> outcome CodecError World) : usr () := fun w =>
  match o w with
  | Done w' => (Done (), w')
  | Fail e => (Fail (UserCodec e), w)
  | Panic => (Panic, w)
  | OutOfFuel => (OutOfFuel, w)
  end.
Definition set_row (t : tbl) (k v : bytes) : usr () := modify (ins t k v).
Definition drop_row (t : tbl) (k : bytes) : usr () := modify (rem t k).

(** [globals.next_count().unwrap()] *)
Definition number : usr Z := fun w =>
  match next_count debug w with
  | Done (c, w') => (Done c, w')
  | Fail e => (Fail (UserCodec e), w)
  | Panic => (Panic, w)
  | OutOfFuel => (OutOfFuel, w)
  end.

(** [if let Ok(x) = …] *)
Definition found {A} (m : usr A) : usr (option A) :=
  r ← attempt m; mret (match r with inr a => Some a | inl _ => None end).

Definition text_of (v : value) : outcome DbError bytes := match v with VStr s => Done s | _ => Panic end.
Definition number_of (v : value) : outcome DbError Z := match v with VU64 n => Done n | _ => Panic end.
Definition text_row (t : tbl) (k : bytes) (w : World) : outcome DbError bytes :=
  v ← deserialized debug TStr (get (maps w t) k); text_of v.

(** ** Accounts *)

Definition count_users (w : World) : nat := DbMap.count (maps w userid_password).

(** [stream]: the ids of all accounts *)
Definition user_of_key (k : bytes) : outcome CodecError bytes :=
  v ← deserialize_key debug TStr k;
  match v with VStr u => if user_id_ok u then Done u else Fail (SerdeDe "invalid identifier") | _ => Panic end.
Definition all_users (w : World) : outcome CodecError (list bytes) :=
  ignore_err (user_of_key <$> raw_keys (maps w userid_password)).

(** An account is local if its password is not empty. *)
Definition list_local_users (w : World) : outcome CodecError (list bytes) :=
  l ← ignore_err ((fun kv : row => u ← user_of_key kv.1; Done (u, kv.2)) <$> raw_stream (maps w userid_password));
  Done (filter (fun u : bytes * bytes => u.2 <> []) l).*1.

Definition password_hash (user_id : bytes) (w : World) : outcome DbError bytes := text_row userid_password user_id w.

Definition set_password (user_id : bytes) (password : option bytes) : usr () :=
  match password with
  | None => set_row userid_password user_id []
  | Some p => hash ← lift_eff (ok_or WeakPassword (hash_password p)); set_row userid_password user_id hash
  end.

Definition create (user_id : bytes) (password : option bytes) : usr () := set_password user_id password.

(** ** Profiles *)

Definition set_text (t : tbl) (user_id : bytes) (text : option bytes) : usr () :=
  match text with Some v => set_row t user_id v | None => drop_row t user_id end.

Definition set_displayname := set_text userid_displayname.
Definition avatar_url := text_row userid_avatarurl.
Definition set_avatar_url := set_text userid_avatarurl.
Definition blurhash := text_row userid_blurhash.
Definition set_blurhash := set_text userid_blurhash.

(** ** Changes of keys *)

Definition put_change (who user_id : bytes) (count : Z) : usr () :=
  change (upd keychangeid_userid (fun t => put_raw debug t (VTuple [VStr who; VU64 count]) user_id)).

Definition room_encrypted (room_id : bytes) (w : World) : outcome DbError bool :=
  match (is_encrypted_room debug fuel first w room_id states).1 with
  | Done b => Done b
  | Fail _ => Done false
  | Panic => Panic
  | OutOfFuel => OutOfFuel
  end.

Definition change_in_room (user_id : bytes) (count : Z) (u : ()) (room_id : bytes) : usr () :=
  encrypted ← query (room_encrypted room_id);
  if encrypted : bool then put_change room_id user_id count else mret ().

Definition mark_device_key_update (user_id : bytes) : usr () :=
  count ← number;
  rooms ← scan (rooms_joined debug user_id);
  _ ← for_each (change_in_room user_id count) () (rooms : list bytes);
  put_change user_id user_id count.

(** A row [((&str, u64), &UserId)]. *)
Definition change_row (kv : row) : outcome CodecError (bytes * Z * bytes) :=
  k ← deserialize_key debug (TTuple [TStr; TU64]) kv.1;
  u ← user_of_key kv.2;
  match k with VTuple [VStr p; VU64 c] => Done (p, c, u) | _ => Panic end.

Definition keys_changed_user_or_room (user_or_room_id : bytes) (from : Z) (to : option Z) (w : World)
    : outcome CodecError (list (bytes * Z)) :=
  let to := default u64_max to in
  rs ← stream_from_raw debug (maps w keychangeid_userid)
         (VTuple [VStr user_or_room_id; VU64 (saturate 0 u64_max (from + 1))]);
  l ← ignore_err (change_row <$> (rs : list row));
  Done ((fun x : bytes * Z * bytes => (x.2, x.1.2)) <$>
    take_while (fun x : bytes * Z * bytes => x.1.1 = user_or_room_id /\ (x.1.2 <= to)%Z) (l : list (bytes * Z * bytes))).

Definition keys_changed (user_id : bytes) (from : Z) (to : option Z) (w : World) : outcome CodecError (list bytes) :=
  l ← keys_changed_user_or_room user_id from to w; Done (l : list (bytes * Z)).*1.
Definition room_keys_changed (room_id : bytes) (from : Z) (to : option Z) (w : World) :=
  keys_changed_user_or_room room_id from to w.

(** ** Devices and access tokens *)

Definition increment_version (user_id : bytes) : usr () := modify (fun w =>
  ins userid_devicelistversion user_id (Bytes.increment (maps w userid_devicelistversion !! user_id)) w).

Definition has_metadata (user_id device_id : bytes) : usr bool :=
  r ← found (query (fun w => qry debug (maps w userdeviceid_metadata) (pair_key user_id device_id)));
  mret (bool_decide (is_Some r)).

Definition set_token (user_id device_id token : bytes) : usr () :=
  let key := pair_key user_id device_id in
  known ← has_metadata user_id device_id;
  if negb known then throw NoSuchDevice else
  old ← found (query (fun w => qry debug (maps w userdeviceid_token) key));
  _ ← (match old with Some old_token => drop_row token_userdeviceid old_token | None => mret () end);
  _ ← change (upd userdeviceid_token (fun t => put_raw debug t key token));
  change (upd token_userdeviceid (fun t => raw_put debug t token key)).

Definition put_metadata (user_id device_id : bytes) (device : Device) : usr () :=
  change (upd userdeviceid_metadata (fun t => put debug t (pair_key user_id device_id) (VJson (ser_device device)))).

Definition create_device (now : Z) (user_id device_id token : bytes) (initial_device_display_name client_ip : option bytes)
    : usr () :=
  known ← gets (user_exists user_id);
  if negb known then throw NoSuchUser else
  _ ← increment_version user_id;
  _ ← put_metadata user_id device_id (MkDevice device_id initial_device_display_name client_ip (Some now));
  set_token user_id device_id token.

Definition remove_device (user_id device_id : bytes) : usr () :=
  let userdeviceid := pair_key user_id device_id in
  old ← found (query (fun w => qry debug (maps w userdeviceid_token) userdeviceid));
  _ ← (match old with
       | Some old_token =>
           _ ← change (upd userdeviceid_token (fun t => del debug t userdeviceid));
           drop_row token_userdeviceid old_token
       | None => mret ()
       end);
  ks ← scan (fun w => keys_prefix_raw debug (maps w todeviceid_events) (VTuple [VStr user_id; VStr device_id; VInterfix]));
  _ ← modify (fun w => foldl (fun w k => rem todeviceid_events k w) w (ks : list bytes));
  _ ← increment_version user_id;
  _ ← change (upd userdeviceid_metadata (fun t => del debug t userdeviceid));
  mark_device_key_update user_id.

Definition all_device_ids (user_id : bytes) (w : World) : outcome CodecError (list bytes) :=
  scan_ids debug (fun _ => true) (maps w userdeviceid_metadata) user_id.

(** The devices are listed while they are removed: a scan sees the rows as they
    were when it began. *)
Definition deactivate_account (user_id : bytes) : usr () :=
  devices ← scan (all_device_ids user_id);
  _ ← for_each (fun _ d => remove_device user_id d) () (devices : list bytes);
  set_password user_id None.

Definition get_token (user_id device_id : bytes) (w : World) : outcome DbError bytes :=
  v ← deserialized debug TStr (qry debug (maps w userdeviceid_token) (pair_key user_id device_id)); text_of v.

Definition find_from_token (token : bytes) (w : World) : outcome DbError (bytes * bytes) :=
  v ← deserialized debug (TTuple [TStr; TStr]) (get (maps w token_userdeviceid) token);
  match v with
  | VTuple [VStr u; VStr d] => if user_id_ok u then Done (u, d) else Fail (DeError (SerdeDe "invalid identifier"))
  | _ => Panic
  end.

Definition update_device_metadata (user_id device_id : bytes) (device : Device) : usr () :=
  _ ← increment_version user_id; put_metadata user_id device_id device.

Definition json_row (o : outcome DbError bytes) : outcome DbError bytes :=
  v ← deserialized debug TJson o; match v with VJson t => Done t | _ => Panic end.

Definition get_device_metadata (user_id device_id : bytes) (w : World) : outcome DbError Device :=
  t ← json_row (qry debug (maps w userdeviceid_metadata) (pair_key user_id device_id));
  ok_or (DeError (SerdeDe "json")) (de_device t).

Definition get_devicelist_version (user_id : bytes) (w : World) : outcome DbError Z :=
  v ← deserialized debug TU64 (get (maps w userid_devicelistversion) user_id); number_of v.

Definition device_of_row (kv : row) : outcome CodecError Device :=
  v ← deserialize_key debug TJson kv.2;
  match v with VJson t => ok_or (SerdeDe "json") (de_device t) | _ => Panic end.

Definition all_devices_metadata (user_id : bytes) (w : World) : outcome CodecError (list Device) :=
  rs ← stream_prefix_raw debug (maps w userdeviceid_metadata) (VTuple [VStr user_id; VInterfix]);
  ignore_err (device_of_row <$> (rs : list row)).

(** ** One-time keys *)

Definition one_time_key_prefix (user_id device_id : bytes) : bytes := user_id ++ SEP :: device_id ++ [SEP].

Definition add_one_time_key (user_id device_id key_id key_value : bytes) : usr () :=
  known ← has_metadata user_id device_id;
  if negb known then throw NoSuchDevice else
  let key := one_time_key_prefix user_id device_id ++ json_string key_id in
  _ ← change (upd onetimekeyid_onetimekeys (fun t => raw_put debug t key (VJson key_value)));
  count ← number;
  change (upd userid_lastonetimekeyupdate (fun t => raw_put debug t user_id (VU64 count))).

Definition last_one_time_keys_update (user_id : bytes) (w : World) : outcome DbError Z :=
  match v ← deserialized debug TU64 (get (maps w userid_lastonetimekeyupdate) user_id); number_of v with
  | Fail _ => Done 0%Z
  | o => o
  end.

(** [key.rsplit(|&b| b == 0xFF).next()] *)
Definition last_part (k : bytes) : bytes := reverse (until_sep (reverse k)).

Definition take_one_time_key (user_id device_id key_algorithm : bytes) : usr (bytes * bytes) :=
  count ← number;
  _ ← set_row userid_lastonetimekeyupdate user_id (u64_to_be_bytes count);
  let prefix := one_time_key_prefix user_id device_id ++ x22 :: key_algorithm ++ [x3a] in
  row ← gets (fun w => head (raw_stream_prefix (maps w onetimekeyid_onetimekeys) prefix));
  match row with
  | None => throw NoOneTimeKey
  | Some (key, val) =>
      _ ← drop_row onetimekeyid_onetimekeys key;
      key ← lift_eff (expect (de_key_id (last_part key)));
      if json_raw_ok val then mret (key, val) else lift_eff Panic
  end.

(** A row [((Ignore, Ignore, &Unquoted), Ignore)]; the algorithm of the key. *)
Definition unquoted (s : bytes) : outcome CodecError bytes :=
  let s := Z_of_byte <$> s in
  if Str.is_quoted s then Done (byte_of_Z <$> Str.unquote_infallible s) else Fail (SerdeDe "expected quoted string").

Definition counted_key (k : bytes) : outcome CodecError bytes :=
  v ← deserialize_key debug (TTuple [TIgnore; TIgnore; TStr]) k;
  match v with VTuple [_; _; VStr s] => unquoted s | _ => Panic end.

Definition count_algorithm (counts : gmap bytes Z) (key_id : bytes) : gmap bytes Z :=
  let algorithm := key_algorithm key_id in
  <[algorithm := Z.min uint_max (default 0%Z (counts !! algorithm) + 1)]> counts.

Definition count_one_time_keys (user_id device_id : bytes) (w : World) : outcome CodecError (gmap bytes Z) :=
  ks ← keys_prefix_raw debug (maps w onetimekeyid_onetimekeys) (pair_key user_id device_id);
  ids ← ignore_err (counted_key <$> (ks : list bytes));
  if forallb key_id_ok ids then Done (foldl count_algorithm ∅ (ids : list bytes)) else Panic.

(** ** Device keys and cross-signing keys *)

Definition add_device_keys (user_id device_id device_keys : bytes) : usr () :=
  _ ← change (upd keyid_key (fun t => put debug t (pair_key user_id device_id) (VJson device_keys)));
  mark_device_key_update user_id.

(** The one id in [keys]. *)
Definition only_key (key : bytes) : outcome UserError bytes :=
  match de_cross_keys key with Some [id] => Done id | _ => Fail BadCrossKey end.

Definition parse_master_key (user_id master_key : bytes) : outcome UserError bytes :=
  id ← only_key master_key; Done (user_id ++ SEP :: id).

Definition add_cross_signing_keys (user_id : bytes) (master_key self_signing_key user_signing_key : option bytes)
    (notify : bool) : usr () :=
  _ ← (match master_key with
       | Some k =>
           key_id ← lift_eff (parse_master_key user_id k);
           _ ← set_row keyid_key key_id k; set_row userid_masterkeyid user_id key_id
       | None => mret ()
       end);
  _ ← (match self_signing_key with
       | Some k =>
           id ← lift_eff (only_key k);
           _ ← set_row keyid_key (user_id ++ SEP :: id) k; set_row userid_selfsigningkeyid user_id (user_id ++ SEP :: id)
       | None => mret ()
       end);
  _ ← (match user_signing_key with
       | Some k =>
           id ← lift_eff (only_key k);
           _ ← change (upd keyid_key (fun t => put_raw debug t (pair_key user_id id) k));
           change (upd userid_usersigningkeyid (fun t => put debug t (VStr user_id) (pair_key user_id id)))
       | None => mret ()
       end);
  if notify then mark_device_key_update user_id else mret ().

(** The key with one more signature. *)
Definition with_signature (v : CanonicalJsonValue) (sender_id : bytes) (signature : string * string)
    : outcome UserError CanonicalJsonValue :=
  match v with
  | JObject fields =>
      match obj_get "signatures" fields with
      | Some (JObject signatures) =>
          match default (JObject []) (obj_get (unstr sender_id) signatures) with
          | JObject of_sender =>
              let of_sender := obj_insert signature.1 (JString signature.2) of_sender in
              Done (JObject (obj_insert "signatures" (JObject (obj_insert (unstr sender_id) (JObject of_sender) signatures)) fields))
          | _ => Fail BadKeyJson
          end
      | _ => Fail BadKeyJson
      end
  | _ => Fail BadKeyJson
  end.

Definition any_row (o : outcome DbError bytes) : outcome DbError CanonicalJsonValue :=
  v ← deserialized debug TAny o;
  match v with
  | VJson t => ok_or (DeError (SerdeDe "json")) (de_json t)
  | VStr s => Done (JString (unstr s))
  | _ => Panic
  end.

Definition sign_key (target_id key_id : bytes) (signature : string * string) (sender_id : bytes) : usr () :=
  b ← found (query (fun w => qry debug (maps w keyid_key) (pair_key target_id key_id)));
  b ← lift_eff (ok_or NoSuchKey b);
  key ← lift_eff (fail_with (fun _ => BadKeyJson) (any_row (Done b)));
  key ← lift_eff (with_signature key sender_id signature);
  _ ← change (upd keyid_key (fun t => put debug t (pair_key target_id key_id) (VJson (ser_json key))));
  mark_device_key_update target_id.

Definition get_device_keys (user_id device_id : bytes) (w : World) : outcome DbError bytes :=
  json_row (qry debug (maps w keyid_key) (pair_key user_id device_id)).

(** Which signatures are shown. *)
Definition shown_signature (sender_user : option bytes) (user_id : bytes) (allowed : bytes -> bool) (user : bytes) : bool :=
  bool_decide (sender_user = Some user_id) || bool_decide (user = user_id) || allowed user.

Definition clean_signatures (key : CanonicalJsonValue) (sender_user : option bytes) (user_id : bytes)
    (allowed : bytes -> bool) : outcome DbError CanonicalJsonValue :=
  match key with
  | JObject fields =>
      match obj_get "signatures" fields with
      | Some (JObject signatures) =>
          if forallb (fun s : string * CanonicalJsonValue => user_id_ok (str s.1)) signatures then
            Done (JObject (obj_insert "signatures" (JObject
              (filter (fun s : string * CanonicalJsonValue => shown_signature sender_user user_id allowed (str s.1) = true)
                 signatures)) fields))
          else Fail (DeError (SerdeDe "invalid user id"))
      | _ => Done key
      end
  | _ => Done key
  end.

Definition get_key (key_id : bytes) (sender_user : option bytes) (user_id : bytes) (allowed : bytes -> bool) (w : World)
    : outcome DbError CanonicalJsonValue :=
  key ← any_row (get (maps w keyid_key) key_id); clean_signatures key sender_user user_id allowed.

Definition get_master_key (sender_user : option bytes) (user_id : bytes) (allowed : bytes -> bool) (w : World) :=
  key_id ← get (maps w userid_masterkeyid) user_id; get_key key_id sender_user user_id allowed w.
Definition get_self_signing_key (sender_user : option bytes) (user_id : bytes) (allowed : bytes -> bool) (w : World) :=
  key_id ← get (maps w userid_selfsigningkeyid) user_id; get_key key_id sender_user user_id allowed w.
Definition get_user_signing_key (user_id : bytes) (w : World) : outcome DbError bytes :=
  key_id ← get (maps w userid_usersigningkeyid) user_id; json_row (get (maps w keyid_key) key_id).

(** ** Messages to devices *)

Definition device_event_key (user_id device_id : bytes) (count : Z) : value := VTuple [VStr user_id; VStr device_id; VU64 count].

Definition add_to_device_event (sender target_user_id target_device_id event_type content : bytes) : usr () :=
  count ← number;
  change (upd todeviceid_events (fun t => put debug t (device_event_key target_user_id target_device_id count)
    (VJson (ser_to_device event_type sender content)))).

Definition device_event_id (k : bytes) : outcome CodecError (bytes * bytes * Z) :=
  v ← deserialize_key debug (TTuple [TStr; TStr; TU64]) k;
  match v with
  | VTuple [VStr u; VStr d; VU64 c] => if user_id_ok u then Done (u, d, c) else Fail (SerdeDe "invalid identifier")
  | _ => Panic
  end.

(** [Raw<AnyToDeviceEvent>] *)
Definition device_event (kv : row) : outcome CodecError (bytes * bytes * Z * bytes) :=
  k ← device_event_id kv.1;
  v ← deserialize_key debug TJson kv.2;
  match v with VJson t => if json_raw_ok t then Done (k, t) else Fail (SerdeDe "json") | _ => Panic end.

Definition get_to_device_events (user_id device_id : bytes) (since to : option Z) (w : World)
    : outcome CodecError (list bytes) :=
  let from := match since with None => 0%Z | Some since => saturate 0 u64_max (since + 1) end in
  rs ← stream_from_raw debug (maps w todeviceid_events) (device_event_key user_id device_id from);
  l ← ignore_err (device_event <$> (rs : list row));
  Done (take_while (fun x : bytes * bytes * Z * bytes =>
    (x.1.1.1 = user_id /\ x.1.1.2 = device_id) /\ upto to x.1.2)
    (l : list (bytes * bytes * Z * bytes))).*2.

Definition delete_device_event (u : ()) (id : bytes * bytes * Z) : usr () :=
  change (upd todeviceid_events (fun t => del debug t (device_event_key id.1.1 id.1.2 id.2))).

Definition old_device_events (user_id device_id : bytes) (until : Z) (w : World)
    : outcome CodecError (list (bytes * bytes * Z)) :=
  rs ← rev_stream_from_raw debug (maps w todeviceid_events) (device_event_key user_id device_id until);
  l ← ignore_err ((fun kv : row => device_event_id kv.1) <$> (rs : list row));
  Done (take_while (fun x : bytes * bytes * Z => x.1.1 = user_id /\ x.1.2 = device_id) (l : list (bytes * bytes * Z))).

Definition remove_to_device_events (user_id device_id : bytes) (until : option Z) : usr () :=
  ids ← scan (old_device_events user_id device_id (default u64_max until));
  for_each delete_device_event () (ids : list (bytes * bytes * Z)).

(** ** Filters *)

Definition create_filter (filter_id user_id filter : bytes) : usr () :=
  change (upd userfilterid_filter (fun t => put debug t (pair_key user_id filter_id) (VJson filter))).
Definition get_filter (user_id filter_id : bytes) (w : World) : outcome DbError bytes :=
  json_row (qry debug (maps w userfilterid_filter) (pair_key user_id filter_id)).

(** ** Short-lived tokens *)

(** [std::num::Saturating] *)
Definition sat_add (a b : Z) : Z := saturate 0 u64_max (a + b).
Definition sat_mul (a b : Z) : Z := saturate 0 u64_max (a * b).

Definition create_openid_token (openid_token_ttl now : Z) (user_id token : bytes) : usr Z :=
  let expires_at := sat_add now (sat_mul openid_token_ttl 1000) in
  _ ← set_row openidtoken_expiresatuserid token (u64_to_be_bytes expires_at ++ user_id);
  mret openid_token_ttl.

(** [split_at] panics on a shorter row. *)
Definition find_from_openid_token (now : Z) (token : bytes) : usr bytes :=
  value ← found (query (fun w => get (maps w openidtoken_expiresatuserid) token));
  value ← lift_eff (ok_or UnknownToken value);
  if decide (length value < 8) then lift_eff Panic else
  if (from_be (take 8 value) <? now)%Z then
    _ ← drop_row openidtoken_expiresatuserid token; throw ExpiredToken
  else
    let user := drop 8 value in
    if utf8_valid user && user_id_ok user then mret user else throw BadTokenRow.

Definition create_login_token (login_token_ttl now : Z) (user_id token : bytes) : usr Z :=
  let expires_at := sat_add now login_token_ttl in
  _ ← change (upd logintoken_expiresatuserid (fun t => raw_put debug t token (VTuple [VU64 expires_at; VStr user_id])));
  mret login_token_ttl.

Definition login_row (b : bytes) : outcome DbError (Z * bytes) :=
  v ← deserialized debug (TTuple [TU64; TStr]) (Done b);
  match v with
  | VTuple [VU64 n; VStr u] => if user_id_ok u then Done (n, u) else Fail (DeError (SerdeDe "invalid identifier"))
  | _ => Panic
  end.

Definition find_from_login_token (now : Z) (token : bytes) : usr bytes :=
  value ← found (query (fun w => get (maps w logintoken_expiresatuserid) token));
  value ← lift_eff (ok_or UnknownToken value);
  '(expires_at, user_id) ← lift_eff (fail_with UserDb (login_row value));
  _ ← drop_row logintoken_expiresatuserid token;
  if (expires_at <? now)%Z then throw ExpiredToken else mret user_id.

(** ** Other fields of a profile *)

Definition profile_key (user_id key : bytes) (w : World) : outcome DbError CanonicalJsonValue :=
  any_row (qry debug (maps w useridprofilekey_value) (pair_key user_id key)).

Definition set_profile_key (user_id key : bytes) (value : option CanonicalJsonValue) : usr () :=
  match value with
  | Some v => change (upd useridprofilekey_value (fun t => put debug t (pair_key user_id key) (VJson (ser_json v))))
  | None => change (upd useridprofilekey_value (fun t => del debug t (pair_key user_id key)))
  end.

Definition unstable_tz : bytes := str "us.cloke.msc4175.tz".

Definition timezone (user_id : bytes) (w : World) : outcome DbError bytes :=
  let b := match qry debug (maps w useridprofilekey_value) (pair_key user_id unstable_tz) with
           | Fail _ => qry debug (maps w useridprofilekey_value) (pair_key user_id (str "m.tz"))
           | o => o
           end in
  v ← deserialized debug TStr b; text_of v.

Definition set_timezone (user_id : bytes) (timezone : option bytes) : usr () :=
  match timezone with
  | Some tz => change (upd useridprofilekey_value (fun t => put_raw debug t (pair_key user_id unstable_tz) tz))
  | None => change (upd useridprofilekey_value (fun t => del debug t (pair_key user_id unstable_tz)))
  end.

Definition profile_row (kv : row) : outcome CodecError (bytes * CanonicalJsonValue) :=
  k ← deserialize_key debug (TTuple [TIgnore; TStr]) kv.1;
  v ← deserialize_key debug TAny kv.2;
  match k, v with
  | VTuple [_; VStr key], VJson t => t ← ok_or (SerdeDe "json") (de_json t); Done (key, t)
  | VTuple [_; VStr key], VStr s => Done (key, JString (unstr s))
  | _, _ => Panic
  end.

Definition all_profile_keys (user_id : bytes) (w : World) : outcome CodecError (list (bytes * CanonicalJsonValue)) :=
  rs ← stream_prefix_raw debug (maps w useridprofilekey_value) (VTuple [VStr user_id; VInterfix]);
  ignore_err (profile_row <$> (rs : list row)).

End users.

(** ** Laws of the calls *)

(** A device of a user: both ids are text. *)
Definition device_ok {I : Ids} (u d : bytes) : Prop := user_id_ok u = true /\ utf8_valid d = true.

(** The first of two calls returned. *)
Lemma eff_step {S Er A B} (c : eff S Er A) (f : A -> eff S Er B) s a s' :
  c s = (Done a, s') -> (c ≫= f) s = f a s'.
Proof. intros H. unfold mbind, eff_bind. by rewrite H. Qed.

(** Runs the first call by what is known of it. *)
Ltac runs H := erewrite eff_step by (first [eapply H | by eapply H]; done).

Section rows.
Context (debug : bool) {E : Engine} {I : Ids}.

Lemma device_key u d : device_ok u d -> serialize_key debug (pair_key u d) = Done (pair_bytes u d).
Proof. intros [Hu Hd]. apply serialize_pair; [by apply user_id_utf8|done]. Qed.

Lemma device_inj u d u' d' :
  device_ok u d -> device_ok u' d' -> pair_bytes u d = pair_bytes u' d' -> (u, d) = (u', d').
Proof. intros [Hu _] [Hu' _] Ek. apply sep_split in Ek as [-> ->]; [done|by apply user_no_sep..]. Qed.

Lemma qry_device t u d : device_ok u d -> qry debug t (pair_key u d) = get t (pair_bytes u d).
Proof.
  intros Hd. unfold qry, bqry. change (buffer_serialize debug None ?k) with (serialize_key debug k).
  by rewrite device_key.
Qed.

Lemma get_Some t k v : t !! k = Some v -> get t k = Done v.
Proof. unfold get. by intros ->. Qed.
Lemma get_None t k : t !! k = None -> get t k = Fail NotFound.
Proof. unfold get. by intros ->. Qed.

Lemma found_qry w t u d :
  device_ok u d ->
  found (query (fun w => qry debug (maps w t) (pair_key u d))) w = (Done (maps w t !! pair_bytes u d), w).
Proof.
  intros Hd. unfold found, query, attempt, mbind, eff_bind. rewrite qry_device by done. unfold get.
  by destruct (maps w t !! _).
Qed.

Lemma found_get w t k :
  found (query (fun w => get (maps w t) k)) w = (Done (maps w t !! k), w).
Proof. unfold found, query, attempt, mbind, eff_bind, get. by destruct (maps w t !! _). Qed.

Lemma has_metadata_lookup w u d :
  device_ok u d ->
  has_metadata debug u d w = (Done (bool_decide (is_Some (maps w userdeviceid_metadata !! pair_bytes u d))), w).
Proof. intros Hd. unfold has_metadata, mbind, eff_bind. by rewrite found_qry. Qed.

Lemma change_put_raw w t u d v :
  device_ok u d -> change (upd t (fun t => put_raw debug t (pair_key u d) v)) w = (Done (), ins t (pair_bytes u d) v w).
Proof. intros Hd. unfold change. by erewrite upd_put_raw by by apply device_key. Qed.

Lemma change_del w t u d :
  device_ok u d -> change (upd t (fun t => del debug t (pair_key u d))) w = (Done (), rem t (pair_bytes u d) w).
Proof. intros Hd. unfold change. by erewrite upd_del by by apply device_key. Qed.

Lemma change_raw_put_device w t k u d :
  device_ok u d -> change (upd t (fun t => raw_put debug t k (pair_key u d))) w = (Done (), ins t k (pair_bytes u d) w).
Proof.
  intros Hd. unfold change, upd, raw_put, raw_bput.
  change (buffer_serialize debug None ?v) with (serialize_key debug v). by rewrite device_key.
Qed.

End rows.

(** *** The devices and their access tokens

    What the three tables say: the devices there are, each with the token it is
    logged in by, if any. *)

Abbreviation sessions := (gmap (bytes * bytes) (option bytes)).

Record devices {I : Ids} (w : World) (m : sessions) : Prop := {
  dv_ok : forall x, is_Some (m !! x) -> device_ok x.1 x.2;
  dv_known : forall u d, device_ok u d -> is_Some (maps w userdeviceid_metadata !! pair_bytes u d) <-> is_Some (m !! (u, d));
  dv_keys : forall k, is_Some (maps w userdeviceid_metadata !! k) -> exists u d, device_ok u d /\ k = pair_bytes u d;
  dv_token : forall u d t, device_ok u d -> maps w userdeviceid_token !! pair_bytes u d = Some t <-> m !! (u, d) = Some (Some t);
  dv_find : forall t k, maps w token_userdeviceid !! t = Some k <->
    exists u d, k = pair_bytes u d /\ m !! (u, d) = Some (Some t) }.

(** No device is logged in by the token. *)
Definition unused (t : bytes) (m : sessions) : Prop := forall x, m !! x <> Some (Some t).

Section tokens.
Context {I : Ids}.
Implicit Types (w : World) (m : sessions).

Lemma dv_unique w m x y t : devices w m -> m !! x = Some (Some t) -> m !! y = Some (Some t) -> x = y.
Proof.
  intros D Hx Hy. destruct x as [u d], y as [u' d'].
  assert (device_ok u d /\ device_ok u' d') as [Ho Ho'] by (split; by apply (dv_ok w m D (_, _))).
  apply device_inj; [done..|]. apply (inj Some).
  rewrite <- (proj2 (dv_find w m D t (pair_bytes u d))) by eauto.
  apply (dv_find w m D). eauto.
Qed.

(** The table of tokens without that of one device. *)
Definition without (m : sessions) (x : bytes * bytes) (t : table) : table :=
  match m !! x with Some (Some old) => delete old t | _ => t end.

Lemma lookup_without w m u d t k :
  devices w m -> device_ok u d ->
  without m (u, d) (maps w token_userdeviceid) !! t = Some k <->
  exists u' d', k = pair_bytes u' d' /\ m !! (u', d') = Some (Some t) /\ (u', d') <> (u, d).
Proof.
  intros D Ho. unfold without.
  destruct (m !! (u, d)) as [[old|]|] eqn:Hm.
  - rewrite lookup_delete_Some, (dv_find w m D). split.
    + intros (Hne & u' & d' & -> & Hm'). exists u', d'. split_and!; [done..|]. intros [= -> ->]. congruence.
    + intros (u' & d' & -> & Hm' & Hne). split; [|by eauto]. intros ->. by apply Hne, (dv_unique w m _ _ t).
  - rewrite (dv_find w m D). split; intros (u' & d' & -> & Hm'); exists u', d'; split_and!; naive_solver congruence.
  - rewrite (dv_find w m D). split; intros (u' & d' & -> & Hm'); exists u', d'; split_and!; naive_solver congruence.
Qed.

Lemma devices_set w w' m u d t :
  devices w m -> device_ok u d -> unused t m ->
  is_Some (maps w' userdeviceid_metadata !! pair_bytes u d) ->
  (forall k, k <> pair_bytes u d -> maps w' userdeviceid_metadata !! k = maps w userdeviceid_metadata !! k) ->
  maps w' userdeviceid_token = <[pair_bytes u d := t]> (maps w userdeviceid_token) ->
  maps w' token_userdeviceid = <[t := pair_bytes u d]> (without m (u, d) (maps w token_userdeviceid)) ->
  devices w' (<[(u, d) := Some t]> m).
Proof.
  intros D Ho Hu Hk Hmeta Htok Hfind.
  assert (forall u' d', device_ok u' d' -> (u', d') <> (u, d) -> pair_bytes u' d' <> pair_bytes u d) as Hne.
  { intros u' d' Ho' Hne Ek. by apply Hne, device_inj. }
  split.
  - intros x [<-|[_ Hx]]%lookup_insert_is_Some; [done|by apply (dv_ok w m D)].
  - intros u' d' Ho'. destruct (decide ((u', d') = (u, d))) as [[= -> ->]|Hx].
    + rewrite lookup_insert_eq. split; [by eauto|done].
    + rewrite Hmeta, lookup_insert_ne by auto. by apply (dv_known w m D).
  - intros k Hk'. destruct (decide (k = pair_bytes u d)) as [->|Hx]; [by eauto|].
    apply (dv_keys w m D). by rewrite <- Hmeta.
  - intros u' d' t' Ho'. rewrite Htok. destruct (decide ((u', d') = (u, d))) as [[= -> ->]|Hx].
    + rewrite !lookup_insert_eq. naive_solver.
    + rewrite !lookup_insert_ne by auto using not_eq_sym. by apply (dv_token w m D).
  - intros t' k. rewrite Hfind, lookup_insert_Some, (lookup_without w) by done. split.
    + intros [[<- <-]|(Hx & u' & d' & -> & Hm' & Hd)].
      * exists u, d. by rewrite lookup_insert_eq.
      * exists u', d'. by rewrite lookup_insert_ne by done.
    + intros (u' & d' & -> & [[[= <- <-] [= ->]]|[Hd Hm']]%lookup_insert_Some); [by left|right].
      split; [|by eauto 6]. intros <-. by apply (Hu (u', d')).
Qed.

Lemma devices_remove w w' m u d :
  devices w m -> device_ok u d ->
  maps w' userdeviceid_metadata = delete (pair_bytes u d) (maps w userdeviceid_metadata) ->
  (forall u' d', device_ok u' d' -> maps w' userdeviceid_token !! pair_bytes u' d' =
     delete (pair_bytes u d) (maps w userdeviceid_token) !! pair_bytes u' d') ->
  maps w' token_userdeviceid = without m (u, d) (maps w token_userdeviceid) ->
  devices w' (delete (u, d) m).
Proof.
  intros D Ho Hmeta Htok Hfind.
  assert (forall u' d', device_ok u' d' -> (u', d') <> (u, d) <-> pair_bytes u' d' <> pair_bytes u d) as Hne.
  { intros u' d' Ho'. split; [|naive_solver]. intros Hne Ek. by apply Hne, device_inj. }
  split.
  - intros x [_ Hx]%lookup_delete_is_Some. by apply (dv_ok w m D).
  - intros u' d' Ho'. rewrite Hmeta, !lookup_delete_is_Some, (dv_known w m D) by done.
    specialize (Hne u' d' Ho'). naive_solver.
  - intros k. rewrite Hmeta, lookup_delete_is_Some. intros [_ Hk]. by apply (dv_keys w m D).
  - intros u' d' t' Ho'. rewrite Htok, !lookup_delete_Some, (dv_token w m D) by done.
    specialize (Hne u' d' Ho'). naive_solver.
  - intros t k. rewrite Hfind, (lookup_without w) by done. setoid_rewrite lookup_delete_Some. naive_solver.
Qed.

End tokens.

Section sessions.
Context (debug : bool) {E : Engine} {I : Ids} {JT : JsonText} {UJ : UserJson} {J : PduJson} {RR : RoomRuma}.
Context {sched : Schedule} {L : LruCache Z ShortStateInfoVec} (fuel : nat) (first : bool) (states : @Store L).
Implicit Types (w : World) (m : sessions).

Lemma read_device u d :
  device_ok u d -> from_slice debug (TTuple [TStr; TStr]) (pair_bytes u d) = Done (VTuple [VStr u; VStr d]).
Proof.
  intros [Hu Hd]. apply (from_slice_fields debug _ [VStr u; VStr d]); [|by destruct u].
  apply user_id_utf8 in Hu. by repeat constructor.
Qed.

Lemma find_from_token_iff w m t u d :
  devices w m -> find_from_token debug t w = Done (u, d) <-> m !! (u, d) = Some (Some t).
Proof.
  intros D. unfold find_from_token, deserialized, get.
  destruct (maps w token_userdeviceid !! t) as [k|] eqn:Hk; cbn [ok_or mbind outcome_bind lift_de].
  - apply (dv_find w m D) in Hk as (u' & d' & -> & Hm).
    assert (device_ok u' d') as Ho by by apply (dv_ok w m D (_, _)).
    rewrite read_device by done. cbn [mbind outcome_bind fail_with lift_de]. rewrite (proj1 Ho).
    split; [by intros [= -> ->]|]. intros Hm'. f_equal. by apply (dv_unique w m _ _ t).
  - split; [done|]. intros Hm. rewrite (proj2 (dv_find w m D t (pair_bytes u d))) in Hk by eauto. done.
Qed.

Lemma get_token_row w m u d t :
  devices w m -> m !! (u, d) = Some (Some t) -> utf8_valid t = true -> get_token debug u d w = Done t.
Proof.
  intros D Hm Ht. assert (device_ok u d) as Ho by by apply (dv_ok w m D (_, _)).
  unfold get_token, deserialized. rewrite (qry_device debug (I := I)) by done.
  rewrite (get_Some _ _ t) by by apply (dv_token w m D). cbn [mbind outcome_bind].
  by rewrite from_slice_str.
Qed.

Lemma change_put_json w t u d text :
  device_ok u d ->
  change (upd t (fun t => put debug t (pair_key u d) (VJson text))) w = (Done (), ins t (pair_bytes u d) text w).
Proof.
  intros Hd. unfold change, put, bput.
  assert (buffer_serialize debug None (VJson text) = Done text) as -> by by destruct debug.
  cbn [mbind outcome_bind]. change (bput_raw debug None) with (put_raw debug).
  by erewrite upd_put_raw by by apply (device_key debug (I := I)).
Qed.

Lemma without_old w m u d :
  devices w m -> device_ok u d ->
  without m (u, d) (maps w token_userdeviceid) =
  match maps w userdeviceid_token !! pair_bytes u d with
  | Some old => delete old (maps w token_userdeviceid)
  | None => maps w token_userdeviceid
  end.
Proof.
  intros D Ho. unfold without. pose proof (dv_token w m D u d) as Ht.
  destruct (maps w userdeviceid_token !! _) as [old|] eqn:He.
  - by rewrite (proj1 (Ht old Ho)).
  - destruct (m !! (u, d)) as [[t|]|] eqn:Hm; [|done..]. by specialize (proj2 (Ht t Ho) eq_refl).
Qed.

(** A device that is known is logged in by the new token and no longer by the old. *)
Lemma set_token_refines w m u d t :
  devices w m -> device_ok u d -> is_Some (m !! (u, d)) -> unused t m ->
  exists w', set_token debug u d t w = (Done (), w') /\ devices w' (<[(u, d) := Some t]> m) /\
    frame [userdeviceid_token; token_userdeviceid] w w' /\ globals w' = globals w.
Proof.
  intros D Ho Hk Hu. unfold set_token. runs has_metadata_lookup.
  rewrite bool_decide_true by (by apply (dv_known w m D)). cbn [negb]. runs found_qry.
  pose proof (without_old w m u d D Ho) as Hw.
  set (w1 := match maps w userdeviceid_token !! pair_bytes u d with
             | Some old => rem token_userdeviceid old w | None => w end).
  erewrite eff_step with (s' := w1) by by destruct (maps w userdeviceid_token !! _).
  runs change_put_raw. eexists. split; [by eapply change_raw_put_device|].
  assert (frame [token_userdeviceid] w w1 /\ globals w1 = globals w /\
    maps w1 token_userdeviceid = without m (u, d) (maps w token_userdeviceid)) as (Hf & Hg & Hm).
  { rewrite Hw. subst w1. destruct (maps w userdeviceid_token !! _); world_simpl; split_and!; try done; frame_steps. }
  clearbody w1. split; [|split; [|done]].
  - apply (devices_set w); try done; world_simpl; rewrite ?Hm, ?(Hf userdeviceid_metadata), ?(Hf userdeviceid_token) by set_solver; try done.
    by apply (dv_known w m D).
  - frame_steps. eapply frame_mono; [done|set_solver].
Qed.

(** Metadata makes a device known. *)
Lemma devices_meta w m u d text :
  devices w m -> device_ok u d ->
  devices (ins userdeviceid_metadata (pair_bytes u d) text w) (<[(u, d) := default None (m !! (u, d))]> m).
Proof.
  intros D Ho.
  assert (forall x t, <[(u, d) := default None (m !! (u, d))]> m !! x = Some (Some t) <-> m !! x = Some (Some t)) as Hm.
  { intros x t. destruct (decide (x = (u, d))) as [->|Hx]; [|by rewrite lookup_insert_ne].
    rewrite lookup_insert_eq. destruct (m !! (u, d)); naive_solver. }
  split; world_simpl.
  - intros x [<-|[_ Hx]]%lookup_insert_is_Some; [done|by apply (dv_ok w m D)].
  - intros u' d' Ho'. rewrite !lookup_insert_is_Some, (dv_known w m D) by done. split.
    + intros [Ek|[Hne Hk]]; [left; by apply device_inj|right]. split; [by intros [= -> ->]|done].
    + intros [[= -> ->]|[Hne Hk]]; [by left|right]. split; [|done]. intros Ek. by apply Hne, device_inj.
  - intros k [<-|[_ Hk]]%lookup_insert_is_Some; [by eauto|by apply (dv_keys w m D)].
  - intros u' d' t Ho'. rewrite Hm. by apply (dv_token w m D).
  - intros t k. setoid_rewrite Hm. apply (dv_find w m D).
Qed.

Lemma devices_frame w w' m :
  devices w m -> maps w' userdeviceid_metadata = maps w userdeviceid_metadata ->
  maps w' userdeviceid_token = maps w userdeviceid_token ->
  maps w' token_userdeviceid = maps w token_userdeviceid -> devices w' m.
Proof. intros [] H1 H2 H3. by split; rewrite ?H1, ?H2, ?H3. Qed.

Lemma increment_runs w u :
  exists v, increment_version u w = (Done (), ins userid_devicelistversion u v w).
Proof. by eexists. Qed.

Lemma create_device_refines now w m u d t name ip :
  devices w m -> device_ok u d -> user_exists u w = true -> unused t m ->
  exists w', create_device debug now u d t name ip w = (Done (), w') /\ devices w' (<[(u, d) := Some t]> m).
Proof.
  intros D Ho He Hu. unfold create_device. erewrite eff_step by done. rewrite He. cbn [negb].
  destruct (increment_runs w u) as [v Hi]. runs Hi. unfold put_metadata. runs change_put_json.
  set (w1 := ins userid_devicelistversion u v w).
  assert (devices w1 m) as D1 by (eapply devices_frame; by world_simpl).
  edestruct set_token_refines as (w' & Hs & D' & _); [by eapply devices_meta|done|by rewrite lookup_insert_eq| |].
  2: { exists w'. split; [exact Hs|]. by rewrite insert_insert_eq in D'. }
  intros x [[<- Hx]|[_ Hx]]%lookup_insert_Some; [|by apply (Hu x)].
  apply (Hu (u, d)). by destruct (m !! (u, d)); simplify_eq/=.
Qed.

(** The tables written when devices are removed. *)
Definition account_tables : list tbl :=
  [userid_password; userdeviceid_metadata; userdeviceid_token; token_userdeviceid; todeviceid_events;
   userid_devicelistversion; keychangeid_userid].

(** The rooms of the user are listed, and whether they are encrypted is known
    whatever happens to the accounts. *)
Definition rooms_known (u : bytes) (w : World) : Prop :=
  exists rooms, rooms_joined debug u w = Done rooms /\
    forall r, r ∈ rooms -> utf8_valid r = true /\
      forall w', frame account_tables w w' -> exists b, room_encrypted debug fuel first states r w' = Done b.

Lemma rooms_known_frame u w w' : rooms_known u w -> frame account_tables w w' -> rooms_known u w'.
Proof.
  intros (rooms & Hr & Hb) Hf. exists rooms. split.
  - revert Hr. unfold rooms_joined. rewrite (Hf userroomid_joined); [done|]. by apply (bool_decide_unpack _).
  - intros r [Hu He]%Hb. split; [done|]. intros w2 Hf2. apply He. by eapply frame_trans.
Qed.

Lemma put_change_runs who u c w :
  utf8_valid who = true -> is_u64 c ->
  exists k, put_change debug who u c w = (Done (), ins keychangeid_userid k u w).
Proof.
  intros Hw Hc. unfold put_change, change. erewrite upd_put_raw; [by eexists|]. unfold serialize_key.
  by rewrite (serialize_fields debug [TStr; TU64]) by (repeat first [done | constructor]).
Qed.

Lemma changes_run u c w0 rooms w :
  is_u64 c -> frame account_tables w0 w ->
  (forall r, r ∈ rooms -> utf8_valid r = true /\
     forall w', frame account_tables w0 w' -> exists b, room_encrypted debug fuel first states r w' = Done b) ->
  exists w', for_each (change_in_room debug fuel first states u c) () rooms w = (Done (), w') /\
    frame [keychangeid_userid] w w' /\ globals w' = globals w.
Proof.
  intros Hc. revert w. induction rooms as [|r rooms IH]; intros w Hf Hr; cbn [for_each]; [by exists w|].
  destruct (Hr r) as [Hu He]; [left|]. destruct (He w Hf) as [b Hb].
  assert (exists w1, change_in_room debug fuel first states u c () r w = (Done (), w1) /\
    frame [keychangeid_userid] w w1 /\ globals w1 = globals w) as (w1 & H1 & Hf1 & Hg1).
  { unfold change_in_room. erewrite eff_step by (unfold query; by rewrite Hb).
    destruct b; [|by exists w]. destruct (put_change_runs r u c w) as [k Hk]; [done..|].
    eexists. split; [exact Hk|]. split; [|done]. frame_steps. }
  runs H1. destruct (IH w1) as (w' & H' & Hf' & Hg').
  - eapply frame_trans; [done|]. eapply frame_mono; [done|]. set_solver.
  - intros r' Hr'. apply Hr. by right.
  - exists w'. split_and!; [done|by eapply frame_trans|congruence].
Qed.

Lemma mark_runs n u w :
  user_id_ok u = true -> count_ok n w -> (1 <= n)%Z -> rooms_known u w ->
  exists w', mark_device_key_update debug fuel first states u w = (Done (), w') /\
    frame [keychangeid_userid] w w' /\ count_ok (n - 1) w'.
Proof.
  intros Hu Hn H1 (rooms & Hr & He).
  destruct (next_count_ok debug n w) as (w1 & Hc & Hm & _ & Hn1 & Hc1); [done..|].
  unfold mark_device_key_update. erewrite eff_step by (unfold number; by rewrite Hc).
  assert (rooms_joined debug u w1 = Done rooms) as Hr1 by by (revert Hr; unfold rooms_joined; rewrite Hm).
  erewrite eff_step by (unfold scan; by rewrite Hr1).
  assert (forall ts, frame ts w w1) as Hf by (intros ts t _; by rewrite Hm).
  destruct (changes_run u (current w + 1)%Z w rooms w1) as (w2 & H2 & Hf2 & Hg2); [done..|].
  runs H2. destruct (put_change_runs u u (current w + 1)%Z w2) as [k Hk]; [by apply user_id_utf8|done|].
  eexists. split; [exact Hk|]. split.
  - frame_steps. by eapply frame_trans.
  - unfold count_ok, current in *. rewrite globals_ins, Hg2. done.
Qed.

Lemma device_events_listed t u d :
  exists ks, keys_prefix_raw debug t (VTuple [VStr u; VStr d; VInterfix]) = Done ks.
Proof. unfold keys_prefix_raw, serialize_key. eexists. by destruct debug. Qed.

(** The state after the token of a device was dropped. *)
Definition logged_out (u d : bytes) (w : World) : World :=
  match maps w userdeviceid_token !! pair_bytes u d with
  | Some old => rem token_userdeviceid old (rem userdeviceid_token (pair_bytes u d) w)
  | None => w
  end.

Lemma logged_out_tables w m u d :
  devices w m -> device_ok u d ->
  maps (logged_out u d w) userdeviceid_token = delete (pair_bytes u d) (maps w userdeviceid_token) /\
  maps (logged_out u d w) token_userdeviceid = without m (u, d) (maps w token_userdeviceid) /\
  frame [userdeviceid_token; token_userdeviceid] w (logged_out u d w) /\ globals (logged_out u d w) = globals w.
Proof.
  intros D Ho. rewrite without_old by done. unfold logged_out.
  destruct (maps w userdeviceid_token !! _) eqn:Hk; world_simpl; split_and!; try done; try frame_steps.
  by rewrite delete_id.
Qed.

(** A device that is removed is no longer known and its token no longer taken. *)
Lemma remove_device_refines n w m u d :
  devices w m -> device_ok u d -> count_ok n w -> (1 <= n)%Z -> rooms_known u w ->
  exists w', remove_device debug fuel first states u d w = (Done (), w') /\ devices w' (delete (u, d) m) /\
    frame account_tables w w' /\ count_ok (n - 1) w'.
Proof.
  intros D Ho Hn H1 Hr. unfold remove_device. runs found_qry.
  erewrite eff_step with (s' := logged_out u d w).
  2: { unfold logged_out. destruct (maps w userdeviceid_token !! _); [|done]. by runs change_del. }
  destruct (logged_out_tables w m u d D Ho) as (Ht & Hf & Hfr & Hg). set (w1 := logged_out u d w) in *. clearbody w1.
  destruct (device_events_listed (maps w1 todeviceid_events) u d) as [ks Hks].
  erewrite eff_step by (unfold scan; by rewrite Hks). erewrite eff_step by done.
  destruct (rem_keys todeviceid_events ks w1) as [Hf2 _].
  assert (globals (foldl (fun w k => rem todeviceid_events k w) w1 ks) = globals w1) as Hg2.
  { clear. revert w1. induction ks as [|k ks IH]; intros w1; [done|]. cbn. by rewrite IH. }
  set (w2 := foldl _ w1 ks) in *. clearbody w2.
  destruct (increment_runs w2 u) as [v Hi]. runs Hi. runs change_del.
  set (w3 := rem _ _ _).
  assert (frame account_tables w w3) as Hf3.
  { unfold w3. frame_steps. eapply frame_trans; eapply frame_mono; [exact Hfr| |exact Hf2|]; by apply (bool_decide_unpack _). }
  destruct (mark_runs n u w3) as (w' & H' & Hf' & Hn'); [by apply Ho| |done|by eapply rooms_known_frame|].
  { unfold count_ok, current, w3 in *. by rewrite globals_rem, globals_ins, Hg2, Hg. }
  exists w'. split_and!; [done| | |done].
  - assert (forall t, t <> keychangeid_userid -> maps w' t = maps w3 t) as Hk' by (intros; apply Hf'; set_solver).
    assert (forall t, t <> todeviceid_events -> maps w2 t = maps w1 t) as Hk2 by (intros; apply Hf2; set_solver).
    apply (devices_remove w); try done; rewrite ?Hk' by done; unfold w3; world_simpl; rewrite ?Hk2 by done.
    + rewrite Hfr; [done|]. by apply (bool_decide_unpack _).
    + intros. by rewrite Ht.
    + done.
  - eapply frame_trans; [exact Hf3|]. eapply frame_mono; [done|]. by apply (bool_decide_unpack _).
Qed.

Lemma remove_devices_refines u l w m n :
  devices w m -> (forall d, d ∈ l -> device_ok u d) -> count_ok n w -> (Z.of_nat (length l) <= n)%Z -> rooms_known u w ->
  exists w', for_each (fun _ d => remove_device debug fuel first states u d) () l w = (Done (), w') /\
    devices w' (foldl (fun m d => delete (u, d) m) m l) /\ frame account_tables w w'.
Proof.
  revert w m n. induction l as [|d l IH]; intros w m n D Ho Hn Hl Hr; cbn [for_each foldl]; [by exists w|].
  cbn [length] in Hl. destruct (remove_device_refines n w m u d) as (w1 & H1 & D1 & Hf1 & Hn1); [done|apply Ho; left|done|lia|done|].
  runs H1. destruct (IH w1 (delete (u, d) m) (n - 1)%Z) as (w' & H' & D' & Hf'); [done| |done|lia|by eapply rooms_known_frame|].
  { intros d' Hd'. apply Ho. by right. }
  exists w'. split_and!; [done..|by eapply frame_trans].
Qed.

Lemma lookup_deletes u l m x t :
  foldl (fun m d => delete (u, d) m) m l !! x = Some t <-> m !! x = Some t /\ ~ (x.1 = u /\ x.2 ∈ l).
Proof.
  revert m. induction l as [|d l IH]; intros m; cbn [foldl]; [set_solver|].
  rewrite IH, lookup_delete_Some. destruct x as [u' d']. cbn. set_solver.
Qed.

Lemma all_device_ids_exact w m u :
  devices w m -> user_id_ok u = true ->
  exists l, all_device_ids debug u w = Done l /\ NoDup l /\ forall d, d ∈ l <-> is_Some (m !! (u, d)).
Proof.
  intros D Hu. destruct (scan_ids_exact debug (fun _ => true) (maps w userdeviceid_metadata) u) as (l & El & Hs & Hl).
  - by apply user_no_sep.
  - intros k Hk Hp. destruct (dv_keys w m D k Hk) as (u' & d & [Hu' Hd] & ->).
    apply interfix_prefix in Hp as <-; [|by apply user_no_sep..]. by exists d.
  - exists l. split; [done|]. split; [by apply sorted_lt_NoDup|]. intros d. rewrite Hl. split.
    + intros Hk. destruct (dv_keys w m D _ Hk) as (u' & d' & Ho & Ek).
      apply sep_split in Ek as [<- <-]; [|by apply user_no_sep|by apply user_no_sep, Ho]. by apply (dv_known w m D).
    + intros Hm. apply (dv_known w m D); [|done]. by apply (dv_ok w m D (_, _)).
Qed.

Lemma devices_of_user w m u l :
  devices w m -> NoDup l -> (forall d, d ∈ l <-> is_Some (m !! (u, d))) -> length l <= size m.
Proof.
  intros D Hn Hl. rewrite <- size_dom, <- (length_fmap (fun d => (u, d)) l).
  rewrite <- (size_list_to_set (C := gset (bytes * bytes))).
  - apply subseteq_size. intros x. rewrite elem_of_list_to_set, elem_of_dom, list_elem_of_fmap.
    intros (d & -> & Hd). by apply Hl.
  - apply NoDup_fmap_2; [|done]. by intros ? ? [= ->].
Qed.

(** C35. Logging a device in: a user's device is created with a token no
    device has; from then on the token finds that device, the token the device
    had before finds nothing, and every other token finds what it found. *)
Theorem login_by_token now w m u d token name ip :
  devices w m -> device_ok u d -> user_exists u w = true -> unused token m ->
  exists w', create_device debug now u d token name ip w = (Done (), w') /\
    devices w' (<[(u, d) := Some token]> m) /\
    find_from_token debug token w' = Done (u, d) /\
    (forall old, m !! (u, d) = Some (Some old) -> forall x, find_from_token debug old w' <> Done x) /\
    (forall t x, t <> token -> m !! (u, d) <> Some (Some t) ->
       find_from_token debug t w' = Done x <-> find_from_token debug t w = Done x).
Proof.
  intros D Ho He Hu. destruct (create_device_refines now w m u d token name ip) as (w' & H' & D'); [done..|].
  exists w'. split; [done|]. split; [done|]. split; [apply (find_from_token_iff _ _ _ _ _ D'); by rewrite lookup_insert_eq|].
  split.
  - intros old Hold [u' d'] Hf. apply (find_from_token_iff _ _ _ _ _ D') in Hf as [[_ [= ->]]|[Hne Hf]]%lookup_insert_Some.
    + by apply (Hu (u, d)).
    + by apply Hne, (dv_unique w m _ _ old D).
  - intros t [u' d'] Ht Hd. rewrite (find_from_token_iff _ _ _ _ _ D'), (find_from_token_iff _ _ _ _ _ D), lookup_insert_Some.
    split; [naive_solver|]. intros Hm. right. split; [|done]. by intros [= -> ->].
Qed.

(** C34. Deactivating an account removes all its devices: no token finds the
    user any more, the devices and tokens of the other users are as before,
    and the password is the empty one of deactivated accounts. *)
Theorem deactivated_locked_out w m u :
  devices w m -> user_id_ok u = true -> count_ok (Z.of_nat (size m)) w -> rooms_known u w ->
  exists w', deactivate_account debug fuel first states u w = (Done (), w') /\
    devices w' (filter (fun x => x.1.1 <> u) m) /\
    (forall t d, find_from_token debug t w' <> Done (u, d)) /\
    (forall t v d, v <> u -> find_from_token debug t w' = Done (v, d) <-> find_from_token debug t w = Done (v, d)) /\
    maps w' userid_password !! u = Some [].
Proof.
  intros D Hu Hn Hr. destruct (all_device_ids_exact w m u) as (l & El & Hnd & Hl); [done..|].
  unfold deactivate_account. erewrite eff_step by (unfold scan; by rewrite El).
  destruct (remove_devices_refines u l w m (Z.of_nat (size m))) as (w1 & H1 & D1 & _); [done| |done| |done|].
  { intros d [t Hd]%Hl. apply (dv_ok w m D (u, d)). by eexists. }
  { pose proof (devices_of_user w m u l D Hnd Hl). lia. }
  runs H1. set (w' := ins userid_password u [] w1).
  assert (devices w' (filter (fun x => x.1.1 <> u) m)) as D'.
  { replace (filter _ m) with (foldl (fun m d => delete (u, d) m) m l); [by eapply devices_frame; world_simpl|].
    apply map_eq. intros [v d]. apply option_eq. intros t. rewrite lookup_deletes, map_lookup_filter_Some. cbn. naive_solver. }
  exists w'. split_and!; [done|done| | |by unfold w'; world_simpl; rewrite lookup_insert_eq].
  - intros t d [_ Hf]%(find_from_token_iff _ _ _ _ _ D')%map_lookup_filter_Some. by apply Hf.
  - intros t v d Hv. rewrite (find_from_token_iff _ _ _ _ _ D'), (find_from_token_iff _ _ _ _ _ D), map_lookup_filter_Some.
    naive_solver.
Qed.

End sessions.

(** *** Tokens for one login *)

Section login_tokens.
Context (debug : bool) {E : Engine} {I : Ids}.

Lemma sat_add_u64 a b : is_u64 (sat_add a b).
Proof. unfold sat_add, saturate. width_lia. Qed.

Lemma login_row_written n u :
  user_id_ok u = true -> is_u64 n ->
  exists b, serialize_to_vec debug (VTuple [VU64 n; VStr u]) = Done b /\ login_row debug b = Done (n, u).
Proof.
  intros Hu Hn. assert (fields [TU64; TStr] [VU64 n; VStr u]) as Hf.
  { pose proof (user_id_utf8 u Hu). repeat first [done | constructor]. }
  eexists. split; [by apply (serialize_fields debug [TU64; TStr])|].
  unfold login_row, deserialized. cbn [mbind outcome_bind].
  rewrite (from_slice_fields debug [TU64; TStr]); [|done|by eapply enc_fields_nonempty; [|cbn; lia]].
  cbn [lift_de mbind outcome_bind fail_with]. by rewrite Hu.
Qed.

Lemma unknown_login now token w :
  maps w logintoken_expiresatuserid !! token = None -> find_from_login_token debug now token w = (Fail UnknownToken, w).
Proof. intros H. unfold find_from_login_token. runs found_get. by rewrite H. Qed.

(** A login token is good for one login: until it expires the first use gives
    the user it was made for, later the use is refused; either way the token
    is gone, every further use is refused, and no other token is touched. *)
Theorem login_token_once ttl now u token w :
  user_id_ok u = true ->
  exists w1, create_login_token debug ttl now u token w = (Done ttl, w1) /\
    forall later, exists w2,
      find_from_login_token debug later token w1 =
        (if (sat_add now ttl <? later)%Z then Fail ExpiredToken else Done u, w2) /\
      (forall again, find_from_login_token debug again token w2 = (Fail UnknownToken, w2)) /\
      (forall t, t <> token -> maps w2 logintoken_expiresatuserid !! t = maps w logintoken_expiresatuserid !! t) /\
      frame [logintoken_expiresatuserid] w w2.
Proof.
  intros Hu. destruct (login_row_written (sat_add now ttl) u Hu (sat_add_u64 _ _)) as (b & Hb & Hr).
  set (w1 := ins logintoken_expiresatuserid token b w). exists w1. split.
  { unfold create_login_token. erewrite eff_step; [done|]. unfold change, upd, raw_put, raw_bput, buffer_serialize.
    unfold serialize_to_vec in Hb. by rewrite Hb. }
  intros later. exists (rem logintoken_expiresatuserid token w1). split_and!.
  - unfold find_from_login_token. runs found_get. unfold w1. world_simpl. rewrite lookup_insert_eq.
    erewrite eff_step by done. erewrite eff_step by (unfold lift_eff; by rewrite Hr). cbn beta iota.
    erewrite eff_step by done. by destruct (_ <? _)%Z.
  - intros again. apply unknown_login. world_simpl. by rewrite lookup_delete_eq.
  - intros t Ht. unfold w1. world_simpl. by rewrite lookup_delete_ne, lookup_insert_ne.
  - unfold w1. frame_steps.
Qed.

End login_tokens.

(** *** One-time keys

    What the table says: the value of each key a device has left. *)

Abbreviation key_store := (gmap (bytes * bytes * bytes) bytes).

Section one_time_keys.
Context (debug : bool) {E : Engine} {I : Ids} {JT : JsonText} {UJ : UserJson}.
Implicit Types (w : World) (m : key_store).

Definition otk_ok (x : bytes * bytes * bytes) : Prop :=
  device_ok x.1.1 x.1.2 /\ utf8_valid x.2 = true /\ json_plain x.2 = true.
Definition otk_key (x : bytes * bytes * bytes) : bytes := one_time_key_prefix x.1.1 x.1.2 ++ json_string x.2.

Record one_time_keys w m : Prop := {
  otk_all : forall x v, m !! x = Some v -> otk_ok x /\ json_raw_ok v = true;
  otk_rows : forall k v, maps w onetimekeyid_onetimekeys !! k = Some v <-> exists x, k = otk_key x /\ m !! x = Some v }.

Lemma otk_split u d j u' d' j' :
  device_ok u d -> device_ok u' d' ->
  one_time_key_prefix u d ++ j = one_time_key_prefix u' d' ++ j' -> u = u' /\ d = d' /\ j = j'.
Proof.
  intros [Hu Hd] [Hu' Hd'] Ek. unfold one_time_key_prefix in Ek. norm_app_in Ek.
  apply sep_split in Ek as [-> Ek]; [|by apply user_no_sep..].
  by apply sep_split in Ek as [-> ->]; [|by apply utf8_no_sep..].
Qed.

Lemma otk_key_inj x y : otk_ok x -> otk_ok y -> otk_key x = otk_key y -> x = y.
Proof.
  destruct x as [[u d] id], y as [[u' d'] id']. intros (Ho & _ & Hp) (Ho' & _ & Hp') Ek. cbn in *.
  apply otk_split in Ek as (-> & -> & Ek); [|done..]. rewrite !json_string_plain in Ek by done.
  injection Ek as Ek. apply app_inj_tail in Ek as [-> _]. done.
Qed.

Lemma prefix_quoted (alg id : bytes) :
  (x22 :: alg ++ [x3a]) `prefix_of` (x22 :: id ++ [x22]) <-> (alg ++ [x3a]) `prefix_of` id.
Proof.
  split.
  - intros [z Ez]. injection Ez as Ez. destruct z as [|b z] using rev_ind.
    + rewrite app_nil_r in Ez. by apply app_inj_tail in Ez as [_ ?].
    + rewrite app_assoc in Ez. apply app_inj_tail in Ez as [-> _]. by eexists.
  - intros [z ->]. exists (z ++ [x22]). by norm_app.
Qed.

Lemma otk_prefix u d alg x :
  device_ok u d -> otk_ok x ->
  (one_time_key_prefix u d ++ x22 :: alg ++ [x3a]) `prefix_of` otk_key x <->
  x.1 = (u, d) /\ (alg ++ [x3a]) `prefix_of` x.2.
Proof.
  destruct x as [[u' d'] id]. intros Ho (Ho' & _ & Hp). unfold otk_key. cbn [fst snd] in *.
  rewrite json_string_plain, <- prefix_quoted by done. split.
  - intros [z Ez]. rewrite <- app_assoc in Ez. apply otk_split in Ez as (-> & -> & Ez); [|done..].
    split; [done|]. by exists z.
  - intros ([= -> ->] & Hz). by apply prefix_app.
Qed.

Lemma last_part_key x : otk_ok x -> last_part (otk_key x) = json_string x.2.
Proof.
  intros (_ & Hu & Hp). unfold last_part, otk_key, one_time_key_prefix.
  assert (SEP ∉ json_string x.2) as Hs.
  { rewrite json_string_plain by done. pose proof (utf8_no_sep _ Hu). set_solver. }
  replace ((_ ++ SEP :: _ ++ [SEP]) ++ _) with ((x.1.1 ++ SEP :: x.1.2) ++ SEP :: json_string x.2) by by norm_app.
  rewrite reverse_app, reverse_cons, <- app_assoc. cbn [app].
  assert (SEP ∉ reverse (json_string x.2)) as Hs' by by rewrite elem_of_reverse.
  by rewrite (proj1 (until_sep_app _ _ Hs')), reverse_involutive.
Qed.

Lemma otk_insert w w' m x v :
  one_time_keys w m -> otk_ok x -> json_raw_ok v = true ->
  maps w' onetimekeyid_onetimekeys = <[otk_key x := v]> (maps w onetimekeyid_onetimekeys) ->
  one_time_keys w' (<[x := v]> m).
Proof.
  intros [HA HR] Ho Hv Hm. split.
  - intros y v' [[<- <-]|[_ Hy]]%lookup_insert_Some; [done|by apply HA].
  - intros k v'. rewrite Hm, lookup_insert_Some, HR. split.
    + intros [[<- <-]|(Hne & y & -> & Hy)]; [exists x; by rewrite lookup_insert_eq|].
      exists y. split; [done|]. rewrite lookup_insert_ne; [done|]. by intros ->.
    + intros (y & -> & [[<- <-]|[Hne Hy]]%lookup_insert_Some); [by left|right].
      split; [|by eauto]. intros Ek%otk_key_inj; [done..|by apply (HA y v')].
Qed.

Lemma otk_delete w w' m x :
  one_time_keys w m -> otk_ok x ->
  maps w' onetimekeyid_onetimekeys = delete (otk_key x) (maps w onetimekeyid_onetimekeys) ->
  one_time_keys w' (delete x m).
Proof.
  intros [HA HR] Ho Hm. split.
  - intros y v' [_ Hy]%lookup_delete_Some. by apply HA.
  - intros k v'. rewrite Hm, lookup_delete_Some, HR. split.
    + intros (Hne & y & -> & Hy). exists y. split; [done|]. apply lookup_delete_Some. split; [|done]. by intros ->.
    + intros (y & -> & [Hne Hy]%lookup_delete_Some). split; [|by eauto].
      intros Ek%otk_key_inj; [done..|by apply (HA y v')].
Qed.

Lemma add_one_time_key_refines w m u d id v :
  one_time_keys w m -> otk_ok (u, d, id) -> json_raw_ok v = true -> count_ok 1 w ->
  is_Some (maps w userdeviceid_metadata !! pair_bytes u d) ->
  exists w', add_one_time_key debug u d id v w = (Done (), w') /\ one_time_keys w' (<[(u, d, id) := v]> m).
Proof.
  intros HO Hx Hv Hn Hk. unfold add_one_time_key.
  erewrite eff_step by (eapply has_metadata_lookup; apply Hx). rewrite bool_decide_true by done. cbn [negb].
  erewrite eff_step by (unfold change; by rewrite upd_json).
  set (w1 := ins _ _ _ w). destruct (next_count_ok debug 1 w1) as (w2 & Hc & Hm & _); [done..|].
  erewrite eff_step by (unfold number; by rewrite Hc). eexists. split; [unfold change; by rewrite upd_put_count|].
  apply (otk_insert w); [done..|]. world_simpl. rewrite Hm. unfold w1. by world_simpl.
Qed.

(** C39. A claim for a one-time key of a device and an algorithm is answered with one
    that the device has left, exactly if there is one; that key is gone
    afterwards and the others stay, so that no key is given out twice. *)
Theorem one_time_key_claimed_once w m u d alg :
  one_time_keys w m -> device_ok u d -> count_ok 1 w ->
  exists w', (exists id v, m !! (u, d, id) = Some v /\ (alg ++ [x3a]) `prefix_of` id /\
      take_one_time_key debug u d alg w = (Done (id, v), w') /\ one_time_keys w' (delete (u, d, id) m)) \/
    ((forall id v, m !! (u, d, id) = Some v -> ~ (alg ++ [x3a]) `prefix_of` id) /\
      take_one_time_key debug u d alg w = (Fail NoOneTimeKey, w') /\ one_time_keys w' m).
Proof.
  intros HO Ho Hn. unfold take_one_time_key.
  destruct (next_count_ok debug 1 w) as (w1 & Hc & Hm & _); [done..|].
  erewrite eff_step by (unfold number; by rewrite Hc). erewrite eff_step by done.
  set (w2 := ins _ _ _ w1). set (p := one_time_key_prefix u d ++ _).
  assert (maps w2 onetimekeyid_onetimekeys = maps w onetimekeyid_onetimekeys) as Hm2.
  { unfold w2. world_simpl. by rewrite Hm. }
  assert (forall k v, (k, v) ∈ raw_stream_prefix (maps w2 onetimekeyid_onetimekeys) p <->
    exists x, k = otk_key x /\ m !! x = Some v /\ x.1 = (u, d) /\ (alg ++ [x3a]) `prefix_of` x.2) as Hrows.
  { intros k v. rewrite raw_stream_prefix_rows, list_elem_of_filter, elem_of_rows, Hm2, (otk_rows w m HO). split.
    - intros [Hp (x & -> & Hx)]. exists x. split_and!; try done; by apply (otk_prefix u d alg x) in Hp as [??]; [..|by apply (otk_all w m HO x v)].
    - intros (x & -> & Hx & Hxp). split; [|by eauto]. apply (otk_prefix u d alg x); [done|by apply (otk_all w m HO x v)|done]. }
  erewrite eff_step by done. destruct (raw_stream_prefix _ p) as [|[k v] l]; cbn [head].
  - eexists. right. split_and!; [|done|].
    + intros id v Hid Hp. assert ((otk_key (u, d, id), v) ∈ @nil row) by (apply Hrows; eauto). set_solver.
    + destruct HO as [HA HR]. split; [done|]. by rewrite Hm2.
  - destruct (proj1 (Hrows k v)) as ([[? ?] id] & -> & Hx & [= -> ->] & Hp); [left|].
    destruct (otk_all w m HO _ _ Hx) as [Hox Hv]. eexists. left. exists id, v. split_and!; [done|done| |].
    + erewrite eff_step by done. rewrite last_part_key by done. cbn [snd]. rewrite de_json_string by apply Hox.
      erewrite eff_step by done. by rewrite Hv.
    + apply (otk_delete w); [done..|]. world_simpl. by rewrite Hm2.
Qed.

End one_time_keys.

(** Removing a device leaves its one-time keys: they can be claimed afterwards,
    and a new device of the same name is told that it has them. *)
Theorem keys_outlive_device (debug : bool) {E : Engine} {I : Ids} {JT : JsonText} {UJ : UserJson} {J : PduJson}
    {RR : RoomRuma} {sched : Schedule} {L : LruCache Z ShortStateInfoVec} fuel first (states : @Store L) w m k u d :
  devices w m -> one_time_keys w k -> device_ok u d -> count_ok 1 w -> rooms_known debug fuel first states u w ->
  exists w', remove_device debug fuel first states u d w = (Done (), w') /\ devices w' (delete (u, d) m) /\ one_time_keys w' k.
Proof.
  intros D [HA HR] Ho Hn Hr. edestruct remove_device_refines as (w' & H' & D' & Hf & _); [done..|].
  exists w'. split_and!; [done..|]. split; [done|]. rewrite (Hf onetimekeyid_onetimekeys); [done|]. by apply (bool_decide_unpack _).
Qed.
