(* ===== verification/ToDevice.v ===== *)
(** * Messages to devices

    What [add_to_device_event], [get_to_device_events] and
    [remove_to_device_events] of [src/service/users/mod.rs] ([Users]) do for a
    device: the messages of a table of rows, read in the order in which they were
    sent and kept until they are acknowledged. *)

From stdpp Require Import prelude gmap strings list sorting.
From Stdlib Require Import ZArith Lia.
From Stdlib Require Import Strings.Byte.
From S2P Require Import Prelude MachineInt PduCount Matrix DbCodec DbMap CoreUtils Effects Short World AccountData.
From S2P Require Import StateCache Users.

(** The messages there are: of a user and a device, under the number they were sent with. *)
Abbreviation mail := (gmap (bytes * bytes * Z) bytes).
Abbreviation address := (bytes * bytes * Z)%type.

Section keys.
Context (debug : bool) {I : Ids}.
Implicit Types x y z : address.

Definition mail_ok x : Prop := device_ok x.1.1 x.1.2 /\ is_u64 x.2.
Definition mail_key x : bytes := one_time_key_prefix x.1.1 x.1.2 ++ u64_to_be_bytes x.2.

Lemma mail_fields u d c :
  mail_ok (u, d, c) -> fields [TStr; TStr; TU64] [VStr u; VStr d; VU64 c] /\
    enc_fields [VStr u; VStr d; VU64 c] = mail_key (u, d, c).
Proof.
  intros [[Hu%user_id_utf8 Hd] Hc]. split; [repeat first [done | constructor]|].
  unfold mail_key, one_time_key_prefix. cbn. by norm_app.
Qed.

Lemma mail_key_ser u d c :
  mail_ok (u, d, c) -> serialize_key debug (device_event_key u d c) = Done (mail_key (u, d, c)).
Proof.
  intros [Hf He]%mail_fields. unfold serialize_key, device_event_key.
  by rewrite (serialize_fields debug [TStr; TStr; TU64]), He.
Qed.

Lemma mail_key_read x : mail_ok x -> device_event_id debug (mail_key x) = Done x.
Proof.
  destruct x as [[u d] c]. intros Ho. destruct (mail_fields u d c Ho) as [Hf He].
  unfold device_event_id, deserialize_key. rewrite <- He.
  rewrite (from_slice_fields debug [TStr; TStr; TU64]); [|done|by eapply enc_fields_nonempty; [|cbn; lia]].
  cbn [mbind outcome_bind]. destruct Ho as [[Hu _] _]. cbn in Hu. by rewrite Hu.
Qed.

Lemma mail_key_inj x y : mail_ok x -> mail_ok y -> mail_key x = mail_key y -> x = y.
Proof.
  intros Hx Hy Ek. apply (f_equal (device_event_id debug)) in Ek. rewrite !mail_key_read in Ek by done. congruence.
Qed.

(** Of one device the keys are in the order of the numbers, and lie together. *)
Lemma mail_le x y :
  mail_ok x -> mail_ok y -> x.1 = y.1 -> ord_le (mail_key x) (mail_key y) <-> (x.2 <= y.2)%Z.
Proof.
  destruct x as [x a], y as [y b]. intros [_ Ha] [_ Hb] [= ->]. unfold mail_key. cbn in *.
  rewrite ord_le_app, <- (app_nil_r (u64_to_be_bytes a)), <- (app_nil_r (u64_to_be_bytes b)), ord_le_u64 by done.
  split; [lia|]. intros. destruct (decide (a = b)); [right; split; [done|apply ord_le_nil]|left; lia].
Qed.

Lemma mail_between x y z :
  mail_ok x -> mail_ok y -> x.1 = z.1 ->
  ord_le (mail_key x) (mail_key y) -> ord_le (mail_key y) (mail_key z) -> y.1 = x.1.
Proof.
  destruct x as [[u d] a], y as [[u' d'] b], z as [xz c]. intros [Ho _] [Ho' _] [= <-] H1 H2. cbn in *.
  assert (one_time_key_prefix u d `prefix_of` mail_key (u', d', b)) as [r Hr].
  { eapply prefix_between; [|exact H2|by eexists]. eapply ord_le_trans; [|exact H1]. apply prefix_ord_le. by eexists. }
  symmetry in Hr. by apply otk_split in Hr as (-> & -> & _).
Qed.

End keys.

Section mailbox.
Context (debug : bool) {E : Engine} {I : Ids} {JT : JsonText} {UJ : UserJson}.
Implicit Types (w : World) (m : mail) (x y z : address).

Record mailbox w m : Prop := {
  mail_all : forall x t, m !! x = Some t -> mail_ok x /\ utf8_valid t = true /\ json_raw_ok t = true;
  mail_rows : forall k t, maps w todeviceid_events !! k = Some t <-> exists x, k = mail_key x /\ m !! x = Some t }.

Lemma from_slice_json t : utf8_valid t = true -> from_slice debug TJson t = Done (VJson t).
Proof.
  intros Ht. unfold from_slice. cbn [de_value]. unfold record_next, rest. cbn [buf pos].
  rewrite decide_True by lia. cbn [mbind outcome_bind]. rewrite drop_0.
  rewrite (proj2 (until_sep_app t [] (utf8_no_sep t Ht))). unfold inc_pos. cbn [buf pos].
  rewrite debug_assert_true by (apply bool_decide_eq_true; lia). cbn [mbind outcome_bind].
  rewrite debug_assert_true; [done|]. unfold finished. cbn [buf pos]. rewrite Nat.add_0_l, drop_all.
  by rewrite bool_decide_true.
Qed.

Lemma device_event_row w m x t :
  mailbox w m -> m !! x = Some t -> device_event debug (mail_key x, t) = Done (x, t).
Proof.
  intros M Hx. destruct (mail_all w m M x t Hx) as (Ho & Ht & Hr). unfold device_event. cbn [fst snd].
  rewrite mail_key_read by done. cbn [mbind outcome_bind]. unfold deserialize_key.
  rewrite from_slice_json by done. cbn [mbind outcome_bind]. by rewrite Hr.
Qed.

Lemma mail_row w m k t :
  mailbox w m -> (k, t) ∈ rows (maps w todeviceid_events) <-> exists x, k = mail_key x /\ m !! x = Some t.
Proof. intros M. by rewrite elem_of_rows, (mail_rows w m M). Qed.

(** What the decoder makes of a row. *)
Definition message (kv : row) : address * bytes :=
  match device_event debug kv with Done b => b | _ => ([], [], 0%Z, []) end.

Lemma message_row w m x t : mailbox w m -> m !! x = Some t -> message (mail_key x, t) = (x, t).
Proof. intros M Hx. unfold message. by erewrite device_event_row by done. Qed.

(** Rows of one device are ordered by their numbers. *)
Lemma messages_sorted w m who l :
  mailbox w m -> StronglySorted key_le l -> NoDup l.*1 -> (forall a, a ∈ l -> a ∈ rows (maps w todeviceid_events)) ->
  (forall a, a ∈ l -> (message a).1.1 = who) -> StronglySorted Z.lt ((fun a => (message a).1.2) <$> l).
Proof.
  intros M Hl. induction Hl as [|[k t] l Hl IH Ha]; intros Hn Hr Hx; [constructor|].
  rewrite fmap_cons, NoDup_cons in Hn. destruct Hn as [Hk Hn]. rewrite fmap_cons. constructor.
  - apply IH; [done|..]; intros; [apply Hr|apply Hx]; by right.
  - apply Forall_fmap, Forall_forall. intros [k' t'] Hv. unfold compose. cbv beta.
    pose proof (Hx (k, t) ltac:(left)) as H1. pose proof (Hx (k', t') ltac:(by right)) as H2.
    destruct (proj1 (mail_row w m k t M)) as (x & -> & Hm); [apply Hr; left|].
    destruct (proj1 (mail_row w m k' t' M)) as (y & -> & Hm'); [apply Hr; by right|].
    rewrite !(message_row w m) in * by done. cbn [fst snd] in *.
    rewrite Forall_forall in Ha. apply Ha in Hv as Hle. unfold key_le in Hle. cbn [fst] in Hle.
    apply mail_le in Hle; [|by eapply mail_all..|congruence].
    destruct (decide (x.2 = y.2)) as [He|]; [|lia]. destruct Hk.
    apply list_elem_of_fmap_2 with (f := fst) in Hv. cbn in Hv.
    by replace x with y by (destruct x, y; cbn in *; congruence).
Qed.

(** Which messages a request selects. *)
Definition since_of (since : option Z) (c : Z) : Prop := from_option (fun s => (s < c)%Z) True since.

Definition selected (u d : bytes) (from : Z) (to : option Z) w : list row :=
  filter (fun a => ((message a).1.1.1 = u /\ (message a).1.1.2 = d) /\ upto to (message a).1.2)
    (filter (key_from (mail_key (u, d, from))) (rows (maps w todeviceid_events))).

Lemma get_selected w m u d since to from :
  mailbox w m -> mail_ok (u, d, from) ->
  from = match since with None => 0%Z | Some since => saturate 0 u64_max (since + 1) end ->
  get_to_device_events debug u d since to w = Done (message <$> selected u d from to w).*2.
Proof.
  intros M Ho Ef. unfold get_to_device_events, stream_from_raw. cbv zeta. rewrite <- Ef. rewrite (mail_key_ser debug (I := I)) by done.
  cbn [mbind outcome_bind]. rewrite raw_stream_from_rows. set (l := filter _ (rows _)).
  assert (forall a, a ∈ l -> exists x t, a = (mail_key x, t) /\ m !! x = Some t /\ key_from (mail_key (u, d, from)) a) as Hl.
  { intros [k t] [Hf (x & -> & Hx)%(mail_row w m _ _ M)]%list_elem_of_filter. eauto. }
  rewrite (ignore_err_total _ _ ([], [], 0%Z, [])).
  2: { intros a (x & t & -> & Hx & _)%Hl. eexists. by apply (device_event_row w m). }
  cbn [mbind outcome_bind]. change (fun a => match device_event debug a with Done b => b | _ => _ end) with message.
  rewrite take_while_fmap. unfold selected. fold l. do 3 f_equal.
  apply (take_while_sorted (fun a b => a ∈ l /\ b ∈ l /\ key_le a b)).
  - apply sorted_with_elem, filter_sorted, rows_sorted.
  - intros a b (Ha & Hb & Hab). destruct (Hl a Ha) as (x & t & -> & Hx & Hfx), (Hl b Hb) as (y & t' & -> & Hy & _).
    rewrite !(message_row w m) by done. cbn [fst snd]. intros [[<- <-] Hto].
    assert (x.1 = y.1) as Hxy.
    { rewrite (mail_between (y.1, from) x y) by (try done; by eapply mail_all). done. }
    rewrite Hxy. split; [done|]. apply mail_le in Hab; [|by eapply mail_all..|done].
    destruct to; cbn in *; [lia|done].
Qed.

Lemma elem_of_selected w m u d since to from k t :
  mailbox w m -> mail_ok (u, d, from) -> (forall c, is_u64 c -> (from <= c)%Z <-> since_of since c) ->
  (k, t) ∈ selected u d from to w <->
  exists c, k = mail_key (u, d, c) /\ m !! (u, d, c) = Some t /\ since_of since c /\ upto to c.
Proof.
  intros M Ho Hs. unfold selected. rewrite !list_elem_of_filter, (mail_row w m _ _ M). split.
  - intros (Hp & Hf & [[u' d'] c] & -> & Hx). rewrite (message_row w m) in Hp by done. cbn in Hp.
    destruct Hp as [[<- <-] Hto]. exists c. split_and!; [done..| |done].
    destruct (mail_all w m M _ _ Hx) as [Hox _]. apply Hs; [apply Hox|]. by apply mail_le in Hf.
  - intros (c & -> & Hx & Hc & Hto). destruct (mail_all w m M _ _ Hx) as [Hox _].
    rewrite (message_row w m) by done. split_and!; [done..| |by eauto]. apply mail_le; [done..|]. apply Hs; [apply Hox|done].
Qed.

(** A device reads, in the order of their numbers, exactly the messages sent to
    it after [since] and up to [to]. *)
Lemma device_messages_exact w m u d since to :
  mailbox w m -> device_ok u d -> from_option (fun s => (0 <= s < u64_max)%Z) True since ->
  exists l : list (Z * bytes), get_to_device_events debug u d since to w = Done l.*2 /\ StronglySorted Z.lt l.*1 /\
    forall c t, (c, t) ∈ l <-> m !! (u, d, c) = Some t /\ since_of since c /\ upto to c.
Proof.
  intros M Ho Hs. set (from := match since with None => 0%Z | Some since => saturate 0 u64_max (since + 1) end).
  assert (is_u64 from /\ forall c, is_u64 c -> (from <= c)%Z <-> since_of since c) as [Hf Hc].
  { unfold from. destruct since as [s|]; cbn in *; [unfold saturate|]; split; try width_lia; intros; unfold is_u64 in *; split; try done; width_lia. }
  pose proof (conj Ho Hf : mail_ok (u, d, from)) as Hof.
  exists ((fun a => ((message a).1.2, (message a).2)) <$> selected u d from to w). split_and!.
  - rewrite (get_selected w m u d since to from) by done. by rewrite <- !list_fmap_compose.
  - rewrite <- list_fmap_compose. apply (messages_sorted w m (u, d)); [done|..].
    + do 2 apply filter_sorted. apply rows_sorted.
    + do 2 apply NoDup_fmap_fst_filter. apply rows_NoDup_keys.
    + intros a [_ [_ Ha]%list_elem_of_filter]%list_elem_of_filter. done.
    + intros a [[[Hu Hd] _] _]%list_elem_of_filter. by destruct (message a) as [[[??]?]?]; cbn in *; subst.
  - intros c t. rewrite list_elem_of_fmap. split.
    + intros ([k t'] & Eq & Hk). apply (elem_of_selected w m u d since) in Hk as (c' & -> & Hx & Hr); [|done..].
      rewrite (message_row w m) in Eq by done. by injection Eq as -> ->.
    + intros (Hx & Hr). exists (mail_key (u, d, c), t). rewrite (message_row w m) by done.
      split; [done|]. apply (elem_of_selected w m u d since); [done..|]. eauto.
Qed.

(** The messages up to one of them, found from there backwards. *)
Lemma old_device_events_exact w m u d until :
  mailbox w m -> mail_ok (u, d, until) ->
  exists l, old_device_events debug u d until w = Done l /\
    forall x, x ∈ l <-> is_Some (m !! x) /\ x.1 = (u, d) /\ (x.2 <= until)%Z.
Proof.
  intros M Ho. unfold old_device_events, rev_stream_from_raw. rewrite (mail_key_ser debug (I := I)) by done.
  cbn [mbind outcome_bind]. rewrite rev_raw_stream_from_rows. set (l := reverse _).
  assert (forall k t, (k, t) ∈ l <-> exists x, k = mail_key x /\ m !! x = Some t /\ ord_le k (mail_key (u, d, until))) as Hl.
  { intros k t. unfold l. rewrite elem_of_reverse, list_elem_of_filter, (mail_row w m _ _ M). unfold key_upto. naive_solver. }
  rewrite (ignore_err_total _ _ ([], [], 0%Z)).
  2: { intros [k t] (x & -> & Hx & _)%Hl. eexists. apply mail_key_read. by eapply mail_all. }
  cbn [mbind outcome_bind]. set (g := fun a => match device_event_id debug a.1 with Done b => b | _ => _ end).
  assert (forall x t, m !! x = Some t -> g (mail_key x, t) = x) as Hg.
  { intros x t Hx. unfold g. cbn [fst]. by rewrite mail_key_read by by eapply mail_all. }
  rewrite take_while_fmap. rewrite (take_while_sorted (fun a b => a ∈ l /\ b ∈ l /\ key_le b a)).
  - eexists. split; [done|]. intros x. rewrite list_elem_of_fmap. split.
    + intros ([k t] & Eq & [Hp (y & -> & Hx & Hle)%Hl]%list_elem_of_filter). rewrite (Hg y t) in Eq, Hp by done.
      subst y. destruct x as [[??]?]. cbn in Hp. destruct Hp as [-> ->]. split_and!; [done..|]. apply mail_le in Hle; [done|by eapply mail_all|done..].
    + intros ([t Hx] & Hd & Hle). exists (mail_key x, t). rewrite (Hg x t) by done. split; [done|].
      apply list_elem_of_filter. rewrite (Hg x t) by done. rewrite Hd. split; [done|]. apply Hl.
      exists x. split_and!; [done..|]. apply mail_le; [by eapply mail_all|done..].
  - apply sorted_with_elem. eapply sorted_impl; [apply upto_reverse_sorted, rows_sorted|]. by intros a b [_ ?].
  - intros [ka ta] [kb tb] ((x & -> & Hx & Hxle)%Hl & (y & -> & Hy & _)%Hl & Hab). rewrite (Hg x ta), (Hg y tb) by done.
    intros [Hu Hd]. rewrite (mail_between y x (u, d, until)); [done|by eapply mail_all..| |done|done].
    destruct y as [[??]?]. cbn in *. by subst.
Qed.

Lemma delete_mail w w' m x :
  mailbox w m -> mail_ok x -> maps w' todeviceid_events = delete (mail_key x) (maps w todeviceid_events) ->
  mailbox w' (delete x m).
Proof.
  intros [HA HR] Hx Hm. split.
  - intros y t [_ Hy]%lookup_delete_Some. by apply HA.
  - intros k t. rewrite Hm, lookup_delete_Some, HR. split.
    + intros (Hne & y & -> & Hy). exists y. split; [done|]. apply lookup_delete_Some. split; [|done]. by intros ->.
    + intros (y & -> & [Hne Hy]%lookup_delete_Some). split; [|by eauto].
      intros Ek%(mail_key_inj debug); [done..|by apply (HA y t)].
Qed.

Lemma delete_mails w m l :
  mailbox w m -> (forall x, x ∈ l -> mail_ok x) ->
  exists w', for_each (delete_device_event debug) () l w = (Done (), w') /\
    mailbox w' (filter (fun a : address * bytes => a.1 ∉ l) m) /\ frame [todeviceid_events] w w'.
Proof.
  revert w m. induction l as [|x l IH]; intros w m M Hl; cbn [for_each].
  { exists w. split_and!; [done| |done]. rewrite map_filter_id; [done|]. set_solver. }
  assert (mail_ok x) as Hx by (apply Hl; left).
  erewrite eff_step.
  2: { unfold delete_device_event, change. erewrite upd_del; [done|]. destruct x as [[u d] c]. by apply (mail_key_ser debug (I := I)). }
  destruct (IH (rem todeviceid_events (mail_key x) w) (delete x m)) as (w' & H' & M' & Hf); [eapply delete_mail; [done..|by world_simpl]|intros; apply Hl; by right|].
  exists w'. split_and!; [exact H'| |eapply frame_trans; [|exact Hf]; frame_steps].
  replace (filter _ m) with (filter (fun x : address * bytes => x.1 ∉ l) (delete x m)); [done|].
  apply map_eq. intros y. apply option_eq. intros t. rewrite !map_lookup_filter_Some, lookup_delete_Some. set_solver.
Qed.

Lemma remove_refines w m u d until :
  mailbox w m -> mail_ok (u, d, default u64_max until) ->
  exists w', remove_to_device_events debug u d until w = (Done (), w') /\
    mailbox w' (filter (fun a : address * bytes => ~ (a.1.1 = (u, d) /\ upto until a.1.2)) m) /\ frame [todeviceid_events] w w'.
Proof.
  intros M Ho. destruct (old_device_events_exact w m u d (default u64_max until)) as (l & El & Hl); [done..|].
  unfold remove_to_device_events. erewrite eff_step by (unfold scan; by rewrite El).
  destruct (delete_mails w m l) as (w' & H' & M' & Hf); [done| |].
  { intros x ([t Hx] & _)%Hl. by eapply mail_all. }
  exists w'. split_and!; [done| |done].
  replace (filter _ m) with (filter (fun x : address * bytes => x.1 ∉ l) m); [done|].
  apply map_eq. intros y. apply option_eq. intros t. rewrite !map_lookup_filter_Some, Hl. cbn.
  split; intros [Hy Hn]; (split; [done|]); intros Hc; apply Hn.
  - destruct Hc as [Hd Hc]. split_and!; [done..|]. destruct until; cbn in *; [done|].
    destruct (mail_all w m M y t Hy) as [[_ Hu] _]. width_lia.
  - destruct Hc as (_ & Hd & Hc). split; [done|]. by destruct until.
Qed.

Lemma send_refines w m sender u d ty content :
  mailbox w m -> device_ok u d -> count_ok 1 w ->
  utf8_valid (ser_to_device ty sender content) = true -> json_raw_ok (ser_to_device ty sender content) = true ->
  exists w', add_to_device_event debug sender u d ty content w = (Done (), w') /\
    mailbox w' (<[(u, d, current w + 1)%Z := ser_to_device ty sender content]> m).
Proof.
  intros [HA HR] Ho Hn Ht Hr. destruct (next_count_ok debug 1 w) as (w1 & Hc & Hm & _ & _ & Hu); [done..|].
  set (x := (u, d, current w + 1)%Z). assert (mail_ok x) as Hx by done.
  exists (ins todeviceid_events (mail_key x) (ser_to_device ty sender content) w1). split.
  - unfold add_to_device_event. erewrite eff_step by (unfold number; by rewrite Hc).
    unfold change, put, bput. assert (forall text, buffer_serialize debug None (VJson text) = Done text) as -> by by destruct debug.
    cbn [mbind outcome_bind]. change (bput_raw debug None) with (put_raw debug).
    by erewrite upd_put_raw by by apply (mail_key_ser debug (I := I)).
  - split.
    + intros y t [[<- <-]|[_ Hy]]%lookup_insert_Some; [done|by apply HA].
    + intros k t. world_simpl. rewrite Hm, lookup_insert_Some, HR. split.
      * intros [[<- <-]|(Hne & y & -> & Hy)]; [exists x; by rewrite lookup_insert_eq|].
        exists y. split; [done|]. rewrite lookup_insert_ne; [done|]. by intros ->.
      * intros (y & -> & [[<- <-]|[Hne Hy]]%lookup_insert_Some); [by left|right].
        split; [|by eauto]. intros Ek%(mail_key_inj debug); [done..|by apply (HA y t)].
Qed.

(** C38. A message reaches its device and stays until it is acknowledged: once sent
    it is among those the device reads, in the order of their numbers, with
    exactly the others sent to that device; acknowledging the messages up to
    a number removes exactly those, and the other devices read what they did. *)
Theorem messages_until_acknowledged w m sender u d ty content n :
  mailbox w m -> device_ok u d -> count_ok 1 w -> is_u64 n ->
  utf8_valid (ser_to_device ty sender content) = true -> json_raw_ok (ser_to_device ty sender content) = true ->
  let m1 := <[(u, d, current w + 1)%Z := ser_to_device ty sender content]> m in
  exists w1 w2, add_to_device_event debug sender u d ty content w = (Done (), w1) /\
    remove_to_device_events debug u d (Some n) w1 = (Done (), w2) /\
    forall u' d', device_ok u' d' ->
      (exists l : list (Z * bytes), get_to_device_events debug u' d' None None w1 = Done l.*2 /\
         StronglySorted Z.lt l.*1 /\ forall c t, (c, t) ∈ l <-> m1 !! (u', d', c) = Some t) /\
      (exists l : list (Z * bytes), get_to_device_events debug u' d' None None w2 = Done l.*2 /\
         StronglySorted Z.lt l.*1 /\
         forall c t, (c, t) ∈ l <-> m1 !! (u', d', c) = Some t /\ ~ ((u', d') = (u, d) /\ (c <= n)%Z)).
Proof.
  intros M Ho Hn Hu Ht Hr m1. destruct (send_refines w m sender u d ty content) as (w1 & H1 & M1); [done..|].
  destruct (remove_refines w1 m1 u d (Some n)) as (w2 & H2 & M2 & _); [done..|].
  exists w1, w2. split_and!; [done..|]. intros u' d' Ho'. split.
  - destruct (device_messages_exact w1 m1 u' d' None None) as (l & El & Hs & Hl); [done..|].
    exists l. split_and!; [done..|]. intros c t. rewrite Hl. cbn. naive_solver.
  - destruct (device_messages_exact w2 _ u' d' None None M2) as (l & El & Hs & Hl); [done..|].
    exists l. split_and!; [done..|]. intros c t. rewrite Hl, map_lookup_filter_Some. cbn. naive_solver.
Qed.

End mailbox.
