(* ===== verification/ToyUsers.v ===== *)
(** * Accounts on the small server

    A concrete [UserJson] and the inputs at which the theorems of [Users] and
    [ToDevice] are applied, with two results of the code that are not meant. *)

From stdpp Require Import prelude gmap strings list sorting countable.
From Stdlib Require Import ZArith Lia.
From Stdlib Require Import Strings.Byte.
From S2P Require Import Prelude MachineInt PduCount Matrix DbCodec DbMap CoreUtils Effects Short World AccountData.
From S2P Require Import StateCache Outliers StateCompressor StateAccessor Alias ToyServer Users ToDevice.
Import ToyServer.

Module ToyUsers.

(** ** Parameters *)

Definition device_text (d : Device) : bytes :=
  JsonCode.digits (encode (dev_id d, dev_name d, dev_ip d, dev_seen d)).
Definition device_of_text (b : bytes) : option Device :=
  '(i, n, a, s) ← decode (A := bytes * option bytes * option bytes * option Z) (JsonCode.number b);
  Some (MkDevice i n a s).

Definition quoted (s : bytes) : bytes := x22 :: s ++ [x22].
Definition unquote (b : bytes) : option bytes := if decide (head b = Some x22) then Some (removelast (tail b)) else None.

Definition json_of (b : bytes) : option CanonicalJsonValue :=
  match unquote b with
  | Some s => Some (JString (unstr s))
  | None => decode (Countable := JsonCode.json_countable) (JsonCode.number b)
  end.
Definition text_of_json (v : CanonicalJsonValue) : bytes :=
  match v with JString s => quoted (str s) | _ => JsonCode.digits (encode (Countable := JsonCode.json_countable) v) end.

Program Definition user_json : UserJson :=
  {| ser_device := device_text; de_device := device_of_text;
     json_string := quoted; de_key_id := unquote;
     key_id_ok := fun b => bool_decide (x3a ∈ b); key_algorithm := Alias.until_colon;
     de_cross_keys := fun b => Some [b]; de_json := json_of; ser_json := text_of_json;
     ser_to_device := fun ty sender content => quoted (ty ++ x20 :: sender ++ x20 :: content);
     hash_password := Some |}.
Next Obligation. intros []. unfold device_of_text, device_text. by rewrite JsonCode.number_digits, decode_encode. Qed.
Next Obligation. done. Qed.
Next Obligation. intros s _. unfold unquote, quoted. rewrite decide_True by done. cbn [tail]. by rewrite removelast_last. Qed.
#[export] Existing Instance user_json.

Definition alice : bytes := str "@alice:a".
Definition bob : bytes := str "@bob:a".
Definition phone : bytes := str "PHONE".
Definition laptop : bytes := str "LAPTOP".

(** Alice has an account and is in a room without state. *)
Definition quiet_room : bytes := str "!quiet".
Definition start : World :=
  ins userroomid_joined (pair_bytes alice quiet_room) [] (ins userid_password alice (str "hash") (empty_world 10)).

Lemma start_devices : devices start ∅.
Proof.
  assert (forall t, t ∈ [userdeviceid_metadata; userdeviceid_token; token_userdeviceid] -> maps start t = ∅) as Ht.
  { intros t Ht. unfold start. rewrite !maps_ins_ne by set_solver. done. }
  split; rewrite ?Ht by set_solver; setoid_rewrite lookup_empty.
  - by intros x []%is_Some_None.
  - intros. by split; intros []%is_Some_None.
  - by intros k []%is_Some_None.
  - done.
  - intros t k. split; [done|]. by intros (? & ? & _ & ?).
Qed.

Lemma start_count : count_ok 5 start.
Proof. unfold start, count_ok, current. rewrite !globals_ins. by apply empty_world_ok. Qed.

Lemma phone_ok : device_ok alice phone.
Proof. by split; vm_compute. Qed.

(** Alice's phone is logged in. *)
Definition token1 : bytes := str "syt_one".
Definition token2 : bytes := str "syt_two".
Definition logged_in : sessions := {[ (alice, phone) := Some token1 ]}.

Definition home : World := (create_device true 0 alice phone token1 None None start).2.

Lemma home_devices : devices home logged_in.
Proof.
  destruct (create_device_refines true 0 start ∅ alice phone token1 None None) as (w & H & D);
    [apply start_devices|apply phone_ok|by vm_compute|done|].
  unfold home. by rewrite H.
Qed.

Lemma home_user : user_exists alice home = true.
Proof. vm_compute. reflexivity. Qed.
Lemma home_count : count_ok 1 home.
Proof. split; [vm_compute; split; congruence|]. vm_compute. reflexivity. Qed.
Lemma home_rooms : rooms_joined true alice home = Done [quiet_room].
Proof. vm_compute. reflexivity. Qed.
Lemma home_states : maps home roomid_shortstatehash = ∅.
Proof. vm_compute. reflexivity. Qed.
#[local] Opaque home.

Lemma stateless_room r w :
  maps w roomid_shortstatehash = ∅ -> room_encrypted true 4 true empty_store r w = Done false.
Proof.
  intros H. unfold room_encrypted, is_encrypted_room, room_state_get, room_hash, get_room_shortstatehash.
  by rewrite H.
Qed.

Lemma home_known : rooms_known true 4 true empty_store alice home.
Proof.
  exists [quiet_room]. split; [exact home_rooms|]. intros r ->%list_elem_of_singleton. split; [by vm_compute|].
  intros w Hf. exists false. apply stateless_room. rewrite Hf; [exact home_states|]. by apply (bool_decide_unpack _).
Qed.

Lemma unused_token2 : unused token2 logged_in.
Proof. unfold unused, logged_in. intros x Hx. by apply lookup_singleton_Some in Hx as [_ [=]]. Qed.

Lemma login_by_token_witness :
  exists w m w', devices w m /\ m !! (alice, phone) = Some (Some token1) /\
    create_device true 0 alice phone token2 None None w = (Done (), w') /\
    find_from_token true token2 w' = Done (alice, phone) /\
    forall x, find_from_token true token1 w' <> Done x.
Proof.
  destruct (login_by_token true 0 home logged_in alice phone token2 None None) as (w' & H' & _ & Hf & Ho & _);
    [apply home_devices|apply phone_ok|apply home_user|apply unused_token2|].
  exists home, logged_in, w'. split_and!; [apply home_devices|done|exact H'|exact Hf|]. by apply Ho.
Defined.

Lemma deactivated_locked_out_witness :
  exists w m w', devices w m /\ m !! (alice, phone) = Some (Some token1) /\
    deactivate_account true 4 true empty_store alice w = (Done (), w') /\
    (forall t d, find_from_token true t w' <> Done (alice, d)).
Proof.
  destruct (deactivated_locked_out true 4 true empty_store home logged_in alice) as (w' & H' & _ & Hf & _);
    [apply home_devices|apply phone_ok|apply home_count|apply home_known|].
  exists home, logged_in, w'. split_and!; [apply home_devices|done|exact H'|exact Hf].
Defined.

Lemma login_token_once_witness :
  user_id_ok alice = true /\
  exists w1 w2, create_login_token true 120000 1000 alice token1 (empty_world 10) = (Done 120000%Z, w1) /\
    find_from_login_token true 5000 token1 w1 = (Done alice, w2) /\
    find_from_login_token true 5001 token1 w2 = (Fail UnknownToken, w2).
Proof.
  split; [by vm_compute|].
  destruct (login_token_once true 120000 1000 alice token1 (empty_world 10)) as (w1 & H1 & H2); [by vm_compute|].
  destruct (H2 5000%Z) as (w2 & H3 & H4 & _). exists w1, w2. split_and!; [exact H1|exact H3|apply H4].
Defined.

(** ** One-time keys *)

Definition curve_key : bytes := str "signed_curve25519:AAAA".
Definition key_row : World :=
  ins onetimekeyid_onetimekeys (otk_key (alice, phone, curve_key)) (str "{}") (empty_world 10).

Lemma curve_key_ok : otk_ok (alice, phone, curve_key).
Proof. split; [apply phone_ok|]. by vm_compute. Qed.

Lemma no_keys : one_time_keys (empty_world 10) ∅.
Proof. split; [done|]. intros k v. split; [done|]. by intros (? & _ & ?). Qed.

Lemma key_row_keys : one_time_keys key_row {[ (alice, phone, curve_key) := str "{}" ]}.
Proof. eapply otk_insert; [apply no_keys|apply curve_key_ok|done|]. unfold key_row. by world_simpl. Qed.

Lemma one_time_key_claimed_once_witness :
  exists w' id v, take_one_time_key true alice phone (str "signed_curve25519") key_row = (Done (id, v), w') /\
    one_time_keys w' (delete (alice, phone, id) {[ (alice, phone, curve_key) := str "{}" ]}).
Proof.
  destruct (one_time_key_claimed_once true key_row {[ (alice, phone, curve_key) := str "{}" ]} alice phone
    (str "signed_curve25519")) as (w' & [(id & v & _ & _ & H1 & H2)|(Hn & _)]).
  - apply key_row_keys.
  - apply phone_ok.
  - unfold key_row, count_ok, current. rewrite globals_ins. by apply empty_world_ok.
  - exists w', id, v. split; [exact H1|exact H2].
  - destruct (Hn curve_key (str "{}")); [by rewrite lookup_singleton_eq|]. by exists (str "AAAA").
Defined.

(** ** Messages *)

Lemma no_mail : mailbox (empty_world 10) ∅.
Proof. split; [done|]. intros k v. split; [done|]. by intros (? & _ & ?). Qed.

Lemma messages_until_acknowledged_witness :
  exists w1 w2 l, add_to_device_event true bob alice phone (str "m.room_key") (str "{}") (empty_world 10) = (Done (), w1) /\
    remove_to_device_events true alice phone (Some 11%Z) w1 = (Done (), w2) /\
    get_to_device_events true alice phone None None w1 = Done l /\ l <> [].
Proof.
  destruct (messages_until_acknowledged true (empty_world 10) ∅ bob alice phone (str "m.room_key") (str "{}") 11)
    as (w1 & w2 & H1 & H2 & H3); [apply no_mail|apply phone_ok|by apply empty_world_ok|done|by vm_compute|done|].
  destruct (H3 alice phone phone_ok) as [(l & Hl & _ & Hm) _].
  exists w1, w2, l.*2. split_and!; [exact H1|exact H2|exact Hl|]. intros El%fmap_nil_inv. subst l.
  destruct (not_elem_of_nil (11%Z, ser_to_device (str "m.room_key") bob (str "{}"))). apply Hm. by rewrite lookup_insert_eq.
Defined.

(** ** What is not meant *)

Lemma home_no_keys : one_time_keys home ∅.
Proof.
  split; [done|]. intros k v. assert (maps home onetimekeyid_onetimekeys = ∅) as -> by (vm_compute; reflexivity).
  split; [done|]. by intros (? & _ & ?).
Qed.

Definition home_with_key : World := ins onetimekeyid_onetimekeys (otk_key (alice, phone, curve_key)) (str "{}") home.

Lemma keys_outlive_device_witness :
  exists w', remove_device true 4 true empty_store alice phone home_with_key = (Done (), w') /\
    devices w' (delete (alice, phone) logged_in) /\ one_time_keys w' {[ (alice, phone, curve_key) := str "{}" ]}.
Proof.
  apply (keys_outlive_device true 4 true empty_store home_with_key logged_in {[ (alice, phone, curve_key) := str "{}" ]}
    alice phone).
  - eapply devices_frame; [apply home_devices|unfold home_with_key; by world_simpl..].
  - eapply otk_insert; [apply home_no_keys|apply curve_key_ok|done|unfold home_with_key; by world_simpl].
  - apply phone_ok.
  - apply home_count.
  - exists [quiet_room]. split; [exact home_rooms|]. intros r ->%list_elem_of_singleton. split; [by vm_compute|].
    intros w Hf. exists false. apply stateless_room. rewrite Hf; [exact home_states|]. by apply (bool_decide_unpack _).
Defined.

Definition phone2 : bytes := phone ++ str "2".
Definition other_key : World :=
  ins onetimekeyid_onetimekeys (otk_key (alice, phone2, curve_key)) (str "{}") (empty_world 10).

(** The keys of a device are counted together with those of every device whose
    id begins with its id: a phone without keys is told that it has one
    left, the key of another device, and a claim for a key of the phone fails. *)
Theorem keys_counted_by_prefix :
  one_time_keys other_key {[ (alice, phone2, curve_key) := str "{}" ]} /\
  (counts ← count_one_time_keys true alice phone other_key;
   Done (counts !! str "signed_curve25519" : option Z)) = Done (Some 1%Z) /\
  (take_one_time_key true alice phone (str "signed_curve25519") other_key).1 = Fail NoOneTimeKey.
Proof.
  split; [|split; vm_compute; reflexivity].
  eapply otk_insert; [apply no_keys|split; [|by vm_compute]|done|unfold other_key; by world_simpl]. by split; vm_compute.
Qed.

(** A profile field that holds a text reads back with the quotation marks of its
    JSON: the value that was set is not the one that is shown. *)
Theorem profile_text_requoted :
  let w := (set_profile_key true alice (str "m.status") (Some (JString "busy")) (empty_world 10)).2 in
  profile_key true alice (str "m.status") w = Done (JString (unstr (quoted (str "busy")))).
Proof. vm_compute. reflexivity. Qed.

End ToyUsers.
