(* ===== verification/Uiaa.v ===== *)
(** * User-interactive authentication

    Models [src/service/uiaa/mod.rs]: a request that needs more than an access
    token starts a session; the client completes stages of the session (its
    password, a registration token, a dummy stage) until those of one flow
    are complete.

    The sessions are a table of [World]; the request they belong to is kept in
    memory. *)

From stdpp Require Import prelude gmap strings list sorting countable.
From Stdlib Require Import ZArith Lia.
From Stdlib Require Import Strings.Byte.
From S2P Require Import Prelude MachineInt PduCount Matrix DbCodec DbMap CoreUtils Effects Short World AccountData.
From S2P Require Import StateCache Outliers ToyServer Users ToDevice.

(** ** Data of ruma *)

Inductive AuthType := PasswordStage | RegistrationTokenStage | DummyStage | OtherStage (name : bytes).
#[export] Instance AuthType_eq_dec : EqDecision AuthType.
Proof. solve_decision. Defined.

Record UiaaInfo := MkUiaa {
  flows : list (list AuthType);      (** the stages of each flow *)
  completed : list AuthType;
  params : bytes;
  session : option bytes;
  auth_error : option bytes }.       (** the message of the [StandardErrorBody] *)

Definition set_session (s : bytes) (i : UiaaInfo) : UiaaInfo :=
  MkUiaa (flows i) (completed i) (params i) (Some s) (auth_error i).
Definition complete (t : AuthType) (i : UiaaInfo) : UiaaInfo :=
  MkUiaa (flows i) (completed i ++ [t]) (params i) (session i) (auth_error i).
Definition set_error (e : bytes) (i : UiaaInfo) : UiaaInfo :=
  MkUiaa (flows i) (completed i) (params i) (session i) (Some e).

(** [AuthData]; [identifier] is the [UserIdOrLocalpart] of a password, [user] its old form. *)
Inductive AuthData :=
| AuthPassword (identifier user : option bytes) (password : bytes) (s : option bytes)
| AuthToken (token : bytes) (s : option bytes)
| AuthDummy (s : option bytes)
| AuthOther (s : option bytes).

Definition auth_session (a : AuthData) : option bytes :=
  match a with AuthPassword _ _ _ s | AuthToken _ s | AuthDummy s | AuthOther s => s end.

Class UiaaRuma := {
  ser_uiaa : UiaaInfo -> bytes;
  de_uiaa : bytes -> option UiaaInfo;
  de_ser_uiaa : forall i, de_uiaa (ser_uiaa i) = Some i;
  ser_uiaa_utf8 : forall i, utf8_valid (ser_uiaa i) = true;
  (** [UserId::parse_with_server_name] and [localpart] *)
  parse_with_server_name : bytes -> bytes -> option bytes;
  localpart : bytes -> bytes;
  verify_password : bytes -> bytes -> bool }.      (** [argon2] *)

Inductive UiaaError := NoSession | BadIdentifier | BadUserId | WrongUser | UiaaCodec (e : CodecError).

(** ** Text *)

(** [str::split_ascii_whitespace] *)
Definition ascii_space (b : byte) : bool :=
  bool_decide (b ∈ [x09; x0a; x0c; x0d; x20]).
Fixpoint split_space (word : bytes) (b : bytes) : list bytes :=
  match b with
  | [] => if decide (word = []) then [] else [word]
  | x :: b =>
      if ascii_space x then (if decide (word = []) then [] else [word]) ++ split_space [] b
      else split_space (word ++ [x]) b
  end.
Definition split_ascii_whitespace (b : bytes) : list bytes := split_space [] b.

(** [str::trim]: the characters with the property White_Space, in UTF-8. *)
Definition white_space : list bytes :=
  [[x09]; [x0a]; [x0b]; [x0c]; [x0d]; [x20]; [xc2; x85]; [xc2; xa0]; [xe1; x9a; x80];
   [xe2; x80; x80]; [xe2; x80; x81]; [xe2; x80; x82]; [xe2; x80; x83]; [xe2; x80; x84]; [xe2; x80; x85]; [xe2; x80; x86];
   [xe2; x80; x87]; [xe2; x80; x88]; [xe2; x80; x89]; [xe2; x80; x8a]; [xe2; x80; xa8]; [xe2; x80; xa9]; [xe2; x80; xaf];
   [xe2; x81; x9f]; [xe3; x80; x80]].

(** Each round removes one character at least. *)
Fixpoint trim_by (ws : list bytes) (rounds : nat) (b : bytes) : bytes :=
  match rounds with
  | 0 => b
  | S rounds =>
      match filter (fun c => c `prefix_of` b) ws with
      | c :: _ => trim_by ws rounds (drop (length c) b)
      | [] => b
      end
  end.
Definition trim_start (b : bytes) : bytes := trim_by white_space (length b) b.
Definition trim_end (b : bytes) : bytes := reverse (trim_by (reverse <$> white_space) (length b) (reverse b)).
Definition trim (b : bytes) : bytes := trim_end (trim_start b).

(** ** The service *)

Abbreviation session_key := (bytes * bytes * bytes)%type.

Record Uiaa := MkUiaaState {
  tables : World;
  userdevicesessionid_uiaarequest : gmap session_key CanonicalJsonValue }.

(** What the configuration says: the text of [registration_token_file], if it
    can be read, and [registration_token]; [element_hacks] is a feature of the build. *)
Record UiaaConfig := MkUiaaConfig {
  own_server : bytes;
  token_file : option bytes;
  registration_token : option bytes;
  element_hacks : bool }.

Section uiaa.
Context (debug : bool) {E : Engine} {I : Ids} {UR : UiaaRuma} (config : UiaaConfig).

Abbreviation uia := (eff Uiaa UiaaError).

Definition read_tokens : list bytes :=
  from_option split_ascii_whitespace [] (token_file config) ++ option_list (registration_token config).

Definition uiaa_key (user_id device_id s : bytes) : value := VTuple [VStr user_id; VStr device_id; VStr s].

Definition on_tables (f : World -> outcome CodecError World) : uia () := fun u =>
  match f (tables u) with
  | Done w => (Done (), MkUiaaState w (userdevicesessionid_uiaarequest u))
  | Fail e => (Fail (UiaaCodec e), u)
  | Panic => (Panic, u)
  | OutOfFuel => (OutOfFuel, u)
  end.

Definition update_uiaa_session (user_id device_id s : bytes) (uiaainfo : option UiaaInfo) : uia () :=
  match uiaainfo with
  | Some i => on_tables (upd userdevicesessionid_uiaainfo (fun t => put debug t (uiaa_key user_id device_id s) (VJson (ser_uiaa i))))
  | None => on_tables (upd userdevicesessionid_uiaainfo (fun t => del debug t (uiaa_key user_id device_id s)))
  end.

Definition get_uiaa_session (user_id device_id s : bytes) : uia UiaaInfo := fun u =>
  match v ← deserialized debug TJson (qry debug (maps (tables u) userdevicesessionid_uiaainfo) (uiaa_key user_id device_id s));
        match v with VJson t => ok_or (DeError (SerdeDe "json")) (de_uiaa t) | _ => Panic end with
  | Done i => (Done i, u)
  | Fail _ => (Fail NoSession, u)
  | Panic => (Panic, u)
  | OutOfFuel => (OutOfFuel, u)
  end.

Definition set_uiaa_request (user_id device_id s : bytes) (request : CanonicalJsonValue) : uia () :=
  modify (fun u => MkUiaaState (tables u) (<[(user_id, device_id, s) := request]> (userdevicesessionid_uiaarequest u))).

Definition get_uiaa_request (user_id : bytes) (device_id : option bytes) (s : bytes) (u : Uiaa) : option CanonicalJsonValue :=
  userdevicesessionid_uiaarequest u !! (user_id, default [] device_id, s).

Definition create_session (user_id device_id : bytes) (uiaainfo : UiaaInfo) (json_body : CanonicalJsonValue) : uia () :=
  s ← lift_eff (expect (session uiaainfo));
  _ ← set_uiaa_request user_id device_id s json_body;
  update_uiaa_session user_id device_id s (Some uiaainfo).

(** Whether the stages of some flow are all complete. *)
Definition flow_done (i : UiaaInfo) : bool :=
  existsb (forallb (fun stage => bool_decide (stage ∈ completed i))) (flows i).

(** The user name of a password. *)
Definition username_of (identifier user : option bytes) : option bytes :=
  match identifier with
  | Some n => Some n
  | None => if element_hacks config then user else None
  end.

(** The end of [try_auth]: the session is updated or removed. *)
Definition finish_auth (user_id device_id : bytes) (i : UiaaInfo) : uia (bool * UiaaInfo) :=
  s ← lift_eff (expect (session i));
  if flow_done i then _ ← update_uiaa_session user_id device_id s None; mret (true, i)
  else _ ← update_uiaa_session user_id device_id s (Some i); mret (false, i).

(** [if let Ok(hash) = password_hash(…)] *)
Definition password_refused (user_id password : bytes) (u : Uiaa) : outcome UiaaError bool :=
  match password_hash debug user_id (tables u) with
  | Done hash => Done (negb (verify_password password hash))
  | Fail _ => Done false
  | Panic => Panic
  | OutOfFuel => OutOfFuel
  end.

Definition try_password (user_id device_id : bytes) (identifier user : option bytes) (password : bytes) (i : UiaaInfo)
    : uia (bool * UiaaInfo) :=
  username ← lift_eff (ok_or BadIdentifier (username_of identifier user));
  named ← lift_eff (ok_or BadUserId (parse_with_server_name username (own_server config)));
  if decide (localpart user_id <> localpart named) then throw WrongUser else
  refused ← (fun u => (password_refused named password u, u));
  if refused : bool then mret (false, set_error (str "Invalid username or password.") i)
  else finish_auth user_id device_id (complete PasswordStage i).

Definition try_auth (random : bytes) (user_id device_id : bytes) (auth : AuthData) (uiaainfo : UiaaInfo)
    : uia (bool * UiaaInfo) :=
  i ← (match auth_session auth with
       | Some s => get_uiaa_session user_id device_id s
       | None => mret uiaainfo
       end);
  let i := match session i with None => set_session random i | Some _ => i end in
  match auth with
  | AuthPassword identifier user password _ => try_password user_id device_id identifier user password i
  | AuthToken token _ =>
      if decide (trim token ∈ read_tokens) then finish_auth user_id device_id (complete RegistrationTokenStage i)
      else mret (false, set_error (str "Invalid registration token.") i)
  | AuthDummy _ => finish_auth user_id device_id (complete DummyStage i)
  | AuthOther _ => finish_auth user_id device_id i
  end.

End uiaa.

(** ** The sessions in the table *)

Section sessions.
Context (debug : bool) {E : Engine} {I : Ids} {UR : UiaaRuma} (config : UiaaConfig).
Abbreviation infos := (gmap session_key UiaaInfo).
Implicit Types (x y : session_key) (i : UiaaInfo) (M : infos).

Definition skey_ok x : Prop := device_ok x.1.1 x.1.2 /\ utf8_valid x.2 = true.
Definition skey x : bytes := one_time_key_prefix x.1.1 x.1.2 ++ x.2.

Record open_sessions (w : World) M : Prop := {
  ses_all : forall x i, M !! x = Some i -> skey_ok x /\ session i = Some x.2;
  ses_rows : forall k t, maps w userdevicesessionid_uiaainfo !! k = Some t <->
    exists x i, k = skey x /\ t = ser_uiaa i /\ M !! x = Some i }.

Lemma skey_inj x y : skey_ok x -> skey_ok y -> skey x = skey y -> x = y.
Proof.
  destruct x as [[u d] s], y as [[u' d'] s']. intros [Ho _] [Ho' _] Ek. unfold skey in Ek. cbn [fst snd] in *.
  by apply otk_split in Ek as (-> & -> & ->).
Qed.

Lemma skey_ser u d s : skey_ok (u, d, s) -> serialize_key debug (uiaa_key u d s) = Done (skey (u, d, s)).
Proof.
  intros [[Hu%user_id_utf8 Hd] Hs]. unfold serialize_key, uiaa_key.
  rewrite (serialize_fields debug [TStr; TStr; TStr]) by by repeat constructor.
  unfold skey, one_time_key_prefix. cbn. by norm_app.
Qed.

Lemma get_session_spec st M u d s :
  open_sessions (tables st) M -> skey_ok (u, d, s) ->
  get_uiaa_session debug u d s st = (from_option Done (Fail NoSession) (M !! (u, d, s)), st).
Proof.
  intros [HA HR] Ho. unfold get_uiaa_session, qry, bqry.
  change (buffer_serialize debug None ?v) with (serialize_key debug v). rewrite skey_ser by done.
  cbn [mbind outcome_bind lift_de]. unfold get.
  destruct (maps _ _ !! skey (u, d, s)) as [t|] eqn:Hk; cbn [ok_or deserialized mbind outcome_bind].
  - apply HR in Hk as (x & i & Ek & -> & Hx). apply skey_inj in Ek as <-; [|done|by eapply HA].
    rewrite Hx. unfold deserialized. cbn [mbind outcome_bind].
    rewrite from_slice_json by apply ser_uiaa_utf8. cbn [lift_de mbind outcome_bind].
    by rewrite de_ser_uiaa.
  - destruct (M !! (u, d, s)) as [i|] eqn:Hx; [|done].
    rewrite (proj2 (HR (skey (u, d, s)) (ser_uiaa i))) in Hk; [done|]. by eauto.
Qed.

Lemma put_session_spec st M u d s i :
  open_sessions (tables st) M -> skey_ok (u, d, s) -> session i = Some s ->
  exists st', update_uiaa_session debug u d s (Some i) st = (Done (), st') /\
    open_sessions (tables st') (<[(u, d, s) := i]> M).
Proof.
  intros [HA HR] Ho Hs. unfold update_uiaa_session, on_tables, put, bput.
  assert (forall text, buffer_serialize debug None (VJson text) = Done text) as -> by by destruct debug.
  cbn [mbind outcome_bind]. change (bput_raw debug None) with (put_raw debug).
  erewrite upd_put_raw by by apply skey_ser. eexists. split; [done|]. cbn [tables]. split.
  - intros y i' [[<- <-]|[_ Hy]]%lookup_insert_Some; [done|by apply HA].
  - intros k t. world_simpl. rewrite lookup_insert_Some, HR. split.
    + intros [[<- <-]|(Hne & y & i' & -> & -> & Hy)].
      * eexists (u, d, s), i. by rewrite lookup_insert_eq.
      * exists y, i'. split_and!; [done..|]. rewrite lookup_insert_ne; [done|]. by intros <-.
    + intros (y & i' & -> & -> & [[<- <-]|[Hne Hy]]%lookup_insert_Some); [by left|right].
      split; [|by eauto]. intros Ek%skey_inj; [done..|by apply (HA y i')].
Qed.

Lemma drop_session_spec st M u d s :
  open_sessions (tables st) M -> skey_ok (u, d, s) ->
  exists st', update_uiaa_session debug u d s None st = (Done (), st') /\
    open_sessions (tables st') (delete (u, d, s) M).
Proof.
  intros [HA HR] Ho. unfold update_uiaa_session, on_tables.
  erewrite upd_del by by apply skey_ser. eexists. split; [done|]. cbn [tables]. split.
  - intros y i' [_ Hy]%lookup_delete_Some. by apply HA.
  - intros k t. world_simpl. rewrite lookup_delete_Some, HR. split.
    + intros (Hne & y & i' & -> & -> & Hy). exists y, i'. split_and!; [done..|].
      apply lookup_delete_Some. split; [|done]. by intros <-.
    + intros (y & i' & -> & -> & [Hne Hy]%lookup_delete_Some). split; [|by eauto].
      intros Ek%skey_inj; [done..|by apply (HA y i')].
Qed.

Lemma finish_auth_spec st M u d s i :
  open_sessions (tables st) M -> skey_ok (u, d, s) -> session i = Some s ->
  exists st', finish_auth debug u d i st = (Done (flow_done i, i), st') /\
    open_sessions (tables st') (if flow_done i then delete (u, d, s) M else <[(u, d, s) := i]> M).
Proof.
  intros HM Ho Hs. unfold finish_auth. rewrite Hs. cbn [expect]. erewrite eff_step by done.
  destruct (flow_done i).
  - destruct (drop_session_spec st M u d s HM Ho) as (st' & H' & HM'). exists st'. by runs H'.
  - destruct (put_session_spec st M u d s i HM Ho Hs) as (st' & H' & HM'). exists st'. by runs H'.
Qed.

End sessions.

(** ** What was proved in a session

    The history of the sessions: the flows each was opened with, the stages
    that were proved in it, and the sessions in which the password stage was
    passed although the account that was named has no password to compare
    with. *)

Record History := MkHistory {
  opened : list (session_key * list (list AuthType));
  earned : list (session_key * AuthType);
  unasked : list session_key }.

Section history.
Context (debug : bool) {E : Engine} {I : Ids} {UR : UiaaRuma} (config : UiaaConfig).
Implicit Types (st : Uiaa) (h : History).

(** The account that the data name, if it has the local part of the user. *)
Definition named_account (user_id : bytes) (auth : AuthData) : option bytes :=
  match auth with
  | AuthPassword identifier user _ _ =>
      n ← username_of config identifier user;
      named ← parse_with_server_name n (own_server config);
      if decide (localpart user_id = localpart named) then Some named else None
  | _ => None
  end.

(** The stage that the given data prove: a password does so only if it matches the
    stored hash. *)
Definition proves (user_id : bytes) (auth : AuthData) st : option AuthType :=
  match auth with
  | AuthPassword _ _ password _ =>
      named ← named_account user_id auth;
      match password_hash debug named (tables st) with
      | Done hash => if verify_password password hash then Some PasswordStage else None
      | _ => None
      end
  | AuthToken token _ => if decide (trim token ∈ read_tokens config) then Some RegistrationTokenStage else None
  | AuthDummy _ => Some DummyStage
  | AuthOther _ => None
  end.

(** The account that was named has no stored password. *)
Definition no_password (user_id : bytes) (auth : AuthData) st : bool :=
  match named_account user_id auth with
  | Some named => match password_hash debug named (tables st) with Fail _ => true | _ => false end
  | None => false
  end.

Definition with_create (u d s : bytes) (i : UiaaInfo) h : History := 
  MkHistory ((u, d, s, flows i) :: opened h) (earned h) (unasked h).
Definition with_auth (random u d : bytes) (a : AuthData) (i : UiaaInfo) st h : History :=
  let x := (u, d, default random (auth_session a)) in
  MkHistory (match auth_session a with None => (x, flows i) :: opened h | Some _ => opened h end)
    (from_option (fun t => (x, t) :: earned h) (earned h) (proves u a st))
    (if no_password u a st then x :: unasked h else unasked h).

(** The template a request handler passes: nothing complete, no session yet. *)
Definition template (i : UiaaInfo) : Prop := completed i = [] /\ session i = None.

Inductive reachable : Uiaa -> History -> Prop :=
| reach_start st : maps (tables st) userdevicesessionid_uiaainfo = ∅ -> reachable st (MkHistory [] [] [])
| reach_create st h st' u d s i body r :
    reachable st h -> skey_ok (u, d, s) -> template i ->
    create_session debug u d (set_session s i) body st = (r, st') -> reachable st' (with_create u d s i h)
| reach_auth st h st' random u d a i r :
    reachable st h -> skey_ok (u, d, default random (auth_session a)) -> template i ->
    try_auth debug config random u d a i st = (r, st') -> reachable st' (with_auth random u d a i st h)
| reach_other st h w :
    reachable st h -> maps w userdevicesessionid_uiaainfo = maps (tables st) userdevicesessionid_uiaainfo ->
    reachable (MkUiaaState w (userdevicesessionid_uiaarequest st)) h.

(** A stage was proved in the session, or it is the password that was not asked for. *)
Definition stage_passed h (x : session_key) (t : AuthType) : Prop :=
  (x, t) ∈ earned h \/ (t = PasswordStage /\ x ∈ unasked h).

(** Every open session has the flows it was opened with and only stages passed in it. *)
Definition honest h (x : session_key) (i : UiaaInfo) : Prop :=
  (x, flows i) ∈ opened h /\ forall t, t ∈ completed i -> stage_passed h x t.

Definition extends h h' : Prop := opened h ⊆ opened h' /\ earned h ⊆ earned h' /\ unasked h ⊆ unasked h'.

Definition session_inv st h : Prop :=
  exists M, open_sessions (tables st) M /\ forall x i, M !! x = Some i -> honest h x i.

Lemma honest_grows h h' x i :
  extends h h' -> honest h x i -> honest h' x i.
Proof. intros (Ho & He & Hu) [H1 H2]. split; [by apply Ho|]. intros t Ht. destruct (H2 t Ht) as [?|[-> ?]]; [left|right]; auto. Qed.

Lemma with_auth_grows random u d a i st h :
  extends h (with_auth random u d a i st h).
Proof. unfold with_auth, extends. cbn. destruct (auth_session a), (proves u a st), (no_password u a st); cbn; set_solver. Qed.

Lemma session_inv_frame st st' h h' M :
  open_sessions (tables st') M -> (forall x i, M !! x = Some i -> honest h x i) ->
  extends h h' -> session_inv st' h'.
Proof. intros HM Hh He. exists M. split; [done|]. intros x i Hx. eapply honest_grows; eauto. Qed.

Lemma honest_complete h x i t : honest h x i -> stage_passed h x t -> honest h x (complete t i).
Proof. intros [H1 H2] Ht. split; [done|]. cbn. intros t' [Ht'|Ht'%list_elem_of_singleton]%elem_of_app; [auto|by subst]. Qed.

(** An attempt leaves the sessions alone and does not succeed, or ends with a
    session whose stages were proved. *)
Definition attempt_ends st h (x : session_key) (r : outcome UiaaError (bool * UiaaInfo)) st' : Prop :=
  (st' = st /\ forall i, r <> Done (true, i)) \/
  exists i, honest h x i /\ session i = Some x.2 /\ finish_auth debug x.1.1 x.1.2 i st = (r, st').

(** What the data pass in the given state. *)
Definition passes (user_id : bytes) (auth : AuthData) st (t : AuthType) : Prop :=
  proves user_id auth st = Some t \/ (t = PasswordStage /\ no_password user_id auth st = true).

Lemma stages_proved u d a s i st h :
  (forall t, passes u a st t -> stage_passed h (u, d, s) t) -> honest h (u, d, s) i -> session i = Some s ->
  forall r st', (match a with
  | AuthPassword identifier user password _ => try_password debug config u d identifier user password i
  | AuthToken token _ =>
      if decide (trim token ∈ read_tokens config) then finish_auth debug u d (complete RegistrationTokenStage i)
      else mret (false, set_error (str "Invalid registration token.") i)
  | AuthDummy _ => finish_auth debug u d (complete DummyStage i)
  | AuthOther _ => finish_auth debug u d i
  end) st = (r, st') -> attempt_ends st h (u, d, s) r st'.
Proof.
  intros Hp Hi Hs r st' H.
  assert (forall t, passes u a st t -> finish_auth debug u d (complete t i) st = (r, st') ->
    attempt_ends st h (u, d, s) r st') as Hdone.
  { intros t Ht Hf. right. exists (complete t i). split; [by apply honest_complete, Hp|done]. }
  destruct a as [identifier user password s'|token s'|s'|s']; unfold passes, no_password, named_account in Hdone; cbn [proves named_account] in Hdone.
  - unfold try_password, mbind, eff_bind, lift_eff, throw, mret, eff_ret in H.
    destruct (username_of config identifier user) as [n|]; cbn in *; [|left; by simplify_eq/=].
    destruct (parse_with_server_name n (own_server config)) as [named|]; cbn in *; [|left; by simplify_eq/=].
    destruct (decide (localpart u = localpart named)) as [He|He]; [rewrite decide_False in H by by intros ?|rewrite decide_True in H by done; left; by simplify_eq/=].
    unfold password_refused in H. cbn in Hdone.
    destruct (password_hash debug named (tables st)) as [hash| | |]; cbn in *; [|by eapply Hdone; eauto|left; by simplify_eq/=..].
    destruct (verify_password password hash); cbn in *; [by eapply Hdone; eauto|left; by simplify_eq/=].
  - destruct (decide (trim token ∈ read_tokens config)); [by eapply Hdone; eauto|left]. unfold mret, eff_ret in H. by simplify_eq.
  - by eapply Hdone; eauto.
  - right. by exists i.
Qed.

Lemma try_auth_ends st M h random u d a i r st' :
  open_sessions (tables st) M -> (forall x j, M !! x = Some j -> honest h x j) ->
  skey_ok (u, d, default random (auth_session a)) -> template i ->
  try_auth debug config random u d a i st = (r, st') ->
  attempt_ends st (with_auth random u d a i st h) (u, d, default random (auth_session a)) r st'.
Proof.
  intros HM Hh Ho [Hc Hn] H. set (h' := with_auth random u d a i st h). unfold try_auth in H.
  assert (forall t, passes u a st t -> stage_passed h' (u, d, default random (auth_session a)) t) as Hp.
  { unfold stage_passed, h', with_auth. cbn. intros t [->|[-> ->]]; [left; left|right; split; [done|left]]. }
  destruct (auth_session a) as [s|] eqn:Hs; cbn [default] in *.
  - destruct (M !! (u, d, s)) as [j|] eqn:Hj.
    + erewrite eff_step in H by (rewrite (get_session_spec debug st M) by done; by rewrite Hj).
      destruct (ses_all _ _ HM _ _ Hj) as [_ Hjs]. cbn [snd] in Hjs. rewrite Hjs in H.
      eapply stages_proved; [exact Hp| |done|exact H]. eapply honest_grows; [apply with_auth_grows|by apply Hh].
    + unfold mbind, eff_bind in H. rewrite (get_session_spec debug st M), Hj in H by done. cbn in H. left. by simplify_eq.
  - erewrite eff_step in H by done. rewrite Hn in H. eapply stages_proved; [exact Hp| | |exact H]; [|done].
    split; [|cbn; rewrite Hc; set_solver]. unfold h', with_auth. rewrite Hs. left.
Qed.

Lemma attempt_inv st M h x r st' :
  open_sessions (tables st) M -> (forall y j, M !! y = Some j -> honest h y j) -> skey_ok x ->
  attempt_ends st h x r st' -> session_inv st' h.
Proof.
  intros HM Hh Ho [[-> _]|(i & Hi & Hs & Hf)]; [by exists M|]. destruct x as [[u d] s]. cbn [fst snd] in *.
  destruct (finish_auth_spec debug st M u d s i HM Ho Hs) as (st2 & Hf2 & HM2). rewrite Hf2 in Hf. injection Hf as _ <-.
  eexists. split; [exact HM2|]. intros y j. destruct (flow_done i).
  - intros [_ Hy]%lookup_delete_Some. by apply Hh.
  - intros [[<- <-]|[_ Hy]]%lookup_insert_Some; [done|by apply Hh].
Qed.

Lemma uiaa_reachable_inv st h : reachable st h -> session_inv st h.
Proof.
  induction 1 as [st Hst|st h st' u d s i body r _ (M & HM & Hh) Ho [Hc Hn] Hcr
                 |st h st' random u d a i r _ (M & HM & Hh) Ho Ht Ha|st h w _ (M & HM & Hh) Hw].
  - exists ∅. split; [|done]. split; [done|]. intros k t. rewrite Hst. split; [done|]. by intros (? & ? & _ & _ & ?).
  - unfold create_session in Hcr. erewrite eff_step in Hcr by done. erewrite eff_step in Hcr by done.
    match type of Hcr with update_uiaa_session _ _ _ _ _ ?st1 = _ => destruct (put_session_spec debug st1 M u d s (set_session s i))
      as (st2 & H2 & HM2); [exact HM|done|done|] end.
    rewrite H2 in Hcr. injection Hcr as _ <-. eexists. split; [exact HM2|].
    intros y j [[<- <-]|[_ Hy]]%lookup_insert_Some.
    + split; [left|]. cbn. rewrite Hc. set_solver.
    + eapply honest_grows; [|by apply Hh]. unfold extends. cbn. set_solver.
  - eapply attempt_inv; [exact HM| |exact Ho|by eapply try_auth_ends].
    intros y j Hy. eapply honest_grows; [apply with_auth_grows|by apply Hh].
  - exists M. split; [|done]. destruct HM as [HA HR]. split; [done|]. cbn [tables]. by rewrite Hw.
Qed.

(** C36. Whatever the order of requests, in a session in which no account without a
    stored password was named, an attempt succeeds only if every stage of
    one of the flows that the session was opened with has been proved in
    that session, by that user and device: the password stage by a password that
    matches the stored hash of an account with the local part of the user. The
    session is gone afterwards. *)
Theorem success_is_earned st h random u d a i j st' :
  reachable st h -> skey_ok (u, d, default random (auth_session a)) -> template i ->
  try_auth debug config random u d a i st = (Done (true, j), st') ->
  let s := default random (auth_session a) in
  let h' := with_auth random u d a i st h in
  (u, d, s) ∉ unasked h' ->
  (u, d, s, flows j) ∈ opened h' /\
  (exists flow, flow ∈ flows j /\ forall stage, stage ∈ flow -> (u, d, s, stage) ∈ earned h') /\
  get_uiaa_session debug u d s st' = (Fail NoSession, st').
Proof.
  intros (M & HM & Hh)%uiaa_reachable_inv Ho Ht H s h' Hu.
  apply (try_auth_ends st M h) in H; [|done..]. destruct H as [[_ H]|(j' & [Hf Hc] & Hs & H)]; [by destruct (H j)|].
  destruct (finish_auth_spec debug st M u d s j' HM Ho Hs) as (st2 & Hf2 & HM2). cbn [fst snd] in H. rewrite Hf2 in H.
  injection H as Hd -> <-. split; [done|]. rewrite Hd in HM2. split.
  - apply existsb_exists in Hd as (flow & Hin & Hall). exists flow. split; [by apply list_elem_of_In|].
    intros stage Hst. rewrite forallb_forall in Hall. destruct (Hc stage) as [?|[_ ?]]; [|done..].
    eapply bool_decide_eq_true, Hall. by apply list_elem_of_In.
  - erewrite get_session_spec by done. by rewrite lookup_delete_eq.
Qed.

(** The password of an account that has none is not asked for: naming an account
    of another server with the same local part completes the password stage
    with any password. *)
Theorem password_of_stranger_passes st M random u d name named password i :
  open_sessions (tables st) M -> skey_ok (u, d, random) -> template i -> [PasswordStage] ∈ flows i ->
  parse_with_server_name name (own_server config) = Some named -> localpart u = localpart named ->
  maps (tables st) userid_password !! named = None ->
  exists j st', try_auth debug config random u d (AuthPassword (Some name) None password None) i st = (Done (true, j), st').
Proof.
  intros HM Ho [Hc Hn] Hf Hp Hl Hnone. unfold try_auth. erewrite eff_step by done. rewrite Hn. unfold try_password.
  erewrite eff_step by done. erewrite eff_step by (unfold lift_eff; by rewrite Hp). rewrite decide_False by auto.
  assert (password_refused debug named password st = Done false) as Hr.
  { unfold password_refused, password_hash, text_row, deserialized, get. by rewrite Hnone. }
  erewrite eff_step by by rewrite Hr. cbn beta iota.
  destruct (finish_auth_spec debug st M u d random (complete PasswordStage (set_session random i))) as (st' & H' & _); [done..|].
  rewrite H'. assert (flow_done (complete PasswordStage (set_session random i)) = true) as ->; [|by eauto].
  apply existsb_exists. exists [PasswordStage]. split; [by apply list_elem_of_In|]. cbn. rewrite Hc.
  by rewrite bool_decide_true by set_solver.
Qed.

End history.

(** ** A concrete session *)

Module ToyUiaa.
#[local] Existing Instance list_engine.
#[local] Existing Instance toy_ids.

Definition stage_code (t : AuthType) : nat * bytes :=
  match t with PasswordStage => (0, []) | RegistrationTokenStage => (1, []) | DummyStage => (2, []) | OtherStage n => (3, n) end.
Definition stage_of (c : nat * bytes) : AuthType :=
  match c.1 with 0 => PasswordStage | 1 => RegistrationTokenStage | 2 => DummyStage | _ => OtherStage c.2 end.
#[export] Instance stage_countable : Countable AuthType.
Proof. apply (inj_countable' stage_code stage_of). by intros []. Defined.

Definition info_text (i : UiaaInfo) : bytes :=
  JsonCode.digits (encode (flows i, completed i, params i, session i, auth_error i)).
Definition info_of (b : bytes) : option UiaaInfo :=
  '(f, c, p, s, e) ← decode (A := list (list AuthType) * list AuthType * bytes * option bytes * option bytes) (JsonCode.number b);
  Some (MkUiaa f c p s e).

Lemma digits_utf8 p : utf8_valid (JsonCode.digits p) = true.
Proof. induction p as [p IH|p IH|]; cbn; done. Qed.

Program Definition uiaa_ruma : UiaaRuma :=
  {| ser_uiaa := info_text; de_uiaa := info_of;
     parse_with_server_name := fun n s => if decide (head n = Some x40) then Some n else Some (x40 :: n ++ x3a :: s);
     localpart := fun u => Alias.until_colon (tail u);
     verify_password := fun p h => bool_decide (p = h) |}.
Next Obligation. intros []. unfold info_of, info_text. by rewrite JsonCode.number_digits, decode_encode. Qed.
Next Obligation. intros i. apply digits_utf8. Qed.
#[local] Existing Instance uiaa_ruma.

Definition config : UiaaConfig := MkUiaaConfig (str "a") None (Some (str "secret")) true.
Definition alice : bytes := str "@alice:a".
Definition phone : bytes := str "PHONE".
Definition session1 : bytes := str "one".

Definition needs_password : UiaaInfo := MkUiaa [[PasswordStage]] [] [] None None.
Definition needs_both : UiaaInfo := MkUiaa [[RegistrationTokenStage; PasswordStage]] [] [] None None.

Definition start : Uiaa := MkUiaaState (ins userid_password alice (str "right") (empty_world 10)) ∅.

Lemma start_none : maps (tables start) userdevicesessionid_uiaainfo = ∅.
Proof. done. Qed.
Lemma start_sessions : open_sessions (tables start) ∅.
Proof. split; [done|]. intros k t. rewrite start_none. split; [done|]. by intros (? & ? & _ & _ & ?). Qed.
Lemma key_ok : skey_ok (alice, phone, session1).
Proof. by split; [split|]; vm_compute. Qed.

Abbreviation auth := (try_auth true config session1 alice phone).

(** The registration token first, then the password in the same session. *)
Definition right_password : AuthData := AuthPassword (Some (str "alice")) None (str "right") (Some session1).
Definition half : Uiaa := (auth (AuthToken (str " secret ") None) needs_both start).2.
Definition finished : outcome UiaaError (bool * UiaaInfo) * Uiaa := auth right_password needs_both half.

Lemma half_reachable :
  reachable true config half (with_auth true config session1 alice phone (AuthToken (str " secret ") None) needs_both start (MkHistory [] [] [])).
Proof.
  eapply (reach_auth true config start); [by apply reach_start|apply key_ok|done|].
  apply surjective_pairing.
Qed.

Lemma finished_done :
  finished.1 = Done (true, MkUiaa [[RegistrationTokenStage; PasswordStage]] [RegistrationTokenStage; PasswordStage] [] (Some session1) None).
Proof. vm_compute. reflexivity. Qed.

Lemma success_is_earned_witness :
  exists st h st' j, reachable true config st h /\
    auth right_password needs_both st = (Done (true, j), st') /\
    exists flow, flow ∈ flows j /\ forall stage, stage ∈ flow ->
      (alice, phone, session1, stage) ∈ earned (with_auth true config session1 alice phone right_password needs_both st h).
Proof.
  assert (exists j st', auth right_password needs_both half = (Done (true, j), st')) as (j & st' & H).
  { pose proof finished_done as H. unfold finished in H. destruct (auth _ _ half) as [r st']. cbn in H. subst r. by eauto. }
  destruct (success_is_earned true config _ _ session1 alice phone right_password needs_both j st' half_reachable)
    as (_ & Hf & _); [apply key_ok|done|exact H|by apply (bool_decide_unpack _); vm_compute|].
  eexists half, _, st', j. split; [apply half_reachable|]. split; [exact H|]. exact Hf.
Defined.

Lemma password_of_stranger_passes_witness :
  maps (tables start) userid_password !! alice = Some (str "right") /\
  exists j st', auth (AuthPassword (Some (str "@alice:elsewhere")) None (str "wrong") None) needs_password start = (Done (true, j), st').
Proof.
  split; [by vm_compute|].
  apply (password_of_stranger_passes true config start ∅ session1 alice phone (str "@alice:elsewhere") (str "@alice:elsewhere"));
    [apply start_sessions|apply key_ok|done|left|done|by vm_compute|by vm_compute].
Defined.

End ToyUiaa.
