(* ===== verification/KeyBackups.v ===== *)
(** * Key backups and transaction ids

    Models [src/service/key_backups/mod.rs], the versions of a user's backup of room
    keys with the keys in each, and [src/service/transaction_ids/mod.rs], the
    answers to requests that a client may repeat. *)

From stdpp Require Import prelude gmap strings list sorting pretty.
From Stdlib Require Import ZArith Lia.
From Stdlib Require Import Strings.Byte.
From S2P Require Import Prelude MachineInt PduCount Matrix DbCodec DbMap CoreUtils Effects Short World AccountData.
From S2P Require Import StateCache StateAccessor Users ToDevice.

Section key_backups.
Context (debug : bool) {E : Engine} {I : Ids} {JT : JsonText}.

Abbreviation usr := (eff World UserError).

(** [u64::to_string] *)
Definition u64_to_string (n : Z) : bytes := str (pretty (Z.to_N n)).

(** ** Versions *)

Definition put_etag (user_id version : bytes) (count : Z) : usr () :=
  change (upd backupid_etag (fun t => put debug t (pair_key user_id version) (VU64 count))).

Definition create_backup (user_id backup_metadata : bytes) : usr bytes :=
  version ← number debug;
  let version := u64_to_string version in
  count ← number debug;
  _ ← change (upd backupid_algorithm (fun t => put debug t (pair_key user_id version) (VJson backup_metadata)));
  _ ← put_etag user_id version count;
  mret version.

Definition remove_keys (prefix : value) : usr () :=
  ks ← scan (fun w => keys_prefix_raw debug (maps w backupkeyid_backup) prefix);
  modify (fun w => foldl (fun w k => rem backupkeyid_backup k w) w (ks : list bytes)).

Definition delete_backup (user_id version : bytes) : usr () :=
  _ ← change (upd backupid_algorithm (fun t => del debug t (pair_key user_id version)));
  _ ← change (upd backupid_etag (fun t => del debug t (pair_key user_id version)));
  remove_keys (VTuple [VStr user_id; VStr version; VInterfix]).

(** [if self.db.backupid_algorithm.qry(&key).await.is_err()] *)
Definition has_backup (user_id version : bytes) : usr bool :=
  r ← found (query (fun w => qry debug (maps w backupid_algorithm) (pair_key user_id version)));
  mret (bool_decide (is_Some r)).

Definition update_backup (user_id version backup_metadata : bytes) : usr bytes :=
  known ← has_backup user_id version;
  if negb known then throw NoBackup else
  count ← number debug;
  _ ← put_etag user_id version count;
  _ ← change (upd backupid_algorithm (fun t => put_raw debug t (pair_key user_id version) backup_metadata));
  mret version.

(** A key [(&UserId, &str)]. *)
Definition version_of_key (k : bytes) : outcome CodecError (bytes * bytes) :=
  v ← deserialize_key debug (TTuple [TStr; TStr]) k;
  match v with
  | VTuple [VStr u; VStr n] => if user_id_ok u then Done (u, n) else Fail (SerdeDe "invalid identifier")
  | _ => Panic
  end.

(** [Raw<…>] *)
Definition raw_value (b : bytes) : outcome CodecError bytes :=
  v ← deserialize_key debug TJson b;
  match v with VJson t => if json_raw_ok t then Done t else Fail (SerdeDe "json") | _ => Panic end.

Definition last_possible_key (user_id : bytes) : value := VTuple [VStr user_id; VU64 u64_max].

Definition get_latest_backup_version (user_id : bytes) (w : World) : outcome UserError bytes :=
  rs ← fail_with UserCodec (rev_stream_from_raw debug (maps w backupid_algorithm) (last_possible_key user_id));
  l ← fail_with UserCodec (ignore_err ((fun kv : row => version_of_key kv.1) <$> (rs : list row)));
  ok_or NoBackup (head (take_while (fun x : bytes * bytes => x.1 = user_id) (l : list (bytes * bytes))).*2).

Definition backup_row (kv : row) : outcome CodecError (bytes * bytes * bytes) :=
  k ← version_of_key kv.1; v ← raw_value kv.2; Done (k, v).

Definition get_latest_backup (user_id : bytes) (w : World) : outcome UserError (bytes * bytes) :=
  rs ← fail_with UserCodec (rev_stream_from_raw debug (maps w backupid_algorithm) (last_possible_key user_id));
  l ← fail_with UserCodec (ignore_err (backup_row <$> (rs : list row)));
  ok_or NoBackup (head ((fun x : bytes * bytes * bytes => (x.1.2, x.2)) <$>
    take_while (fun x : bytes * bytes * bytes => x.1.1 = user_id) (l : list (bytes * bytes * bytes)))).

(** [deserialized::<Raw<…>>] *)
Definition raw_row (o : outcome DbError bytes) : outcome DbError bytes := b ← o; lift_de (raw_value b).

Definition get_backup (user_id version : bytes) (w : World) : outcome DbError bytes :=
  raw_row (qry debug (maps w backupid_algorithm) (pair_key user_id version)).

Definition get_etag (user_id version : bytes) (w : World) : outcome DbError bytes :=
  match v ← deserialized debug TU64 (qry debug (maps w backupid_etag) (pair_key user_id version)); number_of v with
  | Done n => Done (u64_to_string n)
  | OutOfFuel => OutOfFuel
  | _ => Panic
  end.

(** ** Keys *)

Definition backup_key (user_id version room_id session_id : bytes) : value :=
  VTuple [VStr user_id; VStr version; VStr room_id; VStr session_id].

Definition add_key (user_id version room_id session_id key_data : bytes) : usr () :=
  known ← has_backup user_id version;
  if negb known then throw NoBackup else
  count ← number debug;
  _ ← put_etag user_id version count;
  change (upd backupkeyid_backup (fun t => put_raw debug t (backup_key user_id version room_id session_id) key_data)).

Definition count_keys (user_id version : bytes) (w : World) : outcome CodecError nat :=
  ks ← keys_prefix_raw debug (maps w backupkeyid_backup) (pair_key user_id version); Done (length (ks : list bytes)).

(** A row [((Ignore, Ignore, &RoomId, &str), Raw<KeyBackupData>)]. *)
Definition key_row (kv : row) : outcome CodecError (bytes * bytes * bytes) :=
  k ← deserialize_key debug (TTuple [TIgnore; TIgnore; TStr; TStr]) kv.1;
  k ← (match k with
       | VTuple [_; _; VStr r; VStr s] => if room_id_ok r then Done (r, s) else Fail (SerdeDe "invalid identifier")
       | _ => Panic
       end);
  v ← raw_value kv.2;
  Done (k, v).

Definition add_session (rooms : gmap bytes (gmap bytes bytes)) (x : bytes * bytes * bytes) : gmap bytes (gmap bytes bytes) :=
  <[x.1.1 := <[x.1.2 := x.2]> (default ∅ (rooms !! x.1.1))]> rooms.

Definition get_all (user_id version : bytes) (w : World) : outcome CodecError (gmap bytes (gmap bytes bytes)) :=
  rs ← stream_prefix_raw debug (maps w backupkeyid_backup) (VTuple [VStr user_id; VStr version; VInterfix]);
  l ← ignore_err (key_row <$> (rs : list row));
  Done (foldl add_session ∅ (l : list (bytes * bytes * bytes))).

(** A row [((Ignore, Ignore, Ignore, &str), Raw<KeyBackupData>)]. *)
Definition room_key_row (kv : row) : outcome CodecError (bytes * bytes) :=
  k ← deserialize_key debug (TTuple [TIgnore; TIgnore; TIgnore; TStr]) kv.1;
  s ← (match k with VTuple [_; _; _; VStr s] => Done s | _ => Panic end);
  v ← raw_value kv.2;
  Done (s, v).

Definition get_room_backup (user_id version room_id : bytes) (w : World) : outcome CodecError (gmap bytes bytes) :=
  rs ← stream_prefix_raw debug (maps w backupkeyid_backup) (VTuple [VStr user_id; VStr version; VStr room_id; VInterfix]);
  l ← ignore_err (room_key_row <$> (rs : list row));
  Done (foldl (fun m (x : bytes * bytes) => <[x.1 := x.2]> m) ∅ (l : list (bytes * bytes))).

Definition get_session (user_id version room_id session_id : bytes) (w : World) : outcome DbError bytes :=
  raw_row (qry debug (maps w backupkeyid_backup) (backup_key user_id version room_id session_id)).

Definition delete_all_keys (user_id version : bytes) : usr () :=
  remove_keys (VTuple [VStr user_id; VStr version; VInterfix]).
Definition delete_room_keys (user_id version room_id : bytes) : usr () :=
  remove_keys (VTuple [VStr user_id; VStr version; VStr room_id; VInterfix]).
Definition delete_room_key (user_id version room_id session_id : bytes) : usr () :=
  remove_keys (backup_key user_id version room_id session_id).

(** ** Transactions *)

Definition add_txnid (user_id : bytes) (device_id : option bytes) (txn_id data : bytes) : usr () :=
  set_row userdevicetxnid_response (user_id ++ SEP :: default [] device_id ++ SEP :: txn_id) data.

Definition existing_txnid (user_id : bytes) (device_id : option bytes) (txn_id : bytes) (w : World) : outcome DbError bytes :=
  qry debug (maps w userdevicetxnid_response)
    (VTuple [VStr user_id; from_option (fun d => VSome (VStr d)) VNone device_id; VStr txn_id]).

End key_backups.

(** ** The keys of the backups *)

Abbreviation vault := (gmap (bytes * bytes * bytes * bytes) bytes).
Abbreviation vault_key := (bytes * bytes * bytes * bytes)%type.

Section vault.
Context (debug : bool) {E : Engine} {I : Ids} {JT : JsonText}.
Implicit Types (x y : vault_key) (M : vault) (w : World).

Definition vk_ok x : Prop :=
  device_ok x.1.1.1 x.1.1.2 /\ room_id_ok x.1.2 = true /\ utf8_valid x.2 = true.
Definition vk_room (u v r : bytes) : bytes := one_time_key_prefix u v ++ r ++ [SEP].
Definition vk x : bytes := vk_room x.1.1.1 x.1.1.2 x.1.2 ++ x.2.

Record vaulted w M : Prop := {
  va_all : forall x t, M !! x = Some t -> vk_ok x /\ utf8_valid t = true /\ json_raw_ok t = true;
  va_rows : forall k t, maps w backupkeyid_backup !! k = Some t <-> exists x, k = vk x /\ M !! x = Some t }.

Lemma vk_split u v r z u' v' r' z' :
  device_ok u v -> device_ok u' v' -> room_id_ok r = true -> room_id_ok r' = true ->
  vk_room u v r ++ z = vk_room u' v' r' ++ z' -> (u, v, r) = (u', v', r') /\ z = z'.
Proof.
  intros Ho Ho' Hr Hr' Ek. unfold vk_room in Ek. norm_app_in Ek.
  apply otk_split in Ek as (-> & -> & Ek); [|done..].
  by apply sep_split in Ek as [-> ->]; [|by apply room_no_sep..].
Qed.

Lemma vk_inj x y : vk_ok x -> vk_ok y -> vk x = vk y -> x = y.
Proof.
  destruct x as [[[u v] r] s], y as [[[u' v'] r'] s']. intros (Ho & Hr & _) (Ho' & Hr' & _) Ek. unfold vk in Ek. cbn in *.
  apply vk_split in Ek as [[= -> -> ->] ->]; done.
Qed.

Lemma vk_ser u v r s : vk_ok (u, v, r, s) -> serialize_key debug (backup_key u v r s) = Done (vk (u, v, r, s)).
Proof.
  intros ([Hu%user_id_utf8 Hv] & Hr%room_id_utf8 & Hs). unfold serialize_key, backup_key. cbn [fst snd] in *.
  rewrite (serialize_fields debug [TStr; TStr; TStr; TStr]) by by repeat constructor.
  unfold vk, vk_room, one_time_key_prefix. cbn. by norm_app.
Qed.

Lemma version_prefix u v :
  serialize_key debug (VTuple [VStr u; VStr v; VInterfix]) = Done (one_time_key_prefix u v).
Proof. transitivity (Done (E := CodecError) (((u ++ [SEP]) ++ v) ++ [SEP])); [by destruct debug|]. unfold one_time_key_prefix. by norm_app. Qed.
Lemma room_prefix u v r :
  serialize_key debug (VTuple [VStr u; VStr v; VStr r; VInterfix]) = Done (vk_room u v r).
Proof.
  transitivity (Done (E := CodecError) (((((u ++ [SEP]) ++ v) ++ [SEP]) ++ r) ++ [SEP])); [by destruct debug|].
  unfold vk_room, one_time_key_prefix. by norm_app.
Qed.

(** The prefixes select the keys of a version and of a room in it. *)
Lemma of_version u v x : device_ok u v -> vk_ok x -> one_time_key_prefix u v `prefix_of` vk x <-> x.1.1 = (u, v).
Proof.
  destruct x as [[[u' v'] r] s]. intros Ho (Ho' & _). unfold vk, vk_room. cbn [fst snd] in *. rewrite <- !app_assoc. split.
  - intros [z Ek]. by apply otk_split in Ek as (-> & -> & _).
  - intros [= -> ->]. by eexists.
Qed.
Lemma of_room u v r x :
  device_ok u v -> room_id_ok r = true -> vk_ok x -> vk_room u v r `prefix_of` vk x <-> x.1 = (u, v, r).
Proof.
  destruct x as [[[u' v'] r'] s]. intros Ho Hr (Ho' & Hr' & _). unfold vk. cbn [fst snd] in *. split.
  - intros [z Ek]. by apply vk_split in Ek as [[= -> -> ->] _].
  - intros [= -> -> ->]. by eexists.
Qed.

(** Removing what a scan by a prefix finds. *)
Lemma remove_keys_spec w M p pb (P : vault_key -> Prop) `{!forall x, Decision (P x)} :
  vaulted w M -> serialize_key debug p = Done pb -> (forall x, is_Some (M !! x) -> pb `prefix_of` vk x <-> P x) ->
  exists w', remove_keys debug p w = (Done (), w') /\
    vaulted w' (filter (fun a : vault_key * bytes => ~ P a.1) M) /\ frame [backupkeyid_backup] w w'.
Proof.
  intros [HA HR] Hp HP. unfold remove_keys, keys_prefix_raw.
  erewrite eff_step by (unfold scan; by rewrite Hp). cbn [mbind outcome_bind]. eexists. split; [done|].
  destruct (rem_keys backupkeyid_backup (raw_keys_prefix (maps w backupkeyid_backup) pb) w) as [Hf Hk]. split; [|exact Hf].
  split.
  - intros x t [Hx _]%map_lookup_filter_Some. by apply HA.
  - intros k t. rewrite Hk. case_decide as Hin.
    + split; [done|]. intros (x & -> & [Hx Hn]%map_lookup_filter_Some). destruct Hn. apply HP; [done|].
      by apply elem_of_raw_keys_prefix in Hin as [? _].
    + rewrite HR. split.
      * intros (x & -> & Hx). exists x. split; [done|]. apply map_lookup_filter_Some. split; [done|]. intros HPx. apply Hin.
        apply elem_of_raw_keys_prefix. split; [by apply HP|]. exists t. apply HR. eauto.
      * intros (x & -> & [Hx _]%map_lookup_filter_Some). eauto.
Qed.

(** *** Reading *)

Lemma raw_value_text t : utf8_valid t = true -> json_raw_ok t = true -> raw_value debug t = Done t.
Proof. intros Hu Hj. unfold raw_value, deserialize_key. rewrite from_slice_json by done. cbn [mbind outcome_bind]. by rewrite Hj. Qed.

Lemma key_row_spec w M x t :
  vaulted w M -> M !! x = Some t -> key_row debug (vk x, t) = Done (x.1.2, x.2, t).
Proof.
  intros V Hx. destruct (va_all w M V x t Hx) as (Ho & Hu & Hj). destruct x as [[[u v] r] s]. unfold key_row. cbn [fst snd].
  destruct Ho as ([Hui%user_no_sep Hv%utf8_no_sep] & Hr & Hs). cbn [fst snd] in *. unfold deserialize_key.
  assert (vk (u, v, r, s) = u ++ SEP :: v ++ SEP :: r ++ SEP :: s) as ->.
  { unfold vk, vk_room, one_time_key_prefix. cbn. by norm_app. }
  rewrite (from_slice_records debug _ [VIgnored; VIgnored; VStr r; VStr s]); [| |by destruct u].
  - cbn [mbind outcome_bind]. rewrite Hr. cbn [mbind outcome_bind]. by rewrite raw_value_text.
  - apply records_cons; [by apply reads_ignore|]. apply records_cons; [by apply reads_ignore|].
    apply (records_cons TStr (VStr r) r); [by apply (reads_field false TStr (VStr r)); constructor; apply room_id_utf8|].
    apply (records_last TStr (VStr s) s). by apply (reads_field true TStr (VStr s)); constructor.
Qed.

Lemma get_session_exact w M u v r s t :
  vaulted w M -> M !! (u, v, r, s) = Some t -> get_session debug u v r s w = Done t.
Proof.
  intros V Hx. destruct (va_all w M V _ _ Hx) as (Ho & Hu & Hj). unfold get_session, raw_row, qry, bqry.
  change (buffer_serialize debug None ?k) with (serialize_key debug k). rewrite vk_ser by done.
  cbn [mbind outcome_bind lift_de]. rewrite (get_Some _ _ t) by (apply (va_rows w M V); eauto).
  cbn [mbind outcome_bind]. by rewrite raw_value_text.
Qed.

Definition lookup2 (rooms : gmap bytes (gmap bytes bytes)) (r s : bytes) : option bytes := rooms !! r ≫= (.!! s).

Lemma lookup2_add rooms a r s :
  lookup2 (add_session rooms a) r s = if decide (a.1 = (r, s)) then Some a.2 else lookup2 rooms r s.
Proof.
  destruct a as [[r' s'] t]. unfold lookup2, add_session. cbn [fst snd]. destruct (decide (r' = r)) as [->|Hr].
  - rewrite lookup_insert_eq. cbn. destruct (decide (s' = s)) as [->|Hs].
    + by rewrite lookup_insert_eq, decide_True.
    + rewrite lookup_insert_ne, decide_False by congruence. by destruct (rooms !! r).
  - by rewrite lookup_insert_ne, decide_False by congruence.
Qed.

Lemma lookup2_fold l r s t :
  (forall k t t', (k, t) ∈ l -> (k, t') ∈ l -> t = t') ->
  lookup2 (foldl add_session ∅ l) r s = Some t <-> (r, s, t) ∈ l.
Proof.
  induction l as [|a l IH] using rev_ind; intros Hf; [by cbn; set_solver|].
  rewrite foldl_app. cbn [foldl]. rewrite lookup2_add, elem_of_app, list_elem_of_singleton.
  assert (forall k t t', (k, t) ∈ l -> (k, t') ∈ l -> t = t') as Hf' by set_solver.
  destruct a as [k t']. cbn [fst snd]. case_decide as Hk; [subst k|].
  - split; [intros [= ->]; by right|]. intros [Ht|[= ->]]; [|done]. f_equal. apply (Hf (r, s)); set_solver.
  - rewrite IH by done. naive_solver.
Qed.

Lemma get_all_exact w M u v :
  vaulted w M -> device_ok u v ->
  exists rooms, get_all debug u v w = Done rooms /\
    forall r s t, lookup2 rooms r s = Some t <-> M !! (u, v, r, s) = Some t.
Proof.
  intros V Ho. unfold get_all, stream_prefix_raw. rewrite version_prefix. cbn [mbind outcome_bind].
  rewrite raw_stream_prefix_rows. set (rs := filter _ _).
  assert (forall k t, (k, t) ∈ rs <-> exists r s, k = vk (u, v, r, s) /\ M !! (u, v, r, s) = Some t) as Hrs.
  { intros k t. unfold rs. rewrite list_elem_of_filter, elem_of_rows, (va_rows w M V). unfold key_prefix. cbn [fst]. split.
    - intros [Hp ([[[u' v'] r] s] & -> & Hx)]. apply of_version in Hp as [= -> ->]; [eauto|done|by eapply va_all].
    - intros (r & s & -> & Hx). split; [|by eauto]. apply of_version; [done|by eapply va_all|done]. }
  rewrite (ignore_err_total _ _ ([], [], [])).
  2: { intros [k t] (r & s & -> & Hx)%Hrs. eexists. by apply (key_row_spec w M). }
  cbn [mbind outcome_bind]. set (l := _ <$> rs).
  assert (forall r s t, (r, s, t) ∈ l <-> M !! (u, v, r, s) = Some t) as Hl.
  { intros r s t. unfold l. rewrite list_elem_of_fmap. split.
    - intros ([k t'] & Eq & (r' & s' & -> & Hx)%Hrs). rewrite (key_row_spec w M) in Eq by done. by simplify_eq/=.
    - intros Hx. exists (vk (u, v, r, s), t). rewrite (key_row_spec w M) by done. split; [done|]. apply Hrs. eauto. }
  eexists. split; [done|]. intros r s t. rewrite lookup2_fold; [apply Hl|].
  intros [r' s'] t1 t2 H1%Hl H2%Hl. congruence.
Qed.

(** *** Writing *)

Lemma has_backup_lookup w u v :
  device_ok u v ->
  has_backup debug u v w = (Done (bool_decide (is_Some (maps w backupid_algorithm !! pair_bytes u v))), w).
Proof. intros Ho. unfold has_backup, mbind, eff_bind. by erewrite found_qry. Qed.

Lemma put_etag_runs w u v c :
  device_ok u v -> put_etag debug u v c w = (Done (), ins backupid_etag (pair_bytes u v) (u64_to_be_bytes c) w).
Proof.
  intros Ho. unfold put_etag, change, put, bput.
  assert (buffer_serialize debug None (VU64 c) = Done (u64_to_be_bytes c)) as -> by by destruct debug.
  cbn [mbind outcome_bind]. change (bput_raw debug None) with (put_raw debug).
  by erewrite upd_put_raw by by eapply device_key.
Qed.

Lemma add_key_refines w M u v r s data :
  vaulted w M -> vk_ok (u, v, r, s) -> utf8_valid data = true -> json_raw_ok data = true -> count_ok 1 w ->
  is_Some (maps w backupid_algorithm !! pair_bytes u v) ->
  exists w', add_key debug u v r s data w = (Done (), w') /\ vaulted w' (<[(u, v, r, s) := data]> M) /\
    maps w' backupid_algorithm = maps w backupid_algorithm /\
    maps w' backupid_etag !! pair_bytes u v = Some (u64_to_be_bytes (current w + 1)).
Proof.
  intros [HA HR] Ho Hu Hj Hn Hk. unfold add_key. erewrite eff_step by (apply has_backup_lookup, Ho).
  rewrite bool_decide_true by done. cbn [negb]. destruct (next_count_ok debug 1 w) as (w1 & Hc & Hm & _); [done..|].
  erewrite eff_step by (unfold number; by rewrite Hc). erewrite eff_step by (apply put_etag_runs, Ho).
  unfold change. erewrite upd_put_raw by by apply vk_ser. eexists. split; [done|]. world_simpl. rewrite Hm.
  split_and!; [|done|by rewrite lookup_insert_eq]. split.
  - intros y t [[<- <-]|[_ Hy]]%lookup_insert_Some; [done|by apply HA].
  - intros k t. world_simpl. rewrite Hm, lookup_insert_Some, HR. split.
    + intros [[<- <-]|(Hne & y & -> & Hy)]; [eexists; split; [done|]; by rewrite lookup_insert_eq|].
      exists y. split; [done|]. rewrite lookup_insert_ne; [done|]. by intros <-.
    + intros (y & -> & [[<- <-]|[Hne Hy]]%lookup_insert_Some); [by left|right].
      split; [|by eauto]. intros Ek%vk_inj; [done..|by apply (HA y t)].
Qed.

Lemma vaulted_frame w w' M :
  vaulted w M -> maps w' backupkeyid_backup = maps w backupkeyid_backup -> vaulted w' M.
Proof. intros [HA HR] Hm. split; [done|]. by rewrite Hm. Qed.

Lemma delete_backup_refines w M u v :
  vaulted w M -> device_ok u v ->
  exists w', delete_backup debug u v w = (Done (), w') /\
    vaulted w' (filter (fun a : vault_key * bytes => ~ a.1.1.1 = (u, v)) M) /\
    maps w' backupid_algorithm = delete (pair_bytes u v) (maps w backupid_algorithm).
Proof.
  intros V Ho. unfold delete_backup. erewrite eff_step by by eapply change_del. erewrite eff_step by by eapply change_del.
  set (w1 := rem _ _ _). destruct (remove_keys_spec w1 M (VTuple [VStr u; VStr v; VInterfix]) (one_time_key_prefix u v)
    (fun x => x.1.1 = (u, v))) as (w' & H' & V' & Hf).
  - eapply vaulted_frame; [done|]. unfold w1. by world_simpl.
  - apply version_prefix.
  - intros x [t Hx]. apply of_version; [done|by eapply va_all].
  - exists w'. split_and!; [done..|]. rewrite Hf by set_solver. unfold w1. by world_simpl.
Qed.

(** C37. The life of a backup: a key that is added to a version is returned with
    exactly the others of that version; deleting the version removes all
    its keys, refuses more, and leaves every other version as it was. *)
Theorem backup_lifecycle w M u v r s data :
  vaulted w M -> vk_ok (u, v, r, s) -> utf8_valid data = true -> json_raw_ok data = true -> count_ok 1 w ->
  is_Some (maps w backupid_algorithm !! pair_bytes u v) ->
  exists w1 w2 rooms, add_key debug u v r s data w = (Done (), w1) /\ get_session debug u v r s w1 = Done data /\
    get_all debug u v w1 = Done rooms /\
    (forall r' s' t, lookup2 rooms r' s' = Some t <-> <[(u, v, r, s) := data]> M !! (u, v, r', s') = Some t) /\
    delete_backup debug u v w1 = (Done (), w2) /\
    (forall r' s' t, add_key debug u v r' s' t w2 = (Fail NoBackup, w2)) /\
    forall u' v', device_ok u' v' -> exists rooms', get_all debug u' v' w2 = Done rooms' /\
      forall r' s' t, lookup2 rooms' r' s' = Some t <-> (u', v') <> (u, v) /\ M !! (u', v', r', s') = Some t.
Proof.
  intros V Ho Hu Hj Hn Hk. destruct (add_key_refines w M u v r s data) as (w1 & H1 & V1 & Ha1 & _); [done..|].
  destruct (delete_backup_refines w1 _ u v V1) as (w2 & H2 & V2 & Ha2); [apply Ho|].
  destruct (get_all_exact w1 _ u v V1) as (rooms & Hr & Hrooms); [apply Ho|].
  exists w1, w2, rooms. split_and!; [done| |done|done|done| |].
  - eapply get_session_exact; [done|]. by rewrite lookup_insert_eq.
  - intros r' s' t. unfold add_key. erewrite eff_step by (apply has_backup_lookup, Ho).
    rewrite bool_decide_false; [done|]. rewrite Ha2, lookup_delete_eq. by intros []%is_Some_None.
  - intros u' v' Ho'. destruct (get_all_exact w2 _ u' v' V2 Ho') as (rooms' & Hr' & Hrooms').
    exists rooms'. split; [done|]. intros r' s' t. rewrite Hrooms', map_lookup_filter_Some, lookup_insert_Some. cbn. naive_solver.
Qed.

End vault.

(** ** Transactions *)

Section transactions.
Context (debug : bool) {E : Engine} {I : Ids}.

Definition txn_ok (u : bytes) (d : option bytes) (t : bytes) : Prop :=
  user_id_ok u = true /\ from_option (fun d => utf8_valid d = true /\ d <> []) True d /\ utf8_valid t = true.

Definition txn_key (u : bytes) (d : option bytes) (t : bytes) : bytes := one_time_key_prefix u (default [] d) ++ t.

Lemma txn_query u d t w :
  txn_ok u d t -> existing_txnid debug u d t w = get (maps w userdevicetxnid_response) (txn_key u d t).
Proof.
  intros (Hu%user_id_utf8 & Hd & Ht). unfold existing_txnid, qry, bqry, txn_key.
  change (buffer_serialize debug None ?k) with (serialize_key debug k).
  assert (serialize_key debug (VTuple [VStr u; from_option (fun d => VSome (VStr d)) VNone d; VStr t]) =
    Done (one_time_key_prefix u (default [] d) ++ t)) as ->; [|done].
  unfold serialize_key. rewrite (serialize_fields debug [TStr; TOption TStr; TStr]).
  - unfold one_time_key_prefix. destruct d; cbn; by norm_app.
  - destruct d as [d|]; cbn in *; [destruct Hd as [Hd Hne]|]; repeat first [done | constructor].
    destruct d as [|b d]; [done|]. eapply field_some; [by constructor|done|]. by eapply utf8_head.
Qed.

Lemma txn_key_inj u d t u' d' t' :
  txn_ok u d t -> txn_ok u' d' t' -> txn_key u d t = txn_key u' d' t' -> (u, d, t) = (u', d', t').
Proof.
  intros (Hu & Hd & _) (Hu' & Hd' & _) Ek. unfold txn_key in Ek.
  apply otk_split in Ek as (-> & Hdd & ->); [| |].
  - f_equal. f_equal. destruct d, d'; cbn in *; naive_solver.
  - split; [done|]. destruct d; cbn in *; naive_solver.
  - split; [done|]. destruct d'; cbn in *; naive_solver.
Qed.

(** The answer to a request is found again under its user, device and
    transaction, and under no other. *)
Theorem transaction_answer_kept u d t data w :
  txn_ok u d t ->
  exists w', add_txnid u d t data w = (Done (), w') /\ existing_txnid debug u d t w' = Done data /\
    forall u' d' t', txn_ok u' d' t' -> (u', d', t') <> (u, d, t) ->
      existing_txnid debug u' d' t' w' = existing_txnid debug u' d' t' w.
Proof.
  intros Ho. eexists. split; [done|].
  assert (u ++ SEP :: default [] d ++ SEP :: t = txn_key u d t) as ->.
  { unfold txn_key, one_time_key_prefix. by norm_app. }
  split.
  - rewrite txn_query by done. world_simpl. apply get_Some. by rewrite lookup_insert_eq.
  - intros u' d' t' Ho' Hne. rewrite !txn_query by done. world_simpl. unfold get. rewrite lookup_insert_ne; [done|].
    intros Ek. by apply Hne, txn_key_inj.
Qed.

End transactions.

(** ** Concrete backups *)

Module ToyBackups.
#[local] Existing Instance list_engine.
#[local] Existing Instance toy_ids.
#[local] Existing Instance toy_json.

Definition alice : bytes := str "@alice:a".
Definition room : bytes := str "!room:a".
Definition one : bytes := str "1".

Definition home : World := ins backupid_algorithm (pair_bytes alice one) (str "{}") (empty_world 10).

Lemma no_backup_keys : vaulted home ∅.
Proof. split; [done|]. intros k t. unfold home. world_simpl. split; [done|]. by intros (? & _ & ?). Qed.

Lemma backup_lifecycle_witness :
  exists w1 w2, add_key true alice one room (str "s") (str "{}") home = (Done (), w1) /\
    get_session true alice one room (str "s") w1 = Done (str "{}") /\
    delete_backup true alice one w1 = (Done (), w2) /\
    add_key true alice one room (str "s") (str "{}") w2 = (Fail NoBackup, w2).
Proof.
  destruct (backup_lifecycle true home ∅ alice one room (str "s") (str "{}")) as (w1 & w2 & rooms & H1 & H2 & _ & _ & H3 & H4 & _).
  - apply no_backup_keys.
  - by split; [split|split]; vm_compute.
  - by vm_compute.
  - done.
  - unfold home, count_ok, current. rewrite globals_ins. by apply empty_world_ok.
  - unfold home. world_simpl. by rewrite lookup_insert_eq.
  - exists w1, w2. split_and!; [exact H1|exact H2|exact H3|apply H4].
Defined.

Lemma transaction_answer_kept_witness :
  exists w', add_txnid alice (Some (str "PHONE")) (str "t1") (str "$event") home = (Done (), w') /\
    existing_txnid true alice (Some (str "PHONE")) (str "t1") w' = Done (str "$event").
Proof.
  destruct (transaction_answer_kept true alice (Some (str "PHONE")) (str "t1") (str "$event") home) as (w' & H1 & H2 & _).
  - by vm_compute.
  - exists w'. split; [exact H1|exact H2].
Defined.

(** The versions are compared as texts: of the backups 9 and 11 the older one is
    given out as the latest. *)
Theorem older_backup_is_latest :
  let w1 := (create_backup true alice (str "{old}") (empty_world 8)).2 in
  let w2 := (create_backup true alice (str "{new}") w1).2 in
  (create_backup true alice (str "{old}") (empty_world 8)).1 = Done (str "9") /\
  (create_backup true alice (str "{new}") w1).1 = Done (str "11") /\
  get_latest_backup_version true alice w2 = Done (str "9") /\
  get_latest_backup true alice w2 = Done (str "9", str "{old}").
Proof. cbv zeta. split_and!; vm_compute; reflexivity. Qed.

(** The keys of version 1 are counted with those of version 10, and deleting
    the key of a session deletes those of the sessions whose id begins with it. *)
Definition two_keys : World :=
  ins backupkeyid_backup (vk (alice, str "10", room, str "s")) (str "{}")
    (ins backupkeyid_backup (vk (alice, one, room, str "session2")) (str "{}") (empty_world 10)).

Theorem backup_keys_by_prefix :
  count_keys true alice one two_keys = Done 2 /\
  get_session true alice one room (str "session2") two_keys = Done (str "{}") /\
  get_session true alice one room (str "session2") (delete_room_key true alice one room (str "session") two_keys).2 = Fail NotFound.
Proof. split_and!; vm_compute; reflexivity. Qed.

End ToyBackups.
