(* ===== verification/Presence.v ===== *)
(** * Presence

    Models [src/service/presence]: the last presence of each user ([data.rs],
    [presence.rs]), and the service that refreshes it, resets it on startup and
    lets it lapse by timers ([mod.rs]).

    The clock is an argument of each call: it is read once for the stored
    presence and once more where a presence is replaced. *)

From stdpp Require Import prelude gmap strings list sorting countable.
From Stdlib Require Import ZArith Lia.
From Stdlib Require Import Strings.Byte.
From S2P Require Import Prelude MachineInt PduCount Matrix DbCodec DbMap CoreUtils Effects Short World AccountData.
From S2P Require Import StateCache StateAccessor AppendPdu ToyServer Users ToDevice.

(** ** Data *)

Inductive PresenceState := Offline | Online | Unavailable | Busy | CustomState (s : bytes).
#[export] Instance PresenceState_eq_dec : EqDecision PresenceState.
Proof. solve_decision. Defined.

Record Presence := MkPresence {
  p_state : PresenceState;
  p_currently_active : bool;
  p_last_active_ts : Z;
  p_status_msg : option bytes }.

Class PresenceJson := {
  ser_presence : Presence -> bytes;
  de_presence : bytes -> option Presence;
  de_ser_presence : forall p, de_presence (ser_presence p) = Some p }.

(** [PresenceEvent] with its content *)
Record PresenceEvent := MkPresenceEvent {
  pe_sender : bytes;
  pe_presence : PresenceState;
  pe_status_msg : option bytes;
  pe_currently_active : option bool;
  pe_last_active_ago : option Z;
  pe_displayname : option bytes;
  pe_avatar_url : option bytes }.

Inductive PresenceError := BadPresence | PresenceDb (e : DbError) | TimersClosed.

Record PresenceConfig := MkPresenceConfig {
  own_name : bytes;
  server_user : bytes;
  timeout_remote_users : bool;
  idle_timeout_s : Z;
  offline_timeout_s : Z }.

(** [checked!(s * 1_000)], which the start of the service requires to fit. *)
Definition idle_timeout (c : PresenceConfig) : Z := (idle_timeout_s c * 1000)%Z.
Definition offline_timeout (c : PresenceConfig) : Z := (offline_timeout_s c * 1000)%Z.

(** The tables, the timers that were sent to the worker, and whether its channel is open. *)
Record PresenceService := MkPresenceService {
  db : World;
  timers : list (bytes * Z);
  channel_open : bool }.

Section presence.
Context (debug : bool) {E : Engine} {I : Ids} {PJ : PresenceJson}.

(** ** [data.rs] *)

Definition presenceid_key (count : Z) (user_id : bytes) : bytes := u64_to_be_bytes count ++ user_id.

(** [split_at(8)] panics on a shorter key. *)
Definition presenceid_parse (key : bytes) : outcome PresenceError (Z * bytes) :=
  if decide (length key < 8) then Panic else
  let user_id := drop 8 key in
  if utf8_valid user_id && user_id_ok user_id then
    match Bytes.u64_from_u8 (take 8 key) with Done c => Done (c, user_id) | _ => Panic end
  else Fail BadPresence.

(** [.ok()] *)
Definition some_text (o : outcome DbError bytes) : outcome PresenceError (option bytes) :=
  match o with Done t => Done (Some t) | Fail _ => Done None | Panic => Panic | OutOfFuel => OutOfFuel end.

Definition to_presence_event (now : Z) (p : Presence) (user_id : bytes) (w : World) : outcome PresenceError PresenceEvent :=
  let last_active_ago := Z.min uint_max (u64_saturating_sub now (p_last_active_ts p)) in
  displayname ← some_text (AppendPdu.displayname debug user_id w);
  avatar_url ← some_text (avatar_url debug user_id w);
  Done (MkPresenceEvent user_id (p_state p) (p_status_msg p) (Some (p_currently_active p)) (Some last_active_ago)
          displayname avatar_url).

Definition from_json_bytes (b : bytes) : outcome PresenceError Presence := ok_or BadPresence (de_presence b).

Definition presence_count (user_id : bytes) (w : World) : outcome DbError Z :=
  v ← deserialized debug TU64 (get (maps w userid_presenceid) user_id); number_of v.

Definition get_presence_row (now : Z) (user_id : bytes) (w : World) : outcome PresenceError (Z * PresenceEvent) :=
  count ← fail_with PresenceDb (presence_count user_id w);
  b ← fail_with PresenceDb (get (maps w presenceid_presence) (presenceid_key count user_id));
  p ← from_json_bytes b;
  event ← to_presence_event now p user_id w;
  Done (count, event).

(** [match last_presence] *)
Definition last_of (o : outcome PresenceError (Z * PresenceEvent)) : outcome PresenceError (option (Z * PresenceEvent)) :=
  match o with Done x => Done (Some x) | Fail _ => Done None | Panic => Panic | OutOfFuel => OutOfFuel end.

Definition put_presence (user_id : bytes) (p : Presence) (last : option (Z * PresenceEvent)) (w : World)
    : outcome PresenceError World :=
  '(count, w) ← fail_with (fun e => PresenceDb (DeError e)) (next_count debug w);
  w ← fail_with (fun e => PresenceDb (DeError e))
        (upd presenceid_presence (fun t => raw_put debug t (presenceid_key count user_id) (VJson (ser_presence p))) w);
  w ← fail_with (fun e => PresenceDb (DeError e)) (upd userid_presenceid (fun t => raw_put debug t user_id (VU64 count)) w);
  Done (match last with
        | Some (last_count, _) => rem presenceid_presence (presenceid_key last_count user_id) w
        | None => w
        end).

Definition data_set_presence (now now' : Z) (user_id : bytes) (presence_state : PresenceState) (currently_active : option bool)
    (last_active_ago : option Z) (status_msg : option bytes) (w : World) : outcome PresenceError World :=
  last ← last_of (get_presence_row now user_id w);
  let state_changed := from_option (fun l : Z * PresenceEvent => bool_decide (pe_presence l.2 <> presence_state)) true last in
  let status_msg_changed := from_option (fun l : Z * PresenceEvent =>
    bool_decide (default [] status_msg <> default [] (pe_status_msg l.2))) true last in
  let last_last_active_ts := from_option (fun l : Z * PresenceEvent =>
    u64_saturating_sub now' (default 0%Z (pe_last_active_ago l.2))) 0%Z last in
  let last_active_ts := from_option (fun ago => u64_saturating_sub now' ago) now' last_active_ago in
  if negb status_msg_changed && negb state_changed && (last_active_ts <? last_last_active_ts)%Z then Done w else
  let status_msg := if decide (status_msg = Some []) then None else status_msg in
  put_presence user_id (MkPresence presence_state (default false currently_active) last_active_ts status_msg) last w.

Definition data_remove_presence (user_id : bytes) (w : World) : outcome PresenceError World :=
  match presence_count user_id w with
  | Done count => Done (rem userid_presenceid user_id (rem presenceid_presence (presenceid_key count user_id) w))
  | Fail _ => Done w
  | Panic => Panic
  | OutOfFuel => OutOfFuel
  end.

(** A row of [presence_since]; rows that do not parse are skipped. *)
Definition since_row (since : Z) (kv : row) : outcome PresenceError (option (bytes * Z * bytes)) :=
  match presenceid_parse kv.1 with
  | Done (count, user_id) => Done (if (since <? count)%Z then Some (user_id, count, kv.2) else None)
  | Fail _ => Done None
  | Panic => Panic
  | OutOfFuel => OutOfFuel
  end.

Fixpoint presence_rows (since : Z) (l : list row) : outcome PresenceError (list (bytes * Z * bytes)) :=
  match l with
  | [] => Done []
  | kv :: l => r ← since_row since kv; rs ← presence_rows since l; Done (option_list r ++ rs)
  end.
Definition presence_since (since : Z) (w : World) : outcome PresenceError (list (bytes * Z * bytes)) :=
  presence_rows since (raw_stream (maps w presenceid_presence)).

(** ** [mod.rs] *)

Context (config : PresenceConfig).
Abbreviation prs := (eff PresenceService PresenceError).

Definition user_is_local (user_id : bytes) : bool := bool_decide (server_name user_id = own_name config).

Definition read {A} (f : World -> outcome PresenceError A) : prs A := fun s => (f (db s), s).
Definition write_db (f : World -> outcome PresenceError World) : prs () := fun s =>
  match f (db s) with
  | Done w => (Done (), MkPresenceService w (timers s) (channel_open s))
  | Fail e => (Fail e, s)
  | Panic => (Panic, s)
  | OutOfFuel => (OutOfFuel, s)
  end.

Definition get_presence (now : Z) (user_id : bytes) : prs PresenceEvent :=
  x ← read (get_presence_row now user_id); mret x.2.

Definition send_timer (user_id : bytes) (timeout : Z) : prs () := fun s =>
  if channel_open s then (Done (), MkPresenceService (db s) (timers s ++ [(user_id, timeout)]) true)
  else (Fail TimersClosed, s).

Definition set_presence (now now' : Z) (user_id : bytes) (state : PresenceState) (currently_active : option bool)
    (last_active_ago : option Z) (status_msg : option bytes) : prs () :=
  let presence_state := if decide (state = CustomState []) then Offline else state in
  _ ← write_db (data_set_presence now now' user_id presence_state currently_active last_active_ago status_msg);
  if (timeout_remote_users config || user_is_local user_id) && bool_decide (user_id <> server_user config) then
    send_timer user_id (if decide (presence_state = Online) then idle_timeout_s config else offline_timeout_s config)
  else mret ().

Definition REFRESH_TIMEOUT : Z := 60 * 1000.

Definition ping_presence (now now' now'' : Z) (user_id : bytes) (new_state : PresenceState) : prs () :=
  last ← read (fun w => last_of (get_presence_row now user_id w));
  let state_changed := from_option (fun l : Z * PresenceEvent => bool_decide (pe_presence l.2 <> new_state)) true last in
  let last_last_active_ago := from_option (fun l : Z * PresenceEvent => default 0%Z (pe_last_active_ago l.2)) 0%Z last in
  if negb state_changed && (last_last_active_ago <? REFRESH_TIMEOUT)%Z then mret () else
  let status_msg := from_option (fun l : Z * PresenceEvent => pe_status_msg l.2) (Some []) last in
  set_presence now' now'' user_id new_state (Some (bool_decide (new_state = Online))) (Some 0%Z) status_msg.

Definition remove_presence (user_id : bytes) : prs () := write_db (data_remove_presence user_id).

Definition unset_one (now now' : Z) (u : ()) (user_id : bytes) : prs () :=
  last ← read (fun w => last_of (get_presence_row now user_id w));
  match last with
  | Some (_, p) =>
      if decide (pe_presence p ∈ [Unavailable; Online; Busy]) then
        _ ← attempt (set_presence now now' user_id Offline (Some false) (pe_last_active_ago p) (pe_status_msg p)); mret ()
      else mret ()
  | None => mret ()
  end.

Definition unset_all_presence (now now' : Z) : prs () :=
  users ← read (fun w => fail_with (fun e => PresenceDb (DeError e)) (list_local_users debug w));
  for_each (unset_one now now') () (users : list bytes).

Definition from_json_bytes_to_event (now : Z) (b user_id : bytes) (w : World) : outcome PresenceError PresenceEvent :=
  p ← from_json_bytes b; to_presence_event now p user_id w.

(** What a timer makes of a state. *)
Definition lapsed (state : PresenceState) (last_active_ago : option Z) : option PresenceState :=
  match state, last_active_ago with
  | Online, Some ago => if (idle_timeout config <=? ago)%Z then Some Unavailable else None
  | Unavailable, Some ago => if (offline_timeout config <=? ago)%Z then Some Offline else None
  | _, _ => None
  end.

Definition process_presence_timer (now now' now'' : Z) (user_id : bytes) : prs () :=
  last ← read (fun w => last_of (get_presence_row now user_id w));
  let state := from_option (fun l : Z * PresenceEvent => pe_presence l.2) Offline last in
  let ago := last ≫= fun l : Z * PresenceEvent => pe_last_active_ago l.2 in
  let status_msg := last ≫= fun l : Z * PresenceEvent => pe_status_msg l.2 in
  match lapsed state ago with
  | Some new_state => set_presence now' now'' user_id new_state (Some false) ago status_msg
  | None => mret ()
  end.

End presence.

(** ** The tables hold the last presence of each user *)

Abbreviation presences := (gmap bytes (Z * Presence)).

Section latest.
Context (debug : bool) {E : Engine} {I : Ids} {PJ : PresenceJson}.
Implicit Types (w : World) (m : presences).

Record presence_inv w m : Prop := {
  pr_all : forall u c p, m !! u = Some (c, p) -> user_id_ok u = true /\ is_u64 c /\ (c <= current w)%Z;
  pr_ids : forall u b, maps w userid_presenceid !! u = Some b <-> exists c p, m !! u = Some (c, p) /\ b = u64_to_be_bytes c;
  pr_rows : forall k b, maps w presenceid_presence !! k = Some b <->
    exists u c p, m !! u = Some (c, p) /\ k = presenceid_key c u /\ b = ser_presence p }.

(** The names that go with a presence are text. *)
Definition names_ok w : Prop :=
  forall t u b, t = userid_displayname \/ t = userid_avatarurl -> maps w t !! u = Some b -> utf8_valid b = true.

Lemma key_parts c u : is_u64 c -> take 8 (presenceid_key c u) = u64_to_be_bytes c /\ drop 8 (presenceid_key c u) = u.
Proof.
  intros Hc. unfold presenceid_key.
  split; [apply take_app_length'|apply drop_app_length']; by rewrite length_u64_to_be.
Qed.

Lemma presenceid_key_inj c u c' u' :
  is_u64 c -> is_u64 c' -> presenceid_key c u = presenceid_key c' u' -> c = c' /\ u = u'.
Proof.
  intros Hc Hc' Ek. destruct (key_parts c u Hc) as [H1 H2], (key_parts c' u' Hc') as [H1' H2']. rewrite Ek in H1, H2.
  split; [|congruence]. apply (inj Some). rewrite H1' in H1. apply (f_equal Bytes.u64_from_u8) in H1.
  rewrite !Bytes.u64_from_u8_be in H1 by done. congruence.
Qed.

Lemma presenceid_parse_key c u : is_u64 c -> user_id_ok u = true -> presenceid_parse (presenceid_key c u) = Done (c, u).
Proof.
  intros Hc Hu. unfold presenceid_parse. destruct (key_parts c u Hc) as [-> ->].
  rewrite decide_False by (unfold presenceid_key; rewrite length_app, length_u64_to_be; lia).
  by rewrite user_id_utf8, Hu, Bytes.u64_from_u8_be.
Qed.

Lemma text_row_ok w t u :
  names_ok w -> t = userid_displayname \/ t = userid_avatarurl -> exists o, some_text (text_row debug t u w) = Done o.
Proof.
  intros Hn Ht. unfold text_row, deserialized, get. destruct (maps w t !! u) as [b|] eqn:Hb; [|by eexists].
  cbn [ok_or mbind outcome_bind]. rewrite from_slice_str by by eapply Hn. by eexists.
Qed.

Lemma presence_event_ok now p u w : names_ok w -> exists e, to_presence_event debug now p u w = Done e /\
  pe_presence e = p_state p /\ pe_status_msg e = p_status_msg p /\
  pe_last_active_ago e = Some (Z.min uint_max (u64_saturating_sub now (p_last_active_ts p))).
Proof.
  intros Hn. unfold to_presence_event.
  destruct (text_row_ok w userid_displayname u Hn) as [d Hd]; [by left|].
  destruct (text_row_ok w userid_avatarurl u Hn) as [a Ha]; [by right|].
  change (AppendPdu.displayname debug u w) with (text_row debug userid_displayname u w). rewrite Hd. cbn [mbind outcome_bind].
  unfold avatar_url. rewrite Ha. by eexists.
Qed.

Lemma presence_count_spec w m u :
  presence_inv w m ->
  presence_count debug u w = match m !! u with Some (c, _) => Done c | None => Fail NotFound end.
Proof.
  intros [HA HI HR]. unfold presence_count, deserialized, get.
  destruct (m !! u) as [[c p]|] eqn:Hm.
  - rewrite (proj2 (HI u (u64_to_be_bytes c))) by eauto. cbn [ok_or mbind outcome_bind].
    destruct (HA u c p Hm) as (_ & Hc & _). by rewrite from_slice_u64.
  - destruct (maps w userid_presenceid !! u) as [b|] eqn:Hb; [|done]. apply HI in Hb as (c & p & Hc & _). congruence.
Qed.

Lemma get_presence_spec now w m u :
  presence_inv w m -> names_ok w ->
  match m !! u with
  | Some (c, p) => exists e, get_presence_row debug now u w = Done (c, e) /\
      pe_presence e = p_state p /\ pe_status_msg e = p_status_msg p /\
      pe_last_active_ago e = Some (Z.min uint_max (u64_saturating_sub now (p_last_active_ts p)))
  | None => get_presence_row debug now u w = Fail (PresenceDb NotFound)
  end.
Proof.
  intros HP Hn. unfold get_presence_row. rewrite (presence_count_spec w m u HP).
  destruct (m !! u) as [[c p]|] eqn:Hm; [|done]. cbn [fail_with mbind outcome_bind].
  rewrite (get_Some _ _ (ser_presence p)) by (apply (pr_rows w m HP); eauto 6). cbn [fail_with mbind outcome_bind].
  unfold from_json_bytes. rewrite de_ser_presence. cbn [ok_or mbind outcome_bind].
  destruct (presence_event_ok now p u w Hn) as (e & -> & He). by exists e.
Qed.

(** The rows of the other users, and a new one. *)
Definition replaced m (u : bytes) (c : Z) (p : Presence) (k b : bytes) : Prop :=
  (k = presenceid_key c u /\ b = ser_presence p) \/
  exists v c' p', m !! v = Some (c', p') /\ v <> u /\ k = presenceid_key c' v /\ b = ser_presence p'.

Lemma replaced_inv w w' m u c p :
  presence_inv w m -> user_id_ok u = true -> is_u64 c -> (current w < c)%Z -> current w' = c ->
  maps w' userid_presenceid = <[u := u64_to_be_bytes c]> (maps w userid_presenceid) ->
  (forall k b, maps w' presenceid_presence !! k = Some b <-> replaced m u c p k b) ->
  presence_inv w' (<[u := (c, p)]> m).
Proof.
  intros [HA HI HR] Hu Hc Hlt Hcur Hi Hr. split.
  - intros v c' p' [[<- [= <- <-]]|[_ Hv]]%lookup_insert_Some; rewrite Hcur; [done|].
    destruct (HA v c' p' Hv) as (? & ? & ?). split_and!; [done..|lia].
  - intros v b. rewrite Hi, lookup_insert_Some, HI. setoid_rewrite lookup_insert_Some. split.
    + intros [[<- <-]|(Hne & c' & p' & Hv & ->)]; [exists c, p; by auto|exists c', p'; by auto].
    + intros (c' & p' & [[<- [= <- <-]]|[Hne Hv]] & ->); [by left|right; eauto].
  - intros k b. rewrite Hr. unfold replaced. setoid_rewrite lookup_insert_Some. split.
    + intros [[-> ->]|(v & c' & p' & Hv & Hvu & -> & ->)]; [exists u, c, p|exists v, c', p']; by auto.
    + intros (v & c' & p' & [[<- [= <- <-]]|[Hne Hv]] & -> & ->); [by left|right; eauto 8].
Qed.

Lemma old_row_dropped w m u c p (last : option (Z * PresenceEvent)) k b :
  presence_inv w m -> is_u64 c -> (current w < c)%Z -> fst <$> last = fst <$> m !! u ->
  let t := <[presenceid_key c u := ser_presence p]> (maps w presenceid_presence) in
  (match last with Some (lc, _) => delete (presenceid_key lc u) t | None => t end) !! k = Some b <-> replaced m u c p k b.
Proof.
  intros [HA HI HR] Hc Hlt Hl t.
  assert (forall v c' p', m !! v = Some (c', p') -> presenceid_key c u <> presenceid_key c' v) as Hnew.
  { intros v c' p' Hv Ek. destruct (HA v c' p' Hv) as (_ & Hc' & Hle). apply presenceid_key_inj in Ek as [-> _]; [lia|done..]. }
  assert (t !! k = Some b <-> (k = presenceid_key c u /\ b = ser_presence p) \/
    exists v c' p', m !! v = Some (c', p') /\ k = presenceid_key c' v /\ b = ser_presence p') as Ht.
  { unfold t. rewrite lookup_insert_Some, HR. split; [intros [[<- <-]|[_ ?]]; [by left|by right]|].
    intros [[-> ->]|(v & c' & p' & Hv & -> & ->)]; [by left|right]. split; [by eapply Hnew|eauto 6]. }
  unfold replaced. destruct (m !! u) as [[lc lp]|] eqn:Hmu; destruct last as [[lc' e]|]; simplify_eq/=.
  - rewrite lookup_delete_Some, Ht. split.
    + intros (Hne & [?|(v & c' & p' & Hv & -> & ->)]); [by left|right]. exists v, c', p'. split_and!; [done| |done..].
      intros ->. congruence.
    + intros [[-> ->]|(v & c' & p' & Hv & Hvu & -> & ->)]; [split; [by eapply not_eq_sym, Hnew|by left]|].
      split; [|right; eauto 6]. intros Ek. apply presenceid_key_inj in Ek as [_ ->]; [done|by eapply HA..].
  - rewrite Ht. split; (intros [?|(v & c' & p' & Hv & Hr)]; [by left|right; exists v, c', p']); [|naive_solver].
    split; [done|]. split; [|done]. intros ->. congruence.
Qed.

(** Storing a presence replaces the one before. *)
Lemma put_presence_spec n w m u p last :
  presence_inv w m -> user_id_ok u = true -> count_ok n w -> (1 <= n)%Z -> fst <$> last = fst <$> m !! u ->
  exists w', put_presence debug u p last w = Done w' /\ presence_inv w' (<[u := (current w + 1, p)%Z]> m) /\
    frame [presenceid_presence; userid_presenceid] w w' /\ count_ok (n - 1) w'.
Proof.
  intros HP Hu Hn H1 Hl. destruct (next_count_ok debug n w) as (w1 & Hc & Hm & Hcur & Hn1 & Hcu); [done..|].
  unfold put_presence. rewrite Hc. cbn [fail_with mbind outcome_bind]. rewrite upd_json. cbn [fail_with mbind outcome_bind].
  rewrite upd_put_count. cbn [fail_with mbind outcome_bind]. set (c := (current w + 1)%Z) in *.
  assert (frame [presenceid_presence; userid_presenceid] w w1) as Hf1 by (intros t _; by rewrite Hm).
  eexists. split; [done|]. split_and!.
  - apply (replaced_inv w); try done; [unfold c; lia|destruct last as [[]|]; exact Hcur|destruct last as [[]|]; world_simpl; by rewrite Hm|].
    intros k b. rewrite <- (old_row_dropped w m u c p last k b HP Hcu) by (done || unfold c; lia).
    destruct last as [[lc e]|]; world_simpl; by rewrite Hm.
  - destruct last as [[]|]; frame_steps.
  - by destruct last as [[]|].
Qed.

(** *** The presences after a position *)

Lemma presence_rows_done since (f : row -> option (bytes * Z * bytes)) l :
  (forall kv, kv ∈ l -> since_row since kv = Done (f kv)) -> presence_rows since l = Done (omap f l).
Proof.
  induction l as [|kv l IH]; intros H; [done|]. cbn [presence_rows]. rewrite H by left. cbn [mbind outcome_bind].
  rewrite IH by (intros; apply H; by right). cbn. by destruct (f kv).
Qed.

(** [presence_since] reports exactly the users whose last presence is newer, with
    that presence. *)
Lemma presence_since_exact w m since :
  presence_inv w m ->
  exists l, presence_since since w = Done l /\
    forall u c b, (u, c, b) ∈ l <-> exists p, m !! u = Some (c, p) /\ b = ser_presence p /\ (since < c)%Z.
Proof.
  intros HP. unfold presence_since. rewrite raw_stream_rows.
  set (f := fun kv : row => match since_row since kv with Done o => o | _ => None end).
  assert (forall k b, (k, b) ∈ rows (maps w presenceid_presence) <-> exists u c p, m !! u = Some (c, p) /\
    k = presenceid_key c u /\ b = ser_presence p) as Hrows by (intros k b; by rewrite elem_of_rows, (pr_rows w m HP)).
  assert (forall u c p, m !! u = Some (c, p) -> since_row since (presenceid_key c u, ser_presence p) =
    Done (if (since <? c)%Z then Some (u, c, ser_presence p) else None)) as Hs.
  { intros u c p Hm. destruct (pr_all w m HP u c p Hm) as (Hu & Hc & _). unfold since_row. cbn [fst snd].
    by rewrite presenceid_parse_key. }
  exists (omap f (rows (maps w presenceid_presence))). split.
  - apply presence_rows_done. intros [k b] (u & c & p & Hm & -> & ->)%Hrows. unfold f. by rewrite (Hs u c p Hm).
  - intros u c b. rewrite list_elem_of_omap. split.
    + intros ([k b'] & (u' & c' & p & Hm & -> & ->)%Hrows & Hf). unfold f in Hf. rewrite (Hs u' c' p Hm) in Hf.
      destruct (Z.ltb_spec since c'); simplify_eq. by exists p.
    + intros (p & Hm & -> & Hlt). exists (presenceid_key c u, ser_presence p). split; [apply Hrows; by eauto 6|].
      unfold f. rewrite (Hs u c p Hm). by destruct (Z.ltb_spec since c); [|lia].
Qed.

(** *** Setting a presence *)

(** The update is dropped: nothing in it is new and it is older than the last. *)
Definition stale m (now now' : Z) (u : bytes) (st : PresenceState) (ago : option Z) (msg : option bytes) : Prop :=
  exists c p, m !! u = Some (c, p) /\ p_state p = st /\ default [] msg = default [] (p_status_msg p) /\
    (from_option (fun a => u64_saturating_sub now' a) now' ago <
     u64_saturating_sub now' (Z.min uint_max (u64_saturating_sub now (p_last_active_ts p))))%Z.

Lemma data_set_presence_spec n now now' w m u st act ago msg :
  presence_inv w m -> names_ok w -> user_id_ok u = true -> count_ok n w -> (1 <= n)%Z ->
  (stale m now now' u st ago msg /\ data_set_presence debug now now' u st act ago msg w = Done w) \/
  (~ stale m now now' u st ago msg /\ exists w' p, data_set_presence debug now now' u st act ago msg w = Done w' /\
     p_state p = st /\ default [] (p_status_msg p) = default [] msg /\
     presence_inv w' (<[u := (current w + 1, p)%Z]> m) /\ frame [presenceid_presence; userid_presenceid] w w').
Proof.
  intros HP Hnames Hu Hn H1. unfold data_set_presence. pose proof (get_presence_spec now w m u HP Hnames) as Hg.
  set (msg' := if decide (msg = Some []) then None else msg).
  assert (default [] msg' = default [] msg) as Hmsg by (unfold msg'; case_decide; by subst).
  destruct (m !! u) as [[c p]|] eqn:Hm.
  - destruct Hg as (e & Hg & He1 & He2 & He3). rewrite Hg. cbn [last_of mbind outcome_bind from_option fst snd].
    rewrite He1, He2, He3. cbn [default from_option].
    set (b := negb _ && negb _ && _). assert (b = true <-> stale m now now' u st ago msg) as Hb.
    { unfold b, stale. rewrite !andb_true_iff, !negb_true_iff, !bool_decide_eq_false, Z.ltb_lt. setoid_rewrite Hm. split.
      - intros ([Hd Hs] & Hlt). exists c, p. split_and!; [done|by apply dec_stable|by apply dec_stable|done].
      - intros (c' & p' & [= <- <-] & Hs & Hd & Hlt). auto. }
    destruct b; [left; by rewrite <- Hb|right]. split; [by rewrite <- Hb|].
    match goal with |- exists _ _, put_presence _ _ ?q ?l _ = _ /\ _ =>
      destruct (put_presence_spec n w m u q l) as (w' & Hw' & HP' & Hf & _); [done..|by rewrite Hm|]; by exists w', q end.
  - rewrite Hg. cbn. right. split; [intros (c & p & Hc & _); congruence|].
    match goal with |- exists _ _, put_presence _ _ ?q ?l _ = _ /\ _ =>
      destruct (put_presence_spec n w m u q l) as (w' & Hw' & HP' & Hf & _); [done..|by rewrite Hm|]; by exists w', q end.
Qed.

End latest.

(** ** What the service does with it *)

Section service.
Context (debug : bool) {E : Engine} {I : Ids} {PJ : PresenceJson} (config : PresenceConfig).
Implicit Types (s : PresenceService) (m : presences).

(** The timer that follows a presence. *)
Definition timer_of (u : bytes) (st : PresenceState) : list (bytes * Z) :=
  if (timeout_remote_users config || user_is_local config u) && bool_decide (u <> server_user config)
  then [(u, if decide (st = Online) then idle_timeout_s config else offline_timeout_s config)] else [].

Definition normal (st : PresenceState) : PresenceState := if decide (st = CustomState []) then Offline else st.

(** The presence of one user became [st], or the update was dropped. *)
Definition became m m' (u : bytes) (st : PresenceState) : Prop :=
  (m' = m /\ exists c p, m !! u = Some (c, p) /\ p_state p = st) \/
  exists c p, m' = <[u := (c, p)]> m /\ p_state p = st.

Lemma set_presence_spec now now' s m u st act ago msg :
  presence_inv (db s) m -> names_ok (db s) -> user_id_ok u = true -> count_ok 1 (db s) -> channel_open s = true ->
  exists s' m', set_presence debug config now now' u st act ago msg s = (Done (), s') /\ presence_inv (db s') m' /\
    became m m' u (normal st) /\ timers s' = timers s ++ timer_of u (normal st) /\ channel_open s' = true.
Proof.
  intros HP Hn Hu Hc Ho. unfold set_presence, write_db. fold (normal st). unfold timer_of.
  set (timed := _ && _).
  destruct (data_set_presence_spec debug 1 now now' (db s) m u (normal st) act ago msg HP Hn Hu Hc) as [[Hst Hd]|(_ & w' & p & Hd & Hp & _ & HP' & _)]; [done|..].
  - erewrite eff_step by by rewrite Hd. destruct timed; unfold send_timer; cbn [channel_open db timers]; rewrite ?Ho;
      (eexists _, m; split; [done|]; cbn [db timers channel_open]; split_and!;
        [exact HP|left; destruct Hst as (c & p & ? & ? & _); by eauto|by rewrite ?app_nil_r|done]).
  - erewrite eff_step by by rewrite Hd. destruct timed; unfold send_timer; cbn [channel_open db timers]; rewrite ?Ho;
      (eexists _, _; split; [done|]; cbn [db timers channel_open]; split_and!; [exact HP'|right; eauto|by rewrite ?app_nil_r|done]).
Qed.

(** After a presence is set, readers are told of exactly the last presence of
    each user that is newer than what they have seen, and the user has the
    state that was set. *)
Theorem last_presence_reported now now' s m u st act ago msg :
  presence_inv (db s) m -> names_ok (db s) -> user_id_ok u = true -> count_ok 1 (db s) -> channel_open s = true ->
  exists s' m', set_presence debug config now now' u st act ago msg s = (Done (), s') /\
    (exists c p, m' !! u = Some (c, p) /\ p_state p = normal st) /\ (forall v, v <> u -> m' !! v = m !! v) /\
    forall since, exists l, presence_since since (db s') = Done l /\
      forall v c b, (v, c, b) ∈ l <-> exists p, m' !! v = Some (c, p) /\ b = ser_presence p /\ (since < c)%Z.
Proof.
  intros HP Hn Hu Hc Ho. destruct (set_presence_spec now now' s m u st act ago msg) as (s' & m' & Hs & HP' & Hb & _); [done..|].
  exists s', m'. split; [done|]. split_and!.
  - destruct Hb as [[-> ?]|(c & p & -> & ?)]; [done|]. exists c, p. by rewrite lookup_insert_eq.
  - intros v Hv. destruct Hb as [[-> _]|(c & p & -> & _)]; [done|]. by rewrite lookup_insert_ne.
  - intros since. by apply presence_since_exact.
Qed.

(** A user who was active too long ago is shown as unavailable and then as
    offline when a timer runs out; the first starts the timer of the second. *)
Theorem idle_user_lapses now now' now'' s m u c p :
  presence_inv (db s) m -> names_ok (db s) -> count_ok 1 (db s) -> channel_open s = true ->
  m !! u = Some (c, p) -> p_state p = Online \/ p_state p = Unavailable ->
  (idle_timeout config <= Z.min uint_max (u64_saturating_sub now (p_last_active_ts p)))%Z ->
  (offline_timeout config <= Z.min uint_max (u64_saturating_sub now (p_last_active_ts p)))%Z ->
  let next := if decide (p_state p = Online) then Unavailable else Offline in
  exists s' m' c' p', process_presence_timer debug config now now' now'' u s = (Done (), s') /\
    presence_inv (db s') m' /\ m' !! u = Some (c', p') /\ p_state p' = next /\ timers s' = timers s ++ timer_of u next.
Proof.
  intros HP Hn Hc Ho Hm Hst Hi Hf next. unfold process_presence_timer, read.
  pose proof (get_presence_spec debug now (db s) m u HP Hn) as Hg. rewrite Hm in Hg. destruct Hg as (e & Hg & He1 & He2 & He3).
  erewrite eff_step by (rewrite Hg; done). cbn [from_option mbind option_bind fst snd]. rewrite He1, He2, He3.
  assert (lapsed config (p_state p) (Some (Z.min uint_max (u64_saturating_sub now (p_last_active_ts p)))) = Some next) as ->.
  { unfold lapsed, next. destruct Hst as [-> | ->]; by rewrite (proj2 (Z.leb_le _ _)). }
  destruct (pr_all (db s) m HP u c p Hm) as (Hu & _).
  destruct (set_presence_spec now' now'' s m u next (Some false)
    (Some (Z.min uint_max (u64_saturating_sub now (p_last_active_ts p)))) (p_status_msg p)) as (s' & m' & Hs & HP' & Hb & Ht & _); [done..|].
  assert (normal next = next) as Hne by (unfold next; by case_decide). rewrite Hne in *.
  assert (exists c' p', m' !! u = Some (c', p') /\ p_state p' = next) as (c' & p' & Hm' & Hp').
  { destruct Hb as [[-> ?]|(c' & p' & -> & ?)]; [done|]. exists c', p'. by rewrite lookup_insert_eq. }
  by exists s', m', c', p'.
Qed.

End service.

Module ToyPresence.
#[local] Existing Instance list_engine.
#[local] Existing Instance toy_ids.

Definition state_code (st : PresenceState) : nat * bytes :=
  match st with Offline => (0, []) | Online => (1, []) | Unavailable => (2, []) | Busy => (3, []) | CustomState s => (4, s) end.
Definition state_of (c : nat * bytes) : PresenceState :=
  match c.1 with 0 => Offline | 1 => Online | 2 => Unavailable | 3 => Busy | _ => CustomState c.2 end.
#[export] Instance state_countable : Countable PresenceState.
Proof. apply (inj_countable' state_code state_of). by intros []. Defined.

Definition presence_text (p : Presence) : bytes :=
  JsonCode.digits (encode (p_state p, p_currently_active p, p_last_active_ts p, p_status_msg p)).
Definition presence_of (b : bytes) : option Presence :=
  '(st, a, t, msg) ← decode (A := PresenceState * bool * Z * option bytes) (JsonCode.number b); Some (MkPresence st a t msg).

Program Definition presence_json : PresenceJson := {| ser_presence := presence_text; de_presence := presence_of |}.
Next Obligation. intros []. unfold presence_of, presence_text. by rewrite JsonCode.number_digits, decode_encode. Qed.
#[local] Existing Instance presence_json.

Definition config : PresenceConfig := MkPresenceConfig (str "a") (str "@conduit:a") false 300 1800.
Definition alice : bytes := str "@alice:a".
Definition start : PresenceService := MkPresenceService (empty_world 10) [] true.
Definition online : Presence := MkPresence Online true 1000 None.

Lemma toy_presence_inv : presence_inv (db start) ∅.
Proof.
  split; [done|..].
  - intros u b. split; [done|]. by intros (? & ? & ? & _).
  - intros k b. split; [done|]. by intros (? & ? & ? & ? & _).
Qed.
Lemma start_names : names_ok (db start).
Proof. by intros t u b [-> | ->] Hb. Qed.

Lemma last_presence_reported_witness :
  exists s' (m' : presences), set_presence true config 5 5 alice Online None None None start = (Done (), s') /\
    exists c p, m' !! alice = Some (c, p) /\ p_state p = Online.
Proof.
  destruct (last_presence_reported true config 5 5 start ∅ alice Online None None None) as (s' & m' & H & (c & p & Hm & Hp) & _).
  - apply toy_presence_inv.
  - apply start_names.
  - by vm_compute.
  - by apply empty_world_ok.
  - done.
  - exists s', m'. split; [exact H|]. exists c, p. split; [exact Hm|exact Hp].
Defined.

(** Alice was last active at 1000 milliseconds. *)
Definition later : PresenceService :=
  MkPresenceService (ins presenceid_presence (presenceid_key 7 alice) (ser_presence online)
    (ins userid_presenceid alice (u64_to_be_bytes 7) (empty_world 10))) [] true.

Lemma later_inv : presence_inv (db later) {[ alice := (7%Z, online) ]}.
Proof.
  replace {[ alice := (7%Z, online) ]} with (<[alice := (7%Z, online)]> (∅ : presences)) by done.
  unfold later. cbn [db]. split.
  - intros u c p [[<- [= <- <-]]|[_ Hu]]%lookup_insert_Some; [|by rewrite lookup_empty in Hu]. split_and!; [by vm_compute|done|done].
  - intros u b. world_simpl. rewrite lookup_insert_Some. setoid_rewrite lookup_insert_Some. setoid_rewrite lookup_empty. naive_solver.
  - intros k b. world_simpl. rewrite lookup_insert_Some. setoid_rewrite lookup_insert_Some. setoid_rewrite lookup_empty. naive_solver.
Qed.

Lemma idle_user_lapses_witness :
  exists s' (m' : presences) c' p', process_presence_timer true config 2000000 2000000 2000000 alice later = (Done (), s') /\
    m' !! alice = Some (c', p') /\ p_state p' = Unavailable /\ timers s' = [(alice, 1800%Z)].
Proof.
  destruct (idle_user_lapses true config 2000000 2000000 2000000 later {[ alice := (7%Z, online) ]} alice 7 online)
    as (s' & m' & c' & p' & H & _ & Hm & Hp & Ht).
  - apply later_inv.
  - by intros t u b [-> | ->] Hb.
  - unfold count_ok, current, later. cbn [db]. rewrite !globals_ins. by apply empty_world_ok.
  - done.
  - by rewrite lookup_singleton_eq.
  - by left.
  - by vm_compute.
  - by vm_compute.
  - exists s', m', c', p'. split_and!; [exact H|exact Hm|exact Hp|exact Ht].
Defined.

End ToyPresence.
