(* ===== verification/Typing.v ===== *)
(** * Typing notices

    Models [src/service/rooms/typing/mod.rs]: who is typing in a room and until
    when, kept in memory; the number of the last change, by which readers learn
    that something changed; and the notices to the other servers of the
    room, which go to the queues of [SenderSystem]. *)

From stdpp Require Import prelude gmap strings list sorting.
From Stdlib Require Import ZArith Lia.
From Stdlib Require Import Strings.Byte.
From S2P Require Import Prelude MachineInt PduCount Matrix DbCodec DbMap CoreUtils Effects Short World AccountData.
From S2P Require Import StateCache Membership Sending SenderSystem Users.

Record Typing := MkTyping {
  typing : gmap bytes (gmap bytes Z);          (** the end of each user's typing, by room *)
  last_update : gmap bytes Z;
  announced : list bytes;                      (** [typing_update_sender] *)
  sys : System }.

Inductive TypingError := TypingDb (e : CodecError) | NotSent.

Section typing.
Context (debug : bool) {E : Engine} {I : Ids} {M : MemberJson} {J : JsonText} {Sc : Schedule}.
Context (own_name : bytes) (dest_hash : Destination -> Z) (allow_outgoing_typing : bool).
(** [serde_json] of [Edu::Typing] *)
Context (typing_edu : bytes -> bytes -> bool -> bytes).

Abbreviation typ := (eff Typing TypingError).

Definition room_typing (room_id : bytes) (s : Typing) : gmap bytes Z := default ∅ (typing s !! room_id).

(** [typing.write().entry(room).or_default()] *)
Definition with_room (room_id : bytes) (f : gmap bytes Z -> gmap bytes Z) (s : Typing) : Typing :=
  MkTyping (<[room_id := f (room_typing room_id s)]> (typing s)) (last_update s) (announced s) (sys s).

Definition is_local (user_id : bytes) : bool := bool_decide (server_name user_id = own_name).

(** The clients of the room: a new number, and a wake-up. *)
Definition update_clients (room_id : bytes) : typ () := fun s =>
  match next_count debug (sys_world (sys s)) with
  | Done (c, w) =>
      (Done (), MkTyping (typing s) (<[room_id := c]> (last_update s)) (announced s ++ [room_id]) (set_world w (sys s)))
  | Fail e => (Fail (TypingDb e), s)
  | Panic => (Panic, s)
  | OutOfFuel => (OutOfFuel, s)
  end.

(** [sending.send_edu_room(…)?] *)
Definition send_notice (room_id user_id : bytes) (is_typing : bool) : typ () := fun s =>
  match send_edu_room debug own_name dest_hash room_id (typing_edu room_id user_id is_typing) (sys s) with
  | Done (sys', ok) =>
      (if ok : bool then Done () else Fail NotSent, MkTyping (typing s) (last_update s) (announced s) sys')
  | Fail e => (Fail (TypingDb e), s)
  | Panic => (Panic, s)
  | OutOfFuel => (OutOfFuel, s)
  end.

Definition federation_send (room_id user_id : bytes) (is_typing : bool) : typ () :=
  _ ← lift_eff (debug_assert debug (is_local user_id));
  if negb allow_outgoing_typing then mret () else send_notice room_id user_id is_typing.

Definition typing_add (user_id room_id : bytes) (timeout : Z) : typ () :=
  _ ← modify (with_room room_id (insert user_id timeout));
  _ ← update_clients room_id;
  if is_local user_id then federation_send room_id user_id true else mret ().

Definition typing_remove (user_id room_id : bytes) : typ () :=
  _ ← modify (with_room room_id (delete user_id));
  _ ← update_clients room_id;
  if is_local user_id then federation_send room_id user_id false else mret ().

(** The order of a [BTreeMap]. *)
Definition in_order (m : gmap bytes Z) : list (bytes * Z) := merge_sort (fun a b => ord_le a.1 b.1) (map_to_list m).

Definition send_stopped (room_id : bytes) (u : ()) (user_id : bytes) : typ () :=
  if is_local user_id then federation_send room_id user_id false else mret ().

Definition typings_maintain (now : Z) (room_id : bytes) : typ () :=
  room ← gets (fun s => typing s !! room_id);
  match room with
  | None => mret ()
  | Some room =>
      let removable := (filter (fun x : bytes * Z => (x.2 < now)%Z) (in_order room)).*1 in
      if decide (removable = []) then mret () else
      _ ← modify (with_room room_id (fun m => foldl (fun m u => delete u m) m removable));
      _ ← update_clients room_id;
      for_each (send_stopped room_id) () removable
  end.

Definition last_typing_update (now : Z) (room_id : bytes) : typ Z :=
  _ ← typings_maintain now room_id; gets (fun s => default 0%Z (last_update s !! room_id)).

(** Those who are not ignored. *)
Fixpoint not_ignored (sender_user : bytes) (w : World) (l : list bytes) : outcome TypingError (list bytes) :=
  match l with
  | [] => Done []
  | u :: l =>
      match user_is_ignored debug u sender_user w with
      | Done ignored => l ← not_ignored sender_user w l; Done (if ignored : bool then l else u :: l)
      | Fail e => Fail (TypingDb e)
      | Panic => Panic
      | OutOfFuel => OutOfFuel
      end
  end.

Definition typings_all (room_id sender_user : bytes) (s : Typing) : outcome TypingError (list bytes) :=
  match typing s !! room_id with
  | None => Done []
  | Some room => not_ignored sender_user (sys_world (sys s)) (in_order room).*1
  end.

(** ** Who is typing *)

Implicit Types (s : Typing).

Definition typing_at s (room_id user_id : bytes) : option Z := room_typing room_id s !! user_id.

Lemma typing_with_room r f s r' u :
  typing_at (with_room r f s) r' u = if decide (r' = r) then f (room_typing r s) !! u else typing_at s r' u.
Proof.
  unfold typing_at, room_typing, with_room. cbn. case_decide as Hr; [subst; by rewrite lookup_insert_eq|].
  by rewrite lookup_insert_ne.
Qed.

Lemma elem_of_in_order m u t : (u, t) ∈ in_order m <-> m !! u = Some t.
Proof. unfold in_order. by rewrite merge_sort_Permutation, elem_of_map_to_list. Qed.

Lemma lookup_deletes_users m l u t :
  foldl (fun m u => delete u m) m l !! u = Some t <-> (m : gmap bytes Z) !! u = Some t /\ u ∉ l.
Proof.
  revert m. induction l as [|v l IH]; intros m; cbn [foldl]; [set_solver|].
  rewrite IH, lookup_delete_Some. set_solver.
Qed.

(** Notices to other servers leave the typing users and the numbers alone. *)
Definition same_typing s s' : Prop := typing s' = typing s /\ last_update s' = last_update s.
#[local] Instance same_typing_preorder : PreOrder same_typing.
Proof. split; [done|]. intros a b c [H1 H2] [H3 H4]. split; congruence. Qed.

Lemma send_notice_keeps r u b : confined same_typing (send_notice r u b).
Proof. intros s. unfold send_notice. by destruct (send_edu_room _ _ _ _ _ _) as [[sys' []]|e| |]. Qed.

Lemma federation_keeps r u b : confined same_typing (federation_send r u b).
Proof.
  unfold federation_send. apply confined_bind; [apply _|apply confined_lift; apply _|]. intros [].
  destruct (negb allow_outgoing_typing); [apply confined_ret; apply _|apply send_notice_keeps].
Qed.

Lemma stopped_keeps r l : confined same_typing (for_each (send_stopped r) () l).
Proof.
  apply confined_for_each; [apply _|]. intros [] u. unfold send_stopped.
  destruct (is_local u); [apply federation_keeps|apply confined_ret; apply _].
Qed.

Lemma update_clients_runs r s :
  count_ok 1 (sys_world (sys s)) ->
  exists s', update_clients r s = (Done (), s') /\ typing s' = typing s /\
    last_update s' = <[r := (current (sys_world (sys s)) + 1)%Z]> (last_update s).
Proof.
  intros Hn. unfold update_clients. destruct (next_count_ok debug 1 (sys_world (sys s))) as (w & -> & _); [done..|]. by eexists.
Qed.

(** Somebody's time is over. *)
Definition overdue (now : Z) (r : bytes) s : Prop := exists u t, typing_at s r u = Some t /\ (t < now)%Z.

Definition maintained (now : Z) (r : bytes) s s' : Prop :=
  (forall r' u t, typing_at s' r' u = Some t <-> typing_at s r' u = Some t /\ ~ (r' = r /\ (t < now)%Z)) /\
  ((~ overdue now r s /\ last_update s' = last_update s) \/
   (overdue now r s /\ last_update s' = <[r := (current (sys_world (sys s)) + 1)%Z]> (last_update s))).

Lemma maintain_exact now r s :
  count_ok 1 (sys_world (sys s)) -> maintained now r s (typings_maintain now r s).2.
Proof.
  intros Hn. unfold typings_maintain. erewrite eff_step by done.
  destruct (typing s !! r) as [room|] eqn:Hr.
  2: { assert (forall u t, typing_at s r u <> Some t) as Hno by (intros; unfold typing_at, room_typing; by rewrite Hr).
       split; [intros r' u t; split; [|by intros []]|left; split; [|done]].
       - intros Ht. split; [done|]. intros [-> _]. by apply (Hno u t).
       - intros (u & t & Ht & _). by apply (Hno u t). }
  assert (forall u t, typing_at s r u = Some t <-> room !! u = Some t) as Hroom by (intros; unfold typing_at, room_typing; by rewrite Hr).
  set (removable := (filter _ _).*1).
  assert (forall u, u ∈ removable <-> exists t, typing_at s r u = Some t /\ (t < now)%Z) as Hrem.
  { intros u. unfold removable. rewrite list_elem_of_fmap. split.
    - intros ([u' t] & -> & [Hlt Hu]%list_elem_of_filter). exists t. by rewrite Hroom, <- elem_of_in_order.
    - intros (t & Ht & Hlt). exists (u, t). split; [done|]. apply list_elem_of_filter. by rewrite elem_of_in_order, <- Hroom. }
  case_decide as Hnil.
  - assert (~ overdue now r s) as Hno.
    { intros (u & t & Ht & Hlt). destruct (not_elem_of_nil u). rewrite <- Hnil. apply Hrem. eauto. }
    split; [intros r' u t; split; [|by intros []]|by left]. intros Ht. split; [done|]. intros [-> Hlt]. apply Hno. by exists u, t.
  - erewrite eff_step by done. set (s1 := with_room r _ s).
    destruct (update_clients_runs r s1) as (s2 & H2 & Ht2 & Hl2); [done|]. runs H2.
    destruct (stopped_keeps r removable s2) as [Ht3 Hl3]. split.
    + intros r' u t. unfold typing_at, room_typing. rewrite Ht3, Ht2. fold (room_typing r' s1). fold (typing_at s1 r' u).
      unfold s1. rewrite typing_with_room. fold (room_typing r' s). fold (typing_at s r' u). case_decide as Hrr; [subst r'|naive_solver].
      rewrite lookup_deletes_users, Hrem. change (room_typing r s !! u) with (typing_at s r u). naive_solver.
    + right. split; [|by rewrite Hl3, Hl2]. destruct removable as [|u l]; [done|].
      destruct (proj1 (Hrem u)) as (t & ?); [left|by exists u, t].
Qed.

Lemma not_ignored_exact sender w l :
  (forall u, exists b, user_is_ignored debug u sender w = Done b) ->
  exists l', not_ignored sender w l = Done l' /\ forall u, u ∈ l' <-> u ∈ l /\ user_is_ignored debug u sender w = Done false.
Proof.
  intros Hi. induction l as [|v l (l' & Hl & Hm)]; cbn [not_ignored]; [exists []; set_solver|].
  destruct (Hi v) as [b Hb]. rewrite Hb, Hl. cbn [mbind outcome_bind]. eexists. split; [done|].
  intros u. destruct b; [|set_solver]. rewrite Hm, elem_of_cons. split; [naive_solver|].
  intros [[->|] Hf]; [congruence|done].
Qed.

(** A user who started to type is shown until the given time or until they stop:
    a reader who asks for the number of the last change and then for the typing
    users is given exactly those whose time is not over and whom they do
    not ignore; if somebody's time was over, the number is a new one. *)
Theorem typing_shown_in_time now r sender s :
  let s' := (last_typing_update now r s).2 in
  count_ok 1 (sys_world (sys s)) -> (forall u, exists b, user_is_ignored debug u sender (sys_world (sys s')) = Done b) ->
  (exists l, typings_all r sender s' = Done l /\
     forall u, u ∈ l <-> (exists t, typing_at s r u = Some t /\ (now <= t)%Z) /\
       user_is_ignored debug u sender (sys_world (sys s')) = Done false) /\
  (overdue now r s -> last_update s' !! r = Some (current (sys_world (sys s)) + 1)%Z).
Proof.
  intros s' Hn Hi.
  assert (s' = (typings_maintain now r s).2) as Hs'.
  { unfold s', last_typing_update, mbind, eff_bind. by destruct (typings_maintain now r s) as [[] ?]. }
  destruct (maintain_exact now r s Hn) as [Ht Hl]. rewrite <- Hs' in Ht, Hl. clearbody s'. split.
  - unfold typings_all. assert (forall u t, room_typing r s' !! u = Some t <-> typing_at s r u = Some t /\ (now <= t)%Z) as Hr.
    { intros u t. change (room_typing r s' !! u) with (typing_at s' r u). rewrite Ht. split.
      - intros [Hu Hno]. split; [done|]. apply Z.nlt_ge. intros Hlt. by apply Hno.
      - intros [Hu Hle]. split; [done|]. intros [_ Hlt]. lia. }
    unfold room_typing in Hr. destruct (typing s' !! r) as [room|]; cbn [default] in Hr.
    + destruct (not_ignored_exact sender (sys_world (sys s')) (in_order room).*1 Hi) as (l & Hnl & Hm).
      exists l. split; [done|]. intros u. rewrite Hm, list_elem_of_fmap. split.
      * intros [([u' t] & -> & Hu%elem_of_in_order) Hf]. split; [|done]. exists t. by apply Hr.
      * intros [(t & Hu) Hf]. split; [|done]. exists (u, t). split; [done|]. by apply elem_of_in_order, Hr.
    + exists []. split; [done|]. intros u. split; [set_solver|]. intros [(t & Hu%Hr) _]. by rewrite lookup_empty in Hu.
  - intros Hov. destruct Hl as [[Hno _]|[_ ->]]; [done|]. by rewrite lookup_insert_eq.
Qed.

End typing.

Module ToyTyping.
#[local] Existing Instance list_engine.
#[local] Existing Instance toy_ids.
#[local] Existing Instance toy_json.
#[local] Existing Instance toy_member_json.

Definition room : bytes := str "!room:a".
Definition alice : bytes := str "@alice:a".
Definition bob : bytes := str "@bob:a".
Definition edu (r u : bytes) (b : bool) : bytes := u.

(** Alice's time is over at 100, Bob types until 500. *)
Definition start : Typing :=
  MkTyping {[ room := <[alice := 100%Z]> {[ bob := 500%Z ]} ]} ∅ [] (MkSystem (empty_world 10) [MkWorker ∅ [] []] false).

Lemma alice_overdue : overdue 200 room start.
Proof. exists alice, 100%Z. split; [by vm_compute|done]. Qed.

Lemma typing_shown_in_time_witness :
  let s' := (last_typing_update true (str "a") (fun _ => 0%Z) true edu 200 room start).2 in
  (exists l, typings_all true room bob s' = Done l /\ alice ∉ l) /\ last_update s' !! room = Some 11%Z.
Proof.
  destruct (typing_shown_in_time true (str "a") (fun _ => 0%Z) true edu 200 room bob start) as [(l & Hl & Hm) Ho].
  - by apply empty_world_ok.
  - intros u. exists false. by vm_compute.
  - split; [|apply Ho, alice_overdue]. exists l. split; [exact Hl|]. intros [(t & Ht & Hle) _]%Hm.
    assert (typing_at start room alice = Some 100%Z) as Ha by by vm_compute. rewrite Ha in Ht. injection Ht as <-. lia.
Defined.

End ToyTyping.
