(* ===== verification/LazyLoading.v ===== *)
(** * Lazy loading of members

    Models [src/service/rooms/lazy_loading/mod.rs]: which members of a room a device
    has been sent, so that a member is sent with the first events that need
    them and not again once the device has acknowledged them.

    The members asked for are distinct, so that each is looked up and marked in
    turn as if alone. *)

From stdpp Require Import prelude gmap strings list sorting.
From Stdlib Require Import ZArith Lia.
From Stdlib Require Import Strings.Byte.
From S2P Require Import Prelude MachineInt PduCount Matrix DbCodec DbMap CoreUtils Effects Short World AccountData.
From S2P Require Import StateCache Users ToDevice KeyBackups.

(** [LazyLoadOptions] of ruma *)
Inductive LazyLoadOptions := LazyDisabled | LazyEnabled (include_redundant : bool).

Definition is_enabled (o : LazyLoadOptions) : bool := match o with LazyDisabled => false | LazyEnabled _ => true end.
Definition include_redundant_members (o : LazyLoadOptions) : bool := match o with LazyEnabled b => b | LazyDisabled => false end.

(** [Context] *)
Record LazyContext := MkLazy {
  ctx_user : bytes; ctx_device : bytes; ctx_room : bytes; ctx_token : option Z; ctx_options : option LazyLoadOptions }.

Inductive Status := Unseen | Seen (n : Z).
#[export] Instance Status_eq_dec : EqDecision Status.
Proof. solve_decision. Defined.

Section lazy.
Context (debug : bool) {E : Engine} {I : Ids} (element_hacks : bool).

Abbreviation usr := (eff World UserError).

Definition lazy_key (ctx : LazyContext) (sender : bytes) : value :=
  backup_key (ctx_user ctx) (ctx_device ctx) (ctx_room ctx) sender.

Definition reset (ctx : LazyContext) : usr () :=
  ks ← scan (fun w => keys_prefix_raw debug (maps w lazyloadedids)
         (VTuple [VStr (ctx_user ctx); VStr (ctx_device ctx); VStr (ctx_room ctx); VInterfix]));
  modify (fun w => foldl (fun w k => rem lazyloadedids k w) w (ks : list bytes)).

Definition into_status (result : outcome DbError bytes) : outcome UserError Status :=
  match v ← deserialized debug TU64 result; number_of v with
  | Done seen => Done (Seen seen)
  | Fail _ => Done Unseen
  | Panic => Panic
  | OutOfFuel => OutOfFuel
  end.

Definition mark (ctx : LazyContext) (sender : bytes) (n : Z) : usr () :=
  change (upd lazyloadedids (fun t => put_aput debug 8 t (lazy_key ctx sender) (VU64 n))).

(** The status of one member, who is marked as seen. *)
Definition witness (ctx : LazyContext) (sender : bytes) : usr Status :=
  status ← (fun w => (into_status (qry debug (maps w lazyloadedids) (lazy_key ctx sender)), w));
  _ ← (match status with
       | Unseen => mark ctx sender 0
       | Seen n => if decide (n = 0%Z) then mark ctx sender (default 0%Z (ctx_token ctx)) else mret ()
       end);
  mret status.

Definition include (ctx : LazyContext) (status : Status) : bool :=
  (element_hacks || from_option include_redundant_members false (ctx_options ctx))
  || bool_decide (status = Unseen)
  || match status with Seen seen => (seen =? 0)%Z || bool_decide (ctx_token ctx = Some seen) | Unseen => false end.

Definition retain_one (ctx : LazyContext) (kept : gset bytes) (sender : bytes) : usr (gset bytes) :=
  status ← witness ctx sender;
  mret (if include ctx status then {[ sender ]} ∪ kept else kept).

Definition witness_retain (senders : list bytes) (ctx : LazyContext) : usr (gset bytes) :=
  _ ← lift_eff (debug_assert debug (from_option is_enabled true (ctx_options ctx)));
  for_each (retain_one ctx) ∅ senders.

End lazy.

(** ** What a device has been sent *)

Section sent.
Context (debug : bool) {E : Engine} {I : Ids} (element_hacks : bool).
Abbreviation seen_map := (gmap vault_key Z).
Implicit Types (m : seen_map) (w : World) (ctx : LazyContext).

Definition lz (ctx : LazyContext) (s : bytes) : vault_key := (ctx_user ctx, ctx_device ctx, ctx_room ctx, s).

Record lazily w m : Prop := {
  lz_all : forall x n, m !! x = Some n -> vk_ok x /\ is_u64 n;
  lz_rows : forall k b, maps w lazyloadedids !! k = Some b <-> exists x n, k = vk x /\ b = u64_to_be_bytes n /\ m !! x = Some n }.

Lemma mark_spec ctx s n w m :
  lazily w m -> vk_ok (lz ctx s) -> is_u64 n ->
  exists w', mark debug ctx s n w = (Done (), w') /\ lazily w' (<[lz ctx s := n]> m) /\ frame [lazyloadedids] w w'.
Proof.
  intros [HA HR] Ho Hn. exists (ins lazyloadedids (vk (lz ctx s)) (u64_to_be_bytes n) w). split_and!.
  - unfold mark, change. assert (put_aput debug 8 (maps w lazyloadedids) (lazy_key ctx s) (VU64 n) =
      Done (<[vk (lz ctx s) := u64_to_be_bytes n]> (maps w lazyloadedids))) as Hp.
    { unfold put_aput, bput. assert (buffer_serialize debug (Some 8) (VU64 n) = Done (u64_to_be_bytes n)) as ->.
      { unfold buffer_serialize, serialize. cbn [ser_value]. unfold write. cbn [out cap app from_option].
        rewrite length_u64_to_be. by destruct debug. }
      cbn [mbind outcome_bind]. unfold bput_raw. change (buffer_serialize debug None ?k) with (serialize_key debug k).
      unfold lazy_key. by rewrite (vk_ser debug (I := I)). }
    unfold upd. by rewrite Hp.
  - split.
    + intros y n' [[<- <-]|[_ Hy]]%lookup_insert_Some; [done|by apply HA].
    + intros k b. world_simpl. rewrite lookup_insert_Some, HR. split.
      * intros [[<- <-]|(Hne & y & n' & -> & -> & Hy)]; [exists (lz ctx s), n; by rewrite lookup_insert_eq|].
        exists y, n'. split_and!; [done..|]. rewrite lookup_insert_ne; [done|]. by intros <-.
      * intros (y & n' & -> & -> & [[<- <-]|[Hne Hy]]%lookup_insert_Some); [by left|right].
        split; [|by eauto]. intros Ek%vk_inj; [done..|by apply (HA y n')].
  - frame_steps.
Qed.

(** The status of a member, and what is noted when they are asked for. *)
Definition status_of m ctx (s : bytes) : Status := from_option Seen Unseen (m !! lz ctx s).
Definition noted m ctx (s : bytes) : Z :=
  match m !! lz ctx s with
  | None => 0%Z
  | Some n => if decide (n = 0%Z) then default 0%Z (ctx_token ctx) else n
  end.

Lemma witness_spec ctx s w m :
  lazily w m -> vk_ok (lz ctx s) -> is_u64 (default 0%Z (ctx_token ctx)) ->
  exists w', witness debug ctx s w = (Done (status_of m ctx s), w') /\ lazily w' (<[lz ctx s := noted m ctx s]> m).
Proof.
  intros HL Ho Ht. unfold witness, status_of, noted.
  assert (into_status debug (qry debug (maps w lazyloadedids) (lazy_key ctx s)) = Done (from_option Seen Unseen (m !! lz ctx s))) as Hs.
  { unfold qry, bqry. change (buffer_serialize debug None ?k) with (serialize_key debug k). unfold lazy_key. rewrite (vk_ser debug (I := I)) by done.
    cbn [mbind outcome_bind lift_de]. unfold get, into_status, deserialized. fold (lz ctx s).
    destruct (maps w lazyloadedids !! vk (lz ctx s)) as [b|] eqn:Hb; cbn [ok_or mbind outcome_bind].
    - apply (lz_rows w m HL) in Hb as (x & n & Ek & -> & Hx). apply vk_inj in Ek as <-; [|done|by eapply lz_all].
      rewrite Hx, from_slice_u64 by by eapply lz_all. done.
    - destruct (m !! lz ctx s) as [n|] eqn:Hx; [|done].
      rewrite (proj2 (lz_rows w m HL _ (u64_to_be_bytes n))) in Hb by eauto. done. }
  erewrite eff_step by by rewrite Hs. destruct (m !! lz ctx s) as [n|] eqn:Hx; cbn [from_option].
  - case_decide as H0.
    + destruct (mark_spec ctx s (default 0%Z (ctx_token ctx)) w m) as (w' & H' & HL' & _); [done..|]. exists w'. by runs H'.
    + erewrite eff_step by done. exists w. by rewrite insert_id.
  - destruct (mark_spec ctx s 0 w m) as (w' & H' & HL' & _); [done..|]. exists w'. by runs H'.
Qed.

Lemma retain_spec ctx senders kept w m :
  lazily w m -> NoDup senders -> (forall s, s ∈ senders -> vk_ok (lz ctx s)) -> is_u64 (default 0%Z (ctx_token ctx)) ->
  exists w' kept' m', for_each (retain_one debug element_hacks ctx) kept senders w = (Done kept', w') /\ lazily w' m' /\
    (forall s, s ∈ kept' <-> s ∈ kept \/ s ∈ senders /\ include element_hacks ctx (status_of m ctx s) = true) /\
    (forall s, s ∈ senders -> m' !! lz ctx s = Some (noted m ctx s)) /\
    (forall x, (forall s, s ∈ senders -> x <> lz ctx s) -> m' !! x = m !! x).
Proof.
  revert kept w m. induction senders as [|s senders IH]; intros kept w m HL Hnd Ho Ht; cbn [for_each].
  { exists w, kept, m. split_and!; [done|done|set_solver|set_solver|done]. }
  apply NoDup_cons in Hnd as [Hs Hnd]. destruct (witness_spec ctx s w m) as (w1 & H1 & HL1); [done|apply Ho; left|done|].
  set (m1 := <[lz ctx s := noted m ctx s]> m) in *.
  set (kept1 := if include element_hacks ctx (status_of m ctx s) then {[ s ]} ∪ kept else kept).
  assert (retain_one debug element_hacks ctx kept s w = (Done kept1, w1)) as Hone by (unfold retain_one; by runs H1).
  runs Hone.
  destruct (IH kept1 w1 m1) as (w' & kept' & m' & H' & HL' & Hk & Hn & Hx); [done|done|intros; apply Ho; by right|done|].
  assert (forall s', s' ∈ senders -> m1 !! lz ctx s' = m !! lz ctx s') as Hm1.
  { intros s' Hs'. unfold m1. rewrite lookup_insert_ne; [done|]. intros [= ->]. done. }
  assert (forall s', s' ∈ senders -> status_of m1 ctx s' = status_of m ctx s' /\ noted m1 ctx s' = noted m ctx s') as Hsame.
  { intros s' Hs'. unfold status_of, noted. by rewrite Hm1. }
  exists w', kept', m'. split_and!; [exact H'|exact HL'|..].
  - intros s'. rewrite Hk. unfold kept1. rewrite elem_of_cons. split.
    + intros [Hin|[Hs' Hi]]; [|right; split; [by right|]; by destruct (Hsame s' Hs') as [<- _]].
      destruct (include element_hacks ctx (status_of m ctx s)) eqn:Hi; set_solver.
    + intros [Hin|[[->|Hs'] Hi]]; [left; destruct (include _ _ _); set_solver|left; rewrite Hi; set_solver|].
      right. split; [done|]. by destruct (Hsame s' Hs') as [-> _].
  - intros s' [->|Hs']%elem_of_cons.
    + rewrite Hx by (intros s' Hs' [= ->]; done). unfold m1. by rewrite lookup_insert_eq.
    + rewrite Hn by done. by destruct (Hsame s' Hs') as [_ ->].
  - intros x Hx'. rewrite Hx by (intros s' Hs'; apply Hx'; by right). unfold m1.
    rewrite lookup_insert_ne; [done|]. intros <-. by apply (Hx' s); [left|].
Qed.

(** A member is sent with the first request and with the next one, whose token is
    noted; then they are left out of the requests of every later token, and
    sent again only if that request is repeated. *)
Theorem member_sent_until_acknowledged ctx t s w m :
  let at_token n := MkLazy (ctx_user ctx) (ctx_device ctx) (ctx_room ctx) n (Some (LazyEnabled false)) in
  element_hacks = false -> lazily w m -> vk_ok (lz ctx s) -> m !! lz ctx s = None -> is_u64 t -> t <> 0%Z ->
  exists w1 w2, witness_retain debug element_hacks [s] (at_token None) w = (Done {[ s ]}, w1) /\
    witness_retain debug element_hacks [s] (at_token (Some t)) w1 = (Done {[ s ]}, w2) /\
    forall t', is_u64 t' -> exists w3,
      witness_retain debug element_hacks [s] (at_token (Some t')) w2 = (Done (if decide (t' = t) then {[ s ]} else ∅), w3).
Proof.
  intros at_token Hh HL Ho Hm Ht H0.
  assert (forall n w m, lazily w m -> is_u64 (default 0%Z n) -> exists w' m',
    witness_retain debug element_hacks [s] (at_token n) w =
      (Done (if include element_hacks (at_token n) (status_of m ctx s) then {[ s ]} else ∅), w') /\ lazily w' m' /\
    m' !! lz ctx s = Some (noted m (at_token n) s)) as Hstep.
  { intros n v mv HLv Hn. unfold witness_retain. erewrite eff_step by by destruct debug.
    destruct (retain_spec (at_token n) [s] ∅ v mv) as (w' & kept & m' & H' & HL' & Hk & Hn' & _); [done|apply NoDup_singleton| |done|].
    { by intros s' ->%list_elem_of_singleton. }
    exists w', m'. rewrite H'. split_and!; [|done|by apply Hn'; left]. do 2 f_equal.
    apply set_eq. intros s'. rewrite Hk, list_elem_of_singleton, elem_of_empty.
    change (status_of mv (at_token n) s') with (status_of mv ctx s'). split.
    - intros [[]|[-> Hi]]. rewrite Hi. by apply elem_of_singleton.
    - destruct (include _ _ (status_of mv ctx s)) eqn:Hi; [intros ->%elem_of_singleton; by right|by intros ?%elem_of_empty]. }
  destruct (Hstep None w m) as (w1 & m1 & H1 & HL1 & Hm1); [done..|].
  destruct (Hstep (Some t) w1 m1) as (w2 & m2 & H2 & HL2 & Hm2); [done..|].
  unfold status_of, noted in *. change (lz (at_token None) s) with (lz ctx s) in *.
  change (lz (at_token (Some t)) s) with (lz ctx s) in *. rewrite Hm in H1, Hm1. rewrite Hm1 in H2, Hm2. rewrite decide_True in Hm2 by done. cbn [default from_option] in Hm2.
  exists w1, w2. split_and!; [by rewrite H1, Hh|rewrite H2, Hh; cbn; done|].
  intros t' Ht'. destruct (Hstep (Some t') w2 m2) as (w3 & m3 & H3 & _); [done..|]. exists w3. rewrite H3.
  rewrite Hm2, Hh. unfold include, at_token. cbn [from_option include_redundant_members ctx_options ctx_token orb].
  unfold id. rewrite (bool_decide_false (Seen t = Unseen)), (proj2 (Z.eqb_neq t 0)) by done. cbn [orb]. do 2 f_equal.
  destruct (decide (t' = t)) as [->|Hne]; [by rewrite bool_decide_true|]. rewrite bool_decide_false; [done|]. congruence.
Qed.

End sent.

Module ToyLazy.
#[local] Existing Instance list_engine.
#[local] Existing Instance toy_ids.

Definition ctx : LazyContext := MkLazy (str "@alice:a") (str "PHONE") (str "!room:a") None None.
Definition bob : bytes := str "@bob:a".

Lemma nothing_sent : lazily (empty_world 10) ∅.
Proof. split; [done|]. intros k b. split; [done|]. by intros (? & ? & _ & _ & ?). Qed.

Lemma member_sent_until_acknowledged_witness :
  exists w1 w2 w3,
    witness_retain true false [bob] (MkLazy (str "@alice:a") (str "PHONE") (str "!room:a") None (Some (LazyEnabled false)))
      (empty_world 10) = (Done {[ bob ]}, w1) /\
    witness_retain true false [bob] (MkLazy (str "@alice:a") (str "PHONE") (str "!room:a") (Some 5%Z) (Some (LazyEnabled false)))
      w1 = (Done {[ bob ]}, w2) /\
    witness_retain true false [bob] (MkLazy (str "@alice:a") (str "PHONE") (str "!room:a") (Some 6%Z) (Some (LazyEnabled false)))
      w2 = (Done ∅, w3).
Proof.
  destruct (member_sent_until_acknowledged true false ctx 5 bob (empty_world 10) ∅) as (w1 & w2 & H1 & H2 & H3).
  - done.
  - apply nothing_sent.
  - by split; [split|split]; vm_compute.
  - done.
  - done.
  - done.
  - destruct (H3 6%Z) as (w3 & H4); [done|]. exists w1, w2, w3. split_and!; [exact H1|exact H2|exact H4].
Defined.

End ToyLazy.
