(* ===== verification/Upgrade.v ===== *)
(** * From an accepted event to the timeline

    Models the rest of [src/service/rooms/event_handler]: the state at an event
    ([state_at_incoming.rs], [fetch_state.rs]), resolution with the current
    state ([resolve_state.rs]), the step from an outlier to the timeline
    ([upgrade_outlier_pdu.rs], [handle_prev_pdu.rs]) and the entry point for
    received events ([handle_incoming_pdu.rs], [acl_check.rs],
    [parse_incoming_pdu.rs]).

    The handler calls the room services through [RoomServices], which names what
    it needs of each and what each leaves alone. *)

From stdpp Require Import prelude gmap strings list sorting.
From Stdlib Require Import ZArith Lia.
From S2P Require Import Prelude MachineInt PduCount TopoSort Matrix EventAuth StateRes CoreUtils Effects Outliers.
From S2P Require Import FetchPrev StateCompressor.
Import PduId.

(** The content of [m.room.server_acl], and ruma's [is_allowed]. *)
Record ServerAcl := MkAcl { acl_allow : list string; acl_deny : list string }.

Class HandlerRuma := {
  acl_is_allowed : ServerAcl -> string -> bool;
  de_redaction : string -> option (option string);   (** [RoomRedactionEventContent::redacts] *)
  as_str_room_id : CanonicalJsonValue -> option string;
  as_user_id : CanonicalJsonValue -> option string;
  get_room_state_ids : nat -> string -> string -> string -> option (list string) }.

Class RoomServices {EJ : EventJson} {PS : PduStore} := {
  (** [pdu_metadata] *)
  event_soft_failed : string -> store -> bool;
  mark_soft_failed : string -> store -> store;
  event_referenced : string -> string -> store -> bool;
  (** [short] *)
  shortstatekey : EventType -> string -> store -> option Z;
  new_shortstatekey : EventType -> string -> eff store () Z;
  statekey_of_short : Z -> store -> option TypeStateKey;
  (** [state] and [state_accessor] *)
  event_shortstatehash : string -> store -> option Z;
  room_shortstatehash : string -> store -> option Z;
  full_ids : Z -> eff store () (list (Z * string));
  auth_events_in_state : string -> EventType -> string -> option string -> string ->
    eff store () (StateMap Event);
  can_redact : string -> string -> string -> bool -> eff store () bool;
  extremities_of : string -> store -> list string;
  room_create : string -> eff store () Event;
  room_acl : string -> eff store () ServerAcl;
  room_version : string -> eff store () RoomVersionId;
  force_room_state : string -> Z -> CompressedState -> CompressedState -> eff store () ();
  (** [auth_chain] and [state_compressor] *)
  auth_chain_of : string -> list string -> eff store () (gset string);
  compress_state : list (Z * string) -> eff store () CompressedState;
  save_room_state : string -> CompressedState -> eff store () HashSetCompressStateEvent;
  (** [timeline] and [metadata] *)
  append_incoming : Event -> CanonicalJsonObject -> list string -> CompressedState -> bool ->
    eff store () (option RawId);
  first_ts : string -> store -> option Z;
  room_exists : string -> store -> bool;
  room_disabled : string -> store -> bool }.

Section upgrade.
Context {R : Ruma} {EJ : EventJson} {FD : Federation} {PS : PduStore} {RS : RoomServices} {HR : HandlerRuma}.
Context {sched : Schedule} (debug : bool) (fetch_fuel resolve_fuel : nat) (automatic_width : nat).

Abbreviation handler := (eff (Handler PS) HandlerError).

(** A call of a service; which error it returns is not told apart. *)
Definition on_store {A} (m : eff store () A) : handler A := fun h =>
  let '(o, s) := m (db h) in
  (match o with Done a => Done a | Fail _ => Fail ServiceFailed | Panic => Panic | OutOfFuel => OutOfFuel end,
   MkHandler _ _ s (bad_event_ratelimiter h) (requests h)).

(** A [HashMap] collected from a stream: the last entry of a key stays. *)
Definition collect {K V} `{Countable K} (l : list (K * V)) : gmap K V := list_to_map (reverse l).

(** ** [state_at_incoming.rs] *)

(** The state after [event], from the state before it. *)
Definition state_after (state : gmap Z string) (event : Event) (id : string) : handler (gmap Z string) :=
  match state_key event with
  | Some sk => k ← on_store (new_shortstatekey (event_type event) sk); mret (<[k := id]> state)
  | None => mret state
  end.

Definition state_at_incoming_degree_one (incoming_pdu : Event) : handler (option (gmap Z string)) :=
  prev_event ← lift_eff (expect (head (prev_events incoming_pdu)));
  hash ← gets (fun h => event_shortstatehash prev_event (db h));
  match hash with
  | None => mret None
  | Some prev_event_sstatehash =>
      l ← on_store (full_ids prev_event_sstatehash);
      found ← gets (fun h => get_pdu prev_event (db h));
      prev_pdu ← lift_eff (ok_or MissingPrevEvent found);
      state ← state_after (collect l) prev_pdu prev_event;
      _ ← lift_eff (if debug && bool_decide (state = ∅) then Panic else Done ());
      mret (Some state)
  end.

(** The previous events by the number of the state before them; [None] if one
    of them or its state is unknown. *)
Definition fork_point (s : store) (id : string) : option (Z * Event) :=
  prev_event ← get_pdu id s; sstatehash ← event_shortstatehash id s; Some (sstatehash, prev_event).

Definition fork_points (prev_events : list string) (s : store) : option (gmap Z Event) :=
  collect <$> mapM (fork_point s) (reorder "prev events" prev_events).

(** Keys with a name, with their events. *)
Definition named_state (s : store) (state : list (Z * string)) : StateMap string :=
  collect (omap (fun '(k, id) => name ← statekey_of_short k s; Some (name, id)) state).

Definition state_at_incoming_fork (room_id : string) (sstatehash : Z) (prev_event : Event)
    : handler (StateMap string * gset string) :=
  l ← on_store (full_ids sstatehash);
  leaf_state ← state_after (collect l) prev_event (event_id prev_event);
  let entries := reorder "leaf state" (map_to_list leaf_state) in
  fork_state ← gets (fun h => named_state (db h) entries);
  auth_chain ← on_store (auth_chain_of room_id entries.*2);
  mret (fork_state, auth_chain).

Definition state_resolution (room_version_id : RoomVersionId) (state_sets : list (StateMap string))
    (auth_chain_sets : list (gset string)) (s : store) : outcome HandlerError (StateMap string) :=
  match resolve (fun id => get_pdu id s) (fun id => pdu_exists id s) resolve_fuel room_version_id state_sets
          auth_chain_sets automatic_width with
  | Done st => Done st
  | Fail e => Fail (ResolutionFailed e)
  | Panic => Panic
  | OutOfFuel => OutOfFuel
  end.

(** Numbers the keys of a state. *)
Definition number_key (acc : list (Z * string)) (entry : TypeStateKey * string) : handler (list (Z * string)) :=
  let '((ty, sk), id) := entry in
  k ← on_store (new_shortstatekey ty sk); mret (acc ++ [(k, id)]).
Definition number_state (state : StateMap string) : handler (list (Z * string)) :=
  for_each number_key [] (reorder "resolved state" (map_to_list state)).

Definition fork_of (room_id : string) (acc : list (StateMap string) * list (gset string)) (point : Z * Event)
    : handler (list (StateMap string) * list (gset string)) :=
  '(fork_state, auth_chain) ← state_at_incoming_fork room_id point.1 point.2;
  mret (acc.1 ++ [fork_state], acc.2 ++ [auth_chain]).

Definition state_at_incoming_resolved (incoming_pdu : Event) (room_id : string) (room_version_id : RoomVersionId)
    : handler (option (gmap Z string)) :=
  points ← gets (fun h => fork_points (prev_events incoming_pdu) (db h));
  match points with
  | None => mret None
  | Some extremity_sstatehashes =>
      '(fork_states, auth_chain_sets) ←
        for_each (fork_of room_id) ([], []) (reorder "forks" (map_to_list extremity_sstatehashes));
      resolved ← gets (fun h => state_resolution room_version_id fork_states auth_chain_sets (db h));
      new_state ← attempt (lift_eff resolved);
      match new_state with
      | inl _ => mret None
      | inr new_state => l ← number_state new_state; mret (Some (collect l))
      end
  end.

(** ** [fetch_state.rs] *)

Definition insert_state (state : gmap Z string) (item : Event * option CanonicalJsonObject) : handler (gmap Z string) :=
  let pdu := item.1 in
  sk ← lift_eff (ok_or NonStateEvent (state_key pdu));
  k ← on_store (new_shortstatekey (event_type pdu) sk);
  match state !! k with
  | None => mret (<[k := event_id pdu]> state)
  | Some _ => throw DuplicateStateKey
  end.

Definition fetch_state (origin : string) (create_event : Event) (room_id event_id' : string)
    : handler (option (gmap Z string)) :=
  res ← request (fun n => get_room_state_ids n origin room_id event_id');
  pdu_ids ← lift_eff (ok_or NoStateResponse res);
  state_vec ← fetch_and_handle_outliers fetch_fuel origin create_event room_id pdu_ids;
  state ← for_each insert_state ∅ state_vec;
  key ← gets (fun h => shortstatekey RoomCreate "" (db h));
  create_shortstatekey ← lift_eff (ok_or NoCreateKey key);
  if decide (state !! create_shortstatekey = Some (event_id create_event)) then mret (Some state)
  else throw WrongCreateEvent.

(** ** [resolve_state.rs] *)

Definition chain_of (room_id : string) (acc : list (gset string)) (state : list (Z * string))
    : handler (list (gset string)) :=
  c ← on_store (auth_chain_of room_id state.*2); mret (acc ++ [c]).

Definition resolve_state (room_id : string) (room_version_id : RoomVersionId) (incoming_state : gmap Z string)
    : handler CompressedState :=
  current ← gets (fun h => room_shortstatehash room_id (db h));
  current_sstatehash ← lift_eff (ok_or NoRoomState current);
  l ← on_store (full_ids current_sstatehash);
  let fork_states := (fun m => reorder "fork state" (map_to_list m)) <$> [collect l : gmap Z string; incoming_state] in
  auth_chain_sets ← for_each (chain_of room_id) [] fork_states;
  named ← gets (fun h => named_state (db h) <$> fork_states);
  resolved ← gets (fun h => state_resolution room_version_id named auth_chain_sets (db h));
  state ← lift_eff resolved;
  state_events ← number_state state;
  on_store (compress_state state_events).

(** ** [upgrade_outlier_pdu.rs] *)

Definition redacts_id (pdu : Event) (room_version_id : RoomVersionId) : option string :=
  if decide (event_type pdu <> RoomRedaction) then None else
  match room_version_id with
  | IdV1 | IdV2 | IdV3 | IdV4 | IdV5 | IdV6 | IdV7 | IdV8 | IdV9 | IdV10 => redacts pdu
  | _ => default None (de_redaction (content pdu))
  end.

(** Step 10. *)
Definition state_at_event (incoming_pdu : Event) (create_event : Event) (origin room_id : string)
    (room_version_id : RoomVersionId) : handler (gmap Z string) :=
  known ← (if decide (length (prev_events incoming_pdu) = 1)
           then state_at_incoming_degree_one incoming_pdu
           else state_at_incoming_resolved incoming_pdu room_id room_version_id);
  known ← (match known with
           | None => fetch_state origin create_event room_id (event_id incoming_pdu)
           | Some state => mret (Some state)
           end);
  lift_eff (expect known).

(** What the authorization rules see of the state at the event. *)
Definition fetch_at (s : store) (state : gmap Z string) (ty : EventType) (sk : string) : option Event :=
  k ← shortstatekey ty sk s; id ← state !! k; get_pdu id s.

(** Steps 11 and 14: the event against the state at it, and against the
    current state; the result says whether to soft-fail it. *)
Definition check_event (incoming_pdu : Event) (room_id : string) (room_version_id : RoomVersionId)
    (state : gmap Z string) : handler bool :=
  rv ← lift_eff (to_room_version room_version_id);
  at_event ← gets (fun h => auth_check rv incoming_pdu None (fetch_at (db h) state));
  passed ← lift_eff (map_auth_err at_event);
  if negb passed then throw RefusedByState else
  auth_events ← on_store (auth_events_in_state room_id (event_type incoming_pdu) (sender incoming_pdu)
                            (state_key incoming_pdu) (content incoming_pdu));
  passed ← lift_eff (map_auth_err (auth_check rv incoming_pdu None (fun ty sk => auth_events !! (ty, sk))));
  match passed, redacts_id incoming_pdu room_version_id with
  | false, _ => mret true
  | true, None => mret false
  | true, Some redact_id =>
      allowed ← on_store (can_redact redact_id (sender incoming_pdu) (Matrix.room_id incoming_pdu) true);
      mret (negb allowed)
  end.

(** The extremities that stay. *)
Definition remaining_extremities (incoming_pdu : Event) (room_id : string) (s : store) : list string :=
  reorder "extremities" (filter (fun id => event_referenced room_id id s = false)
    (filter (fun id => id ∉ prev_events incoming_pdu) (extremities_of room_id s))).

(** Step 13. *)
Definition derive_state (incoming_pdu : Event) (room_id : string) (room_version_id : RoomVersionId)
    (state : gmap Z string) : handler () :=
  match state_key incoming_pdu with
  | None => mret ()
  | Some _ =>
      after ← state_after state incoming_pdu (event_id incoming_pdu);
      new_room_state ← resolve_state room_id room_version_id after;
      saved ← on_store (save_room_state room_id new_room_state);
      on_store (force_room_state room_id (new_hash saved) (new_added saved) (new_removed saved))
  end.

Definition upgrade_outlier_to_timeline_pdu (incoming_pdu : Event) (val : CanonicalJsonObject)
    (create_event : Event) (origin room_id : string) : handler (option RawId) :=
  known ← gets (fun h => get_pdu_id (event_id incoming_pdu) (db h));
  match known with
  | Some pduid => mret (Some pduid)
  | None =>
      failed ← gets (fun h => event_soft_failed (event_id incoming_pdu) (db h));
      if failed : bool then throw SoftFailed else
      room_version_id ← lift_eff (get_room_version_id create_event);
      state ← state_at_event incoming_pdu create_event origin room_id room_version_id;
      soft_fail ← check_event incoming_pdu room_id room_version_id state;
      extremities ← gets (fun h => remaining_extremities incoming_pdu room_id (db h));
      compressed ← on_store (compress_state (reorder "state at event" (map_to_list state)));
      _ ← derive_state incoming_pdu room_id room_version_id state;
      if soft_fail : bool then
        _ ← on_store (append_incoming incoming_pdu val extremities compressed soft_fail);
        _ ← on_store (modify (mark_soft_failed (event_id incoming_pdu)));
        throw SoftFailed
      else
        on_store (append_incoming incoming_pdu val (extremities ++ [event_id incoming_pdu]) compressed soft_fail)
  end.

(** ** [handle_prev_pdu.rs] *)

Definition handle_prev_pdu (origin room_id : string) (eventid_info : option (Event * CanonicalJsonObject))
    (create_event : Event) (first_ts_in_room : Z) (prev_id : string) : handler () :=
  disabled ← gets (fun h => room_disabled room_id (db h));
  if disabled : bool then throw RoomDisabled else
  backing ← gets (backing_off (5 * 60) (60 * 60 * 24) prev_id);
  if backing : bool then mret () else
  match eventid_info with
  | None => mret ()
  | Some (pdu, json) =>
      if (origin_server_ts pdu <? first_ts_in_room)%Z then mret () else
      _ ← upgrade_outlier_to_timeline_pdu pdu json create_event origin room_id; mret ()
  end.

(** ** [acl_check.rs] *)

Definition acl_check (server_name room_id : string) : handler () :=
  acl ← attempt (on_store (room_acl room_id));
  match acl with
  | inl _ => mret ()
  | inr acl =>
      if decide (acl_allow acl = []) then mret () else
      if decide ("*" ∈ acl_deny acl /\ "*" ∈ acl_allow acl) then mret () else
      if acl_is_allowed acl server_name then mret () else throw DeniedByAcl
  end.

(** ** [handle_incoming_pdu.rs] *)

(** One previous event: a failure is noted and does not stop the others; its
    entry is taken out of the map. *)
Definition handle_one_prev (origin room_id : string) (create_event : Event) (first_ts_in_room : Z)
    (eventid_info : prev_info) (prev_id : string) : handler prev_info :=
  r ← attempt (handle_prev_pdu origin room_id (eventid_info !! prev_id) create_event first_ts_in_room prev_id);
  _ ← (match r with inl _ => back_off prev_id | inr _ => mret () end);
  _ ← check_running;
  mret (delete prev_id eventid_info).

Section incoming.
Context (prev_fuel : nat) (max_fetch_prev_events : Z).

(** Steps 1.1 to 1.3: [try_join5]. *)
Definition admit_request (origin room_id : string) (value : CanonicalJsonObject) : handler Event :=
  sender ← lift_eff (ok_or NoValidSender (value !! "sender" ≫= as_user_id));
  exists_ ← gets (fun h => room_exists room_id (db h));
  disabled ← gets (fun h => room_disabled room_id (db h));
  _ ← acl_check origin room_id;
  _ ← (if decide (user_server_name sender <> origin) then acl_check (user_server_name sender) room_id else mret ());
  create_event ← on_store (room_create room_id);
  if negb exists_ then throw UnknownRoom else
  if disabled : bool then throw RoomDisabled else
  mret create_event.

Definition handle_incoming_pdu (origin room_id event_id' : string) (value : CanonicalJsonObject)
    (is_timeline_event : bool) : handler (option RawId) :=
  known ← gets (fun h => get_pdu_id event_id' (db h));
  match known with
  | Some pdu_id => mret (Some pdu_id)
  | None =>
      create_event ← admit_request origin room_id value;
      '(incoming_pdu, val) ← handle_outlier_pdu fetch_fuel origin create_event room_id event_id' value false;
      if negb is_timeline_event then mret None else
      ts ← gets (fun h => first_ts room_id (db h));
      first_ts_in_room ← lift_eff (ok_or ServiceFailed ts);
      if (origin_server_ts incoming_pdu <? first_ts_in_room)%Z then mret None else
      '(sorted_prev_events, eventid_info) ←
        fetch_prev fetch_fuel max_fetch_prev_events origin create_event room_id first_ts_in_room
          prev_fuel (prev_events incoming_pdu);
      _ ← for_each (handle_one_prev origin room_id create_event first_ts_in_room) eventid_info
            (sorted_prev_events : list string);
      upgrade_outlier_to_timeline_pdu incoming_pdu val create_event origin room_id
  end.

End incoming.

(** ** [parse_incoming_pdu.rs] *)

Definition parse_incoming_pdu (pdu : string) : handler (string * string * CanonicalJsonObject) :=
  value ← lift_eff (ok_or BadServerResponse (from_str pdu));
  room_id ← lift_eff (ok_or NoRoomId (value !! "room_id" ≫= as_str_room_id));
  version ← attempt (on_store (room_version room_id));
  match version with
  | inl _ => throw UnknownRoom
  | inr room_version_id =>
      '(event_id', value) ← lift_eff (ok_or BadJson (gen_event_id_canonical_json pdu room_version_id));
      mret (room_id, event_id', value)
  end.

End upgrade.

(** ** What the services promise *)

(** No event is added, removed or changed. *)
Definition same_events {EJ : EventJson} {PS : PduStore} (s s' : store) : Prop := forall id,
  get_pdu_id id s' = get_pdu_id id s /\ get_pdu id s' = get_pdu id s /\
  get_outlier_pdu_json id s' = get_outlier_pdu_json id s.

(** The services other than the timeline only read events; the timeline adds
    the event it is given, unless it is to be soft-failed. *)
Class RoomLaws {EJ : EventJson} {PS : PduStore} (RS : RoomServices) := {
  marked_soft_failed : forall id s, event_soft_failed id (mark_soft_failed id s) = true;
  mark_same : forall id s, same_events s (mark_soft_failed id s);
  new_key_same : forall ty sk, confined same_events (new_shortstatekey ty sk);
  full_ids_same : forall h, confined same_events (full_ids h);
  auth_events_same : forall r ty u sk c, confined same_events (auth_events_in_state r ty u sk c);
  can_redact_same : forall e u r b, confined same_events (can_redact e u r b);
  room_create_same : forall r, confined same_events (room_create r);
  room_acl_same : forall r, confined same_events (room_acl r);
  force_same : forall r h a d, confined same_events (force_room_state r h a d);
  auth_chain_same : forall r ids, confined same_events (auth_chain_of r ids);
  compress_same : forall l, confined same_events (compress_state l);
  save_same : forall r c, confined same_events (save_room_state r c);
  append_soft_failed : forall e v l c, confined same_events (append_incoming e v l c true);
  append_only : forall e v l c s id, id <> event_id e ->
    get_pdu_id id (append_incoming e v l c false s).2 = get_pdu_id id s }.

#[export] Hint Resolve new_key_same full_ids_same auth_events_same can_redact_same room_create_same room_acl_same
  force_same auth_chain_same compress_same save_same append_soft_failed : eff.

Section quiet.
Context {R : Ruma} {EJ : EventJson} {FD : Federation} {PS : PduStore} {RS : RoomServices} {HR : HandlerRuma}.
Context {RL : RoomLaws RS} {sched : Schedule} (debug : bool) (fetch_fuel resolve_fuel automatic_width : nat).

(** The timeline is the same; outliers may have been added. *)
Definition same_timeline (h h' : Handler PS) : Prop := forall id, get_pdu_id id (db h') = get_pdu_id id (db h).

#[global] Instance same_events_preorder : PreOrder (same_events (PS := PS)).
Proof. split; [done|]. intros s1 s2 s3 H1 H2 id. destruct (H1 id), (H2 id). naive_solver congruence. Qed.
#[global] Instance same_timeline_preorder : PreOrder same_timeline.
Proof. split; [done|]. intros s1 s2 s3 H1 H2 id. by rewrite H2. Qed.

Lemma outliers_same_timeline create room h h' : only_outliers create room h h' -> same_timeline h h'.
Proof.
  unfold only_outliers, same_timeline. generalize (db h) (db h'). intros s s'.
  induction 1 as [|s1 s2 s3 (id & val & _ & ->) _ IH]; [done|]. intros id'. by rewrite IH, get_pdu_id_added.
Qed.

Lemma fetch_same fuel origin create room ids :
  confined same_timeline (fetch_and_handle_outliers fuel origin create room ids).
Proof. intros h. eapply outliers_same_timeline, fetch_and_handle_only. Qed.

Lemma outlier_same fuel origin create room id value known :
  confined same_timeline (handle_outlier_pdu fuel origin create room id value known).
Proof.
  intros h. eapply outliers_same_timeline, handle_with_only. intros ids.
  apply confined_bind; [apply _|apply fetch_and_handle_only|]. intros a. apply confined_ret, _.
Qed.

Lemma on_store_same {A} (m : eff store () A) : confined same_events m -> confined same_timeline (on_store m).
Proof. intros Hm h id. unfold on_store. specialize (Hm (db h) id). destruct (m (db h)). cbn in *. by apply Hm. Qed.

Lemma request_same {A} (f : nat -> A) : confined same_timeline (request f).
Proof. done. Qed.
Lemma back_off_same id : confined same_timeline (back_off id).
Proof. done. Qed.

#[local] Hint Resolve fetch_same outlier_same on_store_same request_same back_off_same : eff.
#[local] Hint Extern 1 (PreOrder _) => apply _ : eff.
#[local] Hint Extern 2 (confined _ (match ?x with _ => _ end)) => destruct x : eff.
#[local] Hint Extern 2 (confined _ (if ?x then _ else _)) => destruct x : eff.

Ltac quiet := repeat first
  [ solve [auto 3 with eff]
  | apply confined_bind; [apply _| |intros ?]
  | apply confined_for_each; [apply _|intros ? ?]
  | apply confined_attempt
  | match goal with
    | |- confined _ (let '_ := ?x in _) => destruct x
    | |- confined _ (match ?x with _ => _ end) => destruct x
    end ].

Lemma state_after_same state e id : confined same_timeline (state_after state e id).
Proof. unfold state_after. quiet. Qed.
Lemma number_state_same st : confined same_timeline (number_state st).
Proof. unfold number_state, number_key. quiet. Qed.
#[local] Hint Resolve state_after_same number_state_same : eff.

Lemma state_at_event_same e create origin room v :
  confined same_timeline (state_at_event debug fetch_fuel resolve_fuel automatic_width e create origin room v).
Proof.
  unfold state_at_event, state_at_incoming_degree_one, state_at_incoming_resolved, fork_of, state_at_incoming_fork,
    fetch_state, insert_state.
  quiet.
Qed.

Lemma check_event_same e room v st : confined same_timeline (check_event e room v st).
Proof. unfold check_event. quiet. Qed.

Lemma fetch_prev_same limit origin create room ts fuel initial :
  confined same_timeline (fetch_prev fetch_fuel limit origin create room ts fuel initial).
Proof.
  unfold fetch_prev. apply confined_bind; [apply _| |intros []; quiet].
  generalize (∅ : prev_graph) (∅ : prev_info) 0%Z. revert initial.
  induction fuel as [|fuel IH]; intros [|id todo] g info amount; cbn [prev_loop]; [auto with eff..|].
  unfold check_running, look_up, json_or_outlier. quiet.
Qed.

(** Before the event itself is looked at, nothing is stored. *)
Definition same_db (h h' : Handler PS) : Prop := same_events (db h) (db h').
#[global] Instance same_db_preorder : PreOrder same_db.
Proof. split; [intros h; unfold same_db; reflexivity|]. intros h1 h2 h3 H1 H2. unfold same_db in *. by etrans. Qed.
Lemma on_store_db {A} (m : eff store () A) : confined same_events m -> confined same_db (on_store m).
Proof. intros Hm h. specialize (Hm (db h)). unfold same_db, on_store. by destruct (m (db h)). Qed.
#[local] Hint Resolve on_store_db : eff.
Lemma admit_request_db origin room value : confined same_db (admit_request origin room value).
Proof. unfold admit_request, acl_check. quiet. Qed.

Lemma admit_request_same origin room value : confined same_timeline (admit_request origin room value).
Proof. unfold admit_request, acl_check. quiet. Qed.

Lemma derive_state_same e room v st :
  confined same_timeline (derive_state resolve_fuel automatic_width e room v st).
Proof. unfold derive_state, resolve_state, chain_of. quiet. Qed.

End quiet.

(** ** What enters the timeline *)

Section admission.
Context {R : Ruma} {EJ : EventJson} {FD : Federation} {PS : PduStore} {RS : RoomServices} {HR : HandlerRuma}.
Context {RL : RoomLaws RS} {sched : Schedule} (debug : bool) (fetch_fuel resolve_fuel automatic_width : nat).

(** The rules accept the event in the given state and in the current state of
    the room, and what it redacts may be redacted. *)
Definition passes (rv : RoomVersion) (rvid : RoomVersionId) (room_id : string) (pdu : Event) (state : gmap Z string)
    (s : store) : Prop :=
  auth_check rv pdu None (fetch_at s state) = Done true /\
  exists auth_events s',
    auth_events_in_state room_id (event_type pdu) (sender pdu) (state_key pdu) (content pdu) s =
      (Done auth_events, s') /\
    auth_check rv pdu None (fun ty sk => auth_events !! (ty, sk)) = Done true /\
    (forall id, redacts_id pdu rvid = Some id ->
       (can_redact id (sender pdu) (Matrix.room_id pdu) true s').1 = Done true).

Definition admitted (create_event : Event) (origin room_id : string) (pdu : Event) (h : Handler PS) : Prop :=
  event_soft_failed (event_id pdu) (db h) = false /\
  exists rvid rv state h1,
    get_room_version_id create_event = Done rvid /\ to_room_version rvid = Done rv /\
    state_at_event debug fetch_fuel resolve_fuel automatic_width pdu create_event origin room_id rvid h =
      (Done state, h1) /\
    passes rv rvid room_id pdu state (db h1).

(** Nothing, or the event, which was admitted. *)
Definition timeline_step (create_event : Event) (origin room_id : string) (pdu : Event) (h h' : Handler PS) : Prop :=
  same_timeline h h' \/
  get_pdu_id (event_id pdu) (db h) = None /\ admitted create_event origin room_id pdu h /\
    forall id, id <> event_id pdu -> get_pdu_id id (db h') = get_pdu_id id (db h).

Lemma check_event_passes pdu room rvid st h h' :
  check_event pdu room rvid st h = (Done false, h') ->
  exists rv, to_room_version rvid = Done rv /\ passes rv rvid room pdu st (db h).
Proof.
  unfold check_event. intros (rv & h1 & [= Hrv <-] & H)%bind_eff_Done. exists rv. split; [done|].
  apply bind_eff_Done in H as (a & h1 & [= <- <-] & H).
  apply bind_eff_Done in H as (p & h1 & [= Hp <-] & H). destruct p; [|done]. cbn [negb] in H.
  assert (forall {A} (o : outcome Error A) a, map_auth_err o = Done a -> o = Done a) as Hm
    by (intros A [] a'; cbn; congruence).
  apply bind_eff_Done in H as (auth & h2 & Ha & H). unfold on_store in Ha.
  destruct (auth_events_in_state _ _ _ _ _ (db h)) as [o s'] eqn:Ea. destruct o; simplify_eq/=.
  apply bind_eff_Done in H as (p & h3 & [= Hp2 <-] & H).
  split; [by apply Hm|]. exists auth, s'. split; [done|]. destruct p; [|done]. split; [by apply Hm|].
  intros id Hid. rewrite Hid in H. apply bind_eff_Done in H as (b & h4 & Hb & [= Hb' _]).
  unfold on_store in Hb. cbn [db] in Hb. destruct (can_redact _ _ _ _ s') as [o s''] eqn:Er.
  destruct o; simplify_eq/=. by destruct b.
Qed.

Lemma quiet_then {A B} (m : eff (Handler PS) HandlerError A) (f : A -> eff (Handler PS) HandlerError B)
    (P : Handler PS -> Prop) h s :
  (forall s', same_timeline h s' -> P s') ->
  same_timeline h s -> confined same_timeline m ->
  (forall a s', m s = (Done a, s') -> same_timeline h s' -> P (f a s').2) ->
  P ((m ≫= f) s).2.
Proof.
  intros HP Hs Hm Hf. specialize (Hm s). unfold mbind, eff_bind.
  assert (same_timeline h (m s).2) by (by etrans). destruct (m s) as [[a|e| |] s'] eqn:Em; cbn in *; auto.
Qed.

Lemma upgrade_step create origin room pdu val h :
  timeline_step create origin room pdu h
    (upgrade_outlier_to_timeline_pdu debug fetch_fuel resolve_fuel automatic_width pdu val create origin room h).2.
Proof.
  set (P := timeline_step create origin room pdu h).
  assert (forall s', same_timeline h s' -> P s') as HP by (intros s' Hs; by left).
  unfold upgrade_outlier_to_timeline_pdu.
  apply quiet_then with h; [done|reflexivity|auto with eff typeclass_instances|].
  intros [i|] h1 [= Hk <-] _; [by apply HP|].
  apply quiet_then with h; [done|reflexivity|auto with eff typeclass_instances|].
  intros [] h1 [= Hf <-] _; [by apply HP|].
  apply quiet_then with h; [done|reflexivity|auto with eff typeclass_instances|]. intros rvid h1 [= Hv <-] _.
  apply quiet_then with h; [done|reflexivity|apply state_at_event_same|]. intros st h1 Hst H1.
  apply quiet_then with h; [done|done|apply check_event_same|]. intros soft h2 Hc H2.
  apply quiet_then with h; [done|done|auto with eff typeclass_instances|]. intros ext h3 [= _ <-] _.
  apply quiet_then with h; [done|done|auto using on_store_same with eff|]. intros cs h3 _ H3.
  apply quiet_then with h; [done|done|apply derive_state_same|]. intros [] h4 _ H4.
  destruct soft.
  - apply quiet_then with h; [done|done|auto using on_store_same with eff|]. intros o h5 _ H5.
    apply quiet_then with h; [done|done| |intros [] h6 _ H6; by apply HP].
    apply on_store_same, confined_modify. intros. apply mark_same.
  - right. split; [done|]. split.
    + split; [done|]. destruct (check_event_passes _ _ _ _ _ _ Hc) as (rv & Hrv & Hp). by exists rvid, rv, st, h1.
    + intros id Hid. rewrite <- (H4 id), <- (append_only pdu val (ext ++ [event_id pdu]) cs (db h4) id Hid).
      unfold on_store. by destruct (append_incoming _ _ _ _ _ _).
Qed.

(** Events keep their positions. *)
Definition keeps (h h' : Handler PS) : Prop := forall id p, get_pdu_id id (db h) = Some p -> get_pdu_id id (db h') = Some p.
#[global] Instance keeps_preorder : PreOrder keeps.
Proof. split; [by intros h id|]. intros h1 h2 h3 H1 H2 id p Hp. by apply H2, H1. Qed.

Lemma same_keeps {A} (m : eff (Handler PS) HandlerError A) : confined same_timeline m -> confined keeps m.
Proof. intros Hm h id p. by rewrite (Hm h id). Qed.

Lemma upgrade_keeps pdu val create origin room :
  confined keeps (upgrade_outlier_to_timeline_pdu debug fetch_fuel resolve_fuel automatic_width pdu val create origin room).
Proof.
  intros h id p Hp. destruct (upgrade_step create origin room pdu val h) as [Hs|(Hn & _ & Ho)]; [by rewrite Hs|].
  rewrite Ho; [done|]. congruence.
Qed.

(** An event has entered the timeline. *)
Definition entered (e : string) (h : Handler PS) : Prop := get_pdu_id e (db h) <> None.
#[global] Instance entered_dec e h : Decision (entered e h).
Proof. unfold entered. apply _. Defined.

Lemma same_turns {A} e (m : eff (Handler PS) HandlerError A) h : confined same_timeline m -> ~ turns (entered e) m h.
Proof. intros Hm [Hn Hq]. apply Hn. unfold entered in *. by rewrite <- (Hm h e). Qed.

Lemma entered_bind {A B} e (m : eff (Handler PS) HandlerError A) (f : A -> eff (Handler PS) HandlerError B) h :
  turns (entered e) (m ≫= f) h ->
  turns (entered e) m h \/ exists a h', m h = (Done a, h') /\ turns (entered e) (f a) h'.
Proof. apply (turns_bind (entered e)). Qed.

Lemma quiet_turns {A B} e (m : eff (Handler PS) HandlerError A) (f : A -> eff (Handler PS) HandlerError B) h :
  confined same_timeline m -> turns (entered e) (m ≫= f) h ->
  exists a h', m h = (Done a, h') /\ turns (entered e) (f a) h'.
Proof. intros Hm [H|H]%entered_bind; [by apply same_turns in H|done]. Qed.

(** The event that enters is the one that is handled. *)
Lemma upgrade_turns e pdu val create origin room h :
  turns (entered e)
    (upgrade_outlier_to_timeline_pdu debug fetch_fuel resolve_fuel automatic_width pdu val create origin room) h ->
  event_id pdu = e /\ admitted create origin room pdu h.
Proof.
  intros [Hn Hq]. unfold entered in *. destruct (upgrade_step create origin room pdu val h) as [Hs|(_ & Ha & Ho)].
  - by rewrite Hs in Hq.
  - destruct (decide (e = event_id pdu)) as [->|He]; [done|]. by rewrite (Ho e He) in Hq.
Qed.

Lemma running_same_timeline : confined same_timeline (check_running (PS := PS)).
Proof.
  unfold check_running. apply confined_bind; [apply _|apply confined_gets, _|].
  intros []; auto with eff typeclass_instances.
Qed.

Section handling.
Context (origin room_id : string) (create_event : Event) (first_ts_in_room : Z).

Lemma one_prev_keeps info prev_id : confined keeps
  (handle_one_prev debug fetch_fuel resolve_fuel automatic_width origin room_id create_event first_ts_in_room info prev_id).
Proof.
  unfold handle_one_prev. apply confined_bind; [apply _| |intros r].
  - apply confined_attempt. unfold handle_prev_pdu. apply confined_bind; [apply _|auto with eff typeclass_instances|].
    intros []; [auto with eff typeclass_instances|].
    apply confined_bind; [apply _|auto with eff typeclass_instances|]. intros []; [auto with eff typeclass_instances|].
    destruct (info !! prev_id) as [[pdu json]|]; [|auto with eff typeclass_instances].
    destruct (_ <? _)%Z; [auto with eff typeclass_instances|].
    apply confined_bind; [apply _|apply upgrade_keeps|]. auto with eff typeclass_instances.
  - apply confined_bind; [apply _| |intros []].
    + apply same_keeps. destruct r; [apply back_off_same|auto with eff typeclass_instances].
    + apply confined_bind; [apply _|apply same_keeps, running_same_timeline|auto with eff typeclass_instances].
Qed.

Lemma one_prev_turns e info prev_id h :
  turns (entered e)
    (handle_one_prev debug fetch_fuel resolve_fuel automatic_width origin room_id create_event first_ts_in_room info prev_id) h ->
  exists pdu json, info !! prev_id = Some (pdu, json) /\
    turns (entered e) (upgrade_outlier_to_timeline_pdu debug fetch_fuel resolve_fuel automatic_width pdu json create_event
                         origin room_id) h.
Proof.
  intros [H|(r & h1 & _ & H)]%entered_bind.
  - apply turns_attempt in H. apply quiet_turns in H as (d & h1 & [= _ <-] & H); [|auto with eff typeclass_instances].
    destruct d; [by destruct H|]. apply quiet_turns in H as (b & h1 & [= _ <-] & H); [|auto with eff typeclass_instances].
    destruct b; [by destruct H|]. destruct (info !! prev_id) as [[pdu json]|]; [|by destruct H].
    destruct (_ <? _)%Z; [by destruct H|]. apply entered_bind in H as [H|(o & h1 & _ & [])]; [by exists pdu, json|done].
  - apply quiet_turns in H as (u & h2 & _ & H); [|destruct r; [apply back_off_same|auto with eff typeclass_instances]].
    apply quiet_turns in H as (u' & h3 & _ & []); [done|apply running_same_timeline].
Qed.

End handling.

(** The calls of [upgrade_outlier_to_timeline_pdu] while an event is handled from
    [h], with the state in which each is made: those for the events before it, in
    order, and the one for the event itself. *)
Inductive upgrade_call (prev_fuel : nat) (limit : Z) (origin room_id event_id' : string) (value : CanonicalJsonObject)
    (h : Handler PS) : Event -> Event -> CanonicalJsonObject -> Handler PS -> Prop :=
| call_prev create_event h1 incoming_pdu val h2 ts sorted info h3 before prev_id after info' h4 pdu json :
    admit_request origin room_id value h = (Done create_event, h1) ->
    handle_outlier_pdu fetch_fuel origin create_event room_id event_id' value false h1 = (Done (incoming_pdu, val), h2) ->
    first_ts room_id (db h2) = Some ts ->
    fetch_prev fetch_fuel limit origin create_event room_id ts prev_fuel (prev_events incoming_pdu) h2 =
      (Done (sorted, info), h3) ->
    sorted = before ++ prev_id :: after ->
    for_each (handle_one_prev debug fetch_fuel resolve_fuel automatic_width origin room_id create_event ts) info before h3 =
      (Done info', h4) ->
    info' !! prev_id = Some (pdu, json) ->
    upgrade_call prev_fuel limit origin room_id event_id' value h create_event pdu json h4
| call_incoming create_event h1 incoming_pdu val h2 ts sorted info h3 info' h4 :
    admit_request origin room_id value h = (Done create_event, h1) ->
    handle_outlier_pdu fetch_fuel origin create_event room_id event_id' value false h1 = (Done (incoming_pdu, val), h2) ->
    first_ts room_id (db h2) = Some ts ->
    fetch_prev fetch_fuel limit origin create_event room_id ts prev_fuel (prev_events incoming_pdu) h2 =
      (Done (sorted, info), h3) ->
    for_each (handle_one_prev debug fetch_fuel resolve_fuel automatic_width origin room_id create_event ts) info sorted h3 =
      (Done info', h4) ->
    upgrade_call prev_fuel limit origin room_id event_id' value h create_event incoming_pdu val h4.

Lemma incoming_keeps prev_fuel limit origin room id value timeline :
  confined keeps (handle_incoming_pdu debug fetch_fuel resolve_fuel automatic_width prev_fuel limit origin room id value timeline).
Proof.
  unfold handle_incoming_pdu. apply confined_bind; [apply _|auto with eff typeclass_instances|].
  intros [p|]; [auto with eff typeclass_instances|].
  apply confined_bind; [apply _|apply same_keeps, admit_request_same|]. intros create.
  apply confined_bind; [apply _|apply same_keeps, outlier_same|]. intros [pdu val].
  destruct timeline; cbn [negb]; [|auto with eff typeclass_instances].
  apply confined_bind; [apply _|auto with eff typeclass_instances|]. intros ts.
  apply confined_bind; [apply _|auto with eff typeclass_instances|]. intros first.
  destruct (_ <? _)%Z; [auto with eff typeclass_instances|].
  apply confined_bind; [apply _|apply same_keeps, fetch_prev_same|]. intros [sorted info].
  apply confined_bind; [apply _| |intros info'; apply upgrade_keeps].
  apply confined_for_each; [apply _|]. intros. apply one_prev_keeps.
Qed.

Lemma incoming_turns e prev_fuel limit origin room id value timeline h :
  turns (entered e)
    (handle_incoming_pdu debug fetch_fuel resolve_fuel automatic_width prev_fuel limit origin room id value timeline) h ->
  exists create pdu val h1, upgrade_call prev_fuel limit origin room id value h create pdu val h1 /\
    turns (entered e)
      (upgrade_outlier_to_timeline_pdu debug fetch_fuel resolve_fuel automatic_width pdu val create origin room) h1.
Proof.
  intros H. unfold handle_incoming_pdu in H.
  apply quiet_turns in H as (k & h0 & [= _ <-] & H); [|auto with eff typeclass_instances].
  destruct k; [by destruct H|].
  apply quiet_turns in H as (create & h1 & Hc & H); [|apply admit_request_same].
  apply quiet_turns in H as ([pdu val] & h2 & Ho & H); [|apply outlier_same].
  destruct timeline; cbn [negb] in H; [|by destruct H].
  apply quiet_turns in H as (ts & h3 & [= Hts <-] & H); [|auto with eff typeclass_instances].
  apply quiet_turns in H as (first & h4 & Hf & H); [|auto with eff typeclass_instances].
  unfold lift_eff in Hf. destruct ts as [ts|]; simplify_eq/=. destruct (_ <? _)%Z; [by destruct H|].
  apply quiet_turns in H as ([sorted info] & h5 & Hp & H); [|apply fetch_prev_same].
  apply entered_bind in H as [(l1 & x & l2 & info' & h6 & -> & Hl & H)%(turns_for_each (entered e))|(info' & h6 & Hl & H)].
  - apply one_prev_turns in H as (p & json & Hi & H). exists create, p, json, h6. split; [|done]. by eapply call_prev.
  - exists create, pdu, val, h6. split; [|done]. by eapply call_incoming.
Qed.

End admission.

Lemma gets_bind {S E A B} (f : S -> A) (k : A -> eff S E B) s : (gets f ≫= k) s = k (f s) s.
Proof. done. Qed.

(** ** Errors that a computation does not raise *)

Section never.
Context {S E : Type} (e : E).

Definition never {A} (m : eff S E A) : Prop := forall s, (m s).1 <> Fail e.

Lemma never_ret {A} (a : A) : never (mret a : eff S E A).
Proof. done. Qed.
Lemma never_lift {A} (o : outcome E A) : o <> Fail e -> never (lift_eff o).
Proof. by intros Ho s. Qed.
Lemma never_gets {A} (f : S -> A) : never (gets f).
Proof. done. Qed.
Lemma never_bind {A B} (m : eff S E A) (f : A -> eff S E B) : never m -> (forall a, never (f a)) -> never (m ≫= f).
Proof.
  intros Hm Hf s. pose proof (Hm s) as H. unfold mbind, eff_bind.
  destruct (m s) as [[a|e'| |] s']; cbn in *; [apply Hf|congruence|done..].
Qed.
Lemma never_gets_lift {A B} (f : S -> outcome E A) (k : A -> eff S E B) :
  (forall s, f s <> Fail e) -> (forall a, never (k a)) -> never (o ← gets f; a ← lift_eff o; k a).
Proof. intros Hf Hk s. unfold mbind, eff_bind, gets, lift_eff. pose proof (Hf s). destruct (f s); cbn; [apply Hk|congruence|done..]. Qed.
Lemma never_for_each {A X} (f : A -> X -> eff S E A) a l : (forall a x, never (f a x)) -> never (for_each f a l).
Proof.
  intros Hf. revert a. induction l as [|x l IH]; intros a; [apply never_ret|]. apply never_bind; [apply Hf|].
  intros a'. apply IH.
Qed.

End never.

#[export] Hint Resolve never_ret never_lift never_gets never_bind never_for_each : eff.

Section soft_failing.
Context {R : Ruma} {EJ : EventJson} {PS : PduStore} {RS : RoomServices} {sched : Schedule}.
Context (resolve_fuel automatic_width : nat).

Lemma never_on_store {A} (m : eff store () A) : never SoftFailed (on_store m).
Proof. intros h. unfold on_store. by destruct (m (db h)) as [[] s]. Qed.
#[local] Hint Resolve never_on_store : eff.

Lemma derive_state_never e room v st :
  never SoftFailed (derive_state (PS := PS) resolve_fuel automatic_width e room v st).
Proof.
  unfold derive_state, state_after, resolve_state, number_state, chain_of.
  destruct (state_key e) as [sk|]; [|auto with eff]. apply never_bind; [auto with eff|]. intros after.
  apply never_bind; [|auto with eff]. apply never_bind; [auto with eff|]. intros cur.
  apply never_bind; [destruct cur; apply never_lift; done|]. intros sh. apply never_bind; [auto with eff|]. intros l.
  apply never_bind; [auto with eff|]. intros chains. apply never_bind; [auto with eff|]. intros named.
  apply never_gets_lift; [|intros st'; apply never_bind; [|auto with eff]].
  - intros s. unfold state_resolution. by destruct (resolve _ _ _ _ _ _ _).
  - apply never_for_each. intros acc [[ty sk'] id]. unfold number_key. auto with eff.
Qed.

End soft_failing.

(** ** Claims *)

Section claims.
Context {R : Ruma} {EJ : EventJson} {FD : Federation} {PS : PduStore} {RS : RoomServices} {HR : HandlerRuma}.
Context {sched : Schedule} (debug : bool) (fetch_fuel resolve_fuel automatic_width : nat).

(** C2. Whatever other servers send or answer, and whether handling ends well
    or in an error: while an event is handled, events keep their positions in the
    timeline, and each event that enters it - the one received or one before it -
    enters in a call of the upgrade to the timeline that this run makes for it.  In
    the state of that call it was not soft-failed, was accepted by the authorization
    rules in the state at that event and in the current state of the room, and
    could redact what it redacts. *)
Theorem incoming_events_admitted prev_fuel limit origin room id value timeline h :
  RoomLaws RS ->
  let h' := (handle_incoming_pdu debug fetch_fuel resolve_fuel automatic_width prev_fuel limit origin room id value
               timeline h).2 in
  (forall e p, get_pdu_id e (db h) = Some p -> get_pdu_id e (db h') = Some p) /\
  (forall e, get_pdu_id e (db h) = None -> get_pdu_id e (db h') <> None ->
     exists create pdu val h1,
       upgrade_call debug fetch_fuel resolve_fuel automatic_width prev_fuel limit origin room id value h create pdu val h1 /\
       event_id pdu = e /\ get_pdu_id e (db h1) = None /\
       get_pdu_id e (db (upgrade_outlier_to_timeline_pdu debug fetch_fuel resolve_fuel automatic_width pdu val create
                           origin room h1).2) <> None /\
       admitted debug fetch_fuel resolve_fuel automatic_width create origin room pdu h1).
Proof.
  intros RL. split; [apply incoming_keeps|]. intros e Hn Hs.
  assert (turns (entered e) (handle_incoming_pdu debug fetch_fuel resolve_fuel automatic_width prev_fuel limit origin room
    id value timeline) h) as (create & pdu & val & h1 & Hc & Ht)%incoming_turns by (split; [intros Hx; by apply Hx|done]).
  destruct (upgrade_turns _ _ _ _ e pdu val create origin room h1 Ht) as [He Ha]. destruct Ht as [Hn1 Hs1].
  exists create, pdu, val, h1. split_and!; [done..| |done|done]. by apply dec_stable.
Qed.

(** A marked event is refused at once. *)
Lemma marked_refused create origin room pdu val (h : Handler PS) :
  get_pdu_id (event_id pdu) (db h) = None -> event_soft_failed (event_id pdu) (db h) = true ->
  upgrade_outlier_to_timeline_pdu debug fetch_fuel resolve_fuel automatic_width pdu val create origin room h =
    (Fail SoftFailed, h).
Proof.
  intros Hn Hm. unfold upgrade_outlier_to_timeline_pdu. by rewrite gets_bind, Hn, gets_bind, Hm.
Qed.

(** C22. An event that the rules accept in the state at it but not in the
    current state of the room does not enter the timeline and is never reported as
    accepted; once it is marked, every later attempt fails at once and changes
    nothing. *)
Theorem soft_failed_kept_out create origin room pdu val rvid st h h1 h2 :
  RoomLaws RS ->
  get_pdu_id (event_id pdu) (db h) = None ->
  get_room_version_id create = Done rvid ->
  event_soft_failed (event_id pdu) (db h) = false ->
  state_at_event debug fetch_fuel resolve_fuel automatic_width pdu create origin room rvid h = (Done st, h1) ->
  check_event pdu room rvid st h1 = (Done true, h2) ->
  let r := upgrade_outlier_to_timeline_pdu debug fetch_fuel resolve_fuel automatic_width pdu val create origin room h in
  same_timeline h r.2 /\ (forall p, r.1 <> Done p) /\
  (r.1 = Fail SoftFailed ->
     event_soft_failed (event_id pdu) (db r.2) = true /\
     forall val' create' origin' room',
       upgrade_outlier_to_timeline_pdu debug fetch_fuel resolve_fuel automatic_width pdu val' create' origin' room'
         r.2 = (Fail SoftFailed, r.2)).
Proof.
  intros RL Hn Hv Hf Hst Hc.
  pose proof (state_at_event_same debug fetch_fuel resolve_fuel automatic_width pdu create origin room rvid h) as H1.
  pose proof (check_event_same pdu room rvid st h1) as H2. rewrite Hst in H1. rewrite Hc in H2. cbn in H1, H2.
  assert (same_timeline h h2) as H12 by (by etrans). clear H1 H2.
  set (P := fun r : outcome HandlerError (option RawId) * Handler PS =>
    same_timeline h r.2 /\ (forall p, r.1 <> Done p) /\
    (r.1 = Fail SoftFailed -> event_soft_failed (event_id pdu) (db r.2) = true)).
  assert (forall {A} (m : eff (Handler PS) HandlerError A) k s, same_timeline h s -> confined same_timeline m ->
    never SoftFailed m -> (forall a s', same_timeline h s' -> P (k a s')) -> P ((m ≫= k) s)) as Hstep.
  { intros A m k s Hs Hm Hne Hk. pose proof (Hm s) as Hms. pose proof (Hne s) as Hns. unfold mbind, eff_bind.
    assert (same_timeline h (m s).2) by (by etrans). destruct (m s) as [[a|e| |] s'] eqn:Em; cbn in *; [by apply Hk|..];
    (split; [done|]; split; [done|]; cbn; congruence). }
  assert (P (upgrade_outlier_to_timeline_pdu debug fetch_fuel resolve_fuel automatic_width pdu val create origin room h))
    as (Hs & Hd & Hm).
  { unfold upgrade_outlier_to_timeline_pdu. rewrite gets_bind, Hn, gets_bind, Hf, Hv.
    unfold mbind at 1, eff_bind at 1. cbn [lift_eff]. unfold mbind at 1, eff_bind at 1. rewrite Hst.
    unfold mbind at 1, eff_bind at 1. rewrite Hc.
    apply Hstep; [done|auto with eff typeclass_instances|auto with eff|]. intros ext h3 H3.
    apply Hstep; [done|auto using on_store_same with eff|apply never_on_store|]. intros cs h4 H4.
    apply Hstep; [done|apply derive_state_same|apply derive_state_never|]. intros [] h5 H5.
    apply Hstep; [done|auto using on_store_same with eff|apply never_on_store|]. intros o h6 H6.
    unfold mbind, eff_bind, on_store, modify, throw. cbn. split; [|split; [done|intros _; apply marked_soft_failed]].
    cbn. intros id. cbn. destruct (mark_same (event_id pdu) (db h6) id) as [-> _]. apply H6. }
  cbn zeta. split; [done|]. split; [done|]. intros Hr. specialize (Hm Hr). split; [done|]. intros.
  apply marked_refused; [by rewrite Hs|done].
Qed.

(** C30. An event already in the timeline is not handled again, and an event for
    a room that is unknown or disabled, or from a server that the access list of
    the room denies, changes no event: nothing is stored of it. *)
Theorem incoming_refused prev_fuel limit origin room id value timeline h :
  RoomLaws RS ->
  let r := handle_incoming_pdu debug fetch_fuel resolve_fuel automatic_width prev_fuel limit origin room id value
             timeline h in
  (forall p, get_pdu_id id (db h) = Some p -> r = (Done (Some p), h)) /\
  (get_pdu_id id (db h) = None ->
   room_exists room (db h) = false \/ room_disabled room (db h) = true \/
     (acl_check origin room h).1 = Fail DeniedByAcl ->
   (forall p, r.1 <> Done p) /\ same_events (db h) (db r.2)).
Proof.
  intros RL. cbn zeta. unfold handle_incoming_pdu. rewrite gets_bind. split.
  - intros p Hp. by rewrite Hp.
  - intros Hn Hbad. rewrite Hn.
    pose proof (admit_request_db origin room value h) as Hdb. unfold mbind, eff_bind.
    destruct (admit_request origin room value h) as [[c|e| |] h'] eqn:E; [exfalso|done..].
    unfold admit_request in E. apply bind_eff_Done in E as (snd & h1 & [= _ <-] & E).
    apply bind_eff_Done in E as (ex & h1 & [= <- <-] & E).
    apply bind_eff_Done in E as (dis & h1 & [= <- <-] & E). apply bind_eff_Done in E as (u & h2 & Ha & E).
    apply bind_eff_Done in E as (u' & h3 & _ & E). apply bind_eff_Done in E as (c' & h4 & _ & E).
    destruct Hbad as [Hb|[Hb|Hd]]; [by rewrite Hb in E| |by rewrite Ha in Hd].
    rewrite Hb in E. by destruct (negb _).
Qed.

(** Previous events are told apart only by the state before them: of two
    that were received in the same state, the state after one of them is not
    among the states that are resolved. *)
Theorem forks_merged s id1 id2 e1 e2 sh :
  get_pdu id1 s = Some e1 -> get_pdu id2 s = Some e2 ->
  event_shortstatehash id1 s = Some sh -> event_shortstatehash id2 s = Some sh ->
  exists e, fork_points [id1; id2] s = Some {[ sh := e ]} /\ (e = e1 \/ e = e2).
Proof.
  intros H1 H2 Hs1 Hs2. unfold fork_points, collect.
  assert (forall l, l ≡ₚ [id1; id2] -> l = [id1; id2] \/ l = [id2; id1]) as Hl.
  { intros l Hl. by apply Permutation_length_2_inv. }
  assert (fork_point s id1 = Some (sh, e1)) as F1 by (unfold fork_point; by rewrite H1, Hs1).
  assert (fork_point s id2 = Some (sh, e2)) as F2 by (unfold fork_point; by rewrite H2, Hs2).
  destruct (Hl (reorder "prev events" [id1; id2])) as [-> | ->]; [apply reorder_perm|..]; cbn [mapM]; rewrite F1, F2.
  - exists e2. split; [|by right]. cbn. f_equal. apply insert_insert_eq.
  - exists e1. split; [|by left]. cbn. f_equal. apply insert_insert_eq.
Qed.

End claims.
