(* ===== verification/Node.v ===== *)
(** * The event handler on the room services

    The handler of [Upgrade] calls the room services through [RoomServices].
    Here that interface is met by the services themselves - the timeline of
    [AppendPdu], the states of [RoomState], the auth chains of [AuthChain] - over
    one state, and what it promises is proved of them.  On top of it: old events
    of a room that are fetched from another server, [backfill_pdu] and
    [backfill_if_required] of [src/service/rooms/timeline/mod.rs]. *)

From stdpp Require Import prelude gmap strings list sorting.
From Stdlib Require Import ZArith Lia.
From Stdlib Require Import Strings.Byte.
From S2P Require Import Prelude MachineInt PduCount TopoSort Matrix EventAuth DbCodec DbMap CoreUtils Effects Short.
From S2P Require Import World AccountData StateCache Timeline Sending SenderSystem Outliers OutlierStore FetchPrev.
From S2P Require Import StateCompressor AuthChain StateAccessor RoomState RoomTables Alias AppendPdu Upgrade.
Import PduId.

(** [StateEventType::from], [RoomServerAclEventContent] *)
Class NodeRuma := {
  type_of_text : bytes -> EventType;
  de_acl : string -> option ServerAcl }.

(** The services' state with the cache of auth chains, on disk and in memory. *)
Record Node {L : LruCache Z ShortStateInfoVec} {C : chain_cache} := MkNode {
  node_server : Server; node_authchain : gmap bytes bytes; node_chains : cache (LruCache := C) }.
Arguments MkNode {L C}.

Section node.
Context (debug : bool) {E : Engine} {I : Ids} {Js : Json} {JT : JsonText} {M : MemberJson} {J : PduJson}.
Context {R : Ruma} {RR : RoomRuma} {EJ : EventJson} {T : EventText} {TR : TimelineRuma} {U : Unicode} {NR : NodeRuma}.
Context {sched : Schedule} {L : LruCache Z ShortStateInfoVec} {C : chain_cache}.
Context (fuel : nat) (first : bool) (cfg : Config) (admin : AdminConfig) (calculate_hash : list bytes -> bytes).
Context (event_id_ok alias_ok : bytes -> bool) (predecessor : World -> bytes -> option bytes).
Context (dest_hash : Destination -> Z) (appservices : list Appservice) (now : Z).

Abbreviation srv := (eff (@Server L) AppendError).

(** ** Services as the handler calls them *)

(** [short.get_or_create_shortstatekey] *)
Definition srv_new_key (ty : EventType) (sk : string) : srv Z := on_rooms (fun r =>
  '(k, g) ← fail_with RoomShort (get_or_create_shortstatekey debug (globals (room_world r)) (type_text ty) (str sk));
  Done (k, with_db r (set_globals (room_world r) g))).

Definition srv_full_ids (h : Z) : srv (list (Z * string)) :=
  l ← reads (fun w => state_full_ids debug fuel w h);
  mret ((fun '(k, id) => (k, unstr id)) <$> (l : list (Z * bytes))).

Definition srv_compress (state : list (Z * string)) : srv CompressedState := on_rooms (fun r =>
  '(l, g) ← fail_with RoomCompressor (compress_state_events debug (globals (room_world r))
              ((fun '(k, id) => (k, str id)) <$> state));
  Done (list_to_set l, with_db r (set_globals (room_world r) g))).

(** [state_compressor.save_state] *)
Definition srv_save_state (room : string) (new_state : CompressedState) : srv HashSetCompressStateEvent := on_rooms (fun r =>
  previous ← ok (get_room_shortstatehash debug (str room) (room_world r));
  '(saved, g, st) ← fail_with RoomCompressor
      (save_state debug calculate_hash fuel (globals (room_world r)) (layers r) previous new_state);
  Done (saved, with_layers (with_db r (set_globals (room_world r) g)) st)).

Definition srv_force_state (room : string) (h : Z) (added removed : CompressedState) : srv () := on_rooms (fun r =>
  r ← force_state debug first cfg predecessor (str room) h added r; Done ((), r)).

(** [metadata.exists]: whether there are events of the room. *)
Definition metadata_exists (room : bytes) (w : World) : bool :=
  match get_shortroomid debug (globals w) room with
  | Done prefix =>
      match keys_prefix_raw debug (maps w pduid_pdu) (VU64 prefix) with
      | Done ks => bool_decide (ks <> [])
      | _ => false
      end
  | _ => false
  end.

(** [timeline.first_item_in_room] *)
Definition first_item_in_room (room : bytes) (w : World) : outcome TimelineError (Count.count * Timeline.Pdu) :=
  match head (Timeline.pdus debug now None room Count.min w) with
  | Some item => item
  | None => Fail NoPdus
  end.

(** The events by id, as [timeline.get_pdu] finds them. *)
Definition known_pdus (w : World) : gmap string Event :=
  list_to_map (omap (fun id => e ← ok_of (room_pdu first w id); Some (unstr id, e))
    (elements (dom (maps w eventid_pduid) ∪ dom (maps w eventid_outlierpdu)))).

(** ** Which events a call moves *)

Ltac same := repeat first
  [ apply asks_same | apply reads_same | apply confined_ret, _ | apply confined_lift, _ | apply confined_throw, _
  | apply confined_bind; [apply _| |intros ?]
  | match goal with |- confined _ (match ?x with _ => _ end) => destruct x end ].

Lemma numbering_same {A B Er} (g : Er -> RoomError) (f : Rooms -> outcome Er (A * Db)) (h : A -> B) :
  confined same_pdus (on_rooms (fun r => '(a, d) ← fail_with g (f r); Done (h a, with_db r (set_globals (room_world r) d)))).
Proof.
  apply (rooms_same _ []); [|set_solver]. intros r b r' H. bind_inv H. destruct a as [a d]. by injection H as <- <-.
Qed.

Lemma new_key_events ty sk : confined same_pdus (srv_new_key ty sk).
Proof. apply (numbering_same _ _ id). Qed.
Lemma full_ids_events h : confined same_pdus (srv_full_ids h).
Proof. unfold srv_full_ids. same. Qed.
Lemma compress_events state : confined same_pdus (srv_compress state).
Proof. apply (numbering_same _ _ list_to_set). Qed.

Lemma save_events room st : confined same_pdus (srv_save_state room st).
Proof.
  apply (rooms_same _ []); [|set_solver]. intros r h r' H. bind_inv H. bind_inv H. destruct a0 as [[saved g] st'].
  by injection H as <- <-.
Qed.

Lemma force_entry_still room r id r' : force_entry debug first cfg predecessor room r id = Done r' ->
  still true (room_world r) (room_world r').
Proof.
  unfold force_entry. intros H. bind_inv H. repeat (case_match; try (injection H as <-; reflexivity)).
  bind_inv H. injection H as <-. match goal with H : fail_with _ _ = Done _ |- _ => apply fail_with_Done in H; by eapply membership_still in H end.
Qed.

Lemma force_events room h added removed : confined same_pdus (srv_force_state room h added removed).
Proof.
  intros s. unfold srv_force_state, on_rooms. destruct (r ← _; _) as [[[] r]| | |] eqn:Ef; [|done..].
  bind_inv Ef. injection Ef as <-. unfold force_state in Ef0. bind_inv Ef0. bind_inv Ef0. bind_inv Ef0. bind_inv Ef0.
  injection Ef0 as <-. apply (still_try_fold true room_world) in Ef2; [|apply force_entry_still].
  apply fail_with_Done, (joined_count_still debug true) in Ef3. apply fail_with_Done in Ef4.
  unfold set_room_state in Ef4. apply upd_frame in Ef4.
  apply (quiet_same s (set_rooms s a1)) in Ef2. intros t Ht. change (maps a3 t = maps (srv_world s) t).
  unfold event_tables in Ht. rewrite (Ef4 t) by set_solver.
  trans (maps (room_world a1) t); [|by apply Ef2]. apply Ef3. set_unfold in Ht. by destruct Ht as [->|[->|[->|[]]]].
Qed.

Lemma event_state_events e room st : confined same_pdus (on_rooms (set_event_state debug fuel calculate_hash e room st)).
Proof.
  apply (rooms_same _ [shorteventid_shortstatehash]); [|set_solver]. intros r h r' H. unfold set_event_state in H.
  bind_inv H. destruct a as [sid g]. bind_inv H. bind_inv H. destruct a0 as [[h' ex] g']. bind_inv H. bind_inv H.
  injection H as <- <-. by apply fail_with_Done, event_state_frame in H4.
Qed.

Abbreviation append_incoming_srv :=
  (append_incoming_pdu debug fuel first cfg admin calculate_hash alias_ok predecessor dest_hash appservices).

Lemma soft_fail_events pdu json leafs st : confined same_pdus (append_incoming_srv pdu json leafs st true).
Proof.
  unfold append_incoming_pdu. apply confined_bind; [apply _|apply event_state_events|intros u].
  apply confined_bind; [apply _|eapply writes_same; [intros ??; apply mark_frame|set_solver]|intros u'].
  apply confined_bind; [apply _|eapply writes_same; [intros ??; apply leaves_frame|set_solver]|intros u''].
  apply confined_ret, _.
Qed.

(** ** The state *)

Definition node : Type := { n : @Node L C | index_ok (srv_world (node_server n)) }.
Definition node_world (n : node) : World := srv_world (node_server (`n)).
Definition node_events (n : node) : pdu_world := exist _ (node_world n) (proj2_sig n).

(** Rows of the index of events stay positions. *)
Definition valid_rows (s s' : @Server L) : Prop := index_ok (srv_world s) -> index_ok (srv_world s').
#[global] Instance valid_rows_preorder : PreOrder valid_rows.
Proof. split; [by intros ??|]. intros s1 s2 s3 H1 H2 H. by apply H2, H1. Qed.

Lemma same_valid s s' : same_pdus s s' -> valid_rows s s'.
Proof. intros Hs Hi e k. rewrite (Hs eventid_pduid); [apply Hi|left]. Qed.

Lemma quiet_valid s s' : quiet false s s' -> valid_rows s s'.
Proof. intros Hs Hi e k. rewrite (Hs eventid_pduid) by done. apply Hi. Qed.

Lemma insert_valid pdu json leafs r : confined valid_rows (insert_pdu debug pdu json leafs r).
Proof.
  assert (forall A (m : srv A), confined same_pdus m -> confined valid_rows m) as Hw.
  { intros A m. apply confined_weaken, same_valid. }
  unfold insert_pdu.
  apply confined_bind; [apply _|eapply Hw, writes_same; [intros ??; apply mark_frame|set_solver]|intros u1].
  apply confined_bind; [apply _|eapply Hw, writes_same; [intros ??; apply leaves_frame|set_solver]|intros u2].
  apply confined_bind; [apply _|apply Hw, counted_same|intros c1].
  apply confined_bind; [apply _|eapply Hw, writes_same; [intros ??; apply private_read_frame|set_solver]|intros u3].
  apply confined_bind; [apply _|eapply Hw, writes_same; [intros ??; apply reset_frame|set_solver]|intros u4].
  apply confined_bind; [apply _|apply Hw, counted_same|intros c2].
  apply confined_bind; [apply _| |intros; apply confined_ret, _].
  intros s. unfold writes. rewrite append_pdu_eq. intros Hi e k.
  match goal with |- maps (srv_world ?s') _ !! _ = _ -> _ => change (srv_world s') with
    (stored (pkey r (Count.Normal c2)) (str (event_id pdu)) (to_text json) (srv_world s)) end.
  unfold stored. autorewrite with world. intros [[_ <-]|[_ Hk]]%lookup_insert_Some; [|by eapply Hi].
  eexists. apply raw_from_bytes_as_bytes, raw_from_id_typed.
Qed.

Lemma append_valid pdu json leafs : confined valid_rows
  (append_pdu debug fuel first cfg admin alias_ok predecessor dest_hash appservices pdu json leafs).
Proof.
  assert (forall A (m : srv A), confined (quiet false) m -> confined valid_rows m) as Hw.
  { intros A m. apply confined_weaken, quiet_valid. }
  unfold append_pdu. apply confined_bind; [apply _|by intros s ?|intros r].
  apply confined_bind; [apply _|eapply confined_weaken; [intros ???; eapply same_valid, world_same; eassumption|apply prev_content_same]|intros j].
  apply confined_bind; [apply _|apply insert_valid|intros [c id]].
  apply confined_bind; [apply _|apply Hw, quiet_notify|intros u1].
  apply confined_bind; [apply _|apply Hw, quiet_apply|intros u2].
  apply confined_bind; [apply _|apply Hw, quiet_relate|intros u3].
  apply confined_bind; [apply _| |intros; apply confined_ret, _].
  apply confined_for_each; [apply _|]. intros. apply Hw, quiet_appservice.
Qed.

Lemma incoming_valid pdu json leafs st soft : confined valid_rows (append_incoming_srv pdu json leafs st soft).
Proof.
  destruct soft; [eapply confined_weaken; [apply same_valid|apply soft_fail_events]|]. unfold append_incoming_pdu.
  apply confined_bind; [apply _|eapply confined_weaken; [apply same_valid|apply event_state_events]|intros u].
  apply confined_bind; [apply _|apply append_valid|intros id]. apply confined_ret, _.
Qed.

Lemma incoming_but pdu json leafs st : confined (index_but (str (event_id pdu))) (append_incoming_srv pdu json leafs st false).
Proof.
  unfold append_incoming_pdu.
  apply confined_bind; [apply _|eapply confined_weaken; [apply same_index|apply event_state_events]|intros u].
  apply confined_bind; [apply _|apply append_but|intros id]. apply confined_ret, _.
Qed.

Definition forget_error {A} (o : outcome AppendError A) : outcome () A :=
  match o with Done a => Done a | Fail _ => Fail () | Panic => Panic | OutOfFuel => OutOfFuel end.

Definition on_server {A} (m : srv A) (Hm : confined valid_rows m) : eff node () A := fun n =>
  (forget_error (m (node_server (`n))).1,
   exist _ (MkNode (m (node_server (`n))).2 (node_authchain (`n)) (node_chains (`n)))
     (Hm (node_server (`n)) (proj2_sig n))).

Definition on_events {A} (m : srv A) (Hm : confined same_pdus m) : eff node () A :=
  on_server m (confined_weaken _ _ m same_valid Hm).

(** Changes of the tables. *)
Definition set_node_db (n : node) (w : World) (Hw : index_ok w) : node :=
  exist _ (MkNode (set_db (node_server (`n)) w) (node_authchain (`n)) (node_chains (`n))) Hw.

Lemma index_ok_mark e w : index_ok w -> index_ok (mark_event_soft_failed e w).
Proof. unfold index_ok, mark_event_soft_failed. autorewrite with world. done. Qed.

(** ** Events *)

Definition node_add_outlier (id : string) (v : CanonicalJsonObject) (n : node) : node :=
  set_node_db n (ins eventid_outlierpdu (str id) (to_text v) (node_world n)) (index_ok_add _ _ _ (proj2_sig n)).

Program Definition node_pdus : PduStore :=
  {| store := node;
     get_pdu_id := fun id n => world_get_pdu_id id (node_events n);
     get_pdu := fun id n => world_get_pdu first id (node_events n);
     pdu_exists := fun id n => world_pdu_exists first id (node_events n);
     get_outlier_pdu_json := fun id n => world_outlier_json id (node_events n);
     add_pdu_outlier := node_add_outlier |}.
Next Obligation. intros id n e. apply (get_pdu_exists (PduStore := world_pdus first)). Qed.
Next Obligation. intros id id' v n. exact (get_pdu_id_added (PduStore := world_pdus first) id id' v (node_events n)). Qed.
Next Obligation. intros id v n e. exact (get_pdu_added (PduStore := world_pdus first) id v (node_events n) e). Qed.
Next Obligation. intros id id' v n. exact (get_pdu_other (PduStore := world_pdus first) id id' v (node_events n)). Qed.
Next Obligation. intros id v n. exact (get_json_added (PduStore := world_pdus first) id v (node_events n)). Qed.
Next Obligation. intros id id' v n. exact (get_json_other (PduStore := world_pdus first) id id' v (node_events n)). Qed.

(** ** Auth chains *)

#[local] Existing Instance short_service.

Definition srv_auth_chain (room : string) (starting_events : list string) : eff node () (gset string) := fun n =>
  let w := node_world n in
  match event_ids_iter (H := short_service debug) (known_pdus w) room starting_events
          (MkChains (globals w : ids (ShortIds := short_service debug)) (node_authchain (`n)) (node_chains (`n))) with
  | Done (l, st) => (Done (list_to_set l), exist _
      (MkNode (set_db (node_server (`n)) (MkWorld (maps w) (shorts st))) (authchain st) (ram st)) (proj2_sig n))
  | Fail _ => (Fail (), n)
  | Panic => (Panic, n)
  | OutOfFuel => (OutOfFuel, n)
  end.

(** ** The interface *)

Definition done_or {Er A} (d : A) (o : outcome Er A) : A := match o with Done a => a | _ => d end.

Lemma reads_then {A B} (m : World -> eff (@Store L) RoomError A) (f : A -> B) :
  confined same_pdus (a ← reads m; mret (f a)).
Proof. same. Qed.

#[local] Existing Instance node_pdus.

Definition node_services : RoomServices := {|
  event_soft_failed := fun id n => is_event_soft_failed (str id) (node_world n);
  mark_soft_failed := fun id n => set_node_db n (mark_event_soft_failed (str id) (node_world n)) (index_ok_mark _ _ (proj2_sig n));
  event_referenced := fun r id n => done_or false (is_event_referenced debug (str r) (str id) (node_world n));
  shortstatekey := fun ty sk n => ok_of (get_shortstatekey debug (globals (node_world n)) (type_text ty) (str sk));
  new_shortstatekey := fun ty sk => on_events (srv_new_key ty sk) (new_key_events ty sk);
  statekey_of_short := fun k n =>
    (fun '(ty, sk) => (type_of_text ty, unstr sk)) <$> ok_of (get_statekey_from_short debug (globals (node_world n)) k);
  event_shortstatehash := fun id n => ok_of (pdu_shortstatehash debug (str id) (node_world n));
  room_shortstatehash := fun r n => ok_of (get_room_shortstatehash debug (str r) (node_world n));
  full_ids := fun h => on_events (srv_full_ids h) (full_ids_events h);
  auth_events_in_state := fun r ty u sk c =>
    on_events (reads (get_auth_events debug fuel first (str r) ty u sk c)) (reads_same _);
  can_redact := fun e u r b => on_events (reads (user_can_redact debug fuel first (str e) (str u) (str r) b)) (reads_same _);
  extremities_of := fun r n => unstr <$> done_or [] (get_forward_extremities debug event_id_ok (str r) (node_world n));
  room_create := fun r => on_events (reads (fun w => room_state_get debug fuel first w (str r) RoomCreate [])) (reads_same _);
  room_acl := fun r => on_events
    (reads (fun w => room_state_get_content debug fuel first de_acl w (str r) RoomServerAcl [])) (reads_same _);
  room_version := fun r => on_events
    (v ← reads (fun w => get_room_version debug fuel first w (str r)); mret (parse_version v)) (reads_then _ _);
  force_room_state := fun r h added removed => on_events (srv_force_state r h added removed) (force_events r h added removed);
  auth_chain_of := srv_auth_chain;
  compress_state := fun l => on_events (srv_compress l) (compress_events l);
  save_room_state := fun r c => on_events (srv_save_state r c) (save_events r c);
  append_incoming := fun e v l c soft => on_server (append_incoming_srv e v l c soft) (incoming_valid e v l c soft);
  first_ts := fun r n => pdu_ts ∘ snd <$> ok_of (first_item_in_room (str r) (node_world n));
  room_exists := fun r n => metadata_exists (str r) (node_world n);
  room_disabled := fun r n => is_disabled (str r) (node_world n) |}.

Lemma events_same (n n' : node) : same_pdus (node_server (`n)) (node_server (`n')) -> same_events (PS := node_pdus) n n'.
Proof.
  intros Hs id. cbn. unfold world_get_pdu_id, world_get_pdu, world_outlier_json, node_events, node_world. cbn.
  unfold Timeline.get_pdu, service_outlier_json, get_non_outlier_pdu, Timeline.get_pdu_id, get_pdu_from_id, get_outlier.
  rewrite (Hs eventid_pduid), (Hs pduid_pdu), (Hs eventid_outlierpdu) by (unfold event_tables; set_solver). done.
Qed.

Lemma on_events_same {A} (m : srv A) Hm : confined (same_events (PS := node_pdus)) (on_events m Hm).
Proof. intros n. apply events_same. cbn. apply Hm. Qed.

#[global] Instance node_laws : RoomLaws node_services.
Proof.
  split.
  3-9: intros; apply on_events_same.
  4-5: intros; apply on_events_same.
  - intros id s. cbn. unfold is_event_soft_failed, mark_event_soft_failed. change (node_world (set_node_db s ?w _)) with w.
    autorewrite with world. rewrite lookup_insert_eq. by apply bool_decide_eq_true.
  - intros id s. apply events_same. intros t Ht. cbn. apply maps_ins_ne. intros <-. unfold event_tables in Ht. set_solver.
  - intros r ids n. cbn [auth_chain_of node_services]. unfold srv_auth_chain.
    destruct (event_ids_iter _ _ _ _) as [[l st]| | |]; [|done..]. apply events_same. by intros t _.
  - intros e v l c n. apply events_same. apply soft_fail_events.
  - intros e v l c s id Hid. cbn. unfold world_get_pdu_id, Timeline.get_pdu_id, get. cbn.
    pose proof (incoming_but e v l c (node_server (`s)) (str id)) as Hb.
    assert (str id <> str (event_id e)) as Hne by (by intros ->%(inj str)). specialize (Hb Hne).
    unfold node_world. cbn. by rewrite Hb.
Qed.

End node.

(** ** Old events: [backfill_pdu], [backfill_if_required] *)

(** Requests for old events of a room; configured servers to ask. *)
Class Backfill := {
  get_backfill : nat -> bytes -> string -> bytes -> option (list string);
  trusted_servers : list bytes }.

Section backfill.
Context (debug : bool) {E : Engine} {I : Ids} {Js : Json} {JT : JsonText} {M : MemberJson} {J : PduJson}.
Context {R : Ruma} {RR : RoomRuma} {EJ : EventJson} {T : EventText} {TR : TimelineRuma} {U : Unicode} {NR : NodeRuma}.
Context {sched : Schedule} {L : LruCache Z ShortStateInfoVec} {C : chain_cache}.
Context {FD : Federation} {HR : HandlerRuma} {BF : Backfill}.
Context (fuel : nat) (first : bool) (cfg : Config) (admin : AdminConfig) (calculate_hash : list bytes -> bytes).
Context (event_id_ok alias_ok : bytes -> bool) (predecessor : World -> bytes -> option bytes).
Context (dest_hash : Destination -> Z) (appservices : list Appservice) (now : Z).
Context (fetch_fuel resolve_fuel automatic_width prev_fuel : nat) (max_fetch_prev_events : Z).

#[local] Instance events_here : PduStore := node_pdus (L := L) (C := C) first.
#[local] Instance services_here : RoomServices := node_services debug fuel first cfg admin calculate_hash event_id_ok
  alias_ok predecessor dest_hash appservices now.

Abbreviation srv := (eff (@Server L) AppendError).
Abbreviation handler := (eff (Handler events_here) HandlerError).

(** The event becomes the oldest of its room. *)
Definition srv_prepend (event_id' room_id : string) : srv () :=
  text ← asks InTimeline (Timeline.get_pdu_json first (str event_id'));
  value ← lift_eff (ok_or BadDatabase (of_text text));
  p ← asks InTimeline (Timeline.get_pdu first (str event_id'));
  let pdu := StateAccessor.pdu_event p in
  shortroomid ← asks (fun e => InRoom (RoomShort e)) (fun w => get_shortroomid debug (globals w) (str room_id));
  count ← counted debug;
  if (i64_max <? count)%Z then throw BadDatabase else
  let pdu_id := raw_from_id (MkId shortroomid (Count.Backfilled (0 - count))) in
  _ ← writes InTimeline (prepend_backfill_pdu debug pdu_id (str event_id') (to_text value));
  if decide (event_type pdu <> RoomMessage) then mret () else
  body ← lift_eff (ok_or InvalidContent (de_body (content pdu)));
  match body with
  | Some body => write (index_pdu shortroomid pdu_id (str body))
  | None => mret ()
  end.

Lemma prepend_valid id room : confined valid_rows (srv_prepend id room).
Proof.
  assert (forall A (m : srv A), confined same_pdus m -> confined valid_rows m) as Hw.
  { intros A m. apply confined_weaken, same_valid. }
  unfold srv_prepend. repeat first
  [ apply Hw, asks_same | apply Hw, counted_same | apply confined_ret, _ | apply confined_lift, _ | apply confined_throw, _
  | apply confined_bind; [apply _| |intros ?]
  | match goal with |- confined _ (match ?x with _ => _ end) => destruct x end ].
  - intros s. unfold writes. rewrite prepend_eq. intros Hi e k.
    match goal with |- maps (srv_world ?s') _ !! _ = _ -> _ => change (maps (srv_world s')) with
      (maps (stored (pkey a2 (Count.Backfilled (0 - a3))) (str id) (to_text a0) (srv_world s))) end.
    unfold stored. autorewrite with world. intros [[_ <-]|[_ Hk]]%lookup_insert_Some; [|by eapply Hi].
    eexists. apply raw_from_bytes_as_bytes, raw_from_id_typed.
  - intros s0 Hi e k. change (maps (srv_world (write ?f s0).2) eventid_pduid) with (maps (f (srv_world s0)) eventid_pduid).
    unfold index_pdu. rewrite maps_set_ne by done. apply Hi.
Qed.

Definition backfill_pdu (origin pdu : string) : handler () :=
  '(room_id, event_id', value) ← parse_incoming_pdu pdu;
  known ← gets (fun h => Outliers.get_pdu_id event_id' (db h));
  match known with
  | Some _ => mret ()
  | None =>
      _ ← handle_incoming_pdu debug fetch_fuel resolve_fuel automatic_width prev_fuel max_fetch_prev_events
            origin room_id event_id' value false;
      on_store (on_server (srv_prepend event_id' room_id) (prepend_valid event_id' room_id))
  end.

(** The servers that may have old events: those of users with a higher power
    level than others, that of the room's alias and the trusted ones, if they are
    in the room. *)
Definition in_room (room_id : string) (acc : list bytes) (server : bytes) : srv (list bytes) :=
  if bool_decide (server = own_server admin) then mret acc else
  b ← asks InCodec (server_in_room debug server (str room_id));
  mret (if (b : bool) then acc ++ [server] else acc).

Definition backfill_servers (room_id : string) : srv (list bytes) :=
  levels ← opt (reads (fun w => room_state_get_content debug fuel first de_power_levels w (str room_id) RoomPowerLevels []));
  let pl := default default_levels levels in
  let room_mods := omap (fun '(u, level) =>
    if (users_default pl <? level)%Z && negb (user_is_local cfg (str u)) then Some (server_name (str u)) else None)
    (merge_sort ord_le (map_to_list (users pl))) in
  alias ← opt (reads (fun w => get_canonical_alias debug fuel first w (str room_id)));
  let alias_servers := match alias with Some a => [alias_server (str a)] | None => [] end in
  for_each (in_room room_id) [] (room_mods ++ alias_servers ++ trusted_servers).

Lemma backfill_servers_same room_id : confined same_pdus (backfill_servers room_id).
Proof.
  unfold backfill_servers, in_room, opt. repeat first
  [ apply asks_same | apply reads_same | apply confined_ret, _ | apply confined_attempt
  | apply confined_for_each; [apply _|intros ? ?] | apply confined_bind; [apply _| |intros ?]
  | match goal with |- confined _ (match ?x with _ => _ end) => destruct x end ].
Qed.

Definition backfill_one (server : bytes) (u : ()) (pdu : string) : handler () :=
  _ ← attempt (backfill_pdu (unstr server) pdu); mret ().

(** The servers are asked one after the other until one of them answers. *)
Fixpoint ask_backfill (room_id : string) (event_id' : bytes) (servers : list bytes) : handler () :=
  match servers with
  | [] => mret ()
  | server :: servers =>
      response ← request (fun n => get_backfill n server room_id event_id');
      match response with
      | Some pdus => for_each (backfill_one server) () pdus
      | None => ask_backfill room_id event_id' servers
      end
  end.

Definition world_readable (room_id : string) : srv bool :=
  reads (fun w => is_world_readable debug fuel first w (str room_id)).

Definition backfill_if_required (room_id : string) (from : Count.count) : handler () :=
  joined ← gets (fun h => room_joined_count debug (str room_id) (node_world (db h)));
  let few := match joined with Done n => (n <=? 1)%Z | _ => false end in
  readable ← (if few then on_store (on_events (world_readable room_id) (reads_same _)) else mret true);
  if negb readable then mret () else
  first_pdu ← gets (fun h => first_item_in_room debug now (str room_id) (node_world (db h)));
  '(count, pdu) ← lift_eff (match first_pdu with Done item => Done item | OutOfFuel => OutOfFuel | _ => Panic end);
  if decide (Count.cmp count from = Lt) then mret () else
  servers ← on_store (on_events (backfill_servers room_id) (backfill_servers_same room_id));
  ask_backfill room_id (pdu_event_id pdu) servers.

(** ** What is added *)

Definition old_position (k : bytes) : Prop :=
  exists r n, (n <= i64_max)%Z /\ k = as_bytes (raw_from_id (MkId r (Count.Backfilled (0 - n)))).

Definition row_added (id : bytes) (s s' : @Server L) : Prop :=
  index_but id s s' /\
  (maps (srv_world s') eventid_pduid !! id = maps (srv_world s) eventid_pduid !! id \/
   exists k, maps (srv_world s') eventid_pduid !! id = Some k /\ old_position k).
#[global] Instance row_added_preorder id : PreOrder (row_added id).
Proof.
  split; [intros s; by split; [|left]|]. intros s1 s2 s3 [H1 K1] [H2 K2]. split; [by etrans|].
  destruct K2 as [K2|K2]; [rewrite K2; exact K1|by right].
Qed.

Lemma prepend_adds id room : confined (row_added (str id)) (srv_prepend id room).
Proof.
  assert (forall A (m : srv A), confined same_pdus m -> confined (row_added (str id)) m) as Hw.
  { intros A m Hm s. specialize (Hm s). split; [by apply same_index|]. left. rewrite (Hm eventid_pduid); [done|left]. }
  unfold srv_prepend. repeat first
  [ apply Hw, asks_same | apply Hw, counted_same | apply confined_ret, _ | apply confined_lift, _ | apply confined_throw, _
  | apply confined_bind; [apply _| |intros ?]
  | match goal with |- confined _ (if ?x then _ else _) => destruct x eqn:? end
  | match goal with |- confined _ (match ?x with _ => _ end) => destruct x end ].
  - intros s. unfold writes. rewrite prepend_eq. unfold row_added, index_but.
    match goal with |- context [srv_world (?a, set_db ?s' ?w).2] => change (srv_world (a, set_db s' w).2) with w end.
    unfold stored. autorewrite with world. split; [intros e He; by rewrite lookup_insert_ne|].
    right. eexists. split; [apply lookup_insert_eq|]. exists a2, a3. split; [lia|done].
  - apply Hw. intros s0 t Ht. change (maps (srv_world (write ?f s0).2) t) with (maps (f (srv_world s0)) t).
    unfold index_pdu. apply maps_set_ne. unfold event_tables in Ht. set_solver.
Qed.

(** Positions stay; new ones are before all others. *)
Definition prepends (h h' : Handler events_here) : Prop :=
  (forall e p, Outliers.get_pdu_id e (db h) = Some p -> Outliers.get_pdu_id e (db h') = Some p) /\
  (forall e p, Outliers.get_pdu_id e (db h) = None -> Outliers.get_pdu_id e (db h') = Some p ->
     exists r n, (n <= i64_max)%Z /\ p = raw_from_id (MkId r (Count.Backfilled (0 - n)))).
#[global] Instance prepends_preorder : PreOrder prepends.
Proof.
  split; [by split; [|intros e p ->]|]. intros h1 h2 h3 [K1 N1] [K2 N2]. split; [by auto|].
  intros e p Hn Hp. destruct (Outliers.get_pdu_id e (db h2)) as [p2|] eqn:E2; [|by eapply N2].
  destruct (N1 e p2 Hn E2) as (r & n & Hr & ->). apply K2 in E2. rewrite E2 in Hp. injection Hp as <-. by exists r, n.
Qed.

Lemma same_prepends h h' : same_timeline h h' -> prepends h h'.
Proof. intros Hs. split; intros e p; rewrite Hs; [done|]. by intros ->. Qed.

Lemma quiet_prepends {A} (m : handler A) : confined same_timeline m -> confined prepends m.
Proof. intros Hm h. apply same_prepends, Hm. Qed.

Lemma store_prepends id room h : Outliers.get_pdu_id id (db h) = None ->
  prepends h (on_store (on_server (srv_prepend id room) (prepend_valid id room)) h).2.
Proof.
  intros Hn. set (h' := (on_store _ h).2). pose proof (prepend_adds id room (node_server (proj1_sig (db h)))) as [Hb Hr].
  assert (forall e, e <> id -> Outliers.get_pdu_id e (db h') = Outliers.get_pdu_id e (db h)) as Hother.
  { intros e He. change (ok_of (Timeline.get_pdu_id (str e) (srv_world (srv_prepend id room (node_server (proj1_sig (db h)))).2)) =
      ok_of (Timeline.get_pdu_id (str e) (srv_world (node_server (proj1_sig (db h)))))).
    unfold Timeline.get_pdu_id, get. rewrite Hb by (by intros ->%(inj str)). done. }
  split; intros e p; (destruct (decide (e = id)) as [->|He]; [|rewrite Hother by done; naive_solver]); [congruence|].
  intros _. change (ok_of (Timeline.get_pdu_id (str id) (srv_world (srv_prepend id room (node_server (proj1_sig (db h)))).2)) = Some p ->
    exists r n, (n <= i64_max)%Z /\ p = raw_from_id (MkId r (Count.Backfilled (0 - n)))).
  change (ok_of (Timeline.get_pdu_id (str id) (srv_world (node_server (proj1_sig (db h))))) = None) in Hn.
  unfold Timeline.get_pdu_id, get in *. destruct Hr as [->|(k & -> & r & n & Hr & ->)]; [congruence|].
  cbn [ok_or lift_tl mbind outcome_bind]. rewrite raw_from_bytes_as_bytes by apply raw_from_id_typed.
  intros [= <-]. by exists r, n.
Qed.

Lemma outlier_only_same prev_fuel' limit origin room id value : confined same_timeline
  (handle_incoming_pdu debug fetch_fuel resolve_fuel automatic_width prev_fuel' limit origin room id value false).
Proof.
  unfold handle_incoming_pdu. apply confined_bind; [apply _|apply confined_gets, _|intros [p|]]; [apply confined_ret, _|].
  apply confined_bind; [apply _|apply admit_request_same|intros c].
  apply confined_bind; [apply _|apply outlier_same|intros [pdu val]]. cbn. apply confined_ret, _.
Qed.

Lemma parse_same pdu : confined same_timeline (parse_incoming_pdu pdu).
Proof.
  unfold parse_incoming_pdu. repeat first
  [ apply confined_ret, _ | apply confined_lift, _ | apply confined_throw, _ | apply confined_attempt
  | apply confined_bind; [apply _| |intros ?]
  | match goal with |- confined _ (match ?x with _ => _ end) => destruct x end
  | apply on_store_same, on_events_same ].
Qed.

Lemma backfill_pdu_prepends origin pdu : confined prepends (backfill_pdu origin pdu).
Proof.
  intros h. unfold backfill_pdu. apply (confined_bind_at prepends); [apply quiet_prepends, parse_same|].
  intros [[room id] value] h1 _. apply (confined_bind_at prepends); [apply quiet_prepends, confined_gets, _|].
  intros [p|] h2 [= Hk <-]; [reflexivity|].
  apply (confined_bind_at prepends); [apply quiet_prepends, outlier_only_same|]. intros o h2 Ho.
  apply store_prepends. pose proof (outlier_only_same prev_fuel max_fetch_prev_events origin room id value h1 id) as Hs.
  rewrite Ho in Hs. cbn [snd] in Hs. by rewrite Hs.
Qed.

(** C23. Fetching old events keeps the timeline: whatever the servers that are
    asked answer, and however the request ends, every event keeps its position,
    and an event that is added gets one of the positions for old events, which
    come before those of events that were sent or received. *)
Theorem backfill_only_prepends room_id from : confined prepends (backfill_if_required room_id from).
Proof.
  assert (forall id servers, confined prepends (ask_backfill room_id id servers)) as Ha.
  { intros id. induction servers as [|server servers IH]; [apply confined_ret, _|]. cbn [ask_backfill].
    apply confined_bind; [apply _|apply quiet_prepends; done|]. intros [pdus|]; [|exact IH].
    apply confined_for_each; [apply _|]. intros u pdu. unfold backfill_one.
    apply confined_bind; [apply _|apply confined_attempt, backfill_pdu_prepends|]. intros. apply confined_ret, _. }
  unfold backfill_if_required. apply confined_bind; [apply _|apply confined_gets, _|intros joined].
  apply confined_bind; [apply _|case_match; [apply quiet_prepends, on_store_same, on_events_same|apply confined_ret, _]|].
  intros readable. case_match; [apply confined_ret, _|].
  apply confined_bind; [apply _|apply confined_gets, _|intros item].
  apply confined_bind; [apply _|apply confined_lift, _|intros [count pdu]].
  case_match; [apply confined_ret, _|].
  apply confined_bind; [apply _|apply quiet_prepends, on_store_same, on_events_same|intros servers]. apply Ha.
Qed.

End backfill.
