(* ===== verification/ToyNode.v ===== *)
(** * A small server that receives events

    The handler on the room services, with the concrete parameters of
    [ToyServer]: users of another server join the room and are refused. *)

From stdpp Require Import prelude gmap strings list sorting.
From Stdlib Require Import ZArith Lia.
From Stdlib Require Import Strings.Byte.
From S2P Require Import Prelude MachineInt PduCount Matrix ToyRuma EventAuth DbCodec DbMap CoreUtils Effects Short.
From S2P Require Import World AccountData StateCache Timeline Outliers OutlierStore FetchPrev StateCompressor.
From S2P Require Import AuthChain StateAccessor RoomState RoomTables Alias AppendPdu ToyServer Upgrade Node.
Import PduId.

Module ToyNode.
Import ToyServer.

Definition node_ruma : NodeRuma := {| type_of_text := fun b => type_of (unstr b); de_acl := fun _ => None |}.
Definition of_string (v : CanonicalJsonValue) : option string := match v with JString s => Some s | _ => None end.
Definition handler_ruma : HandlerRuma :=
  {| acl_is_allowed := fun _ _ => false; de_redaction := fun _ => None; as_str_room_id := of_string;
     as_user_id := of_string; get_room_state_ids := fun _ _ _ _ => None |}.
Definition federation : Federation :=
  {| get_event := fun _ _ _ => None; verify_event := fun _ _ _ => Some All; instant := fun _ => 0%Z;
     server_running := fun _ => true |}.
Definition chains : chain_cache := one_entry _ _.
#[local] Existing Instance node_ruma.
#[local] Existing Instance handler_ruma.
#[local] Existing Instance federation.
#[local] Existing Instance chains.

#[local] Instance events : PduStore := node_pdus (L := one_stack) (C := chains) true.
#[local] Instance services : RoomServices := node_services true 4 true config admin marked event_id_ok
  ToyAlias.alias_ok (fun _ _ => None) (fun _ => 0%Z) [] 0.

Definition rows_ok (w : World) : bool :=
  forallb (fun r => match raw_from_bytes r.2 with Done _ => true | _ => false end) (map_to_list (maps w eventid_pduid)).

Lemma rows_index w : rows_ok w = true -> index_ok w.
Proof.
  unfold rows_ok. rewrite forallb_forall. intros H e k Hk. specialize (H (e, k)).
  destruct (raw_from_bytes k) as [id| | |] eqn:Er; [by exists id|..]; cbn in H; rewrite Er in H;
    (discriminate H; apply list_elem_of_In, elem_of_map_to_list; exact Hk).
Qed.

Lemma joined_rows : rows_ok (srv_world joined) = true.
Proof. vm_compute. reflexivity. Qed.

Definition node_of (s : Server) (H : rows_ok (srv_world s) = true) : node :=
  exist _ (MkNode s ∅ (None : cache (LruCache := chains))) (rows_index (srv_world s) H).

Definition start : Handler events := MkHandler _ events (node_of joined joined_rows) ∅ 0.

Definition bob : Event :=
  MkEvent "$bob" room "@bob:b" 5 RoomMember "join" (Some "@bob:b") ["$public"] ["$create"; "$levels"; "$public"] None.

Abbreviation receive := (handle_incoming_pdu true 50 50 1 50 192).

(** A result that is [Done], and the state it leaves. *)
Definition is_ok {Er A} (o : outcome Er A) : bool := match o with Done _ => true | _ => false end.
Lemma done_pair {S Er A} (r : outcome Er A * S) d : is_ok r.1 = true -> r = (Done (done_or d r.1), r.2).
Proof. by destruct r as [[] s]. Qed.

(** ** An event from another server *)

Definition received : Handler events := (receive "b" room "$bob" (object bob) true start).2.

Lemma bob_unknown : Outliers.get_pdu_id "$bob" (db start) = None.
Proof. vm_compute. reflexivity. Qed.
Lemma bob_known : Outliers.get_pdu_id "$bob" (db received) <> None.
Proof. vm_compute. discriminate. Qed.

Lemma laws : RoomLaws services.
Proof. apply node_laws. Qed.

Lemma incoming_events_admitted_witness :
  exists create pdu val h1, upgrade_call true 50 50 1 50 192 "b" room "$bob" (object bob) start create pdu val h1 /\
    event_id pdu = "$bob" /\ admitted true 50 50 1 create "b" room pdu h1.
Proof.
  destruct (incoming_events_admitted true 50 50 1 50 192 "b" room "$bob" (object bob) true start laws) as [_ H].
  destruct (H "$bob" bob_unknown bob_known) as (create & pdu & val & h1 & H1 & H2 & _ & _ & H3).
  exists create, pdu, val, h1. exact (conj H1 (conj H2 H3)).
Defined.

(** ** Refused events *)

Lemma no_room : room_exists "!none:a" (db start) = false.
Proof. vm_compute. reflexivity. Qed.

Lemma incoming_refused_witness :
  (receive "b" "!none:a" "$bob" (object bob) true start).1 <> Done None /\
  same_events (db start) (db (receive "b" "!none:a" "$bob" (object bob) true start).2).
Proof.
  destruct (proj2 (incoming_refused true 50 50 1 50 192 "b" "!none:a" "$bob" (object bob) true start laws)
    bob_unknown (or_introl no_room)) as [H1 H2]. exact (conj (H1 None) H2).
Defined.

(** ** An event that is too late

    The room was closed after the event's predecessor. *)

Definition closed : Server := (build 0 (state_event RoomJoinRules "by invitation" "") alice room joined).2.

Lemma closed_rows : rows_ok (srv_world closed) = true.
Proof. vm_compute. reflexivity. Qed.

Definition closed_start : Handler events := MkHandler _ events (node_of closed closed_rows) ∅ 0.

Definition state_step := state_at_event true 50 50 1 bob ToyRuma.ev_create "b" room IdV10 closed_start.
Definition bob_state : gmap Z string := done_or ∅ state_step.1.
Definition check_step := check_event bob room IdV10 bob_state state_step.2.

Lemma state_found : is_ok state_step.1 = true.
Proof. vm_compute. reflexivity. Qed.
Lemma state_ran :
  state_at_event true 50 50 1 bob ToyRuma.ev_create "b" room IdV10 closed_start = (Done bob_state, state_step.2).
Proof.
  pose proof state_found as H. unfold bob_state. unfold state_step in *. revert H.
  generalize (state_at_event true 50 50 1 bob ToyRuma.ev_create "b" room IdV10 closed_start).
  intros r. apply done_pair.
Qed.
Lemma bob_late : check_step.1 = Done true.
Proof. vm_compute. reflexivity. Qed.
Lemma check_found : check_step = (Done true, check_step.2).
Proof. rewrite <- bob_late. apply surjective_pairing. Qed.
Lemma bob_absent : Outliers.get_pdu_id (event_id bob) (db closed_start) = None.
Proof. vm_compute. reflexivity. Qed.
Lemma bob_unmarked : event_soft_failed (event_id bob) (db closed_start) = false.
Proof. vm_compute. reflexivity. Qed.

Definition upgraded := upgrade_outlier_to_timeline_pdu true 50 50 1 bob (object bob) ToyRuma.ev_create "b" room closed_start.

Lemma bob_soft_failed : upgraded.1 = Fail SoftFailed.
Proof. vm_compute. reflexivity. Qed.

Lemma soft_failed_kept_out_witness :
  same_timeline closed_start upgraded.2 /\ event_soft_failed "$bob" (db upgraded.2) = true.
Proof.
  destruct (soft_failed_kept_out true 50 50 1 ToyRuma.ev_create "b" room bob (object bob) IdV10 bob_state closed_start
    state_step.2 check_step.2 laws bob_absent eq_refl bob_unmarked state_ran check_found)
    as (H1 & _ & H2).
  exact (conj H1 (proj1 (H2 bob_soft_failed))).
Defined.

(** ** Two events after the same state *)

Definition talked : Server := (play [message "hello"; message "hi"] joined).2.

Lemma talked_rows : rows_ok (srv_world talked) = true.
Proof. vm_compute. reflexivity. Qed.
Definition talk : node := node_of talked talked_rows.

Definition event_at (id : string) : Event := default bob (Outliers.get_pdu id talk).
Definition hash_at (id : string) : Z := default 0%Z (event_shortstatehash id talk).

Lemma hello_there : Outliers.get_pdu "$hello" talk = Some (event_at "$hello").
Proof. vm_compute. reflexivity. Qed.
Lemma hi_there : Outliers.get_pdu "$hi" talk = Some (event_at "$hi").
Proof. vm_compute. reflexivity. Qed.
Lemma hello_hash : event_shortstatehash "$hello" talk = Some (hash_at "$hello").
Proof. vm_compute. reflexivity. Qed.
Lemma hi_hash : event_shortstatehash "$hi" talk = Some (hash_at "$hello").
Proof. vm_compute. reflexivity. Qed.

Lemma forks_merged_witness :
  exists e, fork_points ["$hello"; "$hi"] talk = Some {[ hash_at "$hello" := e ]} /\
    (e = event_at "$hello" \/ e = event_at "$hi").
Proof.
  exact (forks_merged talk "$hello" "$hi" (event_at "$hello") (event_at "$hi") (hash_at "$hello")
    hello_there hi_there hello_hash hi_hash).
Defined.

End ToyNode.
