(* ===== verification/Inbound.v ===== *)
(** * Transactions from other servers

    Models [src/api/server/send.rs]: another server delivers events, which go
    through the event handler of [Node], and ephemeral updates (presence,
    receipts, typing, devices and their keys, messages to devices), each of
    which a server may send only for its own users.

    Updates that the code handles concurrently are handled one after the other,
    in any order. *)

From stdpp Require Import prelude gmap strings list sorting.
From Stdlib Require Import ZArith Lia.
From Stdlib Require Import Strings.Byte.
From S2P Require Import Prelude MachineInt PduCount Matrix EventAuth DbCodec DbMap CoreUtils Effects Short World.
From S2P Require Import AccountData StateCache Membership Sending SenderSystem Timeline Outliers OutlierStore.
From S2P Require Import FetchPrev StateCompressor AuthChain StateAccessor RoomState RoomTables Alias AppendPdu.
From S2P Require Import Users ToDevice KeyBackups Presence Typing Upgrade Node.
Import PduId.

(** ** Updates *)

Record PresenceUpdate := MkPresenceUpdate {
  pu_user_id : bytes;
  pu_presence : PresenceState;
  pu_status_msg : option bytes;
  pu_last_active_ago : Z;
  pu_currently_active : bool }.

Record ReceiptData := MkReceiptData { rd_data : bytes; rd_event_ids : list bytes }.

Inductive Target := ToDeviceId (d : bytes) | AllDevices.

(** A [BTreeMap] whose entries are handled in order is the list of its entries. *)
Inductive Edu :=
| PresenceEdu (push : list PresenceUpdate)
| ReceiptEdu (receipts : gmap bytes (gmap bytes ReceiptData))
| TypingEdu (room_id user_id : bytes) (typing : bool)
| DeviceListUpdate (user_id : bytes)
| DirectToDevice (sender ev_type message_id : bytes) (messages : gmap bytes (list (Target * bytes)))
| SigningKeyUpdate (user_id : bytes) (master_key self_signing_key : option bytes)
| OtherEdu.

Class InboundRuma := {
  de_edu : string -> option Edu;
  de_content : bytes -> option bytes;        (** [deserialize_as::<serde_json::Value>], as text *)
  (** [ReceiptEvent] of a room, an event and a user with its data *)
  ser_receipt : bytes -> bytes -> bytes -> bytes -> bytes }.

Record InboundConfig := MkInboundConfig {
  allow_incoming_presence : bool;
  allow_incoming_read_receipts : bool;
  allow_incoming_typing : bool;
  typing_federation_timeout_s : Z }.

(** What the typing and presence services keep in memory, and how often the clock was read. *)
Record Memory := MkMemory {
  typings : gmap bytes (gmap bytes Z);
  typing_updates : gmap bytes Z;
  typing_announced : list bytes;
  presence_timers : list (bytes * Z);
  presence_open : bool;
  ticks : nat }.

(** ** What a server may change

    The rows a server may write by updates: those of its own users.  (Only for
    users of this server are updates passed on to others.) *)

Section footprint.
Context {I : Ids} {UJ : UserJson}.
Context (own origin : bytes).

Definition ours (user_id : bytes) : Prop := server_name user_id = origin.

Definition edu_row (t : tbl) (k : bytes) (v : option bytes) : Prop :=
  match t with
  | userid_presenceid | userid_masterkeyid | userid_selfsigningkeyid => ours k
  | presenceid_presence => exists c u, k = presenceid_key c u /\ ours u
  | readreceiptid_readreceipt => exists u, u `suffix_of` k /\ ours u
  | keyid_key | userdevicetxnid_response => exists u r, k = u ++ SEP :: r /\ ours u
  | keychangeid_userid => exists u, v = Some u /\ ours u
  | servernameevent_data => origin = own
  | todeviceid_events => exists ty sender content, v = Some (ser_to_device ty sender content) /\ ours sender
  | _ => False
  end.

Definition edu_change (w w' : World) : Prop := forall t k,
  maps w' t !! k = maps w t !! k \/ edu_row t k (maps w' t !! k).

#[global] Instance edu_change_preorder : PreOrder edu_change.
Proof.
  split; [by left|]. intros w1 w2 w3 H1 H2 t k. destruct (H2 t k) as [->|H]; [apply H1|by right].
Qed.

Lemma edu_ins t k v w : edu_row t k (Some v) -> edu_change w (ins t k v w).
Proof.
  intros H t' k'. destruct (decide (t = t')) as [<-|Ht]; [|rewrite maps_ins_ne by done; by left].
  rewrite maps_ins_eq. destruct (decide (k = k')) as [<-|Hk]; [right|left]; by simplify_map_eq.
Qed.
Lemma edu_rem t k w : edu_row t k None -> edu_change w (rem t k w).
Proof.
  intros H t' k'. destruct (decide (t = t')) as [<-|Ht]; [|rewrite maps_rem_ne by done; by left].
  rewrite maps_rem_eq. destruct (decide (k = k')) as [<-|Hk]; [right; by simplify_map_eq|].
  left. by rewrite lookup_delete_ne.
Qed.
Lemma edu_same w w' : maps w' = maps w -> edu_change w w'.
Proof. intros Hm t k. rewrite Hm. by left. Qed.

(** The events of the timeline are among what stays. *)
Lemma edu_index w w' : edu_change w w' -> index_ok w -> index_ok w'.
Proof. intros H Hi e k Hk. apply Hi with e. destruct (H eventid_pduid e) as [<-|[]]. done. Qed.

Lemma edu_untouched t w w' : (forall k v, ~ edu_row t k v) -> edu_change w w' -> maps w' t = maps w t.
Proof. intros Hn H. apply map_eq. intros k. by destruct (H t k) as [|?%Hn]. Qed.

End footprint.

(** ** The services' writes for a user *)

(** Sequences of bytes are written as they are. *)
Lemma to_be_one b : to_be 1 (Z_of_byte b) = [b].
Proof. by destruct b. Qed.

Lemma byte_seq_key debug k : serialize_key debug (byte_seq k) = Done k.
Proof.
  assert (forall (k o : bytes) (d : nat), ser_elements Done
    (List.map (ser_value debug) ((fun b => VU8 (Z_of_byte b)) <$> k)) (MkSer o None d false false) =
    Done (MkSer (o ++ k) None d false false)) as H.
  { clear k. intros k. induction k as [|b k IH]; intros o d; [by rewrite app_nil_r|]. cbn. rewrite to_be_one.
    unfold write, set_out. cbn. rewrite IH. by norm_app. }
  unfold serialize_key, serialize_to_vec, byte_seq, serialize. cbn [ser_value].
  destruct debug; unfold ser_sequence_start, set_depth; cbn -[fmap]; by rewrite H.
Qed.

Section writes.
Context (debug : bool) {E : Engine} {I : Ids} {JT : JsonText} {UJ : UserJson} {J : PduJson} {RR : RoomRuma}.
Context {PJ : PresenceJson} {sched : Schedule} {L : LruCache Z ShortStateInfoVec}.
Context (own : bytes) (fuel : nat) (first : bool) (states : @Store L).

Lemma upd_put_text t key k v w :
  serialize_key debug key = Done k -> upd t (fun m => put debug m key (VJson v)) w = Done (ins t k v w).
Proof.
  intros Hk. unfold upd, put, bput, bput_raw. change (buffer_serialize debug None key) with (serialize_key debug key).
  rewrite Hk. by destruct debug.
Qed.

Lemma edu_counted o w c w' : next_count debug w = Done (c, w') -> edu_change own o w w'.
Proof. intros H%count_frame. by apply edu_same. Qed.

Lemma receipt_key r c u :
  serialize_key debug (VTuple [VStr r; VU64 c; VStr u]) = Done (r ++ SEP :: u64_to_be_bytes c ++ SEP :: u).
Proof. destruct debug; lazy -[app u64_to_be_bytes SEP]; by norm_app. Qed.

Lemma drop_receipts_change user_id l w w' :
  Forall (fun k => user_id `suffix_of` k) l -> try_fold (drop_receipt debug) w l = Done w' ->
  edu_change own (server_name user_id) w w'.
Proof.
  intros Hl. revert w. induction Hl as [|k l Hk Hl IH]; intros w H; cbn in H; [by injection H as <-|].
  bind_inv H. trans a; [|by apply IH]. unfold drop_receipt, del, bdel, upd in H0.
  change (buffer_serialize debug None ?v) with (serialize_key debug v) in H0. rewrite byte_seq_key in H0.
  injection H0 as <-. apply (edu_rem _ _ _ k). by exists user_id.
Qed.

Lemma receipt_change user_id room_id event w w' :
  readreceipt_update debug user_id room_id event w = Done w' -> edu_change own (server_name user_id) w w'.
Proof.
  unfold readreceipt_update. intros H. bind_inv H. bind_inv H. bind_inv H. destruct a1 as [c w1].
  trans a0; [|trans w1; [by eapply edu_counted|]].
  - eapply drop_receipts_change; [|exact H1]. unfold receipt_keys in H0. bind_inv H0. injection H0 as <-.
    apply Forall_forall. intros k Hk. by apply list_elem_of_filter in Hk as [Hk _].
  - erewrite upd_put_text in H by apply receipt_key. injection H as <-. apply edu_ins. exists user_id. split; [|done].
    exists (room_id ++ SEP :: u64_to_be_bytes c ++ [SEP]). by norm_app.
Qed.

Lemma edu_query {A} o (q : World -> outcome DbError A) : confined (edu_change own o) (query q).
Proof. intros w. reflexivity. Qed.
Lemma edu_scan {A} o (q : World -> outcome CodecError A) : confined (edu_change own o) (scan q).
Proof. intros w. reflexivity. Qed.
Lemma edu_number o : confined (edu_change own o) (number debug).
Proof. intros w. unfold number. destruct (next_count debug w) as [[c w']| | |] eqn:Ec; [by eapply edu_counted|done..]. Qed.
Lemma edu_set_row o t k v : edu_row own o t k (Some v) -> confined (edu_change own o) (set_row t k v).
Proof. intros H w. by apply edu_ins. Qed.

Lemma put_change_change who user_id count :
  confined (edu_change own (server_name user_id)) (put_change debug who user_id count).
Proof.
  intros w. unfold put_change, change.
  rewrite (upd_put_raw debug _ _ (who ++ SEP :: u64_to_be_bytes count)); [apply edu_ins; by exists user_id|].
  destruct debug; lazy -[app u64_to_be_bytes SEP]; by norm_app.
Qed.

Lemma mark_change user_id :
  confined (edu_change own (server_name user_id)) (mark_device_key_update debug fuel first states user_id).
Proof.
  unfold mark_device_key_update. apply confined_bind; [apply _|apply edu_number|intros c].
  apply confined_bind; [apply _|apply edu_scan|intros rooms].
  apply confined_bind; [apply _| |intros _; apply put_change_change]. apply confined_for_each; [apply _|]. intros [] r.
  unfold change_in_room. apply confined_bind; [apply _|apply edu_query|intros b].
  destruct b; [apply put_change_change|apply confined_ret, _].
Qed.

Lemma to_device_change sender user_id device_id ty content :
  confined (edu_change own (server_name sender)) (add_to_device_event debug sender user_id device_id ty content).
Proof.
  unfold add_to_device_event. apply confined_bind; [apply _|apply edu_number|intros c].
  intros w. unfold change. erewrite upd_put_text.
  - apply edu_ins. by exists ty, sender, content.
  - instantiate (1 := user_id ++ SEP :: device_id ++ SEP :: u64_to_be_bytes c).
    destruct debug; lazy -[app u64_to_be_bytes SEP]; by norm_app.
Qed.

Lemma txnid_change user_id device_id txn_id data :
  confined (edu_change own (server_name user_id)) (add_txnid user_id device_id txn_id data).
Proof. apply edu_set_row. by eexists user_id, _. Qed.

Lemma confined_bind_lift {S Er A B} (Rel : S -> S -> Prop) `{!PreOrder Rel} (o : outcome Er A) (f : A -> eff S Er B) :
  (forall a, o = Done a -> confined Rel (f a)) -> confined Rel (lift_eff o ≫= f).
Proof. intros H s. unfold mbind, eff_bind, lift_eff. destruct o; [by apply H|reflexivity..]. Qed.

Lemma cross_keys_change user_id master_key self_signing_key :
  confined (edu_change own (server_name user_id))
    (add_cross_signing_keys debug fuel first states user_id master_key self_signing_key None true).
Proof.
  assert (forall id k, confined (edu_change own (server_name user_id)) (set_row keyid_key (user_id ++ SEP :: id) k)) as Hk.
  { intros id k. apply edu_set_row. by exists user_id, id. }
  unfold add_cross_signing_keys. apply confined_bind; [apply _| |intros _].
  { destruct master_key as [k|]; [|apply confined_ret, _]. apply confined_bind_lift; [apply _|].
    intros key_id H. unfold parse_master_key in H. bind_inv H. injection H as <-.
    apply confined_bind; [apply _|apply Hk|intros _; by apply edu_set_row]. }
  apply confined_bind; [apply _| |intros _].
  { destruct self_signing_key as [k|]; [|apply confined_ret, _]. apply confined_bind_lift; [apply _|].
    intros id _. apply confined_bind; [apply _|apply Hk|intros _; by apply edu_set_row]. }
  apply confined_bind; [apply _|apply confined_ret, _|intros _; apply mark_change].
Qed.

Lemma presence_change now now' user_id state active ago msg w w' :
  data_set_presence debug now now' user_id state active ago msg w = Done w' -> edu_change own (server_name user_id) w w'.
Proof.
  unfold data_set_presence. intros H. bind_inv H. destruct (_ && _) in H; [by injection H as <-|]. clear H0.
  unfold put_presence in H. bind_inv H. destruct a0 as [c w1]. bind_inv H. bind_inv H. injection H as <-.
  apply fail_with_Done in H0, H1, H2. rewrite upd_json in H1. rewrite upd_put_count in H2. injection H1 as <-. injection H2 as <-.
  trans w1; [by eapply edu_counted|].
  trans (ins userid_presenceid user_id (u64_to_be_bytes c) (ins presenceid_presence (presenceid_key c user_id)
    (ser_presence (MkPresence state (default false active) (from_option (fun ago => u64_saturating_sub now' ago) now' ago)
      (if decide (msg = Some []) then None else msg))) w1)).
  - etrans; [|by apply edu_ins]. apply edu_ins. by exists c, user_id.
  - destruct a as [[last e]|]; [|done]. apply edu_rem. by exists last, user_id.
Qed.

Context (dest_hash : Destination -> Z).

Lemma request_keys_maps l w ks w' : request_keys debug l w = Done (ks, w') -> maps w' = maps w.
Proof.
  revert w ks w'. induction l as [|[e d] l IH]; intros w ks w' H; cbn [request_keys] in H; [by injection H as <- <-|].
  bind_inv H. destruct a as [suffix w1]. bind_inv H. destruct a as [keys w2]. injection H as <- <-.
  apply IH in H1 as ->. destruct e; [by injection H0 as <- <-|..];
    (bind_inv H0; destruct a as [c w3]; injection H0 as <- <-; by apply count_frame in H1).
Qed.

Lemma queue_change reqs y y' ok :
  queue_and_dispatch debug dest_hash reqs y = Done (y', ok) -> edu_change own own (sys_world y) (sys_world y').
Proof.
  unfold queue_and_dispatch. intros H. bind_inv H. destruct a as [keys w]. apply dispatch_still in H as ->. cbn.
  unfold queue_requests in H0. bind_inv H0. destruct a as [ks w1]. injection H0 as <- <-.
  trans w1; [apply edu_same; by eapply request_keys_maps|].
  intros t k. destruct (decide (t = servernameevent_data)) as [->|Ht]; [by right|left]. by rewrite maps_set_ne.
Qed.
End writes.

(** ** Handling an update *)

Section edus.
Context (debug : bool) {E : Engine} {I : Ids} {Js : Json} {JT : JsonText} {M : MemberJson} {J : PduJson}.
Context {RR : RoomRuma} {UJ : UserJson} {PJ : PresenceJson} {IR : InboundRuma}.
Context {sched : Schedule} {L : LruCache Z ShortStateInfoVec}.
Context (fuel : nat) (first : bool) (cfg : Config) (dest_hash : Destination -> Z).
Context (icfg : InboundConfig) (pcfg : PresenceConfig) (allow_outgoing_typing : bool).
Context (typing_edu : bytes -> bytes -> bool -> bytes) (clock : nat -> Z).

Abbreviation own := (cfg_server_name cfg).
Abbreviation edu := (eff (@Server L * Memory) ()).

(** *** Calls of the services *)

(** [.log_err().ok()] *)
Definition logged {Er A} (o : outcome Er A) : outcome () (option A) :=
  match o with Done a => Done (Some a) | Fail _ => Done None | Panic => Panic | OutOfFuel => OutOfFuel end.

Definition asked (q : World -> outcome CodecError bool) : edu bool := fun s =>
  (match q (srv_world s.1) with Done b => Done b | Fail _ => Done false | Panic => Panic | OutOfFuel => OutOfFuel end, s).

Definition on_world {Er A} (m : @Store L -> eff World Er A) : edu (option A) := fun s =>
  let r := m (layers (rooms s.1)) (srv_world s.1) in (logged r.1, (set_db s.1 r.2, s.2)).

Definition read_clock : edu Z := fun s =>
  let m := s.2 in
  (Done (clock (ticks m)), (s.1, MkMemory (typings m) (typing_updates m) (typing_announced m) (presence_timers m)
     (presence_open m) (S (ticks m)))).

Definition on_presence {A} (f : eff PresenceService PresenceError A) : edu (option A) := fun s =>
  let m := s.2 in
  let r := f (MkPresenceService (srv_world s.1) (presence_timers m) (presence_open m)) in
  (logged r.1, (set_db s.1 (Presence.db r.2),
     MkMemory (typings m) (typing_updates m) (typing_announced m) (timers r.2) (channel_open r.2) (ticks m))).

Definition on_typing {A} (f : eff Typing TypingError A) : edu (option A) := fun s =>
  let m := s.2 in
  let r := f (MkTyping (typings m) (typing_updates m) (typing_announced m)
                (MkSystem (srv_world s.1) (senders s.1) (senders_closed s.1))) in
  let y := sys r.2 in
  (logged r.1, (MkServer (with_db (rooms s.1) (sys_world y)) (workers y) (closed y) (admin_queue s.1),
     MkMemory (typing r.2) (last_update r.2) (announced r.2) (presence_timers m) (presence_open m) (ticks m))).

(** [flush_room(room_id).await.expect("room flush failed")] *)
Definition flush (room_id : bytes) : edu () := fun s =>
  match sends (flush_room debug own dest_hash room_id) s.1 with
  | (Done true, s') => (Done (), (s', s.2))
  | (OutOfFuel, s') => (OutOfFuel, (s', s.2))
  | (_, s') => (Panic, (s', s.2))
  end.

(** *** [send.rs] *)

Definition handle_edu_presence_update (origin : bytes) (u : ()) (update : PresenceUpdate) : edu () :=
  if decide (server_name (pu_user_id update) <> origin) then mret () else
  now ← read_clock;
  now' ← read_clock;
  _ ← on_presence (set_presence debug pcfg now now' (pu_user_id update) (pu_presence update)
        (Some (pu_currently_active update)) (Some (pu_last_active_ago update)) (pu_status_msg update));
  mret ().

Definition handle_edu_presence (origin : bytes) (push : list PresenceUpdate) : edu () :=
  for_each (handle_edu_presence_update origin) () (reorder "presence" push).

(** [read_receipt.readreceipt_update] *)
Definition update_receipt (user_id room_id event : bytes) : edu () :=
  _ ← on_world (fun _ => change (readreceipt_update debug user_id room_id event));
  flush room_id.

Definition handle_edu_receipt_room_user (origin room_id : bytes) (u : ()) (x : bytes * ReceiptData) : edu () :=
  let user_id := x.1 in
  if decide (server_name user_id <> origin) then mret () else
  in_room ← asked (server_in_room debug origin room_id);
  if negb in_room then mret () else
  for_each (fun _ event_id => update_receipt user_id room_id (ser_receipt room_id event_id user_id (rd_data x.2)))
    () (reorder "receipt events" (rd_event_ids x.2)).

Definition handle_receipt_users (origin room_id : bytes) (read : gmap bytes ReceiptData) : edu () :=
  for_each (handle_edu_receipt_room_user origin room_id) () (reorder "receipt users" (map_to_list read)).

Definition handle_typing_in_room (room_id user_id : bytes) (is_typing : bool) : edu () :=
  joined ← asked (is_joined debug user_id room_id);
  if negb joined then mret () else
  if is_typing then
    now ← read_clock;
    let timeout := sat_add now (sat_mul (typing_federation_timeout_s icfg) 1000) in
    _ ← on_typing (typing_add debug own dest_hash allow_outgoing_typing typing_edu user_id room_id timeout); mret ()
  else _ ← on_typing (typing_remove debug own dest_hash allow_outgoing_typing typing_edu user_id room_id); mret ().

Definition handle_edu_device_list_update (origin user_id : bytes) : edu () :=
  if decide (server_name user_id <> origin) then mret () else
  _ ← on_world (fun states => mark_device_key_update debug fuel first states user_id); mret ().

Definition handle_edu_direct_to_device_event (target_user_id sender : bytes) (target : Target) (ev_type event : bytes) : edu () :=
  match target with
  | ToDeviceId d => _ ← on_world (fun _ => add_to_device_event debug sender target_user_id d ev_type event); mret ()
  | AllDevices =>
      _ ← on_world (fun _ => ds ← scan (all_device_ids debug target_user_id);
            for_each (fun _ d => add_to_device_event debug sender target_user_id d ev_type event) () (ds : list bytes));
      mret ()
  end.

Definition handle_edu_direct_to_device_user (sender ev_type : bytes) (u : ()) (x : bytes * list (Target * bytes)) : edu () :=
  for_each (fun _ '(target, event) =>
    match de_content event with
    | Some event => handle_edu_direct_to_device_event x.1 sender target ev_type event
    | None => mret ()
    end) () x.2.

Definition handle_edu_direct_to_device (origin sender ev_type message_id : bytes)
    (messages : gmap bytes (list (Target * bytes))) : edu () :=
  if decide (server_name sender <> origin) then mret () else
  known ← on_world (fun _ => query (existing_txnid debug sender None message_id));
  match known with
  | Some _ => mret ()
  | None =>
      _ ← for_each (handle_edu_direct_to_device_user sender ev_type) () (reorder "messages" (map_to_list messages));
      _ ← on_world (fun _ => add_txnid sender None message_id []); mret ()
  end.

Definition handle_edu_signing_key_update (origin user_id : bytes) (master_key self_signing_key : option bytes) : edu () :=
  if decide (server_name user_id <> origin) then mret () else
  _ ← on_world (fun states => add_cross_signing_keys debug fuel first states user_id master_key self_signing_key None true);
  mret ().

(** *** What they change *)

Definition typing_of (m : Memory) (room_id user_id : bytes) : option Z := default ∅ (typings m !! room_id) !! user_id.

Definition edu_moves (origin : bytes) (s s' : @Server L * Memory) : Prop :=
  edu_change own origin (srv_world s.1) (srv_world s'.1) /\
  forall r u, typing_of s'.2 r u = typing_of s.2 r u \/ server_name u = origin.

#[global] Instance edu_moves_preorder origin : PreOrder (edu_moves origin).
Proof.
  split; [split; [done|by left]|]. intros s1 s2 s3 [H1 T1] [H2 T2]. split; [by etrans|].
  intros r u. destruct (T2 r u) as [->|H]; [apply T1|by right].
Qed.

Lemma asked_moves o q : confined (edu_moves o) (asked q).
Proof. intros s. reflexivity. Qed.
Lemma clock_moves o : confined (edu_moves o) read_clock.
Proof. intros s. split; [reflexivity|by left]. Qed.
Lemma world_moves {Er A} o (m : @Store L -> eff World Er A) :
  (forall st, confined (edu_change own o) (m st)) -> confined (edu_moves o) (on_world m).
Proof. intros H s. split; [apply (H (layers (rooms s.1)) (srv_world s.1))|by left]. Qed.

Lemma presence_moves now now' u st a ago msg :
  confined (edu_moves (server_name u)) (on_presence (set_presence debug pcfg now now' u st a ago msg)).
Proof.
  intros s. split; [|by left]. unfold on_presence. cbn [fst snd]. unfold set_presence, write_db, mbind, eff_bind. cbn [Presence.db].
  destruct (data_set_presence _ _ _ _ _ _ _ _ _) as [w'| | |] eqn:Ew; [|reflexivity..].
  apply (presence_change debug own) in Ew. destruct (_ && _); [|exact Ew]. unfold send_timer. cbn [channel_open].
  destruct (presence_open _); exact Ew.
Qed.

Lemma flush_moves o room_id : confined (edu_moves o) (flush room_id).
Proof.
  intros s. unfold flush, sends. destruct (flush_room _ _ _ _ _) as [[y ok]| | |] eqn:Ef.
  - unfold flush_room in Ef. bind_inv Ef. apply dispatch_still in Ef. cbn in Ef.
    destruct ok; (split; [apply edu_same; cbn; by rewrite Ef|by left]).
  - split; [reflexivity|by left].
  - split; [reflexivity|by left].
  - split; [reflexivity|by left].
Qed.

Lemma receipt_moves user_id room_id event : confined (edu_moves (server_name user_id)) (update_receipt user_id room_id event).
Proof.
  unfold update_receipt. apply confined_bind; [apply _| |intros _; apply flush_moves]. apply world_moves. intros _ w.
  unfold change. destruct (readreceipt_update _ _ _ _ _) eqn:Er; [|reflexivity..]. by eapply receipt_change.
Qed.

(** Typing of a user of another server changes only what is known of that user. *)
Lemma notice_change u r b (y : Typing) :
  edu_change own (server_name u) (sys_world (sys y))
    (sys_world (sys ((if is_local own u then federation_send debug own dest_hash allow_outgoing_typing typing_edu r u b
                      else mret ()) y).2)) /\
  typing ((if is_local own u then federation_send debug own dest_hash allow_outgoing_typing typing_edu r u b
                      else mret ()) y).2 = typing y.
Proof.
  destruct (is_local own u) eqn:El; [|by split]. unfold is_local in El. apply bool_decide_eq_true in El as ->.
  unfold federation_send, mbind, eff_bind, lift_eff. destruct (debug_assert debug _) as [[]| | |]; [|by split..].
  destruct allow_outgoing_typing; [|by split]. cbn [negb]. unfold send_notice.
  destruct (send_edu_room _ _ _ _ _ _) as [[y' ok]| | |] eqn:Es; [|by split..]. split; [|done].
  unfold send_edu_room in Es. bind_inv Es. unfold send_edu_servers in Es. by eapply queue_change.
Qed.

Lemma typing_moves (u r : bytes) (b : bool) (f : gmap bytes Z -> gmap bytes Z) :
  (forall m u', u' <> u -> f m !! u' = m !! u') ->
  confined (edu_moves (server_name u))
    (on_typing (_ ← modify (with_room r f); _ ← update_clients debug r;
       if is_local own u then federation_send debug own dest_hash allow_outgoing_typing typing_edu r u b else mret ())).
Proof.
  intros Hf s. unfold on_typing, mbind, eff_bind, modify. cbn [fst snd]. unfold update_clients. cbn [sys with_room sys_world].
  set (t1 := with_room r f _).
  assert (forall r' u', default ∅ (typing t1 !! r') !! u' = typing_of s.2 r' u' \/ server_name u' = server_name u) as Ht.
  { intros r' u'. destruct (decide (u' = u)) as [->|Hu]; [by right|left]. unfold t1, with_room, typing_of. cbn.
    destruct (decide (r = r')) as [<-|Hr]; [rewrite lookup_insert_eq; cbn; by rewrite Hf|by rewrite lookup_insert_ne]. }
  destruct (next_count debug _) as [[c w]| | |] eqn:Ec; [|by split..].
  apply (edu_counted debug own (server_name u)) in Ec.
  destruct (notice_change u r b (MkTyping (typing t1) (<[r := c]> (last_update t1)) (announced t1 ++ [r])
    (set_world w (sys t1)))) as [Hw Hy].
  split; [etrans; [exact Ec|exact Hw]|]. intros r' u'. destruct (Ht r' u') as [Hr|Hr]; [left|by right].
  rewrite <- Hr. exact (f_equal (fun m : gmap bytes (gmap bytes Z) => default ∅ (m !! r') !! u') Hy).
Qed.

Lemma typing_add_moves u r timeout :
  confined (edu_moves (server_name u)) (on_typing (typing_add debug own dest_hash allow_outgoing_typing typing_edu u r timeout)).
Proof. apply typing_moves. intros m u' Hu. by rewrite lookup_insert_ne. Qed.
Lemma typing_remove_moves u r :
  confined (edu_moves (server_name u)) (on_typing (typing_remove debug own dest_hash allow_outgoing_typing typing_edu u r)).
Proof. apply typing_moves. intros m u' Hu. by rewrite lookup_delete_ne. Qed.

(** For a step of another user than the origin's nothing is done. *)
Lemma ours_only {A} origin user_id (a : A) (m : edu A) :
  confined (edu_moves (server_name user_id)) m ->
  confined (edu_moves origin) (if decide (server_name user_id <> origin) then mret a else m).
Proof. intros H. case_decide as Hs; [apply confined_ret, _|]. by subst origin. Qed.

Ltac moves := repeat first
  [ apply confined_ret, _ | apply asked_moves | apply clock_moves | apply receipt_moves
  | apply confined_bind; [apply _| |intros ?]
  | apply confined_for_each; [apply _|intros [] ?]
  | match goal with |- confined _ (if ?b then _ else _) => destruct b end ].

Lemma presence_update_moves origin u x : confined (edu_moves origin) (handle_edu_presence_update origin u x).
Proof. apply ours_only. moves. apply presence_moves. Qed.

Lemma handle_presence_moves origin push : confined (edu_moves origin) (handle_edu_presence origin push).
Proof. apply confined_for_each; [apply _|]. apply presence_update_moves. Qed.

Lemma receipt_users_moves origin room_id l : confined (edu_moves origin) (handle_receipt_users origin room_id l).
Proof. apply confined_for_each; [apply _|]. intros [] [u d]. apply ours_only. moves. Qed.

Lemma typing_room_moves room_id u b : confined (edu_moves (server_name u)) (handle_typing_in_room room_id u b).
Proof. unfold handle_typing_in_room. moves; [apply typing_add_moves|apply typing_remove_moves]. Qed.

Lemma device_list_moves origin u : confined (edu_moves origin) (handle_edu_device_list_update origin u).
Proof. apply ours_only. moves. apply world_moves. intros st. apply mark_change. Qed.

Lemma signing_keys_moves origin u m s : confined (edu_moves origin) (handle_edu_signing_key_update origin u m s).
Proof. apply ours_only. moves. apply world_moves. intros st. apply cross_keys_change. Qed.

Lemma to_device_moves sender ty u x : confined (edu_moves (server_name sender)) (handle_edu_direct_to_device_user sender ty u x).
Proof.
  apply confined_for_each; [apply _|]. intros [] [target event]. destruct (de_content event) as [v|]; [|moves].
  destruct target as [d|]; moves; apply world_moves; intros _; [apply to_device_change|].
  apply confined_bind; [apply _|apply edu_scan|intros ds]. apply confined_for_each; [apply _|].
  intros [] d. apply to_device_change.
Qed.

Lemma direct_moves origin sender ty id l : confined (edu_moves origin) (handle_edu_direct_to_device origin sender ty id l).
Proof.
  apply ours_only. apply confined_bind; [apply _|apply world_moves; intros _; apply edu_query|intros [known|]]; [moves|].
  apply confined_bind; [apply _|apply confined_for_each; [apply _|apply to_device_moves]|intros _].
  moves. apply world_moves. intros _. apply txnid_change.
Qed.
End edus.

(** ** Transactions *)

Section transactions.
Context (debug : bool) {E : Engine} {I : Ids} {Js : Json} {JT : JsonText} {M : MemberJson} {J : PduJson}.
Context {R : Ruma} {RR : RoomRuma} {EJ : EventJson} {T : EventText} {TR : TimelineRuma} {U : Unicode} {NR : NodeRuma}.
Context {UJ : UserJson} {PJ : PresenceJson} {IR : InboundRuma} {FD : Federation} {HR : HandlerRuma}.
Context {sched : Schedule} {L : LruCache Z ShortStateInfoVec} {C : chain_cache}.
Context (fuel : nat) (first : bool) (cfg : Config) (admin : AdminConfig) (calculate_hash : list bytes -> bytes).
Context (event_id_ok alias_ok : bytes -> bool) (predecessor : World -> bytes -> option bytes).
Context (dest_hash : Destination -> Z) (appservices : list Appservice) (now : Z).
Context (fetch_fuel resolve_fuel automatic_width prev_fuel : nat) (max_fetch_prev_events : Z).
Context (icfg : InboundConfig) (pcfg : PresenceConfig) (allow_outgoing_typing : bool).
Context (typing_edu : bytes -> bytes -> bool -> bytes) (clock : nat -> Z).

#[local] Instance inbound_events : PduStore := node_pdus (L := L) (C := C) first.
#[local] Instance inbound_services : RoomServices := node_services debug fuel first cfg admin calculate_hash event_id_ok
  alias_ok predecessor dest_hash appservices now.

Record Inbox := MkInbox { ib_handler : Handler inbound_events; ib_memory : Memory }.

Abbreviation inbox := (eff Inbox HandlerError).

Definition on_handler {A} (m : eff (Handler inbound_events) HandlerError A) : inbox A := fun s =>
  let r := m (ib_handler s) in (r.1, MkInbox r.2 (ib_memory s)).

(** A step of updates, which keeps the index of events. *)
Definition inside {A} (origin : bytes) (m : eff (@Server L * Memory) () A) (Hm : confined (edu_moves cfg origin) m)
    : inbox A := fun s =>
  let h := ib_handler s in
  let n : node (L := L) (C := C) := Outliers.db h in
  let r := m (node_server (`n), ib_memory s) in
  (match r.1 with Done a => Done a | Fail _ => Fail ServiceFailed | Panic => Panic | OutOfFuel => OutOfFuel end,
   MkInbox (MkHandler _ inbound_events
     (exist _ (MkNode r.2.1 (node_authchain (`n)) (node_chains (`n)))
        (edu_index _ _ _ _ (proj1 (Hm (node_server (`n), ib_memory s))) (proj2_sig n)))
     (bad_event_ratelimiter h) (requests h)) r.2.2).

Definition handle_edu_receipt_room (origin : bytes) (u : ()) (x : bytes * gmap bytes ReceiptData) : inbox () :=
  allowed ← on_handler (attempt (acl_check (unstr origin) (unstr x.1)));
  match allowed with
  | inl _ => mret ()
  | inr _ => inside origin (handle_receipt_users debug cfg dest_hash origin x.1 x.2)
               (receipt_users_moves debug cfg dest_hash origin x.1 x.2)
  end.

Definition handle_edu_receipt (origin : bytes) (receipts : gmap bytes (gmap bytes ReceiptData)) : inbox () :=
  for_each (handle_edu_receipt_room origin) () (reorder "receipt rooms" (map_to_list receipts)).

Definition handle_edu_typing (origin room_id user_id : bytes) (is_typing : bool) : inbox () :=
  if decide (server_name user_id <> origin) then mret () else
  allowed ← on_handler (attempt (acl_check (unstr (server_name user_id)) (unstr room_id)));
  match allowed with
  | inl _ => mret ()
  | inr _ => inside (server_name user_id)
      (handle_typing_in_room debug cfg dest_hash icfg allow_outgoing_typing typing_edu clock room_id user_id is_typing)
      (typing_room_moves debug cfg dest_hash icfg allow_outgoing_typing typing_edu clock room_id user_id is_typing)
  end.

Definition handle_edu (origin : bytes) (edu : Edu) : inbox () :=
  match edu with
  | PresenceEdu push =>
      if allow_incoming_presence icfg then
        inside origin (handle_edu_presence debug pcfg clock origin push)
          (handle_presence_moves debug cfg pcfg clock origin push)
      else mret ()
  | ReceiptEdu receipts => if allow_incoming_read_receipts icfg then handle_edu_receipt origin receipts else mret ()
  | TypingEdu room_id user_id is_typing =>
      if allow_incoming_typing icfg then handle_edu_typing origin room_id user_id is_typing else mret ()
  | DeviceListUpdate user_id =>
      inside origin (handle_edu_device_list_update debug fuel first origin user_id)
        (device_list_moves debug fuel first cfg origin user_id)
  | DirectToDevice sender ev_type message_id messages =>
      inside origin (handle_edu_direct_to_device debug origin sender ev_type message_id messages)
        (direct_moves debug cfg origin sender ev_type message_id messages)
  | SigningKeyUpdate user_id master_key self_signing_key =>
      inside origin (handle_edu_signing_key_update debug fuel first origin user_id master_key self_signing_key)
        (signing_keys_moves debug fuel first cfg origin user_id master_key self_signing_key)
  | OtherEdu => mret ()
  end.

(** A PDU that was parsed: its room, its id and its JSON. *)
Abbreviation IncomingPdu := (string * string * CanonicalJsonObject)%type.
Abbreviation ResolvedMap := (gmap string (HandlerError + ())).

(** The room is locked for the time of the whole loop. *)
Definition handle_room_pdu (origin : bytes) (room_id : string) (done : list (string * (HandlerError + ()))) (pdu : IncomingPdu)
    : inbox (list (string * (HandlerError + ()))) :=
  let '(_, event_id', value) := pdu in
  _ ← on_handler check_running;
  result ← on_handler (attempt (handle_incoming_pdu debug fetch_fuel resolve_fuel automatic_width prev_fuel
             max_fetch_prev_events (unstr origin) room_id event_id' value true));
  mret (done ++ [(event_id', match result with inl e => inl e | inr _ => inr () end)]).

Definition handle_room (origin : bytes) (room_id : string) (pdus : list IncomingPdu)
    : inbox (list (string * (HandlerError + ()))) := for_each (handle_room_pdu origin room_id) [] pdus.

(** [into_grouping_map_by]: the events of each room; the stable sort before it
    keeps their order. *)
Definition by_room (pdus : list IncomingPdu) : list (string * list IncomingPdu) :=
  (fun r => (r, filter (fun p => p.1.1 = r) pdus)) <$> remove_dups (pdus.*1.*1).

Definition handle_one_room (origin : bytes) (acc : list (string * (HandlerError + ()))) (x : string * list IncomingPdu)
    : inbox (list (string * (HandlerError + ()))) :=
  r ← handle_room origin x.1 x.2; mret (acc ++ r).

Definition handle (origin : bytes) (pdus : list IncomingPdu) (edus : list Edu) : inbox ResolvedMap :=
  results ← for_each (handle_one_room origin) [] (reorder "rooms" (by_room pdus));
  _ ← for_each (fun _ edu => handle_edu origin edu) () (reorder "edus" edus);
  mret (collect (results : list (string * (HandlerError + ())))).

Inductive TransactionError := OnBehalfOfOthers | TooManyPdus | TooManyEdus | InTransaction (e : HandlerError).

Definition in_transaction {A} (m : inbox A) : eff Inbox TransactionError A := fun s =>
  let r := m s in (fail_with InTransaction r.1, r.2).

Definition parse_pdu (done : list IncomingPdu) (pdu : string) : inbox (list IncomingPdu) :=
  r ← on_handler (attempt (parse_incoming_pdu pdu));
  mret (match r with inl _ => done | inr x => done ++ [x] end).

Definition send_transaction_message_route (origin body_origin : bytes) (pdus edus : list string)
    : eff Inbox TransactionError ResolvedMap :=
  if decide (origin <> body_origin) then throw OnBehalfOfOthers else
  if decide (PDU_LIMIT < length pdus) then throw TooManyPdus else
  if decide (EDU_LIMIT < length edus) then throw TooManyEdus else
  in_transaction (parsed ← for_each parse_pdu [] pdus;
                  handle origin (reorder "parsed" (parsed : list IncomingPdu)) (omap de_edu edus)).

(** ** What a transaction changes *)

Definition ib_node (s : Inbox) : node (L := L) (C := C) := Outliers.db (ib_handler s).
Definition ib_server (s : Inbox) : @Server L := node_server (proj1_sig (ib_node s)).

(** Updates only move what belongs to the origin's users. *)
Definition edu_confined (origin : bytes) (s s' : Inbox) : Prop :=
  edu_moves (L := L) cfg origin (ib_server s, ib_memory s) (ib_server s', ib_memory s').
#[global] Instance edu_confined_preorder origin : PreOrder (edu_confined origin).
Proof. split; [by intros s; unfold edu_confined|]. intros s1 s2 s3. unfold edu_confined. intros. by etrans. Qed.

Lemma inside_confined {A} origin (m : eff (@Server L * Memory) () A) Hm : confined (edu_confined origin) (inside origin m Hm).
Proof.
  intros s. unfold edu_confined, ib_server. specialize (Hm (ib_server s, ib_memory s)) as H. unfold inside. cbn -[edu_moves].
  unfold ib_server in H. by destruct (m _) as [o [s' m']].
Qed.

Definition same_world (h h' : Handler inbound_events) : Prop :=
  node_world (Outliers.db h' : node (L := L) (C := C)) = node_world (Outliers.db h : node (L := L) (C := C)).
#[global] Instance same_world_preorder : PreOrder same_world.
Proof. split; [done|]. intros h1 h2 h3 H1 H2. unfold same_world in *. by rewrite H2. Qed.

Lemma reads_world {A} (m : World -> eff (@Store L) RoomError A) s : srv_world (reads m s).2 = srv_world s.
Proof. unfold reads. by destruct (m _ _). Qed.

Lemma acl_same_world server room_id : confined same_world (acl_check server room_id).
Proof.
  unfold acl_check. apply confined_bind; [apply _| |intros [e|acl]; [apply confined_ret, _|]].
  - apply confined_attempt. intros h. exact (reads_world _ _).
  - repeat case_match; first [apply confined_ret, _ | apply confined_throw, _].
Qed.

Lemma acl_confined origin server room_id : confined (edu_confined origin) (on_handler (attempt (acl_check server room_id))).
Proof.
  intros s. pose proof (confined_attempt _ _ (acl_same_world server room_id) (ib_handler s)) as H.
  split; [apply edu_same; cbn; by f_equal|by left].
Qed.

Lemma handle_edu_confined origin edu : confined (edu_confined origin) (handle_edu origin edu).
Proof.
  destruct edu; cbn [handle_edu]; try case_match; try apply inside_confined; try apply confined_ret, _.
  - apply confined_for_each; [apply _|]. intros [] x.
    apply confined_bind; [apply _|apply acl_confined|intros [e|[]]]; [apply confined_ret, _|apply inside_confined].
  - unfold handle_edu_typing. case_decide as Hs; [apply confined_ret, _|]. rewrite <- Hs.
    apply confined_bind; [apply _|apply acl_confined|intros [e|[]]]; [apply confined_ret, _|apply inside_confined].
Qed.

(** C33. An update changes only what belongs to users of the server that sent it,
    whatever it holds and however handling it ends: their presence, receipts,
    typing and keys, the notes that their devices changed, and messages that they
    send.  All other rows and the timeline stay; only an update of this server's
    own users is passed on. *)
Theorem updates_of_own_users origin edu s :
  let s' := (handle_edu origin edu s).2 in
  (forall t k, maps (srv_world (ib_server s')) t !! k = maps (srv_world (ib_server s)) t !! k \/
     edu_row (cfg_server_name cfg) origin t k (maps (srv_world (ib_server s')) t !! k)) /\
  (forall r u, typing_of (ib_memory s') r u = typing_of (ib_memory s) r u \/ server_name u = origin).
Proof.
  change (edu_confined origin s (handle_edu origin edu s).2). revert s. apply handle_edu_confined.
Qed.

(** Events keep their positions. *)
Definition positions_kept (s s' : Inbox) : Prop :=
  forall e p, get_pdu_id e (ib_node s) = Some p -> get_pdu_id e (ib_node s') = Some p.
#[global] Instance positions_kept_preorder : PreOrder positions_kept.
Proof. split; [by intros s e|]. intros s1 s2 s3 H1 H2 e p Hp. by apply H2, H1. Qed.

Definition has_event (e : string) (s : Inbox) : Prop := entered e (ib_handler s).
#[global] Instance has_event_dec e s : Decision (has_event e s).
Proof. unfold has_event. apply _. Defined.

(** Steps that leave the timeline as it is. *)
Definition still_events (s s' : Inbox) : Prop := same_timeline (ib_handler s) (ib_handler s').
#[global] Instance still_events_preorder : PreOrder still_events.
Proof. split; [by intros s|]. unfold still_events. intros s1 s2 s3 H1 H2. by etrans. Qed.

Lemma still_kept {A Er} (m : eff Inbox Er A) : confined still_events m -> confined positions_kept m.
Proof. intros Hm s e p Hp. unfold ib_node in *. by rewrite (Hm s e). Qed.
Lemma still_turns {A Er} e (m : eff Inbox Er A) s : confined still_events m -> ~ turns (has_event e) m s.
Proof. intros Hm [Hn Hq]. apply Hn. unfold has_event, entered in *. by rewrite <- (Hm s e). Qed.

Lemma handler_still {A} (m : eff (Handler inbound_events) HandlerError A) :
  confined same_timeline m -> confined still_events (on_handler m).
Proof. intros Hm s. exact (Hm (ib_handler s)). Qed.

Lemma edu_still origin edu : confined still_events (handle_edu origin edu).
Proof.
  intros s e. destruct (handle_edu_confined origin edu s) as [H _].
  apply (events_same first). intros t Ht. unfold event_tables in Ht.
  eapply edu_untouched; [|exact H]. intros k v. clear H.
  repeat (apply elem_of_cons in Ht as [->|Ht]; [intros []|]). by apply elem_of_nil in Ht.
Qed.

Lemma edus_still origin edus : confined still_events (for_each (fun _ edu => handle_edu origin edu) () edus).
Proof. apply confined_for_each; [apply _|]. intros [] edu. apply edu_still. Qed.

Lemma parse_still pdus : confined still_events (for_each parse_pdu [] pdus).
Proof.
  apply confined_for_each; [apply _|]. intros acc pdu. apply confined_bind; [apply _| |intros r; apply confined_ret, _].
  apply handler_still, confined_attempt, (parse_same debug).
Qed.

Lemma running_still : confined still_events (on_handler check_running).
Proof. apply handler_still, running_same_timeline. Qed.

Abbreviation handle_one := (handle_incoming_pdu debug fetch_fuel resolve_fuel automatic_width prev_fuel max_fetch_prev_events).

Lemma one_room_kept origin acc x : confined positions_kept (handle_one_room origin acc x).
Proof.
  apply confined_bind; [apply _| |intros r; apply confined_ret, _]. apply confined_for_each; [apply _|].
  intros acc' [[r id] value]. apply confined_bind; [apply _|apply still_kept, running_still|intros _].
  apply confined_bind; [apply _| |intros res; apply confined_ret, _]. intros s.
  pose proof (confined_attempt _ _ (incoming_keeps debug fetch_fuel resolve_fuel automatic_width prev_fuel max_fetch_prev_events
    (unstr origin) x.1 id value true) (ib_handler s)) as H. exact H.
Qed.

(** The events of a transaction, with the state in which each is given to the
    event handler: the rooms one after the other, and the events of a room in order. *)
Inductive pdu_handled (origin : bytes) (pdus : list string) (s : Inbox) : string -> string -> CanonicalJsonObject -> Inbox -> Prop :=
| handled_at parsed s0 rooms1 room l1 r id value l2 rooms2 results s1 done s2 s3 :
    for_each parse_pdu [] pdus s = (Done parsed, s0) ->
    reorder "rooms" (by_room (reorder "parsed" parsed)) = rooms1 ++ (room, l1 ++ (r, id, value) :: l2) :: rooms2 ->
    for_each (handle_one_room origin) [] rooms1 s0 = (Done results, s1) ->
    for_each (handle_room_pdu origin room) [] l1 s1 = (Done done, s2) ->
    on_handler check_running s2 = (Done (), s3) ->
    pdu_handled origin pdus s room id value s3.

Lemma handle_turns e origin pdus edus s :
  turns (has_event e) (parsed ← for_each parse_pdu [] pdus;
    handle origin (reorder "parsed" (parsed : list IncomingPdu)) edus) s ->
  exists room id value s3, pdu_handled origin pdus s room id value s3 /\
    turns (entered e) (handle_one (unstr origin) room id value true) (ib_handler s3).
Proof.
  intros [H|(parsed & s0 & Hp & H)]%(turns_bind (has_event e)); [by apply still_turns in H; [|apply parse_still]|].
  apply (turns_bind (has_event e)) in H as [H|(res & s1 & _ & H)].
  - apply (turns_for_each (has_event e)) in H as (rooms1 & [room l] & rooms2 & results & s1 & Hr & H1 & H).
    apply (turns_bind (has_event e)) in H as [H|(? & ? & _ & [])]; [|done]. cbn [fst snd] in H.
    apply (turns_for_each (has_event e)) in H as (l1 & [[r id] value] & l2 & done & s2 & -> & H2 & H).
    apply (turns_bind (has_event e)) in H as [H|([] & s3 & H3 & H)]; [by apply still_turns in H; [|apply running_still]|].
    apply (turns_bind (has_event e)) in H as [H|(? & ? & _ & [])]; [|done].
    exists room, id, value, s3. split; [by eapply handled_at|]. by apply (turns_attempt (entered e)).
  - apply (turns_bind (has_event e)) in H as [H|(? & ? & _ & [])]; [|done]. by apply still_turns in H; [|apply edus_still].
Qed.

(** C28. A transaction that another server sends in the name of a third, or with too
    many events or updates, is refused and changes nothing.  Whatever a
    transaction holds and however handling it ends, events keep their positions
    in the timeline.  Each event that enters it enters while the event handler runs
    for an event of the transaction, in the call of the upgrade to the timeline
    that this run makes for it; there it was not soft-failed and passed the
    authorization rules in the state at it and in the current state of its room. *)
Theorem transactions_admit origin body_origin pdus edus s :
  let r := send_transaction_message_route origin body_origin pdus edus s in
  (origin <> body_origin \/ PDU_LIMIT < length pdus \/ EDU_LIMIT < length edus -> r.2 = s /\ exists e, r.1 = Fail e) /\
  (forall e p, get_pdu_id e (ib_node s) = Some p -> get_pdu_id e (ib_node r.2) = Some p) /\
  (forall e, get_pdu_id e (ib_node s) = None -> get_pdu_id e (ib_node r.2) <> None ->
     exists room id value s1 create pdu val h, pdu_handled origin pdus s room id value s1 /\
       upgrade_call debug fetch_fuel resolve_fuel automatic_width prev_fuel max_fetch_prev_events (unstr origin) room id
         value (ib_handler s1) create pdu val h /\
       event_id pdu = e /\ get_pdu_id e (Outliers.db h) = None /\
       get_pdu_id e (Outliers.db (upgrade_outlier_to_timeline_pdu debug fetch_fuel resolve_fuel automatic_width pdu val
         create (unstr origin) room h).2) <> None /\
       admitted debug fetch_fuel resolve_fuel automatic_width create (unstr origin) room pdu h).
Proof.
  unfold send_transaction_message_route. case_decide; [by split_and!; [eauto|..]|].
  case_decide; [by split_and!; [eauto|..]|]. case_decide; [by split_and!; [eauto|..]|].
  split; [intros [?|[?|?]]; done|].
  set (m := parsed ← for_each parse_pdu [] pdus; handle origin (reorder "parsed" (parsed : list IncomingPdu)) (omap de_edu edus)).
  assert (confined positions_kept m) as Hk.
  { apply confined_bind; [apply _|apply still_kept, parse_still|intros l].
    apply confined_bind; [apply _| |intros res].
    - apply confined_for_each; [apply _|]. intros acc x. apply one_room_kept.
    - apply confined_bind; [apply _|apply still_kept, edus_still|intros _; apply confined_ret, _]. }
  split; [exact (Hk s)|]. intros e Hn Hs.
  destruct (handle_turns e origin pdus (omap de_edu edus) s) as (room & id & value & s3 & Hp & Ht).
  { split; [intros Hx; exact (Hx Hn)|exact Hs]. }
  destruct (incoming_turns _ _ _ _ _ _ _ _ _ _ _ _ _ Ht) as (create & pdu & val & h & Hc & Hu).
  destruct (upgrade_turns _ _ _ _ _ _ _ _ _ _ _ Hu) as [He Ha]. destruct Hu as [Hn1 Hu].
  exists room, id, value, s3, create, pdu, val, h. split_and!; [done..| |done|done]. by apply dec_stable.
Qed.
End transactions.

(** ** Repeated messages *)

Section once.
Context (debug : bool) {E : Engine} {I : Ids} {JT : JsonText} {UJ : UserJson} {IR : InboundRuma}.
Context {sched : Schedule} {L : LruCache Z ShortStateInfoVec}.
Implicit Types s : @Server L * Memory.

Abbreviation receive_message := (handle_edu_direct_to_device (L := L) debug).

Lemma set_db_same (s : @Server L) : set_db s (srv_world s) = s.
Proof. by destruct s as [[[] ? ?] ? ? ?]. Qed.

(** What is known of a message's id decides whether it is handled. *)
Lemma direct_known origin sender ty id messages s :
  server_name sender = origin -> txn_ok sender None id ->
  receive_message origin sender ty id messages s =
    match maps (srv_world s.1) userdevicetxnid_response !! txn_key sender None id with
    | Some _ => (Done (), s)
    | None => (_ ← for_each (handle_edu_direct_to_device_user debug sender ty) () (reorder "messages" (map_to_list messages));
               _ ← on_world (fun _ => add_txnid sender None id []); mret ()) s
    end.
Proof.
  intros Hs Ho. unfold handle_edu_direct_to_device. rewrite decide_False by auto. unfold mbind at 1, eff_bind at 1.
  unfold on_world at 1, query. rewrite (txn_query debug _ _ _ _ Ho). unfold get. destruct s as [s m]. cbn [fst snd].
  destruct (maps (srv_world s) _ !! _); cbn; by rewrite set_db_same.
Qed.

(** C40. A message to a device of this server is added to those of the device, with
    the next number; when the other server sends it again under the same id,
    nothing happens, whatever the repetition holds. *)
Theorem message_delivered_once origin sender ty id u d raw content m s messages :
  server_name sender = origin -> txn_ok sender None id ->
  maps (srv_world s.1) userdevicetxnid_response !! txn_key sender None id = None ->
  mailbox (srv_world s.1) m -> device_ok u d -> count_ok 1 (srv_world s.1) -> de_content raw = Some content ->
  utf8_valid (ser_to_device ty sender content) = true -> json_raw_ok (ser_to_device ty sender content) = true ->
  exists s', receive_message origin sender ty id {[u := [(ToDeviceId d, raw)]]} s = (Done (), s') /\
    mailbox (srv_world s'.1) (<[(u, d, current (srv_world s.1) + 1)%Z := ser_to_device ty sender content]> m) /\
    receive_message origin sender ty id messages s' = (Done (), s').
Proof.
  intros Hs Ho Hn M Hd Hc Hv Hu Hj. destruct s as [s mem]. cbn [fst snd] in *.
  destruct (send_refines debug (srv_world s) m sender u d ty content) as (w1 & Hw & M1); [done..|].
  set (w2 := ins userdevicetxnid_response (txn_key sender None id) [] w1).
  exists (set_db s w2, mem). assert (srv_world (set_db s w2) = w2) as Ew by by destruct s as [[[] ? ?] ? ? ?].
  split_and!.
  - rewrite direct_known by done. cbn [fst snd]. rewrite Hn, map_to_list_singleton.
    rewrite (Permutation_length_1_inv (symmetry (reorder_perm _ "messages" [(u, [(ToDeviceId d, raw)])]))).
    unfold handle_edu_direct_to_device_user. cbn [for_each fst snd]. rewrite Hv. cbn [handle_edu_direct_to_device_event].
    unfold mbind, eff_bind, on_world, mret, eff_ret. cbn [fst snd]. rewrite Hw. cbn [fst snd logged].
    unfold add_txnid, set_row, modify. cbn [fst snd logged].
    assert (srv_world (set_db s w1) = w1) as -> by by destruct s as [[[] ? ?] ? ? ?].
    assert (sender ++ SEP :: default [] None ++ SEP :: id = txn_key sender None id) as ->.
    { unfold txn_key, one_time_key_prefix. by norm_app. }
    by destruct s as [[[] ? ?] ? ? ?].
  - cbn [fst]. rewrite Ew. destruct M1 as [A1 R1]. split; [done|]. intros k t. unfold w2. world_simpl. apply R1.
  - rewrite direct_known by done. cbn [fst]. rewrite Ew. unfold w2. world_simpl. by rewrite lookup_insert_eq.
Qed.
End once.
