(* ===== verification/ToyInbound.v ===== *)
(** * A small server that receives transactions

    The parameters of [ToyNode] and [ToyUsers] with those of [Inbound]: a user of
    another server joins the room and types in the same transaction, and sends a
    message to a device. *)

From stdpp Require Import prelude gmap strings list sorting.
From Stdlib Require Import ZArith Lia.
From Stdlib Require Import Strings.Byte.
From S2P Require Import Prelude MachineInt PduCount Matrix EventAuth DbCodec DbMap CoreUtils Effects Short World.
From S2P Require Import StateCache Sending SenderSystem Outliers OutlierStore FetchPrev StateCompressor AuthChain.
From S2P Require Import StateAccessor RoomState RoomTables Alias AppendPdu ToyServer Users ToDevice ToyUsers.
From S2P Require Import KeyBackups Presence Typing Upgrade Node ToyNode Inbound.
Import PduId.

Module ToyInbound.
Import ToyServer.
#[local] Existing Instance ToyNode.node_ruma.
#[local] Existing Instance ToyNode.handler_ruma.
#[local] Existing Instance ToyNode.federation.
#[local] Existing Instance ToyNode.chains.
#[local] Existing Instance ToyUsers.user_json.
#[local] Existing Instance ToyPresence.presence_json.

Definition bob : bytes := str "@bob:b".

Definition inbound_ruma : InboundRuma :=
  {| de_edu := fun text =>
       if decide (text = "bob types") then Some (TypingEdu (str room) bob true)
       else if decide (text = "alice types") then Some (TypingEdu (str room) (str alice) true) else None;
     de_content := Some;
     ser_receipt := fun r e u d => r ++ SEP :: e ++ SEP :: u ++ SEP :: d |}.
#[local] Existing Instance inbound_ruma.

Definition rules : InboundConfig := MkInboundConfig true true true 30.
Definition memory : Memory := MkMemory ∅ ∅ [] [] true 0.
Definition now (n : nat) : Z := 1000.

Abbreviation transaction := (send_transaction_message_route true 4 true config admin marked event_id_ok
  ToyAlias.alias_ok (fun _ _ => None) (fun _ => 0%Z) [] 0 50 50 1 50 192 rules ToyPresence.config true
  (fun r u _ => u) now).

Definition start : Inbox true := MkInbox true ToyNode.start memory.

(** ** A join and typing *)

Definition bob_joins : string := unstr (JsonCode.text (object ToyNode.bob)).
Definition ended := transaction (str "b") (str "b") [bob_joins] ["bob types"; "alice types"] start.

(** Bob is in the room and types; what his server said of alice is ignored. *)
Example bob_joins_and_types :
  match ended.1 with Done results => results !! "$join@bob:b" = Some (inr ()) | _ => False end /\
  Outliers.get_pdu_id "$join@bob:b" (Outliers.db (ib_handler true ended.2)) <> None /\
  typing_of (ib_memory true ended.2) (str room) bob = Some 31000%Z /\
  typing_of (ib_memory true ended.2) (str room) (str alice) = None.
Proof. vm_compute. split_and!; [reflexivity|discriminate|reflexivity|reflexivity]. Qed.

#[local] Instance events : PduStore := inbound_events true.
#[local] Instance services : RoomServices := inbound_services true 4 true config admin marked event_id_ok
  ToyAlias.alias_ok (fun _ _ => None) (fun _ => 0%Z) [] 0.

Lemma bob_was_absent : Outliers.get_pdu_id "$join@bob:b" (ib_node true start) = None.
Proof. vm_compute. reflexivity. Qed.
Lemma bob_is_there : Outliers.get_pdu_id "$join@bob:b" (ib_node true ended.2) <> None.
Proof. vm_compute. discriminate. Qed.

(** In this transaction the handler was given an event, and admitted bob's join. *)
Lemma transactions_admit_witness :
  exists r id value s1 create pdu val h,
    pdu_handled true 4 true config admin marked event_id_ok ToyAlias.alias_ok (fun _ _ => None) (fun _ => 0%Z) [] 0 50 50 1
      50 192 (str "b") [bob_joins] start r id value s1 /\
    upgrade_call true 50 50 1 50 192 "b" r id value (ib_handler true s1) create pdu val h /\
    event_id pdu = "$join@bob:b" /\ admitted true 50 50 1 create "b" r pdu h.
Proof.
  destruct (transactions_admit true 4 true config admin marked event_id_ok ToyAlias.alias_ok (fun _ _ => None)
    (fun _ => 0%Z) [] 0 50 50 1 50 192 rules ToyPresence.config true (fun r u _ => u) now (str "b") (str "b")
    [bob_joins] ["bob types"; "alice types"] start) as (_ & _ & H).
  pose proof bob_is_there as Hb. unfold ended in Hb.
  destruct (H "$join@bob:b" bob_was_absent Hb)
    as (r & id & value & s1 & create & pdu & val & h & H1 & H2 & H3 & _ & _ & H4).
  exists r, id, value, s1, create, pdu, val, h. exact (conj H1 (conj H2 (conj H3 H4))).
Defined.

(** ** A message that is sent twice *)

Definition server_state : Server * Memory := (empty_server, memory).
Definition phone : bytes := ToyUsers.phone.

Lemma no_mail_here : mailbox (srv_world empty_server) ∅.
Proof. split; [done|]. intros k v. split; [done|]. by intros (? & _ & ?). Qed.

Lemma message_delivered_once_witness :
  exists s', handle_edu_direct_to_device true (str "b") bob (str "m.room_key") (str "t1")
      {[ ToyUsers.alice := [(ToDeviceId phone, str "{}")] ]} server_state = (Done (), s') /\
    mailbox (srv_world s'.1) {[ (ToyUsers.alice, phone, 11%Z) := ser_to_device (str "m.room_key") bob (str "{}") ]} /\
    handle_edu_direct_to_device true (str "b") bob (str "m.room_key") (str "t1")
      {[ ToyUsers.alice := [(AllDevices, str "{}")] ]} s' = (Done (), s').
Proof.
  apply (message_delivered_once true (str "b") bob (str "m.room_key") (str "t1") ToyUsers.alice phone (str "{}") (str "{}")
    ∅ server_state {[ ToyUsers.alice := [(AllDevices, str "{}")] ]}).
  - vm_compute. reflexivity.
  - split; [vm_compute; reflexivity|split; [done|vm_compute; reflexivity]].
  - done.
  - apply no_mail_here.
  - apply ToyUsers.phone_ok.
  - split; [vm_compute; split; discriminate|vm_compute; reflexivity].
  - reflexivity.
  - vm_compute. reflexivity.
  - reflexivity.
Defined.
End ToyInbound.
